(* ===== verification/_CoqProject ===== *)
-Q . S2P
Prelude.v
Status.v
SafeStream.v
Protocol.v
Context.v
FlowSender.v
FlowReceiver.v
Reassembly.v
FlowLink.v
Pipe.v
Options.v
Timeout.v
Dial.v
Batch.v
ServerStream.v
TunnelServer.v
Served.v
ClientStream.v
TunnelChannel.v
Invoke.v
Tunnel.v
Windows.v
Delivery.v
Progress.v
ReverseChannels.v
ReverseServer.v
Opening.v
Handler.v
Ends.v
System.v
