(* ===== verification/Prelude.v ===== *)
(** * A verification development of grpctunnel

    grpctunnel carries gRPC calls over one gRPC stream, the tunnel.  The end that
    issues the calls (the channel) and the end that serves them (the server)
    exchange frames tagged with stream IDs; each RPC has its own stream, with a
    flow-control window in each direction.  In a forward tunnel the network client
    is the channel; in a reverse tunnel the roles are swapped.

    ** Parts and files

    - Prelude: machine integers, Go's [len] and slices, sums and counts, and labelled
      transition systems.  A component whose operations interleave is an
      executable function [step : label -> state -> option state]; a label is one
      atomic action (what happens under one mutex, or one atomic operation), and
      [run] is a sequence of them in any order.  A theorem about all runs is thus a
      theorem about all interleavings of the goroutines.
    - Status, Protocol: errors and status values, metadata, the frames of
      tunnelpb/tunnel.pb.go, revisions (flow_control.go, handler.go).
    - SafeStream: the four [threadSafeOpen*] types of tunnel_client.go and
      reverse_server.go, with every method down to lock, call and unlock.
    - Context: the accessors of tunnel_metadata.go and the contexts they look in.
    - FlowSender, FlowReceiver: [sender] and [receiver] of flow_control.go.
    - Reassembly: [readMsg] and [readMsgLocked], which tunnel_server.go and
      tunnel_client.go each define for their own stream.
    - FlowLink, Pipe: one direction of a stream, from the sender of one peer to the
      reader of the other; and its refinement of a queue of whole messages.
    - Options: options.go and establish.go.   Timeout: [timeoutFromHeaders].
      Dial, Batch: blocking_dial.go and client_batch.go of internal/.
    - ServerStream, TunnelServer: [tunnelServerStream] and [tunnelServer] of
      tunnel_server.go.   Served: the same server with the call of [isClosing] as an
      action of its own, as the handler and the reverse server need it.
    - ClientStream, TunnelChannel: [tunnelClientStream] and [tunnelChannel] of
      tunnel_client.go.   Invoke: unary calls, interleaved
      with everything else on their channel.
    - Tunnel: a channel and a server together, with all their streams.
    - Windows, Delivery, Progress: the flow-control windows and the data of all streams
      of a tunnel at once, and that no call waits for what was sent.
    - ReverseChannels: the tables of reverse tunnels of handler.go.
    - ReverseServer: [ReverseTunnelServer] of reverse_server.go: all calls of [Serve],
      from the opening of the RPC to its return, with [Stop] and [GracefulStop].
    - Opening: [Start] of tunnel_client.go with its timer and its channel.
    - Handler: [TunnelServiceHandler] of handler.go: all calls of [openTunnel] and
      [openReverseTunnel] with their servers, channels and callbacks, shutdown, and
      the channels over all tunnels ([AsChannel], [KeyAsChannel]).
    - Ends, System: the whole program, a network server with its handler and a network
      client with its calls of [Start] and [Serve]; each of its tunnels is one of
      Tunnel.v.

    A record field or function has the name of the code, with a short prefix where
    two types share it ([ss_]: server stream, [ts_]: tunnel server, [cs_]: client
    stream, [ch_]: channel, and so on).  The state of a stream's goroutines is kept
    beside the state of its struct ([stream_conf], [client_conf]): where the
    handler, the goroutine in [finishStream] or a blocked reader is.  The server and
    the channel hold the states of all streams ever created, since a stream that
    has left the table still has goroutines.

    ** What is shown

    - The whole program: its tunnels do not disturb each other, and each behaves as
      one tunnel alone ([system_refines_tunnels]), so RPCs work in it
      ([system_delivers]) and no call waits for what was sent ([system_progress]).
    - One tunnel: what is read on one end is what was sent on the other
      ([tunnel_delivers]); two ends of this package never bring their tunnel down
      ([tunnel_stays_up]); they agree on the windows of all streams, so that flow
      control never ends an RPC ([tunnel_windows_agree]); who waits in [RecvMsg] has
      been given all that was sent, and no [SendMsg] waits for one that waits
      ([tunnel_progress]); a stream direction delivers
      everything, in order, for all options ([configured_stream_flows]), as a queue of
      whole messages ([link_refines_pipe]); and the reading loop puts any frames
      together as the protocol has them ([read_loop_assembles]).
    - Streams: frames are sent in order and at most once ([server_frames_once],
      [server_frame_order], [client_frames_once]), outcomes are decided once
      ([client_outcome_is_final]), nothing that arrived is lost on close
      ([client_close_keeps_messages]), and a stream that must end does, in a bounded
      number of actions ([server_stream_finishes], [client_stream_finishes]).
    - Ends of a tunnel: which messages are protocol errors, which streams are run,
      what a closed channel does, and exact tables of streams and tunnels.
    - The life of tunnels: the result of [Start] ([start_outcome]) and of [Serve]
      ([serve_outcome]); a reverse tunnel is usable when and only when the callbacks
      say so ([reverse_tunnel_lifecycle]), and its RPC returns
      ([openReverseTunnel_returns]); after a shutdown or a stop no RPC is started and
      those that run go on ([shutdown_drains], [closing_starts_nothing],
      [stop_means_stopped]); calls over all tunnels use one that is usable
      ([multi_call_outcome]).
    - The wrapped streams: calls take effect one at a time
      ([wrapper_is_atomic]) and return ([wrapper_calls_return]).
    - Flow control: windows are conserved, no wake-up is lost, messages are framed
      and read back.
    - Options, timeouts, establishment, contexts ([context_accessors]), dialing
      ([dial_outcome]); and the result of [Invoke], run in between everything else that
      happens to its channel ([unary_call_outcome]).
    - Behaviour that a comment, the protocol or the caller would not expect
      ([server_read_spurious_message], [server_data_after_close],
      [empty_continuations_unbounded], [invoke_hides_status], [new_stream_panics],
      [stream_ids_overflow], [timeout_hours_overflow],
      [graceful_stop_waits_for_peer], [dial_error_lost]).
    - The test client: which error it reports, and that it ends ([batch_outcome],
      [batch_done]).

    ** Bounds and fuel

    The only fuel is that of [read_loop]: each round takes an item from the queue, so
    [read_fuel], one more than the length of the queue, is enough
    ([read_loop_total]).  [uint32] and [int64] values are integers with the
    wrap-around written out.  Theorems on channels assume that a run has at most
    [MaxInt64] actions, so that stream IDs do not wrap ([stream_ids_overflow] says
    what happens when they do).

    ** What is a parameter

    Package status of gRPC ([StatusLib]), package metadata ([MetadataLib],
    [MetadataAppend], [ContextLib]) and errgroup ([ErrGroup]) are type classes with
    the documented laws and an executable instance for the examples.  The results of
    [proto.Marshal], [proto.Unmarshal],
    of [Send] and [Recv] of the underlying stream, of the credentials and of the
    handlers of RPCs are arguments or labels.  A context is its error: the
    model does not say when a deadline passes, only that it can.

    ** What is not modelled

    - Generated code (tunnelpb/*.pb.go, beyond the message types) and debug logging.
    - The programs under internal/cmd: flags, dialing, logging, network I/O.  Of
      internal/client_batch.go the contents of the messages.
    - The response headers that the handler sends, and the registration of services
      with grpchan: a service is an argument ([QueryService]).
    - Data races: an atomic action of the model is what the code does under a
      mutex or with one atomic operation; fields that are read without either are
      read where the code reads them.  Four actions are coarser than that.  A read
      ([CRecv], [FRecv]) takes what is in the queue, and sends the window updates for it,
      in one action, in which [done], [halfClosed] and the context are fixed; a frame that
      comes in between in the code is seen by the next action of the same read.
      [finishStream_begin] cancels the context, takes the stream from the table and sets
      [halfClosed] at once; [finishStream_deferred] closes the receiver and cancels the
      context at once.  The timer of [newReverseChannel] looks at the settings and closes
      the channel at once ([KTimeout]); the channel can also be closed at any other time
      ([KClose]).
    - The network of System loses nothing before the stream fails, and a message that
      it has taken is delivered as it was.

    ** Left to do

    Bounds on the number of actions of a whole tunnel (those of one stream are shown),
    and theorems on [Stop] and shutdown that speak of both ends of a tunnel, which
    System makes possible. *)
From stdpp Require Export prelude gmap strings list relations.
From Stdlib Require Export ZArith Lia.

(** ** Scopes *)

Declare Scope tunnel_scope.
Delimit Scope tunnel_scope with tunnel.
#[global] Open Scope tunnel_scope.
#[global] Open Scope Z_scope.

(** ** Machine integers

    A Go integer is a [Z]; an operation that can leave the range of its type is
    written with the wrap-around of that type. *)

Definition u32 (z : Z) : Z := z mod 4294967296.
Definition u64 (z : Z) : Z := z mod 18446744073709551616.
Definition i64 (z : Z) : Z :=
  (z + 9223372036854775808) mod 18446744073709551616 - 9223372036854775808.

Definition MaxUint32 : Z := 4294967295.
Definition MaxInt64 : Z := 9223372036854775807.
Definition MinInt64 : Z := -9223372036854775808.

Notation "a +u b" := (u32 (a + b)) (at level 50, left associativity) : tunnel_scope.
Notation "a -u b" := (u32 (a - b)) (at level 50, left associativity) : tunnel_scope.

(** Being a value of Go's [uint32]. *)
Definition is_u32 (z : Z) : Prop := 0 <= z <= MaxUint32.

Lemma u32_small z : is_u32 z -> u32 z = z.
Proof. unfold is_u32, MaxUint32, u32. intros. apply Z.mod_small. lia. Qed.

Lemma u32_range z : is_u32 (u32 z).
Proof. unfold is_u32, MaxUint32, u32. pose proof (Z.mod_pos_bound z 4294967296). lia. Qed.

Lemma u64_small z : 0 <= z < 18446744073709551616 -> u64 z = z.
Proof. unfold u64. apply Z.mod_small. Qed.

Lemma i64_small z : MinInt64 <= z <= MaxInt64 -> i64 z = z.
Proof. unfold MinInt64, MaxInt64, i64. intros. rewrite Z.mod_small by lia. lia. Qed.

(** [u32_lia]: [lia] with the wrap-around of the fixed-width operations turned
    into its quotient. *)
Ltac u32_lia :=
  unfold is_u32, MaxUint32, MaxInt64, MinInt64, u32, u64, i64 in *;
  Z.to_euclidean_division_equations; lia.

(** ** Slices *)

(** Go's [[]byte]. *)
Abbreviation bytes := (list Corelib.Init.Byte.byte).

(** Go's [len] of a slice. *)
Definition len {A} (l : list A) : Z := Z.of_nat (length l).

Lemma len_nil {A} : len (@nil A) = 0.
Proof. done. Qed.
Lemma len_cons {A} (x : A) l : len (x :: l) = 1 + len l.
Proof. unfold len. simpl. lia. Qed.
Lemma len_app {A} (l k : list A) : len (l ++ k) = len l + len k.
Proof. unfold len. rewrite length_app. lia. Qed.
Lemma len_nonneg {A} (l : list A) : 0 <= len l.
Proof. unfold len. lia. Qed.
Lemma len_zero {A} (l : list A) : len l = 0 -> l = [].
Proof. destruct l; [done|]. rewrite len_cons. pose proof (len_nonneg l). lia. Qed.

(** The two halves of the Go slice expressions [l[:n]] and [l[n:]]. *)
Definition slice_to {A} (n : Z) (l : list A) : list A := take (Z.to_nat n) l.
Definition slice_from {A} (n : Z) (l : list A) : list A := drop (Z.to_nat n) l.

Lemma slice_to_from {A} n (l : list A) : slice_to n l ++ slice_from n l = l.
Proof. apply take_drop. Qed.
Lemma len_slice_to {A} n (l : list A) : 0 <= n <= len l -> len (slice_to n l) = n.
Proof. unfold len, slice_to. intros. rewrite length_take. lia. Qed.
Lemma len_slice_from {A} n (l : list A) :
  0 <= n <= len l -> len (slice_from n l) = len l - n.
Proof. unfold len, slice_from. intros. rewrite length_drop. lia. Qed.
Lemma slice_to_all {A} (l : list A) : slice_to (len l) l = l.
Proof. unfold slice_to, len. rewrite Nat2Z.id. by apply firstn_all. Qed.
Lemma slice_from_all {A} (l : list A) : slice_from (len l) l = [].
Proof. unfold slice_from, len. rewrite Nat2Z.id. apply drop_all. Qed.

(** ** Sums *)

Definition zsum (l : list Z) : Z := foldr Z.add 0 l.

Lemma zsum_app l k : zsum (l ++ k) = zsum l + zsum k.
Proof. induction l as [|x l IH]; simpl; [done|]. unfold zsum in *. simpl. lia. Qed.
Lemma zsum_cons x l : zsum (x :: l) = x + zsum l.
Proof. done. Qed.
Lemma zsum_nonneg l : Forall (Z.le 0) l -> 0 <= zsum l.
Proof. induction 1; unfold zsum in *; simpl; lia. Qed.

(** The number of elements that satisfy a test. *)
Definition count {A} (p : A -> bool) (l : list A) : Z :=
  zsum ((fun x => if p x then 1 else 0) <$> l).

Lemma count_nil {A} (p : A -> bool) : count p [] = 0.
Proof. done. Qed.
Lemma count_cons {A} (p : A -> bool) x l : count p (x :: l) = (if p x then 1 else 0) + count p l.
Proof. done. Qed.
Lemma count_app {A} (p : A -> bool) l k : count p (l ++ k) = count p l + count p k.
Proof. unfold count. by rewrite fmap_app, zsum_app. Qed.
Lemma count_nonneg {A} (p : A -> bool) l : 0 <= count p l.
Proof. induction l as [|x l IH]; [done|]. rewrite count_cons. destruct (p x); lia. Qed.
Lemma count_none {A} (p : A -> bool) l : Forall (fun x => p x = false) l -> count p l = 0.
Proof. induction 1 as [|x l Hx _ IH]; [done|]. by rewrite count_cons, Hx. Qed.

Lemma count_perm {A} (p : A -> bool) l k : l ≡ₚ k -> count p l = count p k.
Proof. induction 1; rewrite ?count_cons; lia. Qed.

Lemma zsum_perm l k : l ≡ₚ k -> zsum l = zsum k.
Proof. induction 1; rewrite ?zsum_cons; lia. Qed.

(** The sum of a function over the values of a map. *)
Definition map_sum {K A} `{Countable K} (f : A -> Z) (m : gmap K A) : Z :=
  zsum ((fun p => f p.2) <$> map_to_list m).

Section MapSum.
Context {K A : Type} `{Countable K} (f : A -> Z).

Lemma map_sum_empty : map_sum f (∅ : gmap K A) = 0.
Proof. unfold map_sum. by rewrite map_to_list_empty. Qed.

Lemma map_sum_insert (m : gmap K A) i x : m !! i = None -> map_sum f (<[i := x]> m) = f x + map_sum f m.
Proof.
  intros Hi. unfold map_sum.
  by rewrite (zsum_perm _ _ (fmap_Permutation _ _ _ (map_to_list_insert m i x Hi))).
Qed.

Lemma map_sum_update (m : gmap K A) i x y :
  m !! i = Some x -> map_sum f (<[i := y]> m) = map_sum f m - f x + f y.
Proof.
  intros Hi. rewrite <- (insert_delete_id m i x Hi) at 2.
  rewrite <- insert_delete_eq, !map_sum_insert by apply lookup_delete_eq. lia.
Qed.

Lemma map_sum_nonneg (m : gmap K A) : (forall i x, m !! i = Some x -> 0 <= f x) -> 0 <= map_sum f m.
Proof.
  intros Hf. apply zsum_nonneg, Forall_forall. intros z Hz.
  apply list_elem_of_fmap in Hz as ([i x] & -> & Hx). apply elem_of_map_to_list in Hx. by apply (Hf i).
Qed.

Lemma map_sum_one (m : gmap K A) i x :
  (forall i x, m !! i = Some x -> 0 <= f x) -> m !! i = Some x -> f x <= map_sum f m.
Proof.
  intros Hf Hi. rewrite <- (insert_delete_id m i x Hi), map_sum_insert by apply lookup_delete_eq.
  assert (0 <= map_sum f (delete i m)); [|lia]. apply map_sum_nonneg.
  intros j y [_ Hj]%lookup_delete_Some. by eapply Hf.
Qed.
End MapSum.

Create Rewrite HintDb lens.
Create HintDb len.
#[export] Hint Rewrite @len_nil @len_cons @len_app zsum_app zsum_cons : lens.
#[export] Hint Resolve len_nonneg u32_range : len.

(** ** Case analysis on step functions

    [step_cases] splits every [match] of the hypotheses and the goal and
    clears the equations that result. *)
Ltac step_cases := simplify_eq/=; repeat (case_match; simplify_eq/=).

(** [step_in H] does so for the matches of [H] alone. *)
Ltac step_in H :=
  repeat match type of H with
  | context [match ?x with _ => _ end] => destruct x eqn:?; simplify_eq/=
  end; simplify_eq/=.

(** ** Labelled transition systems

    A component whose operations interleave is given by an executable step
    function: [step l s] is the state after the atomic action [l], or [None]
    when [l] cannot happen in [s]. *)
Section Runs.
Context {L S : Type} (step : L -> S -> option S).

Fixpoint run (ls : list L) (s : S) : option S :=
  match ls with
  | [] => Some s
  | l :: ls => match step l s with Some s' => run ls s' | None => None end
  end.

Definition enabled (l : L) (s : S) : Prop := is_Some (step l s).

Definition step_rel (s s' : S) : Prop := exists l, step l s = Some s'.

Lemma run_app ls ks s :
  run (ls ++ ks) s = match run ls s with Some s' => run ks s' | None => None end.
Proof.
  revert s. induction ls as [|l ls IH]; intros s; simpl; [done|].
  destruct (step l s); [apply IH|done].
Qed.

Lemma run_snoc ls l s s' :
  run (ls ++ [l]) s = Some s' ->
  exists s1, run ls s = Some s1 /\ step l s1 = Some s'.
Proof. rewrite run_app. simpl. intros. step_cases; eauto. Qed.

(** Induction on a run, for an invariant that may mention the trace. *)
Lemma run_history (I : list L -> S -> Prop) s0 :
  I [] s0 ->
  (forall ls l s s', I ls s -> step l s = Some s' -> I (ls ++ [l]) s') ->
  forall ls s, run ls s0 = Some s -> I ls s.
Proof.
  intros H0 Hstep ls. induction ls as [|l ls IH] using rev_ind; intros s Hrun.
  - simpl in Hrun. by simplify_eq.
  - apply run_snoc in Hrun as (s1 & Hrun & Hl). eauto.
Qed.

Lemma run_invariant (I : S -> Prop) s0 :
  I s0 ->
  (forall l s s', I s -> step l s = Some s' -> I s') ->
  forall ls s, run ls s0 = Some s -> I s.
Proof. intros H0 Hstep. apply (run_history (fun _ => I)); eauto. Qed.

(** When a measure decreases at every step, no run is longer than the
    measure of its first state, and some run reaches a state with no step. *)
Lemma run_bounded (I : S -> Prop) (M : S -> Z) :
  (forall l s s', I s -> step l s = Some s' -> I s' /\ 0 <= M s' < M s) ->
  forall ls s s', I s -> 0 <= M s -> run ls s = Some s' -> len ls + M s' <= M s.
Proof.
  intros Hdec ls. induction ls as [|l ls IH]; intros s s' HI HM Hrun; simpl in Hrun.
  - simplify_eq. rewrite len_nil. lia.
  - destruct (step l s) as [s1|] eqn:Hl; [|done].
    destruct (Hdec _ _ _ HI Hl) as [HI1 HM1].
    rewrite len_cons. specialize (IH _ _ HI1 (proj1 HM1) Hrun). lia.
Qed.

Lemma run_to_stuck (I : S -> Prop) (M : S -> Z) :
  (forall l s s', I s -> step l s = Some s' -> I s' /\ 0 <= M s' < M s) ->
  (forall s, I s -> (exists l s', step l s = Some s') \/ (forall l, step l s = None)) ->
  forall s, I s -> 0 <= M s ->
  exists ls s', run ls s = Some s' /\ I s' /\ (forall l, step l s' = None).
Proof.
  intros Hdec Hstuck s HI HM. remember (Z.to_nat (M s)) as n eqn:Hn.
  revert s HI HM Hn. induction n as [n IH] using lt_wf_ind. intros s HI HM Hn.
  destruct (Hstuck s HI) as [(l & s1 & Hl)|Hno].
  - destruct (Hdec _ _ _ HI Hl) as [HI1 HM1].
    destruct (IH (Z.to_nat (M s1))) with (s := s1) as (ls & s' & ? & ? & ?); try lia; auto.
    exists (l :: ls), s'. simpl. rewrite Hl. auto.
  - by exists [], s.
Qed.
End Runs.
