(* ===== verification/Status.v ===== *)
(** * Errors and gRPC statuses

    The error values that grpctunnel creates, compares and passes on, and the
    interface of the [status] package of grpc-go through which it inspects
    errors it did not create.  That package is not part of the repository, so
    its functions are the operations of a class, with their documented
    behaviour as laws. *)
From S2P Require Import Prelude.

(** ** Status codes: those the code names, and the rest by number. *)
Inductive code :=
  | OK | Canceled | Unknown | InvalidArgument | DeadlineExceeded
  | ResourceExhausted | FailedPrecondition | Unimplemented | Internal
  | Unavailable | Unauthenticated
  | OtherCode (n : Z).

#[export] Instance code_eq_dec : EqDecision code.
Proof. solve_decision. Defined.

(** ** Messages

    A message is kept as its format string with the arguments of the
    [Errorf] call that builds it. *)
Inductive message := Msg (format : string) (args : list argument)
with argument :=
  | AStr (s : string)
  | AInt (z : Z)
  | AInts (l : list Z)
  | AMsg (m : message)
  | AType (go_type : string).

Record status := Status { st_code : code; st_message : message }.

(** ** Go errors

    [io.EOF] and the two sentinel errors of [context] are compared by
    identity; [status.Errorf] and [errors.New] make the others.  [Opaque] is an
    error of the transport or of the application. *)
Inductive error :=
  | EOF
  | ContextCanceled
  | ContextDeadlineExceeded
  | StatusError (st : status)
  | ErrorsNew (text : string)
  | Opaque (text : string).

(** [status.Errorf(code, format, args...)]. *)
Definition Errorf (c : code) (format : string) (args : list argument) : error :=
  StatusError (Status c (Msg format args)).

(** [errors.Is(err, io.EOF)] and the like: the sentinels wrap nothing. *)
Definition is_EOF (e : error) : bool := match e with EOF => true | _ => false end.
Definition is_ContextCanceled (e : error) : bool :=
  match e with ContextCanceled => true | _ => false end.

(** The texts of the sentinel errors, [err.Error()] in the standard library. *)
Definition context_text (e : error) : string :=
  match e with
  | ContextCanceled => "context canceled"
  | ContextDeadlineExceeded => "context deadline exceeded"
  | _ => ""
  end.

(** ** The interface of package [status]

    - [FromError err] gives the status of an error and whether the error
      carries one; an error that carries none gets code [Unknown].
    - [FromContextError err] maps the context errors to their codes, and any
      other error to [Unknown].
    - [status_Err st] is [st.Err()]: nil for the code [OK], and otherwise an
      error that carries the status. *)
Class StatusLib := {
  FromError : option error -> status * bool;
  FromContextError : option error -> status;
  status_Err : status -> option error;
  FromError_status st : st_code st <> OK -> FromError (Some (StatusError st)) = (st, true);
  FromError_nil : st_code (fst (FromError None)) = OK /\ snd (FromError None) = true;
  FromError_other e :
    (forall st, e <> StatusError st) ->
    st_code (fst (FromError (Some e))) = Unknown /\ snd (FromError (Some e)) = false;
  FromContextError_canceled :
    st_code (FromContextError (Some ContextCanceled)) = Canceled;
  FromContextError_deadline :
    st_code (FromContextError (Some ContextDeadlineExceeded)) = DeadlineExceeded;
  status_Err_OK st : st_code st = OK -> status_Err st = None;
  status_Err_other st : st_code st <> OK -> status_Err st = Some (StatusError st);
}.

Section ToStatus.
Context `{StatusLib}.

(** [toStatus] (tunnel_client.go). *)
Definition toStatus (err : option error) : status :=
  match FromError err with
  | (st, true) => st
  | (_, false) => FromContextError err
  end.

Lemma toStatus_status st : st_code st <> OK -> toStatus (Some (StatusError st)) = st.
Proof. intros. unfold toStatus. by rewrite FromError_status. Qed.

Lemma toStatus_other e :
  (forall st, e <> StatusError st) -> toStatus (Some e) = FromContextError (Some e).
Proof.
  intros Hne. unfold toStatus. destruct (FromError_other e Hne) as [_ Hf].
  destruct (FromError (Some e)) as [st b]. simpl in Hf. by subst.
Qed.
End ToStatus.

(** ** A concrete instance, for evaluating the model on examples. *)
Module ExampleStatus.
Definition error_text (e : error) : message :=
  match e with
  | EOF => Msg "EOF" []
  | ContextCanceled | ContextDeadlineExceeded => Msg (context_text e) []
  | StatusError st => st_message st
  | ErrorsNew t | Opaque t => Msg t []
  end.

Definition from_error (err : option error) : status * bool :=
  match err with
  | None => (Status OK (Msg "" []), true)
  | Some (StatusError st) => (st, true)
  | Some e => (Status Unknown (error_text e), false)
  end.

Definition from_context_error (err : option error) : status :=
  match err with
  | None => Status OK (Msg "" [])
  | Some ContextCanceled => Status Canceled (error_text ContextCanceled)
  | Some ContextDeadlineExceeded =>
      Status DeadlineExceeded (error_text ContextDeadlineExceeded)
  | Some e => Status Unknown (error_text e)
  end.

Definition status_err (st : status) : option error :=
  if decide (st_code st = OK) then None else Some (StatusError st).

#[export] Instance lib : StatusLib.
Proof.
  refine {|
    FromError := from_error;
    FromContextError := from_context_error;
    status_Err := status_err;
  |}; try done.
  - intros [] Hne; simpl; try done. by destruct (Hne st).
  - intros st Hst. unfold status_err. by rewrite decide_True.
  - intros st Hst. unfold status_err. by rewrite decide_False.
Defined.
End ExampleStatus.
