(* ===== verification/SafeStream.v ===== *)
(** * Streams that several goroutines use

    The four types of tunnel_client.go and reverse_server.go that put mutexes around
    a gRPC stream: [threadSafeOpenTunnelClient], [threadSafeOpenReverseTunnelServer],
    [threadSafeOpenReverseTunnelClient] and [threadSafeOpenTunnelServer].  gRPC
    allows one call of [SendMsg] or [CloseSend], and one of [RecvMsg], at a time.

    Here the calls of many goroutines interleave at the granularity of locking,
    entering and leaving the wrapped call, and unlocking.  The result that the other
    components build on is that every call of a wrapper is one atomic action. *)
From stdpp Require Import gmap sets.
From S2P Require Import Prelude Status.

(** ** Atomic operations *)

(** What has happened on the wrapped stream, and [closed], which only
    [threadSafeOpenReverseTunnelClient] has. *)
Record wrapped (M N : Type) := Wrapped {
  w_closed : bool;
  w_closeSends : Z;
  w_sent : list M;
  w_received : list (error + N);
}.
Arguments Wrapped {M N} _ _ _ _.
Arguments w_closed {M N} _.
Arguments w_closeSends {M N} _.
Arguments w_sent {M N} _.
Arguments w_received {M N} _.

Section Operations.
Context {M N : Type}.

Definition wrapper_start : wrapped M N := Wrapped false 0 [] [].

(** [CloseSend] of [threadSafeOpenReverseTunnelClient], given what the wrapped
    stream returns. *)
Definition CloseSend (err : option error) (h : wrapped M N) : wrapped M N * option error :=
  (Wrapped true (w_closeSends h + 1) (w_sent h) (w_received h), err).

(** [Send] and [SendMsg], likewise. *)
Definition SendMsg (m : M) (err : option error) (h : wrapped M N) : wrapped M N * option error :=
  if w_closed h then (h, Some EOF)
  else (Wrapped (w_closed h) (w_closeSends h) (w_sent h ++ [m]) (w_received h), err).
End Operations.

(** ** The methods *)
Inductive wrapper :=
  | OpenTunnelClient | OpenReverseTunnelServer | OpenReverseTunnelClient | OpenTunnelServer.
#[export] Instance wrapper_eq_dec : EqDecision wrapper.
Proof. solve_decision. Defined.

Inductive method (M : Type) := MCloseSend | MSend (m : M) | MSendMsg (m : M) | MRecv | MRecvMsg.
Arguments MCloseSend {M}.
Arguments MSend {M} _.
Arguments MSendMsg {M} _.
Arguments MRecv {M}.
Arguments MRecvMsg {M}.

Inductive mutex := sendMu | recvMu.
#[export] Instance mutex_eq_dec : EqDecision mutex.
Proof. solve_decision. Defined.

(** What a call returns: an error, or a message or an error. *)
Inductive call_result (N : Type) := RErr (err : option error) | RMsg (res : error + N).
Arguments RErr {N} _.
Arguments RMsg {N} _.

Section Methods.
Context {M N : Type}.

(** The mutex that a method of each type holds (until it returns, by [defer]) around
    the call of the wrapped stream; [None] if the type has no such method, as the
    server side of a stream has no [CloseSend]. *)
Definition threadSafeOpenTunnelClient (c : method M) : option mutex :=
  match c with
  | MCloseSend => Some sendMu
  | MSend _ => Some sendMu
  | MSendMsg _ => Some sendMu
  | MRecv => Some recvMu
  | MRecvMsg => Some recvMu
  end.

Definition threadSafeOpenReverseTunnelServer (c : method M) : option mutex :=
  match c with
  | MCloseSend => None
  | MSend _ => Some sendMu
  | MSendMsg _ => Some sendMu
  | MRecv => Some recvMu
  | MRecvMsg => Some recvMu
  end.

(** Here [Send] calls [SendMsg] of the same type. *)
Definition threadSafeOpenReverseTunnelClient (c : method M) : option mutex :=
  match c with
  | MCloseSend => Some sendMu
  | MSend _ | MSendMsg _ => Some sendMu
  | MRecv => Some recvMu
  | MRecvMsg => Some recvMu
  end.

Definition threadSafeOpenTunnelServer (c : method M) : option mutex :=
  match c with
  | MCloseSend => None
  | MSend _ => Some sendMu
  | MSendMsg _ => Some sendMu
  | MRecv => Some recvMu
  | MRecvMsg => Some recvMu
  end.

Definition guard (w : wrapper) : method M -> option mutex :=
  match w with
  | OpenTunnelClient => threadSafeOpenTunnelClient
  | OpenReverseTunnelServer => threadSafeOpenReverseTunnelServer
  | OpenReverseTunnelClient => threadSafeOpenReverseTunnelClient
  | OpenTunnelServer => threadSafeOpenTunnelServer
  end.

(** Between locking and the wrapped call: the new value of [closed], and the result
    if the wrapped stream is not called. *)
Definition method_enter (w : wrapper) (c : method M) (closed : bool)
    : bool * option (call_result N) :=
  match w, c with
  | OpenReverseTunnelClient, MCloseSend => (true, None)
  | OpenReverseTunnelClient, (MSend _ | MSendMsg _) =>
      (closed, if closed then Some (RErr (Some EOF)) else None)
  | _, _ => (closed, None)
  end.

(** The kind of result of a method. *)
Definition fits (c : method M) (res : call_result N) : bool :=
  match c, res with
  | (MCloseSend | MSend _ | MSendMsg _), RErr _ => true
  | (MRecv | MRecvMsg), RMsg _ => true
  | _, _ => false
  end.

(** A call as one atomic action, given what the wrapped stream returns (which
    is ignored when it is not called). *)
Definition atomic_effect (w : wrapper) (c : method M) (res : call_result N) (h : wrapped M N)
    : wrapped M N * call_result N :=
  match c, res with
  | MCloseSend, RErr err =>
      match w with
      | OpenReverseTunnelClient => let (h, err) := CloseSend err h in (h, RErr err)
      | _ => (Wrapped (w_closed h) (w_closeSends h + 1) (w_sent h) (w_received h), RErr err)
      end
  | (MSend m | MSendMsg m), RErr err =>
      match w with
      | OpenReverseTunnelClient => let (h, err) := SendMsg m err h in (h, RErr err)
      | _ => (Wrapped (w_closed h) (w_closeSends h) (w_sent h ++ [m]) (w_received h), RErr err)
      end
  | (MRecv | MRecvMsg), RMsg msg =>
      (Wrapped (w_closed h) (w_closeSends h) (w_sent h) (w_received h ++ [msg]), RMsg msg)
  | _, _ => (h, res)
  end.
End Methods.

(** ** Interleaved calls *)
Section Interleaving.
Context {M N : Type} (w : wrapper).

(** Where a call is: before [Lock], after it, in the wrapped call, before the
    deferred [Unlock] with its result, or returned. *)
Inductive call_pc :=
  | AtLock | AtBody | InCall
  | AtUnlock (res : call_result N)
  | CallReturned (res : call_result N).

(** A call begins (without a result) or ends. *)
Definition event : Type := Z * method M * option (call_result N).

Record safe_conf := SafeConf {
  sf_sendMu : option Z;                       (** the call that holds it *)
  sf_recvMu : option Z;
  sf_closed : bool;
  sf_calls : gmap Z (method M * call_pc);
  sf_history : list event;                    (** of the wrapped stream *)
  sf_log : list event;                        (** of the wrapper *)
}.

Definition safe_start : safe_conf := SafeConf None None false ∅ [] [].

Definition holder (mu : mutex) (s : safe_conf) : option Z :=
  match mu with sendMu => sf_sendMu s | recvMu => sf_recvMu s end.

Definition set_holder (mu : mutex) (h : option Z) (s : safe_conf) : safe_conf :=
  match mu with
  | sendMu => SafeConf h (sf_recvMu s) (sf_closed s) (sf_calls s) (sf_history s) (sf_log s)
  | recvMu => SafeConf (sf_sendMu s) h (sf_closed s) (sf_calls s) (sf_history s) (sf_log s)
  end.
Definition set_call (t : Z) (c : method M) (pc : call_pc) (s : safe_conf) : safe_conf :=
  SafeConf (sf_sendMu s) (sf_recvMu s) (sf_closed s) (<[t := (c, pc)]> (sf_calls s))
    (sf_history s) (sf_log s).
Definition set_closed (b : bool) (s : safe_conf) : safe_conf :=
  SafeConf (sf_sendMu s) (sf_recvMu s) b (sf_calls s) (sf_history s) (sf_log s).
Definition add_history (e : event) (s : safe_conf) : safe_conf :=
  SafeConf (sf_sendMu s) (sf_recvMu s) (sf_closed s) (sf_calls s) (sf_history s ++ [e]) (sf_log s).
Definition add_log (e : event) (s : safe_conf) : safe_conf :=
  SafeConf (sf_sendMu s) (sf_recvMu s) (sf_closed s) (sf_calls s) (sf_history s) (sf_log s ++ [e]).

Inductive safe_label :=
  | WCall (t : Z) (c : method M)               (** a goroutine calls a method *)
  | WLock (t : Z) | WEnter (t : Z)
  | WReturn (t : Z) (res : call_result N)      (** the wrapped call returns *)
  | WUnlock (t : Z).

Definition safe_step (l : safe_label) (s : safe_conf) : option safe_conf :=
  match l with
  | WCall t c =>
      match sf_calls s !! t, guard w c with
      | None, Some _ => Some (add_log (t, c, None) (set_call t c AtLock s))
      | _, _ => None
      end
  | WLock t =>
      match sf_calls s !! t with
      | Some (c, AtLock) =>
          match guard w c with
          | Some mu =>
              match holder mu s with
              | None => Some (set_call t c AtBody (set_holder mu (Some t) s))
              | Some _ => None
              end
          | None => None
          end
      | _ => None
      end
  | WEnter t =>
      match sf_calls s !! t with
      | Some (c, AtBody) =>
          match method_enter w c (sf_closed s) with
          | (closed, Some res) => Some (set_call t c (AtUnlock res) (set_closed closed s))
          | (closed, None) =>
              Some (add_history (t, c, None) (set_call t c InCall (set_closed closed s)))
          end
      | _ => None
      end
  | WReturn t res =>
      match sf_calls s !! t with
      | Some (c, InCall) =>
          if fits c res then Some (add_history (t, c, Some res) (set_call t c (AtUnlock res) s))
          else None
      | _ => None
      end
  | WUnlock t =>
      match sf_calls s !! t with
      | Some (c, AtUnlock res) =>
          match guard w c with
          | Some mu =>
              Some (add_log (t, c, Some res) (set_call t c (CallReturned res) (set_holder mu None s)))
          | None => None
          end
      | _ => None
      end
  end.

(** ** The specification: calls as atomic actions *)
Inductive atomic_pc := APending | AEffected (res : call_result N) | AReturned (res : call_result N).

Record atomic_conf := AtomicConf {
  at_stream : wrapped M N;
  at_calls : gmap Z (method M * atomic_pc);
  at_log : list event;
}.

Definition atomic_start : atomic_conf := AtomicConf wrapper_start ∅ [].

Inductive atomic_label :=
  | ACall (t : Z) (c : method M) | AEffect (t : Z) (res : call_result N) | AReturn (t : Z).

Definition atomic_step (l : atomic_label) (a : atomic_conf) : option atomic_conf :=
  match l with
  | ACall t c =>
      match at_calls a !! t, guard w c with
      | None, Some _ =>
          Some (AtomicConf (at_stream a) (<[t := (c, APending)]> (at_calls a)) (at_log a ++ [(t, c, None)]))
      | _, _ => None
      end
  | AEffect t res =>
      match at_calls a !! t with
      | Some (c, APending) =>
          if fits c res then
            let (h, ret) := atomic_effect w c res (at_stream a) in
            Some (AtomicConf h (<[t := (c, AEffected ret)]> (at_calls a)) (at_log a))
          else None
      | _ => None
      end
  | AReturn t =>
      match at_calls a !! t with
      | Some (c, AEffected ret) =>
          Some (AtomicConf (at_stream a) (<[t := (c, AReturned ret)]> (at_calls a))
                  (at_log a ++ [(t, c, Some ret)]))
      | _ => None
      end
  end.

(** ** The contract of gRPC

    No call of one side begins while another one is under way: [seq_state] is
    the call that is under way, if all was well so far. *)
Definition seq_event (st : option (option Z)) (e : event) : option (option Z) :=
  match st, e with
  | Some None, (t, _, None) => Some (Some t)
  | Some (Some t'), (t, _, Some _) => if t' =? t then Some None else None
  | _, _ => None
  end.

Definition seq_state (h : list event) : option (option Z) := foldl seq_event (Some None) h.

Definition on_side (mu : mutex) (e : event) : bool :=
  match guard w e.1.2 with Some mu' => bool_decide (mu' = mu) | None => false end.

Definition side (mu : mutex) (h : list event) : list event := filter (fun e => on_side mu e = true) h.

(** ** The invariant of the locks *)
Definition holding (pc : call_pc) : bool :=
  match pc with AtBody | InCall | AtUnlock _ => true | _ => false end.

(** The call under way on the side of a mutex. *)
Definition under_way (mu : mutex) (s : safe_conf) : option Z :=
  match holder mu s with
  | Some t =>
      match sf_calls s !! t with
      | Some (_, InCall) => Some t
      | _ => None
      end
  | None => None
  end.

Record lock_inv (s : safe_conf) : Prop := {
  li_call : forall t c pc, sf_calls s !! t = Some (c, pc) ->
    exists mu, guard w c = Some mu /\ (holding pc = true -> holder mu s = Some t);
  li_holder : forall mu t, holder mu s = Some t ->
    exists c pc, sf_calls s !! t = Some (c, pc) /\ guard w c = Some mu /\ holding pc = true;
  li_serial : forall mu, seq_state (side mu (sf_history s)) = Some (under_way mu s);
}.

Lemma holder_set mu mu' h s : holder mu (set_holder mu' h s) = if decide (mu = mu') then h else holder mu s.
Proof. by destruct mu, mu'. Qed.

Lemma side_app mu h e : side mu (h ++ [e]) = side mu h ++ (if on_side mu e then [e] else []).
Proof.
  unfold side. rewrite filter_app. f_equal. cbn [filter list_filter].
  destruct (on_side mu e); [by rewrite decide_True|by rewrite decide_False].
Qed.

Lemma seq_state_snoc h e : seq_state (h ++ [e]) = seq_event (seq_state h) e.
Proof. unfold seq_state. by rewrite foldl_app. Qed.

Lemma on_side_guard mu mu' t c r :
  guard w c = Some mu -> on_side mu' (t, c, r) = bool_decide (mu = mu').
Proof. unfold on_side. simpl. by intros ->. Qed.

(** One call moves to [pc']; its mutex is held afterwards if [pc'] says so. *)
Lemma lock_inv_move s s' t c pc' mu :
  lock_inv s -> guard w c = Some mu ->
  (forall c0 pc0, sf_calls s !! t = Some (c0, pc0) -> c0 = c) ->
  sf_calls s' = <[t := (c, pc')]> (sf_calls s) ->
  (forall mu', mu' <> mu -> holder mu' s' = holder mu' s /\
     side mu' (sf_history s') = side mu' (sf_history s)) ->
  holder mu s' = (if holding pc' then Some t else if decide (holder mu s = Some t) then None else holder mu s) ->
  (holder mu s = None \/ holder mu s = Some t \/ holding pc' = false) ->
  seq_state (side mu (sf_history s')) = Some (under_way mu s') ->
  lock_inv s'.
Proof.
  intros [Hc Hh Hs] Hg Hsame Hcalls Hother Hmu Hfree Hseq.
  assert (Hne : forall mu' t', mu' <> mu -> holder mu' s = Some t' -> t' <> t).
  { intros mu' t' Hmu' Ht' ->. destruct (Hh mu' t Ht') as (c0 & pc0 & Hl & Hg0 & _).
    rewrite (Hsame _ _ Hl) in Hg0. congruence. }
  split.
  - intros t' c' pc. rewrite Hcalls. intros [[<- [= <- <-]]|[Hnt Hl]]%lookup_insert_Some.
    + exists mu. split; [done|]. intros Hp. by rewrite Hmu, Hp.
    + destruct (Hc _ _ _ Hl) as (mu1 & Hg1 & Hp). exists mu1. split; [done|]. intros Hp1.
      specialize (Hp Hp1). destruct (decide (mu1 = mu)) as [->|Hm]; [|by rewrite (proj1 (Hother _ Hm))].
      destruct Hfree as [Hf|[Hf|Hf]]; [congruence|congruence|].
      rewrite Hmu, Hf, Hp. by rewrite decide_False by congruence.
  - intros mu' t' Ht'. destruct (decide (mu' = mu)) as [->|Hm].
    + rewrite Hmu in Ht'. destruct (holding pc') eqn:Hp.
      * injection Ht' as <-. exists c, pc'. by rewrite Hcalls, lookup_insert_eq.
      * destruct (decide _) as [|Hd]; [done|]. destruct (Hh mu t' Ht') as (c0 & pc0 & Hl & Hr).
        exists c0, pc0. rewrite Hcalls, lookup_insert_ne; [done|]. intros <-. by rewrite Ht' in Hd.
    + rewrite (proj1 (Hother _ Hm)) in Ht'. destruct (Hh mu' t' Ht') as (c0 & pc0 & Hl & Hr).
      exists c0, pc0. rewrite Hcalls, lookup_insert_ne; [done|]. by apply not_eq_sym, (Hne mu').
  - intros mu'. destruct (decide (mu' = mu)) as [->|Hm]; [done|]. destruct (Hother _ Hm) as [Hh' ->].
    rewrite Hs. unfold under_way. rewrite Hh', Hcalls. destruct (holder mu' s) as [t'|] eqn:Ht'; [|done].
    rewrite lookup_insert_ne; [done|]. by apply not_eq_sym, (Hne mu').
Qed.

Lemma lock_inv_start : lock_inv safe_start.
Proof. split; [done|by intros []|by intros []]. Qed.

(** Where the mutex of a call that does not hold it stays as it is. *)
Lemma holder_not s mu t c pc :
  lock_inv s -> sf_calls s !! t = Some (c, pc) -> holding pc = false -> holder mu s <> Some t.
Proof.
  intros Hi Hl Hp Ht. destruct (li_holder _ Hi mu t Ht) as (c0 & pc0 & Hl0 & _ & Hp0). congruence.
Qed.

Lemma holder_known s t c pc mu :
  lock_inv s -> sf_calls s !! t = Some (c, pc) -> guard w c = Some mu -> holding pc = true ->
  holder mu s = Some t.
Proof.
  intros Hi Hl Hg Hp. destruct (li_call _ Hi _ _ _ Hl) as (mu' & Hg' & Hh).
  assert (mu' = mu) as -> by congruence. by apply Hh.
Qed.

Lemma guard_known s t c pc : lock_inv s -> sf_calls s !! t = Some (c, pc) -> exists mu, guard w c = Some mu.
Proof. intros Hi Hl. destruct (li_call _ Hi _ _ _ Hl) as (mu & Hg & _). by exists mu. Qed.

Lemma lock_inv_call s t c mu e :
  lock_inv s -> sf_calls s !! t = None -> guard w c = Some mu ->
  lock_inv (add_log e (set_call t c AtLock s)).
Proof.
  intros Hi Hn Hg. assert (Ht : holder mu s <> Some t).
  { intros Ht. destruct (li_holder _ Hi mu t Ht) as (c0 & pc0 & Hl & _). congruence. }
  apply (lock_inv_move s _ t c AtLock mu); [done|done|congruence|done|by intros []| | |].
  - simpl holding. rewrite decide_False by done. by destruct mu.
  - right. by right.
  - change (sf_history (add_log e (set_call t c AtLock s))) with (sf_history s).
    rewrite (li_serial _ Hi mu). unfold under_way.
    replace (holder mu (add_log e (set_call t c AtLock s))) with (holder mu s) by (by destruct mu).
    destruct (holder mu s) as [t'|]; [|done]. simpl. by rewrite lookup_insert_ne by congruence.
Qed.

Lemma lock_inv_lock s t c mu :
  lock_inv s -> sf_calls s !! t = Some (c, AtLock) -> guard w c = Some mu -> holder mu s = None ->
  lock_inv (set_call t c AtBody (set_holder mu (Some t) s)).
Proof.
  intros Hi Hl Hg Hf.
  apply (lock_inv_move s _ t c AtBody mu);
    [done|done|congruence|by destruct mu|by intros []; destruct mu|by destruct mu|by left|].
  replace (sf_history (set_call t c AtBody (set_holder mu (Some t) s))) with (sf_history s) by (by destruct mu).
  rewrite (li_serial _ Hi mu). unfold under_way. rewrite Hf.
  replace (holder mu (set_call t c AtBody (set_holder mu (Some t) s))) with (Some t) by (by destruct mu).
  simpl. by rewrite lookup_insert_eq.
Qed.

(** A call that holds its mutex goes on, with or without an event of the wrapped
    stream. *)
Lemma lock_inv_inside s s' t c pc pc' mu :
  lock_inv s -> sf_calls s !! t = Some (c, pc) -> guard w c = Some mu ->
  holding pc = true -> holding pc' = true ->
  sf_sendMu s' = sf_sendMu s -> sf_recvMu s' = sf_recvMu s -> sf_calls s' = <[t := (c, pc')]> (sf_calls s) ->
  (sf_history s' = sf_history s /\ under_way mu s' = under_way mu s) \/
  (exists r, sf_history s' = sf_history s ++ [(t, c, r)] /\
     seq_event (Some (under_way mu s)) (t, c, r) = Some (under_way mu s')) ->
  lock_inv s'.
Proof.
  intros Hi Hl Hg Hp Hp' E1 E2 Hcalls Hh. pose proof (holder_known _ _ _ _ _ Hi Hl Hg Hp) as Ht.
  assert (E : forall mu', holder mu' s' = holder mu' s) by (by intros []).
  apply (lock_inv_move s _ t c pc' mu); [done|done|congruence|done| | |right; by left|].
  - intros mu' Hne. split; [done|]. destruct Hh as [[-> _]|(r & -> & _)]; [done|].
    rewrite side_app, (on_side_guard _ _ _ _ _ Hg), bool_decide_false by done. by rewrite app_nil_r.
  - by rewrite Hp', E.
  - destruct Hh as [[-> ->]|(r & -> & Hr)]; [by apply li_serial|].
    rewrite side_app, (on_side_guard _ _ _ _ _ Hg), bool_decide_true by done.
    by rewrite seq_state_snoc, (li_serial _ Hi).
Qed.

Lemma under_way_at s t mu c pc :
  holder mu s = Some t -> sf_calls s !! t = Some (c, pc) ->
  under_way mu s = match pc with InCall => Some t | _ => None end.
Proof. unfold under_way. by intros -> ->. Qed.

Lemma lock_inv_unlock s t c res mu e :
  lock_inv s -> sf_calls s !! t = Some (c, AtUnlock res) -> guard w c = Some mu ->
  lock_inv (add_log e (set_call t c (CallReturned res) (set_holder mu None s))).
Proof.
  intros Hi Hl Hg. pose proof (holder_known _ _ _ _ _ Hi Hl Hg eq_refl) as Ht.
  apply (lock_inv_move s _ t c (CallReturned res) mu);
    [done|done|congruence|by destruct mu|by intros []; destruct mu| |right; by left|].
  - simpl holding. rewrite decide_True by done. by destruct mu.
  - replace (sf_history _) with (sf_history s) by (by destruct mu).
    rewrite (li_serial _ Hi mu), (under_way_at _ _ _ _ _ Ht Hl). unfold under_way. by destruct mu.
Qed.

Lemma lock_inv_step l s s' : lock_inv s -> safe_step l s = Some s' -> lock_inv s'.
Proof.
  intros Hi Hs. destruct l as [t c|t|t|t res|t]; cbn [safe_step] in Hs;
    destruct (sf_calls s !! t) as [[c0 pc]|] eqn:Hl; try done.
  - destruct (guard w c) as [mu|] eqn:Hg; [|done]. injection Hs as <-. by eapply lock_inv_call.
  - destruct pc; try done. destruct (guard w c0) as [mu|] eqn:Hg; [|done].
    destruct (holder mu s) eqn:Hf; [done|]. injection Hs as <-. by apply lock_inv_lock.
  - destruct pc; try done. destruct (guard_known _ _ _ _ Hi Hl) as [mu Hg].
    pose proof (holder_known _ _ _ _ _ Hi Hl Hg eq_refl) as Ht.
    destruct (method_enter w c0 (sf_closed s)) as [closed [res|]]; injection Hs as <-;
      (eapply lock_inv_inside; [done|exact Hl|exact Hg|done| |done|done|simpl; reflexivity|]); try done;
      rewrite (under_way_at _ _ _ _ _ Ht Hl).
    + left. split; [done|]. erewrite under_way_at; [|by destruct mu|apply lookup_insert_eq]. done.
    + right. exists None. split; [done|]. erewrite under_way_at; [|by destruct mu|apply lookup_insert_eq]. done.
  - destruct pc; try done. destruct (fits c0 res); [|done]. destruct (guard_known _ _ _ _ Hi Hl) as [mu Hg].
    pose proof (holder_known _ _ _ _ _ Hi Hl Hg eq_refl) as Ht. injection Hs as <-.
    eapply lock_inv_inside; [done|exact Hl|exact Hg|done| |done|done|simpl; reflexivity|]; [done|].
    right. exists (Some res). split; [done|]. rewrite (under_way_at _ _ _ _ _ Ht Hl).
    erewrite under_way_at; [|by destruct mu|apply lookup_insert_eq]. simpl. by rewrite Z.eqb_refl.
  - destruct pc; try done. destruct (guard w c0) as [mu|] eqn:Hg; [|done]. injection Hs as <-.
    by apply lock_inv_unlock.
Qed.

Lemma lock_run_inv ls s : run safe_step ls safe_start = Some s -> lock_inv s.
Proof. apply run_invariant; [apply lock_inv_start|]. intros. by eapply lock_inv_step. Qed.

(** Two calls that hold the same mutex are the same. *)
Lemma holders_same s t t' c c' pc pc' mu :
  lock_inv s -> sf_calls s !! t = Some (c, pc) -> sf_calls s !! t' = Some (c', pc') ->
  guard w c = Some mu -> guard w c' = Some mu -> holding pc = true -> holding pc' = true -> t = t'.
Proof.
  intros Hi Hl Hl' Hg Hg' Hp Hp'. pose proof (holder_known _ _ _ _ _ Hi Hl Hg Hp).
  pose proof (holder_known _ _ _ _ _ Hi Hl' Hg' Hp'). congruence.
Qed.

(** ** [closed] is read and written under the mutex *)
Definition is_send (c : method M) : bool := match c with MSend _ | MSendMsg _ => true | _ => false end.

Record body_inv (s : safe_conf) : Prop := {
  bi_send : forall t c, w = OpenReverseTunnelClient -> is_send c = true ->
    sf_calls s !! t = Some (c, InCall) -> sf_closed s = false;
  bi_close : forall t, w = OpenReverseTunnelClient ->
    sf_calls s !! t = Some (MCloseSend, InCall) -> sf_closed s = true;
  bi_other : w <> OpenReverseTunnelClient -> sf_closed s = false;
}.

Lemma send_guard c : is_send c = true -> guard w c = Some sendMu.
Proof. by destruct w, c. Qed.

Lemma body_inv_quiet s s' t c pc :
  body_inv s -> sf_closed s' = sf_closed s -> sf_calls s' = <[t := (c, pc)]> (sf_calls s) ->
  pc <> InCall -> body_inv s'.
Proof.
  intros [B1 B2 B3] E1 E2 Hpc. split; rewrite ?E1, ?E2; [| |done].
  - intros t' c' Hw Hc [[_ [= _ ->]]|[_ Hl]]%lookup_insert_Some; [done|by eapply B1].
  - intros t' Hw [[_ [= _ ->]]|[_ Hl]]%lookup_insert_Some; [done|by eapply B2].
Qed.

Lemma method_enter_cases c closed :
  (method_enter (N := N) w c closed = (closed, None) /\ (w = OpenReverseTunnelClient -> is_send c = false /\ c <> MCloseSend)) \/
  (w = OpenReverseTunnelClient /\ c = MCloseSend /\ method_enter (N := N) w c closed = (true, None)) \/
  (w = OpenReverseTunnelClient /\ is_send c = true /\
   method_enter (N := N) w c closed = (closed, if closed then Some (RErr (Some EOF)) else None)).
Proof. destruct w, c; simpl; auto; try (left; split; [done|done]). Qed.

Lemma body_inv_enter s t c closed :
  lock_inv s -> body_inv s -> sf_calls s !! t = Some (c, AtBody) ->
  method_enter (N := N) w c (sf_closed s) = (closed, None) ->
  body_inv (add_history (t, c, None) (set_call t c InCall (set_closed closed s))).
Proof.
  intros Hi [B1 B2 B3] Hl He. destruct (method_enter_cases c (sf_closed s)) as [[E Hc]|[(Hw & -> & E)|(Hw & Hc & E)]];
    rewrite E in He; simplify_eq.
  - split; simpl; [| |done].
    + intros t' c' Hw Hc' [[_ [= ->]]|[_ Hl']]%lookup_insert_Some; [|by eapply B1].
      destruct (Hc Hw). congruence.
    + intros t' Hw [[_ [= ->]]|[_ Hl']]%lookup_insert_Some; [|by eapply B2]. by destruct (Hc Hw).
  - split; simpl; [|done|done].
    intros t' c' _ Hc' [[_ [= <-]]|[Hne Hl']]%lookup_insert_Some; [done|]. exfalso. apply Hne.
    eapply (holders_same s t t'); eauto using send_guard. by destruct w.
  - destruct (sf_closed s) eqn:Hcl; [done|]. simplify_eq. split; simpl; [done| |done].
    intros t' _ [[_ [= ->]]|[Hne Hl']]%lookup_insert_Some; [done|].
    by specialize (B2 t' Hw Hl').
Qed.

Lemma body_inv_step l s s' : lock_inv s -> body_inv s -> safe_step l s = Some s' -> body_inv s'.
Proof.
  intros Hi Hb Hs. destruct l as [t c|t|t|t res|t]; cbn [safe_step] in Hs;
    destruct (sf_calls s !! t) as [[c0 pc]|] eqn:Hl; try done.
  - destruct (guard w c); [|done]. injection Hs as <-. by eapply body_inv_quiet.
  - destruct pc; try done. destruct (guard w c0) as [mu|]; [|done]. destruct (holder mu s); [done|].
    injection Hs as <-. by eapply body_inv_quiet; [exact Hb|by destruct mu|by destruct mu|].
  - destruct pc; try done. destruct (method_enter w c0 (sf_closed s)) as [closed [res|]] eqn:He; injection Hs as <-.
    + eapply body_inv_quiet; [exact Hb| |done|done]. simpl.
      destruct (method_enter_cases c0 (sf_closed s)) as [[E _]|[(_ & _ & E)|(_ & _ & E)]]; rewrite E in He; by simplify_eq.
    + by apply body_inv_enter.
  - destruct pc; try done. destruct (fits c0 res); [|done]. injection Hs as <-. by eapply body_inv_quiet.
  - destruct pc; try done. destruct (guard w c0) as [mu|]; [|done]. injection Hs as <-.
    by eapply body_inv_quiet; [exact Hb|by destruct mu|by destruct mu|].
Qed.

(** ** The simulation *)

(** What the calls of the wrapped stream that have returned were. *)
Definition event_sent (e : event) : list M :=
  match e with (_, (MSend m | MSendMsg m), Some _) => [m] | _ => [] end.
Definition event_received (e : event) : list (error + N) :=
  match e with (_, _, Some (RMsg res)) => [res] | _ => [] end.
Definition event_closes (e : event) : bool :=
  match e with (_, MCloseSend, Some _) => true | _ => false end.

Definition hist_sent (h : list event) : list M := h ≫= event_sent.
Definition hist_received (h : list event) : list (error + N) := h ≫= event_received.

Definition abs_pc (pc : call_pc) : atomic_pc :=
  match pc with
  | AtLock | AtBody | InCall => APending
  | AtUnlock res => AEffected res
  | CallReturned res => AReturned res
  end.
Definition abs_call (p : method M * call_pc) : method M * atomic_pc := (p.1, abs_pc p.2).

Record same_stream (h : list event) (st : wrapped M N) : Prop := {
  ms_sent : w_sent st = hist_sent h;
  ms_received : w_received st = hist_received h;
  ms_closeSends : w_closeSends st = count event_closes h;
}.

Record simulates (s : safe_conf) (a : atomic_conf) : Prop := {
  sm_calls : at_calls a = abs_call <$> sf_calls s;
  sm_log : at_log a = sf_log s;
  sm_stream : same_stream (sf_history s) (at_stream a);
  sm_closed : w_closed (at_stream a) = sf_closed s \/
    (sf_closed s = true /\ exists t, sf_calls s !! t = Some (MCloseSend, InCall));
}.

Lemma simulates_start : simulates safe_start atomic_start.
Proof. split; [simpl; by rewrite fmap_empty|done|done|by left]. Qed.

Lemma begin_stream h t c st : same_stream h st -> same_stream (h ++ [(t, c, None)]) st.
Proof.
  intros [E1 E2 E3]. split; unfold hist_sent, hist_received in *.
  - rewrite bind_app, E1. destruct c; by rewrite app_nil_r.
  - rewrite bind_app, E2. destruct c; by rewrite app_nil_r.
  - rewrite count_app, E3. destruct c; unfold count; simpl; lia.
Qed.

(** An invisible step. *)
Lemma simulates_quiet s s' a t c pc pc' :
  simulates s a -> sf_calls s !! t = Some (c, pc) -> sf_calls s' = <[t := (c, pc')]> (sf_calls s) ->
  abs_pc pc' = abs_pc pc -> pc <> InCall -> sf_log s' = sf_log s ->
  (sf_history s' = sf_history s \/ sf_history s' = sf_history s ++ [(t, c, None)]) ->
  (sf_closed s' = sf_closed s \/ (sf_closed s' = true /\ c = MCloseSend /\ pc' = InCall)) ->
  simulates s' a.
Proof.
  intros [E1 E2 E3 E4] Hl Hcalls Hpc Hni Hlog Hh Hcl. split.
  - rewrite Hcalls, fmap_insert, E1. unfold abs_call at 2. simpl. rewrite Hpc.
    symmetry. apply insert_id. by rewrite lookup_fmap, Hl.
  - congruence.
  - destruct Hh as [->| ->]; [done|by apply begin_stream].
  - destruct Hcl as [->|(-> & -> & ->)].
    + destruct E4 as [?|(? & t' & Ht')]; [by left|right]. split; [done|]. exists t'.
      rewrite Hcalls, lookup_insert_ne; [done|]. intros ->. congruence.
    + right. split; [done|]. exists t. by rewrite Hcalls, lookup_insert_eq.
Qed.

(** The effect of a send that is not refused. *)
Lemma send_effect c err (st : wrapped M N) :
  is_send c = true -> (w = OpenReverseTunnelClient -> is_send c = true -> w_closed st = false) ->
  atomic_effect w c (RErr err) st
  = (Wrapped (w_closed st) (w_closeSends st) (w_sent st ++ event_sent (0, c, Some (RErr err))) (w_received st),
     RErr err).
Proof.
  intros Hc Hw. destruct w; destruct c; try done; cbn [atomic_effect]; unfold SendMsg; by rewrite Hw.
Qed.

(** The effect of a call, when its wrapped call returns or [closed] forbids it. *)
Lemma effect_return t c res s a :
  lock_inv s -> body_inv s -> simulates s a -> sf_calls s !! t = Some (c, InCall) -> fits c res = true ->
  exists h, atomic_effect w c res (at_stream a) = (h, res) /\
    same_stream (sf_history s ++ [(t, c, Some res)]) h /\
    (w_closed h = sf_closed s \/ (sf_closed s = true /\ c <> MCloseSend /\ w_closed h = w_closed (at_stream a))).
Proof.
  intros Hi [B1 B2 B3] [_ _ [E1 E2 E3] E4] Hl Hf.
  assert (Hst : forall h, w_sent h = w_sent (at_stream a) ++ event_sent (t, c, Some res) ->
    w_received h = w_received (at_stream a) ++ event_received (t, c, Some res) ->
    w_closeSends h = w_closeSends (at_stream a) + (if event_closes (t, c, Some res) then 1 else 0) ->
    same_stream (sf_history s ++ [(t, c, Some res)]) h).
  { intros h F1 F2 F3. split; unfold hist_sent, hist_received in *.
    - rewrite bind_app, F1, E1. simpl. by rewrite app_nil_r.
    - rewrite bind_app, F2, E2. simpl. by rewrite app_nil_r.
    - rewrite F3, E3, count_app, count_cons, count_nil. lia. }
  assert (Hno : w <> OpenReverseTunnelClient -> w_closed (at_stream a) = sf_closed s)
    by (intros Hw; specialize (B3 Hw); destruct E4 as [|[? _]]; congruence).
  assert (Hsend : is_send c = true -> w_closed (at_stream a) = sf_closed s).
  { intros Hc. destruct E4 as [|[Hcl _]]; [done|]. destruct (decide (w = OpenReverseTunnelClient)) as [Hw|Hw].
    - specialize (B1 t c Hw Hc Hl). congruence.
    - by apply Hno. }
  assert (Hopen : w = OpenReverseTunnelClient -> is_send c = true -> w_closed (at_stream a) = false).
  { intros Hw Hc. rewrite Hsend by done. by eapply B1. }
  destruct c as [|m|m| |], res as [err|msg]; try done.
  - destruct (decide (w = OpenReverseTunnelClient)) as [Hw|Hw].
    + rewrite Hw. eexists. split; [reflexivity|]. split; [apply Hst; simpl; by rewrite ?app_nil_r|].
      left. symmetry. by eapply B2.
    + exists (Wrapped (w_closed (at_stream a)) (w_closeSends (at_stream a) + 1) (w_sent (at_stream a))
        (w_received (at_stream a))). split; [by destruct w|].
      split; [apply Hst; simpl; by rewrite ?app_nil_r|]. left. by apply Hno.
  - eexists. split; [by apply send_effect|]. split; [apply Hst; simpl; by rewrite ?app_nil_r, ?Z.add_0_r|].
    left. by apply Hsend.
  - eexists. split; [by apply send_effect|]. split; [apply Hst; simpl; by rewrite ?app_nil_r, ?Z.add_0_r|].
    left. by apply Hsend.
  - eexists. split; [reflexivity|]. split; [apply Hst; simpl; by rewrite ?app_nil_r, ?Z.add_0_r|].
    simpl. destruct E4 as [|[? _]]; [by left|by right].
  - eexists. split; [reflexivity|]. split; [apply Hst; simpl; by rewrite ?app_nil_r, ?Z.add_0_r|].
    simpl. destruct E4 as [|[? _]]; [by left|by right].
Qed.

Lemma simulates_return t c res s a :
  lock_inv s -> body_inv s -> simulates s a -> sf_calls s !! t = Some (c, InCall) -> fits c res = true ->
  exists a', atomic_step (AEffect t res) a = Some a' /\
    simulates (add_history (t, c, Some res) (set_call t c (AtUnlock res) s)) a'.
Proof.
  intros Hi Hb Hsim Hl Hf. destruct (effect_return _ _ _ _ _ Hi Hb Hsim Hl Hf) as (h & He & Hst & Hcl).
  destruct Hsim as [E1 E2 E3 E4]. cbn [atomic_step].
  rewrite E1, lookup_fmap, Hl. simpl. rewrite Hf, He. eexists. split; [done|]. split; simpl.
  - by rewrite fmap_insert.
  - done.
  - done.
  - destruct Hcl as [?|(Hcl & Hne & Hh)]; [by left|]. rewrite Hh.
    destruct E4 as [?|(_ & t' & Ht')]; [by left|right]. split; [done|]. exists t'.
    rewrite lookup_insert_ne; [done|]. intros ->. congruence.
Qed.

(** A send that [closed] forbids has its effect when it reads [closed]. *)
Lemma simulates_refused t c res s a :
  lock_inv s -> body_inv s -> simulates s a -> sf_calls s !! t = Some (c, AtBody) ->
  method_enter w c (sf_closed s) = (sf_closed s, Some res) ->
  exists a', atomic_step (AEffect t res) a = Some a' /\
    simulates (set_call t c (AtUnlock res) (set_closed (sf_closed s) s)) a'.
Proof.
  intros Hi Hb [E1 E2 E3 E4] Hl He.
  destruct (method_enter_cases c (sf_closed s)) as [[E _]|[(_ & _ & E)|(Hw & Hc & E)]]; rewrite E in He; try done.
  destruct (sf_closed s) eqn:Hcl; [|done]. injection He as <-.
  assert (Hac : w_closed (at_stream a) = true).
  { destruct E4 as [?|(_ & t' & Ht')]; [done|]. exfalso.
    assert (t = t') as <-; [|congruence]. eapply (holders_same s t t'); eauto using send_guard. by rewrite Hw. }
  assert (He : atomic_effect (N := N) w c (RErr (Some EOF)) (at_stream a) = (at_stream a, RErr (Some EOF))).
  { rewrite Hw. destruct c; try done; cbn [atomic_effect]; unfold SendMsg; by rewrite Hac. }
  cbn [atomic_step]. rewrite E1, lookup_fmap, Hl. simpl.
  assert (fits (N := N) c (RErr (Some EOF)) = true) as -> by (by destruct c). rewrite He.
  eexists. split; [done|]. split; simpl; [by rewrite fmap_insert|done|done|by left].
Qed.

Lemma simulates_step l s s' a :
  lock_inv s -> body_inv s -> simulates s a -> safe_step l s = Some s' ->
  exists als a', run atomic_step als a = Some a' /\ simulates s' a'.
Proof.
  intros Hi Hb Hsim Hs.
  assert (Hone : (exists l a', atomic_step l a = Some a' /\ simulates s' a') ->
    exists als a', run atomic_step als a = Some a' /\ simulates s' a').
  { intros (l1 & a' & Ha & Hsim'). exists [l1], a'. simpl. by rewrite Ha. }
  assert (Hnone : simulates s' a -> exists als a', run atomic_step als a = Some a' /\ simulates s' a')
    by (by exists [], a).
  destruct l as [t c|t|t|t res|t]; cbn [safe_step] in Hs;
    destruct (sf_calls s !! t) as [[c0 pc]|] eqn:Hl; try done.
  - destruct (guard w c) as [mu|] eqn:Hg; [|done]. injection Hs as <-. apply Hone.
    destruct Hsim as [E1 E2 E3 E4]. exists (ACall t c), (AtomicConf (at_stream a)
      (<[t := (c, APending)]> (at_calls a)) (at_log a ++ [(t, c, None)])). split.
    { cbn [atomic_step]. by rewrite E1, lookup_fmap, Hl, Hg. }
    split; simpl; [by rewrite E1, fmap_insert|by rewrite E2|done|].
    destruct E4 as [?|(? & t' & Ht')]; [by left|right]. split; [done|]. exists t'.
    rewrite lookup_insert_ne; [done|]. intros ->. congruence.
  - destruct pc; try done. destruct (guard w c0) as [mu|]; [|done]. destruct (holder mu s); [done|].
    injection Hs as <-. apply Hnone.
    eapply simulates_quiet; [done|done|by destruct mu|done|done|by destruct mu|by left; destruct mu|by left; destruct mu].
  - destruct pc; try done. destruct (method_enter w c0 (sf_closed s)) as [closed [res|]] eqn:He; injection Hs as <-.
    + assert (closed = sf_closed s) as ->.
      { destruct (method_enter_cases c0 (sf_closed s)) as [[E _]|[(_ & _ & E)|(_ & _ & E)]]; rewrite E in He; by simplify_eq. }
      apply Hone. exists (AEffect t res). by apply simulates_refused.
    + apply Hnone. eapply simulates_quiet; [done|done|done|done|done|done|by right|].
      destruct (method_enter_cases c0 (sf_closed s)) as [[E _]|[(_ & -> & E)|(_ & _ & E)]]; rewrite E in He; simplify_eq.
      * by left.
      * by right.
      * by left.
  - destruct pc; try done. destruct (fits c0 res) eqn:Hf; [|done]. injection Hs as <-.
    apply Hone. exists (AEffect t res). by apply simulates_return.
  - destruct pc; try done. destruct (guard w c0) as [mu|]; [|done]. injection Hs as <-. apply Hone.
    destruct Hsim as [E1 E2 E3 E4]. exists (AReturn t), (AtomicConf (at_stream a)
      (<[t := (c0, AReturned res)]> (at_calls a)) (at_log a ++ [(t, c0, Some res)])). split.
    { cbn [atomic_step]. rewrite E1, lookup_fmap, Hl. done. }
    split; [|by destruct mu; simpl; rewrite E2|by destruct mu|].
    + transitivity (abs_call <$> <[t := (c0, CallReturned res)]> (sf_calls s)); [|by destruct mu].
      simpl. by rewrite E1, fmap_insert.
    + destruct E4 as [E4|(? & t' & Ht')]; [by left; destruct mu|right]. split; [by destruct mu|]. exists t'.
      transitivity (<[t := (c0, CallReturned res)]> (sf_calls s) !! t'); [by destruct mu|].
      rewrite lookup_insert_ne; [done|]. intros ->. congruence.
Qed.

Lemma safe_run_simulated ls s :
  run safe_step ls safe_start = Some s ->
  lock_inv s /\ body_inv s /\ exists als a, run atomic_step als atomic_start = Some a /\ simulates s a.
Proof.
  apply (run_invariant safe_step (fun s => lock_inv s /\ body_inv s /\
    exists als a, run atomic_step als atomic_start = Some a /\ simulates s a)).
  - split; [apply lock_inv_start|]. split; [by split|]. exists [], atomic_start. split; [done|apply simulates_start].
  - intros l s1 s2 (Hi & Hb & als & a & Ha & Hsim) Hs. split; [by eapply lock_inv_step|].
    split; [by eapply body_inv_step|].
    destruct (simulates_step _ _ _ _ Hi Hb Hsim Hs) as (als' & a' & Ha' & Hsim').
    exists (als ++ als'), a'. by rewrite run_app, Ha.
Qed.

(** C12: The calls of a wrapper are atomic, and gRPC's rules for a stream are kept:
    on each side no call of the wrapped stream begins before the last one has
    returned; and what the callers see of all their calls, and what has been sent,
    received and closed, is what they would see if every call were one atomic
    action between its begin and its end, in which [Send] after [CloseSend] of a
    [threadSafeOpenReverseTunnelClient] returns [io.EOF] and sends nothing. *)
Theorem wrapper_is_atomic ls s :
  run safe_step ls safe_start = Some s ->
  (forall mu, is_Some (seq_state (side mu (sf_history s)))) /\
  exists als a, run atomic_step als atomic_start = Some a /\ at_log a = sf_log s /\
    w_sent (at_stream a) = hist_sent (sf_history s) /\
    w_received (at_stream a) = hist_received (sf_history s) /\
    w_closeSends (at_stream a) = count event_closes (sf_history s).
Proof.
  intros Hrun. destruct (safe_run_simulated _ _ Hrun) as (Hi & _ & als & a & Ha & [_ Hlog [H1 H2 H3] _]).
  split; [|by exists als, a]. intros mu. rewrite (li_serial _ Hi mu). by eexists.
Qed.

(** ** Termination *)
Definition pc_work (pc : call_pc) : Z :=
  match pc with AtLock => 4 | AtBody => 3 | InCall => 2 | AtUnlock _ => 1 | CallReturned _ => 0 end.

Definition work (s : safe_conf) : Z := map_sum (fun p => pc_work p.2) (sf_calls s).

(** The actions of calls that have begun. *)
Definition goes_on (l : safe_label) : bool := match l with WCall _ _ => false | _ => true end.
Definition going_step (l : safe_label) (s : safe_conf) : option safe_conf :=
  if goes_on l then safe_step l s else None.

Lemma work_nonneg s : 0 <= work s.
Proof. apply map_sum_nonneg. intros ? [? []] _; simpl; lia. Qed.

Lemma work_moves s t c pc pc' :
  sf_calls s !! t = Some (c, pc) -> pc_work pc' < pc_work pc ->
  0 <= map_sum (fun p => pc_work p.2) (<[t := (c, pc')]> (sf_calls s)) < work s.
Proof.
  intros Hl Hlt. split; [apply map_sum_nonneg; intros ? [? []] _; simpl; lia|].
  unfold work. rewrite (map_sum_update _ _ _ _ _ Hl). simpl. lia.
Qed.

Lemma going_step_works l s s' : going_step l s = Some s' -> 0 <= work s' < work s.
Proof.
  unfold going_step. destruct l as [t c|t|t|t res|t]; cbn [goes_on safe_step]; [done|..];
    destruct (sf_calls s !! t) as [[c pc]|] eqn:Hl; try done; destruct pc; try done; intros Hs.
  - destruct (guard w c) as [mu|]; [|done]. destruct (holder mu s); [done|]. injection Hs as <-.
    pose proof (work_moves s t c AtLock AtBody Hl ltac:(simpl; lia)) as Hw. unfold work at 1 2. by destruct mu.
  - destruct (method_enter w c (sf_closed s)) as [closed [res|]]; injection Hs as <-;
      by apply (work_moves s t c AtBody).
  - destruct (fits c res); [|done]. injection Hs as <-. by apply (work_moves s t c InCall).
  - destruct (guard w c) as [mu|]; [|done]. injection Hs as <-.
    pose proof (work_moves s t c (AtUnlock res) (CallReturned res) Hl ltac:(simpl; lia)) as Hw.
    unfold work at 1 2. by destruct mu.
Qed.

Definition returned (pc : call_pc) : bool := match pc with CallReturned _ => true | _ => false end.

(** Where one call is waiting, some call can go on. *)
Lemma waiting_goes_on s t c pc :
  lock_inv s -> sf_calls s !! t = Some (c, pc) -> returned pc = false ->
  exists l s', going_step l s = Some s'.
Proof.
  intros Hi Hl Hpc.
  assert (Hin : forall t c pc, sf_calls s !! t = Some (c, pc) -> holding pc = true ->
    exists l s', going_step l s = Some s').
  { clear t c pc Hl Hpc. intros t c pc Hl Hp. destruct (guard_known _ _ _ _ Hi Hl) as [mu Hg].
    destruct pc; try done; unfold going_step.
    - exists (WEnter t). cbn [goes_on safe_step]. rewrite Hl.
      destruct (method_enter _ _ _) as [? [?|]]; by eexists.
    - exists (WReturn t (match c with MRecv | MRecvMsg => RMsg (inl EOF) | _ => RErr None end)).
      cbn [goes_on safe_step]. rewrite Hl. destruct c; by eexists.
    - exists (WUnlock t). cbn [goes_on safe_step]. rewrite Hl, Hg. by eexists. }
  destruct (holding pc) eqn:Hp; [by eapply Hin|]. destruct pc; try done.
  destruct (guard_known _ _ _ _ Hi Hl) as [mu Hg]. destruct (holder mu s) as [t'|] eqn:Hh.
  - destruct (li_holder _ Hi _ _ Hh) as (c' & pc' & Hl' & _ & Hp'). by eapply Hin.
  - exists (WLock t). unfold going_step. cbn [goes_on safe_step]. rewrite Hl, Hg, Hh. by eexists.
Qed.

Lemma goes_on_or_returned s :
  lock_inv s ->
  (exists l s', going_step l s = Some s') \/
  ((forall t c pc, sf_calls s !! t = Some (c, pc) -> returned pc = true) /\ forall l, going_step l s = None).
Proof.
  intros Hi. destruct (decide (map_Forall (fun _ p => returned p.2 = true) (sf_calls s))) as [Hall|Hno].
  - right. assert (Hret : forall t c pc, sf_calls s !! t = Some (c, pc) -> returned pc = true)
      by (intros t c pc Hl; apply (Hall t _ Hl)).
    split; [done|]. intros l. destruct (going_step l s) as [s2|] eqn:Hs; [|done]. exfalso.
    unfold going_step in Hs. destruct l as [t c|t|t|t res|t]; cbn [goes_on safe_step] in Hs; [done|..];
      destruct (sf_calls s !! t) as [[c pc]|] eqn:Hl; try done;
      pose proof (Hret _ _ _ Hl); by destruct pc.
  - left. apply map_not_Forall in Hno; [|tc_solve]. destruct Hno as (t & [c pc] & Hl & Hn).
    eapply waiting_goes_on; [done|exact Hl|]. simpl in Hn. by destruct (returned pc).
Qed.

Lemma going_step_inv l s s' : lock_inv s -> going_step l s = Some s' -> lock_inv s' /\ 0 <= work s' < work s.
Proof.
  intros Hi Hs. split; [|by apply going_step_works in Hs]. unfold going_step in Hs.
  destruct (goes_on l); [|done]. by eapply lock_inv_step.
Qed.

(** C18: Calls of a wrapper return.  The calls that have begun take at most four
    actions each, in whatever order; and as long as one of them has not returned,
    one of them can go on, which is waiting for the wrapped stream or for nothing
    but a free mutex.  So if the wrapped calls return, every call does: the
    mutexes cannot deadlock. *)
Theorem wrapper_calls_return ls s :
  run safe_step ls safe_start = Some s ->
  (forall ks s', run going_step ks s = Some s' -> len ks <= work s) /\
  (forall ks s', run going_step ks s = Some s' -> (forall l, going_step l s' = None) ->
     forall t c pc, sf_calls s' !! t = Some (c, pc) -> returned pc = true) /\
  exists ks s', run going_step ks s = Some s' /\ (forall l, going_step l s' = None).
Proof.
  intros Hrun. pose proof (lock_run_inv _ _ Hrun) as Hi. split_and!.
  - intros ks s' Hk. pose proof (run_bounded going_step lock_inv work going_step_inv ks s s' Hi (work_nonneg s) Hk).
    pose proof (work_nonneg s'). lia.
  - intros ks s' Hk Hstuck. apply (run_invariant going_step lock_inv) in Hk; [|done|by intros; edestruct going_step_inv].
    destruct (goes_on_or_returned s' Hk) as [(l & s1 & Hl)|[Hret _]]; [|done]. by rewrite Hstuck in Hl.
  - destruct (run_to_stuck going_step lock_inv work going_step_inv) with (s := s) as (ks & s' & Hk & _ & Hstuck);
      [|done|apply work_nonneg|by exists ks, s'].
    intros s1 Hi1. destruct (goes_on_or_returned s1 Hi1) as [?|[_ ?]]; [by left|by right].
Qed.
End Interleaving.

(** ** Examples *)
Module SafeStreamExample.
Definition at_end (ls : list (safe_label (M := Z) (N := Z))) : safe_conf :=
  default safe_start (run (safe_step OpenReverseTunnelClient) ls safe_start).

(** Two sends and a [CloseSend] that overlap: the second send loses. *)
Definition overlapping : list safe_label :=
  [WCall 1 (MSend 10); WCall 2 MCloseSend; WCall 3 (MSendMsg 30); WCall 4 MRecv;
   WLock 1; WLock 4; WEnter 4; WEnter 1; WReturn 1 (RErr None); WReturn 4 (RMsg (inr 7)); WUnlock 1;
   WLock 2; WEnter 2; WReturn 2 (RErr None); WUnlock 2; WLock 3; WEnter 3; WUnlock 3].
End SafeStreamExample.

Lemma wrapper_is_atomic_witness :
  hist_sent (sf_history (SafeStreamExample.at_end SafeStreamExample.overlapping)) = [10] /\
  is_Some (seq_state (side OpenReverseTunnelClient sendMu
    (sf_history (SafeStreamExample.at_end SafeStreamExample.overlapping)))).
Proof.
  split; [vm_compute; reflexivity|].
  exact (proj1 (wrapper_is_atomic OpenReverseTunnelClient SafeStreamExample.overlapping
    (SafeStreamExample.at_end SafeStreamExample.overlapping) ltac:(vm_compute; reflexivity)) sendMu).
Defined.

Lemma wrapper_calls_return_witness :
  exists ks s', run (going_step OpenReverseTunnelClient) ks
    (SafeStreamExample.at_end SafeStreamExample.overlapping) = Some s' /\
    (forall l, going_step OpenReverseTunnelClient l s' = None).
Proof.
  exact (proj2 (proj2 (wrapper_calls_return OpenReverseTunnelClient SafeStreamExample.overlapping
    (SafeStreamExample.at_end SafeStreamExample.overlapping) ltac:(vm_compute; reflexivity)))).
Defined.
