(* ===== verification/Protocol.v ===== *)
(** * The tunnel protocol

    The messages of tunnelpb that travel on a tunnel, the protocol revisions
    with their flow-control parameters, the metadata conversions and the
    negotiation header. *)
From S2P Require Import Prelude Status.

(** ** Protocol revisions

    [tunnelpb.ProtocolRevision] is an open enum over [int32]: a peer can send
    a number this package does not know, so a revision is a [Z]. *)
Definition REVISION_ZERO : Z := 0.
Definition REVISION_ONE : Z := 1.
Definition REVISION_TWO : Z := 2.

Definition supportedRevisions : list Z := [REVISION_ONE; REVISION_TWO].

(** ** Metadata

    [metadata.MD] of grpc-go is a Go map; [None] is the nil map. *)
Abbreviation MD := (option (gmap string (list string))).

Definition md_lookup (md : MD) (k : string) : list string :=
  match md with Some m => default [] (m !! k) | None => [] end.

Record Metadata_Values := MkValues { Val : list string }.
Record Metadata := MkMetadata { Md : gmap string Metadata_Values }.

Definition fromProto (md : option Metadata) : MD :=
  match md with
  | None => None
  | Some md => Some (Val <$> Md md)
  end.

Definition toProto (md : MD) : Metadata :=
  {| Md := MkValues <$> default ∅ md |}.

(** [strings.ToLower], on the ASCII letters that metadata keys may contain. *)
Definition lower_ascii (c : Ascii.ascii) : Ascii.ascii :=
  let n := Ascii.nat_of_ascii c in
  if (65 <=? n)%nat && (n <=? 90)%nat then Ascii.ascii_of_nat (n + 32) else c.

Fixpoint to_lower (s : string) : string :=
  match s with
  | EmptyString => EmptyString
  | String c s => String (lower_ascii c) (to_lower s)
  end.

(** The functions of package [metadata] that grpctunnel calls: [md.Get(k)]
    finds the values of a (lower-case) key and [metadata.Join] appends the
    values of its arguments key by key. *)
Class MetadataLib := {
  md_Get : MD -> string -> list string;
  md_Join : MD -> MD -> MD;
  md_Get_lower md k :
    to_lower k = k -> md_Get md k = md_lookup md k;
  md_Join_lookup md1 md2 k :
    md_lookup (md_Join md1 md2) k = md_lookup md1 k ++ md_lookup md2 k;
}.

Module ExampleMetadata.
Definition join_values (a b : option (list string)) : option (list string) :=
  match a, b with
  | None, None => None
  | _, _ => Some (default [] a ++ default [] b)
  end.

#[export] Program Instance lib : MetadataLib := {|
  md_Get md k := md_lookup md (to_lower k);
  md_Join md1 md2 := Some (merge join_values (default ∅ md1) (default ∅ md2));
|}.
Next Obligation. intros md k Hk. simpl. by rewrite Hk. Qed.
Next Obligation.
  intros md1 md2 k. unfold md_lookup. rewrite lookup_merge.
  destruct md1 as [m1|], md2 as [m2|]; simpl; rewrite ?lookup_empty;
    try destruct (m1 !! k); try destruct (m2 !! k); simpl;
    rewrite ?app_nil_r; done.
Qed.
End ExampleMetadata.

Definition grpctunnelNegotiateKey : string := "grpctunnel-negotiate".
Definition grpctunnelNegotiateVal : string := "on".

(** The test every end of a tunnel makes on the headers of its peer. *)
Definition negotiated (vals : list string) : bool :=
  match vals with
  | v :: _ => bool_decide (v = grpctunnelNegotiateVal)
  | [] => false
  end.

(** ** Frames *)
Record Settings := MkSettings {
  SupportedProtocolRevisions : list Z;
  Settings_InitialWindowSize : Z;
}.

Record NewStream := MkNewStream {
  MethodName : string;
  RequestHeaders : option Metadata;
  NewStream_InitialWindowSize : Z;
  ProtocolRevision : Z;
}.

Record MessageData := MkMessageData { Size : Z; Data : bytes }.

(** The [Status] of a close frame is absent when the RPC succeeded. *)
Record CloseStream := MkCloseStream {
  ResponseTrailers : option Metadata;
  CloseStatus : status;
}.

Inductive ClientToServerFrame :=
  | ClientToServer_NewStream (ns : NewStream)
  | ClientToServer_RequestMessage (m : MessageData)
  | ClientToServer_MoreRequestData (d : bytes)
  | ClientToServer_HalfClose
  | ClientToServer_Cancel
  | ClientToServer_WindowUpdate (w : Z).

Inductive ServerToClientFrame :=
  | ServerToClient_Settings (s : Settings)
  | ServerToClient_ResponseHeaders (md : option Metadata)
  | ServerToClient_ResponseMessage (m : MessageData)
  | ServerToClient_MoreResponseData (d : bytes)
  | ServerToClient_CloseStream (c : CloseStream)
  | ServerToClient_WindowUpdate (w : Z).

(** A message on the tunnel; the frame is nil when its type is unknown. *)
Record ClientToServer := MkClientToServer {
  C2S_StreamId : Z;
  C2S_Frame : option ClientToServerFrame;
}.

Record ServerToClient := MkServerToClient {
  S2C_StreamId : Z;
  S2C_Frame : option ServerToClientFrame;
}.

(** ** Roles in error messages *)
Definition tunnelRoles (reverse : bool) : string * string :=
  if reverse
  then ("tunnel server (network client)", "tunnel client (network server)")
  else ("server", "client").

(** ** Flow-control parameters of a revision *)
Definition revisionTwoMessageOverhead : Z := 5.

Definition messageOverhead (revision : Z) : Z :=
  if revision >=? REVISION_TWO then revisionTwoMessageOverhead else 0.

Definition minWindowSize (revision : Z) : Z := messageOverhead revision +u 1.

Lemma messageOverhead_cases revision :
  messageOverhead revision = 0 \/ messageOverhead revision = 5.
Proof. unfold messageOverhead. case_match; auto. Qed.

Lemma minWindowSize_eq revision : minWindowSize revision = messageOverhead revision + 1.
Proof. unfold minWindowSize. destruct (messageOverhead_cases revision) as [-> | ->]; done. Qed.

(** ** Data frames

    The frames that carry message data are the same in both directions up to
    the names of their constructors.  [DataFrame] is what flow control and
    reassembly need to know of a frame type: how a sender builds the frame of a
    chunk, and how a reader sees a frame. *)
Inductive data_view :=
  | VMessage (size : Z) (data : bytes)   (** the envelope, with the first chunk *)
  | VMore (data : bytes)                 (** a later chunk *)
  | VOther.                              (** not a data frame *)

Class DataFrame (T : Type) := {
  data_frame : bytes -> Z -> bool -> T;
  data_view_of : T -> data_view;
  data_view_first d size : data_view_of (data_frame d size true) = VMessage size d;
  data_view_more d size : data_view_of (data_frame d size false) = VMore d;
}.

(** The [measure] functions given to [newReceiver]: the size of the data, and
    whether the frame starts a message. *)
Definition measure_view (v : data_view) : Z * bool :=
  match v with
  | VMessage _ d => (len d, true)
  | VMore d => (len d, false)
  | VOther => (0, false)
  end.

(** Requests: [sendData] and the reader of the tunnel server. *)
Definition request_frame (data : bytes) (totalSize : Z) (first : bool) : ClientToServerFrame :=
  if first then ClientToServer_RequestMessage {| Size := totalSize; Data := data |}
  else ClientToServer_MoreRequestData data.

Definition request_view (f : ClientToServerFrame) : data_view :=
  match f with
  | ClientToServer_RequestMessage m => VMessage (Size m) (Data m)
  | ClientToServer_MoreRequestData d => VMore d
  | _ => VOther
  end.

Definition request_measure (f : ClientToServerFrame) : Z * bool :=
  match f with
  | ClientToServer_RequestMessage m => (len (Data m), true)
  | ClientToServer_MoreRequestData d => (len d, false)
  | _ => (0, false)
  end.

#[export] Program Instance request_data_frame : DataFrame ClientToServerFrame := {|
  data_frame := request_frame; data_view_of := request_view |}.
Solve All Obligations with done.

(** Responses: [sendFunc] and the reader of the tunnel client. *)
Definition response_frame (data : bytes) (totalSize : Z) (first : bool) : ServerToClientFrame :=
  if first then ServerToClient_ResponseMessage {| Size := totalSize; Data := data |}
  else ServerToClient_MoreResponseData data.

Definition response_view (f : ServerToClientFrame) : data_view :=
  match f with
  | ServerToClient_ResponseMessage m => VMessage (Size m) (Data m)
  | ServerToClient_MoreResponseData d => VMore d
  | _ => VOther
  end.

Definition response_measure (f : ServerToClientFrame) : Z * bool :=
  match f with
  | ServerToClient_ResponseMessage m => (len (Data m), true)
  | ServerToClient_MoreResponseData d => (len d, false)
  | _ => (0, false)
  end.

#[export] Program Instance response_data_frame : DataFrame ServerToClientFrame := {|
  data_frame := response_frame; data_view_of := response_view |}.
Solve All Obligations with done.

Lemma request_measure_view f : request_measure f = measure_view (request_view f).
Proof. by destruct f. Qed.
Lemma response_measure_view f : response_measure f = measure_view (response_view f).
Proof. by destruct f. Qed.

(** Metadata survives a trip over the wire, the nil map as an empty one. *)
Lemma fromProto_toProto_lookup md k :
  md_lookup (fromProto (Some (toProto md))) k = md_lookup md k.
Proof.
  unfold md_lookup, toProto, fromProto. simpl. rewrite !lookup_fmap.
  destruct md as [m|]; simpl; [|by rewrite lookup_empty].
  by destruct (m !! k).
Qed.
