(* ===== verification/Context.v ===== *)
(** * Values of contexts

    The accessors of tunnel_metadata.go, and the contexts that grpctunnel derives and
    in which they look: that of an RPC of a channel ([allocateStream]), of a tunnel
    server ([serve]), of a handler ([createStream]) and of a channel
    ([newTunnelChannel]).  A tunnel can run over an RPC of another tunnel, and a
    handler can use its own context for RPCs, so these derivations can follow each
    other in any order.

    What [WithTunnelChannel] is told is [channel_writes] of TunnelChannel.v.

    Only values matter here: a context is a chain of values, and metadata is the
    content of the map.  That the accessors copy the map is the law of [md_Copy].  The
    functions of grpc that put an RPC's headers and its transport stream in a context are
    arguments; what grpc's own accessors then find is grpc's business, and not stated. *)
From S2P Require Import Prelude Protocol.

(** ** Contexts *)
Inductive context_key :=
  | tunnelMetadataIncomingContextKey
  | tunnelMetadataOutgoingContextKey
  | tunnelChannelContextKey
  | userKey (k : Z)
  | grpcKey (k : Z).               (** private to the packages of grpc *)
#[export] Instance context_key_eq_dec : EqDecision context_key.
Proof. solve_decision. Defined.

(** A channel is named by a number; a value of another type is opaque. *)
Inductive context_value := VMD (md : MD) | VTunnelChannel (ch : Z) | VOther (v : Z).

(** [WithCancel] stands for every derivation without a value, [WithTimeout] too. *)
Inductive context :=
  | Background
  | WithValue (parent : context) (k : context_key) (v : context_value)
  | WithCancel (parent : context).

Fixpoint Value (k : context_key) (ctx : context) : option context_value :=
  match ctx with
  | Background => None
  | WithValue parent k' v => if decide (k = k') then Some v else Value k parent
  | WithCancel parent => Value k parent
  end.

(** The keys of tunnel_metadata.go, which no other package can name. *)
Definition own_key (k : context_key) : bool :=
  match k with userKey _ | grpcKey _ => false | _ => true end.

(** Packages metadata and grpc: [md.Copy], whose result has the content of [md], and the
    contexts with incoming metadata or with a transport stream, which have all the other
    values of their parent. *)
Class ContextLib := {
  md_Copy : MD -> MD;
  NewIncomingContext : context -> MD -> context;
  NewContextWithServerTransportStream : context -> Z -> context;
  md_Copy_lookup md k : md_lookup (md_Copy md) k = md_lookup md k;
  NewIncomingContext_value ctx md k : own_key k = true -> Value k (NewIncomingContext ctx md) = Value k ctx;
  NewTransport_value ctx s k :
    own_key k = true -> Value k (NewContextWithServerTransportStream ctx s) = Value k ctx;
}.

Section Context.
Context {L : ContextLib}.

(** ** tunnel_metadata.go *)

(** [md, ok := v.(metadata.MD)] *)
Definition as_MD (v : option context_value) : MD * bool :=
  match v with Some (VMD md) => (md, true) | _ => (None, false) end.

Definition TunnelMetadataFromIncomingContext (ctx : context) : MD * bool :=
  let (md, ok) := as_MD (Value tunnelMetadataIncomingContextKey ctx) in (md_Copy md, ok).

Definition TunnelMetadataFromOutgoingContext (ctx : context) : MD * bool :=
  let (md, ok) := as_MD (Value tunnelMetadataOutgoingContextKey ctx) in (md_Copy md, ok).

(** The nil interface is [None]. *)
Definition TunnelChannelFromContext (ctx : context) : option Z :=
  match Value tunnelChannelContextKey ctx with Some (VTunnelChannel tc) => Some tc | _ => None end.

(** ** The contexts that grpctunnel makes *)

(** Of the stream that [allocateStream] makes on channel [c]. *)
Definition client_stream_context (c : Z) (tunnelMetadata : MD) (ctx : context) : context :=
  let ctx := WithCancel ctx in
  let ctx := WithValue ctx tunnelMetadataOutgoingContextKey (VMD tunnelMetadata) in
  WithValue ctx tunnelChannelContextKey (VTunnelChannel c).

(** In which [serve] runs, given that of its stream. *)
Definition serve_context (tunnelMetadata : MD) (streamCtx : context) : context :=
  WithCancel (WithValue streamCtx tunnelMetadataIncomingContextKey (VMD tunnelMetadata)).

(** Of the handler of an RPC, given that of [serve]; [str] is its stream. *)
Definition handler_context (headers : MD) (str : Z) (ctx : context) : context :=
  let ctx := NewIncomingContext ctx headers in
  let ctx := WithCancel ctx in
  NewContextWithServerTransportStream ctx str.

Definition channel_context (streamCtx : context) : context := WithCancel streamCtx.

(** A context that a call gets from another one. *)
Inductive hop :=
  | HopRPC (c : Z) (tunnelMetadata : MD)
  | HopServe (tunnelMetadata : MD)
  | HopHandler (headers : MD) (str : Z)
  | HopChannel
  | HopUser (k v : Z).             (** a value of the user's own *)

Definition derive (h : hop) (ctx : context) : context :=
  match h with
  | HopRPC c md => client_stream_context c md ctx
  | HopServe md => serve_context md ctx
  | HopHandler md str => handler_context md str ctx
  | HopChannel => channel_context ctx
  | HopUser k v => WithValue ctx (userKey k) (VOther v)
  end.

(** The first hop is the last derivation. *)
Definition derive_all (hops : list hop) (ctx : context) : context := foldr derive ctx hops.

(** ** What the accessors answer *)
Fixpoint latest {A} (f : hop -> option A) (hops : list hop) : option A :=
  match hops with
  | [] => None
  | h :: hops => match f h with Some a => Some a | None => latest f hops end
  end.

Definition rpc_hop (h : hop) : option (Z * MD) :=
  match h with HopRPC c md => Some (c, md) | _ => None end.
Definition serve_hop (h : hop) : option MD := match h with HopServe md => Some md | _ => None end.

(** A derivation sets the keys of its kind and keeps the others. *)
Lemma derive_value h k ctx :
  own_key k = true ->
  Value k (derive h ctx) =
  match h, k with
  | HopRPC c _, tunnelChannelContextKey => Some (VTunnelChannel c)
  | HopRPC _ md, tunnelMetadataOutgoingContextKey => Some (VMD md)
  | HopServe md, tunnelMetadataIncomingContextKey => Some (VMD md)
  | _, _ => Value k ctx
  end.
Proof.
  intros Hk. destruct h; [by destruct k..| | |by destruct k].
  - unfold derive, handler_context. rewrite NewTransport_value by done. simpl.
    rewrite NewIncomingContext_value by done. by destruct k.
  - by destruct k.
Qed.

Lemma value_of_hops {A} (f : hop -> option A) (g : A -> context_value) k hops ctx :
  own_key k = true ->
  (forall h ctx, Value k (derive h ctx) = match f h with Some a => Some (g a) | None => Value k ctx end) ->
  Value k (derive_all hops ctx) = match latest f hops with Some a => Some (g a) | None => Value k ctx end.
Proof.
  intros Hk Hf. induction hops as [|h hops IH]; [done|]. simpl. rewrite Hf. by destruct (f h).
Qed.

(** The answers, for metadata that was set by a hop or, if none has, is in [ctx]. *)
Definition answers (set : option MD) (found : MD * bool) (answer : MD * bool) : Prop :=
  match set with
  | Some md => answer.2 = true /\ forall k, md_lookup answer.1 k = md_lookup md k
  | None => answer = found
  end.

(** C38: What the accessors answer in any context, through any nesting of tunnels: the
    channel and the request metadata of the last RPC that was sent on a tunnel on the
    way to it; and the request metadata of the last tunnel on the way whose server handled
    an RPC.  In particular the handler of an RPC sees the metadata of its own tunnel,
    whatever the tunnel runs over; and the channel is not hidden from a handler whose
    tunnel runs over an RPC of that channel. *)
Theorem context_accessors hops ctx :
  let last := derive_all hops ctx in
  TunnelChannelFromContext last =
    match latest rpc_hop hops with Some (c, _) => Some c | None => TunnelChannelFromContext ctx end /\
  answers (snd <$> latest rpc_hop hops) (TunnelMetadataFromOutgoingContext ctx)
    (TunnelMetadataFromOutgoingContext last) /\
  answers (latest serve_hop hops) (TunnelMetadataFromIncomingContext ctx)
    (TunnelMetadataFromIncomingContext last).
Proof.
  intros last. unfold TunnelChannelFromContext, TunnelMetadataFromOutgoingContext, TunnelMetadataFromIncomingContext, last.
  rewrite (value_of_hops rpc_hop (fun p => VTunnelChannel p.1) tunnelChannelContextKey),
    (value_of_hops rpc_hop (fun p => VMD p.2) tunnelMetadataOutgoingContextKey),
    (value_of_hops serve_hop VMD tunnelMetadataIncomingContextKey);
    try done; try (by intros h ctx'; rewrite derive_value by done; destruct h).
  split_and!.
  - by destruct (latest rpc_hop hops) as [[c md]|].
  - destruct (latest rpc_hop hops) as [[c md]|]; simpl; [|done]. split; [done|]. intros k. apply md_Copy_lookup.
  - destruct (latest serve_hop hops) as [md|]; simpl; [|done]. split; [done|]. intros k. apply md_Copy_lookup.
Qed.
End Context.

(** ** Examples: a reverse tunnel that runs over an RPC of channel 7. *)
Module ContextExample.
#[export] Program Instance lib : ContextLib := {|
  md_Copy md := Some (default ∅ md);
  NewIncomingContext ctx md := WithValue ctx (grpcKey 0) (VMD md);
  NewContextWithServerTransportStream ctx s := WithValue ctx (grpcKey 1) (VOther s);
|}.
Next Obligation. intros [md|] k; [done|]. unfold md_lookup. simpl. by rewrite lookup_empty. Qed.
Next Obligation. by intros ctx md []. Qed.
Next Obligation. by intros ctx s []. Qed.

Definition own : MD := Some {["tunnel"%string := ["inner"%string]]}.
Definition request : MD := Some {["request"%string := ["42"%string]]}.
(** The handler of an RPC of the inner tunnel, which is served on the stream
    of an RPC of channel 7. *)
Definition hops : list hop := [HopHandler request 1; HopServe own; HopRPC 7 None; HopUser 3 4].
End ContextExample.

Lemma context_accessors_witness :
  TunnelChannelFromContext (derive_all (L := ContextExample.lib) ContextExample.hops Background) = Some 7 /\
  let answer := TunnelMetadataFromIncomingContext (L := ContextExample.lib)
    (derive_all (L := ContextExample.lib) ContextExample.hops Background) in
  answer.2 = true /\ forall k, md_lookup answer.1 k = md_lookup ContextExample.own k.
Proof.
  pose proof (context_accessors (L := ContextExample.lib) ContextExample.hops Background) as (E & _ & E').
  split; [exact E|exact E'].
Defined.
