(* ===== verification/FlowSender.v ===== *)
(** * Flow control: the sender

    The [sender] of flow_control.go.  [send] runs on the goroutine of an RPC
    while [updateWindow] runs on the receive loop of the tunnel; they share the
    atomic [currentWindow] and the one-element channel [windowUpdates].  The
    model therefore has one action per atomic operation: the load, the
    compare-and-swap, the receive from the channel, the call of [sendFunc], and
    for an update the atomic add and the non-blocking post. *)
From S2P Require Import Prelude Status.

(** ** State *)
Record sender := Sender {
  s_maxChunkSize : Z;
  s_msgOverhead : Z;
  s_currentWindow : Z;
  s_windowUpdates : bool;    (** the channel holds an element *)
}.

Definition newSender (initialWindowSize maxChunkSize msgOverhead : Z) : sender := {|
  s_maxChunkSize :=
    if maxChunkSize >? initialWindowSize then initialWindowSize else maxChunkSize;
  s_msgOverhead := msgOverhead;
  s_currentWindow := initialWindowSize;
  s_windowUpdates := false;
|}.

Definition set_window (w : Z) (s : sender) : sender := {|
  s_maxChunkSize := s_maxChunkSize s; s_msgOverhead := s_msgOverhead s;
  s_currentWindow := w; s_windowUpdates := s_windowUpdates s |}.

Definition set_token (b : bool) (s : sender) : sender := {|
  s_maxChunkSize := s_maxChunkSize s; s_msgOverhead := s_msgOverhead s;
  s_currentWindow := s_currentWindow s; s_windowUpdates := b |}.

(** ** updateWindow

    The atomic add returns whether the window was too small before it; if it
    was, the update goes on to post to [windowUpdates], which does nothing when
    the channel is full. *)
Definition update_add (add : Z) (s : sender) : sender * bool :=
  let w := s_currentWindow s +u add in
  let prevWindow := w -u add in
  (set_window w s, prevWindow <=? s_msgOverhead s).

Definition update_post (s : sender) : sender := set_token true s.

Definition updateWindow (add : Z) (s : sender) : sender :=
  if add =? 0 then s
  else let (s, unblock) := update_add add s in
       if unblock then update_post s else s.

(** ** send *)
Inductive send_pc :=
  | PLoad                        (** the top of the loop *)
  | PWait                        (** in the select, waiting for an update *)
  | PCas (windowSz : Z)          (** about to compare and swap *)
  | PSend (chunkSz : Z)          (** about to call [sendFunc] *)
  | PRet (err : option error).   (** about to return *)

Record send_call := SendCall {
  k_size : Z;
  k_chunkIndex : Z;
  k_data : bytes;
  k_pc : send_pc;
}.

Definition set_pc (pc : send_pc) (k : send_call) : send_call := {|
  k_size := k_size k; k_chunkIndex := k_chunkIndex k; k_data := k_data k; k_pc := pc |}.

Definition too_large (n : Z) : error :=
  Errorf ResourceExhausted "serialized message is too large: %d bytes > maximum %d bytes"
    [AInt n; AInt MaxUint32].

(** Up to the head of the loop. *)
Definition send_begin (data : bytes) : send_call :=
  if len data >? MaxUint32
  then SendCall 0 0 data (PRet (Some (too_large (len data))))
  else SendCall (u32 (len data)) 0 data PLoad.

Definition send_overhead (s : sender) (k : send_call) : Z :=
  if k_chunkIndex k =? 0 then s_msgOverhead s else 0.

Definition send_needed (s : sender) (k : send_call) : Z :=
  Z.max (send_overhead s k +u Z.min (u32 (len (k_data k))) 1) 1.

Definition send_chunkSz (s : sender) (k : send_call) (windowSz : Z) : Z :=
  Z.min (Z.min (windowSz -u send_overhead s k) (u32 (len (k_data k)))) (s_maxChunkSize s).

(** A call of [sendFunc(data, totalSize, first)]. *)
Record chunk := Chunk { ck_data : bytes; ck_size : Z; ck_first : bool }.

Definition send_chunk (k : send_call) (chunkSz : Z) : chunk := {|
  ck_data := slice_to chunkSz (k_data k);
  ck_size := k_size k;
  ck_first := k_chunkIndex k =? 0;
|}.

(** After [sendFunc] has returned [err]. *)
Definition send_after (k : send_call) (chunkSz : Z) (err : option error) : send_call :=
  match err with
  | Some e => set_pc (PRet (Some e)) k
  | None =>
      if chunkSz =? u32 (len (k_data k)) then set_pc (PRet None) k
      else {| k_size := k_size k;
              k_chunkIndex := k_chunkIndex k + 1;
              k_data := slice_from chunkSz (k_data k);
              k_pc := PLoad |}
  end.

(** ** The sender and the goroutines that use it *)
Record send_conf := SendConf {
  c_sender : sender;
  c_call : option send_call;     (** the call that holds [mu] *)
  c_posts : nat;                 (** updates between their add and their post *)
  c_ctx : option error;          (** [ctx.Err()] *)
  c_out : list chunk;            (** the calls of [sendFunc], oldest first *)
}.

Inductive send_label :=
  | LBegin (data : bytes)        (** a call of [send] acquires [mu] *)
  | LLoad | LWake | LCtxDone | LCas
  | LCall (err : option error)   (** [sendFunc] returns [err] *)
  | LReturn                      (** the call returns and releases [mu] *)
  | UAdd (add : Z) | UPost       (** the two steps of [updateWindow] *)
  | LCancel (err : error).       (** the context is done *)

Definition set_sender (s : sender) (c : send_conf) : send_conf := {|
  c_sender := s; c_call := c_call c; c_posts := c_posts c; c_ctx := c_ctx c;
  c_out := c_out c |}.
Definition set_call (k : option send_call) (c : send_conf) : send_conf := {|
  c_sender := c_sender c; c_call := k; c_posts := c_posts c; c_ctx := c_ctx c;
  c_out := c_out c |}.
Definition set_posts (n : nat) (c : send_conf) : send_conf := {|
  c_sender := c_sender c; c_call := c_call c; c_posts := n; c_ctx := c_ctx c;
  c_out := c_out c |}.
Definition set_ctx (e : option error) (c : send_conf) : send_conf := {|
  c_sender := c_sender c; c_call := c_call c; c_posts := c_posts c; c_ctx := e;
  c_out := c_out c |}.
Definition emit (ck : chunk) (c : send_conf) : send_conf := {|
  c_sender := c_sender c; c_call := c_call c; c_posts := c_posts c; c_ctx := c_ctx c;
  c_out := c_out c ++ [ck] |}.

(** The steps of the call that holds [mu]. *)
Definition call_step (l : send_label) (k : send_call) (c : send_conf) : option send_conf :=
  let s := c_sender c in
  match l, k_pc k with
  | LLoad, PLoad =>
      let windowSz := s_currentWindow s in
      if windowSz <? send_needed s k
      then Some (set_call (Some (set_pc PWait k)) c)
      else Some (set_call (Some (set_pc (PCas windowSz) k)) c)
  | LWake, PWait =>
      if s_windowUpdates s
      then Some (set_call (Some (set_pc PLoad k)) (set_sender (set_token false s) c))
      else None
  | LCtxDone, PWait =>
      match c_ctx c with
      | Some e => Some (set_call (Some (set_pc (PRet (Some e)) k)) c)
      | None => None
      end
  | LCas, PCas windowSz =>
      if s_currentWindow s =? windowSz then
        let chunkSz := send_chunkSz s k windowSz in
        let w := windowSz -u send_overhead s k -u chunkSz in
        Some (set_call (Some (set_pc (PSend chunkSz) k)) (set_sender (set_window w s) c))
      else Some (set_call (Some (set_pc PLoad k)) c)
  | LCall err, PSend chunkSz =>
      Some (set_call (Some (send_after k chunkSz err)) (emit (send_chunk k chunkSz) c))
  | LReturn, PRet _ => Some (set_call None c)
  | _, _ => None
  end.

Definition send_step (l : send_label) (c : send_conf) : option send_conf :=
  match l with
  | LBegin data =>
      match c_call c with
      | None => Some (set_call (Some (send_begin data)) c)
      | Some _ => None
      end
  | UAdd add =>
      if (0 <? add) && (add <=? MaxUint32) then
        let (s, unblock) := update_add add (c_sender c) in
        let posts := if unblock then S (c_posts c) else c_posts c in
        Some (set_posts posts (set_sender s c))
      else None
  | UPost =>
      match c_posts c with
      | S n => Some (set_posts n (set_sender (update_post (c_sender c)) c))
      | O => None
      end
  | LCancel e =>
      match c_ctx c with None => Some (set_ctx (Some e) c) | Some _ => None end
  | _ => match c_call c with Some k => call_step l k c | None => None end
  end.

Definition send_init (s : sender) : send_conf := {|
  c_sender := s; c_call := None; c_posts := 0; c_ctx := None; c_out := [] |}.

(** ** Ghost quantities *)

(** The window granted by the updates of a trace. *)
Definition label_credit (l : send_label) : Z := match l with UAdd n => n | _ => 0 end.
Definition credits (ls : list send_label) : Z := zsum (label_credit <$> ls).

(** What a chunk costs: its data, and the overhead when it starts a message. *)
Definition chunk_charge (ov : Z) (ck : chunk) : Z :=
  len (ck_data ck) + if ck_first ck then ov else 0.
Definition charged (ov : Z) (out : list chunk) : Z := zsum (chunk_charge ov <$> out).

(** What the compare-and-swap took from the window for a chunk that
    [sendFunc] has not been given yet. *)
Definition reserved (c : send_conf) : Z :=
  match c_call c with
  | Some k => match k_pc k with
              | PSend chunkSz => send_overhead (c_sender c) k + chunkSz
              | _ => 0
              end
  | None => 0
  end.

Lemma credits_app ls ks : credits (ls ++ ks) = credits ls + credits ks.
Proof. unfold credits. by rewrite fmap_app, zsum_app. Qed.
Lemma charged_app ov a b : charged ov (a ++ b) = charged ov a + charged ov b.
Proof. unfold charged. by rewrite fmap_app, zsum_app. Qed.
Lemma charged_nonneg ov out : 0 <= ov -> 0 <= charged ov out.
Proof.
  intros. apply zsum_nonneg, Forall_fmap, Forall_forall. intros ck _.
  unfold compose, chunk_charge. pose proof (len_nonneg (ck_data ck)). case_match; lia.
Qed.

(** The output of one message: a first chunk with the size of the message,
    then the rest of the data in non-empty chunks of at most [max] bytes. *)
Fixpoint framed_rest (max : Z) (data : bytes) (cks : list chunk) : Prop :=
  match cks with
  | [] => data = []
  | ck :: cks => exists rest,
      ck_first ck = false /\ 1 <= len (ck_data ck) <= max /\
      data = ck_data ck ++ rest /\ framed_rest max rest cks
  end.

Definition framed (max : Z) (data : bytes) (cks : list chunk) : Prop :=
  exists ck rest cks',
    cks = ck :: cks' /\ ck_first ck = true /\ ck_size ck = len data /\
    len (ck_data ck) <= max /\ data = ck_data ck ++ rest /\
    (ck_data ck = [] -> data = []) /\ framed_rest max rest cks'.

Lemma framed_rest_snoc max pre ck rest cks :
  framed_rest max pre cks ->
  ck_first ck = false -> 1 <= len (ck_data ck) <= max -> rest = ck_data ck ->
  framed_rest max (pre ++ rest) (cks ++ [ck]).
Proof.
  revert pre. induction cks as [|ck' cks IH]; intros pre; simpl.
  - intros -> Hf Hlen ->. exists []. by rewrite app_nil_r.
  - intros (r & Hf' & Hlen' & -> & Hrest) Hf Hlen ->.
    exists (r ++ ck_data ck). split_and!; try lia; eauto. by rewrite app_assoc.
Qed.

(** ** Invariants *)
Section SenderInvariant.
(** The window, chunk size and overhead that the sender starts with. *)
Context (W max ov : Z).
Context (HW : is_u32 W) (Hov : 0 <= ov < MaxUint32) (Hmax : 1 <= max).

Definition idx_overhead (k : send_call) : Z := if k_chunkIndex k =? 0 then ov else 0.

Definition needed (k : send_call) : Z :=
  Z.max (idx_overhead k + Z.min (len (k_data k)) 1) 1.

Lemma needed_bounds k : 1 <= needed k <= ov + 1.
Proof. unfold needed, idx_overhead. case_match; lia. Qed.

(** What is known of a call between two steps. *)
Definition call_wf (k : send_call) : Prop :=
  match k_pc k with
  | PRet _ => True
  | _ => 0 <= k_chunkIndex k /\ len (k_data k) <= MaxUint32 /\
         (k_chunkIndex k <> 0 -> k_data k <> [])
  end /\
  match k_pc k with
  | PCas w =>
      is_u32 w /\
      idx_overhead k + Z.min (len (k_data k)) 1 <= w /\ 1 <= w
  | PSend ch =>
      0 <= ch <= len (k_data k) /\ ch <= max /\ (k_data k <> [] -> 1 <= ch)
  | _ => True
  end.

Record sender_inv (ls : list send_label) (c : send_conf) : Prop := {
  inv_max : s_maxChunkSize (c_sender c) = max;
  inv_ov : s_msgOverhead (c_sender c) = ov;
  inv_window : is_u32 (s_currentWindow (c_sender c));
  inv_call : forall k, c_call c = Some k -> call_wf k;
  inv_account : exists wraps, 0 <= wraps /\
    W + credits ls = s_currentWindow (c_sender c) + reserved c
                     + charged ov (c_out c) + wraps * 4294967296;
  inv_wakeup : forall k, c_call c = Some k -> k_pc k = PWait ->
    s_currentWindow (c_sender c) < needed k \/
    s_windowUpdates (c_sender c) = true \/ (0 < c_posts c)%nat;
}.

Lemma send_needed_eq s k :
  s_msgOverhead s = ov -> len (k_data k) <= MaxUint32 ->
  send_needed s k = needed k.
Proof.
  intros Hs Hlen. unfold send_needed, send_overhead, needed, idx_overhead. rewrite Hs.
  pose proof (len_nonneg (k_data k)).
  rewrite (u32_small (len _)) by (unfold is_u32; lia).
  rewrite u32_small; [done|]. unfold is_u32. case_match; lia.
Qed.

(** The chunk that a successful compare-and-swap reserves fits the data, the
    maximum and the window, and the subtraction does not wrap. *)
Lemma send_chunkSz_spec s k w :
  s_msgOverhead s = ov -> s_maxChunkSize s = max ->
  len (k_data k) <= MaxUint32 -> is_u32 w ->
  idx_overhead k + Z.min (len (k_data k)) 1 <= w ->
  let ch := send_chunkSz s k w in
  0 <= ch <= len (k_data k) /\ ch <= max /\ (k_data k <> [] -> 1 <= ch) /\
  send_overhead s k + ch <= w /\
  w -u send_overhead s k -u ch = w - send_overhead s k - ch.
Proof.
  intros Hs Hm Hlen Hw Hneed. unfold send_chunkSz.
  pose proof (len_nonneg (k_data k)).
  assert (k_data k <> [] -> 1 <= len (k_data k)).
  { intros Hne. destruct (k_data k); [done|]. rewrite len_cons.
    pose proof (len_nonneg l). lia. }
  unfold send_overhead. rewrite Hs, Hm. fold (idx_overhead k).
  rewrite (u32_small (len _)) by (unfold is_u32; lia).
  unfold is_u32 in *.
  assert (0 <= idx_overhead k) by (unfold idx_overhead; case_match; lia).
  rewrite (u32_small (w - idx_overhead k)) by (unfold is_u32; lia).
  rewrite u32_small by (unfold is_u32; lia).
  split_and!; try lia. intros Hne. specialize (H0 Hne). lia.
Qed.

Lemma send_begin_wf data : call_wf (send_begin data).
Proof.
  unfold send_begin. destruct (Z.gtb_spec (len data) MaxUint32); [done|].
  split; simpl; [|done]. split_and!; [lia|lia|done].
Qed.

Lemma send_after_wf k ch err :
  call_wf k -> k_pc k = PSend ch -> call_wf (send_after k ch err).
Proof.
  intros [Hk1 Hk2] Hpc. rewrite Hpc in *. simpl in *.
  destruct Hk1 as (Hi & Hlen & Hne). destruct Hk2 as (Hch & Hchm & Hpos).
  unfold send_after. destruct err; [done|].
  rewrite u32_small by (pose proof (len_nonneg (k_data k)); unfold is_u32; lia).
  case_match; [done|].
  split; simpl; [|done]. rewrite len_slice_from by lia. split_and!; [lia|lia|].
  intros _ Hnil. apply (f_equal len) in Hnil.
  rewrite len_slice_from in Hnil by lia. rewrite len_nil in Hnil. lia.
Qed.
(** The window arithmetic of one update. *)
Lemma update_add_spec s n :
  is_u32 (s_currentWindow s) -> 0 < n <= MaxUint32 ->
  exists wrap, (wrap = 0 \/ wrap = 1) /\
    s_currentWindow s + n = s_currentWindow s +u n + wrap * 4294967296 /\
    s_currentWindow s +u n -u n = s_currentWindow s.
Proof.
  intros Hw Hn. exists ((s_currentWindow s + n) / 4294967296).
  split; [|split]; u32_lia.
Qed.

Lemma sender_inv_update ls n c c' :
  sender_inv ls c -> send_step (UAdd n) c = Some c' -> sender_inv (ls ++ [UAdd n]) c'.
Proof.
  intros [Hm Ho Hw Hk (wr & Hwr & Hacc) Hwk]. simpl.
  destruct (Z.ltb_spec 0 n), (Z.leb_spec n MaxUint32); simpl; try done.
  intros [= <-]. destruct (update_add_spec (c_sender c) n) as (wrap & Hwrap & Hsum & Hprev);
    [done|lia|].
  split; simpl; auto.
  - apply u32_range.
  - exists (wr + wrap). split; [lia|]. rewrite credits_app. unfold credits at 2.
    unfold reserved, send_overhead in *. simpl in *. lia.
  - intros k Hc Hpc. rewrite Hprev, Ho. pose proof (needed_bounds k).
    destruct (Z.leb_spec (s_currentWindow (c_sender c)) ov).
    + right; right. lia.
    + destruct (Hwk k Hc Hpc) as [?|[?|?]]; [lia|auto|auto].
Qed.

(** A step that only moves the call along. *)
Lemma sender_inv_move ls l c c' :
  sender_inv ls c -> label_credit l = 0 ->
  s_maxChunkSize (c_sender c') = max -> s_msgOverhead (c_sender c') = ov ->
  s_currentWindow (c_sender c') = s_currentWindow (c_sender c) ->
  c_out c' = c_out c -> reserved c' = reserved c ->
  (forall k, c_call c' = Some k -> call_wf k) ->
  (forall k, c_call c' = Some k -> k_pc k = PWait ->
     s_currentWindow (c_sender c') < needed k \/
     s_windowUpdates (c_sender c') = true \/ (0 < c_posts c')%nat) ->
  sender_inv (ls ++ [l]) c'.
Proof.
  intros [Hm Ho Hw Hk (wr & Hwr & Hacc) Hwk] Hl Hm' Ho' Hw' Hout Hres Hk' Hwk'.
  split; auto; [congruence|]. exists wr. rewrite credits_app, Hw', Hout, Hres.
  unfold credits at 2. simpl. lia.
Qed.

Lemma sender_inv_load ls k c c' :
  sender_inv ls c -> c_call c = Some k -> call_step LLoad k c = Some c' ->
  sender_inv (ls ++ [LLoad]) c'.
Proof.
  intros Hinv Hcall Hstep. pose proof Hinv as [Hm Ho Hw Hk _ _].
  destruct (Hk k Hcall) as [Hwf _]. unfold call_step in Hstep.
  destruct (k_pc k) eqn:Hpc; try done. destruct Hwf as (Hi & Hlen & Hne).
  rewrite (send_needed_eq _ k Ho Hlen) in Hstep.
  destruct (Z.ltb_spec (s_currentWindow (c_sender c)) (needed k)); simplify_eq;
    apply (sender_inv_move _ _ c); simpl; auto;
    try (unfold reserved; rewrite Hcall, Hpc; done);
    intros ? [= <-]; try done.
  - intros _. left. done.
  - split; [done|]. simpl. unfold is_u32, needed in *.
    change (idx_overhead (set_pc _ k)) with (idx_overhead k). lia.
Qed.

Lemma sender_inv_cas ls k c c' :
  sender_inv ls c -> c_call c = Some k -> call_step LCas k c = Some c' ->
  sender_inv (ls ++ [LCas]) c'.
Proof.
  intros Hinv Hcall Hstep. pose proof Hinv as [Hm Ho Hw Hk (wr & Hwr & Hacc) _].
  destruct (Hk k Hcall) as [Hwf Hwf2]. unfold call_step in Hstep.
  destruct (k_pc k) as [| |w| |] eqn:Hpc; try done.
  destruct Hwf as (Hi & Hlen & Hne). destruct Hwf2 as (Hws & Hneed & Hone).
  destruct (Z.eqb_spec (s_currentWindow (c_sender c)) w) as [<-|]; simplify_eq.
  - destruct (send_chunkSz_spec (c_sender c) k (s_currentWindow (c_sender c)))
      as (Hch & Hchm & Hpos & Hfit & Hsub); try done.
    assert (0 <= send_overhead (c_sender c) k).
    { unfold send_overhead. rewrite Ho. case_match; lia. }
    rewrite Hsub. split; simpl; auto.
    + unfold is_u32 in *. lia.
    + by intros ? [= <-].
    + exists wr. split; [lia|]. rewrite credits_app. unfold credits at 2.
      unfold reserved in *. rewrite Hcall, Hpc in Hacc. simpl.
      unfold send_overhead in *. simpl in *. lia.
    + by intros ? [= <-].
  - apply (sender_inv_move _ _ c); simpl; auto;
      [by unfold reserved; rewrite Hcall, Hpc|by intros ? [= <-]|by intros ? [= <-]].
Qed.

Lemma send_after_pc k ch err :
  send_after k ch err = set_pc (PRet err) k \/
  (err = None /\ k_pc (send_after k ch err) = PLoad).
Proof. unfold send_after. step_cases; auto. Qed.

Lemma sender_inv_sendFunc ls err k c c' :
  sender_inv ls c -> c_call c = Some k -> call_step (LCall err) k c = Some c' ->
  sender_inv (ls ++ [LCall err]) c'.
Proof.
  intros Hinv Hcall Hstep. pose proof Hinv as [Hm Ho Hw Hk (wr & Hwr & Hacc) _].
  pose proof (Hk k Hcall) as Hwf. unfold call_step in Hstep.
  destruct (k_pc k) as [| | |ch|] eqn:Hpc; simplify_eq.
  unfold reserved in Hacc. rewrite Hcall, Hpc in Hacc.
  pose proof (proj2 Hwf) as Hch. rewrite Hpc in Hch.
  assert (Hpcs : reserved (set_call (Some (send_after k ch err))
                  (emit (send_chunk k ch) c)) = 0 /\ k_pc (send_after k ch err) <> PWait).
  { unfold reserved. simpl.
    destruct (send_after_pc k ch err) as [-> | [_ ->]]; done. }
  destruct Hpcs as [Hres Hnw]. split; simpl; auto.
  - intros ? [= <-]. by apply send_after_wf.
  - exists wr. split; [lia|]. rewrite Hres, credits_app, charged_app.
    unfold credits at 2, charged at 2. simpl. unfold chunk_charge. simpl.
    rewrite len_slice_to by lia. unfold send_overhead in Hacc. rewrite Ho in Hacc. lia.
  - intros ? [= <-] HW'. done.
Qed.

(** The steps that leave the window alone, and the end of the call. *)
Lemma sender_inv_wait ls l k c c' :
  sender_inv ls c -> c_call c = Some k -> call_step l k c = Some c' ->
  l = LWake \/ l = LCtxDone \/ l = LReturn -> sender_inv (ls ++ [l]) c'.
Proof.
  intros Hinv Hcall Hstep Hl. pose proof Hinv as [Hm Ho _ Hk _ _].
  destruct (Hk k Hcall) as [Hwf _]. unfold call_step in Hstep.
  assert (Hres : reserved c = match k_pc k with PSend _ => reserved c | _ => 0 end).
  { unfold reserved. rewrite Hcall. by destruct (k_pc k). }
  destruct Hl as [-> | [-> | ->]], (k_pc k); try done; step_cases;
    apply (sender_inv_move _ _ c); simpl; auto; try (by rewrite Hres); try done;
    by intros ? [= <-].
Qed.

Lemma sender_inv_begin ls data c :
  sender_inv ls c -> c_call c = None ->
  sender_inv (ls ++ [LBegin data]) (set_call (Some (send_begin data)) c).
Proof.
  intros Hinv Hcall. pose proof Hinv as [Hm Ho _ _ _ _].
  apply (sender_inv_move _ _ c); simpl; auto.
  - unfold reserved. rewrite Hcall. simpl. unfold send_begin.
    by destruct (len data >? MaxUint32).
  - intros ? [= <-]. apply send_begin_wf.
  - intros ? [= <-]. unfold send_begin. by destruct (len data >? MaxUint32).
Qed.

(** Every action keeps the invariant. *)
Lemma sender_inv_step ls l c c' :
  sender_inv ls c -> send_step l c = Some c' -> sender_inv (ls ++ [l]) c'.
Proof.
  intros Hinv Hstep.
  assert (Hc : forall k, c_call c = Some k -> call_step l k c = Some c' ->
            label_credit l = 0 -> sender_inv (ls ++ [l]) c').
  { intros k Hk Hs Hl.
    destruct l; try (unfold call_step in Hs; by destruct (k_pc k)).
    - by apply (sender_inv_load _ k c).
    - apply (sender_inv_wait _ _ k c); auto.
    - apply (sender_inv_wait _ _ k c); auto.
    - by apply (sender_inv_cas _ k c).
    - by apply (sender_inv_sendFunc _ _ k c).
    - apply (sender_inv_wait _ _ k c); auto. }
  destruct l as [data| | | | |err| |n| |e]; try (by apply (sender_inv_update _ _ c));
    simpl in Hstep; destruct (c_call c) as [k|] eqn:Hcall; simplify_eq; eauto;
    try (by apply sender_inv_begin).
  all: pose proof Hinv as [Hm Ho _ Hk _ Hwk];
    step_cases; apply (sender_inv_move _ _ c); simpl; auto.
Qed.

Lemma sender_inv_run ls c maxChunk :
  max = (if maxChunk >? W then W else maxChunk) ->
  run send_step ls (send_init (newSender W maxChunk ov)) = Some c -> sender_inv ls c.
Proof.
  intros Hmx. apply run_history.
  - split; simpl; try done. exists 0. unfold credits, reserved, charged.
    simpl. lia.
  - intros. by eapply sender_inv_step.
Qed.
End SenderInvariant.

Definition label_emits (l : send_label) : Z := match l with LCall _ => 1 | _ => 0 end.

(** Only the return of [sendFunc] adds to the output, and only the chunk that
    was reserved. *)
Lemma send_step_out l c c' :
  send_step l c = Some c' ->
  (c_out c' = c_out c /\ label_emits l = 0) \/
  (exists k ch err, l = LCall err /\ c_call c = Some k /\ k_pc k = PSend ch /\
     c_out c' = c_out c ++ [send_chunk k ch]).
Proof.
  intros Hstep. destruct l; simpl in Hstep;
    try (destruct (c_call c) as [k|] eqn:Hk; [|done]; unfold call_step in Hstep;
         destruct (k_pc k) eqn:Hpc; try done); step_in Hstep; auto.
  right. by exists k, chunkSz, err.
Qed.

(** ** Termination

    A cost that every action lowers, apart from what the action brings in: the
    bytes of a new message or a window update. *)
Definition call_cost (s : sender) (k : send_call) : Z :=
  let rem := len (k_data k) in
  match k_pc k with
  | PLoad => 30 * rem + 25
  | PWait => 30 * rem + 22
  | PCas w => 30 * rem + if s_currentWindow s =? w then 24 else 26
  | PSend ch => if ch =? rem then 14 else 30 * (rem - ch) + 38
  | PRet _ => 1
  end.

Definition send_cost (c : send_conf) : Z :=
  match c_call c with Some k => call_cost (c_sender c) k | None => 0 end
  + (if s_windowUpdates (c_sender c) then 4 else 0)
  + 5 * Z.of_nat (c_posts c)
  + match c_ctx c with None => 1 | Some _ => 0 end.

(** What an action brings in, and what it hands to [sendFunc]. *)
Definition label_gain (l : send_label) : Z :=
  match l with LBegin d => 30 * len d + 26 | UAdd _ => 8 | _ => 0 end.

Lemma send_cost_nonneg max ov ls W c : sender_inv W max ov ls c -> 0 <= send_cost c.
Proof.
  intros [_ _ _ Hk _ _]. unfold send_cost.
  assert (0 <= match c_call c with Some k => call_cost (c_sender c) k | None => 0 end).
  { destruct (c_call c) as [k|]; [|lia]. destruct (Hk k eq_refl) as [_ Hk2].
    unfold call_cost. pose proof (len_nonneg (k_data k)). destruct (k_pc k); step_cases; lia. }
  step_cases; lia.
Qed.

Lemma set_pc_id pc k : k_pc k = pc -> set_pc pc k = k.
Proof. destruct k. by intros <-. Qed.

Lemma send_after_cost s k ch err :
  len (k_data k) <= MaxUint32 -> 0 <= ch <= len (k_data k) ->
  call_cost s (send_after k ch err) + 12 < call_cost s (set_pc (PSend ch) k).
Proof.
  intros Hlen Hch. unfold send_after, call_cost at 2. simpl.
  rewrite u32_small by (unfold is_u32; lia).
  destruct err; simpl; [destruct (Z.eqb_spec ch (len (k_data k))); unfold call_cost; simpl; lia|].
  destruct (Z.eqb_spec ch (len (k_data k))); [unfold call_cost; simpl; lia|].
  unfold call_cost. simpl. rewrite len_slice_from by lia. lia.
Qed.

Lemma call_step_cost W max ov ls l k c c' :
  1 <= max -> 0 <= ov < MaxUint32 ->
  sender_inv W max ov ls c -> c_call c = Some k -> call_step l k c = Some c' ->
  send_cost c' + 12 * label_emits l < send_cost c + label_gain l.
Proof.
  intros Hmax Hov [Hm Ho Hw Hk _ _] Hcall Hstep. destruct (Hk k Hcall) as [Hwf Hwf2].
  unfold send_cost at 2. rewrite Hcall. pose proof (len_nonneg (k_data k)).
  unfold call_step in Hstep.
  destruct (k_pc k) as [| |w|ch|e] eqn:Hpc, l; simplify_eq; unfold send_cost; simpl.
  - unfold call_cost at 2. rewrite Hpc. step_cases; unfold call_cost; simpl; rewrite ?Z.eqb_refl; lia.
  - unfold call_cost at 2. rewrite Hpc. destruct (s_windowUpdates (c_sender c)); simplify_eq/=.
    unfold call_cost; simpl. lia.
  - unfold call_cost at 2. rewrite Hpc. destruct (c_ctx c) eqn:Hx; simplify_eq/=.
    rewrite Hx. unfold call_cost; simpl. lia.
  - unfold call_cost at 2. rewrite Hpc. destruct Hwf as (Hi & Hlen & Hne).
    destruct Hwf2 as (Hws & Hneed & Hone).
    destruct (Z.eqb_spec (s_currentWindow (c_sender c)) w) as [<-|]; simplify_eq/=.
    + destruct (send_chunkSz_spec _ _ Hov Hmax (c_sender c) k (s_currentWindow (c_sender c)))
        as (Hch & Hchm & Hpos & _ & _); try done.
      unfold call_cost. simpl. destruct (Z.eqb_spec (send_chunkSz (c_sender c) k
        (s_currentWindow (c_sender c))) (len (k_data k))); [lia|].
      assert (k_data k <> []) as Hd%Hpos; [|lia]. intros Hd. rewrite Hd, len_nil in *. lia.
    + unfold call_cost. simpl. lia.
  - destruct Hwf as (Hi & Hlen & Hne). destruct Hwf2 as (Hch & _ & _). simplify_eq/=.
    pose proof (send_after_cost (c_sender c) k ch err Hlen Hch) as Hcost.
    rewrite (set_pc_id _ k) in Hcost by done. lia.
  - simplify_eq/=. unfold call_cost. rewrite Hpc. lia.
Qed.

Lemma send_step_cost W max ov ls l c c' :
  1 <= max -> 0 <= ov < MaxUint32 -> sender_inv W max ov ls c -> send_step l c = Some c' ->
  send_cost c' + 12 * label_emits l < send_cost c + label_gain l.
Proof.
  intros Hmax Hov Hinv Hstep.
  destruct l as [data| | | | |err| |n| |e]; simpl in Hstep;
    try (destruct (c_call c) as [k|] eqn:Hcall; [|done]; by eapply call_step_cost).
  - destruct (c_call c) eqn:Hcall; simplify_eq. unfold send_cost. rewrite Hcall. simpl.
    unfold send_begin. pose proof (len_nonneg data).
    destruct (len data >? MaxUint32); unfold call_cost; simpl; lia.
  - destruct ((0 <? n) && (n <=? MaxUint32)); simplify_eq. unfold send_cost. simpl.
    assert (match c_call c with
            | Some k => call_cost (set_window (s_currentWindow (c_sender c) +u n) (c_sender c)) k
            | None => 0 end <=
            match c_call c with Some k => call_cost (c_sender c) k | None => 0 end + 2).
    { destruct (c_call c) as [k|]; [|lia]. unfold call_cost. simpl.
      destruct (k_pc k); step_cases; lia. }
    destruct (_ <=? s_msgOverhead (c_sender c)); lia.
  - destruct (c_posts c) eqn:Hp; simplify_eq. unfold send_cost. rewrite Hp. simpl.
    unfold call_cost. simpl. destruct (s_windowUpdates (c_sender c)); lia.
  - destruct (c_ctx c) eqn:Hp; simplify_eq. unfold send_cost. rewrite Hp. simpl. lia.
Qed.

(** ** Properties of the sender *)
Section SenderProperties.
(** A sender as the streams create it: a positive window and chunk size. *)
Context (W maxChunk ov : Z).
Context (HW : is_u32 W) (HW1 : 1 <= W) (Hmc : 1 <= maxChunk) (Hov : 0 <= ov < MaxUint32).

Definition max_chunk : Z := if maxChunk >? W then W else maxChunk.
Definition sender_start : send_conf := send_init (newSender W maxChunk ov).

Lemma max_chunk_pos : 1 <= max_chunk.
Proof. unfold max_chunk. case_match; lia. Qed.

Lemma sender_run_inv ls c :
  run send_step ls sender_start = Some c -> sender_inv W max_chunk ov ls c.
Proof. intros Hrun. by eapply sender_inv_run; [..|apply max_chunk_pos|done|]. Qed.

Lemma reserved_nonneg ls c : sender_inv W max_chunk ov ls c -> 0 <= reserved c.
Proof.
  intros [_ Ho _ Hk _ _]. unfold reserved. destruct (c_call c) as [k|] eqn:Hc; [|lia].
  destruct (Hk k eq_refl) as [_ Hk2]. unfold send_overhead. rewrite Ho.
  destruct (k_pc k); try lia. case_match; lia.
Qed.
(** ** Framing *)

(** The progress of the call for message [d], which started when the output
    was [out0]: what it has emitted frames the consumed prefix of [d]. *)
Definition call_progress (d : bytes) (out0 : list chunk) (c : send_conf) : Prop :=
  exists k cks, c_call c = Some k /\ c_out c = out0 ++ cks /\
    match k_pc k with
    | PRet None => framed max_chunk d cks
    | PRet (Some _) => True
    | _ => k_size k = len d /\ len d <= MaxUint32 /\
           ((k_chunkIndex k = 0 /\ cks = [] /\ k_data k = d) \/
            (0 < k_chunkIndex k /\ exists ck mid rest,
               cks = ck :: rest /\ ck_first ck = true /\ ck_size ck = len d /\
               1 <= len (ck_data ck) <= max_chunk /\ d = ck_data ck ++ mid ++ k_data k /\
               framed_rest max_chunk mid rest))
    end.

Lemma send_begin_progress d c :
  c_call c = None -> call_progress d (c_out c) (set_call (Some (send_begin d)) c).
Proof.
  intros _. exists (send_begin d), []. rewrite app_nil_r. split_and!; [done|done|].
  unfold send_begin. destruct (Z.gtb_spec (len d) MaxUint32); simpl; [done|].
  split_and!; [|lia|by left]. apply u32_small. pose proof (len_nonneg d). unfold is_u32. lia.
Qed.

(** The chunk that [sendFunc] is given extends the framing. *)
Lemma sendFunc_progress d out0 c c' err k ch :
  call_wf max_chunk ov k -> c_call c = Some k -> k_pc k = PSend ch ->
  call_progress d out0 c -> call_step (LCall err) k c = Some c' -> call_progress d out0 c'.
Proof.
  intros [Hwf Hwf2] Hcall Hpc (k' & cks & Hk' & Hout & Hst) Hstep.
  assert (k' = k) as -> by congruence. unfold call_step in Hstep. rewrite Hpc in *.
  destruct Hwf as (Hi & Hlen & Hne), Hwf2 as (Hch & Hchm & Hpos). simplify_eq/=.
  exists (send_after k ch err), (cks ++ [send_chunk k ch]). simpl.
  rewrite Hout, app_assoc. split_and!; [done|done|].
  unfold send_after. destruct err as [e|]; [done|].
  rewrite u32_small by (unfold is_u32; lia).
  destruct Hst as (Hsize & Hd & Hst).
  destruct (Z.eqb_spec ch (len (k_data k))) as [->|Hnl]; simpl.
  - (* the last chunk *)
    unfold send_chunk. rewrite slice_to_all.
    destruct Hst as [(Hidx & -> & Hdata)|(Hidx & ck & mid & rest & -> & Hf & Hs & Hl & Hdd & Hr)].
    + rewrite Hidx, Hdata, Hsize in *. simpl.
      eexists _, [], []. split_and!; [done|done|done|simpl; lia| |done|done].
      by rewrite app_nil_r.
    + eexists ck, (mid ++ k_data k), _. split_and!; [done|done|done|lia|done| |].
      * intros Hnil. rewrite Hnil, len_nil in Hl. lia.
      * apply framed_rest_snoc; simpl; [done| | |done]; [by apply Z.eqb_neq; lia|].
        specialize (Hpos (Hne ltac:(lia))). lia.
  - split_and!; [done|done|]. right. split; [lia|].
    destruct Hst as [(Hidx & -> & Hdata)|(Hidx & ck & mid & rest & -> & Hf & Hs & Hl & Hdd & Hr)].
    + exists (send_chunk k ch), [], []. simpl. rewrite Hidx. rewrite Hdata in *.
      rewrite len_slice_to by lia. rewrite slice_to_from.
      split_and!; try done. apply Hpos. intros Hn. rewrite Hn, len_nil in *. lia.
    + eexists ck, (mid ++ slice_to ch (k_data k)), _.
      split_and!; [done|done|done|lia|lia| |].
      * by rewrite <- app_assoc, slice_to_from.
      * apply framed_rest_snoc; simpl; [done| | |done]; [by apply Z.eqb_neq; lia|].
        specialize (Hpos (Hne ltac:(lia))). rewrite len_slice_to by lia. lia.
Qed.

Lemma call_progress_step d out0 l c c' ls :
  sender_inv W max_chunk ov ls c -> call_progress d out0 c ->
  l <> LReturn -> send_step l c = Some c' -> call_progress d out0 c'.
Proof.
  intros [_ _ _ Hwf _ _] Hp Hl Hstep. pose proof Hp as (k & cks & Hk & Hout & Hst).
  assert (Hkeep : forall pc k', c_out c' = c_out c -> c_call c' = Some k' -> k' = set_pc pc k ->
    match k_pc k with PRet _ | PSend _ => False | _ => True end ->
    match pc with PRet None => False | _ => True end -> call_progress d out0 c').
  { intros pc k' Ho Hc -> Hne Hpc. exists (set_pc pc k), cks. rewrite Ho.
    split_and!; [done|done|]. simpl. destruct pc as [| | | |[]], (k_pc k); done. }
  destruct l; simpl in Hstep; rewrite ?Hk in Hstep; try done;
    try (unfold call_step in Hstep; destruct (k_pc k) eqn:Hpc; step_cases; by eapply Hkeep).
  - destruct (k_pc k) as [| | |ch|] eqn:Hpc; try done.
    apply (sendFunc_progress d out0 c c' err k ch); auto. unfold call_step. by rewrite Hpc.
  - step_in Hstep. by exists k, cks.
  - step_in Hstep. by exists k, cks.
  - step_in Hstep. by exists k, cks.
Qed.
(** What the sender can do by itself: any action but a new message, an update
    or a cancellation. *)
Definition send_can_move (c : send_conf) : Prop :=
  exists l, enabled send_step l c /\
    match l with LBegin _ | UAdd _ | LCancel _ => False | _ => True end.

(** However the goroutines interleave, the bytes handed to [sendFunc]
    (data and per-message overhead) never exceed the initial window plus the
    updates the peer has sent, even if those wrap the [uint32] counter. *)
Theorem send_within_granted_window ls c :
  run send_step ls sender_start = Some c ->
  0 <= charged ov (c_out c) <= W + credits ls.
Proof.
  intros Hrun. pose proof (sender_run_inv ls c Hrun) as Hinv.
  pose proof (reserved_nonneg ls c Hinv).
  destruct Hinv as [_ _ Hw _ (wr & Hwr & Hacc) _].
  pose proof (charged_nonneg ov (c_out c)). unfold is_u32 in Hw. lia.
Qed.

(** No wake-up is lost.  When a call of [send] can make no move and no
    update is half done, the call is waiting in its select, its context is
    not done, and the window really is too small for the next chunk. *)
Theorem send_blocks_only_for_window ls c k :
  run send_step ls sender_start = Some c ->
  c_call c = Some k -> ~ send_can_move c ->
  k_pc k = PWait /\ c_ctx c = None /\
  s_currentWindow (c_sender c) < send_needed (c_sender c) k.
Proof.
  intros Hrun Hk Hno. pose proof (sender_run_inv ls c Hrun) as [_ Ho _ Hwf _ Hwk].
  assert (Hstuck : forall l, match l with LBegin _ | UAdd _ | LCancel _ => False | _ => True end ->
            send_step l c = None).
  { intros l Hl. destruct (send_step l c) as [c'|] eqn:Hs; [|done].
    destruct Hno. exists l. split; [by exists c'|done]. }
  pose proof (Hstuck LLoad I) as Hload. pose proof (Hstuck LCas I) as Hcas.
  pose proof (Hstuck (LCall None) I) as Hcall. pose proof (Hstuck LReturn I) as Hret.
  pose proof (Hstuck LWake I) as Hwake. pose proof (Hstuck LCtxDone I) as Hctx.
  pose proof (Hstuck UPost I) as Hpost. simpl in *. rewrite Hk in *. unfold call_step in *.
  destruct (k_pc k) eqn:Hpc; try done; [by destruct (_ <? _)| |by destruct (_ =? _)].
  destruct (Hwf k eq_refl) as [Hwf1 _]. rewrite Hpc in Hwf1. destruct Hwf1 as (_ & Hlen & _).
  rewrite (send_needed_eq ov Hov _ k Ho Hlen).
  destruct (c_ctx c); [done|]. destruct (s_windowUpdates (c_sender c)); [done|].
  destruct (c_posts c); [|done].
  destruct (Hwk k eq_refl Hpc) as [?|[?|?]]; [done|done|lia].
Qed.

(** [send] never spins.  In every run the number of atomic actions is at
    most linear in what the environment brought: 30 per byte and 26 per
    message to send, 8 per window update, and one cancellation. *)
Theorem send_bounded_steps ls c :
  run send_step ls sender_start = Some c ->
  len ls <= 1 + zsum (label_gain <$> ls).
Proof.
  intros Hrun.
  enough (len ls + send_cost c <= 1 + zsum (label_gain <$> ls)) as Hlen.
  { pose proof (send_cost_nonneg _ _ _ _ _ (sender_run_inv ls c Hrun)). lia. }
  revert ls c Hrun.
  apply (run_history send_step (fun ls c => sender_inv W max_chunk ov ls c /\
    len ls + send_cost c <= 1 + zsum (label_gain <$> ls))).
  - split; [by apply sender_run_inv|]. unfold send_cost. simpl. rewrite len_nil. lia.
  - intros ls l c c' [Hinv Hc] Hstep. pose proof max_chunk_pos as Hmx.
    pose proof (send_step_cost _ _ _ _ _ _ _ Hmx Hov Hinv Hstep) as Hcost.
    split; [by eapply sender_inv_step|].
    rewrite fmap_app, len_app, zsum_app, len_cons, len_nil. simpl.
    assert (0 <= label_emits l) by (destruct l; simpl; lia). lia.
Qed.

(** A message that [send] accepts and returns nil for has been handed to
    [sendFunc] exactly once and in order: one first chunk that carries the
    size of the whole message, then non-empty chunks, each of at most the
    maximum chunk size, whose data concatenates to the message. *)
Theorem send_frames_message ls0 d ls c k :
  run send_step (ls0 ++ LBegin d :: ls) sender_start = Some c ->
  LReturn ∉ ls -> c_call c = Some k -> k_pc k = PRet None ->
  exists c0 cks, run send_step ls0 sender_start = Some c0 /\
    c_out c = c_out c0 ++ cks /\ framed max_chunk d cks.
Proof.
  intros Hrun Hnr Hk Hpc. rewrite run_app in Hrun.
  destruct (run send_step ls0 sender_start) as [c0|] eqn:Hrun0; [|done].
  simpl in Hrun. destruct (c_call c0) eqn:Hc0; [done|].
  exists c0. enough (call_progress d (c_out c0) c) as (k' & cks & Hk' & Hout & Hst).
  { exists cks. assert (k' = k) as -> by congruence. by rewrite Hpc in Hst. }
  set (c1 := set_call (Some (send_begin d)) c0) in *.
  assert (Hrun1 : run send_step (ls0 ++ [LBegin d]) sender_start = Some c1).
  { rewrite run_app, Hrun0. simpl. by rewrite Hc0. }
  enough (LReturn ∉ ls -> call_progress d (c_out c0) c /\
          sender_inv W max_chunk ov ((ls0 ++ [LBegin d]) ++ ls) c) as [? _] by done.
  clear Hnr Hk Hpc. revert ls c Hrun.
  apply (run_history send_step (fun ls c => LReturn ∉ ls -> call_progress d (c_out c0) c /\
    sender_inv W max_chunk ov ((ls0 ++ [LBegin d]) ++ ls) c)).
  - intros _. rewrite app_nil_r. split; [by apply send_begin_progress|by apply sender_run_inv].
  - intros ls l c c' IH Hstep [Hnr Hl]%not_elem_of_app. destruct (IH Hnr) as [Hp Hinv].
    rewrite (app_assoc _ ls). split; [|by eapply sender_inv_step; [..|apply max_chunk_pos|done|]].
    eapply call_progress_step; eauto. intros ->. by apply Hl, list_elem_of_singleton.
Qed.
End SenderProperties.

(** ** What the streams need of the sender *)

(** A [CancelFunc], with the error it leaves in a context that is not done. *)
Definition cancel_ctx (e : error) (c : send_conf) : send_conf :=
  match c_ctx c with None => set_ctx (Some e) c | Some _ => c end.

Lemma cancel_ctx_done e c : c_ctx (cancel_ctx e c) <> None.
Proof. unfold cancel_ctx. destruct (c_ctx c) eqn:Hc; simpl; congruence. Qed.

(** The messages begun by a list of chunks, and by the call in progress. *)
Definition firsts (cks : list chunk) : Z := count ck_first cks.
Definition first_pending (c : send_conf) : Z :=
  match c_call c with
  | Some k => match k_pc k with
              | PRet _ => 0
              | _ => if k_chunkIndex k =? 0 then 1 else 0
              end
  | None => 0
  end.

Lemma first_pending_nonneg c : 0 <= first_pending c.
Proof.
  unfold first_pending. destruct (c_call c) as [k|]; [|done].
  destruct (k_pc k), (k_chunkIndex k =? 0); done.
Qed.

Lemma first_pending_begin b c : first_pending (set_call (Some (send_begin b)) c) <= 1.
Proof.
  unfold first_pending. simpl. destruct (k_pc (send_begin b)), (k_chunkIndex (send_begin b) =? 0); lia.
Qed.

(** The actions that run inside a call of [send]. *)
Definition in_send (l : send_label) : bool :=
  match l with LLoad | LWake | LCtxDone | LCas | LCall _ | LReturn => true | _ => false end.

(** A message is counted from its start to its first chunk. *)
Lemma first_pending_step W max ov ls l c c' :
  sender_inv W max ov ls c -> send_step l c = Some c' -> in_send l = true ->
  firsts (c_out c') + first_pending c' <= firsts (c_out c) + first_pending c /\
  c_ctx c' = c_ctx c /\ exists k, c_call c = Some k.
Proof.
  intros Hs Hstep Hl. destruct l; try done; simpl in Hstep;
    (destruct (c_call c) as [k|] eqn:Hk; [|done]);
    unfold call_step in Hstep; destruct (k_pc k) eqn:Hpc; try done;
    unfold first_pending; rewrite Hk, Hpc;
    try (step_in Hstep; split_and!; try done; try lia; eauto;
         destruct (k_chunkIndex k =? 0); lia).
  destruct (inv_call _ _ _ _ _ Hs k Hk) as [Hwf _]. rewrite Hpc in Hwf. destruct Hwf as (Hi & _).
  injection Hstep as <-. split_and!; try done; [|eauto]. simpl.
  unfold firsts. rewrite count_app, count_cons, count_nil. simpl.
  unfold send_after. destruct err; simpl; [lia|].
  destruct (chunkSz =? u32 (len (k_data k))); simpl; [lia|].
  destruct (Z.eqb_spec (k_chunkIndex k + 1) 0); lia.
Qed.

(** The output only grows. *)
Lemma send_step_drop l c c' :
  send_step l c = Some c' -> c_out c' = c_out c ++ drop (length (c_out c)) (c_out c').
Proof.
  intros Hstep. destruct (send_step_out _ _ _ Hstep) as [[-> _]|(k & ch & err & _ & _ & _ & ->)].
  - by rewrite drop_all, app_nil_r.
  - by rewrite drop_app_length.
Qed.

(** A call whose context is done can always move by itself. *)
Lemma done_call_moves c k :
  c_call c = Some k -> c_ctx c <> None -> exists l, in_send l = true /\ is_Some (send_step l c).
Proof.
  intros Hk Hctx.
  assert (Hmove : forall l, in_send l = true -> is_Some (call_step l k c) ->
            exists l, in_send l = true /\ is_Some (send_step l c)).
  { intros l Hl Hc. exists l. split; [done|]. destruct l; try done; simpl; by rewrite Hk. }
  destruct (k_pc k) eqn:Hpc.
  - apply (Hmove LLoad eq_refl). unfold call_step. rewrite Hpc. destruct (_ <? _); eauto.
  - apply (Hmove LCtxDone eq_refl). unfold call_step. rewrite Hpc. by destruct (c_ctx c); [eauto|].
  - apply (Hmove LCas eq_refl). unfold call_step. rewrite Hpc. destruct (_ =? _); eauto.
  - apply (Hmove (LCall None) eq_refl). unfold call_step. rewrite Hpc. eauto.
  - apply (Hmove LReturn eq_refl). unfold call_step. rewrite Hpc. eauto.
Qed.

(** ** Examples

    An eight-byte message through a window of ten bytes with the overhead of
    revision two: a first chunk of five bytes, a wait, and the rest after an
    update. *)
Module Examples.
Definition message8 : bytes := repeat Corelib.Init.Byte.x41 8.

Definition trace : list send_label :=
  [LBegin message8; LLoad; LCas; LCall None; LLoad; UAdd 5; UPost; LWake;
   LLoad; LCas; LCall None].

Definition final : option send_conf := run send_step trace (sender_start 10 16384 5).

Definition blocked_trace : list send_label := [LBegin message8; LLoad; LCas; LCall None; LLoad].

Definition the_conf (o : option send_conf) : send_conf :=
  default (sender_start 10 16384 5) o.
End Examples.

Lemma send_within_granted_window_witness :
  0 <= charged 5 (c_out (Examples.the_conf Examples.final)) <= 10 + credits Examples.trace.
Proof.
  apply (send_within_granted_window 10 16384 5 ltac:(vm_compute; split; congruence)
            ltac:(lia) ltac:(lia) ltac:(vm_compute; split; congruence)).
  vm_compute. reflexivity.
Defined.

Lemma send_blocks_only_for_window_witness :
  exists k, c_call (Examples.the_conf (run send_step Examples.blocked_trace
                      (sender_start 10 16384 5))) = Some k /\
  k_pc k = PWait.
Proof.
  eexists. split; [vm_compute; reflexivity|].
  eapply (send_blocks_only_for_window 10 16384 5 ltac:(vm_compute; split; congruence)
            ltac:(lia) ltac:(lia) ltac:(vm_compute; split; congruence)
            Examples.blocked_trace (Examples.the_conf (run send_step Examples.blocked_trace
                      (sender_start 10 16384 5)))); [vm_compute; reflexivity..|].
  intros (l & [c' Hc'] & Hl). destruct l; try done; vm_compute in Hc'; done.
Defined.

Lemma send_bounded_steps_witness :
  len Examples.trace <= 1 + zsum (label_gain <$> Examples.trace).
Proof.
  apply (send_bounded_steps 10 16384 5 ltac:(vm_compute; split; congruence)
            ltac:(lia) ltac:(lia) ltac:(vm_compute; split; congruence)
            Examples.trace (Examples.the_conf Examples.final)).
  vm_compute. reflexivity.
Defined.

Lemma send_frames_message_witness :
  exists cks, c_out (Examples.the_conf Examples.final) = cks /\
    framed 10 Examples.message8 cks.
Proof.
  destruct (send_frames_message 10 16384 5 ltac:(vm_compute; split; congruence)
            ltac:(lia) ltac:(lia) ltac:(vm_compute; split; congruence)
            [] Examples.message8 (tail Examples.trace) (Examples.the_conf Examples.final)
            (SendCall 8 1 (repeat Corelib.Init.Byte.x41 3) (PRet None)))
    as (c0 & cks & Hc0 & Hout & Hf).
  - vm_compute. reflexivity.
  - intros Hin%list_elem_of_In. simpl in Hin. intuition discriminate.
  - vm_compute. reflexivity.
  - reflexivity.
  - exists cks. split; [|exact Hf]. injection Hc0 as <-. exact Hout.
Defined.
