(* ===== verification/FlowReceiver.v ===== *)
(** * Flow control: the receiver

    The [receiver] of flow_control.go, generic in the type of its items.  Its
    methods run under its mutex, so each is one atomic function on the state;
    [dequeue] calls [updateWindow] only after it has released the mutex, so the
    amount to acknowledge is part of its result.  The condition variable is
    modelled with the one goroutine that can wait on it: the readers of a
    stream are serialized by the stream's [readMu]. *)
From S2P Require Import Prelude Status Protocol.

Record receiver (T : Type) := Receiver {
  r_minUpdateSize : Z;
  r_msgOverhead : Z;
  r_closed : bool;
  r_cancelled : bool;
  r_items : list T;
  r_currentWindow : Z;
  r_windowUpdate : Z;
}.
Arguments Receiver {T}.
Arguments r_minUpdateSize {T}.
Arguments r_msgOverhead {T}.
Arguments r_closed {T}.
Arguments r_cancelled {T}.
Arguments r_items {T}.
Arguments r_currentWindow {T}.
Arguments r_windowUpdate {T}.

Definition errFlowControlWindowExceeded : error :=
  Errorf ResourceExhausted "flow control window exceeded" [].

(** The result of one pass through the loop of [dequeue]: an item with the
    update to send (none when it is zero), the end of the items, or a wait. *)
Inductive dequeue_result (T : Type) :=
  | Dequeued (item : T) (sendUpdate : Z)
  | DequeueEnd
  | DequeueWait.
Arguments Dequeued {T}.
Arguments DequeueEnd {T}.
Arguments DequeueWait {T}.

Definition newReceiver {T} (initialWindowSize minUpdateSize msgOverhead : Z) : receiver T := {|
  r_minUpdateSize :=
    if minUpdateSize >? initialWindowSize then initialWindowSize else minUpdateSize;
  r_msgOverhead := msgOverhead;
  r_closed := false;
  r_cancelled := false;
  r_items := [];
  r_currentWindow := initialWindowSize;
  r_windowUpdate := 0;
|}.

Definition with_items {T} (items : list T) (r : receiver T) : receiver T :=
  Receiver (r_minUpdateSize r) (r_msgOverhead r) (r_closed r) (r_cancelled r)
    items (r_currentWindow r) (r_windowUpdate r).

Section Receiver.
Context {T : Type} (measure : T -> Z * bool).

Definition charge (r : receiver T) (item : T) : Z :=
  let (sz, msgStart) := measure item in
  if (msgStart : bool) then u64 (sz + r_msgOverhead r) else sz.

Definition accept (item : T) (r : receiver T) : receiver T * option error :=
  let sz := charge r item in
  if r_closed r then (r, None)
  else if sz >? r_currentWindow r then (r, Some errFlowControlWindowExceeded)
  else (Receiver (r_minUpdateSize r) (r_msgOverhead r) (r_closed r) (r_cancelled r)
          (r_items r ++ [item]) (r_currentWindow r -u u32 sz) (r_windowUpdate r), None).

Definition close (r : receiver T) : receiver T :=
  Receiver (r_minUpdateSize r) (r_msgOverhead r) true (r_cancelled r)
    (r_items r) (r_currentWindow r) (r_windowUpdate r).

Definition cancel (r : receiver T) : receiver T :=
  Receiver (r_minUpdateSize r) (r_msgOverhead r) (r_closed r) true
    [] (r_currentWindow r) (r_windowUpdate r).

Definition dequeue (r : receiver T) : receiver T * dequeue_result T :=
  if r_cancelled r then (r, DequeueEnd)
  else match r_items r with
  | item :: rest =>
      let sz := charge r item in
      let newWindowUpdate := r_windowUpdate r +u u32 sz in
      let doSend :=
        (newWindowUpdate >=? r_minUpdateSize r) ||
        ((r_msgOverhead r >? 0) && (newWindowUpdate >? 0) &&
           (r_currentWindow r <=? r_msgOverhead r)) in
      if doSend
      then (Receiver (r_minUpdateSize r) (r_msgOverhead r) (r_closed r) (r_cancelled r)
              rest (r_currentWindow r +u newWindowUpdate) 0, Dequeued item newWindowUpdate)
      else (Receiver (r_minUpdateSize r) (r_msgOverhead r) (r_closed r) (r_cancelled r)
              rest (r_currentWindow r) newWindowUpdate, Dequeued item 0)
  | [] => if r_closed r then (r, DequeueEnd) else (r, DequeueWait)
  end.

(** Whether the method signals the condition variable. *)
Definition accept_signals (item : T) (r : receiver T) : bool :=
  negb (r_closed r) && negb (charge r item >? r_currentWindow r) &&
  bool_decide (length (r_items r) = 0%nat).
Definition closure_broadcasts (flag : bool) (r : receiver T) : bool :=
  negb flag && bool_decide (length (r_items r) = 0%nat).

(** ** The receiver and its reader *)
Inductive reader := Running | Waiting | Woken.

(** The last three fields record what the environment saw: the items that
    were queued, those that were handed to the reader, and the updates. *)
Record recv_conf := RecvConf {
  v_recv : receiver T;
  v_reader : reader;
  v_accepted : list T;
  v_dequeued : list T;
  v_updates : list Z;
}.

Inductive recv_label :=
  | RAccept (item : T) | RClose | RCancel
  | RDequeue.          (** the reader enters [dequeue], or goes on in it *)

Definition wake (signal : bool) (rd : reader) : reader :=
  match rd with Waiting => if signal then Woken else Waiting | _ => rd end.

Definition recv_step (l : recv_label) (v : recv_conf) : option recv_conf :=
  let '(RecvConf r rd acc deq ups) := v in
  match l with
  | RAccept item =>
      let (r', err) := accept item r in
      let queued := match err with None => negb (r_closed r) | Some _ => false end in
      Some (RecvConf r' (wake (accept_signals item r) rd)
              (if queued then acc ++ [item] else acc) deq ups)
  | RClose =>
      Some (RecvConf (close r) (wake (closure_broadcasts (r_closed r) r) rd) acc deq ups)
  | RCancel =>
      Some (RecvConf (cancel r) (wake (closure_broadcasts (r_cancelled r) r) rd) acc deq ups)
  | RDequeue =>
      match rd with
      | Waiting => None
      | _ => match dequeue r with
             | (r', DequeueWait) => Some (RecvConf r' Waiting acc deq ups)
             | (r', DequeueEnd) => Some (RecvConf r' Running acc deq ups)
             | (r', Dequeued item u) =>
                 Some (RecvConf r' Running acc (deq ++ [item]) (ups ++ [u]))
             end
      end
  end.

Definition recv_start (W minUpdate ov : Z) : recv_conf :=
  RecvConf (newReceiver W minUpdate ov) Running [] [] [].

(** ** Invariants *)
Definition queued (r : receiver T) : Z := zsum (charge r <$> r_items r).

Context (measure_nonneg : forall item, 0 <= fst (measure item)).

Record recv_inv (W : Z) (r : receiver T) : Prop := {
  ri_overhead : 0 <= r_msgOverhead r;
  ri_window : 0 <= r_currentWindow r;
  ri_update : 0 <= r_windowUpdate r;
  ri_total : r_currentWindow r + queued r + r_windowUpdate r <= W;
  ri_exact : r_cancelled r = false ->
    r_currentWindow r + queued r + r_windowUpdate r = W;
  ri_min : r_windowUpdate r = 0 \/ r_windowUpdate r < r_minUpdateSize r;
  ri_quiet : r_items r = [] -> r_cancelled r = false -> 0 < r_windowUpdate r ->
    0 < r_msgOverhead r -> r_msgOverhead r < r_currentWindow r;
}.

Lemma charge_nonneg r item : 0 <= charge r item.
Proof.
  unfold charge. pose proof (measure_nonneg item). destruct (measure item) as [sz []]; simpl in *;
    [|done]. unfold u64. apply Z.mod_pos_bound. lia.
Qed.

Lemma queued_nonneg r : 0 <= queued r.
Proof.
  apply zsum_nonneg, Forall_fmap, Forall_forall. intros. apply charge_nonneg.
Qed.

Lemma queued_same_overhead r r' :
  r_msgOverhead r' = r_msgOverhead r -> r_items r' = r_items r -> queued r' = queued r.
Proof. intros Ho Hi. unfold queued, charge. by rewrite Ho, Hi. Qed.

Lemma charge_same_overhead r r' item :
  r_msgOverhead r' = r_msgOverhead r -> charge r' item = charge r item.
Proof. intros Ho. unfold charge. by rewrite Ho. Qed.

Lemma queued_snoc r m c d item w u :
  queued (Receiver m (r_msgOverhead r) c d (r_items r ++ [item]) w u) =
  queued r + charge r item.
Proof. unfold queued. simpl. rewrite fmap_app, zsum_app. simpl. unfold charge. simpl. lia. Qed.

Lemma new_recv_inv W minUpdate ov :
  is_u32 W -> 0 <= ov -> recv_inv W (newReceiver W minUpdate ov).
Proof. intros [? ?] ?. split; simpl; try done; unfold queued; simpl; lia. Qed.

Lemma accept_inv W item r : W <= MaxUint32 -> recv_inv W r -> recv_inv W (fst (accept item r)).
Proof.
  intros HW Hinv. pose proof Hinv as [Ho Hw Hu Ht He Hm Hq]. unfold accept.
  destruct (r_closed r); [done|]. pose proof (charge_nonneg r item).
  destruct (Z.gtb_spec (charge r item) (r_currentWindow r)); [done|].
  pose proof (queued_nonneg r).
  rewrite (u32_small (charge r item)) by (unfold is_u32; lia).
  rewrite u32_small by (unfold is_u32; lia).
  split; simpl; auto; try lia; rewrite ?queued_snoc; try lia.
  - intros Hc. specialize (He Hc). lia.
  - intros Hnil. by destruct (r_items r).
Qed.

Lemma dequeue_inv W r : W <= MaxUint32 -> recv_inv W r -> recv_inv W (fst (dequeue r)).
Proof.
  intros HW Hinv. pose proof Hinv as [Ho Hw Hu Ht He Hm Hq]. unfold dequeue.
  destruct (r_cancelled r) eqn:Hc; [done|].
  destruct (r_items r) as [|item rest] eqn:Hi; [by destruct (r_closed r)|].
  pose proof (charge_nonneg r item) as Hch.
  assert (Hq' : queued r = charge r item + queued (with_items rest r)).
  { unfold queued. rewrite Hi. done. }
  pose proof (queued_nonneg (with_items rest r)). specialize (He eq_refl).
  rewrite (u32_small (charge r item)) by (unfold is_u32; lia).
  rewrite (u32_small (r_windowUpdate r + charge r item)) by (unfold is_u32; lia).
  destruct (orb _ _) eqn:Hsend; simpl.
  - rewrite (u32_small (r_currentWindow r + _)) by (unfold is_u32; lia).
    split; simpl; auto; try lia; unfold queued, charge in *; simpl in *; lia.
  - apply orb_false_iff in Hsend as [Hs1 Hs2].
    rewrite Z.geb_leb in Hs1. apply Z.leb_gt in Hs1.
    split; simpl; auto; try lia; try (unfold queued, charge in *; simpl in *; lia).
Qed.

(** ** The receiver over a run *)

(** What the log of a run says of the receiver. *)
Record recv_log_inv (W ov : Z) (v : recv_conf) : Prop := {
  rl_inv : recv_inv W (v_recv v);
  rl_overhead : r_msgOverhead (v_recv v) = ov;
  rl_window : r_currentWindow (v_recv v) + zsum (charge (v_recv v) <$> v_accepted v)
              = W + zsum (v_updates v);
  rl_fifo : r_cancelled (v_recv v) = false ->
    v_accepted v = v_dequeued v ++ r_items (v_recv v);
  rl_reader : v_reader v = Waiting ->
    r_items (v_recv v) = [] /\ r_closed (v_recv v) = false /\ r_cancelled (v_recv v) = false;
}.

Lemma wake_waiting b rd : wake b rd = Waiting -> rd = Waiting /\ b = false.
Proof. by destruct rd, b. Qed.

Lemma accept_cases item r :
  is_u32 (r_currentWindow r) ->
  (r_closed r = true /\ accept item r = (r, None)) \/
  (r_closed r = false /\ r_currentWindow r < charge r item /\
     accept item r = (r, Some errFlowControlWindowExceeded)) \/
  (r_closed r = false /\ charge r item <= r_currentWindow r /\
     accept item r = (Receiver (r_minUpdateSize r) (r_msgOverhead r) false (r_cancelled r)
       (r_items r ++ [item]) (r_currentWindow r - charge r item) (r_windowUpdate r), None)).
Proof.
  intros HW. unfold accept. destruct (r_closed r); [by left|right].
  destruct (Z.gtb_spec (charge r item) (r_currentWindow r)); [left; auto with lia|right].
  pose proof (charge_nonneg r item).
  rewrite (u32_small (charge r item)) by (unfold is_u32 in *; lia).
  rewrite u32_small by (unfold is_u32 in *; lia). auto.
Qed.

(** One pass of [dequeue] on an item: what it acknowledges moves from the
    unacknowledged bytes to the window. *)
Lemma dequeue_cases W r :
  W <= MaxUint32 -> recv_inv W r ->
  (r_cancelled r = true /\ dequeue r = (r, DequeueEnd)) \/
  (r_cancelled r = false /\ r_items r = [] /\
     dequeue r = (r, if r_closed r then DequeueEnd else DequeueWait)) \/
  (exists item rest u, r_cancelled r = false /\ r_items r = item :: rest /\
     (u = 0 \/ u = r_windowUpdate r + charge r item) /\ 0 <= u /\
     dequeue r = (Receiver (r_minUpdateSize r) (r_msgOverhead r) (r_closed r) false rest
                    (r_currentWindow r + u) (r_windowUpdate r + charge r item - u),
                  Dequeued item u)).
Proof.
  intros HW [Ho Hw Hu Ht He Hm Hq]. unfold dequeue.
  destruct (r_cancelled r) eqn:Hc; [by left|right].
  destruct (r_items r) as [|item rest] eqn:Hi; [left; by destruct (r_closed r)|right].
  pose proof (charge_nonneg r item). pose proof (queued_nonneg (with_items rest r)) as Hqn.
  assert (Hq' : queued r = charge r item + queued (with_items rest r)).
  { unfold queued. by rewrite Hi. }
  specialize (He eq_refl).
  rewrite (u32_small (charge r item)) by (unfold is_u32; lia).
  rewrite (u32_small (r_windowUpdate r + charge r item)) by (unfold is_u32; lia).
  exists item, rest. destruct (orb _ _) eqn:Hsend;
    [exists (r_windowUpdate r + charge r item)|exists 0]; split_and!; try done; auto; try lia.
  - rewrite u32_small by (unfold is_u32; lia). do 2 f_equal. lia.
  - do 2 f_equal; lia.
Qed.

Lemma recv_log_start W minUpdate ov :
  is_u32 W -> 0 <= ov -> recv_log_inv W ov (recv_start W minUpdate ov).
Proof.
  intros HW Ho. split; simpl; try done. by apply new_recv_inv.
Qed.

Lemma recv_log_accept W ov item v v' :
  W <= MaxUint32 -> recv_log_inv W ov v -> recv_step (RAccept item) v = Some v' ->
  recv_log_inv W ov v'.
Proof.
  intros HW [Hinv Ho Hw Hf Hr]. destruct v as [r rd acc deq ups]. simpl in *.
  pose proof (accept_inv W item r HW Hinv) as Hinv'.
  pose proof (queued_nonneg r).
  assert (is_u32 (r_currentWindow r)) as Hu by (destruct Hinv; unfold is_u32; lia).
  unfold accept_signals.
  destruct (accept_cases item r Hu) as [(Hc & Ha)|[(Hc & Hlt & Ha)|(Hc & Hle & Ha)]];
    rewrite Ha in *; rewrite Hc; simpl in *; intros [= <-]; split; simpl; auto.
  - intros [? _]%wake_waiting. auto.
  - intros [? _]%wake_waiting. auto.
  - rewrite fmap_app, zsum_app. simpl.
    assert (forall m it w u, charge (Receiver m (r_msgOverhead r) false (r_cancelled r) it w u)
              = charge r) as -> by done. lia.
  - intros Hcn. by rewrite Hf, app_assoc.
  - intros [Hw' Hs]%wake_waiting. destruct (Hr Hw') as (Hi & _ & _).
    rewrite Hi, bool_decide_true in Hs by done.
    destruct (Z.gtb_spec (charge r item) (r_currentWindow r)); [lia|done].
Qed.

Lemma recv_log_step W ov l v v' :
  W <= MaxUint32 -> recv_log_inv W ov v -> recv_step l v = Some v' -> recv_log_inv W ov v'.
Proof.
  intros HW Hlog. destruct l as [item| | |]; [by apply recv_log_accept|..];
    destruct Hlog as [Hinv Ho Hw Hf Hr]; destruct v as [r rd acc deq ups]; simpl in *.
  - intros [= <-]. pose proof Hinv as [? ? ? ? ? ? ?]. split; simpl; auto; [by split|].
    intros [Hwt Hs]%wake_waiting. destruct (Hr Hwt) as (Hi & Hc & ?).
    unfold closure_broadcasts in Hs. by rewrite Hi, Hc in Hs.
  - intros [= <-]. pose proof Hinv as [? ? ? ? ? ? ?]. pose proof (queued_nonneg r).
    split; simpl; auto; try done.
    + split; simpl; auto; try done. unfold queued at 1. simpl. lia.
    + intros [Hwt Hs]%wake_waiting. destruct (Hr Hwt) as (Hi & ? & Hc).
      unfold closure_broadcasts in Hs. by rewrite Hi, Hc in Hs.
  - pose proof (dequeue_inv W r HW Hinv) as Hinv'.
    destruct (dequeue_cases W r HW Hinv)
      as [(Hc & Hd)|[(Hc & Hi & Hd)|(item & rest & u & Hc & Hi & Hu & Hun & Hd)]];
      rewrite Hd in *; simpl in *.
    + destruct rd; intros; simplify_eq; split; simpl; auto; done.
    + destruct rd, (r_closed r) eqn:Hcl; intros; simplify_eq; split; simpl; auto; done.
    + assert (forall m c it w u, charge (Receiver m (r_msgOverhead r) c false it w u) = charge r)
        as Hch by done.
      destruct rd; intros; simplify_eq; split; simpl; auto; try done;
        try (rewrite Hch, zsum_app; simpl; lia);
        intros _; rewrite (Hf Hc), Hi; by rewrite <- app_assoc.
Qed.

Lemma recv_log_run W minUpdate ov ls v :
  is_u32 W -> 0 <= ov -> run recv_step ls (recv_start W minUpdate ov) = Some v ->
  recv_log_inv W ov v.
Proof.
  intros HW Ho. apply run_invariant; [by apply recv_log_start|].
  intros l v0 v1 Hinv Hstep. destruct HW. by eapply recv_log_step.
Qed.
End Receiver.

(** ** Properties of the receiver *)
Section ReceiverProperties.
Context {T : Type} (measure : T -> Z * bool).
Context (measure_nonneg : forall item, 0 <= fst (measure item)).
Context (W minUpdate ov : Z) (HW : is_u32 W) (Hov : 0 <= ov).

(** The window is conserved.  At any point of any run, the receiver's
    window is the initial one, less what it accepted, plus what it
    acknowledged; what sits in the queue never exceeds the initial window;
    and, unless the stream is cancelled, items leave in the order they came. *)
Theorem receiver_window_conserved ls v :
  run (recv_step measure) ls (recv_start W minUpdate ov) = Some v ->
  r_currentWindow (v_recv v) + zsum (charge measure (v_recv v) <$> v_accepted v)
    = W + zsum (v_updates v) /\
  queued measure (v_recv v) <= W /\
  (r_cancelled (v_recv v) = false -> v_accepted v = v_dequeued v ++ r_items (v_recv v)).
Proof.
  intros Hrun.
  destruct (recv_log_run measure measure_nonneg W minUpdate ov ls v HW Hov Hrun)
    as [[? ? ? ? ? ? ?] _ ? ? _].
  split_and!; [done|lia|done].
Qed.

(** An item is rejected exactly when it overruns what the peer was
    granted, and a rejected item leaves the receiver as it was. *)
Theorem receiver_rejects_overrun ls v item :
  run (recv_step measure) ls (recv_start W minUpdate ov) = Some v ->
  let r := v_recv v in
  (snd (accept measure item r) = Some errFlowControlWindowExceeded <->
    r_closed r = false /\
    W + zsum (v_updates v) <
      zsum (charge measure r <$> v_accepted v) + charge measure r item) /\
  (snd (accept measure item r) <> None -> fst (accept measure item r) = r).
Proof.
  intros Hrun r.
  destruct (recv_log_run measure measure_nonneg W minUpdate ov ls v HW Hov Hrun)
    as [[? ? ? ? ? ? ?] _ Hw _ _].
  pose proof (queued_nonneg measure measure_nonneg (v_recv v)).
  assert (Hu : is_u32 (r_currentWindow r)) by (unfold is_u32 in *; subst r; lia).
  destruct (accept_cases measure measure_nonneg item r Hu)
    as [(Hc & ->)|[(Hc & Hlt & ->)|(Hc & Hle & ->)]]; simpl; rewrite Hc;
    (split; [split; [intros ?|intros [? ?]]|]); try done; subst r; try lia.
Qed.

(** The reader is never left asleep: it waits on the condition variable
    only while there is no item, no end of stream and no cancellation. *)
Theorem reader_wakes_up ls v :
  run (recv_step measure) ls (recv_start W minUpdate ov) = Some v ->
  v_reader v = Waiting ->
  r_items (v_recv v) = [] /\ r_closed (v_recv v) = false /\ r_cancelled (v_recv v) = false.
Proof.
  intros Hrun. apply (recv_log_run measure measure_nonneg W minUpdate ov ls v HW Hov Hrun).
Qed.
End ReceiverProperties.

(** Frames delivered one after the other by the receive loop of the tunnel. *)
Fixpoint accept_all {T} (measure : T -> Z * bool) (items : list T) (r : receiver T)
    : receiver T * option error :=
  match items with
  | [] => (r, None)
  | item :: items =>
      match accept measure item r with
      | (r, None) => accept_all measure items r
      | (r, Some e) => (r, Some e)
      end
  end.

(** Frames that carry no data and start no message are not charged in any
    revision, so any number of them is queued, whatever the window. *)
Theorem empty_continuations_unbounded {T} (measure : T -> Z * bool) item W minUpdate ov n :
  measure item = (0, false) -> is_u32 W ->
  let (r, err) := accept_all measure (replicate n item) (newReceiver W minUpdate ov) in
  err = None /\ length (r_items r) = n /\ r_currentWindow r = W.
Proof.
  intros Hm HW.
  enough (forall r : receiver T, r_closed r = false -> r_currentWindow r = W ->
    let (r', err) := accept_all measure (replicate n item) r in
    err = None /\ length (r_items r') = (length (r_items r) + n)%nat /\ r_currentWindow r' = W)
    as Hall by (by apply (Hall (newReceiver W minUpdate ov))).
  induction n as [|n IH]; intros r Hc Hw; simpl; [auto with lia|].
  assert (Hch : charge measure r item = 0) by (unfold charge; by rewrite Hm).
  unfold accept. rewrite Hc, Hch, Hw.
  destruct (Z.gtb_spec 0 W) as [|_]; [unfold is_u32 in *; lia|].
  match goal with |- context [accept_all _ _ ?r'] => specialize (IH r') end.
  destruct (accept_all _ _ _) as [r' err]. destruct IH as (-> & Hl & Hw'); [done| |].
  - simpl. rewrite (u32_small 0), Z.sub_0_r by done. by apply u32_small.
  - split_and!; [done| |done]. rewrite Hl. simpl. rewrite length_app. simpl. lia.
Qed.

(** ** Examples: the requests of a stream with a ten-byte window. *)
Module Examples.
Definition data (n : nat) : bytes := repeat Corelib.Init.Byte.x41 n.
Definition trace : list recv_label :=
  [RDequeue; RAccept (request_frame (data 3) 4 true); RDequeue;
   RAccept (request_frame (data 1) 4 false); RDequeue; RDequeue].
Definition conf : recv_conf :=
  default (recv_start 10 4 5) (run (recv_step request_measure) trace (recv_start 10 4 5)).
End Examples.

Lemma request_measure_nonneg f : 0 <= fst (request_measure f).
Proof. rewrite request_measure_view. by destruct f; simpl; try apply len_nonneg. Qed.

Lemma receiver_window_conserved_witness :
  r_currentWindow (v_recv Examples.conf) = 10 - 8 - 1 + 8 /\ queued request_measure (v_recv Examples.conf) <= 10.
Proof.
  destruct (receiver_window_conserved request_measure request_measure_nonneg 10 4 5
    ltac:(vm_compute; split; congruence) ltac:(lia) Examples.trace Examples.conf)
    as (Hw & Hq & _); [vm_compute; reflexivity|].
  split; [vm_compute; reflexivity|exact Hq].
Defined.

Lemma receiver_rejects_overrun_witness :
  snd (accept request_measure (request_frame (Examples.data 10) 10 true)
         (v_recv Examples.conf)) = Some errFlowControlWindowExceeded.
Proof.
  apply (receiver_rejects_overrun request_measure request_measure_nonneg 10 4 5
    ltac:(vm_compute; split; congruence) ltac:(lia) Examples.trace Examples.conf
    (request_frame (Examples.data 10) 10 true)); [vm_compute; reflexivity|].
  split; vm_compute; reflexivity.
Defined.

Lemma reader_wakes_up_witness :
  v_reader Examples.conf = Waiting /\ r_items (v_recv Examples.conf) = [].
Proof.
  split; [vm_compute; reflexivity|].
  apply (reader_wakes_up request_measure request_measure_nonneg 10 4 5
    ltac:(vm_compute; split; congruence) ltac:(lia) Examples.trace Examples.conf);
    vm_compute; reflexivity.
Defined.

Lemma empty_continuations_unbounded_witness :
  snd (accept_all request_measure
        (replicate 1000 (ClientToServer_MoreRequestData [])) (newReceiver 6 6 5)) = None.
Proof.
  pose proof (empty_continuations_unbounded request_measure (ClientToServer_MoreRequestData [])
    6 6 5 1000 eq_refl ltac:(vm_compute; split; congruence)) as H.
  destruct (accept_all _ _ _) as [r err]. exact (proj1 H).
Defined.
