(* ===== verification/Reassembly.v ===== *)
(** * Reading messages

    [readMsgLocked] and [readMsg], which tunnel_server.go and tunnel_client.go
    each define for their own streams: the loop that dequeues data frames and
    puts messages back together.  The two copies differ in the errors they
    report, in where the error at the end of the stream comes from, and in that
    the server looks at its context before each frame; these are the fields of
    [read_config].  A read that has to wait for a frame is [Blocked] inside
    [dequeue], with the local variables it resumes with. *)
From S2P Require Import Prelude Status Protocol FlowSender FlowReceiver.

(** Go's results [(data []byte, ok bool, err error)]; [None] is the nil slice. *)
Record read_return := ReadReturn { rr_data : option bytes; rr_ok : bool; rr_err : option error }.

Record read_config (T : Type) := ReadConfig {
  rc_stream : bool;                 (** the peer may send several messages *)
  rc_ctx : option error;            (** what [ctx.Err()] says before a frame *)
  rc_end : option error;            (** the error when there are no more frames *)
  rc_twice : Z -> Z -> error;       (** an envelope inside a message *)
  rc_overflow : error;              (** more data than the envelope says *)
  rc_never : error;                 (** data before any envelope *)
  rc_unrecognized : T -> error;     (** not a data frame *)
  rc_several : error;               (** a second message where one is allowed *)
}.
Arguments ReadConfig {T}.
Arguments rc_stream {T}.
Arguments rc_ctx {T}.
Arguments rc_end {T}.
Arguments rc_twice {T}.
Arguments rc_overflow {T}.
Arguments rc_never {T}.
Arguments rc_unrecognized {T}.
Arguments rc_several {T}.

(** The local variables [msgLen] and [b]. *)
Record read_vars := ReadVars { rv_msgLen : Z; rv_b : bytes }.
Definition read_vars0 : read_vars := ReadVars (-1) [].

Inductive read_outcome := Returned (ret : read_return) | Blocked (vars : read_vars).

Section Reading.
Context {T : Type} `{DataFrame T} (measure : T -> Z * bool).

(** The checks on the data gathered so far. *)
Definition read_check (cfg : read_config T) (msgLen : Z) (b : bytes) : read_vars + read_return :=
  if len b >? msgLen then inr (ReadReturn None false (Some (rc_overflow cfg)))
  else if len b =? msgLen then inr (ReadReturn (Some b) true None)
  else inl (ReadVars msgLen b).

(** The type switch on a frame: go on with new variables, or return. *)
Definition read_frame (cfg : read_config T) (frame : T) (v : read_vars) : read_vars + read_return :=
  match data_view_of frame with
  | VMessage size d =>
      if negb (rv_msgLen v =? -1)
      then inr (ReadReturn None false (Some (rc_twice cfg (len (rv_b v)) (rv_msgLen v))))
      else read_check cfg size d
  | VMore d =>
      if rv_msgLen v =? -1
      then inr (ReadReturn None false (Some (rc_never cfg)))
      else read_check cfg (rv_msgLen v) (rv_b v ++ d)
  | VOther => inr (ReadReturn None false (Some (rc_unrecognized cfg frame)))
  end.

Definition send_update (u : Z) : list Z := if u >? 0 then [u] else [].

(** The loop.  [resumed] says that the read is already inside [dequeue], past
    the look at the context.  The result has the window updates to send. *)
Fixpoint read_loop (fuel : nat) (resumed : bool) (cfg : read_config T) (r : receiver T)
    (v : read_vars) : option (receiver T * list Z * read_outcome) :=
  match fuel with
  | O => None
  | S fuel =>
      match (if resumed then None else rc_ctx cfg) with
      | Some e => Some (r, [], Returned (ReadReturn None true (Some e)))
      | None =>
          match dequeue measure r with
          | (r', Dequeued frame u) =>
              match read_frame cfg frame v with
              | inr ret => Some (r', send_update u, Returned ret)
              | inl v' =>
                  match read_loop fuel false cfg r' v' with
                  | Some (r'', us, out) => Some (r'', send_update u ++ us, out)
                  | None => None
                  end
              end
          | (r', DequeueEnd) => Some (r', [], Returned (ReadReturn None true (rc_end cfg)))
          | (r', DequeueWait) => Some (r', [], Blocked v)
          end
      end
  end.

(** Each round takes an item, so the queue bounds the rounds. *)
Definition read_fuel (r : receiver T) : nat := S (length (r_items r)).

Lemma dequeue_length r r' item u :
  dequeue measure r = (r', Dequeued item u) -> length (r_items r) = S (length (r_items r')).
Proof. unfold dequeue. intros. step_cases; done. Qed.

Lemma read_loop_total fuel resumed cfg r v :
  (read_fuel r <= fuel)%nat -> is_Some (read_loop fuel resumed cfg r v).
Proof.
  unfold read_fuel. revert resumed r v. induction fuel as [|fuel IH]; intros resumed r v Hf; [lia|].
  simpl. destruct (if resumed then None else rc_ctx cfg); [done|].
  destruct (dequeue measure r) as [r' [frame u| |]] eqn:Hd; [|done..].
  destruct (read_frame cfg frame v) as [v'|ret]; [|done].
  apply dequeue_length in Hd. destruct (IH false r' v') as [[[? ?] ?] ->]; [lia|done].
Qed.

(** ** readMsgLocked

    The stream's [readErr] makes an error stick. *)
Record read_state := ReadState { rs_recv : receiver T; rs_readErr : option error }.

Definition keep_err (rs : read_state) (err : option error) : option error :=
  match err with Some e => Some e | None => rs_readErr rs end.

Definition readMsgLocked (resumed : bool) (cfg : read_config T) (rs : read_state) (v : read_vars)
    : option (read_state * list Z * read_outcome) :=
  match (if resumed then None else rs_readErr rs) with
  | Some e => Some (rs, [], Returned (ReadReturn None true (Some e)))
  | None =>
      match read_loop (read_fuel (rs_recv rs)) resumed cfg (rs_recv rs) v with
      | Some (r, us, Returned ret) =>
          Some (ReadState r (keep_err rs (rr_err ret)), us, Returned ret)
      | Some (r, us, Blocked v) => Some (ReadState r (rs_readErr rs), us, Blocked v)
      | None => None
      end
  end.

(** ** readMsg

    When the peer may send one message only, a second read makes sure that
    the stream ends after it.  A blocked [readMsg] remembers which of the two
    reads it is in. *)
Inductive read_phase :=
  | FirstRead (resumed : bool) (v : read_vars)
  | SecondRead (resumed : bool) (v : read_vars) (first : read_return).

Inductive read_msg_outcome := MsgReturned (ret : read_return) | MsgBlocked (ph : read_phase).

Definition second_read (resumed : bool) (cfg : read_config T) (rs : read_state) (v : read_vars)
    (first : read_return) : option (read_state * list Z * read_msg_outcome) :=
  match readMsgLocked resumed cfg rs v with
  | Some (rs, us, Blocked v) => Some (rs, us, MsgBlocked (SecondRead true v first))
  | Some (rs, us, Returned ret) =>
      match rr_err ret with
      | None =>
          Some (ReadState (rs_recv rs) (Some (rc_several cfg)), us,
                MsgReturned (ReadReturn None false (Some (rc_several cfg))))
      | Some err =>
          if negb (is_EOF err) || negb (rr_ok ret)
          then Some (rs, us, MsgReturned (ReadReturn None (rr_ok ret) (Some err)))
          else Some (rs, us, MsgReturned first)
      end
  | None => None
  end.

Definition readMsg (cfg : read_config T) (rs : read_state) (ph : read_phase)
    : option (read_state * list Z * read_msg_outcome) :=
  match ph with
  | SecondRead resumed v first => second_read resumed cfg rs v first
  | FirstRead resumed v =>
      match readMsgLocked resumed cfg rs v with
      | Some (rs, us, Blocked v) => Some (rs, us, MsgBlocked (FirstRead true v))
      | Some (rs, us, Returned ret) =>
          if bool_decide (rr_err ret = None) && negb (rc_stream cfg) then
            match second_read false cfg rs read_vars0 ret with
            | Some (rs, us', out) => Some (rs, us ++ us', out)
            | None => None
            end
          else Some (rs, us, MsgReturned ret)
      | None => None
      end
  end.

Definition read_start : read_phase := FirstRead false read_vars0.
End Reading.

(** ** The two ends of a stream *)

(** The type names that [%T] prints. *)
Definition request_type (f : ClientToServerFrame) : string :=
  match f with
  | ClientToServer_NewStream _ => "*tunnelpb.ClientToServer_NewStream"
  | ClientToServer_RequestMessage _ => "*tunnelpb.ClientToServer_RequestMessage"
  | ClientToServer_MoreRequestData _ => "*tunnelpb.ClientToServer_MoreRequestData"
  | ClientToServer_HalfClose => "*tunnelpb.ClientToServer_HalfClose"
  | ClientToServer_Cancel => "*tunnelpb.ClientToServer_Cancel"
  | ClientToServer_WindowUpdate _ => "*tunnelpb.ClientToServer_WindowUpdate"
  end.

Definition response_type (f : ServerToClientFrame) : string :=
  match f with
  | ServerToClient_Settings _ => "*tunnelpb.ServerToClient_Settings"
  | ServerToClient_ResponseHeaders _ => "*tunnelpb.ServerToClient_ResponseHeaders"
  | ServerToClient_ResponseMessage _ => "*tunnelpb.ServerToClient_ResponseMessage"
  | ServerToClient_MoreResponseData _ => "*tunnelpb.ServerToClient_MoreResponseData"
  | ServerToClient_CloseStream _ => "*tunnelpb.ServerToClient_CloseStream"
  | ServerToClient_WindowUpdate _ => "*tunnelpb.ServerToClient_WindowUpdate"
  end.

(** The tunnel server: [ctxErr] is [st.ctx.Err()], and at the end of the frames
    the error is the one in [halfClosed], or nil when there is none. *)
Definition server_read_config (isClientStream : bool) (method : string)
    (ctxErr halfClosed : option error) : read_config ClientToServerFrame := {|
  rc_stream := isClientStream;
  rc_ctx := ctxErr;
  rc_end := halfClosed;
  rc_twice got want := Errorf InvalidArgument
    "received request message envelope before previous message finished (%d/%d)"
    [AInt got; AInt want];
  rc_overflow := Errorf InvalidArgument
    "received more data than indicated by request message envelope" [];
  rc_never := Errorf InvalidArgument "never received envelope for request message" [];
  rc_unrecognized f := Errorf InvalidArgument "unrecognized frame type: %T"
    [AType (request_type f)];
  rc_several := Errorf InvalidArgument
    "Already received request for non-client-stream method %s" [AStr method];
|}.

(** The tunnel client: no look at the context, and the error at the end is the
    one in [done]. *)
Definition client_read_config (isServerStream : bool) (reverse : bool) (method : string)
    (doneErr : option error) : read_config ServerToClientFrame :=
  let peer := fst (tunnelRoles reverse) in {|
  rc_stream := isServerStream;
  rc_ctx := None;
  rc_end := doneErr;
  rc_twice got want := Errorf Internal
    "%s sent response message envelope before previous message finished (%d/%d)"
    [AStr peer; AInt got; AInt want];
  rc_overflow := Errorf Internal
    "%s sent more data than indicated by response message envelope" [AStr peer];
  rc_never := Errorf Internal "%s never sent envelope for response message" [AStr peer];
  rc_unrecognized f := Errorf Internal "unrecognized frame type: %T"
    [AType (response_type f)];
  rc_several := Errorf Internal
    "%s sent multiple responses for non-server-stream method %s" [AStr peer; AStr method];
|}.

(** ** Reading what a sender sent *)
Section RoundTrip.
Context {T : Type} `{DataFrame T} (measure : T -> Z * bool).

(** The frame of a chunk, as [sendFunc] builds it. *)
Definition chunk_frame (ck : chunk) : T :=
  data_frame (ck_data ck) (ck_size ck) (ck_first ck).

(** [dequeue] on a queue that is neither cancelled nor empty. *)
Lemma dequeue_item r item rest :
  r_cancelled r = false -> r_items r = item :: rest ->
  exists r' u, dequeue measure r = (r', Dequeued item u) /\ r_items r' = rest /\
    r_cancelled r' = false /\ r_closed r' = r_closed r /\
    length (r_items r) = S (length (r_items r')).
Proof.
  intros Hc Hi. unfold dequeue. rewrite Hc, Hi.
  destruct (orb _ _); eexists _, _; split_and!; simpl; try done.
Qed.

Lemma read_more_chunks max cfg fuel resumed cks rest r b mid size :
  (length (r_items r) < fuel)%nat -> (resumed = true \/ rc_ctx cfg = None) ->
  rc_ctx cfg = None ->
  r_cancelled r = false -> r_items r = (chunk_frame <$> cks) ++ rest ->
  framed_rest max mid cks -> mid <> [] -> size = len b + len mid ->
  exists r' us, read_loop measure fuel resumed cfg r (ReadVars size b)
      = Some (r', us, Returned (ReadReturn (Some (b ++ mid)) true None)) /\
    r_items r' = rest /\ r_cancelled r' = false /\ r_closed r' = r_closed r.
Proof.
  revert fuel resumed r b mid. induction cks as [|ck cks IH];
    intros fuel resumed r b mid Hfuel Hres Hctx Hc Hi Hfr Hmid Hsize; [done|].
  destruct Hfr as (mid' & Hf & Hl & -> & Hfr).
  destruct fuel as [|fuel]; [lia|]. simpl.
  assert ((if resumed then None else rc_ctx cfg) = None) as ->.
  { destruct resumed, Hres; done. }
  destruct (dequeue_item r _ _ Hc Hi) as (r1 & u & -> & Hi1 & Hc1 & Hcl1 & Hl1).
  unfold read_frame, chunk_frame. rewrite Hf, data_view_more. simpl.
  pose proof (len_nonneg b). pose proof (len_nonneg mid'). rewrite len_app in *.
  destruct (Z.eqb_spec size (-1)); [lia|].
  unfold read_check. rewrite len_app.
  destruct (Z.gtb_spec (len b + len (ck_data ck)) size); [lia|].
  destruct (Z.eqb_spec (len b + len (ck_data ck)) size) as [Heq|Hne].
  - assert (mid' = []) as -> by (apply len_zero; lia).
    destruct cks as [|ck' cks]; simpl in Hfr.
    + rewrite app_nil_r. by exists r1, (send_update u).
    + destruct Hfr as (? & _ & ? & Hnil & _). symmetry in Hnil.
      apply (f_equal len) in Hnil. rewrite len_app, len_nil in Hnil.
      pose proof (len_nonneg x). lia.
  - destruct (IH fuel false r1 (b ++ ck_data ck) mid') as (r' & us & Hrl & Hi' & Hc' & Hcl');
      try done; [lia|by right| |rewrite len_app; lia|].
    { intros ->. rewrite len_nil in *. lia. }
    rewrite Hrl. rewrite <- app_assoc. exists r', (send_update u ++ us). by rewrite Hcl'.
Qed.

(** Chunks that frame [d], at the head of the queue, are read back as [d]. *)
Lemma read_framed max cfg fuel resumed d cks rest r :
  (length (r_items r) < fuel)%nat -> rc_ctx cfg = None -> r_cancelled r = false ->
  r_items r = (chunk_frame <$> cks) ++ rest -> framed max d cks ->
  exists r' us, read_loop measure fuel resumed cfg r read_vars0
      = Some (r', us, Returned (ReadReturn (Some d) true None)) /\
    r_items r' = rest /\ r_cancelled r' = false /\ r_closed r' = r_closed r.
Proof.
  intros Hfuel Hctx Hc Hi (ck & mid & cks' & -> & Hf & Hs & Hmax & -> & Hnil & Hfr).
  destruct fuel as [|fuel]; [lia|]. simpl.
  assert ((if resumed then None else rc_ctx cfg) = None) as -> by (by destruct resumed).
  destruct (dequeue_item r _ _ Hc Hi) as (r1 & u & -> & Hi1 & Hc1 & Hcl1 & Hl1).
  unfold read_frame, chunk_frame. rewrite Hf, data_view_first. simpl.
  unfold read_check. rewrite Hs, len_app. pose proof (len_nonneg mid).
  destruct (Z.gtb_spec (len (ck_data ck)) (len (ck_data ck) + len mid)); [lia|].
  destruct (Z.eqb_spec (len (ck_data ck)) (len (ck_data ck) + len mid)) as [Heq|Hne].
  - assert (mid = []) as -> by (apply len_zero; lia). destruct cks' as [|ck' cks']; simpl in Hfr.
    + rewrite app_nil_r. by exists r1, (send_update u).
    + destruct Hfr as (? & _ & ? & Hn & _). symmetry in Hn.
      apply (f_equal len) in Hn. rewrite len_app, len_nil in Hn.
      pose proof (len_nonneg x). lia.
  - destruct (read_more_chunks max cfg fuel false cks' rest r1 (ck_data ck) mid
                (len (ck_data ck) + len mid)) as (r' & us & -> & Hi' & Hc' & Hcl'); try done.
    + lia.
    + by right.
    + intros ->. rewrite len_nil in *. lia.
    + exists r', (send_update u ++ us). by rewrite Hcl'.
Qed.

(** [n] reads in a row, on a stream where the peer may send many messages. *)
Fixpoint read_messages (n : nat) (cfg : read_config T) (rs : read_state)
    : option (read_state * list (option bytes)) :=
  match n with
  | O => Some (rs, [])
  | S n =>
      match readMsg measure cfg rs read_start with
      | Some (rs, _, MsgReturned ret) =>
          match read_messages n cfg rs with
          | Some (rs, ds) => Some (rs, rr_data ret :: ds)
          | None => None
          end
      | _ => None
      end
  end.

(** C30: Round trip.  Whatever chunk sizes the window imposed, reading the
    frames of a sequence of messages gives back those messages, in order, and
    takes exactly their frames from the queue. *)
Theorem read_messages_roundtrip max cfg ds ckss rest r :
  rc_stream cfg = true -> rc_ctx cfg = None -> r_cancelled r = false ->
  Forall2 (framed max) ds ckss ->
  r_items r = (chunk_frame <$> concat ckss) ++ rest ->
  exists r', read_messages (length ds) cfg (ReadState r None)
      = Some (ReadState r' None, Some <$> ds) /\ r_items r' = rest.
Proof.
  intros Hstream Hctx Hc Hall. revert r Hc. induction Hall as [|d cks ds ckss Hd Hall IH];
    intros r Hc Hi; [by exists r|].
  simpl in Hi. rewrite fmap_app, <- app_assoc in Hi.
  destruct (read_framed max cfg (read_fuel r) false d cks ((chunk_frame <$> concat ckss) ++ rest) r)
    as (r1 & us & Hrl & Hi1 & Hc1 & _); try done; [unfold read_fuel; lia|].
  destruct (IH r1 Hc1 Hi1) as (r' & Hrm & Hr').
  cbn [read_messages length]. unfold readMsg, read_start, readMsgLocked.
  cbn [rs_readErr rs_recv]. rewrite Hrl. cbn [rr_err keep_err rs_readErr].
  rewrite Hstream, andb_false_r, Hrm. by exists r'.
Qed.
End RoundTrip.

(** ** What a read can return *)
Section ReadSound.
Context {T : Type} `{DataFrame T} (measure : T -> Z * bool).

(** The frames of one message, as a reader sees them. *)
Definition message_views (vs : list data_view) (d : bytes) : Prop :=
  exists d0 ds, vs = VMessage (len d) d0 :: (VMore <$> ds) /\ d = d0 ++ concat ds.

Lemma dequeue_takes r r' item u :
  dequeue measure r = (r', Dequeued item u) -> r_items r = item :: r_items r'.
Proof. unfold dequeue. intros. step_cases; done. Qed.

Lemma read_check_cases (cfg : read_config T) size b :
  (len b < size /\ read_check cfg size b = inl (ReadVars size b)) \/
  (len b = size /\ read_check cfg size b = inr (ReadReturn (Some b) true None)) \/
  (size < len b /\ read_check cfg size b = inr (ReadReturn None false (Some (rc_overflow cfg)))).
Proof.
  unfold read_check. destruct (Z.gtb_spec (len b) size); [auto with lia|].
  destruct (Z.eqb_spec (len b) size); [auto|left]. split; [lia|done].
Qed.

Lemma read_more_sound fuel resumed cfg r v r' us d :
  0 <= rv_msgLen v -> read_loop measure fuel resumed cfg r v
    = Some (r', us, Returned (ReadReturn (Some d) true None)) ->
  exists taken ds, r_items r = taken ++ r_items r' /\ data_view_of <$> taken = VMore <$> ds /\
    d = rv_b v ++ concat ds /\ rv_msgLen v = len d.
Proof.
  revert resumed r v us. induction fuel as [|fuel IH]; intros resumed r v us Hm Hrl; [done|].
  simpl in Hrl. destruct (if resumed then None else rc_ctx cfg); [done|].
  destruct (dequeue measure r) as [r1 [frame u| |]] eqn:Hd; try done.
  apply dequeue_takes in Hd. unfold read_frame in Hrl.
  destruct (data_view_of frame) as [size d'|d'|] eqn:Hv; [|destruct (Z.eqb_spec (rv_msgLen v) (-1)); [lia|]|done].
  - destruct (Z.eqb_spec (rv_msgLen v) (-1)); [lia|done].
  - destruct (read_check_cases cfg (rv_msgLen v) (rv_b v ++ d')) as [[Hl Hc]|[[Hl Hc]|[Hl Hc]]];
      rewrite Hc in Hrl; [|simplify_eq|done].
    + destruct (read_loop measure fuel false cfg r1 _) as [[[r2 us2] out]|] eqn:Hrl2; simplify_eq.
      apply IH in Hrl2 as (taken & ds & Hi & Hvs & -> & Hsz); [|done]. simpl in *.
      exists (frame :: taken), (d' :: ds). split_and!; [by rewrite Hd, Hi|by rewrite !fmap_cons, Hv, Hvs| |done].
      simpl. by rewrite <- app_assoc.
    + exists [frame], [d']. split_and!; simpl; [done|by rewrite Hv|by rewrite app_nil_r|done].
Qed.

(** A read that returns a message has taken from the queue exactly the
    frames of that message: an envelope with its size, then continuations, in
    order, with data that adds up to that size. *)
Theorem read_returns_one_message fuel resumed cfg r r' us d :
  read_loop measure fuel resumed cfg r read_vars0
    = Some (r', us, Returned (ReadReturn (Some d) true None)) ->
  exists taken, r_items r = taken ++ r_items r' /\ message_views (data_view_of <$> taken) d.
Proof.
  destruct fuel as [|fuel]; [done|]. simpl.
  destruct (if resumed then None else rc_ctx cfg); [done|].
  destruct (dequeue measure r) as [r1 [frame u| |]] eqn:Hd; try done.
  apply dequeue_takes in Hd. unfold read_frame.
  destruct (data_view_of frame) as [size d'|d'|] eqn:Hv; [|done..]. simpl.
  destruct (read_check_cases cfg size d') as [[Hl ->]|[[Hl ->]|[Hl ->]]]; [|intros; simplify_eq|done].
  - destruct (read_loop measure fuel false cfg r1 _) as [[[r2 us2] out]|] eqn:Hrl2; [|done].
    intros. simplify_eq.
    pose proof (len_nonneg d').
    apply read_more_sound in Hrl2 as (taken & ds & Hi & Hvs & -> & Hsz); simpl in *; [|lia].
    exists (frame :: taken). split; [by rewrite Hd, Hi|]. exists d', ds.
    by rewrite fmap_cons, Hv, Hvs, Hsz.
  - exists [frame]. split; [done|]. exists d, []. simpl. by rewrite app_nil_r, Hv.
Qed.

(** A loop whose end-of-stream error is set never returns nil without data. *)
Lemma read_loop_error fuel resumed cfg r v r' us ret :
  rc_end cfg <> None -> read_loop measure fuel resumed cfg r v = Some (r', us, Returned ret) ->
  rr_err ret = None -> exists d, ret = ReadReturn (Some d) true None.
Proof.
  intros He. revert resumed r v us. induction fuel as [|fuel IH]; intros resumed r v us Hrl Herr; [done|].
  simpl in Hrl. destruct (if resumed then None else rc_ctx cfg); [by simplify_eq|].
  destruct (dequeue measure r) as [r1 [frame u| |]]; [|by simplify_eq|done].
  unfold read_frame in Hrl.
  assert (Hck : forall size b ret', read_check cfg size b = inr ret' -> rr_err ret' = None ->
            exists d, ret' = ReadReturn (Some d) true None).
  { intros size b ret' Hr He'. destruct (read_check_cases cfg size b) as [[_ Hc]|[[_ Hc]|[_ Hc]]];
      rewrite Hc in Hr; simplify_eq/=; eauto. }
  destruct (data_view_of frame) as [size d'|d'|]; [| |by simplify_eq].
  - destruct (negb _); [by simplify_eq|].
    destruct (read_check cfg size d') as [v'|ret'] eqn:Hc; [|simplify_eq; eauto].
    destruct (read_loop measure fuel false cfg r1 v') as [[[? ?] ?]|] eqn:Hr2; simplify_eq; eauto.
  - destruct (rv_msgLen v =? -1); [by simplify_eq|].
    destruct (read_check cfg _ _) as [v'|ret'] eqn:Hc; [|simplify_eq; eauto].
    destruct (read_loop measure fuel false cfg r1 v') as [[[? ?] ?]|] eqn:Hr2; simplify_eq; eauto.
Qed.

(** ** Streams with a single message *)

Lemma readMsgLocked_framed max cfg d cks rest r :
  rc_ctx cfg = None -> r_cancelled r = false ->
  r_items r = (chunk_frame <$> cks) ++ rest -> framed max d cks ->
  exists r' us, readMsgLocked measure false cfg (ReadState r None) read_vars0
      = Some (ReadState r' None, us, Returned (ReadReturn (Some d) true None)) /\
    r_items r' = rest /\ r_cancelled r' = false /\ r_closed r' = r_closed r.
Proof.
  intros Hctx Hc Hi Hd.
  destruct (read_framed measure max cfg (read_fuel r) false d cks rest r)
    as (r' & us & Hrl & Hr'); try done; [unfold read_fuel; lia|].
  exists r', us. unfold readMsgLocked. cbn [rs_readErr rs_recv]. by rewrite Hrl.
Qed.

(** On a stream where the peer may send one message only, the message is
    returned when the stream then ends with [io.EOF]; a second message makes
    the read fail, and the failure sticks. *)
Theorem single_message_read max cfg d cks r :
  rc_stream cfg = false -> rc_ctx cfg = None -> r_cancelled r = false ->
  framed max d cks ->
  (r_items r = (chunk_frame <$> cks) -> r_closed r = true -> rc_end cfg = Some EOF ->
   exists rs us, readMsg measure cfg (ReadState r None) read_start
     = Some (rs, us, MsgReturned (ReadReturn (Some d) true None)) /\
     rs_readErr rs = Some EOF /\ r_items (rs_recv rs) = []) /\
  (forall d2 cks2 rest, framed max d2 cks2 ->
     r_items r = (chunk_frame <$> cks) ++ (chunk_frame <$> cks2) ++ rest ->
   exists rs us, readMsg measure cfg (ReadState r None) read_start
     = Some (rs, us, MsgReturned (ReadReturn None false (Some (rc_several cfg)))) /\
     rs_readErr rs = Some (rc_several cfg)).
Proof.
  intros Hstream Hctx Hc Hd. unfold readMsg, read_start. split.
  - intros Hi Hcl Hend. rewrite <- (app_nil_r (chunk_frame <$> cks)) in Hi.
    destruct (readMsgLocked_framed max cfg d cks [] r Hctx Hc Hi Hd)
      as (r1 & us & -> & Hi1 & Hc1 & Hcl1).
    cbn [rr_err]. rewrite bool_decide_true, Hstream by done. cbn [andb negb].
    unfold second_read, readMsgLocked, read_fuel. cbn [rs_readErr rs_recv].
    rewrite Hi1. cbn [length read_loop]. rewrite Hctx. unfold dequeue.
    rewrite Hc1, Hi1, Hcl1, Hcl, Hend. simpl. eexists _, _. split; [done|]. by split.
  - intros d2 cks2 rest Hd2 Hi.
    destruct (readMsgLocked_framed max cfg d cks _ r Hctx Hc Hi Hd)
      as (r1 & us & -> & Hi1 & Hc1 & _).
    cbn [rr_err]. rewrite bool_decide_true, Hstream by done. cbn [andb negb].
    destruct (readMsgLocked_framed max cfg d2 cks2 rest r1 Hctx Hc1 Hi1 Hd2)
      as (r2 & us2 & Hr2 & _). unfold second_read. rewrite Hr2. simpl. eauto.
Qed.
End ReadSound.

(** ** What a read does to the receiver *)
Section ReadReceiver.
Context {T : Type} `{DataFrame T} (measure : T -> Z * bool).

(** It takes items from the front and leaves the flags alone. *)
Definition took (r r' : receiver T) : Prop :=
  (exists taken, r_items r = taken ++ r_items r') /\
  r_closed r' = r_closed r /\ r_cancelled r' = r_cancelled r.

Lemma took_refl r : took r r.
Proof. split; [by exists []|done]. Qed.
Lemma took_trans r1 r2 r3 : took r1 r2 -> took r2 r3 -> took r1 r3.
Proof.
  intros ((t1 & E1) & C1 & D1) ((t2 & E2) & C2 & D2). split; [|split; congruence].
  exists (t1 ++ t2). by rewrite E1, E2, app_assoc.
Qed.

Lemma dequeue_took r : took r (fst (dequeue measure r)).
Proof.
  unfold dequeue, took. destruct (r_cancelled r) eqn:Hc; [split; [by exists []|done]|].
  destruct (r_items r) as [|f fs] eqn:Hi.
  - destruct (r_closed r) eqn:Hcl; simpl; rewrite Hi; (split; [by exists []|done]).
  - destruct (orb _ _); simpl; (split; [by exists [f]|done]).
Qed.

Lemma read_loop_took fuel resumed cfg r v r' us out :
  read_loop measure fuel resumed cfg r v = Some (r', us, out) -> took r r'.
Proof.
  revert resumed r v us. induction fuel as [|fuel IH]; intros resumed r v us Hr; [done|].
  simpl in Hr. destruct (if resumed then None else rc_ctx cfg).
  { simplify_eq. apply took_refl. }
  pose proof (dequeue_took r) as Hd.
  destruct (dequeue measure r) as [r1 [frame u| |]]; simpl in Hd; simplify_eq; try done.
  destruct (read_frame cfg frame v) as [v'|ret]; simplify_eq; [|done].
  destruct (read_loop measure fuel false cfg r1 v') as [[[r2 us2] out2]|] eqn:Hl; simplify_eq.
  eapply took_trans; [exact Hd|]. by eapply IH.
Qed.

Lemma readMsgLocked_took resumed cfg rs v rs' us out :
  readMsgLocked measure resumed cfg rs v = Some (rs', us, out) -> took (rs_recv rs) (rs_recv rs').
Proof.
  unfold readMsgLocked. destruct (if resumed then None else rs_readErr rs).
  { intros. simplify_eq. apply took_refl. }
  destruct (read_loop _ _ _ _ _ _) as [[[r us1] [ret|v1]]|] eqn:Hl; intros; simplify_eq;
    by eapply read_loop_took.
Qed.

Lemma second_read_took resumed cfg rs v first rs' us out :
  second_read measure resumed cfg rs v first = Some (rs', us, out) -> took (rs_recv rs) (rs_recv rs').
Proof.
  unfold second_read. destruct (readMsgLocked _ _ _ _ _) as [[[rs1 us1] [ret|v1]]|] eqn:Hl; [| |done];
    apply readMsgLocked_took in Hl.
  - destruct (rr_err ret) as [e|]; [destruct (orb _ _)|]; intros; by simplify_eq.
  - intros. by simplify_eq.
Qed.

Lemma readMsg_took cfg rs ph rs' us out :
  readMsg measure cfg rs ph = Some (rs', us, out) -> took (rs_recv rs) (rs_recv rs').
Proof.
  destruct ph as [resumed v|resumed v first]; simpl; [|apply second_read_took].
  destruct (readMsgLocked _ _ _ _ _) as [[[rs1 us1] [ret|v1]]|] eqn:Hl; [| |done];
    apply readMsgLocked_took in Hl; [|intros; by simplify_eq].
  destruct (_ && _); [|intros; by simplify_eq].
  destruct (second_read _ _ _ _ _ _) as [[[rs2 us2] out2]|] eqn:Hs; intros; simplify_eq.
  eapply took_trans; [exact Hl|]. by eapply second_read_took.
Qed.

Lemma accept_flags item r :
  r_closed (fst (accept measure item r)) = r_closed r /\
  r_cancelled (fst (accept measure item r)) = r_cancelled r.
Proof. unfold accept. destruct (r_closed r) eqn:Hc; [done|]. by destruct (_ >? _). Qed.
End ReadReceiver.

(** ** The end of the stream on each side *)

(** A reader that waits for a frame of a stream on which nothing has come. *)
Definition waiting_read : read_phase := FirstRead true read_vars0.

(** On the client the end of the stream is always an error: whatever made
      the frames stop, [done] is set first, so a read that returns no error
      returns a message. *)
Theorem client_read_never_empty isServerStream reverse method e rs rs' us ph ret :
  readMsg response_measure (client_read_config isServerStream reverse method (Some e)) rs ph
    = Some (rs', us, MsgReturned ret) ->
  match ph with SecondRead _ _ first => rr_data first <> None | _ => True end ->
  rr_err ret = None -> exists d, rr_data ret = Some d.
Proof.
  set (cfg := client_read_config _ _ _ _).
  assert (Hend : rc_end cfg <> None) by done.
  assert (Hlocked : forall resumed rs rs' us v ret,
    readMsgLocked response_measure resumed cfg rs v = Some (rs', us, Returned ret) ->
    rr_err ret = None -> exists d, rr_data ret = Some d).
  { intros resumed rs0 rs1 us0 v ret0 Hr Herr. unfold readMsgLocked in Hr.
    destruct (if resumed then None else rs_readErr rs0); [by simplify_eq|].
    destruct (read_loop _ _ _ _ _ _) as [[[r us1] [ret1|v1]]|] eqn:Hl; simplify_eq.
    destruct (read_loop_error _ _ _ _ _ _ _ _ _ Hend Hl Herr) as [d ->]. by exists d. }
  assert (Hsecond : forall resumed rs rs' us v first ret,
    second_read response_measure resumed cfg rs v first = Some (rs', us, MsgReturned ret) ->
    rr_data first <> None -> rr_err ret = None -> exists d, rr_data ret = Some d).
  { intros resumed rs0 rs1 us0 v first ret0 Hr Hf Herr. unfold second_read in Hr.
    destruct (rr_data first) as [d|] eqn:Hfd; [|done]. step_in Hr. by exists d. }
  destruct ph as [resumed v|resumed v first]; simpl.
  - intros Hr _ Herr. destruct (readMsgLocked _ _ _ _ _) as [[[rs1 us1] [ret1|v1]]|] eqn:Hl; try done.
    destruct (bool_decide (rr_err ret1 = None) && negb isServerStream) eqn:Hb; simplify_eq; eauto.
    apply andb_true_iff in Hb as [Hb _]. apply bool_decide_eq_true in Hb.
    destruct (Hlocked _ _ _ _ _ _ Hl Hb) as [d Hd].
    destruct (second_read _ _ _ _ _ _) as [[[? ?] ?]|] eqn:Hs; simplify_eq.
    eapply (Hsecond _ _ _ _ _ ret1); [exact Hs|by rewrite Hd|done].
  - intros Hr Hf Herr. eauto.
Qed.

(** C35: For a method with client streaming, a server read can return no message and no
    error.  A read that is waiting when the deadline of the RPC passes is woken by
    [receiver.cancel]; if nothing has set [halfClosed] by then, it returns a nil error with
    no data, so that the handler is given an empty message that the client never sent.
    Otherwise the read ends with an error: when [halfClosed] is set, with the one in it;
    and for a method without client streaming, whose second read looks at the context
    again, with that of the context. *)
Theorem server_read_spurious_message method e r :
  r_items r = [] -> r_closed r = false -> r_cancelled r = false ->
  readMsg request_measure (server_read_config true method None None)
    (ReadState r None) read_start
    = Some (ReadState r None, [], MsgBlocked waiting_read) /\
  readMsg request_measure (server_read_config true method (Some e) None)
    (ReadState (cancel r) None) waiting_read
    = Some (ReadState (cancel r) None, [], MsgReturned (ReadReturn None true None)) /\
  (forall isClientStream h,
     readMsg request_measure (server_read_config isClientStream method (Some e) (Some h))
       (ReadState (cancel r) None) waiting_read
       = Some (ReadState (cancel r) (Some h), [], MsgReturned (ReadReturn None true (Some h)))) /\
  (is_EOF e = false ->
     readMsg request_measure (server_read_config false method (Some e) None)
       (ReadState (cancel r) None) waiting_read
       = Some (ReadState (cancel r) (Some e), [], MsgReturned (ReadReturn None true (Some e)))).
Proof.
  intros Hi Hcl Hc.
  unfold readMsg, read_start, waiting_read, readMsgLocked, read_fuel. cbn [rs_recv rs_readErr].
  split_and!.
  - rewrite Hi. cbn [length read_loop rc_ctx server_read_config]. unfold dequeue.
    by rewrite Hc, Hi, Hcl.
  - done.
  - intros isClientStream h. by destruct isClientStream.
  - intros He. by destruct e.
Qed.

(** ** Examples *)
Module ReadExample.
Definition A (n : nat) : bytes := repeat Corelib.Init.Byte.x41 n.

(** Seven bytes in two chunks, then an empty message. *)
Definition chunks7 : list chunk := [Chunk (A 5) 7 true; Chunk (A 2) 7 false].
Definition chunks0 : list chunk := [Chunk [] 0 true].

Lemma framed7 : framed 5 (A 7) chunks7.
Proof.
  exists (Chunk (A 5) 7 true), (A 2), [Chunk (A 2) 7 false].
  split_and!; try done. exists []. by split_and!.
Qed.

Lemma framed0 : framed 5 [] chunks0.
Proof. exists (Chunk [] 0 true), [], []. by split_and!. Qed.

Definition recv (cks : list chunk) (closed : bool) : receiver ClientToServerFrame :=
  Receiver 10 5 closed false (chunk_frame <$> cks) 100 0.
Definition cfg (stream : bool) : read_config ClientToServerFrame :=
  server_read_config stream "/svc/Method" None (Some EOF).
End ReadExample.

Lemma read_messages_roundtrip_witness :
  exists r', read_messages request_measure 2 (ReadExample.cfg true)
      (ReadState (ReadExample.recv (ReadExample.chunks7 ++ ReadExample.chunks0) false) None)
    = Some (ReadState r' None, [Some (ReadExample.A 7); Some []]) /\ r_items r' = [].
Proof.
  apply (read_messages_roundtrip request_measure 5 (ReadExample.cfg true) [ReadExample.A 7; []]
    [ReadExample.chunks7; ReadExample.chunks0] []); try reflexivity.
  repeat constructor; [apply ReadExample.framed7|apply ReadExample.framed0].
Defined.

Lemma read_returns_one_message_witness :
  exists taken, (chunk_frame <$> ReadExample.chunks7) = taken ++ [] /\
    message_views (data_view_of (T := ClientToServerFrame) <$> taken) (ReadExample.A 7).
Proof.
  apply (read_returns_one_message request_measure 4 false (ReadExample.cfg true)
    (ReadExample.recv ReadExample.chunks7 false) (Receiver 10 5 false false [] 110 2) [10]
    (ReadExample.A 7)).
  vm_compute. reflexivity.
Defined.

Lemma single_message_read_witness :
  exists rs us, readMsg request_measure (ReadExample.cfg false)
      (ReadState (ReadExample.recv ReadExample.chunks7 true) None) read_start
    = Some (rs, us, MsgReturned (ReadReturn (Some (ReadExample.A 7)) true None)) /\
    rs_readErr rs = Some EOF /\ r_items (rs_recv rs) = [].
Proof.
  apply (single_message_read request_measure 5 (ReadExample.cfg false) (ReadExample.A 7)
    ReadExample.chunks7); try reflexivity. apply ReadExample.framed7.
Defined.

Lemma client_read_never_empty_witness :
  exists d, rr_data (ReadReturn (Some (ReadExample.A 1)) true None) = Some d.
Proof.
  apply (client_read_never_empty true false "/svc/Method" EOF
    (ReadState (Receiver 10 5 false false [response_frame (ReadExample.A 1) 1 true] 100 0) None)
    (ReadState (Receiver 10 5 false false [] 100 6) None) []
    read_start); [vm_compute; reflexivity|exact I|reflexivity].
Defined.

Lemma server_read_spurious_message_witness :
  rr_err (ReadReturn None true None) = None /\
  readMsg request_measure (server_read_config true "/svc/Method" (Some ContextDeadlineExceeded) None)
    (ReadState (cancel (newReceiver 100 10 5)) None) waiting_read
    = Some (ReadState (cancel (newReceiver 100 10 5)) None, [], MsgReturned (ReadReturn None true None)).
Proof.
  split; [reflexivity|].
  apply (server_read_spurious_message "/svc/Method" ContextDeadlineExceeded (newReceiver 100 10 5));
    reflexivity.
Defined.
