(* ===== verification/FlowLink.v ===== *)
(** * Flow control end to end

    One direction of a stream: the sender of one peer, the receiver of the
    other, and between them the tunnel, which delivers data frames in order in
    one direction and window updates in the other.  The reader takes items
    whenever there are some.  Every atomic action of the parts is an action of
    the link, in any order. *)
From S2P Require Import Prelude Status Protocol FlowSender FlowReceiver Reassembly.

Section Link.
Context {T : Type} `{DataFrame T}.

Definition frame_measure (f : T) : Z * bool := measure_view (data_view_of f).

Record link := Link {
  l_todo : list bytes;             (** the messages to send after this one *)
  l_current : option bytes;        (** the message being sent *)
  l_done : list bytes;             (** the messages that [send] returned nil for *)
  l_send : send_conf;
  l_trace : list send_label;       (** what happened to the sender *)
  l_frames : list T;               (** data frames on the tunnel *)
  l_recv : receiver T;
  l_read : list T;                 (** the frames the reader has taken *)
  l_acks : list Z;                 (** window updates on the tunnel *)
  l_failed : bool;                 (** the receiver rejected a frame *)
}.

Inductive link_label :=
  | KBegin                         (** the next message is sent *)
  | KSend (l : send_label)         (** an action of the sender *)
  | KDeliver                       (** the receive loop accepts a frame *)
  | KRead                          (** the reader dequeues a frame *)
  | KAck.                          (** the receive loop handles an update *)

(** What the sender gave to [sendFunc] between two states. *)
Definition new_chunks (c c' : send_conf) : list chunk := drop (length (c_out c)) (c_out c').

Definition after_send (l : send_label) (c' : send_conf) (todo : list bytes)
    (current : option bytes) (dn : list bytes) (acks : list Z) (s : link) : link := {|
  l_todo := todo; l_current := current; l_done := dn;
  l_send := c'; l_trace := l_trace s ++ [l];
  l_frames := l_frames s ++ (chunk_frame <$> new_chunks (l_send s) c');
  l_recv := l_recv s; l_read := l_read s; l_acks := acks; l_failed := l_failed s |}.

(** The actions of the sender while nothing cancels the stream and
    [sendFunc] succeeds. *)
Definition link_send_label (l : send_label) : bool :=
  match l with
  | LLoad | LWake | LCas | LCall None | LReturn | UPost => true
  | _ => false
  end.

Definition link_step (l : link_label) (s : link) : option link :=
  if l_failed s then None else
  match l with
  | KBegin =>
      match l_todo s with
      | d :: ds =>
          match send_step (LBegin d) (l_send s) with
          | Some c' => Some (after_send (LBegin d) c' ds (Some d) (l_done s) (l_acks s) s)
          | None => None
          end
      | [] => None
      end
  | KSend sl =>
      if link_send_label sl then
        match send_step sl (l_send s) with
        | Some c' =>
            let finished := match sl, l_current s with LReturn, Some d => [d] | _, _ => [] end in
            let current := match sl with LReturn => None | _ => l_current s end in
            Some (after_send sl c' (l_todo s) current (l_done s ++ finished) (l_acks s) s)
        | None => None
        end
      else None
  | KDeliver =>
      match l_frames s with
      | f :: fs =>
          let (r', err) := accept frame_measure f (l_recv s) in
          Some {| l_todo := l_todo s; l_current := l_current s; l_done := l_done s;
                  l_send := l_send s; l_trace := l_trace s; l_frames := fs;
                  l_recv := r'; l_read := l_read s; l_acks := l_acks s;
                  l_failed := match err with Some _ => true | None => false end |}
      | [] => None
      end
  | KRead =>
      match dequeue frame_measure (l_recv s) with
      | (r', Dequeued f u) =>
          Some {| l_todo := l_todo s; l_current := l_current s; l_done := l_done s;
                  l_send := l_send s; l_trace := l_trace s; l_frames := l_frames s;
                  l_recv := r'; l_read := l_read s ++ [f];
                  l_acks := l_acks s ++ send_update u; l_failed := l_failed s |}
      | _ => None
      end
  | KAck =>
      match l_acks s with
      | u :: us =>
          match send_step (UAdd u) (l_send s) with
          | Some c' =>
              Some (after_send (UAdd u) c' (l_todo s) (l_current s) (l_done s) us s)
          | None => None
          end
      | [] => None
      end
  end.

Definition link_start (W maxChunk minUpdate ov : Z) (messages : list bytes) : link := {|
  l_todo := messages; l_current := None; l_done := [];
  l_send := sender_start W maxChunk ov; l_trace := []; l_frames := [];
  l_recv := newReceiver W minUpdate ov; l_read := []; l_acks := []; l_failed := false |}.

(** ** Invariants *)
Context (W maxChunk minUpdate ov : Z).
Context (HW : is_u32 W) (Hov : 0 <= ov) (Hroom : ov + 1 <= W).
Context (Hmc : 1 <= maxChunk) (Hmu : 1 <= minUpdate).

Abbreviation maxc := (max_chunk W maxChunk).

(** What a frame is charged, by either side. *)
Definition frame_charge (f : T) : Z :=
  let (sz, first) := frame_measure f in if (first : bool) then u64 (sz + ov) else sz.

Definition charges (fs : list T) : Z := zsum (frame_charge <$> fs).

Record link_inv (messages : list bytes) (s : link) : Prop := {
  li_send : sender_inv W maxc ov (l_trace s) (l_send s);
  li_ctx : c_ctx (l_send s) = None;
  li_recv : recv_inv frame_measure W (l_recv s);
  li_overhead : r_msgOverhead (l_recv s) = ov;
  li_min : 1 <= r_minUpdateSize (l_recv s) <= W;
  li_open : r_closed (l_recv s) = false /\ r_cancelled (l_recv s) = false;
  li_flow : l_read s ++ r_items (l_recv s) ++ l_frames s = chunk_frame <$> c_out (l_send s);
  li_small : Forall (fun ck => len (ck_data ck) <= MaxUint32) (c_out (l_send s));
  li_credit : r_currentWindow (l_recv s) + charges (l_read s ++ r_items (l_recv s))
              = W + credits (l_trace s) + zsum (l_acks s);
  li_acks : Forall (fun u => 0 < u <= MaxUint32) (l_acks s);
  li_ok : l_failed s = false;
  li_messages : messages = l_done s ++ option_list (l_current s) ++ l_todo s;
  li_framed : exists ckss, Forall2 (framed maxc) (l_done s) ckss /\
    match l_current s with
    | None => c_call (l_send s) = None /\ c_out (l_send s) = concat ckss
    | Some d => call_progress W maxChunk d (concat ckss) (l_send s) /\
        forall k e, c_call (l_send s) = Some k -> k_pc k <> PRet (Some e)
    end;
}.

Lemma link_ov : 0 <= ov < MaxUint32.
Proof. unfold is_u32 in HW. lia. Qed.
Lemma link_max : 1 <= maxc.
Proof. unfold max_chunk. case_match; lia. Qed.

Lemma frame_measure_nonneg (f : T) : 0 <= fst (frame_measure f).
Proof. unfold frame_measure. destruct (data_view_of f); simpl; try apply len_nonneg. done. Qed.

Lemma frame_charge_nonneg f : 0 <= frame_charge f.
Proof.
  unfold frame_charge. pose proof (frame_measure_nonneg f).
  destruct (frame_measure f) as [sz []]; simpl in *; [|done].
  unfold u64. apply Z.mod_pos_bound. lia.
Qed.

Lemma charges_nonneg fs : 0 <= charges fs.
Proof. apply zsum_nonneg, Forall_fmap, Forall_forall. intros. apply frame_charge_nonneg. Qed.

Lemma charges_app a b : charges (a ++ b) = charges a + charges b.
Proof. unfold charges. by rewrite fmap_app, zsum_app. Qed.

Lemma charge_frame (r : receiver T) f :
  r_msgOverhead r = ov -> charge frame_measure r f = frame_charge f.
Proof. intros Ho. unfold charge, frame_charge. by rewrite Ho. Qed.

(** Both sides charge a chunk the same. *)
Lemma chunk_frame_charge ck :
  len (ck_data ck) <= MaxUint32 -> frame_charge (chunk_frame ck) = chunk_charge ov ck.
Proof.
  intros Hl. unfold frame_charge, frame_measure, chunk_frame, chunk_charge.
  pose proof (len_nonneg (ck_data ck)). pose proof link_ov. unfold MaxUint32 in *.
  destruct (ck_first ck); [rewrite data_view_first|rewrite data_view_more]; simpl; [|lia].
  apply u64_small. lia.
Qed.

Lemma chunks_charges cks :
  Forall (fun ck => len (ck_data ck) <= MaxUint32) cks ->
  charges (chunk_frame <$> cks) = charged ov cks.
Proof.
  induction 1 as [|ck cks Hck Hcks IH]; [done|]. unfold charges, charged in *.
  rewrite !fmap_cons, !zsum_cons, IH. by rewrite chunk_frame_charge.
Qed.

(** The receiver's window covers everything on its way to it. *)
Lemma link_window messages s :
  link_inv messages s ->
  r_currentWindow (l_recv s) = s_currentWindow (c_sender (l_send s)) + reserved (l_send s)
    + charges (l_frames s) + zsum (l_acks s).
Proof.
  intros Hinv. pose proof (chunks_charges _ (li_small _ _ Hinv)) as Hch.
  rewrite <- (li_flow _ _ Hinv), app_assoc, charges_app in Hch.
  pose proof (li_credit _ _ Hinv).
  destruct (inv_account _ _ _ _ _ (li_send _ _ Hinv)) as (wr & Hwr & Hacc).
  pose proof (inv_window _ _ _ _ _ (li_send _ _ Hinv)) as Hw.
  destruct (li_recv _ _ Hinv) as [_ Hrw Hru Htot _ _ _].
  pose proof (queued_nonneg frame_measure frame_measure_nonneg (l_recv s)).
  pose proof (charges_nonneg (l_frames s)).
  assert (0 <= zsum (l_acks s)).
  { apply zsum_nonneg. eapply Forall_impl; [apply (li_acks _ _ Hinv)|]. simpl. lia. }
  pose proof (reserved_nonneg W maxChunk ov link_ov _ _ (li_send _ _ Hinv)).
  unfold is_u32, MaxUint32 in *. lia.
Qed.
Lemma new_chunks_out l c c' :
  send_step l c = Some c' -> c_out c' = c_out c ++ new_chunks c c'.
Proof.
  apply send_step_drop.
Qed.

Lemma new_chunks_small ls l c c' :
  sender_inv W maxc ov ls c -> send_step l c = Some c' ->
  Forall (fun ck => len (ck_data ck) <= MaxUint32) (new_chunks c c').
Proof.
  intros Hinv Hstep. unfold new_chunks.
  destruct (send_step_out _ _ _ Hstep) as [[-> _]|(k & ch & err & _ & Hk & Hpc & ->)].
  - by rewrite drop_all.
  - rewrite drop_app_length. apply Forall_singleton. simpl.
    destruct (inv_call _ _ _ _ _ Hinv k Hk) as [Hwf Hwf2]. rewrite Hpc in Hwf, Hwf2.
    rewrite len_slice_to by lia. lia.
Qed.

(** An action of the sender, with what the link does around it. *)
Lemma after_send_inv messages s l c' todo current dn acks :
  link_inv messages s -> send_step l (l_send s) = Some c' -> c_ctx c' = None ->
  label_credit l + zsum acks = zsum (l_acks s) ->
  Forall (fun u => 0 < u <= MaxUint32) acks ->
  messages = dn ++ option_list current ++ todo ->
  (exists ckss, Forall2 (framed maxc) dn ckss /\
    match current with
    | None => c_call c' = None /\ c_out c' = concat ckss
    | Some d => call_progress W maxChunk d (concat ckss) c' /\
        forall k e, c_call c' = Some k -> k_pc k <> PRet (Some e)
    end) ->
  link_inv messages (after_send l c' todo current dn acks s).
Proof.
  intros [Hs Hx Hr Ho Hm Hop Hf Hsm Hc Ha Hok Hms Hfr] Hstep Hx' Hcr Ha' Hms' Hfr'.
  split; simpl; auto.
  - eapply sender_inv_step; eauto using link_ov, link_max.
  - rewrite (new_chunks_out _ _ _ Hstep), fmap_app, <- Hf. by rewrite <- !app_assoc.
  - rewrite (new_chunks_out _ _ _ Hstep). apply Forall_app. split; [done|].
    by eapply new_chunks_small.
  - rewrite credits_app. unfold credits at 2. simpl. lia.
Qed.

(** The call moves along without returning an error. *)
Lemma call_no_error messages s l c' k :
  link_inv messages s -> link_send_label l = true -> send_step l (l_send s) = Some c' ->
  c_call (l_send s) = Some k -> (forall e, k_pc k <> PRet (Some e)) ->
  c_ctx c' = None /\ forall k' e, c_call c' = Some k' -> k_pc k' <> PRet (Some e).
Proof.
  intros Hinv Hl Hstep Hk Hne. pose proof (li_ctx _ _ Hinv) as Hx.
  destruct l as [| | | | |[]| | | |]; try done; simpl in Hstep; rewrite ?Hk in Hstep;
    unfold call_step in Hstep; try (destruct (k_pc k) eqn:Hpc; try done);
    try (destruct (send_after_pc k chunkSz None) as [Hp|[_ Hp]]);
    step_in Hstep; (split; [done|]); intros; simplify_eq/=; try congruence;
    rewrite ?Hp; simpl; congruence.
Qed.

Lemma link_begin_inv messages s s' :
  Forall (fun d => len d <= MaxUint32) messages ->
  link_inv messages s -> link_step KBegin s = Some s' -> link_inv messages s'.
Proof.
  intros Hsmall Hinv Hstep. pose proof Hinv as [Hs Hx _ _ _ _ _ _ _ Ha Hok Hms (ckss & Hd & Hfr)].
  unfold link_step in Hstep. rewrite Hok in Hstep.
  destruct (l_todo s) as [|d ds] eqn:Htodo; [done|].
  destruct (send_step (LBegin d) (l_send s)) as [c'|] eqn:Hsend; simplify_eq.
  pose proof Hsend as Hb. simpl in Hb. destruct (c_call (l_send s)) eqn:Hcall; [done|]. simplify_eq.
  destruct (l_current s) as [d0|] eqn:Hcur.
  { destruct Hfr as [(k & _ & Hk & _) _]. congruence. }
  destruct Hfr as [_ Hout].
  eapply after_send_inv; try done; try reflexivity.
  exists ckss. split; [done|]. rewrite <- Hout. split.
  { by apply send_begin_progress. }
  simpl. intros k e [= <-]. unfold send_begin.
  assert (len d <= MaxUint32).
  { rewrite Forall_forall in Hsmall. apply Hsmall. set_solver. }
  destruct (Z.gtb_spec (len d) MaxUint32); [lia|done].
Qed.
Lemma link_send_inv messages sl s s' :
  link_inv messages s -> link_step (KSend sl) s = Some s' -> link_inv messages s'.
Proof.
  intros Hinv Hstep. pose proof Hinv as [Hs Hx _ _ _ _ _ _ _ Ha Hok Hms (ckss & Hd & Hfr)].
  unfold link_step in Hstep. rewrite Hok in Hstep.
  destruct (link_send_label sl) eqn:Hl; [|done].
  destruct (send_step sl (l_send s)) as [c'|] eqn:Hsend; [|done].
  injection Hstep as <-.
  assert (Hcr : label_credit sl = 0) by (by destruct sl).
  destruct (l_current s) as [d|] eqn:Hcur; simpl in Hms.
  - destruct Hfr as [Hp Hne]. pose proof Hp as (k & cks & Hk & Hout & Hst).
    destruct (call_no_error messages s sl c' k) as [Hx' Hne']; [done..|by intros; eapply Hne|].
    assert (sl = LReturn \/ sl <> LReturn) as [->|Hnr] by (destruct sl; auto; by right).
    + (* the call returns *)
      eapply after_send_inv; try done; simpl; [by rewrite <- app_assoc|].
      simpl in Hsend. rewrite Hk in Hsend. unfold call_step in Hsend.
      destruct (k_pc k) as [| | | |[e|]] eqn:Hpc; simplify_eq; [by edestruct Hne|].
      exists (ckss ++ [cks]). split; [by apply Forall2_app; [|constructor]|].
      split; [done|]. simpl. by rewrite Hout, concat_app; simpl; rewrite app_nil_r.
    + eapply after_send_inv; try done.
      * by rewrite Hcr.
      * by destruct sl; simpl; rewrite ?app_nil_r.
      * assert (match sl, Some d with LReturn, Some d => [d] | _, _ => [] end = [] /\
                match sl with LReturn => None | _ => Some d end = Some d) as [-> ->]
          by (by destruct sl).
        rewrite app_nil_r. exists ckss. split; [done|]. split; [|done].
        eapply call_progress_step; eauto using link_ov, link_max.
  - (* no message is being sent *)
    destruct Hfr as [Hc Hout].
    assert (sl = UPost) as ->.
    { destruct sl as [| | | | |[]| | | |]; try done; simpl in Hsend; by rewrite Hc in Hsend. }
    pose proof Hsend as Hpost. simpl in Hpost. destruct (c_posts (l_send s)); simplify_eq.
    eapply after_send_inv; [exact Hinv|exact Hsend|done..|by rewrite app_nil_r|].
    simpl. rewrite app_nil_r. by exists ckss.
Qed.

Lemma link_deliver_inv messages s s' :
  link_inv messages s -> link_step KDeliver s = Some s' -> link_inv messages s'.
Proof.
  intros Hinv Hstep. pose proof (link_window _ _ Hinv) as Hwin.
  pose proof Hinv as [Hs Hx Hr Ho Hm [Hcl Hcn] Hf Hsm Hc Ha Hok Hms Hfr].
  unfold link_step in Hstep. rewrite Hok in Hstep.
  destruct (l_frames s) as [|f fs] eqn:Hfs; [done|].
  pose proof (inv_window _ _ _ _ _ Hs) as Hw. unfold is_u32 in Hw.
  pose proof (reserved_nonneg W maxChunk ov link_ov _ _ Hs).
  pose proof (charges_nonneg fs).
  assert (0 <= zsum (l_acks s)).
  { apply zsum_nonneg. eapply Forall_impl; [exact Ha|]. simpl. lia. }
  assert (Hfit : frame_charge f <= r_currentWindow (l_recv s)).
  { unfold charges in *. rewrite fmap_cons, zsum_cons in Hwin. lia. }
  assert (Hu : is_u32 (r_currentWindow (l_recv s))).
  { destruct Hr as [_ ? ? Htot _ _ _].
    pose proof (queued_nonneg frame_measure frame_measure_nonneg (l_recv s)).
    unfold is_u32 in *. lia. }
  pose proof (accept_inv frame_measure frame_measure_nonneg W f (l_recv s)
                (proj2 HW) Hr) as Hr'.
  destruct (accept_cases frame_measure frame_measure_nonneg f (l_recv s) Hu)
    as [(Hc' & _)|[(_ & Hlt & _)|(_ & _ & Hacc)]];
    [congruence|rewrite charge_frame in Hlt by done; lia|].
  rewrite Hacc in Hstep, Hr'. injection Hstep as <-. simpl in Hr'. rewrite charge_frame in Hr' by done.
  split; simpl; auto; rewrite ?charge_frame by done.
  - done.
  - rewrite <- Hf. by rewrite <- !app_assoc.
  - rewrite app_assoc, charges_app. unfold charges at 2. simpl. lia.
Qed.

Lemma link_read_inv messages s s' :
  link_inv messages s -> link_step KRead s = Some s' -> link_inv messages s'.
Proof.
  intros Hinv Hstep. pose proof Hinv as [Hs Hx Hr Ho Hm [Hcl Hcn] Hf Hsm Hc Ha Hok Hms Hfr].
  unfold link_step in Hstep. rewrite Hok in Hstep.
  pose proof (dequeue_inv frame_measure frame_measure_nonneg W (l_recv s) (proj2 HW) Hr) as Hr'.
  destruct (dequeue_cases frame_measure frame_measure_nonneg W (l_recv s) (proj2 HW) Hr)
    as [(Hcn' & Hdq)|[(_ & Hi & Hdq)|(f & rest & u & _ & Hi & Hu & Hu0 & Hdq)]];
    rewrite Hdq in Hstep, Hr'; [done|by destruct (r_closed (l_recv s))|].
  injection Hstep as <-. simpl in Hr'. rewrite charge_frame in Hu, Hr' by done.
  rewrite Hi in Hf, Hc.
  pose proof (queued_nonneg frame_measure frame_measure_nonneg (with_items rest (l_recv s))) as Hqn.
  assert (Hq : queued frame_measure (l_recv s)
               = frame_charge f + queued frame_measure (with_items rest (l_recv s))).
  { unfold queued. rewrite Hi, fmap_cons, zsum_cons. by rewrite charge_frame. }
  assert (Hub : u <= MaxUint32).
  { destruct Hr as [_ ? ? Htot _ _ _]. unfold is_u32 in HW. lia. }
  split; simpl; auto; rewrite ?charge_frame by done.
  - done.
  - by rewrite <- app_assoc.
  - rewrite <- app_assoc, zsum_app. unfold send_update.
    destruct (Z.gtb_spec u 0); simpl; lia.
  - apply Forall_app. split; [done|]. unfold send_update.
    destruct (Z.gtb_spec u 0); [|done]. apply Forall_singleton. lia.
Qed.

Lemma link_ack_inv messages s s' :
  link_inv messages s -> link_step KAck s = Some s' -> link_inv messages s'.
Proof.
  intros Hinv Hstep. pose proof Hinv as [Hs Hx _ _ _ _ _ _ _ Ha Hok Hms (ckss & Hd & Hfr)].
  unfold link_step in Hstep. rewrite Hok in Hstep.
  destruct (l_acks s) as [|u us] eqn:Hacks; [done|]. apply Forall_cons in Ha as [Hu Hus].
  destruct (send_step (UAdd u) (l_send s)) as [c'|] eqn:Hsend; [|done].
  injection Hstep as <-.
  assert (Hx' : c_ctx c' = None /\ c_call c' = c_call (l_send s) /\ c_out c' = c_out (l_send s)).
  { simpl in Hsend. step_in Hsend. done. }
  destruct Hx' as (Hx' & Hcall & Hout).
  eapply after_send_inv; [exact Hinv|exact Hsend|done|by rewrite Hacks|done|done|].
  exists ckss. split; [done|]. rewrite Hcall, Hout. destruct (l_current s); [|done].
  destruct Hfr as [Hp Hne]. split; [|done].
  eapply call_progress_step; try eassumption; try done; auto using link_ov; lia.
Qed.

Lemma link_step_inv messages l s s' :
  Forall (fun d => len d <= MaxUint32) messages ->
  link_inv messages s -> link_step l s = Some s' -> link_inv messages s'.
Proof.
  intros Hsmall Hinv. destruct l;
    eauto using link_begin_inv, link_send_inv, link_deliver_inv, link_read_inv, link_ack_inv.
Qed.

Lemma link_start_inv messages : link_inv messages (link_start W maxChunk minUpdate ov messages).
Proof.
  split; simpl; try done.
  - apply sender_run_inv; try done; [lia|apply link_ov].
  - by apply new_recv_inv.
  - case_match; lia.
  - unfold charges. simpl. unfold credits. simpl. lia.
  - by exists [].
Qed.

Lemma link_run_inv messages ls s :
  Forall (fun d => len d <= MaxUint32) messages ->
  run link_step ls (link_start W maxChunk minUpdate ov messages) = Some s -> link_inv messages s.
Proof.
  intros Hsmall. apply run_invariant; [apply link_start_inv|].
  intros l s0 s1 Hinv Hstep. by eapply link_step_inv.
Qed.

(** ** Progress *)

(** With nothing on its way and nothing queued, the sender's window has room
    for the next chunk: the receiver has acknowledged enough. *)
Lemma link_room messages s :
  link_inv messages s -> l_frames s = [] -> l_acks s = [] -> r_items (l_recv s) = [] ->
  reserved (l_send s) = 0 -> ov + 1 <= s_currentWindow (c_sender (l_send s)) \/
    (ov = 0 /\ 1 <= s_currentWindow (c_sender (l_send s))).
Proof.
  intros Hinv Hf Ha Hi Hres. pose proof (link_window _ _ Hinv) as Hw.
  rewrite Hf, Ha, Hres in Hw. unfold charges in Hw. simpl in Hw.
  destruct (li_recv _ _ Hinv) as [_ _ Hu _ He Hmin Hq].
  destruct (li_open _ _ Hinv) as [_ Hcn]. specialize (He Hcn).
  unfold queued in He. rewrite Hi in He. simpl in He.
  pose proof (li_overhead _ _ Hinv) as Ho. pose proof (li_min _ _ Hinv).
  specialize (Hq Hi Hcn). lia.
Qed.

Lemma stuck_sender messages s :
  link_inv messages s -> (forall l, link_step l s = None) ->
  forall l, link_send_label l = true -> send_step l (l_send s) = None.
Proof.
  intros Hinv Hst l Hl. specialize (Hst (KSend l)). unfold link_step in Hst.
  rewrite (li_ok _ _ Hinv), Hl in Hst. by destruct (send_step l (l_send s)).
Qed.

Lemma stuck_tunnel messages s :
  link_inv messages s -> (forall l, link_step l s = None) ->
  l_frames s = [] /\ l_acks s = [] /\ r_items (l_recv s) = [].
Proof.
  intros Hinv Hst. pose proof (li_ok _ _ Hinv) as Hok. split_and!.
  - specialize (Hst KDeliver). unfold link_step in Hst. rewrite Hok in Hst.
    destruct (l_frames s); [done|]. by destruct (accept _ _ _).
  - specialize (Hst KAck). unfold link_step in Hst. rewrite Hok in Hst.
    pose proof (li_acks _ _ Hinv) as Ha. destruct (l_acks s) as [|u us]; [done|].
    apply Forall_cons in Ha as [Hu _]. simpl in Hst.
    destruct (Z.ltb_spec 0 u), (Z.leb_spec u MaxUint32); try lia. done.
  - specialize (Hst KRead). unfold link_step in Hst. rewrite Hok in Hst.
    destruct (li_open _ _ Hinv) as [_ Hcn].
    destruct (dequeue_cases frame_measure frame_measure_nonneg W (l_recv s) (proj2 HW)
      (li_recv _ _ Hinv)) as [(Hc & _)|[(_ & Hi & _)|(f & rest & u & _ & _ & _ & _ & Hdq)]];
      [congruence|done|by rewrite Hdq in Hst].
Qed.

Lemma stuck_idle messages s :
  link_inv messages s -> (forall l, link_step l s = None) -> l_current s = None.
Proof.
  intros Hinv Hst. destruct (l_current s) as [d|] eqn:Hcur; [exfalso|done].
  destruct (stuck_tunnel _ _ Hinv Hst) as (Hf & Ha & Hi).
  pose proof (stuck_sender _ _ Hinv Hst) as Hno.
  destruct (li_framed _ _ Hinv) as (ckss & _ & Hfr). rewrite Hcur in Hfr.
  destruct Hfr as [(k & _ & Hk & _) _].
  pose proof (Hno LLoad eq_refl) as H1. pose proof (Hno LCas eq_refl) as H2.
  pose proof (Hno (LCall None) eq_refl) as H3. pose proof (Hno LReturn eq_refl) as H4.
  pose proof (Hno LWake eq_refl) as H5. pose proof (Hno UPost eq_refl) as H6.
  simpl in *. rewrite Hk in *. unfold call_step in *.
  destruct (k_pc k) eqn:Hpc; try done; [by destruct (_ <? _)| |by destruct (_ =? _)].
  pose proof (inv_wakeup _ _ _ _ _ (li_send _ _ Hinv) k Hk Hpc) as Hwk.
  destruct (s_windowUpdates _); [done|]. destruct (c_posts _); [|done].
  pose proof (needed_bounds ov link_ov k).
  destruct (link_room messages s) as [?|?]; try done; [|lia..].
  unfold reserved. by rewrite Hk, Hpc.
Qed.

Definition delivered (messages : list bytes) (s : link) : Prop :=
  l_done s = messages /\
  exists ckss, Forall2 (framed maxc) messages ckss /\ l_read s = chunk_frame <$> concat ckss.

Lemma stuck_delivered messages s :
  link_inv messages s -> (forall l, link_step l s = None) -> delivered messages s.
Proof.
  intros Hinv Hst. destruct (stuck_tunnel _ _ Hinv Hst) as (Hf & Ha & Hi).
  pose proof (stuck_idle _ _ Hinv Hst) as Hcur.
  destruct (li_framed _ _ Hinv) as (ckss & Hd & Hfr). rewrite Hcur in Hfr.
  destruct Hfr as [Hcall Hout].
  pose proof (li_messages _ _ Hinv) as Hms. rewrite Hcur in Hms.
  pose proof (Hst KBegin) as Hb. unfold link_step in Hb. rewrite (li_ok _ _ Hinv) in Hb.
  destruct (l_todo s); [|simpl in Hb; by rewrite Hcall in Hb].
  simpl in Hms. rewrite app_nil_r in Hms. subst messages.
  split; [done|]. exists ckss. split; [done|].
  pose proof (li_flow _ _ Hinv) as Hflow. rewrite Hf, Hi, Hout in Hflow.
  by rewrite !app_nil_r in Hflow.
Qed.

(** ** Termination *)
Definition todo_cost (ds : list bytes) : Z := zsum ((fun d => 30 * len d + 27) <$> ds).

Definition link_cost (s : link) : Z :=
  todo_cost (l_todo s) + send_cost (l_send s) + 12 * len (l_frames s)
  + 10 * len (r_items (l_recv s)) + 9 * len (l_acks s).

Lemma todo_cost_nonneg ds : 0 <= todo_cost ds.
Proof.
  apply zsum_nonneg, Forall_fmap, Forall_forall. intros d _. simpl.
  pose proof (len_nonneg d). unfold compose. lia.
Qed.

Lemma link_cost_nonneg messages s : link_inv messages s -> 0 <= link_cost s.
Proof.
  intros Hinv. unfold link_cost. pose proof (todo_cost_nonneg (l_todo s)).
  pose proof (send_cost_nonneg _ _ _ _ _ (li_send _ _ Hinv)).
  pose proof (len_nonneg (l_frames s)). pose proof (len_nonneg (r_items (l_recv s))).
  pose proof (len_nonneg (l_acks s)). lia.
Qed.

Lemma new_chunks_len l c c' :
  send_step l c = Some c' -> len (new_chunks c c') = label_emits l.
Proof.
  intros Hstep. unfold new_chunks.
  destruct (send_step_out _ _ _ Hstep) as [[-> ->]|(k & ch & err & -> & _ & _ & ->)].
  - by rewrite drop_all.
  - by rewrite drop_app_length.
Qed.

Lemma len_fmap {A B} (f : A -> B) l : len (f <$> l) = len l.
Proof. unfold len. by rewrite length_fmap. Qed.

(** An action of the sender lowers the cost by what it was given. *)
Lemma after_send_cost messages s l c' todo current dn acks :
  link_inv messages s -> send_step l (l_send s) = Some c' ->
  todo_cost todo + label_gain l + 9 * len acks <= todo_cost (l_todo s) + 9 * len (l_acks s) ->
  link_cost (after_send l c' todo current dn acks s) < link_cost s.
Proof.
  intros Hinv Hstep Hle. unfold link_cost. simpl. rewrite len_app, len_fmap.
  rewrite (new_chunks_len _ _ _ Hstep).
  pose proof (send_step_cost _ _ _ _ _ _ _ link_max link_ov (li_send _ _ Hinv) Hstep). lia.
Qed.

Lemma accept_len (item : T) r r' err :
  accept frame_measure item r = (r', err) -> len (r_items r') <= len (r_items r) + 1.
Proof.
  unfold accept. intros. step_cases; rewrite ?len_app, ?len_cons, ?len_nil; lia.
Qed.

Lemma link_step_cost messages l s s' :
  link_inv messages s -> link_step l s = Some s' -> link_cost s' < link_cost s.
Proof.
  intros Hinv Hstep. unfold link_step in Hstep. rewrite (li_ok _ _ Hinv) in Hstep.
  destruct l as [|sl| | |].
  - destruct (l_todo s) as [|d ds] eqn:Ht; [done|].
    destruct (send_step (LBegin d) (l_send s)) eqn:Hs; simplify_eq.
    eapply after_send_cost; [done..|]. rewrite Ht. unfold todo_cost.
    rewrite fmap_cons, zsum_cons. simpl. lia.
  - destruct (link_send_label sl) eqn:Hl; [|done].
    destruct (send_step sl (l_send s)) eqn:Hs; simplify_eq.
    eapply after_send_cost; [done..|]. assert (label_gain sl = 0) by (by destruct sl). lia.
  - destruct (l_frames s) as [|f fs] eqn:Hf; [done|].
    destruct (accept frame_measure f (l_recv s)) as [r' err] eqn:Ha. simplify_eq.
    apply accept_len in Ha. unfold link_cost. simpl. rewrite Hf, len_cons. lia.
  - destruct (dequeue frame_measure (l_recv s)) as [r' [f u| |]] eqn:Hd; simplify_eq.
    apply dequeue_takes in Hd. unfold link_cost. simpl. rewrite Hd, len_app, len_cons.
    assert (len (send_update u) <= 1).
    { unfold send_update. destruct (u >? 0); [rewrite len_cons|]; rewrite len_nil; lia. }
    lia.
  - destruct (l_acks s) as [|u us] eqn:Ha; [done|].
    destruct (send_step (UAdd u) (l_send s)) eqn:Hs; simplify_eq.
    eapply after_send_cost; [done..|]. rewrite Ha, len_cons. simpl. lia.
Qed.

Lemma link_run_len messages ls s :
  Forall (fun d => len d <= MaxUint32) messages ->
  run link_step ls (link_start W maxChunk minUpdate ov messages) = Some s ->
  len ls <= 1 + zsum ((fun d => 30 * len d + 27) <$> messages).
Proof.
  intros Hsmall Hrun.
  pose proof (run_bounded link_step (link_inv messages) link_cost) as Hb.
  assert (link_cost (link_start W maxChunk minUpdate ov messages)
          = 1 + zsum ((fun d => 30 * len d + 27) <$> messages)) as <-.
  { unfold link_cost, todo_cost, send_cost, len. simpl. lia. }
  pose proof (link_run_inv messages ls s Hsmall Hrun) as Hinv.
  pose proof (link_start_inv messages) as Hi0.
  enough (len ls + link_cost s <= link_cost (link_start W maxChunk minUpdate ov messages)).
  { pose proof (link_cost_nonneg _ _ Hinv). lia. }
  apply Hb; [|done|by eapply link_cost_nonneg|done].
  intros l s0 s1 Hs0 Hs1. pose proof (link_step_inv _ _ _ _ Hsmall Hs0 Hs1).
  pose proof (link_step_cost _ _ _ _ Hs0 Hs1). by split; [|split; [eapply link_cost_nonneg|]].
Qed.

(** The two ends agree.  However the goroutines and the tunnel interleave,
    the receiver never rejects a frame of the sender: what the sender thinks
    it may send is covered by what the receiver thinks it granted. *)
Theorem link_never_overruns messages ls s :
  Forall (fun d => len d <= MaxUint32) messages ->
  run link_step ls (link_start W maxChunk minUpdate ov messages) = Some s ->
  l_failed s = false /\
  s_currentWindow (c_sender (l_send s)) + reserved (l_send s) + charges (l_frames s)
    + zsum (l_acks s) = r_currentWindow (l_recv s).
Proof.
  intros Hsmall Hrun. pose proof (link_run_inv messages ls s Hsmall Hrun) as Hinv.
  split; [apply Hinv|]. by rewrite (link_window _ _ Hinv).
Qed.

(** No stall.  When the parts can make no more progress, every message has
    been sent and its frames have been read, in order: the flow-control windows
    cannot starve each other, whatever the window, the size of the updates and
    the overhead of the revision. *)
Theorem link_stall_free messages ls s :
  Forall (fun d => len d <= MaxUint32) messages ->
  run link_step ls (link_start W maxChunk minUpdate ov messages) = Some s ->
  (forall l, link_step l s = None) ->
  l_done s = messages /\
  exists ckss, Forall2 (framed maxc) messages ckss /\ l_read s = chunk_frame <$> concat ckss.
Proof.
  intros Hsmall Hrun. apply stuck_delivered. by eapply link_run_inv.
Qed.

(** And it gets there.  The number of actions is bounded by the sizes of
    the messages, so no schedule goes on for ever. *)
Theorem link_terminates messages ls s :
  Forall (fun d => len d <= MaxUint32) messages ->
  run link_step ls (link_start W maxChunk minUpdate ov messages) = Some s ->
  len ls <= 1 + zsum ((fun d => 30 * len d + 27) <$> messages).
Proof. apply link_run_len. Qed.
End Link.

(** ** An example: three requests, one of them empty, through a window of seven
    bytes with the overhead of revision two. *)
Module LinkExample.
Definition messages : list bytes :=
  [repeat Corelib.Init.Byte.x41 4; []; repeat Corelib.Init.Byte.x42 3].

Abbreviation requests := (link (T := ClientToServerFrame)).

Definition start : requests := link_start 7 16384 2 5 messages.

(** A schedule: always the first action that can happen. *)
Definition schedule : list link_label :=
  [KAck; KSend UPost; KSend LWake; KSend LLoad; KSend LCas; KSend (LCall None);
   KSend LReturn; KDeliver; KRead; KBegin].

Fixpoint drive (n : nat) (s : requests) : list link_label * requests :=
  match n with
  | O => ([], s)
  | S n =>
      match List.find (fun l => match link_step l s with Some _ => true | None => false end) schedule with
      | Some l =>
          match link_step l s with
          | Some s' => let (ls, s'') := drive n s' in (l :: ls, s'')
          | None => ([], s)
          end
      | None => ([], s)
      end
  end.

Definition trace : list link_label := fst (drive 300 start).
Definition final : requests := snd (drive 300 start).

Lemma trace_runs : run link_step trace start = Some final.
Proof. vm_compute. reflexivity. Qed.

Lemma final_stuck l : link_step l final = None.
Proof.
  destruct l as [|[| | | | |err| | | |]| | |]; try (vm_compute; reflexivity).
  destruct err; vm_compute; reflexivity.
Qed.

Lemma small : Forall (fun d => len d <= MaxUint32) messages.
Proof. repeat constructor; vm_compute; congruence. Qed.
End LinkExample.

Lemma link_never_overruns_witness : l_failed LinkExample.final = false.
Proof.
  apply (link_never_overruns (T := ClientToServerFrame) 7 16384 2 5 ltac:(vm_compute; split; congruence) ltac:(lia)
    ltac:(lia) ltac:(lia) ltac:(lia) LinkExample.messages LinkExample.trace LinkExample.final
    LinkExample.small LinkExample.trace_runs).
Defined.

Lemma link_stall_free_witness : l_done LinkExample.final = LinkExample.messages.
Proof.
  apply (link_stall_free (T := ClientToServerFrame) 7 16384 2 5 ltac:(vm_compute; split; congruence) ltac:(lia)
    ltac:(lia) ltac:(lia) ltac:(lia) LinkExample.messages LinkExample.trace LinkExample.final
    LinkExample.small LinkExample.trace_runs LinkExample.final_stuck).
Defined.

Lemma link_terminates_witness : len LinkExample.trace <= 1 + 30 * 7 + 27 * 3.
Proof.
  apply (link_terminates (T := ClientToServerFrame) 7 16384 2 5 ltac:(vm_compute; split; congruence) ltac:(lia)
    ltac:(lia) ltac:(lia) ltac:(lia) LinkExample.messages LinkExample.trace LinkExample.final
    LinkExample.small LinkExample.trace_runs).
Defined.
