(* ===== verification/Pipe.v ===== *)
(** * A stream direction is a message pipe

    What flow control, chunking and reassembly promise together: one direction
    of a stream is a FIFO queue of whole messages.  The specification is
    [pipe_step]; the implementation is the link of FlowLink.v, whose frames the
    reader puts together with [read_frame] of Reassembly.v.  [link_refines_pipe] is
    the simulation.  What the loop of [readMsgLocked] makes of any frames, also of those
    that no sender of this package sends, is compared in [read_loop_assembles] with a
    description that mentions only the frames and their bytes. *)
From S2P Require Import Prelude Status Protocol FlowSender FlowReceiver Reassembly FlowLink.

(** ** The specification *)
Record pipe := Pipe {
  p_waiting : list bytes;      (** the caller has not sent them yet *)
  p_in_flight : list bytes;
  p_received : list bytes;
}.

Definition pipe_start (messages : list bytes) : pipe := Pipe messages [] [].

Inductive pipe_step : pipe -> pipe -> Prop :=
  | pipe_send d waiting flight received :
      pipe_step (Pipe (d :: waiting) flight received) (Pipe waiting (flight ++ [d]) received)
  | pipe_receive d waiting flight received :
      pipe_step (Pipe waiting (d :: flight) received) (Pipe waiting flight (received ++ [d])).

(** ** Reading frame by frame *)
Section Assembly.
Context {T : Type} `{DataFrame T} (cfg : read_config T).

(** The messages that reads in a row make of frames, and the variables of the
    read that is under way; no result when a read fails. *)
Fixpoint assemble (ms : list bytes) (v : read_vars) (fs : list T) : option (list bytes * read_vars) :=
  match fs with
  | [] => Some (ms, v)
  | f :: fs =>
      match read_frame cfg f v with
      | inl v => assemble ms v fs
      | inr (ReadReturn (Some d) true None) => assemble (ms ++ [d]) read_vars0 fs
      | inr _ => None
      end
  end.

Lemma assemble_app ms v fs gs :
  assemble ms v (fs ++ gs)
  = match assemble ms v fs with Some (ms, v) => assemble ms v gs | None => None end.
Proof.
  revert ms v. induction fs as [|f fs IH]; intros ms v; simpl; [done|].
  destruct (read_frame cfg f v) as [v'|[[d|] [] [e|]]]; auto.
Qed.

(** A frame ends a read without an error only with a message. *)
Lemma read_frame_returns f v ret :
  read_frame cfg f v = inr ret ->
  (exists d, ret = ReadReturn (Some d) true None) \/ (exists e, ret = ReadReturn None false (Some e)).
Proof. unfold read_frame, read_check. intros. step_cases; eauto. Qed.

(** The variables after [b], of a message of [size] bytes. *)
Definition settle (ms : list bytes) (size : Z) (b : bytes) : list bytes * read_vars :=
  if len b =? size then (ms ++ [b], read_vars0) else (ms, ReadVars size b).

Lemma read_check_settle size b ms fs :
  len b <= size ->
  match read_check cfg size b with
  | inl v => assemble ms v fs
  | inr (ReadReturn (Some d) true None) => assemble (ms ++ [d]) read_vars0 fs
  | inr _ => None
  end = let (ms, v) := settle ms size b in assemble ms v fs.
Proof.
  intros Hle. unfold read_check, settle. destruct (Z.gtb_spec (len b) size); [lia|].
  by destruct (len b =? size).
Qed.

Lemma framed_rest_empty max cks : framed_rest max [] cks -> cks = [].
Proof.
  destruct cks as [|ck cks]; [done|]. intros (rest & _ & Hl & Hnil & _).
  apply (f_equal len) in Hnil. rewrite len_app, len_nil in Hnil. pose proof (len_nonneg rest). lia.
Qed.

Lemma assemble_more max ms size b mid cks :
  framed_rest max mid cks -> len b < size -> len b + len mid <= size ->
  assemble ms (ReadVars size b) (chunk_frame <$> cks) = Some (settle ms size (b ++ mid)).
Proof.
  revert b mid. induction cks as [|ck cks IH]; intros b mid Hfr Hlt Hle.
  - simpl in Hfr. subst mid. rewrite app_nil_r. unfold settle. simpl.
    destruct (Z.eqb_spec (len b) size); [lia|done].
  - destruct Hfr as (rest & Hf & Hl & -> & Hfr). rewrite len_app in Hle.
    pose proof (len_nonneg rest). pose proof (len_nonneg b).
    cbn [assemble fmap list_fmap]. unfold read_frame, chunk_frame. rewrite Hf, data_view_more. simpl.
    destruct (Z.eqb_spec size (-1)); [lia|].
    rewrite read_check_settle by (rewrite len_app; lia).
    unfold settle at 1. rewrite len_app.
    destruct (Z.eqb_spec (len b + len (ck_data ck)) size) as [Heq|Hne].
    + assert (rest = []) as -> by (apply len_zero; lia). apply framed_rest_empty in Hfr as ->.
      rewrite app_nil_r. unfold settle. rewrite len_app.
      by destruct (Z.eqb_spec (len b + len (ck_data ck)) size).
    + rewrite (IH _ rest), <- app_assoc; [done..|rewrite len_app; lia|rewrite len_app; lia].
Qed.

(** The chunks of a message that has been sent in part. *)
Definition partly_framed (max : Z) (d : bytes) (cks : list chunk) : Prop :=
  cks = [] \/ exists ck mid rest cks',
    cks = ck :: cks' /\ ck_first ck = true /\ ck_size ck = len d /\
    d = ck_data ck ++ mid ++ rest /\ framed_rest max mid cks'.

Lemma framed_partly max d cks : framed max d cks -> partly_framed max d cks.
Proof.
  intros (ck & mid & cks' & -> & Hf & Hs & _ & Hd & _ & Hfr). right.
  exists ck, mid, [], cks'. by rewrite app_nil_r.
Qed.

Lemma framed_rest_prefix max mid cks cks' :
  framed_rest max mid (cks ++ cks') ->
  exists m1 m2, mid = m1 ++ m2 /\ framed_rest max m1 cks.
Proof.
  revert mid. induction cks as [|ck cks IH]; intros mid Hfr; [by exists [], mid|].
  destruct Hfr as (rest & Hf & Hl & -> & Hfr). destruct (IH _ Hfr) as (m1 & m2 & -> & Hm1).
  exists (ck_data ck ++ m1), m2. rewrite app_assoc. split; [done|]. by exists m1.
Qed.

Lemma partly_framed_prefix max d cks cks' :
  partly_framed max d (cks ++ cks') -> partly_framed max d cks.
Proof.
  intros [Hnil|(ck & mid & rest & l & Heq & Hf & Hs & -> & Hfr)].
  - left. by apply app_eq_nil in Hnil as [-> _].
  - destruct cks as [|ck' cks]; [by left|]. injection Heq as -> <-. right.
    apply framed_rest_prefix in Hfr as (m1 & m2 & -> & Hm1).
    exists ck, m1, (m2 ++ rest), cks. by rewrite (app_assoc m1).
Qed.

Lemma assemble_first max ms d ck mid rest cks :
  ck_first ck = true -> ck_size ck = len d -> d = ck_data ck ++ mid ++ rest ->
  framed_rest max mid cks ->
  assemble ms read_vars0 (chunk_frame <$> (ck :: cks)) = Some (settle ms (len d) (ck_data ck ++ mid)).
Proof.
  intros Hf Hs Hd Hfr. assert (len d = len (ck_data ck) + len mid + len rest) as Hl.
  { rewrite Hd, !len_app. lia. }
  pose proof (len_nonneg mid). pose proof (len_nonneg rest).
  rewrite fmap_cons. cbn [assemble]. unfold read_frame, chunk_frame at 1.
  rewrite Hf, Hs, data_view_first. simpl. rewrite read_check_settle by lia.
  unfold settle at 1. destruct (Z.eqb_spec (len (ck_data ck)) (len d)) as [Heq|Hne].
  - assert (mid = []) as -> by (apply len_zero; lia). apply framed_rest_empty in Hfr as ->.
    rewrite app_nil_r. unfold settle. by destruct (Z.eqb_spec (len (ck_data ck)) (len d)).
  - apply (assemble_more max); [done|lia..].
Qed.

(** Frames of a part of a message give the message or nothing. *)
Lemma assemble_partly max ms d cks :
  partly_framed max d cks ->
  exists n v, assemble ms read_vars0 (chunk_frame <$> cks) = Some (ms ++ take n [d], v).
Proof.
  intros [->|(ck & mid & rest & cks' & -> & Hf & Hs & Hd & Hfr)].
  { exists 0%nat, read_vars0. by rewrite app_nil_r. }
  rewrite (assemble_first max ms d ck mid rest) by done. unfold settle.
  destruct (Z.eqb_spec (len (ck_data ck ++ mid)) (len d)) as [Heq|Hne].
  - exists 1%nat, read_vars0. rewrite Hd, !len_app in Heq.
    assert (rest = []) as -> by (apply len_zero; lia).
    by rewrite app_nil_r in Hd; subst d.
  - eexists 0%nat, _. by rewrite app_nil_r.
Qed.

Lemma assemble_framed max ms d cks :
  framed max d cks -> assemble ms read_vars0 (chunk_frame <$> cks) = Some (ms ++ [d], read_vars0).
Proof.
  intros (ck & mid & cks' & -> & Hf & Hs & _ & Hd & _ & Hfr).
  rewrite (assemble_first max ms d ck mid []); rewrite ?app_nil_r; try done.
  unfold settle. rewrite <- Hd. by rewrite Z.eqb_refl.
Qed.

(** Whatever part of the frames of some messages has been read gives the first
    of the messages. *)
Lemma assemble_prefix max ms ds ckss current cks p q :
  Forall2 (framed max) ds ckss ->
  match current with Some d => partly_framed max d cks | None => cks = [] end ->
  p ++ q = concat ckss ++ cks ->
  exists n v, assemble ms read_vars0 (chunk_frame <$> p)
              = Some (ms ++ take n (ds ++ option_list current), v).
Proof.
  intros Hds Hcur. revert ms p. induction Hds as [|d cs ds ckss Hd Hds IH]; intros ms p Hpq; simpl in *.
  - destruct current as [d|].
    + apply assemble_partly with (max := max). subst cks. by eapply partly_framed_prefix.
    + subst cks. apply app_eq_nil in Hpq as [-> _]. exists 0%nat, read_vars0. by rewrite app_nil_r.
  - rewrite <- app_assoc in Hpq. apply app_eq_inv in Hpq as [(k & -> & Hk)|(k & Hk & _)].
    + rewrite fmap_app, assemble_app, (assemble_framed max ms d) by done.
      destruct (IH (ms ++ [d]) k) as (n & v & ->); [done|].
      exists (S n), v. by rewrite <- app_assoc.
    + subst cs. apply framed_partly, partly_framed_prefix in Hd.
      destruct (assemble_partly max ms d p Hd) as (n & v & ->).
      exists (min n 1), v. by destruct n as [|[|n]].
Qed.
End Assembly.

(** ** The read loop reads this way *)
Section ReadLoop.
Context {T : Type} `{DataFrame T} (measure : T -> Z * bool).

Definition read_result (cfg : read_config T) (ms : list bytes) (v : read_vars) (taken : list T)
    (out : read_outcome) : Prop :=
  match out with
  | Blocked v' => assemble cfg ms v taken = Some (ms, v')
  | Returned (ReadReturn (Some d) _ _) => assemble cfg ms v taken = Some (ms ++ [d], read_vars0)
  | Returned (ReadReturn None false _) => assemble cfg ms v taken = None
  | Returned (ReadReturn None true _) => exists v', assemble cfg ms v taken = Some (ms, v')
  end.

Lemma read_loop_result fuel resumed cfg r v r' us out :
  read_loop measure fuel resumed cfg r v = Some (r', us, out) ->
  r_cancelled r = false ->
  exists taken, r_items r = taken ++ r_items r' /\ forall ms, read_result cfg ms v taken out.
Proof.
  revert resumed r v r' us out. induction fuel as [|fuel IH]; intros resumed r v r' us out Hrl Hcn;
    [done|]. simpl in Hrl. destruct (if resumed then None else rc_ctx cfg) as [e|].
  { simplify_eq. exists []. split; [done|]. intros ms. by exists v. }
  destruct (dequeue measure r) as [r1 [f u| |]] eqn:Hd.
  - pose proof (dequeue_takes _ _ _ _ _ Hd) as Hi.
    assert (r_cancelled r1 = false) as Hcn1.
    { destruct (dequeue_item measure r f (r_items r1) Hcn Hi) as (r2 & u2 & Hd2 & _ & Hc2 & _).
      congruence. }
    destruct (read_frame cfg f v) as [v'|ret] eqn:Hf.
    + destruct (read_loop measure fuel false cfg r1 v') as [[[r2 us2] out2]|] eqn:Hrl'; [|done].
      injection Hrl as <- <- <-. destruct (IH _ _ _ _ _ _ Hrl' Hcn1) as (taken & Ht & Hres).
      exists (f :: taken). rewrite Hi, Ht. split; [done|]. intros ms. specialize (Hres ms).
      unfold read_result in *. simpl. by rewrite Hf.
    + injection Hrl as <- <- <-. exists [f]. rewrite Hi. split; [done|]. intros ms.
      apply read_frame_returns in Hf as Hret.
      destruct Hret as [(d & ->)|(e & ->)]; simpl; by rewrite Hf.
  - unfold dequeue in Hd. rewrite Hcn in Hd. destruct (r_items r) as [|i l] eqn:Hi; [|step_in Hd].
    simplify_eq. exists []. destruct (r_closed r); simplify_eq. rewrite Hi.
    split; [done|]. intros ms. by exists v.
  - unfold dequeue in Hd. rewrite Hcn in Hd. destruct (r_items r) as [|i l] eqn:Hi; [|step_in Hd].
    simplify_eq. exists []. destruct (r_closed r); simplify_eq. by rewrite Hi.
Qed.
End ReadLoop.

(** ** What a message is

    A description of messages in terms of the frames and their bytes alone: an envelope
    that says how long the message is, and then data until it is that long. *)
Section Messages.
Context {T : Type} `{DataFrame T}.

(** The data that frames carry. *)
Definition frame_bytes (f : T) : bytes :=
  match data_view_of f with VMessage _ d => d | VMore d => d | VOther => [] end.
Definition data_bytes (fs : list T) : bytes := concat (frame_bytes <$> fs).

Lemma data_bytes_app a b : data_bytes (a ++ b) = data_bytes a ++ data_bytes b.
Proof. unfold data_bytes. by rewrite fmap_app, concat_app. Qed.

Definition is_more (f : T) : Prop := exists d, data_view_of f = VMore d.

(** From the variables [v] on, the frames are data of one message of [size] bytes, of
    which there are [b] then: inside a message only more data, and otherwise an
    envelope before it. *)
Definition gathers (v : read_vars) (fs : list T) (size : Z) (b : bytes) : Prop :=
  if rv_msgLen v =? -1
  then exists f more d, fs = f :: more /\ data_view_of f = VMessage size d /\ Forall is_more more /\
         b = d ++ data_bytes more
  else Forall is_more fs /\ size = rv_msgLen v /\ b = rv_b v ++ data_bytes fs.

(** No message ends in the frames; [v'] says what there is of one. *)
Definition unfinished (v : read_vars) (fs : list T) (v' : read_vars) : Prop :=
  (forall p, p `prefix_of` fs -> p <> [] -> exists size b, gathers v p size b /\ len b < size) /\
  match fs with [] => v' = v | _ => gathers v fs (rv_msgLen v') (rv_b v') end.

(** The message [d] ends with the last of the frames. *)
Definition finished (v : read_vars) (fs : list T) (d : bytes) : Prop :=
  exists p f v', fs = p ++ [f] /\ unfinished v p v' /\ gathers v fs (len d) d.

(** The last of the frames is out of place, with the error [e]. *)
Definition out_of_place (cfg : read_config T) (v : read_vars) (f : T) (e : error) : Prop :=
  match data_view_of f with
  | VOther => e = rc_unrecognized cfg f
  | VMore d => (rv_msgLen v = -1 /\ e = rc_never cfg) \/
      (rv_msgLen v <> -1 /\ len (rv_b v) + len d > rv_msgLen v /\ e = rc_overflow cfg)
  | VMessage size d => (rv_msgLen v <> -1 /\ e = rc_twice cfg (len (rv_b v)) (rv_msgLen v)) \/
      (rv_msgLen v = -1 /\ len d > size /\ e = rc_overflow cfg)
  end.
Definition broken (cfg : read_config T) (v : read_vars) (fs : list T) (e : error) : Prop :=
  exists p f v', fs = p ++ [f] /\ unfinished v p v' /\ out_of_place cfg v' f e.

Lemma gathers_inj v fs size b size' b' : gathers v fs size b -> gathers v fs size' b' -> size = size' /\ b = b'.
Proof.
  unfold gathers. destruct (_ =? _).
  - intros (f & m & d & -> & Hf & _ & ->) (f' & m' & d' & [= <- <-] & Hf' & _ & ->).
    rewrite Hf in Hf'. by injection Hf' as -> ->.
  - intros (_ & -> & ->) (_ & -> & ->). done.
Qed.

Lemma unfinished_inside v fs v' : unfinished v fs v' -> fs <> [] -> 0 <= len (rv_b v') < rv_msgLen v'.
Proof.
  intros [Hp Hv'] Hne. destruct (Hp fs ltac:(done) Hne) as (size & b & Hg & Hlt).
  destruct fs; [done|]. destruct (gathers_inj _ _ _ _ _ _ Hg Hv') as [-> ->].
  pose proof (len_nonneg (rv_b v')). lia.
Qed.

Lemma unfinished_nil v : unfinished v [] v.
Proof. split; [|done]. by intros p ->%prefix_nil_inv. Qed.

(** One more frame. *)
Lemma gathers_more v fs v' f d :
  unfinished v fs v' -> rv_msgLen v' <> -1 -> data_view_of f = VMore d ->
  gathers v (fs ++ [f]) (rv_msgLen v') (rv_b v' ++ d).
Proof.
  intros [_ Hv'] Hin Hf. assert (Hmore : is_more f) by (by exists d).
  assert (Hd : data_bytes [f] = d) by (unfold data_bytes, frame_bytes; simpl; by rewrite Hf, app_nil_r).
  unfold gathers in *. destruct (Z.eqb_spec (rv_msgLen v) (-1)) as [Hv|Hv].
  - destruct fs as [|f0 fs]; [subst v'; done|].
    destruct Hv' as (g & more & d0 & -> & Hg & Hms & ->). exists g, (more ++ [f]), d0.
    split_and!; [done|done|by apply Forall_app; split; [|constructor]|].
    by rewrite data_bytes_app, Hd, app_assoc.
  - rewrite data_bytes_app, Hd, app_assoc. destruct fs as [|f0 fs].
    + subst v'. simpl. rewrite app_nil_r. split_and!; [by constructor|done|done].
    + destruct Hv' as (Hms & -> & ->). split_and!; [by apply Forall_app; split; [|constructor]|done|done].
Qed.

Lemma gathers_envelope v fs v' f size d :
  unfinished v fs v' -> rv_msgLen v' = -1 -> data_view_of f = VMessage size d -> gathers v (fs ++ [f]) size d.
Proof.
  intros Hu Hno Hf. destruct fs as [|f0 fs].
  - destruct Hu as [_ ->]. unfold gathers. rewrite Hno, Z.eqb_refl. exists f, [], d. by rewrite app_nil_r.
  - pose proof (unfinished_inside _ _ _ Hu ltac:(done)). lia.
Qed.

Lemma unfinished_more v fs v' f v1 :
  unfinished v fs v' -> gathers v (fs ++ [f]) (rv_msgLen v1) (rv_b v1) -> len (rv_b v1) < rv_msgLen v1 ->
  unfinished v (fs ++ [f]) v1.
Proof.
  intros [Hp _] Hg Hlt. split; [|by destruct fs].
  intros p [q Hq] Hne. destruct q as [|g q _] using rev_ind.
  - rewrite app_nil_r in Hq. subst p. eauto.
  - rewrite app_assoc in Hq. apply app_inj_tail in Hq as [-> _]. apply Hp; [by exists q|done].
Qed.

(** ** The switch on one frame, compared with it *)
Lemma read_frame_meets cfg v fs v' f :
  unfinished v fs v' ->
  match read_frame cfg f v' with
  | inl v1 => unfinished v (fs ++ [f]) v1
  | inr ret => (exists d, ret = ReadReturn (Some d) true None /\ finished v (fs ++ [f]) d) \/
               (exists e, ret = ReadReturn None false (Some e) /\ broken cfg v (fs ++ [f]) e)
  end.
Proof.
  intros Hu.
  assert (Hbad : forall e, out_of_place cfg v' f e -> broken cfg v (fs ++ [f]) e) by (intros e He; by exists fs, f, v').
  assert (Hcheck : forall size b, gathers v (fs ++ [f]) size b -> (len b > size -> out_of_place cfg v' f (rc_overflow cfg)) ->
    match read_check cfg size b with
    | inl v1 => unfinished v (fs ++ [f]) v1
    | inr ret => (exists d, ret = ReadReturn (Some d) true None /\ finished v (fs ++ [f]) d) \/
                 (exists e, ret = ReadReturn None false (Some e) /\ broken cfg v (fs ++ [f]) e)
    end).
  { intros size b Hg Hov. unfold read_check. destruct (Z.gtb_spec (len b) size) as [Hgt|Hle].
    - right. eexists. split; [done|]. apply Hbad, Hov. lia.
    - destruct (Z.eqb_spec (len b) size) as [<-|Hne].
      + left. exists b. split; [done|]. by exists fs, f, v'.
      + apply (unfinished_more v fs v'); simpl; [done..|lia]. }
  unfold read_frame. unfold out_of_place in *. destruct (data_view_of f) as [size d|d|] eqn:Hf.
  - destruct (Z.eqb_spec (rv_msgLen v') (-1)) as [Hno|Hin]; simpl.
    + apply Hcheck; [by eapply gathers_envelope|]. intros ?. right. by split_and!.
    + right. eexists. split; [done|]. apply Hbad. by left.
  - destruct (Z.eqb_spec (rv_msgLen v') (-1)) as [Hno|Hin]; simpl.
    + right. eexists. split; [done|]. apply Hbad. by left.
    + apply Hcheck; [by apply gathers_more|]. rewrite len_app. intros ?. right. by split_and!.
  - right. eexists. split; [done|]. by apply Hbad.
Qed.

(** *** Frames determine the outcome *)
Lemma finished_not_before v t d t' v' : finished v t d -> t `prefix_of` t' -> ~ unfinished v t' v'.
Proof.
  intros (p & f & w & -> & _ & Hg) Hpre [Hp _].
  destruct (Hp _ Hpre ltac:(by destruct p)) as (size & b & Hg' & Hlt).
  destruct (gathers_inj _ _ _ _ _ _ Hg Hg') as [<- <-]. lia.
Qed.

Lemma prefix_shorter (t p : list T) f : t `prefix_of` p ++ [f] -> t = p ++ [f] \/ t `prefix_of` p.
Proof.
  intros [q Hq]. destruct q as [|g q _] using rev_ind; [left; by rewrite app_nil_r in Hq|right].
  rewrite app_assoc in Hq. apply app_inj_tail in Hq as [-> _]. by exists q.
Qed.

Lemma broken_not_gathered cfg v t e size b : broken cfg v t e -> gathers v t size b -> ~ len b <= size.
Proof.
  intros (p & f & v' & -> & Hu & Hbad) Hg Hle. unfold out_of_place in Hbad.
  assert (Hlast : (p = [] /\ rv_msgLen v = -1 /\ exists d, data_view_of f = VMessage size d) \/ is_more f).
  { unfold gathers in Hg. destruct (Z.eqb_spec (rv_msgLen v) (-1)).
    - destruct Hg as (g & more & d & Heq & Hview & Hms & _). destruct p as [|g' p]; injection Heq as -> Heq; [eauto|].
      right. subst more. apply Forall_app in Hms as [_ Hms]. by inversion Hms.
    - right. destruct Hg as (Hms & _). apply Forall_app in Hms as [_ Hms]. by inversion Hms. }
  destruct Hlast as [(-> & Hno & d & Hf)|(d & Hf)]; rewrite Hf in Hbad.
  - destruct Hu as [_ ->]. destruct Hbad as [[? _]|(_ & Hgt & _)]; [done|].
    destruct (gathers_inj _ _ _ _ _ _ Hg (gathers_envelope v [] v f size d (unfinished_nil v) Hno Hf)) as [_ ->].
    lia.
  - destruct Hbad as [[Hno _]|(Hin & Hgt & _)].
    + destruct p as [|g p]; [|pose proof (unfinished_inside _ _ _ Hu ltac:(done)); lia].
      destruct Hu as [_ ->]. unfold gathers in Hg. rewrite Hno, Z.eqb_refl in Hg.
      destruct Hg as (g & more & d' & [= -> <-] & Hview & _). congruence.
    + destruct (gathers_inj _ _ _ _ _ _ Hg (gathers_more _ _ _ _ _ Hu Hin Hf)) as [-> ->].
      rewrite len_app in Hle. lia.
Qed.

Lemma finished_unique v t d t' d' :
  finished v t d -> finished v t' d' -> t `prefix_of` t' -> t = t' /\ d = d'.
Proof.
  intros Hf (p' & f' & w' & -> & Hu' & Hg') [->|Hpre]%prefix_shorter.
  - destruct Hf as (_ & _ & _ & _ & _ & Hg). by destruct (gathers_inj _ _ _ _ _ _ Hg Hg').
  - by destruct (finished_not_before _ _ _ _ _ Hf Hpre Hu').
Qed.

Lemma finished_not_broken cfg v t d t' e :
  finished v t d -> broken cfg v t' e -> t `prefix_of` t' \/ t' `prefix_of` t -> False.
Proof.
  intros Hf Hb. pose proof Hf as (p & f & w & -> & [Hp _] & Hg). pose proof Hb as (p' & f' & w' & -> & Hu' & _).
  intros [Hpre|Hpre]; apply prefix_shorter in Hpre as [Heq|Hpre].
  - rewrite Heq in Hg. by destruct (broken_not_gathered _ _ _ _ _ _ Hb Hg).
  - by destruct (finished_not_before _ _ _ _ _ Hf Hpre Hu').
  - rewrite <- Heq in Hg. by destruct (broken_not_gathered _ _ _ _ _ _ Hb Hg).
  - destruct (Hp _ Hpre ltac:(by destruct p')) as (size & b & Hg' & Hlt).
    destruct (broken_not_gathered _ _ _ _ _ _ Hb Hg'). lia.
Qed.
End Messages.

(** ** The loop, compared with it *)
Section LoopMeets.
Context {T : Type} `{DataFrame T} (measure : T -> Z * bool).

(** What the loop has taken and left, when it ends with [out]. *)
Definition meets (cfg : read_config T) (v : read_vars) (r r' : receiver T) (taken : list T) (out : read_outcome) : Prop :=
  match out with
  | Returned (ReadReturn (Some d) ok err) => ok = true /\ err = None /\ finished v taken d
  | Returned (ReadReturn None false err) => exists e, err = Some e /\ broken cfg v taken e
  | Returned (ReadReturn None true err) => exists v', unfinished v taken v' /\
      ((rc_ctx cfg <> None /\ err = rc_ctx cfg) \/ (r_items r' = [] /\ r_closed r = true /\ err = rc_end cfg))
  | Blocked v' => unfinished v taken v' /\ r_items r' = [] /\ r_closed r = false
  end.

Lemma read_loop_meets fuel resumed cfg v0 r v p :
  (read_fuel r <= fuel)%nat -> r_cancelled r = false -> unfinished v0 p v ->
  exists r' us out taken, read_loop measure fuel resumed cfg r v = Some (r', us, out) /\
    r_items r = taken ++ r_items r' /\ meets cfg v0 r r' (p ++ taken) out.
Proof.
  unfold read_fuel. revert resumed r v p. induction fuel as [|fuel IH]; intros resumed r v p Hfuel Hcn Hu; [lia|].
  cbn [read_loop]. destruct (if resumed then None else rc_ctx cfg) as [e|] eqn:Hctx.
  { eexists _, _, _, []. split_and!; [done|done|]. exists v. rewrite app_nil_r. split; [done|].
    left. destruct resumed; [done|]. by rewrite Hctx. }
  destruct (r_items r) as [|f rest] eqn:Hi.
  - assert (Hd : dequeue measure r = (r, if r_closed r then DequeueEnd else DequeueWait)).
    { unfold dequeue. rewrite Hcn, Hi. by destruct (r_closed r). }
    rewrite Hd. destruct (r_closed r) eqn:Hcl; eexists _, _, _, []; rewrite Hi, !app_nil_r;
      (split_and!; [done|done|]); [exists v; split; [done|by right]|done].
  - destruct (dequeue_item measure r f rest Hcn Hi) as (r1 & u & -> & Hi1 & Hcn1 & Hcl1 & _).
    pose proof (read_frame_meets cfg v0 p v f Hu) as Hf. destruct (read_frame cfg f v) as [v'|ret].
    + destruct (IH false r1 v' (p ++ [f])) as (r' & us & out & taken & -> & Htk & Hm); [rewrite Hi1; simpl in Hfuel; lia|done|done|].
      eexists _, _, _, (f :: taken). split_and!; [done|by rewrite <- Hi1, Htk|].
      rewrite <- app_assoc in Hm. unfold meets in *. by rewrite Hcl1 in Hm.
    + eexists _, _, _, [f]. split_and!; [done|by rewrite Hi1|].
      destruct Hf as [(d & -> & Hd)|(e & -> & He)]; [done|by exists e].
Qed.
End LoopMeets.

(** ** The link implements the pipe *)
Section Refinement.
Context {T : Type} `{DataFrame T} (cfg : read_config T).

(** The messages that the reader's frames make. *)
Definition received (s : link) : list bytes :=
  match assemble cfg [] read_vars0 (l_read s) with Some (ms, _) => ms | None => [] end.

Definition sending (s : link (T := T)) : list bytes := l_done s ++ option_list (l_current s).

Definition abstract (s : link) : pipe :=
  Pipe (l_todo s) (drop (length (received s)) (sending s)) (received s).

Context (W maxChunk minUpdate ov : Z).
Context (HW : is_u32 W) (Hov : 0 <= ov) (Hroom : ov + 1 <= W).
Context (Hmc : 1 <= maxChunk) (Hmu : 1 <= minUpdate).

Lemma progress_partly d out0 c :
  call_progress W maxChunk d out0 c ->
  (forall k e, c_call c = Some k -> k_pc k <> PRet (Some e)) ->
  exists cks, c_out c = out0 ++ cks /\ partly_framed (max_chunk W maxChunk) d cks.
Proof.
  intros (k & cks & Hk & Hout & Hst) Hne. exists cks. split; [done|].
  assert (Hrest : k_size k = len d /\ len d <= MaxUint32 /\
           ((k_chunkIndex k = 0 /\ cks = [] /\ k_data k = d) \/
            (0 < k_chunkIndex k /\ exists ck mid rest,
               cks = ck :: rest /\ ck_first ck = true /\ ck_size ck = len d /\
               1 <= len (ck_data ck) <= max_chunk W maxChunk /\ d = ck_data ck ++ mid ++ k_data k /\
               framed_rest (max_chunk W maxChunk) mid rest)) ->
          partly_framed (max_chunk W maxChunk) d cks).
  { intros (_ & _ & [(_ & -> & _)|(_ & ck & mid & rest & -> & Hf & Hs & _ & Hd & Hfr)]);
      [by left|]. right. by exists ck, mid, (k_data k), rest. }
  destruct (k_pc k) as [| | | |[e|]] eqn:Hpc; auto; [by edestruct Hne|by apply framed_partly].
Qed.

(** What has been read is never broken, and is the beginning of what is sent. *)
Lemma link_assembles messages s :
  link_inv W maxChunk ov messages s ->
  exists n v, assemble cfg [] read_vars0 (l_read s) = Some (take n (sending s), v).
Proof.
  intros Hinv. destruct (li_framed _ _ _ _ _ Hinv) as (ckss & Hd & Hfr).
  assert (exists cks, c_out (l_send s) = concat ckss ++ cks /\
    match l_current s with
    | Some d => partly_framed (max_chunk W maxChunk) d cks
    | None => cks = []
    end) as (cks & Hout & Hcks).
  { destruct (l_current s) as [d|].
    - destruct Hfr as [Hp Hne]. by apply progress_partly.
    - destruct Hfr as [_ ->]. exists []. by rewrite app_nil_r. }
  pose proof (li_flow _ _ _ _ _ Hinv) as Hflow.
  symmetry in Hflow. apply fmap_app_inv in Hflow as (p & q & Hp & Hq & Heq).
  rewrite Hp. apply (assemble_prefix cfg (max_chunk W maxChunk) [] (l_done s) ckss (l_current s) cks p q);
    [done..|congruence].
Qed.

Lemma link_received messages s :
  link_inv W maxChunk ov messages s ->
  exists v, assemble cfg [] read_vars0 (l_read s) = Some (received s, v) /\
    sending s = received s ++ p_in_flight (abstract s).
Proof.
  intros Hinv. destruct (link_assembles _ _ Hinv) as (n & v & Has). exists v.
  unfold abstract, received. rewrite Has. simpl. split; [done|].
  rewrite length_take. destruct (Nat.le_ge_cases n (length (sending s))) as [Hle|Hge].
  - rewrite Nat.min_l by done. by rewrite take_drop.
  - rewrite Nat.min_r, drop_all, firstn_all2, app_nil_r by lia. done.
Qed.

(** The messages of a state only grow by those that are received. *)
Lemma abstract_sent s s' :
  l_read s' = l_read s -> l_todo s' = l_todo s -> sending s' = sending s -> abstract s' = abstract s.
Proof. unfold abstract, received. by intros -> -> ->. Qed.

Lemma begin_refines messages s s' :
  link_inv W maxChunk ov messages s -> link_step KBegin s = Some s' ->
  pipe_step (abstract s) (abstract s').
Proof.
  intros Hinv Hstep. destruct (link_received _ _ Hinv) as (v & _ & Hsent).
  unfold link_step in Hstep. rewrite (li_ok _ _ _ _ _ Hinv) in Hstep.
  destruct (l_todo s) as [|d ds] eqn:Htodo; [done|].
  destruct (send_step (LBegin d) (l_send s)) as [c'|] eqn:Hb; [|done]. injection Hstep as <-.
  assert (l_current s = None) as Hcur.
  { destruct (li_framed _ _ _ _ _ Hinv) as (ckss & _ & Hfr). destruct (l_current s); [|done].
    destruct Hfr as [(k & _ & Hk & _) _]. simpl in Hb. by rewrite Hk in Hb. }
  unfold abstract at 1. rewrite Htodo. unfold abstract. simpl.
  assert (sending (after_send (LBegin d) c' ds (Some d) (l_done s) (l_acks s) s) = sending s ++ [d]) as ->.
  { unfold sending. simpl. by rewrite Hcur, app_nil_r. }
  change (received (after_send _ _ _ _ _ _ s)) with (received s).
  rewrite drop_app_le; [constructor|]. rewrite Hsent, length_app. lia.
Qed.

Lemma read_refines messages s s' :
  link_inv W maxChunk ov messages s -> link_inv W maxChunk ov messages s' ->
  link_step KRead s = Some s' ->
  abstract s' = abstract s \/ pipe_step (abstract s) (abstract s').
Proof.
  intros Hinv Hinv' Hstep. unfold link_step in Hstep. rewrite (li_ok _ _ _ _ _ Hinv) in Hstep.
  destruct (dequeue frame_measure (l_recv s)) as [r' [f u| |]]; try done.
  destruct (link_received _ _ Hinv) as (v & Has & Hsent).
  destruct (link_received _ _ Hinv') as (v' & Has' & Hsent').
  assert (l_read s' = l_read s ++ [f] /\ l_todo s' = l_todo s /\ sending s' = sending s)
    as (Hr & Ht & Hs) by (by injection Hstep as <-).
  rewrite Hr, assemble_app, Has in Has'. cbn [assemble] in Has'. rewrite Hs in Hsent'.
  destruct (read_frame cfg f v) as [v2|ret] eqn:Hf.
  - left. injection Has' as Hrec _. unfold abstract. by rewrite Hs, Ht, Hrec.
  - right. destruct (read_frame_returns cfg _ _ _ Hf) as [(d & ->)|(e & ->)]; [|done].
    injection Has' as Hrec _. rewrite Hsent, <- Hrec, <- app_assoc in Hsent'.
    apply app_inv_head in Hsent'.
    assert (abstract s = Pipe (l_todo s) (d :: p_in_flight (abstract s')) (received s)) as ->.
    { unfold abstract at 1. f_equal. exact Hsent'. }
    assert (abstract s' = Pipe (l_todo s) (p_in_flight (abstract s')) (received s ++ [d])) as Heq.
    { unfold abstract at 1. by rewrite Hrec, <- Ht. }
    rewrite Heq at 2. constructor.
Qed.

Lemma link_step_refines messages l s s' :
  Forall (fun d => len d <= MaxUint32) messages ->
  link_inv W maxChunk ov messages s -> link_step l s = Some s' ->
  match l with
  | KBegin => pipe_step (abstract s) (abstract s')
  | KRead => abstract s' = abstract s \/ pipe_step (abstract s) (abstract s')
  | _ => abstract s' = abstract s
  end.
Proof.
  intros Hsmall Hinv Hstep.
  assert (Hinv' : link_inv W maxChunk ov messages s') by eauto using link_step_inv.
  destruct l as [|sl| | |]; [by eapply begin_refines| | |by eapply read_refines|].
  - apply abstract_sent; unfold link_step in Hstep; rewrite (li_ok _ _ _ _ _ Hinv) in Hstep;
      destruct (link_send_label sl); try done; destruct (send_step sl (l_send s)); simplify_eq/=;
      try done. unfold sending. simpl.
    destruct sl, (l_current s); simpl; rewrite ?app_nil_r; done.
  - apply abstract_sent; unfold link_step in Hstep; rewrite (li_ok _ _ _ _ _ Hinv) in Hstep;
      destruct (l_frames s); try done; by destruct (accept _ _ _); simplify_eq/=.
  - apply abstract_sent; unfold link_step in Hstep; rewrite (li_ok _ _ _ _ _ Hinv) in Hstep;
      destruct (l_acks s); try done; by destruct (send_step _ _); simplify_eq/=.
Qed.
End Refinement.

(** C8: One direction of a stream is a FIFO queue of whole messages.  However the
    sender, the tunnel, the receive loops and the reader interleave, each of their
    actions is invisible, or puts the next message into the queue (only the start
    of [send] does), or takes the oldest message out of it (only a read does); so
    every state of the implementation is a state that the specification reaches,
    and no read fails. *)
Theorem link_refines_pipe {T : Type} `{DataFrame T} (cfg : read_config T) W maxChunk minUpdate ov
    messages ls s :
  is_u32 W -> 0 <= ov -> ov + 1 <= W -> 1 <= maxChunk -> 1 <= minUpdate ->
  Forall (fun d => len d <= MaxUint32) messages ->
  run link_step ls (link_start W maxChunk minUpdate ov messages) = Some s ->
  rtc pipe_step (pipe_start messages) (abstract cfg s) /\
  assemble cfg [] read_vars0 (l_read s) <> None /\
  forall l s', link_step l s = Some s' ->
    match l with
    | KBegin => pipe_step (abstract cfg s) (abstract cfg s')
    | KRead => abstract cfg s' = abstract cfg s \/ pipe_step (abstract cfg s) (abstract cfg s')
    | _ => abstract cfg s' = abstract cfg s
    end.
Proof.
  intros HW Hov Hroom Hmc Hmu Hsmall Hrun.
  assert (link_inv W maxChunk ov messages s /\
            rtc pipe_step (pipe_start messages) (abstract cfg s)) as [Hinv Hreach].
  { apply (run_invariant link_step (fun s => link_inv W maxChunk ov messages s /\
      rtc pipe_step (pipe_start messages) (abstract cfg s)) _ (conj (link_start_inv W maxChunk
      minUpdate ov HW Hov Hroom Hmc Hmu messages) (rtc_refl _ _))) with (ls := ls); [|done].
    intros l s0 s1 [Hi Hr] Hstep. split; [by eapply link_step_inv|].
    pose proof (link_step_refines cfg W maxChunk minUpdate ov HW Hov Hroom Hmc Hmu messages l s0 s1
      Hsmall Hi Hstep) as Hl.
    assert (abstract cfg s1 = abstract cfg s0 \/ pipe_step (abstract cfg s0) (abstract cfg s1))
      as [->|Hp] by (destruct l; auto); [done|]. by eapply rtc_r. }
  split_and!; [done| |].
  - destruct (link_received cfg W maxChunk ov messages s Hinv) as (v & -> & _). done.
  - intros l s' Hstep. by apply (link_step_refines cfg W maxChunk minUpdate ov) with (messages := messages).
Qed.

Lemma link_refines_pipe_witness :
  rtc pipe_step (pipe_start LinkExample.messages)
    (abstract (server_read_config true "/svc/m" None None) LinkExample.final).
Proof.
  exact (proj1 (link_refines_pipe (T := ClientToServerFrame) (server_read_config true "/svc/m" None None)
    7 16384 2 5 LinkExample.messages LinkExample.trace LinkExample.final
    ltac:(vm_compute; split; congruence) ltac:(lia) ltac:(lia) ltac:(lia) ltac:(lia)
    LinkExample.small LinkExample.trace_runs)).
Defined.

Example link_delivers_all :
  abstract (server_read_config true "/svc/m" None None) LinkExample.final
  = Pipe [] [] LinkExample.messages.
Proof. vm_compute. reflexivity. Qed.

(** C19: The loop of [readMsgLocked] puts messages together as the protocol has them,
    whatever frames the peer sends.  Resumed with any variables on any queue it comes
    to an end, and it takes frames from the front of the queue only.  It returns a
    message exactly when the frames at the front are, with the data it was resumed
    with, an envelope and more data that add up to the size in the envelope, and it
    takes no frame after the last of them; it reports a frame that is out of place,
    with its error, when there is one before a message ends; and it waits, or ends
    with the stream, when the frames run out before, and a wait keeps the size and
    all the bytes so far. *)
Theorem read_loop_assembles {T : Type} `{DataFrame T} measure resumed (cfg : read_config T) r v :
  r_cancelled r = false ->
  exists r' us out taken, read_loop measure (read_fuel r) resumed cfg r v = Some (r', us, out) /\
    r_items r = taken ++ r_items r' /\ meets cfg v r r' taken out /\
    (rc_ctx cfg = None -> forall t rest d, r_items r = t ++ rest -> finished v t d ->
       out = Returned (ReadReturn (Some d) true None) /\ r_items r' = rest).
Proof.
  intros Hcn. destruct (read_loop_meets measure (read_fuel r) resumed cfg v r v [] (le_n _) Hcn)
    as (r' & us & out & taken & Hrl & Htk & Hm); [apply unfinished_nil|].
  exists r', us, out, taken. split_and!; [done|done|done|]. intros Hctx t rest d Ht Hf.
  assert (Hp1 : t `prefix_of` r_items r) by (by exists rest).
  assert (Hp2 : taken `prefix_of` r_items r) by (by exists (r_items r')).
  assert (Hall : forall v', unfinished v taken v' -> r_items r' = [] -> False).
  { intros v' Hu Hi. rewrite Hi, app_nil_r in Htk. rewrite Htk in Hp1. by eapply finished_not_before. }
  unfold meets in Hm. simpl in Hm. destruct out as [[[d'|] [] err]|v'].
  - destruct Hm as (_ & -> & Hf').
    assert (taken = t /\ d' = d) as [-> ->].
    { destruct (prefix_weak_total _ _ _ Hp1 Hp2) as [Hpre|Hpre].
      - destruct (finished_unique _ _ _ _ _ Hf Hf' Hpre). done.
      - by destruct (finished_unique _ _ _ _ _ Hf' Hf Hpre). }
    split; [done|]. rewrite Ht in Htk. by apply app_inv_head in Htk.
  - by destruct Hm.
  - destruct Hm as (v' & Hu & [[? _]|(Hi & _)]); [done|]. by destruct (Hall v').
  - destruct Hm as (e & _ & Hb). destruct (finished_not_broken _ _ _ _ _ _ Hf Hb). by eapply prefix_weak_total.
  - destruct Hm as (Hu & Hi & _). by destruct (Hall v').
Qed.

Lemma read_loop_assembles_witness :
  exists r' us out taken,
    read_loop request_measure (read_fuel (ReadExample.recv (ReadExample.chunks7 ++ ReadExample.chunks0) false))
      false (ReadExample.cfg true) (ReadExample.recv (ReadExample.chunks7 ++ ReadExample.chunks0) false) read_vars0
      = Some (r', us, out) /\
    meets (ReadExample.cfg true) read_vars0 (ReadExample.recv (ReadExample.chunks7 ++ ReadExample.chunks0) false) r' taken out /\
    out = Returned (ReadReturn (Some (ReadExample.A 7)) true None).
Proof.
  destruct (read_loop_assembles request_measure false (ReadExample.cfg true)
    (ReadExample.recv (ReadExample.chunks7 ++ ReadExample.chunks0) false) read_vars0 eq_refl)
    as (r' & us & out & taken & Hrl & _ & Hm & _).
  exists r', us, out, taken. split; [exact Hrl|]. split; [exact Hm|].
  vm_compute in Hrl. injection Hrl as _ _ <-. vm_compute. reflexivity.
Defined.
