(* ===== verification/Options.v ===== *)
(** * Options and establishment

    options.go: the options of a tunnel and the defaults that [initOptions]
    fills in.  establish.go: the race between the establishment of a tunnel and
    its timeout. *)
From S2P Require Import Prelude Status Protocol FlowSender FlowReceiver Reassembly FlowLink.

(** ** Constants (flow_control.go, options.go); durations are in nanoseconds. *)
Definition defaultInitialWindowSize : Z := 64 * 1024.
Definition minInitialWindowSize : Z := 1024.
Definition defaultChunkMax : Z := 16 * 1024.
Definition defaultUpdateMin : Z := 16 * 1024.
Definition Second : Z := 1000000000.
Definition defaultEstablishmentTimeout : Z := 15 * Second.

Record tunnelOpts := TunnelOpts {
  initialWindowSize : Z;
  maxChunkSize : Z;
  minWindowUpdateSize : Z;
  establishmentTimeout : Z;
}.

(** A [TunnelOption] is a function that updates the options. *)
Definition TunnelOption : Type := tunnelOpts -> tunnelOpts.

Definition WithInitialWindowSize (size : Z) : TunnelOption := fun t =>
  TunnelOpts size (maxChunkSize t) (minWindowUpdateSize t) (establishmentTimeout t).

Definition WithMaxChunkSize (size : Z) : TunnelOption := fun t =>
  TunnelOpts (initialWindowSize t) size (minWindowUpdateSize t) (establishmentTimeout t).

Definition WithMinWindowUpdateSize (size : Z) : TunnelOption := fun t =>
  TunnelOpts (initialWindowSize t) (maxChunkSize t) size (establishmentTimeout t).

Definition WithEstablishmentTimeout (timeout : Z) : TunnelOption :=
  let timeout := if timeout <=? 0 then -1 else timeout in
  fun t => TunnelOpts (initialWindowSize t) (maxChunkSize t) (minWindowUpdateSize t) timeout.

Definition apply_options (t : tunnelOpts) (opts : list TunnelOption) : tunnelOpts :=
  foldl (fun t opt => opt t) t opts.

Definition initOptions (t : tunnelOpts) (opts : list TunnelOption) : tunnelOpts :=
  let t := apply_options t opts in
  {| initialWindowSize :=
       if initialWindowSize t =? 0 then defaultInitialWindowSize
       else if initialWindowSize t <? minInitialWindowSize then minInitialWindowSize
       else initialWindowSize t;
     maxChunkSize := if maxChunkSize t =? 0 then defaultChunkMax else maxChunkSize t;
     minWindowUpdateSize :=
       if minWindowUpdateSize t =? 0 then defaultUpdateMin else minWindowUpdateSize t;
     establishmentTimeout :=
       if establishmentTimeout t =? 0 then defaultEstablishmentTimeout
       else establishmentTimeout t |}.

Definition zero_options : tunnelOpts := TunnelOpts 0 0 0 0.

(** The three sizes are of type [uint32]. *)
Definition opts_u32 (t : tunnelOpts) : Prop :=
  is_u32 (initialWindowSize t) /\ is_u32 (maxChunkSize t) /\ is_u32 (minWindowUpdateSize t).

(** What [initOptions] establishes. *)
Record opts_ok (t : tunnelOpts) : Prop := {
  oo_window : minInitialWindowSize <= initialWindowSize t <= MaxUint32;
  oo_chunk : 1 <= maxChunkSize t <= MaxUint32;
  oo_update : 1 <= minWindowUpdateSize t <= MaxUint32;
  oo_timeout : establishmentTimeout t <> 0;
}.

Lemma initOptions_ok t opts :
  opts_u32 (apply_options t opts) -> opts_ok (initOptions t opts).
Proof.
  intros (Hw & Hc & Hu). unfold is_u32, MaxUint32 in *.
  split; simpl; unfold minInitialWindowSize, defaultInitialWindowSize, defaultChunkMax,
    defaultUpdateMin, MaxUint32.
  - destruct (Z.eqb_spec (initialWindowSize (apply_options t opts)) 0); [lia|].
    destruct (Z.ltb_spec (initialWindowSize (apply_options t opts)) 1024); lia.
  - destruct (Z.eqb_spec (maxChunkSize (apply_options t opts)) 0); lia.
  - destruct (Z.eqb_spec (minWindowUpdateSize (apply_options t opts)) 0); lia.
  - destruct (Z.eqb_spec (establishmentTimeout (apply_options t opts)) 0); [done|lia].
Qed.

Lemma opts_ok_fixed t : opts_ok t -> initOptions t [] = t.
Proof.
  intros [Hw Hc Hu Ht]. unfold minInitialWindowSize in *. destruct t as [w c u e].
  unfold initOptions. simpl in *. unfold minInitialWindowSize.
  destruct (Z.eqb_spec w 0), (Z.ltb_spec w 1024), (Z.eqb_spec c 0), (Z.eqb_spec u 0),
    (Z.eqb_spec e 0); by try lia.
Qed.

(** C33: [initOptions] leaves valid options: at least the minimum window, sizes
    that are not zero, a timeout that is not zero; it changes nothing on options
    that it has already filled in; and the window that this end announces is
    valid in every revision, so a peer never refuses its settings or its
    streams. *)
Theorem initOptions_valid t opts :
  opts_u32 (apply_options t opts) ->
  opts_ok (initOptions t opts) /\
  initOptions (initOptions t opts) [] = initOptions t opts /\
  forall revision, minWindowSize revision <= initialWindowSize (initOptions t opts).
Proof.
  intros Hu. pose proof (initOptions_ok t opts Hu) as Hok.
  split_and!; [done|by apply opts_ok_fixed|]. intros revision. rewrite minWindowSize_eq.
  destruct Hok as [Hw _ _ _]. unfold minInitialWindowSize in Hw.
  destruct (messageOverhead_cases revision) as [-> | ->]; lia.
Qed.

(** An option that is set to zero takes its default, the last option of a
    kind wins, and a timeout of zero or less means no limit. *)
Theorem options_defaults t opts timeout size :
  let set opt := initOptions t (opts ++ [opt]) in
  (timeout <= 0 -> establishmentTimeout (set (WithEstablishmentTimeout timeout)) = -1) /\
  (0 < timeout -> establishmentTimeout (set (WithEstablishmentTimeout timeout)) = timeout) /\
  initialWindowSize (set (WithInitialWindowSize 0)) = 65536 /\
  (0 < size -> initialWindowSize (set (WithInitialWindowSize size)) = Z.max size 1024) /\
  maxChunkSize (set (WithMaxChunkSize 0)) = 16384 /\
  (0 < size -> maxChunkSize (set (WithMaxChunkSize size)) = size) /\
  minWindowUpdateSize (set (WithMinWindowUpdateSize 0)) = 16384 /\
  (0 < size -> minWindowUpdateSize (set (WithMinWindowUpdateSize size)) = size).
Proof.
  unfold initOptions, apply_options. rewrite !foldl_app. cbn [foldl].
  split_and!; simpl; try done; intros.
  - destruct (Z.leb_spec timeout 0); [done|lia].
  - destruct (Z.leb_spec timeout 0); [lia|]. destruct (Z.eqb_spec timeout 0); [lia|done].
  - unfold minInitialWindowSize. destruct (Z.eqb_spec size 0); [lia|].
    destruct (Z.ltb_spec size 1024); lia.
  - destruct (Z.eqb_spec size 0); [lia|done].
  - destruct (Z.eqb_spec size 0); [lia|done].
Qed.

(** ** Every configuration flows

    The sender and receiver of a stream, as both ends create them: the window
    and the update size are those of the receiving end, the chunk size that of
    the sending end, the overhead that of the revision. *)
Section ConfiguredStream.
Context {T : Type} `{DataFrame T}.

Definition configured_stream (sending receiving : tunnelOpts) (revision : Z)
    (messages : list bytes) : link (T := T) :=
  link_start (initialWindowSize receiving) (maxChunkSize sending)
    (minWindowUpdateSize receiving) (messageOverhead revision) messages.

(** C7: For all options of the two ends and every revision, the messages of a
    stream arrive: no schedule makes the receiver reject a frame, none goes on
    for ever, and none stops before every message has been framed, sent and
    read in order. *)
Theorem configured_stream_flows sending receiving opts1 opts2 revision messages ls s :
  opts_u32 (apply_options sending opts1) -> opts_u32 (apply_options receiving opts2) ->
  Forall (fun d => len d <= MaxUint32) messages ->
  run link_step ls (configured_stream (initOptions sending opts1) (initOptions receiving opts2)
                      revision messages) = Some s ->
  l_failed s = false /\
  len ls <= 1 + zsum ((fun d => 30 * len d + 27) <$> messages) /\
  ((forall l, link_step l s = None) ->
   l_done s = messages /\
   exists max ckss, Forall2 (framed max) messages ckss /\
     l_read s = chunk_frame <$> concat ckss).
Proof.
  intros [_ [Hc1 _] _ _]%initOptions_ok [Hw _ [Hu1 _] _]%initOptions_ok Hsmall Hrun.
  set (so := initOptions sending opts1) in *. set (ro := initOptions receiving opts2) in *.
  unfold configured_stream in Hrun. unfold minInitialWindowSize in Hw.
  assert (HW : is_u32 (initialWindowSize ro)) by (unfold is_u32; lia).
  assert (Hov : 0 <= messageOverhead revision) by (destruct (messageOverhead_cases revision); lia).
  assert (Hroom : messageOverhead revision + 1 <= initialWindowSize ro)
    by (destruct (messageOverhead_cases revision); lia).
  assert (Hinv : link_inv (initialWindowSize ro) (maxChunkSize so) (messageOverhead revision)
                   messages s).
  { eapply link_run_inv; try eassumption; lia. }
  split_and!.
  - apply Hinv.
  - apply (link_run_len (initialWindowSize ro) (maxChunkSize so) (minWindowUpdateSize ro)
      (messageOverhead revision) HW Hov Hroom ltac:(lia) ltac:(lia) messages ls s); done.
  - intros Hstuck.
    assert (delivered (initialWindowSize ro) (maxChunkSize so) messages s)
      as (Hd & ckss & Hf & Hr) by (eapply stuck_delivered; try eassumption; lia).
    split; [done|]. by eexists _, ckss.
Qed.
End ConfiguredStream.

(** ** Establishment

    [time.AfterFunc] runs its function once the timer has expired; [Stop] says
    whether it prevented that. *)
Inductive timer := TimerPending | TimerExpired | TimerStopped.

Record establishment := Establishment {
  est_timer : option timer;
  est_err : option error;
  est_cause : option (option error);   (** [cancel] has been called, with this cause *)
}.

Definition establishmentTimeoutError (timeout : Z) (peer : string) : error :=
  Errorf FailedPrecondition
    "timed out after %v waiting to establish tunnel with %s; it may be unresponsive or using an unsupported version of grpctunnel"
    [AInt timeout; AStr peer].

Definition startEstablishment (timeout : Z) (peer : string) : establishment :=
  if timeout >? 0
  then Establishment (Some TimerPending) (Some (establishmentTimeoutError timeout peer)) None
  else Establishment None None None.

(** The first call of a [CancelCauseFunc] decides the cause. *)
Definition est_cancel (cause : option error) (e : establishment) : establishment :=
  match est_cause e with
  | None => Establishment (est_timer e) (est_err e) (Some cause)
  | Some _ => e
  end.

Definition est_done (err : option error) (e : establishment) : establishment * option error :=
  match est_timer e with
  | Some TimerPending => (Establishment (Some TimerStopped) (est_err e) (est_cause e), err)
  | Some _ => (e, est_err e)
  | None => (e, err)
  end.

Definition est_release (e : establishment) : establishment := est_cancel None e.

(** The goroutines around it: the timer expires, its function runs, the caller
    calls [done] (once) and later [release]. *)
Record est_conf := EstConf {
  ec_est : establishment;
  ec_func : bool;                      (** the timer's function has to run *)
  ec_done : option (option error);     (** what [done] returned *)
}.

Inductive est_label := EExpire | EFunc | EDone (err : option error) | ERelease.

Definition est_step (l : est_label) (c : est_conf) : option est_conf :=
  let '(EstConf e f d) := c in
  match l with
  | EExpire =>
      match est_timer e with
      | Some TimerPending =>
          Some (EstConf (Establishment (Some TimerExpired) (est_err e) (est_cause e)) true d)
      | _ => None
      end
  | EFunc => if f then Some (EstConf (est_cancel (est_err e) e) false d) else None
  | EDone err =>
      match d with
      | None => let (e', ret) := est_done err e in Some (EstConf e' f (Some ret))
      | Some _ => None
      end
  | ERelease =>
      match d with Some _ => Some (EstConf (est_release e) f d) | None => None end
  end.

Definition est_start (timeout : Z) (peer : string) : est_conf :=
  EstConf (startEstablishment timeout peer) false None.

Record est_inv (timeout : Z) (peer : string) (c : est_conf) : Prop := {
  ei_err : est_err (ec_est c)
           = if timeout >? 0 then Some (establishmentTimeoutError timeout peer) else None;
  ei_timer : est_timer (ec_est c) = None <-> timeout <= 0;
  ei_func : ec_func c = true -> est_timer (ec_est c) = Some TimerExpired;
  ei_cause : forall e, est_cause (ec_est c) = Some (Some e) ->
    est_timer (ec_est c) = Some TimerExpired;
  ei_stopped : est_timer (ec_est c) = Some TimerStopped -> ec_done c <> None;
  ei_done : ec_done c = None -> est_cause (ec_est c) <> Some None;
  ei_settled : ec_done c <> None -> est_timer (ec_est c) <> Some TimerPending;
  ei_timeout : forall ret, est_timer (ec_est c) = Some TimerExpired -> ec_done c = Some ret ->
    ret = est_err (ec_est c);
  ei_value : forall e, est_cause (ec_est c) = Some (Some e) ->
    e = establishmentTimeoutError timeout peer;
}.

Lemma est_inv_start timeout peer : est_inv timeout peer (est_start timeout peer).
Proof.
  unfold est_start, startEstablishment. pose proof (Zgt_cases timeout 0) as Hcases.
  destruct (timeout >? 0) eqn:Ht; split; simpl; rewrite ?Ht; try done; split; (done || lia).
Qed.

Lemma est_inv_step timeout peer l c c' :
  est_inv timeout peer c -> est_step l c = Some c' -> est_inv timeout peer c'.
Proof.
  intros [He Ht Hf Hc Hs Hd Hset Hto Hv] Hstep. destruct c as [[t er ca] f d]. simpl in *.
  destruct l; simpl in Hstep.
  - destruct t as [[]|]; try done. injection Hstep as <-. split; simpl; try done.
    + split; [done|]. intros Hle. by apply Ht in Hle.
    + intros ret _ ->. by destruct (Hset ltac:(done)).
  - destruct f; [|done]. injection Hstep as <-. unfold est_cancel. simpl.
    rewrite (Hf eq_refl) in *. destruct ca as [ca|]; split; simpl in *; auto; try done.
    + intros _ [= ->]. destruct (Z.gtb_spec timeout 0); [done|].
      by destruct Ht as [_ Ht]; specialize (Ht ltac:(lia)).
    + intros e [= ->]. by destruct (timeout >? 0); simplify_eq.
  - destruct d; [done|]. unfold est_done in Hstep. simpl in Hstep.
    destruct t as [[]|]; injection Hstep as <-; split; simpl in *; auto; try done.
    + split; [done|]. intros Hle. by apply Ht in Hle.
    + intros Hff. by specialize (Hf Hff).
    + intros e Hce. by specialize (Hc e Hce).
    + by intros ret _ [= <-].
  - destruct d as [ret|]; [|done]. injection Hstep as <-. unfold est_release, est_cancel. simpl.
    destruct ca as [ca|]; split; simpl in *; auto; try done.
Qed.

Lemma est_run_inv timeout peer ls c :
  run est_step ls (est_start timeout peer) = Some c -> est_inv timeout peer c.
Proof.
  apply run_invariant; [apply est_inv_start|]. intros. by eapply est_inv_step.
Qed.

Lemma est_run_expired timeout peer ls c :
  run est_step ls (est_start timeout peer) = Some c ->
  est_timer (ec_est c) = Some TimerExpired <-> EExpire ∈ ls.
Proof.
  revert ls c. apply run_history.
  - unfold est_start, startEstablishment. split; [|by intros ?%not_elem_of_nil].
    destruct (timeout >? 0); done.
  - intros ls l [[t er ca] f d] c' IH Hstep. rewrite elem_of_app, list_elem_of_singleton, <- IH. clear IH.
    simpl in *. destruct l; simpl in Hstep; [destruct t as [[]|]|destruct f|destruct d|destruct d];
      try done; unfold est_done, est_release, est_cancel in Hstep; simpl in Hstep.
    + injection Hstep as <-. simpl. tauto.
    + injection Hstep as <-. destruct ca; simpl; intuition congruence.
    + destruct t as [[]|]; injection Hstep as <-; simpl; intuition congruence.
    + injection Hstep as <-. destruct ca; simpl; intuition congruence.
Qed.

(** The race is decided once.  [done] returns the timeout error exactly when
    the timer expired before it, and its argument otherwise; and whenever the
    timer has cancelled the context, there was a limit and [done] returns, or
    has returned, the error that cancelled it.  So a tunnel that is reported as
    established is never torn down by its timer. *)
Theorem establishment_decided_once timeout peer ls c :
  run est_step ls (est_start timeout peer) = Some c ->
  (forall err, ec_done c = None ->
     ((EExpire ∈ ls) /\
        snd (est_done err (ec_est c)) = Some (establishmentTimeoutError timeout peer)) \/
     ((EExpire ∉ ls) /\ snd (est_done err (ec_est c)) = err)) /\
  (forall cause, est_cause (ec_est c) = Some (Some cause) ->
     0 < timeout /\ cause = establishmentTimeoutError timeout peer /\
     (ec_done c = None \/ ec_done c = Some (Some cause))).
Proof.
  intros Hrun. pose proof (est_run_expired timeout peer ls c Hrun) as Hexp.
  destruct (est_run_inv timeout peer ls c Hrun) as [He Ht Hf Hc Hs Hd Hset Hto Hv].
  assert (Hpos : est_timer (ec_est c) = Some TimerExpired ->
                 0 < timeout /\ est_err (ec_est c) = Some (establishmentTimeoutError timeout peer)).
  { intros Hx. rewrite He. pose proof (Zgt_cases timeout 0).
    destruct (timeout >? 0); [split; [lia|done]|]. rewrite (proj2 Ht) in Hx by lia. done. }
  split.
  - intros err Hnone. rewrite <- Hexp. unfold est_done.
    destruct (est_timer (ec_est c)) as [[]|]; try (right; split; done).
    + left. split; [done|]. by destruct (Hpos eq_refl).
    + by destruct (Hs eq_refl).
  - intros cause Hcause. destruct (Hpos (Hc _ Hcause)) as [Hlt Herr].
    split_and!; [done|by apply Hv|]. destruct (ec_done c) as [ret|] eqn:Hret; [right|by left].
    rewrite (Hto ret (Hc _ Hcause) eq_refl), Herr. by rewrite (Hv _ Hcause).
Qed.

(** ** Examples *)
Module OptionsExample.
Definition client_opts : list TunnelOption :=
  [WithInitialWindowSize 100; WithMinWindowUpdateSize 50; WithEstablishmentTimeout 0].
Definition server_opts : list TunnelOption := [WithMaxChunkSize 2].

Example client : initOptions zero_options client_opts = TunnelOpts 1024 16384 50 (-1).
Proof. reflexivity. Qed.

Definition timed_out : list est_label := [EExpire; EDone None; EFunc; ERelease].
Definition established : list est_label := [EDone None; ERelease].
Definition end_of (ls : list est_label) : est_conf :=
  default (est_start 10 "server") (run est_step ls (est_start 10 "server")).
End OptionsExample.

Lemma initOptions_valid_witness :
  minWindowSize REVISION_TWO
    <= initialWindowSize (initOptions zero_options OptionsExample.client_opts).
Proof.
  apply (initOptions_valid zero_options OptionsExample.client_opts).
  vm_compute. repeat split; congruence.
Defined.

Lemma configured_stream_flows_witness :
  l_failed (configured_stream (T := ClientToServerFrame)
    (initOptions zero_options OptionsExample.client_opts)
    (initOptions zero_options OptionsExample.server_opts) REVISION_TWO [[]]) = false.
Proof.
  apply (configured_stream_flows (T := ClientToServerFrame) zero_options zero_options
    OptionsExample.client_opts OptionsExample.server_opts REVISION_TWO [[]] []);
    [vm_compute; repeat split; congruence..| |reflexivity].
  repeat constructor. vm_compute. congruence.
Defined.

Lemma establishment_decided_once_witness :
  ec_done (OptionsExample.end_of OptionsExample.timed_out)
    = Some (Some (establishmentTimeoutError 10 "server")) /\ 0 < 10.
Proof.
  split; [vm_compute; reflexivity|].
  apply (proj2 (establishment_decided_once 10 "server" OptionsExample.timed_out
    (OptionsExample.end_of OptionsExample.timed_out) eq_refl)
    (establishmentTimeoutError 10 "server")). vm_compute. reflexivity.
Defined.
