(* ===== verification/Timeout.v ===== *)
(** * Deadlines

    [timeoutFromHeaders] of tunnel_server.go, which reads the deadline of an RPC
    from its headers, with [strconv.Atoi] of the Go standard library.  A
    [time.Duration] is an [int64] of nanoseconds. *)
From S2P Require Import Prelude Status Protocol.
From Stdlib Require Import Ascii.

(** ** strconv.Atoi *)
Definition digit (c : Ascii.ascii) : option Z :=
  let n := Z.of_nat (Ascii.nat_of_ascii c) in
  if (48 <=? n) && (n <=? 57) then Some (n - 48) else None.

Fixpoint digits_value (acc : Z) (s : string) : option Z :=
  match s with
  | EmptyString => Some acc
  | String c s => match digit c with Some d => digits_value (10 * acc + d) s | None => None end
  end.

(** An optional sign, then at least one digit; out of range is an error. *)
Definition Atoi (s : string) : option Z :=
  let in_range z := if (MinInt64 <=? z) && (z <=? MaxInt64) then Some z else None in
  let unsigned s := match s with EmptyString => None | _ => digits_value 0 s end in
  match s with
  | String "+"%char s => match unsigned s with Some z => in_range z | None => None end
  | String "-"%char s => match unsigned s with Some z => in_range (- z) | None => None end
  | _ => match unsigned s with Some z => in_range z | None => None end
  end.

(** ** timeoutFromHeaders *)

(** [timeoutStr[:len-1]] and [timeoutStr[len-1]]. *)
Fixpoint split_last (c : Ascii.ascii) (s : string) : string * Ascii.ascii :=
  match s with
  | EmptyString => (EmptyString, c)
  | String c' s => let (init, l) := split_last c' s in (String c init, l)
  end.

Definition unit_nanos (c : Ascii.ascii) : option Z :=
  if Ascii.eqb c "H"%char then Some 3600000000000
  else if Ascii.eqb c "M"%char then Some 60000000000
  else if Ascii.eqb c "S"%char then Some 1000000000
  else if Ascii.eqb c "m"%char then Some 1000000
  else if Ascii.eqb c "u"%char then Some 1000
  else if Ascii.eqb c "n"%char then Some 1
  else None.

(** The last value of the header [grpc-timeout]. *)
Definition parse_timeout (timeoutStr : string) : option Z :=
  match timeoutStr with
  | String c (String _ _ as rest) =>
      let (digits, u) := split_last c rest in
      match Atoi digits with
      | None => None
      | Some timeout =>
          match unit_nanos u with
          | Some nanos => Some (i64 (timeout * nanos))
          | None => None
          end
      end
  | _ => None
  end.

Definition timeoutFromHeaders `{MetadataLib} (headers : MD) : option Z :=
  match list.last (md_Get headers "grpc-timeout") with
  | None => None
  | Some timeoutStr => parse_timeout timeoutStr
  end.

(** ** What the gRPC protocol allows: one to eight digits, then the unit. *)
Fixpoint all_digits (s : string) : bool :=
  match s with
  | EmptyString => true
  | String c s => match digit c with Some _ => all_digits s | None => false end
  end.

Definition timeout_value (ds : string) : Z := default 0 (digits_value 0 ds).

Definition grpc_timeout_digits (ds : string) : Prop :=
  all_digits ds = true /\ (1 <= String.length ds <= 8)%nat.

Lemma digit_range c d : digit c = Some d -> 0 <= d <= 9.
Proof.
  unfold digit. destruct (_ && _) eqn:Hb; [|done]. intros [= <-].
  apply andb_true_iff in Hb as [H1%Z.leb_le H2%Z.leb_le]. lia.
Qed.

Lemma digits_value_bound ds acc :
  all_digits ds = true -> 0 <= acc ->
  exists v, digits_value acc ds = Some v /\
    acc * 10 ^ Z.of_nat (String.length ds) <= v < (acc + 1) * 10 ^ Z.of_nat (String.length ds).
Proof.
  revert acc. induction ds as [|c ds IH]; intros acc Hd Hacc.
  - exists acc. cbn. split; [done|lia].
  - cbn [all_digits digits_value String.length] in *. destruct (digit c) as [d|] eqn:Hdc; [|done].
    apply digit_range in Hdc. destruct (IH (10 * acc + d) Hd) as (v & Hv & Hb); [lia|].
    exists v. split; [done|]. rewrite Nat2Z.inj_succ, Z.pow_succ_r by lia.
    pose proof (Z.pow_pos_nonneg 10 (Z.of_nat (String.length ds))). nia.
Qed.

Lemma timeout_value_bound ds :
  grpc_timeout_digits ds ->
  digits_value 0 ds = Some (timeout_value ds) /\ 0 <= timeout_value ds <= 99999999.
Proof.
  intros [Hd Hl]. destruct (digits_value_bound ds 0 Hd ltac:(lia)) as (v & Hv & Hb).
  unfold timeout_value. rewrite Hv. simpl. split; [done|].
  assert (10 ^ Z.of_nat (String.length ds) <= 10 ^ 8) by (apply Z.pow_le_mono_r; lia). lia.
Qed.

(** A digit is not a sign. *)
Lemma Atoi_digits ds :
  grpc_timeout_digits ds -> Atoi ds = Some (timeout_value ds).
Proof.
  intros Hg. destruct (timeout_value_bound ds Hg) as [Hv Hb]. destruct Hg as [Hd Hl].
  assert (Hrange : (if (MinInt64 <=? timeout_value ds) && (timeout_value ds <=? MaxInt64)
                    then Some (timeout_value ds) else None) = Some (timeout_value ds)).
  { unfold MinInt64, MaxInt64. destruct (Z.leb_spec (-9223372036854775808) (timeout_value ds)),
      (Z.leb_spec (timeout_value ds) 9223372036854775807); simpl; done || lia. }
  destruct ds as [|c ds]; [simpl in Hl; lia|].
  unfold Atoi. rewrite Hv, Hrange.
  destruct c as [[] [] [] [] [] [] [] []]; try reflexivity; discriminate Hd.
Qed.

Lemma split_last_append s c u : split_last c (s ++ String u EmptyString) = (String c s, u).
Proof.
  revert c. induction s as [|c' s IH]; intros c; [done|]. simpl. by rewrite IH.
Qed.

Lemma parse_timeout_digits ds u nanos :
  grpc_timeout_digits ds -> unit_nanos u = Some nanos ->
  parse_timeout (ds ++ String u EmptyString) = Some (i64 (timeout_value ds * nanos)).
Proof.
  intros Hg Hu. pose proof (Atoi_digits ds Hg) as Ha. destruct Hg as [_ Hl].
  destruct ds as [|c ds]; [simpl in Hl; lia|].
  change (String c ds ++ String u EmptyString)%string
    with (String c (ds ++ String u EmptyString)).
  unfold parse_timeout. pose proof (split_last_append ds c u) as Hs.
  destruct (ds ++ String u EmptyString)%string as [|c' s']; [done|].
  by rewrite Hs, Ha, Hu.
Qed.

Lemma unit_nanos_bound u nanos :
  unit_nanos u = Some nanos -> 1 <= nanos <= 3600000000000.
Proof. unfold unit_nanos. intros. step_cases; lia. Qed.

Lemma md_Get_timeout `{MetadataLib} headers ds :
  list.last (md_lookup headers "grpc-timeout") = Some ds ->
  timeoutFromHeaders headers = parse_timeout ds.
Proof. intros Hl. unfold timeoutFromHeaders. by rewrite md_Get_lower, Hl. Qed.

(** C34: Every timeout that the gRPC protocol allows is read exactly, as long as
    it is at most 2562047 hours (292 years): no unit and no number of digits
    overflows the nanoseconds of a [time.Duration]. *)
Theorem timeout_exact `{MetadataLib} headers ds u nanos :
  grpc_timeout_digits ds -> unit_nanos u = Some nanos ->
  list.last (md_lookup headers "grpc-timeout") = Some (ds ++ String u EmptyString)%string ->
  (u = "H"%char -> timeout_value ds <= 2562047) ->
  timeoutFromHeaders headers = Some (timeout_value ds * nanos).
Proof.
  intros Hg Hu Hl Hh. rewrite (md_Get_timeout _ _ Hl), (parse_timeout_digits _ _ _ Hg Hu).
  f_equal. destruct (timeout_value_bound ds Hg) as [_ Hb]. apply i64_small.
  unfold MinInt64, MaxInt64. unfold unit_nanos in Hu.
  destruct (Ascii.eqb_spec u "H"%char) as [->|]; [specialize (Hh eq_refl)|]; step_cases; lia.
Qed.

(** Beyond that, a number of hours that the protocol allows overflows, and
    the handler gets another deadline than the client asked for. *)
Theorem timeout_hours_overflow `{MetadataLib} headers ds :
  grpc_timeout_digits ds ->
  list.last (md_lookup headers "grpc-timeout") = Some (ds ++ "H")%string ->
  2562047 < timeout_value ds ->
  exists d, timeoutFromHeaders headers = Some d /\
    d < timeout_value ds * 3600000000000 /\ MinInt64 <= d <= MaxInt64.
Proof.
  intros Hg Hl Hv. rewrite (md_Get_timeout _ _ Hl), (parse_timeout_digits _ _ 3600000000000 Hg) by done.
  eexists. split; [done|]. unfold i64, MinInt64, MaxInt64.
  pose proof (Z.mod_pos_bound (timeout_value ds * 3600000000000 + 9223372036854775808)
                18446744073709551616 ltac:(lia)). lia.
Qed.

(** ** Examples *)
Module TimeoutExample.
#[local] Existing Instance ExampleMetadata.lib.
Definition headers (v : string) : MD := Some {[ "grpc-timeout"%string := [v] ]}.

Example five_seconds : timeoutFromHeaders (headers "5S") = Some 5000000000.
Proof. vm_compute. reflexivity. Qed.
Example negative : timeoutFromHeaders (headers "-5S") = Some (-5000000000).
Proof. vm_compute. reflexivity. Qed.
Example no_unit : timeoutFromHeaders (headers "55") = None.
Proof. vm_compute. reflexivity. Qed.
Example many_hours : timeoutFromHeaders (headers "99999999H") = Some (-8934885074191032320).
Proof. vm_compute. reflexivity. Qed.
End TimeoutExample.

Lemma timeout_exact_witness :
  timeoutFromHeaders (H := ExampleMetadata.lib) (TimeoutExample.headers "250m") = Some (250 * 1000000).
Proof.
  apply (timeout_exact (H := ExampleMetadata.lib) (TimeoutExample.headers "250m") "250" "m" 1000000);
    [split; [reflexivity|simpl; lia]|reflexivity|vm_compute; reflexivity|discriminate].
Defined.

Lemma timeout_hours_overflow_witness :
  exists d, timeoutFromHeaders (H := ExampleMetadata.lib) (TimeoutExample.headers "99999999H") = Some d /\
    d < 99999999 * 3600000000000 /\ MinInt64 <= d <= MaxInt64.
Proof.
  apply (timeout_hours_overflow (H := ExampleMetadata.lib) (TimeoutExample.headers "99999999H") "99999999");
    [split; [reflexivity|simpl; lia]|vm_compute; reflexivity|vm_compute; reflexivity].
Defined.
