(* ===== verification/Dial.v ===== *)
(** * Blocking dial

    [BlockingDial] and [isTemporary] of internal/blocking_dial.go: the caller's
    goroutine, the goroutine that collects dial errors, and the calls that grpc makes
    of the dialer, any number of which can run at the same time, also after
    [BlockingDial] has returned.

    What the connection reports ([GetState], [WaitForStateChange]) and the result of
    dialing are arguments of the labels. *)
From stdpp Require Import gmap.
From S2P Require Import Prelude Status.

Inductive connectivity := Idle | Connecting | Ready | TransientFailure | Shutdown.
#[export] Instance connectivity_eq_dec : EqDecision connectivity.
Proof. solve_decision. Defined.

(** An error of [DialContext], with what its methods [Temporary] and [Timeout]
    return, if it has them. *)
Record dial_error := DialError {
  de_error : error;
  de_Temporary : option bool;
  de_Timeout : option bool;
}.

Definition isTemporary (err : dial_error) : bool :=
  match de_Temporary err with
  | Some b => b
  | None => match de_Timeout err with Some b => b | None => true end
  end.

(** ** State *)

(** The goroutine of [BlockingDial]: in [NewClient], before [GetState], in
    [WaitForStateChange], before it reads [dialErr], before each deferred call, or
    returned, with the connection or with nil and an error. *)
Inductive dial_result := DConn | DError (err : option error).

Inductive main_pc :=
  | MNewClient | MGetState | MWait (connState : connectivity) | MReadErr
  | MCloseDone (res : dial_result) | MCancel (res : dial_result) | MReturned (res : dial_result).

(** The collecting goroutine: not started, in its [select], before it stores an error,
    or returned. *)
Inductive collector_pc := CNone | CSelect | CStore (err : dial_error) | CExited.

(** A call of the dialer: in [DialContext], in its [select], after it, or returned. *)
Inductive dialer_pc := DlDialing | DlSelect (err : dial_error) | DlSent (err : dial_error) | DlReturned.

Record dial_conf := DialConf {
  bd_ctx : option error;                 (** the error of [ctx], once it is done *)
  bd_dialingDone : bool;                 (** it is closed *)
  bd_dialErrors : option dial_error;     (** the buffer *)
  bd_dialErr : option dial_error;
  bd_main : main_pc;
  bd_collector : collector_pc;
  bd_dialers : gmap Z dialer_pc;
}.

Definition BlockingDial : dial_conf := DialConf None false None None MNewClient CNone ∅.

Definition bset_main (pc : main_pc) (s : dial_conf) : dial_conf :=
  DialConf (bd_ctx s) (bd_dialingDone s) (bd_dialErrors s) (bd_dialErr s) pc (bd_collector s) (bd_dialers s).
Definition bset_collector (pc : collector_pc) (s : dial_conf) : dial_conf :=
  DialConf (bd_ctx s) (bd_dialingDone s) (bd_dialErrors s) (bd_dialErr s) (bd_main s) pc (bd_dialers s).
Definition bset_dialer (t : Z) (pc : dialer_pc) (s : dial_conf) : dial_conf :=
  DialConf (bd_ctx s) (bd_dialingDone s) (bd_dialErrors s) (bd_dialErr s) (bd_main s) (bd_collector s)
    (<[t := pc]> (bd_dialers s)).
Definition bset_buffer (b : option dial_error) (s : dial_conf) : dial_conf :=
  DialConf (bd_ctx s) (bd_dialingDone s) b (bd_dialErr s) (bd_main s) (bd_collector s) (bd_dialers s).
Definition bset_dialErr (err : dial_error) (s : dial_conf) : dial_conf :=
  DialConf (bd_ctx s) (bd_dialingDone s) (bd_dialErrors s) (Some err) (bd_main s) (bd_collector s) (bd_dialers s).
Definition bset_done (s : dial_conf) : dial_conf :=
  DialConf (bd_ctx s) true (bd_dialErrors s) (bd_dialErr s) (bd_main s) (bd_collector s) (bd_dialers s).

(** The context becomes done with [err], if it is not. *)
Definition done_with (err : error) (s : dial_conf) : dial_conf :=
  DialConf (Some (default err (bd_ctx s))) (bd_dialingDone s) (bd_dialErrors s) (bd_dialErr s) (bd_main s)
    (bd_collector s) (bd_dialers s).
Definition dial_cancel (s : dial_conf) : dial_conf := done_with ContextCanceled s.

(** ** Steps *)
Inductive main_label :=
  | MlClient (err : option error)          (** [NewClient] returns; then [Connect] *)
  | MlState (s : connectivity)
  | MlChanged (changed : bool)             (** [WaitForStateChange]; false only if [ctx] is done *)
  | MlGo.

Definition main_step (l : main_label) (s : dial_conf) : option dial_conf :=
  match l, bd_main s with
  | MlClient None, MNewClient => Some (bset_collector CSelect (bset_main MGetState s))
  | MlClient (Some err), MNewClient => Some (bset_main (MCloseDone (DError (Some err))) s)
  | MlState st, MGetState =>
      Some (bset_main (if decide (st = Ready) then MCloseDone DConn else MWait st) s)
  | MlChanged true, MWait _ => Some (bset_main MGetState s)
  | MlChanged false, MWait _ =>
      match bd_ctx s with Some _ => Some (bset_main MReadErr s) | None => None end
  | MlGo, MReadErr =>
      Some (bset_main (MCloseDone (DError (match bd_dialErr s with
                                           | Some err => Some (de_error err)
                                           | None => bd_ctx s
                                           end))) s)
  | MlGo, MCloseDone res => Some (bset_main (MCancel res) (bset_done s))
  | MlGo, MCancel res => Some (bset_main (MReturned res) (dial_cancel s))
  | _, _ => None
  end.

(** Which case a [select] takes. *)
Inductive choice := OnDialingDone | OnCtxDone | OnDialErrors.

Definition collector_step (ch : choice) (s : dial_conf) : option dial_conf :=
  match bd_collector s, ch with
  | CSelect, OnDialingDone => if bd_dialingDone s then Some (bset_collector CExited s) else None
  | CSelect, OnCtxDone => match bd_ctx s with Some _ => Some (bset_collector CExited s) | None => None end
  | CSelect, OnDialErrors =>
      match bd_dialErrors s with
      | Some err => Some (bset_collector (CStore err) (bset_buffer None s))
      | None => None
      end
  | _, _ => None
  end.

Definition dialer_step (t : Z) (ch : choice) (s : dial_conf) : option dial_conf :=
  match bd_dialers s !! t, ch with
  | Some (DlSelect err), OnDialingDone =>
      if bd_dialingDone s then Some (bset_dialer t (DlSent err) s) else None
  | Some (DlSelect err), OnDialErrors =>
      match bd_dialErrors s with
      | None => Some (bset_dialer t (DlSent err) (bset_buffer (Some err) s))
      | Some _ => None
      end
  | _, _ => None
  end.

Inductive dial_label :=
  | BMain (l : main_label)
  | BCollect (ch : choice) | BStore
  | BDial (t : Z)                                    (** grpc calls the dialer *)
  | BDialed (t : Z) (err : option dial_error)        (** [DialContext] returns *)
  | BDialer (t : Z) (ch : choice) | BDialerEnd (t : Z)
  | BCtx (err : error).                              (** the context of the caller is done *)

Definition dial_step (l : dial_label) (s : dial_conf) : option dial_conf :=
  match l with
  | BMain l => main_step l s
  | BCollect ch => collector_step ch s
  | BStore =>
      match bd_collector s with
      | CStore err => Some (bset_collector CSelect (bset_dialErr err s))
      | _ => None
      end
  | BDial t =>
      match bd_dialers s !! t, bd_collector s with
      | None, (CSelect | CStore _ | CExited) => Some (bset_dialer t DlDialing s)
      | _, _ => None
      end
  | BDialed t err =>
      match bd_dialers s !! t with
      | Some DlDialing => Some (bset_dialer t (match err with Some err => DlSelect err | None => DlReturned end) s)
      | _ => None
      end
  | BDialer t ch => dialer_step t ch s
  | BDialerEnd t =>
      match bd_dialers s !! t with
      | Some (DlSent err) => Some (bset_dialer t DlReturned (if isTemporary err then s else dial_cancel s))
      | _ => None
      end
  | BCtx err => match bd_ctx s with None => Some (done_with err s) | Some _ => None end
  end.

(** ** Invariant *)
Definition dial_failed (ls : list dial_label) (err : dial_error) : Prop := exists t, BDialed t (Some err) ∈ ls.

(** Why the context is done, before the deferred [cancel]. *)
Definition ctx_cause (ls : list dial_label) (e : error) : Prop :=
  BCtx e ∈ ls \/ (e = ContextCanceled /\ exists err, dial_failed ls err /\ isTemporary err = false).

Definition result_ok (ls : list dial_label) (res : dial_result) : Prop :=
  match res with
  | DConn => BMain (MlState Ready) ∈ ls
  | DError None => False
  | DError (Some e) =>
      BMain (MlClient (Some e)) ∈ ls \/ (exists err, dial_failed ls err /\ e = de_error err) \/ ctx_cause ls e
  end.

Definition main_ok (ls : list dial_label) (s : dial_conf) : Prop :=
  match bd_main s with
  | MNewClient => bd_collector s = CNone
  | MGetState | MWait _ => bd_collector s <> CNone
  | MReadErr => bd_ctx s <> None /\ bd_collector s <> CNone
  | MCloseDone res => result_ok ls res
  | MCancel res | MReturned res => result_ok ls res /\ bd_dialingDone s = true
  end.

Record dial_inv (ls : list dial_label) (s : dial_conf) : Prop := {
  di_buffer : forall err, bd_dialErrors s = Some err -> dial_failed ls err;
  di_stored : forall err, bd_dialErr s = Some err -> dial_failed ls err;
  di_store : forall err, bd_collector s = CStore err -> dial_failed ls err;
  di_dialers : forall t err, bd_dialers s !! t = Some (DlSelect err) \/ bd_dialers s !! t = Some (DlSent err) ->
    dial_failed ls err;
  di_ctx : forall e, bd_ctx s = Some e -> (forall res, bd_main s <> MReturned res) -> ctx_cause ls e;
  di_main : main_ok ls s;
}.

Lemma dial_inv_more ls ls' s : (forall l, l ∈ ls -> l ∈ ls') -> dial_inv ls s -> dial_inv ls' s.
Proof.
  intros Hin. assert (Hf : forall err, dial_failed ls err -> dial_failed ls' err).
  { intros err [t Ht]. exists t. by apply Hin. }
  assert (Hc : forall e, ctx_cause ls e -> ctx_cause ls' e).
  { intros e [He|[-> (err & He & Ht)]]; [left; by apply Hin|right; split; [done|]]. exists err. auto. }
  assert (Hr : forall res, result_ok ls res -> result_ok ls' res).
  { intros [|[e|]]; simpl; [apply Hin| |done]. intros [?|[(err & ? & ?)|?]]; [by left; apply Hin| |by auto].
    right. left. exists err. auto. }
  intros [H1 H2 H3 H4 H5 H6]. split; eauto.
  unfold main_ok in *. destruct (bd_main s); try done; [by auto|..]; (destruct H6; split; [by auto|done]).
Qed.

(** A step of another goroutine than that of [BlockingDial]. *)
Lemma main_ok_same ls s s' :
  bd_main s' = bd_main s -> (bd_collector s <> CNone -> bd_collector s' <> CNone) ->
  (bd_collector s = CNone -> bd_collector s' = CNone) ->
  (bd_ctx s <> None -> bd_ctx s' <> None) -> bd_dialingDone s' = bd_dialingDone s ->
  main_ok ls s -> main_ok ls s'.
Proof.
  unfold main_ok. intros -> H1 H2 H3 ->. destruct (bd_main s); try done; [intros [? ?]; by auto].
Qed.

Lemma dialers_set ls t pc s :
  (forall t err, bd_dialers s !! t = Some (DlSelect err) \/ bd_dialers s !! t = Some (DlSent err) -> dial_failed ls err) ->
  (forall err, pc = DlSelect err \/ pc = DlSent err -> dial_failed ls err) ->
  forall t' err, <[t := pc]> (bd_dialers s) !! t' = Some (DlSelect err) \/
    <[t := pc]> (bd_dialers s) !! t' = Some (DlSent err) -> dial_failed ls err.
Proof.
  intros Hs Hpc t' err. destruct (decide (t = t')) as [<-|Hne].
  - rewrite !lookup_insert_eq. intros [[= ->]|[= ->]]; apply Hpc; auto.
  - rewrite !lookup_insert_ne by done. apply Hs.
Qed.

Lemma main_step_inv ls l s s' : BMain l ∈ ls -> dial_inv ls s -> main_step l s = Some s' -> dial_inv ls s'.
Proof.
  intros Hl [H1 H2 H3 H4 H5 H6] Hs. unfold main_step in Hs. unfold main_ok in H6.
  destruct l as [[err|]|st|[|]|], (bd_main s) as [| |cs| |res|res|res] eqn:Hm; try done.
  - injection Hs as <-. split; simpl; try done; [intros e He _; by apply H5|]. by left.
  - injection Hs as <-. split; simpl; try done. intros e He _. by apply H5.
  - injection Hs as <-. split; simpl; try done; [intros e He _; by apply H5|]. unfold main_ok. simpl.
    destruct (decide (st = Ready)) as [->|]; [done|done].
  - injection Hs as <-. split; simpl; try done. intros e He _. by apply H5.
  - destruct (bd_ctx s) as [e|] eqn:Hc; [|done]. injection Hs as <-. split; simpl; try done.
    + rewrite Hc. intros e' [= <-] _. by apply H5.
    + unfold main_ok. simpl. by rewrite Hc.
  - injection Hs as <-. split; simpl; try done; [intros e He _; by apply H5|]. unfold main_ok, result_ok. simpl.
    destruct (bd_dialErr s) as [err|] eqn:Hd; [right; left; by eauto|].
    destruct (bd_ctx s) as [e|] eqn:Hc; [|by destruct H6]. right. right. by apply H5.
  - injection Hs as <-. split; simpl; try done. intros e He _. by apply H5.
  - injection Hs as <-. split; simpl; try done. intros e He Hr. by destruct (Hr res).
Qed.

Lemma dial_step_inv ls l s s' : l ∈ ls -> dial_inv ls s -> dial_step l s = Some s' -> dial_inv ls s'.
Proof.
  intros Hl Hinv Hs. destruct l as [l|ch| |t|t err|t ch|t|e]; cbn [dial_step] in Hs.
  { by eapply main_step_inv. }
  all: destruct Hinv as [H1 H2 H3 H4 H5 H6].
  - unfold collector_step in Hs. destruct (bd_collector s) as [| |err|] eqn:Hc; try done. destruct ch.
    + destruct (bd_dialingDone s); [|done]. injection Hs as <-. split; simpl; try done.
      by eapply main_ok_same; [..|exact H6]; rewrite ?Hc.
    + destruct (bd_ctx s) eqn:Hx; [|done]. injection Hs as <-. split; simpl; try done; [by rewrite Hx|].
      eapply main_ok_same; [..|exact H6]; by rewrite ?Hc.
    + destruct (bd_dialErrors s) as [err|] eqn:Hb; [|done]. injection Hs as <-. split; simpl; try done.
      * intros err' [= <-]. by apply H1.
      * eapply main_ok_same; [..|exact H6]; by rewrite ?Hc.
  - destruct (bd_collector s) as [| |err|] eqn:Hc; try done. injection Hs as <-. split; simpl; try done.
    + intros err' [= <-]. by apply H3.
    + eapply main_ok_same; [..|exact H6]; by rewrite ?Hc.
  - destruct (bd_dialers s !! t); [done|].
    assert (s' = bset_dialer t DlDialing s) as -> by (destruct (bd_collector s); congruence).
    split; simpl; try done. apply dialers_set; [done|]. by intros err [?|?].
  - destruct (bd_dialers s !! t) as [[]|] eqn:Ht; try done. injection Hs as <-. split; simpl; try done.
    apply dialers_set; [done|]. intros err' He. destruct err as [err|]; [|by destruct He].
    assert (err' = err) as -> by (destruct He; congruence). by exists t.
  - unfold dialer_step in Hs. destruct (bd_dialers s !! t) as [[|err|err|]|] eqn:Ht; try done.
    assert (Hf : dial_failed ls err) by (apply (H4 t); by left). destruct ch; [|done|].
    + destruct (bd_dialingDone s) eqn:Hd; [|done]. injection Hs as <-. split; simpl; try done.
      apply dialers_set; [done|]. intros err' [|[= <-]]; done.
    + destruct (bd_dialErrors s); [done|]. injection Hs as <-. split; simpl; try done.
      * by intros err' [= <-].
      * apply dialers_set; [done|]. intros err' [|[= <-]]; done.
  - destruct (bd_dialers s !! t) as [[|err|err|]|] eqn:Ht; try done. injection Hs as <-.
    assert (Hf : dial_failed ls err) by (apply (H4 t); by right).
    assert (Hd : forall m : gmap Z dialer_pc, m = bd_dialers s -> forall t' err,
      <[t := DlReturned]> m !! t' = Some (DlSelect err) \/ <[t := DlReturned]> m !! t' = Some (DlSent err) -> dial_failed ls err)
      by (intros m ->; apply dialers_set; [done|]; by intros err' [|]).
    destruct (isTemporary err) eqn:Hp; split; simpl; try done; try (by apply Hd).
    + intros e [= <-] Hm. destruct (bd_ctx s) as [e|]; simpl; [by apply H5|]. right. split; [done|]. by exists err.
    + by eapply main_ok_same; [..|exact H6].
  - destruct (bd_ctx s) eqn:Hc; [done|]. injection Hs as <-. split; simpl; try done.
    + rewrite Hc. simpl. intros e' [= <-] _. by left.
    + by eapply main_ok_same; [..|exact H6].
Qed.

Lemma dial_run_inv ls s : run dial_step ls BlockingDial = Some s -> dial_inv ls s.
Proof.
  apply (run_history dial_step dial_inv).
  - split; try done. simpl. by intros t err [|].
  - intros ls0 l s0 s1 Hinv Hs. eapply (dial_step_inv _ l s0); [|by eapply dial_inv_more; [|exact Hinv]; intros; apply elem_of_app; left|done].
    apply elem_of_app. right. apply list_elem_of_here.
Qed.

(** C37: What [BlockingDial] returns: a connection that has been ready; or nil with an
    error, and never nil without one: that of [NewClient], one that the dialer
    reported, the error with which the caller's context was done, or
    [context.Canceled] because the dialer failed for good. *)
Theorem dial_outcome ls s res :
  run dial_step ls BlockingDial = Some s -> bd_main s = MReturned res ->
  match res with
  | DConn => BMain (MlState Ready) ∈ ls
  | DError None => False
  | DError (Some e) =>
      BMain (MlClient (Some e)) ∈ ls \/ (exists t err, BDialed t (Some err) ∈ ls /\ e = de_error err) \/
      BCtx e ∈ ls \/
      e = ContextCanceled /\ exists t err, BDialed t (Some err) ∈ ls /\ isTemporary err = false
  end.
Proof.
  intros Hrun Hm. pose proof (di_main _ _ (dial_run_inv _ _ Hrun)) as Hok. unfold main_ok in Hok.
  rewrite Hm in Hok. destruct Hok as [Hok _]. destruct res as [|[e|]]; [done| |done].
  destruct Hok as [?|[(err & [t Ht] & ->)|[?|(-> & err & [t Ht] & Hp)]]]; eauto 10.
Qed.

(** The error that says why is not always returned.  When the dialer fails
    for good, [cancel] races with the goroutine that collects the error, and
    [BlockingDial] may return [context.Canceled] though the caller's context is not
    done and the only thing that has happened is that error. *)
Theorem dial_error_lost err :
  isTemporary err = false ->
  exists ls s, run dial_step ls BlockingDial = Some s /\
    bd_main s = MReturned (DError (Some ContextCanceled)) /\
    (forall e, BCtx e ∉ ls) /\ (forall t err', BDialed t (Some err') ∈ ls -> err' = err).
Proof.
  intros Hp.
  set (ls := [BMain (MlClient None); BMain (MlState Idle); BDial 1; BDialed 1 (Some err); BDialer 1 OnDialErrors;
    BDialerEnd 1; BMain (MlChanged false); BMain MlGo; BMain MlGo; BMain MlGo]).
  assert (exists s, run dial_step ls BlockingDial = Some s /\
    bd_main s = MReturned (DError (Some ContextCanceled))) as (s & Hs & Hm).
  { destruct err as [e [[]|] [[]|]]; try discriminate Hp; eexists; split; vm_compute; reflexivity. }
  exists ls, s. split_and!; [done|done| |].
  - intros e He. unfold ls in He. by repeat (apply elem_of_cons in He as [?|He]; [done|]); apply elem_of_nil in He.
  - intros t err' He. unfold ls in He. repeat (apply elem_of_cons in He as [He|He]; [congruence|]).
    by apply elem_of_nil in He.
Qed.

(** ** Nothing is left running *)
Definition collector_work (s : dial_conf) : Z :=
  match bd_collector s with CSelect => 1 | CStore _ => 2 | _ => 0 end + match bd_dialErrors s with Some _ => 2 | None => 0 end.
Definition dialer_work (pc : dialer_pc) : Z := match pc with DlSelect _ => 4 | DlSent _ => 1 | _ => 0 end.
Definition dial_work (s : dial_conf) : Z := collector_work s + map_sum dialer_work (bd_dialers s).

(** The steps of goroutines of this function that do not wait for the network. *)
Definition own_step (l : dial_label) (s : dial_conf) : option dial_conf :=
  match l with
  | BCollect _ | BStore | BDialer _ _ | BDialerEnd _ => dial_step l s
  | _ => None
  end.

Lemma dial_work_set t pc pc' s :
  bd_dialers s !! t = Some pc ->
  map_sum dialer_work (<[t := pc']> (bd_dialers s)) = map_sum dialer_work (bd_dialers s) - dialer_work pc + dialer_work pc'.
Proof. intros Ht. by rewrite (map_sum_update dialer_work (bd_dialers s) t pc pc' Ht). Qed.

Lemma dial_work_nonneg s : 0 <= dial_work s.
Proof.
  unfold dial_work, collector_work. assert (0 <= map_sum dialer_work (bd_dialers s)).
  { apply map_sum_nonneg. by intros t [] _. }
  destruct (bd_collector s), (bd_dialErrors s); lia.
Qed.

Lemma own_step_work l s s' : own_step l s = Some s' -> dial_work s' < dial_work s.
Proof.
  intros Hs. unfold dial_work, collector_work. destruct l as [l|ch| |t|t err|t ch|t|e]; cbn [own_step dial_step] in Hs; try done.
  - unfold collector_step in Hs. destruct (bd_collector s) eqn:Hc; try done. destruct ch.
    + destruct (bd_dialingDone s); [|done]. injection Hs as <-. simpl. lia.
    + destruct (bd_ctx s); [|done]. injection Hs as <-. simpl. lia.
    + destruct (bd_dialErrors s) eqn:Hb; [|done]. injection Hs as <-. simpl. lia.
  - destruct (bd_collector s) eqn:Hc; try done. injection Hs as <-. simpl. lia.
  - unfold dialer_step in Hs. destruct (bd_dialers s !! t) as [[|err|err|]|] eqn:Ht; try done. destruct ch; [|done|].
    + destruct (bd_dialingDone s); [|done]. injection Hs as <-. simpl. rewrite (dial_work_set _ _ _ _ Ht). simpl. lia.
    + destruct (bd_dialErrors s) eqn:Hb; [done|]. injection Hs as <-. simpl. rewrite (dial_work_set _ _ _ _ Ht). simpl. lia.
  - destruct (bd_dialers s !! t) as [[|err|err|]|] eqn:Ht; try done. injection Hs as <-.
    destruct (isTemporary err); simpl; rewrite (dial_work_set _ _ _ _ Ht); simpl; lia.
Qed.

(** [BlockingDial] leaves nothing running but grpc's own dialing.  From any moment
    the collecting goroutine and the calls of the dialer that have their result take
    boundedly many steps; and once [BlockingDial] has returned, when none of them can
    take a step the collecting goroutine has returned and every such call too,
    so none of them waits for ever on the channel. *)
Theorem dial_leaves_nothing ls s :
  run dial_step ls BlockingDial = Some s ->
  (forall ks s', run own_step ks s = Some s' -> len ks <= dial_work s) /\
  forall res, bd_main s = MReturned res -> (forall l, own_step l s = None) ->
    (bd_collector s = CExited \/ bd_collector s = CNone) /\
    forall t pc, bd_dialers s !! t = Some pc -> pc = DlDialing \/ pc = DlReturned.
Proof.
  intros Hrun. split.
  - intros ks s' Hk.
    pose proof (run_bounded own_step (fun _ => True) dial_work) as Hb.
    specialize (Hb ltac:(intros l s1 s2 _ Hl; split; [done|]; pose proof (own_step_work _ _ _ Hl); pose proof (dial_work_nonneg s2); lia)
      ks s s' I (dial_work_nonneg s) Hk). pose proof (dial_work_nonneg s'). lia.
  - intros res Hm Hstuck. pose proof (di_main _ _ (dial_run_inv _ _ Hrun)) as Hok. unfold main_ok in Hok.
    rewrite Hm in Hok. destruct Hok as [_ Hd]. split.
    + pose proof (Hstuck (BCollect OnDialingDone)) as H1. pose proof (Hstuck BStore) as H2.
      cbn [own_step dial_step] in H1, H2. unfold collector_step in H1. rewrite Hd in H1.
      destruct (bd_collector s); try done; auto.
    + intros t pc Ht. pose proof (Hstuck (BDialer t OnDialingDone)) as H1. pose proof (Hstuck (BDialerEnd t)) as H2.
      cbn [own_step dial_step] in H1, H2. unfold dialer_step in H1. rewrite Ht, ?Hd in H1. rewrite Ht in H2.
      destruct pc; try done; auto.
Qed.

(** ** Examples: a refused connection, which the collecting goroutine records in time. *)
Module DialExample.
Definition refused : dial_error := DialError (Opaque "connection refused") (Some false) (Some false).
Definition trace : list dial_label :=
  [BMain (MlClient None); BMain (MlState Connecting); BDial 1; BDialed 1 (Some refused); BDialer 1 OnDialErrors;
   BCollect OnDialErrors; BStore; BDialerEnd 1; BMain (MlChanged true); BMain (MlState TransientFailure);
   BCollect OnCtxDone; BMain (MlChanged false); BMain MlGo; BMain MlGo; BMain MlGo].
Definition at_end : dial_conf := default BlockingDial (run dial_step trace BlockingDial).
End DialExample.

Lemma dial_outcome_witness :
  bd_main DialExample.at_end = MReturned (DError (Some (Opaque "connection refused"))) /\
  (BMain (MlClient (Some (Opaque "connection refused"))) ∈ DialExample.trace \/
   (exists t err, BDialed t (Some err) ∈ DialExample.trace /\ Opaque "connection refused" = de_error err) \/
   BCtx (Opaque "connection refused") ∈ DialExample.trace \/
   Opaque "connection refused" = ContextCanceled /\
   exists t err, BDialed t (Some err) ∈ DialExample.trace /\ isTemporary err = false).
Proof.
  split; [vm_compute; reflexivity|].
  exact (dial_outcome DialExample.trace DialExample.at_end (DError (Some (Opaque "connection refused")))
    ltac:(vm_compute; reflexivity) ltac:(vm_compute; reflexivity)).
Defined.

Lemma dial_error_lost_witness :
  isTemporary DialExample.refused = false /\
  exists ls s, run dial_step ls BlockingDial = Some s /\ bd_main s = MReturned (DError (Some ContextCanceled)).
Proof.
  split; [reflexivity|].
  destruct (dial_error_lost DialExample.refused ltac:(reflexivity)) as (ls & s & H1 & H2 & _). by exists ls, s.
Defined.

Lemma dial_leaves_nothing_witness :
  bd_collector DialExample.at_end = CExited \/ bd_collector DialExample.at_end = CNone.
Proof.
  refine (proj1 (proj2 (dial_leaves_nothing DialExample.trace DialExample.at_end ltac:(vm_compute; reflexivity))
    (DError (Some (Opaque "connection refused"))) ltac:(vm_compute; reflexivity) _)).
  intros [l|[| |]| |t|t err|t [| |]|t|e]; try reflexivity; cbn [own_step dial_step]; unfold dialer_step;
    change (bd_dialers DialExample.at_end) with ({[1 := DlReturned]} : gmap Z dialer_pc);
    destruct (decide (t = 1)) as [->|Hne]; try reflexivity; by rewrite lookup_singleton_ne by congruence.
Defined.
