(* ===== verification/Batch.v ===== *)
(** * The batches of the test client

    internal/client_batch.go: [SendRPCs] with its five goroutines, and the five kinds
    of RPCs that they send again and again.

    The calls of the generated stub are not modelled; an action is what it does with
    their results.  The group of golang.org/x/sync is an argument. *)
From stdpp Require Import gmap.
From S2P Require Import Prelude Status.

(** ** The actions *)

(** The call that an action is in; the counters are those of its loops. *)
Inductive action_pc :=
  | UnaryCall                                     (** doUnary: [client.Unary] *)
  | CsOpen | CsSend (i : Z) | CsCloseAndRecv      (** doClientStream *)
  | SsOpen | SsRecv                               (** doServerStream *)
  | BsOpen | BsRecv                               (** doBidiStream, without its goroutine *)
  | EmOpen | EmSend (i : Z) | EmCloseAndRecv | EmTwice (i : Z).   (** doEmpty *)

Inductive action := doUnary | doClientStream | doServerStream | doBidiStream | doEmpty.
#[export] Instance action_eq_dec : EqDecision action.
Proof. solve_decision. Defined.

Definition actions : list action := [doUnary; doClientStream; doServerStream; doBidiStream; doEmpty].

Definition action_begin (fn : action) : action_pc :=
  match fn with
  | doUnary => UnaryCall
  | doClientStream => CsOpen
  | doServerStream => SsOpen
  | doBidiStream => BsOpen
  | doEmpty => EmOpen
  end.

(** [for range n]: the next round of a loop in which round [i] is over. *)
Definition next_round (n i : Z) (again after : action_pc + option error) : action_pc + option error :=
  if i + 1 <? n then again else after.

(** The results of [Send]: [io.EOF] ends the loop. *)
Definition after_Send (n i : Z) (send : Z -> action_pc) (close : action_pc) (err : option error)
    : action_pc + option error :=
  match err with
  | Some e => if is_EOF e then inl close else inr (Some e)
  | None => next_round n i (inl (send (i + 1))) (inl close)
  end.

(** The results of [Recv]: [io.EOF] is the end. *)
Definition after_Recv (recv : action_pc) (err : option error) : action_pc + option error :=
  match err with
  | Some e => if is_EOF e then inr None else inr (Some e)
  | None => inl recv
  end.

Definition unless (err : option error) (next : action_pc + option error) : action_pc + option error :=
  match err with Some e => inr (Some e) | None => next end.

(** The call has returned [err]: the next call, or the return of the action. *)
Definition action_next (pc : action_pc) (err : option error) : action_pc + option error :=
  match pc with
  | UnaryCall => inr err
  | CsOpen => unless err (inl (CsSend 0))
  | CsSend i => after_Send 10 i CsSend CsCloseAndRecv err
  | CsCloseAndRecv => inr err
  | SsOpen => unless err (inl SsRecv)
  | SsRecv => after_Recv SsRecv err
  | BsOpen => unless err (inl BsRecv)
  | BsRecv => after_Recv BsRecv err
  | EmOpen => unless err (inl (EmSend 0))
  | EmSend i => after_Send 100 i EmSend EmCloseAndRecv err
  | EmCloseAndRecv => unless err (inl (EmTwice 0))
  | EmTwice i => unless err (next_round 10 i (inl (EmTwice (i + 1))) (inr None))
  end.

(** The goroutine of [doBidiStream]: in a [Send], in [CloseSend], or returned. *)
Inductive sender_pc := BgSend (i : Z) | BgCloseSend | BgReturned.

Definition bidi_next (pc : sender_pc) (err : option error) : sender_pc :=
  match pc with
  | BgSend i =>
      match err with
      | Some _ => BgReturned
      | None => if i + 1 <? 10 then BgSend (i + 1) else BgCloseSend
      end
  | _ => BgReturned
  end.

(** An action on the results of its calls, one after the other. *)
Fixpoint perform (pc : action_pc) (results : list (option error)) : action_pc + option error :=
  match results with
  | [] => inl pc
  | err :: results =>
      match action_next pc err with
      | inl pc => perform pc results
      | inr out => inr out
      end
  end.

(** *** The outcome of doClientStream *)

(** [k] messages are sent, and all of them or the end of the stream, then the status. *)
Definition sent_then_status (m k : nat) (rest : list (option error)) : Prop :=
  (k = m /\ exists more, rest = None :: more) \/ ((k < m)%nat /\ exists more, rest = Some EOF :: None :: more).

Lemma close_nil rs : perform CsCloseAndRecv rs = inr None <-> exists more, rs = None :: more.
Proof.
  destruct rs as [|[e|] rs]; simpl; (split; [|intros [? ?]; congruence]); [done|done|]. intros _. by exists rs.
Qed.

Lemma send_loop_nil m i rs :
  i + Z.of_nat m = 10 -> (0 < m)%nat ->
  perform (CsSend i) rs = inr None <-> exists k rest, rs = replicate k None ++ rest /\ sent_then_status m k rest.
Proof.
  revert i rs. induction m as [|m IH]; intros i rs Hi Hm; [lia|].
  destruct rs as [|[e|] rs].
  - simpl. split; [done|]. intros (k & rest & Hrs & Hst). symmetry in Hrs. apply app_eq_nil in Hrs as [_ ->].
    by destruct Hst as [(_ & more & ?)|(_ & more & ?)].
  - simpl. split.
    + destruct e; simpl; try done. intros (more & ->)%close_nil. exists 0%nat, (Some EOF :: None :: more).
      split; [done|]. right. split; [lia|]. by exists more.
    + intros ([|k] & rest & Hrs & [(Hk & more & ->)|(_ & more & ->)]); simplify_eq/=. done.
  - cbn [perform action_next after_Send]. unfold next_round. destruct m as [|m].
    + replace (i + 1 <? 10) with false by (symmetry; apply Z.ltb_ge; lia). rewrite close_nil. split.
      * intros (more & ->). exists 1%nat, (None :: more). split; [done|]. left. split; [done|]. by exists more.
      * intros ([|k] & rest & Hrs & [(Hk & more & ->)|(Hk & more & ->)]); simplify_eq/=; [|lia]. by exists more.
    + replace (i + 1 <? 10) with true by (symmetry; apply Z.ltb_lt; lia). rewrite IH by lia. split.
      * intros (k & rest & -> & Hst). exists (S k), rest. split; [done|].
        destruct Hst as [[-> ?]|[? ?]]; [by left|right]. split; [lia|done].
      * intros ([|k] & rest & Hrs & Hst).
        { destruct Hst as [(? & _)|(_ & more & ->)]; [done|]. by simplify_eq/=. }
        simplify_eq/=. exists k, rest. split; [done|].
        destruct Hst as [[? ?]|[? ?]]; [left; split; [lia|done]|right; split; [lia|done]].
Qed.

(** It returns nil exactly when the stream opens, all messages are sent or the server
    ends the stream before, and the status is OK in either case. *)
Theorem doClientStream_nil results :
  perform (action_begin doClientStream) results = inr None <->
  exists k rest, results = None :: replicate k None ++ rest /\ sent_then_status 10 k rest.
Proof.
  destruct results as [|[e|] results]; simpl.
  - split; [done|]. intros (k & rest & Hrs & _). done.
  - split; [done|]. intros (k & rest & Hrs & _). done.
  - rewrite (send_loop_nil 10) by lia. split.
    + intros (k & rest & -> & Hst). by exists k, rest.
    + intros (k & rest & Hrs & Hst). exists k, rest. by simplify_eq.
Qed.

(** ** SendRPCs *)

(** [errgroup.Group]: the error that [Wait] returns is that of the first function that
    has returned one. *)
Class ErrGroup := {
  group : Type;
  group_new : group;
  group_returned : option error -> group -> group;   (** a function of the group returns *)
  group_err : group -> option error;
  group_err_new : group_err group_new = None;
  group_err_returned e g :
    group_err (group_returned e g) = match group_err g with Some e' => Some e' | None => e end;
}.

Section SendRPCs.
Context `{ErrGroup}.

(** A goroutine of the group: before [done.Load], in a call of its action, or
    returned. *)
Inductive worker_pc := WkLoad | WkCall (pc : action_pc) | WkReturned.

(** [SendRPCs]: in [Sleep], before [AfterFunc], in [Wait], or returned. *)
Inductive batch_pc := BpSleep | BpStored | BpWait | BpReturned (res : option error).

Record batch := Batch {
  ba_done : bool;
  ba_cancelled : bool;                (** the context of the RPCs is cancelled *)
  ba_timer : bool;                    (** of [AfterFunc] *)
  ba_grp : group;
  ba_workers : action -> worker_pc;
  ba_senders : list sender_pc;        (** the goroutines of [doBidiStream] *)
  ba_main : batch_pc;
}.

Definition SendRPCs : batch := Batch false false false group_new (fun _ => WkLoad) [] BpSleep.

Definition set_worker (fn : action) (w : worker_pc) (b : batch) : batch :=
  Batch (ba_done b) (ba_cancelled b) (ba_timer b) (ba_grp b)
    (fun fn' => if decide (fn' = fn) then w else ba_workers b fn') (ba_senders b) (ba_main b).
(** The function of a goroutine returns; an error cancels the context of the group. *)
Definition set_returned (fn : action) (err : option error) (b : batch) : batch :=
  let b := set_worker fn WkReturned b in
  Batch (ba_done b) (match err with Some _ => true | None => ba_cancelled b end) (ba_timer b)
    (group_returned err (ba_grp b)) (ba_workers b) (ba_senders b) (ba_main b).
Definition set_senders (l : list sender_pc) (b : batch) : batch :=
  Batch (ba_done b) (ba_cancelled b) (ba_timer b) (ba_grp b) (ba_workers b) l (ba_main b).
Definition set_main (done cancelled timer : bool) (pc : batch_pc) (b : batch) : batch :=
  Batch done cancelled timer (ba_grp b) (ba_workers b) (ba_senders b) pc.

Inductive batch_label :=
  | BaLoad (fn : action)
  | BaResult (fn : action) (err : option error)     (** the call returns *)
  | BaSender (i : nat) (err : option error)
  | BaMain | BaTimer
  | BaCancelled.                                    (** the context of the caller is done *)

Definition is_returned (w : worker_pc) : bool := match w with WkReturned => true | _ => false end.

Definition worker_result (fn : action) (pc : action_pc) (err : option error) (b : batch) : batch :=
  match action_next pc err with
  | inl pc' =>
      let b := match pc, pc' with
               | BsOpen, BsRecv => set_senders (ba_senders b ++ [BgSend 0]) b
               | _, _ => b
               end in
      set_worker fn (WkCall pc') b
  | inr None => set_worker fn WkLoad b
  | inr (Some e) => set_returned fn (Some e) b
  end.

Definition batch_step (l : batch_label) (b : batch) : option batch :=
  match l with
  | BaLoad fn =>
      match ba_workers b fn with
      | WkLoad => Some (if ba_done b then set_returned fn None b else set_worker fn (WkCall (action_begin fn)) b)
      | _ => None
      end
  | BaResult fn err =>
      match ba_workers b fn with WkCall pc => Some (worker_result fn pc err b) | _ => None end
  | BaSender i err =>
      match ba_senders b !! i with
      | Some BgReturned | None => None
      | Some pc => Some (set_senders (<[i := bidi_next pc err]> (ba_senders b)) b)
      end
  | BaMain =>
      match ba_main b with
      | BpSleep => Some (set_main true (ba_cancelled b) (ba_timer b) BpStored b)
      | BpStored => Some (set_main (ba_done b) (ba_cancelled b) true BpWait b)
      | BpWait =>
          if forallb (fun fn => is_returned (ba_workers b fn)) actions
          then Some (set_main (ba_done b) true (ba_timer b) (BpReturned (group_err (ba_grp b))) b)
          else None
      | BpReturned _ => None
      end
  | BaTimer => if ba_timer b then Some (set_main (ba_done b) true false (ba_main b) b) else None
  | BaCancelled => Some (set_main (ba_done b) true (ba_timer b) (ba_main b) b)
  end.

(** ** What it returns *)

(** The error with which an action fails in a step. *)
Definition failure (l : batch_label) (b : batch) : option error :=
  match l with
  | BaResult fn err =>
      match ba_workers b fn with
      | WkCall pc => match action_next pc err with inr (Some e) => Some e | _ => None end
      | _ => None
      end
  | _ => None
  end.

Fixpoint failures (ls : list batch_label) (b : batch) : list error :=
  match ls with
  | [] => []
  | l :: ls =>
      option_list (failure l b) ++ match batch_step l b with Some b' => failures ls b' | None => [] end
  end.

Definition main_right (b : batch) : Prop :=
  match ba_main b with
  | BpSleep => True
  | BpStored | BpWait => ba_done b = true
  | BpReturned res =>
      ba_done b = true /\ res = group_err (ba_grp b) /\ forall fn, ba_workers b fn = WkReturned
  end.

Lemma all_actions fn : fn ∈ actions.
Proof. destruct fn; unfold actions; rewrite !elem_of_cons; tauto. Qed.

Lemma step_group l b b' :
  batch_step l b = Some b' ->
  group_err (ba_grp b') = match group_err (ba_grp b) with Some e => Some e | None => failure l b end.
Proof.
  intros Hs. destruct l as [fn|fn err|i err| | |]; cbn [batch_step failure] in *.
  - destruct (ba_workers b fn); [|done..]. injection Hs as <-. destruct (ba_done b); simpl; rewrite ?group_err_returned; by case_match.
  - destruct (ba_workers b fn) as [|pc|]; [done| |done]. injection Hs as <-. unfold worker_result.
    destruct (action_next pc err) as [pc'|[e|]]; simpl; [|by rewrite group_err_returned|by case_match].
    destruct (group_err (ba_grp b)) eqn:E; destruct pc, pc'; simpl; by rewrite E.
  - destruct (ba_senders b !! i) as [[]|]; try done; injection Hs as <-; simpl; by case_match.
  - destruct (ba_main b); [..|done]; [| |destruct (forallb _ _); [|done]]; injection Hs as <-; simpl; by case_match.
  - destruct (ba_timer b); [|done]. injection Hs as <-. simpl. by case_match.
  - injection Hs as <-. simpl. by case_match.
Qed.

Lemma worker_result_others fn pc err b :
  ba_main (worker_result fn pc err b) = ba_main b /\ ba_done (worker_result fn pc err b) = ba_done b.
Proof. unfold worker_result. destruct (action_next pc err) as [pc'|[e|]]; [|done..]. by destruct pc, pc'. Qed.

Lemma step_main_right l b b' : main_right b -> batch_step l b = Some b' -> main_right b'.
Proof.
  intros Hm Hs. unfold main_right in *. destruct l as [fn|fn err|i err| | |]; cbn [batch_step] in Hs.
  - destruct (ba_workers b fn) eqn:Hw; [|done..]. injection Hs as <-.
    destruct (ba_done b) eqn:Hd; simpl; (destruct (ba_main b); [done|done..|]); destruct Hm as (_ & _ & Hall); congruence.
  - destruct (ba_workers b fn) as [|pc|] eqn:Hw; [done| |done]. injection Hs as <-.
    destruct (worker_result_others fn pc err b) as [-> ->].
    destruct (ba_main b); [done..|]. destruct Hm as (_ & _ & Hall). congruence.
  - destruct (ba_senders b !! i) as [[]|]; try done; by injection Hs as <-.
  - destruct (ba_main b) eqn:Hb; [injection Hs as <-; done|injection Hs as <-; done| |done].
    destruct (forallb _ _) eqn:Hall; [|done]. injection Hs as <-. simpl. split_and!; [done|done|].
    intros fn. rewrite forallb_forall in Hall. specialize (Hall fn (proj1 (list_elem_of_In _ _) (all_actions fn))).
    by destruct (ba_workers b fn).
  - destruct (ba_timer b); [|done]. by injection Hs as <-.
  - by injection Hs as <-.
Qed.

Lemma run_group ls b b' :
  run batch_step ls b = Some b' ->
  group_err (ba_grp b') = match group_err (ba_grp b) with Some e => Some e | None => head (failures ls b) end.
Proof.
  revert b. induction ls as [|l ls IH]; intros b Hrun; simpl in Hrun |- *.
  - injection Hrun as <-. by case_match.
  - destruct (batch_step l b) as [b1|] eqn:Hs; [|done]. rewrite (IH _ Hrun), (step_group _ _ _ Hs).
    destruct (group_err (ba_grp b)); [done|]. by destruct (failure l b).
Qed.

(** [SendRPCs] returns the error of the first action that failed, and nil if none did;
    by then all goroutines of the group have returned. *)
Theorem batch_outcome ls b res :
  run batch_step ls SendRPCs = Some b -> ba_main b = BpReturned res ->
  res = head (failures ls SendRPCs) /\ forall fn, ba_workers b fn = WkReturned.
Proof.
  intros Hrun Hm.
  assert (Hr : main_right b).
  { apply (run_history batch_step (fun _ => main_right) SendRPCs) in Hrun; [done|done|]. intros ?????. by apply step_main_right. }
  unfold main_right in Hr. rewrite Hm in Hr. destruct Hr as (_ & -> & Hall). split; [|done].
  rewrite (run_group _ _ _ Hrun). simpl. by rewrite group_err_new.
Qed.

(** ** After [done] is set *)
Definition idle_worker (w : worker_pc) : bool := match w with WkCall _ => false | _ => true end.

(** No action is begun any more. *)
Theorem batch_done ls b b' fn :
  ba_done b = true -> run batch_step ls b = Some b' -> idle_worker (ba_workers b fn) = true ->
  ba_done b' = true /\ idle_worker (ba_workers b' fn) = true /\ forall err, BaResult fn err ∉ ls.
Proof.
  revert b. induction ls as [|l ls IH]; intros b Hd Hrun Hi; simpl in Hrun.
  { injection Hrun as <-. split_and!; [done|done|]. intros err. apply not_elem_of_nil. }
  destruct (batch_step l b) as [b1|] eqn:Hs; [|done].
  assert (ba_done b1 = true /\ idle_worker (ba_workers b1 fn) = true /\ forall err, l <> BaResult fn err) as (H1 & H2 & H3).
  { destruct l as [fn'|fn' err|i err| | |]; cbn [batch_step] in Hs.
    - destruct (ba_workers b fn'); [|done..]. injection Hs as <-. rewrite Hd. simpl. by case_decide.
    - destruct (ba_workers b fn') as [|pc|] eqn:Hw; [done| |done]. injection Hs as <-.
      assert (fn' <> fn) as Hne by (intros ->; by rewrite Hw in Hi).
      destruct (worker_result_others fn' pc err b) as [_ ->]. split_and!; [done| |congruence].
      unfold worker_result. destruct (action_next pc err) as [pc'|[e|]]; [destruct pc, pc'| |]; simpl;
        by rewrite decide_False by done.
    - destruct (ba_senders b !! i) as [[]|]; try done; by injection Hs as <-.
    - destruct (ba_main b); [..|done]; [| |destruct (forallb _ _); [|done]]; by injection Hs as <-.
    - destruct (ba_timer b); [|done]. by injection Hs as <-.
    - by injection Hs as <-. }
  destruct (IH _ H1 Hrun H2) as (H4 & H5 & H6). split_and!; [done|done|].
  intros err [?|?]%elem_of_cons; [by eapply H3|by eapply H6].
Qed.
End SendRPCs.

(** ** Example: two actions fail, the other goroutines end after [done]. *)
Module BatchExample.
#[export] Program Instance lib : ErrGroup := {|
  group := option error;
  group_new := None;
  group_returned e g := match g with Some e' => Some e' | None => e end;
  group_err g := g;
|}.
Next Obligation. done. Qed.
Next Obligation. by intros e [e'|]. Qed.

Definition trace : list batch_label :=
  [BaLoad doUnary; BaResult doUnary None; BaLoad doUnary; BaResult doUnary (Some (Opaque "first"));
   BaLoad doBidiStream; BaResult doBidiStream None; BaSender 0 None; BaResult doBidiStream None;
   BaLoad doEmpty; BaResult doEmpty (Some (Opaque "second")); BaMain; BaMain;
   BaResult doBidiStream (Some EOF); BaLoad doBidiStream; BaLoad doClientStream; BaLoad doServerStream; BaMain].

Example first_failure : ba_main <$> run batch_step trace SendRPCs = Some (BpReturned (Some (Opaque "first"))).
Proof. vm_compute. reflexivity. Qed.
End BatchExample.
