(* ===== verification/ServerStream.v ===== *)
(** * Streams of the tunnel server

    [tunnelServerStream] of tunnel_server.go: one RPC that the server runs.  Its
    methods are called by the receive loop of the tunnel, by the goroutines of
    the handler and by two goroutines of its own.  First the operations, each as
    the code between two points where the goroutine can be stopped; then the
    stream with the goroutines around it, whose actions interleave freely.

    A context is its error: [c_ctx] of the sender is [st.ctx.Err()].  The mutex
    [writeMu] is held between two actions only by a [SendMsg] that is inside
    [sender.send], so it is free exactly when the sender has no call. *)
From S2P Require Import Prelude Status Protocol FlowSender FlowReceiver Reassembly.

Record server_stream := ServerStream {
  ss_streamID : Z;
  ss_method : string;
  ss_isClientStream : bool;
  ss_isServerStream : bool;
  ss_send : send_conf;
  ss_receiver : receiver ClientToServerFrame;
  ss_halfClosed : option error;
  ss_readErr : option error;
  ss_numSent : Z;
  ss_headers : MD;
  ss_trailers : MD;
  ss_sentHeaders : bool;
  ss_closed : bool;
}.

Definition with_send (c : send_conf) (st : server_stream) : server_stream :=
  ServerStream (ss_streamID st) (ss_method st) (ss_isClientStream st) (ss_isServerStream st)
    c (ss_receiver st) (ss_halfClosed st) (ss_readErr st) (ss_numSent st) (ss_headers st)
    (ss_trailers st) (ss_sentHeaders st) (ss_closed st).
Definition with_receiver (r : receiver ClientToServerFrame) (st : server_stream) : server_stream :=
  ServerStream (ss_streamID st) (ss_method st) (ss_isClientStream st) (ss_isServerStream st)
    (ss_send st) r (ss_halfClosed st) (ss_readErr st) (ss_numSent st) (ss_headers st)
    (ss_trailers st) (ss_sentHeaders st) (ss_closed st).
Definition with_halfClosed (e : error) (st : server_stream) : server_stream :=
  ServerStream (ss_streamID st) (ss_method st) (ss_isClientStream st) (ss_isServerStream st)
    (ss_send st) (ss_receiver st) (Some e) (ss_readErr st) (ss_numSent st) (ss_headers st)
    (ss_trailers st) (ss_sentHeaders st) (ss_closed st).
Definition with_reader (rs : read_state) (st : server_stream) : server_stream :=
  ServerStream (ss_streamID st) (ss_method st) (ss_isClientStream st) (ss_isServerStream st)
    (ss_send st) (rs_recv rs) (ss_halfClosed st) (rs_readErr rs) (ss_numSent st) (ss_headers st)
    (ss_trailers st) (ss_sentHeaders st) (ss_closed st).
Definition with_numSent (n : Z) (st : server_stream) : server_stream :=
  ServerStream (ss_streamID st) (ss_method st) (ss_isClientStream st) (ss_isServerStream st)
    (ss_send st) (ss_receiver st) (ss_halfClosed st) (ss_readErr st) n (ss_headers st)
    (ss_trailers st) (ss_sentHeaders st) (ss_closed st).
Definition with_headers (md : MD) (sent : bool) (st : server_stream) : server_stream :=
  ServerStream (ss_streamID st) (ss_method st) (ss_isClientStream st) (ss_isServerStream st)
    (ss_send st) (ss_receiver st) (ss_halfClosed st) (ss_readErr st) (ss_numSent st) md
    (ss_trailers st) sent (ss_closed st).
Definition with_trailers (md : MD) (closed : bool) (st : server_stream) : server_stream :=
  ServerStream (ss_streamID st) (ss_method st) (ss_isClientStream st) (ss_isServerStream st)
    (ss_send st) (ss_receiver st) (ss_halfClosed st) (ss_readErr st) (ss_numSent st)
    (ss_headers st) md (ss_sentHeaders st) closed.

(** [ctx.Err()]. *)
Definition ss_ctxErr (st : server_stream) : option error := c_ctx (ss_send st).

(** ** Operations *)
Section Operations.
Context `{StatusLib} `{MetadataLib}.

Definition headers_frame (md : MD) : ServerToClientFrame :=
  ServerToClient_ResponseHeaders (Some (toProto md)).

(** An operation that runs to its end under [writeMu]: the stream after it,
    the frames given to [stream.Send] and the error returned.  [sendErr] is
    the result of [stream.Send]. *)
Definition sendHeadersLocked (sendErr : option error) (st : server_stream)
    : server_stream * list ServerToClientFrame * option error :=
  (with_headers None true st, [headers_frame (ss_headers st)], sendErr).

Definition setHeader (md : MD) (send : bool) (sendErr : option error) (st : server_stream)
    : server_stream * list ServerToClientFrame * option error :=
  if ss_sentHeaders st then (st, [], Some (ErrorsNew "already sent headers"))
  else
    let st := match md with
              | Some _ => with_headers (md_Join (ss_headers st) md) false st
              | None => st
              end in
    if send then sendHeadersLocked sendErr st else (st, [], None).

Definition setTrailer (md : MD) (st : server_stream) : server_stream * option error :=
  if ss_closed st then (st, Some (ErrorsNew "already finished"))
  else (with_trailers (md_Join (ss_trailers st) md) false st, None).

(** [SendMsg] up to its call of [sender.send]; [marshalled] is the result of
    [proto.Marshal]. *)
Definition SendMsg_begin (sendErr : option error) (marshalled : error + bytes) (st : server_stream)
    : server_stream * list ServerToClientFrame * (error + bytes) :=
  let '(st, fs, err) :=
    if ss_sentHeaders st then (st, [], None) else sendHeadersLocked sendErr st in
  match err with
  | Some e => (st, fs, inl e)
  | None =>
      if negb (ss_isServerStream st) && (ss_numSent st =? 1)
      then (st, fs, inl (Errorf Internal
              "Already sent response for non-server-stream method %s" [AStr (ss_method st)]))
      else
        let st := with_numSent (ss_numSent st +u 1) st in
        match marshalled with
        | inl e => (st, fs, inl e)
        | inr b =>
            if len b >? MaxUint32 then (st, fs, inl (too_large (len b))) else (st, fs, inr b)
        end
  end.

Definition halfClose (err : option error) (st : server_stream) : server_stream :=
  let err := match err with Some e => e | None => EOF end in
  match ss_halfClosed st with
  | None => with_receiver (close (ss_receiver st)) (with_halfClosed err st)
  | Some _ => st
  end.

(** [finishStream] before it takes [writeMu] ... *)
Definition finishStream_begin (err : option error) (st : server_stream) : server_stream :=
  halfClose err (with_send (cancel_ctx ContextCanceled (ss_send st)) st).

(** ... and under it: the frames are those of the goroutine it starts. *)
Definition finishStream_end (err : option error) (st : server_stream)
    : server_stream * list ServerToClientFrame :=
  if ss_closed st then (st, [])
  else
    let stat := fst (FromError err) in
    let sendHeaders := negb (ss_sentHeaders st) in
    let frames :=
      (if sendHeaders then [headers_frame (ss_headers st)] else []) ++
      [ServerToClient_CloseStream
         {| ResponseTrailers := Some (toProto (ss_trailers st)); CloseStatus := stat |}] in
    let st := if sendHeaders then with_headers None true st else st in
    (with_trailers None true st, frames).

(** [acceptClientFrame]: what it does to the stream at once, and the call of
    [finishStream] or the amount of the window update that it goes on with. *)
Inductive accept_then := ADone | AFinish (err : option error) | AUpdate (add : Z).

Definition acceptClientFrame (frame : option ClientToServerFrame) (st : server_stream)
    : server_stream * accept_then :=
  match frame with
  | Some ClientToServer_HalfClose => (halfClose (Some EOF) st, ADone)
  | Some ClientToServer_Cancel => (st, AFinish (Some ContextCanceled))
  | Some (ClientToServer_WindowUpdate w) => (st, AUpdate w)
  | None => (st, AFinish (Some (Errorf Internal "protocol error: unrecognized frame type" [])))
  | Some f =>
      let (r, err) := accept request_measure f (ss_receiver st) in
      (with_receiver r st, match err with Some e => AFinish (Some e) | None => ADone end)
  end.

Definition stream_read_config (st : server_stream) : read_config ClientToServerFrame :=
  server_read_config (ss_isClientStream st) (ss_method st) (ss_ctxErr st) (ss_halfClosed st).

(** The window updates that a read sends: none once the client has
    half-closed. *)
Definition read_updates (st : server_stream) (us : list Z) : list ServerToClientFrame :=
  match ss_halfClosed st with
  | None => ServerToClient_WindowUpdate <$> us
  | Some _ => []
  end.
End Operations.

(** ** The stream and its goroutines *)
Inductive finisher := ByLoop | ByReader | ByHandler.

#[export] Instance finisher_eq_dec : EqDecision finisher.
Proof. solve_decision. Defined.

Record stream_conf := StreamConf {
  sc_str : server_stream;
  sc_reading : option read_phase;       (** a [RecvMsg] that waits for a frame *)
  sc_finishing : list (finisher * option error);  (** [finishStream] calls that wait for [writeMu] *)
  sc_posted : list ServerToClientFrame; (** what the closing goroutine still has to send *)
  sc_watching : bool;                   (** the goroutine that waits for the context *)
  sc_returned : bool;                   (** the handler has returned *)
  sc_wire : list ServerToClientFrame;   (** the frames given to [stream.Send], in order *)
  sc_reads : list read_return;          (** the results of [RecvMsg] *)
}.

(** How the handler that [serveStream] calls ends, and the error with which
    [serveStream] then finishes the stream. *)
Inductive handler_outcome := HReturned (err : option error) | HPanicked.

Definition serveStream (outcome : handler_outcome) : option error :=
  match outcome with
  | HReturned err => err
  | HPanicked => Some (Errorf Internal "panic" [])
  end.

Inductive stream_label :=
  | FFrame (frame : option ClientToServerFrame)   (** the receive loop *)
  | FUpdatePost
  | FSetHeader (md : MD) (send : bool) (sendErr : option error)
  | FSetTrailer (md : MD)
  | FSendMsg (sendErr : option error) (marshalled : error + bytes)
  | FSend (l : send_label)                        (** inside [sender.send] *)
  | FRecv                                         (** [RecvMsg], or its reader woken *)
  | FReturn (outcome : handler_outcome)           (** the handler returns or panics *)
  | FFinish (i : nat)                             (** a waiting [finishStream] gets [writeMu] *)
  | FPosted                                       (** the closing goroutine sends a frame *)
  | FWatch                                        (** [receiver.cancel] when the context is done *)
  | FCtx (e : error).                             (** the context is done *)

Definition set_str (st : server_stream) (v : stream_conf) : stream_conf :=
  StreamConf st (sc_reading v) (sc_finishing v) (sc_posted v) (sc_watching v) (sc_returned v)
    (sc_wire v) (sc_reads v).
Definition set_reading (o : option read_phase) (v : stream_conf) : stream_conf :=
  StreamConf (sc_str v) o (sc_finishing v) (sc_posted v) (sc_watching v) (sc_returned v)
    (sc_wire v) (sc_reads v).
Definition set_finishing (l : list (finisher * option error)) (v : stream_conf) : stream_conf :=
  StreamConf (sc_str v) (sc_reading v) l (sc_posted v) (sc_watching v) (sc_returned v)
    (sc_wire v) (sc_reads v).
Definition set_posted (l : list ServerToClientFrame) (v : stream_conf) : stream_conf :=
  StreamConf (sc_str v) (sc_reading v) (sc_finishing v) l (sc_watching v) (sc_returned v)
    (sc_wire v) (sc_reads v).
Definition set_watching (b : bool) (v : stream_conf) : stream_conf :=
  StreamConf (sc_str v) (sc_reading v) (sc_finishing v) (sc_posted v) b (sc_returned v)
    (sc_wire v) (sc_reads v).
Definition set_returned (v : stream_conf) : stream_conf :=
  StreamConf (sc_str v) (sc_reading v) (sc_finishing v) (sc_posted v) (sc_watching v) true
    (sc_wire v) (sc_reads v).
Definition to_wire (fs : list ServerToClientFrame) (v : stream_conf) : stream_conf :=
  StreamConf (sc_str v) (sc_reading v) (sc_finishing v) (sc_posted v) (sc_watching v)
    (sc_returned v) (sc_wire v ++ fs) (sc_reads v).
Definition add_read (r : read_return) (v : stream_conf) : stream_conf :=
  StreamConf (sc_str v) (sc_reading v) (sc_finishing v) (sc_posted v) (sc_watching v)
    (sc_returned v) (sc_wire v) (sc_reads v ++ [r]).

(** [writeMu] is free. *)
Definition writeMu_free (v : stream_conf) : bool :=
  match c_call (ss_send (sc_str v)) with None => true | Some _ => false end.

(** The receive loop is inside [finishStream] or [updateWindow]. *)
Definition loop_busy (v : stream_conf) : bool :=
  existsb (fun f => bool_decide (fst f = ByLoop)) (sc_finishing v) ||
  match c_posts (ss_send (sc_str v)) with O => false | S _ => true end.

(** The first half of a call of [finishStream].  The stream leaves the table of
    the server here ([removeStream]); see TunnelServer. *)
Definition begin_finish (who : finisher) (err : option error) (v : stream_conf) : stream_conf :=
  set_finishing (sc_finishing v ++ [(who, err)])
    (set_str (finishStream_begin err (sc_str v)) v).

Section StreamSteps.
Context `{StatusLib} `{MetadataLib}.

Definition recv_returned (ret : read_return) (v : stream_conf) : stream_conf :=
  let v := add_read ret (set_reading None v) in
  match rr_err ret with
  | Some e => if rr_ok ret then v else begin_finish ByReader (Some e) v
  | None => v
  end.

Definition stream_step (l : stream_label) (v : stream_conf) : option stream_conf :=
  let st := sc_str v in
  match l with
  | FFrame frame =>
      if loop_busy v then None
      else match acceptClientFrame frame st with
           | (st, ADone) => Some (set_str st v)
           | (st, AFinish err) => Some (begin_finish ByLoop err (set_str st v))
           | (st, AUpdate w) =>
               if w =? 0 then Some v
               else match send_step (UAdd w) (ss_send st) with
                    | Some c => Some (set_str (with_send c st) v)
                    | None => None
                    end
           end
  | FUpdatePost =>
      match send_step UPost (ss_send st) with
      | Some c => Some (set_str (with_send c st) v)
      | None => None
      end
  | FSetHeader md send sendErr =>
      if writeMu_free v then
        let '(st, fs, _) := setHeader md send sendErr st in Some (to_wire fs (set_str st v))
      else None
  | FSetTrailer md =>
      if writeMu_free v then Some (set_str (fst (setTrailer md st)) v) else None
  | FSendMsg sendErr marshalled =>
      if writeMu_free v then
        match SendMsg_begin sendErr marshalled st with
        | (st, fs, inl _) => Some (to_wire fs (set_str st v))
        | (st, fs, inr b) =>
            match send_step (LBegin b) (ss_send st) with
            | Some c => Some (to_wire fs (set_str (with_send c st) v))
            | None => None
            end
        end
      else None
  | FSend l =>
      if in_send l then
        match send_step l (ss_send st) with
        | Some c =>
            let out := drop (length (c_out (ss_send st))) (c_out c) in
            Some (to_wire (chunk_frame <$> out) (set_str (with_send c st) v))
        | None => None
        end
      else None
  | FRecv =>
      let phase := match sc_reading v with Some ph => ph | None => read_start end in
      match readMsg request_measure (stream_read_config st)
              (ReadState (ss_receiver st) (ss_readErr st)) phase with
      | Some (rs, us, out) =>
          let v := to_wire (read_updates st us) (set_str (with_reader rs st) v) in
          match out with
          | MsgBlocked ph => Some (set_reading (Some ph) v)
          | MsgReturned ret => Some (recv_returned ret v)
          end
      | None => None
      end
  | FReturn outcome =>
      if sc_returned v then None
      else Some (begin_finish ByHandler (serveStream outcome) (set_returned v))
  | FFinish i =>
      if writeMu_free v then
        match sc_finishing v !! i with
        | Some (_, err) =>
            let (st, fs) := finishStream_end err st in
            Some (set_finishing (delete i (sc_finishing v))
                   (set_posted (sc_posted v ++ fs) (set_str st v)))
        | None => None
        end
      else None
  | FPosted =>
      match sc_posted v with
      | f :: fs => Some (to_wire [f] (set_posted fs v))
      | [] => None
      end
  | FWatch =>
      match sc_watching v, ss_ctxErr st with
      | true, Some _ =>
          Some (set_watching false (set_str (with_receiver (cancel (ss_receiver st)) st) v))
      | _, _ => None
      end
  | FCtx e =>
      match send_step (LCancel e) (ss_send st) with
      | Some c => Some (set_str (with_send c st) v)
      | None => None
      end
  end.
End StreamSteps.

Definition stream_start (st : server_stream) : stream_conf :=
  StreamConf st None [] [] true false [] [].

(** The stream that [createStream] makes. *)
Definition new_server_stream (streamID : Z) (method : string) (isClientStream isServerStream : bool)
    (ctxErr : option error) (s : sender) (r : receiver ClientToServerFrame) : server_stream :=
  ServerStream streamID method isClientStream isServerStream
    (SendConf s None 0 ctxErr []) r None None 0 None None false false.

(** ** Kinds of frames *)
Definition is_headers (f : ServerToClientFrame) : bool :=
  match f with ServerToClient_ResponseHeaders _ => true | _ => false end.
Definition is_close (f : ServerToClientFrame) : bool :=
  match f with ServerToClient_CloseStream _ => true | _ => false end.
Definition is_first (f : ServerToClientFrame) : bool :=
  match f with ServerToClient_ResponseMessage _ => true | _ => false end.
Definition is_data (f : ServerToClientFrame) : bool :=
  match f with
  | ServerToClient_ResponseMessage _ | ServerToClient_MoreResponseData _ => true
  | _ => false
  end.
Definition is_update (f : ServerToClientFrame) : bool :=
  match f with ServerToClient_WindowUpdate _ => true | _ => false end.

(** The frames of the response: all but the window updates. *)
Definition response (fs : list ServerToClientFrame) : list ServerToClientFrame :=
  List.filter (fun f => negb (is_update f)) fs.

Lemma response_app a b : response (a ++ b) = response a ++ response b.
Proof. apply List.filter_app. Qed.
Lemma response_updates fs : Forall (fun f => is_update f = true) fs -> response fs = [].
Proof. induction 1 as [|f fs Hf _ IH]; simpl; [done|]. by rewrite Hf. Qed.
Lemma response_data fs : Forall (fun f => is_data f = true) fs -> response fs = fs.
Proof.
  induction 1 as [|f fs Hf _ IH]; simpl; [done|]. rewrite IH. by destruct f.
Qed.

Lemma chunk_frames_data cks :
  Forall (fun f => is_data f = true) (chunk_frame (T := ServerToClientFrame) <$> cks).
Proof.
  apply Forall_fmap, Forall_forall. intros ck _. unfold compose, chunk_frame. simpl.
  unfold response_frame. by destruct (ck_first ck).
Qed.

Lemma data_not (p : ServerToClientFrame -> bool) fs :
  (forall f, is_data f = true -> p f = false) ->
  Forall (fun f => is_data f = true) fs -> count p fs = 0.
Proof. intros Hp Hfs. apply count_none. eapply Forall_impl; [exact Hfs|]. auto. Qed.

Lemma count_firsts cks : count is_first (chunk_frame <$> cks) = firsts cks.
Proof.
  unfold firsts. induction cks as [|ck cks IH]; [done|].
  rewrite !fmap_cons, !count_cons, IH.
  unfold chunk_frame. simpl. unfold response_frame. by destruct (ck_first ck).
Qed.

(** ** Invariant *)
Section StreamInvariant.
Context `{StatusLib} `{MetadataLib}.
(** The window, chunk size and overhead that the sender starts with. *)
Context (W maxChunk ov : Z).
Context (HW : is_u32 W) (HW1 : 1 <= W) (Hmc : 1 <= maxChunk) (Hov : 0 <= ov < MaxUint32).

Abbreviation maxc := (max_chunk W maxChunk).

Record stream_inv (v : stream_conf) : Prop := {
  si_send : exists ls, sender_inv W maxc ov ls (ss_send (sc_str v));
  si_headers : count is_headers (sc_wire v ++ sc_posted v)
               = if ss_sentHeaders (sc_str v) then 1 else 0;
  si_close : count is_close (sc_wire v ++ sc_posted v)
             = if ss_closed (sc_str v) then 1 else 0;
  si_first : count is_first (sc_wire v) = firsts (c_out (ss_send (sc_str v)));
  si_posted : Forall (fun f => is_data f = false) (sc_posted v);
  si_unsent : ss_sentHeaders (sc_str v) = false ->
    ss_closed (sc_str v) = false /\ c_call (ss_send (sc_str v)) = None /\
    response (sc_wire v) = [];
  si_unary : ss_isServerStream (sc_str v) = false ->
    0 <= ss_numSent (sc_str v) <= 1 /\
    firsts (c_out (ss_send (sc_str v))) + first_pending (ss_send (sc_str v))
      <= ss_numSent (sc_str v);
  si_order : ss_closed (sc_str v) = false -> sc_posted v = [] /\
    (ss_sentHeaders (sc_str v) = true -> exists h ds, response (sc_wire v) = h :: ds /\
       is_headers h = true /\ Forall (fun f => is_data f = true) ds);
  si_ctx : ss_closed (sc_str v) = true \/ sc_finishing v <> [] -> ss_ctxErr (sc_str v) <> None;
  si_returned : sc_returned v = true -> ss_closed (sc_str v) = true \/ sc_finishing v <> [];
}.

(** Actions that only read, and send window updates. *)
Lemma inv_quiet v v' us :
  stream_inv v ->
  ss_isServerStream (sc_str v') = ss_isServerStream (sc_str v) ->
  ss_send (sc_str v') = ss_send (sc_str v) ->
  ss_numSent (sc_str v') = ss_numSent (sc_str v) ->
  ss_sentHeaders (sc_str v') = ss_sentHeaders (sc_str v) ->
  ss_closed (sc_str v') = ss_closed (sc_str v) ->
  sc_finishing v' = sc_finishing v -> sc_posted v' = sc_posted v ->
  sc_returned v' = sc_returned v -> sc_wire v' = sc_wire v ++ us ->
  Forall (fun f => is_update f = true) us -> stream_inv v'.
Proof.
  intros [Hs Hh Hc Hf Hp Hu Hn Ho Hx Hr] E1 E2 E3 E4 E5 E6 E7 E8 E9 Hus.
  assert (Hcount : forall p, (forall f, is_update f = true -> p f = false) -> count p us = 0).
  { intros p Hp'. apply count_none. eapply Forall_impl; [exact Hus|]. auto. }
  pose proof (Hcount is_headers ltac:(by intros [])) as C1.
  pose proof (Hcount is_close ltac:(by intros [])) as C2.
  pose proof (Hcount is_first ltac:(by intros [])) as C3.
  split; unfold ss_ctxErr; rewrite ?E1, ?E2, ?E3, ?E4, ?E5, ?E6, ?E7, ?E8, ?E9; auto;
    rewrite ?count_app, ?response_app, ?(response_updates us), ?app_nil_r in * by done; auto; lia.
Qed.

(** Actions of others on the sender. *)
Lemma inv_send_env v l c :
  stream_inv v -> match l with UAdd _ | UPost | LCancel _ => True | _ => False end ->
  send_step l (ss_send (sc_str v)) = Some c ->
  stream_inv (set_str (with_send c (sc_str v)) v).
Proof.
  intros [(ls & Hs) Hh Hc Hf Hp Hu Hn Ho Hx Hr] Hl Hstep.
  assert (Hsame : c_call c = c_call (ss_send (sc_str v)) /\ c_out c = c_out (ss_send (sc_str v))
            /\ (ss_ctxErr (sc_str v) <> None -> c_ctx c <> None)).
  { destruct l; try done; simpl in Hstep; step_in Hstep; done. }
  destruct Hsame as (Ecall & Eout & Hctx).
  split; simpl; rewrite ?Ecall, ?Eout; auto.
  - exists (ls ++ [l]). eapply sender_inv_step; eauto using max_chunk_pos.
  - by unfold first_pending; rewrite Ecall.
Qed.

Lemma inv_cancel_ctx v e :
  stream_inv v -> stream_inv (set_str (with_send (cancel_ctx e (ss_send (sc_str v))) (sc_str v)) v).
Proof.
  intros Hinv. unfold cancel_ctx. destruct (c_ctx (ss_send (sc_str v))) eqn:Hctx.
  - destruct v as [[] ? ? ? ? ? ? ?]. exact Hinv.
  - apply (inv_send_env v (LCancel e)); [done..|]. simpl. by rewrite Hctx.
Qed.

Lemma halfClose_same err st :
  ss_isServerStream (halfClose err st) = ss_isServerStream st /\
  ss_send (halfClose err st) = ss_send st /\ ss_numSent (halfClose err st) = ss_numSent st /\
  ss_sentHeaders (halfClose err st) = ss_sentHeaders st /\
  ss_closed (halfClose err st) = ss_closed st.
Proof. unfold halfClose. by destruct (ss_halfClosed st). Qed.

Lemma inv_begin_finish v who err : stream_inv v -> stream_inv (begin_finish who err v).
Proof.
  intros Hinv. apply (inv_cancel_ctx _ ContextCanceled) in Hinv.
  unfold begin_finish, finishStream_begin.
  destruct (halfClose_same err
    (with_send (cancel_ctx ContextCanceled (ss_send (sc_str v))) (sc_str v)))
    as (E1 & E2 & E3 & E4 & E5).
  destruct Hinv as [Hs Hh Hc Hf Hp Hu Hn Ho Hx Hr].
  pose proof (cancel_ctx_done ContextCanceled (ss_send (sc_str v))) as Hdone.
  split; unfold ss_ctxErr; simpl in *; rewrite ?E1, ?E2, ?E3, ?E4, ?E5; auto.
  intros _. right. by destruct (sc_finishing v).
Qed.

Lemma inv_start st :
  (exists ls, sender_inv W maxc ov ls (ss_send st)) -> c_call (ss_send st) = None ->
  c_out (ss_send st) = [] -> ss_numSent st = 0 -> ss_sentHeaders st = false ->
  ss_closed st = false -> stream_inv (stream_start st).
Proof.
  intros Hs Hc Ho Hn Hh Hcl. split; simpl; rewrite ?Hc, ?Ho, ?Hn, ?Hh, ?Hcl; try done.
  - intros _. unfold first_pending. by rewrite Hc.
  - intros [?|?]; done.
Qed.

(** ** Sending *)

(** [sendHeadersLocked], and the other ways to leave the headers alone. *)
Lemma inv_send_headers v md :
  stream_inv v -> ss_sentHeaders (sc_str v) = false ->
  stream_inv (to_wire [headers_frame md] (set_str (with_headers None true (sc_str v)) v)).
Proof.
  intros [Hs Hh Hc Hf Hp Hu Hn Ho Hx Hr] Hns. rewrite Hns in *.
  destruct (Hu eq_refl) as (_ & Hcall & Hresp).
  split; simpl; rewrite ?count_app, ?count_cons, ?count_nil in *; simpl; auto; try lia; try done.
  intros Hcl. destruct (Ho Hcl) as [Hpo _]. split; [done|]. intros _.
  exists (headers_frame md), []. by rewrite response_app, Hresp.
Qed.

Lemma inv_set_headers v md :
  stream_inv v -> ss_sentHeaders (sc_str v) = false ->
  stream_inv (set_str (with_headers md false (sc_str v)) v).
Proof. intros [Hs Hh Hc Hf Hp Hu Hn Ho Hx Hr] Hns. rewrite Hns in *. by split. Qed.

Lemma inv_setHeader v md send sendErr st fs err :
  stream_inv v -> setHeader md send sendErr (sc_str v) = (st, fs, err) ->
  stream_inv (to_wire fs (set_str st v)).
Proof.
  intros Hinv. unfold setHeader. destruct (ss_sentHeaders (sc_str v)) eqn:Hns.
  - intros [= <- <- <-]. destruct v as [[] ? ? ? ? ? ? ?].
    unfold to_wire, set_str. simpl. by rewrite app_nil_r.
  - assert (Hinv' : stream_inv (set_str (match md with
        | Some _ => with_headers (md_Join (ss_headers (sc_str v)) md) false (sc_str v)
        | None => sc_str v end) v)).
    { destruct md; [by apply inv_set_headers|]. by destruct v as [[] ? ? ? ? ? ? ?]. }
    destruct send; intros [= <- <- <-].
    + apply (inv_send_headers (set_str _ v)); [done|]. by destruct md.
    + unfold to_wire. simpl. by rewrite app_nil_r.
Qed.

(** Handing a message to [sender.send]. *)
Lemma inv_numSent v n :
  stream_inv v -> c_call (ss_send (sc_str v)) = None ->
  (ss_isServerStream (sc_str v) = false -> ss_numSent (sc_str v) <= n <= 1) ->
  stream_inv (set_str (with_numSent n (sc_str v)) v).
Proof.
  intros [Hs Hh Hc Hf Hp Hu Hn Ho Hx Hr] Hcall Hle. split; simpl; auto.
  intros Hss. destruct (Hn Hss). specialize (Hle Hss). lia.
Qed.

Lemma inv_begin_send v b n c :
  stream_inv v -> c_call (ss_send (sc_str v)) = None -> ss_sentHeaders (sc_str v) = true ->
  (ss_isServerStream (sc_str v) = false -> ss_numSent (sc_str v) + 1 <= n <= 1) ->
  send_step (LBegin b) (ss_send (sc_str v)) = Some c ->
  stream_inv (set_str (with_send c (with_numSent n (sc_str v))) v).
Proof.
  intros [(ls & Hs) Hh Hc Hf Hp Hu Hn Ho Hx Hr] Hcall Hsent Hle Hstep.
  assert (Hout : c_out c = c_out (ss_send (sc_str v)) /\ c_ctx c = c_ctx (ss_send (sc_str v)) /\
            first_pending c <= 1).
  { simpl in Hstep. rewrite Hcall in Hstep. injection Hstep as <-. split_and!; try done.
    apply first_pending_begin. }
  destruct Hout as (Eout & Ectx & Hpend).
  split; unfold ss_ctxErr; simpl; rewrite ?Eout, ?Ectx, ?Hsent; auto; try done.
  - exists (ls ++ [LBegin b]). eapply sender_inv_step; eauto using max_chunk_pos.
  - by rewrite Hsent in Hh.
  - intros Hss. destruct (Hn Hss) as [Hn1 Hn2]. specialize (Hle Hss).
    pose proof (first_pending_nonneg (ss_send (sc_str v))).
    lia.
  - intros Hcl. destruct (Ho Hcl) as [? Hr']. split; [done|]. intros _. by apply Hr'.
Qed.

(** The ways through [SendMsg] before [sender.send]. *)
Lemma SendMsg_begin_cases sendErr marshalled st st' fs r :
  SendMsg_begin sendErr marshalled st = (st', fs, r) ->
  exists st1,
    ((ss_sentHeaders st = true /\ st1 = st /\ fs = []) \/
     (ss_sentHeaders st = false /\ st1 = with_headers None true st /\
      fs = [headers_frame (ss_headers st)])) /\
    ((st' = st1 /\ exists e, r = inl e) \/
     (st' = with_numSent (ss_numSent st1 +u 1) st1 /\
      (ss_isServerStream st1 = false -> ss_numSent st1 <> 1))).
Proof.
  unfold SendMsg_begin, sendHeadersLocked. intros Hs.
  assert (Hrest : forall st1 fs1,
    (if negb (ss_isServerStream st1) && (ss_numSent st1 =? 1)
     then (st1, fs1, inl (Errorf Internal
            "Already sent response for non-server-stream method %s" [AStr (ss_method st1)]))
     else match marshalled with
          | inl e => (with_numSent (ss_numSent st1 +u 1) st1, fs1, inl e)
          | inr b => if len b >? MaxUint32
              then (with_numSent (ss_numSent st1 +u 1) st1, fs1, inl (too_large (len b)))
              else (with_numSent (ss_numSent st1 +u 1) st1, fs1, inr b)
          end) = (st', fs, r) ->
    fs = fs1 /\ ((st' = st1 /\ exists e, r = inl e) \/
     (st' = with_numSent (ss_numSent st1 +u 1) st1 /\
      (ss_isServerStream st1 = false -> ss_numSent st1 <> 1)))).
  { intros st1 fs1 Hr. destruct (negb (ss_isServerStream st1) && (ss_numSent st1 =? 1)) eqn:Hg.
    - injection Hr as <- <- <-. eauto.
    - split; [by step_in Hr|]. right. split; [by step_in Hr|].
      intros Hss Hn. by rewrite Hss, Hn in Hg. }
  destruct (ss_sentHeaders st) eqn:Hsent; [|destruct sendErr as [e|]].
  - exists st. destruct (Hrest st [] Hs) as [-> Hr]. split; [by left|done].
  - injection Hs as <- <- <-. eexists. split; [right; done|left]. eauto.
  - eexists. destruct (Hrest _ _ Hs) as [-> Hr]. split; [by right|done].
Qed.

Lemma inv_SendMsg v sendErr marshalled v' :
  stream_inv v -> stream_step (FSendMsg sendErr marshalled) v = Some v' -> stream_inv v'.
Proof.
  intros Hinv Hstep. simpl in Hstep.
  destruct (writeMu_free v) eqn:Hfree; [|done].
  assert (Hcall : c_call (ss_send (sc_str v)) = None).
  { unfold writeMu_free in Hfree. by destruct (c_call _). }
  destruct (SendMsg_begin sendErr marshalled (sc_str v)) as [[st fs] r] eqn:Hb.
  destruct (SendMsg_begin_cases _ _ _ _ _ _ Hb) as (st1 & Hst1 & Hst).
  assert (Hv1 : stream_inv (to_wire fs (set_str st1 v)) /\ ss_sentHeaders st1 = true /\
            c_call (ss_send st1) = None).
  { destruct Hst1 as [(Hs & -> & ->)|(Hs & -> & ->)]; split_and!; try done.
    - destruct v as [[] ? ? ? ? ? ? ?]. unfold to_wire, set_str. simpl. by rewrite app_nil_r.
    - by apply inv_send_headers. }
  destruct Hv1 as (Hv1 & Hs1 & Hc1).
  assert (Hn1 : ss_isServerStream st1 = false -> ss_numSent st1 <> 1 ->
            ss_numSent st1 = 0 /\ ss_numSent st1 +u 1 = 1).
  { intros Hss Hne. destruct (si_unary _ Hv1 Hss) as [Hn _]. simpl in Hn.
    assert (ss_numSent st1 = 0) as -> by lia. done. }
  destruct r as [e|b].
  - injection Hstep as <-. destruct Hst as [(-> & _)|(-> & Hne)]; [done|].
    apply (inv_numSent (to_wire fs (set_str st1 v))); simpl; [done..|].
    intros Hss. destruct (Hn1 Hss (Hne Hss)). lia.
  - destruct Hst as [(_ & e & ?)|(-> & Hne)]; [done|].
    cbn [ss_send with_numSent] in Hstep. rewrite Hc1 in Hstep. injection Hstep as <-.
    apply (inv_begin_send (to_wire fs (set_str st1 v)) b); simpl; rewrite ?Hc1; try done.
    intros Hss. destruct (Hn1 Hss (Hne Hss)). lia.
Qed.

Lemma inv_FSend v l v' :
  stream_inv v -> stream_step (FSend l) v = Some v' -> stream_inv v'.
Proof.
  intros [(ls & Hs) Hh Hc Hf Hp Hu Hn Ho Hx Hr] Hstep. cbn [stream_step] in Hstep.
  destruct (in_send l) eqn:Hl; [|done].
  destruct (send_step l (ss_send (sc_str v))) as [c|] eqn:Hc'; [|done]. injection Hstep as <-.
  destruct (first_pending_step _ _ _ ls l _ c Hs Hc' Hl) as (Hpend & Ectx & k & Hk).
  pose proof (send_step_drop _ _ _ Hc') as Hout.
  set (new := drop _ (c_out c)) in *.
  assert (Hsent : ss_sentHeaders (sc_str v) = true).
  { destruct (ss_sentHeaders (sc_str v)); [done|]. destruct (Hu eq_refl) as (_ & ? & _). congruence. }
  pose proof (chunk_frames_data new) as Hdata.
  pose proof (data_not is_headers _ ltac:(by intros []) Hdata) as C1.
  pose proof (data_not is_close _ ltac:(by intros []) Hdata) as C2.
  split; unfold ss_ctxErr; simpl; rewrite ?Ectx, ?Hsent in *; auto; try done;
    rewrite ?count_app in *.
  - exists (ls ++ [l]). eapply sender_inv_step; eauto using max_chunk_pos.
  - lia.
  - lia.
  - rewrite Hf, Hout, count_firsts. unfold firsts. by rewrite count_app.
  - intros Hss. destruct (Hn Hss). lia.
  - intros Hcl. destruct (Ho Hcl) as [? Hresp]. split; [done|]. intros _.
    destruct (Hresp eq_refl) as (h & ds & Hr1 & Hr2 & Hr3). exists h, (ds ++ (chunk_frame <$> new)).
    rewrite response_app, Hr1, (response_data _ Hdata). split_and!; [done|done|by apply Forall_app].
Qed.

(** ** Finishing *)
Lemma inv_FFinish v i v' :
  stream_inv v -> stream_step (FFinish i) v = Some v' -> stream_inv v'.
Proof.
  intros Hinv Hstep. pose proof Hinv as [Hs Hh Hc Hf Hp Hu Hn Ho Hx Hr].
  cbn [stream_step] in Hstep. destruct (writeMu_free v); [|done].
  destruct (sc_finishing v !! i) as [[who err]|] eqn:Hi; [|done].
  assert (Hdone : ss_ctxErr (sc_str v) <> None).
  { apply Hx. right. intros He. by rewrite He in Hi. }
  unfold finishStream_end in Hstep. destruct (ss_closed (sc_str v)) eqn:Hcl.
  - injection Hstep as <-. split; simpl; rewrite ?app_nil_r, ?Hcl; auto.
  - destruct (Ho eq_refl) as [Hpo _]. rewrite Hpo, app_nil_r in *.
    injection Hstep as <-.
    destruct (ss_sentHeaders (sc_str v)) eqn:Hsent; simpl; split; simpl;
      rewrite ?Hsent, ?count_app, ?count_cons, ?count_nil; simpl; auto; try lia; try done.
    all: repeat constructor.
Qed.

Lemma inv_FPosted v v' :
  stream_inv v -> stream_step FPosted v = Some v' -> stream_inv v'.
Proof.
  intros Hinv Hstep. pose proof Hinv as [Hs Hh Hc Hf Hp Hu Hn Ho Hx Hr].
  cbn [stream_step] in Hstep. destruct (sc_posted v) as [|f fs] eqn:Hpo; [done|].
  injection Hstep as <-. apply Forall_cons in Hp as [Hpf Hpfs].
  assert (Hcl : ss_closed (sc_str v) = true).
  { destruct (ss_closed (sc_str v)); [done|]. by destruct (Ho eq_refl). }
  rewrite count_app, count_cons in Hh, Hc.
  assert (Hs1 : is_first f = false) by (by destruct f).
  split; simpl; rewrite ?count_app, ?count_cons, ?count_nil, ?Hs1, ?Hcl in *; simpl; auto;
    try lia; try done.
  intros Hns. destruct (Hu Hns) as (? & _). congruence.
Qed.

(** ** Receiving *)
Lemma read_updates_are st us :
  Forall (fun f => is_update f = true) (read_updates st us).
Proof.
  unfold read_updates. destruct (ss_halfClosed st); [done|].
  by apply Forall_fmap, Forall_forall.
Qed.

Lemma inv_FRecv v v' : stream_inv v -> stream_step FRecv v = Some v' -> stream_inv v'.
Proof.
  intros Hinv Hstep. cbn [stream_step] in Hstep.
  destruct (readMsg _ _ _ _) as [[[rs us] out]|]; [|done].
  set (v1 := to_wire _ _) in Hstep.
  assert (Hread : forall rd reads, stream_inv (StreamConf (sc_str v1) rd (sc_finishing v1)
            (sc_posted v1) (sc_watching v1) (sc_returned v1) (sc_wire v1) reads)).
  { intros rd reads. by eapply (inv_quiet v _ (read_updates (sc_str v) us)), read_updates_are. }
  destruct out as [ret|ph]; injection Hstep as <-; [|apply Hread].
  unfold recv_returned. destruct (rr_err ret); [destruct (rr_ok ret)|];
    try apply Hread. apply inv_begin_finish. apply Hread.
Qed.

Lemma inv_FFrame v frame v' :
  stream_inv v -> stream_step (FFrame frame) v = Some v' -> stream_inv v'.
Proof.
  intros Hinv Hstep. cbn [stream_step] in Hstep. destruct (loop_busy v); [done|].
  assert (Hrecv : forall r, stream_inv (set_str (with_receiver r (sc_str v)) v)).
  { intros r. by eapply (inv_quiet v _ []); simpl; rewrite ?app_nil_r. }
  assert (Hsame : forall err, stream_inv (begin_finish ByLoop err (set_str (sc_str v) v))).
  { intros err. apply inv_begin_finish. by destruct v. }
  assert (Hacc : forall f, (let (st, a) := let (r, err) := accept request_measure f
        (ss_receiver (sc_str v)) in (with_receiver r (sc_str v),
        match err with Some e => AFinish (Some e) | None => ADone end) in
      match a with
      | ADone => Some (set_str st v)
      | AFinish err => Some (begin_finish ByLoop err (set_str st v))
      | AUpdate w => None
      end) = Some v' -> stream_inv v').
  { intros f. destruct (accept _ _ _) as [r [e|]]; intros [= <-]; [|apply Hrecv].
    apply inv_begin_finish, Hrecv. }
  destruct frame as [[ns|m|d| | |w]|]; simpl in Hstep; simplify_eq; auto.
  - apply (Hacc (ClientToServer_NewStream ns)). simpl. by destruct (accept _ _ _) as [r [e|]].
  - apply (Hacc (ClientToServer_RequestMessage m)). by destruct (accept _ _ _) as [r [e|]].
  - apply (Hacc (ClientToServer_MoreRequestData d)). by destruct (accept _ _ _) as [r [e|]].
  - destruct (halfClose_same (Some EOF) (sc_str v)) as (E1 & E2 & E3 & E4 & E5).
    by eapply (inv_quiet v _ []); simpl; rewrite ?app_nil_r.
  - destruct (w =? 0); [by simplify_eq|].
    destruct ((0 <? w) && (w <=? MaxUint32)) eqn:Hw; [|done].
    injection Hstep as <-. apply (inv_send_env v (UAdd w)); [done..|]. simpl. by rewrite Hw.
Qed.

(** Every action keeps the invariant. *)
Lemma stream_inv_step l v v' : stream_inv v -> stream_step l v = Some v' -> stream_inv v'.
Proof.
  intros Hinv Hstep.
  destruct l as [frame| |md send sendErr|md|sendErr m|l| |o|i| | |e];
    [by eapply inv_FFrame| | | |by eapply inv_SendMsg|by eapply inv_FSend|by eapply inv_FRecv|
     |by eapply inv_FFinish|by eapply inv_FPosted| |]; cbn [stream_step] in Hstep.
  - destruct (send_step _ _) as [c|] eqn:Hc; [|done]. injection Hstep as <-.
    by apply (inv_send_env v UPost).
  - destruct (writeMu_free v); [|done].
    destruct (setHeader _ _ _ _) as [[st fs] err] eqn:Hset. injection Hstep as <-.
    by eapply inv_setHeader.
  - destruct (writeMu_free v); [|done]. injection Hstep as <-. unfold setTrailer.
    destruct (ss_closed (sc_str v)) eqn:Hcl; [by destruct v|].
    by eapply (inv_quiet v _ []); simpl; rewrite ?app_nil_r, ?Hcl.
  - destruct (sc_returned v); [done|]. injection Hstep as <-.
    destruct (inv_begin_finish v ByHandler (serveStream o) Hinv) as [? ? ? ? ? ? ? ? ? _].
    split; auto. intros _. right. simpl. by destruct (sc_finishing v).
  - destruct (sc_watching v), (ss_ctxErr (sc_str v)); try done. injection Hstep as <-.
    by eapply (inv_quiet v _ []); simpl; rewrite ?app_nil_r.
  - destruct (send_step _ _) as [c|] eqn:Hc; [|done]. injection Hstep as <-.
    by apply (inv_send_env v (LCancel e)).
Qed.

Lemma stream_run_inv ls v0 v :
  stream_inv v0 -> run stream_step ls v0 = Some v -> stream_inv v.
Proof. intros Hv0. apply run_invariant; [done|]. intros. by eapply stream_inv_step. Qed.

Lemma new_stream_inv streamID method cs ss ctxErr r :
  stream_inv (stream_start (new_server_stream streamID method cs ss ctxErr
                              (newSender W maxChunk ov) r)).
Proof.
  apply inv_start; try done. exists []. simpl.
  destruct (sender_run_inv W maxChunk ov HW HW1 Hmc Hov [] (sender_start W maxChunk ov) eq_refl)
    as [? ? ? ? ? ?]. by split.
Qed.
End StreamInvariant.

(** ** Properties *)

(** [finishStream] has been called on the stream. *)
Definition finish_called (v : stream_conf) : Prop :=
  ss_closed (sc_str v) = true \/ sc_finishing v <> [].

(** The actions that the server's own goroutines take: neither the client nor
    the handler nor the context is waited for. *)
Definition internal (l : stream_label) : bool :=
  match l with FUpdatePost | FSend _ | FFinish _ | FPosted | FWatch => true | _ => false end.

Definition stream_cost (v : stream_conf) : Z :=
  send_cost (ss_send (sc_str v)) + 4 * len (sc_finishing v) + len (sc_posted v)
  + if sc_watching v then 1 else 0.

Section StreamProperties.
Context `{StatusLib} `{MetadataLib}.
Context (W maxChunk ov : Z).
Context (HW : is_u32 W) (HW1 : 1 <= W) (Hmc : 1 <= maxChunk) (Hov : 0 <= ov < MaxUint32).
Context (streamID : Z) (method : string) (isClientStream isServerStream : bool).
Context (ctxErr : option error) (r : receiver ClientToServerFrame).

Definition new_stream : stream_conf :=
  stream_start (new_server_stream streamID method isClientStream isServerStream ctxErr
                  (newSender W maxChunk ov) r).

Abbreviation inv := (stream_inv W maxChunk ov).

Lemma new_run_inv ls v : run stream_step ls new_stream = Some v -> inv v.
Proof.
  apply stream_run_inv; try done. by apply new_stream_inv.
Qed.

Lemma isServerStream_fixed l v v' :
  stream_step l v = Some v' ->
  ss_isServerStream (sc_str v') = ss_isServerStream (sc_str v).
Proof.
  assert (Hb : forall who err w, ss_isServerStream (sc_str (begin_finish who err w))
            = ss_isServerStream (sc_str w)).
  { intros who err w. unfold begin_finish, finishStream_begin. simpl.
    by rewrite (proj1 (halfClose_same _ _)). }
  destruct l as [frame| |md send sendErr|md|sendErr m|l| |o|i| | |e]; cbn [stream_step]; intros Hs.
  - destruct (loop_busy v); [done|].
    destruct frame as [[ns|m|d| | |w]|]; cbn [acceptClientFrame] in Hs;
      try (destruct (accept _ _ _) as [? [?|]]); try (destruct (w =? 0));
      try (destruct (send_step _ _)); simplify_eq; rewrite ?Hb; try done.
    simpl. by rewrite (proj1 (halfClose_same _ _)).
  - destruct (send_step _ _); by simplify_eq.
  - destruct (writeMu_free v); [|done]. unfold setHeader, sendHeadersLocked in Hs.
    destruct (ss_sentHeaders _), md, send; by simplify_eq.
  - destruct (writeMu_free v); [|done]. unfold setTrailer in Hs.
    destruct (ss_closed _); by simplify_eq.
  - destruct (writeMu_free v); [|done].
    destruct (SendMsg_begin sendErr m (sc_str v)) as [[st fs] r0] eqn:Hb0.
    destruct (SendMsg_begin_cases _ _ _ _ _ _ Hb0) as (st1 & Hst1 & Hst).
    assert (ss_isServerStream st = ss_isServerStream (sc_str v)).
    { destruct Hst1 as [(_ & -> & _)|(_ & -> & _)], Hst as [(-> & _)|(-> & _)]; done. }
    destruct r0; [|destruct (send_step _ _)]; by simplify_eq.
  - destruct (in_send l); [|done]. destruct (send_step _ _); by simplify_eq.
  - destruct (readMsg _ _ _ _) as [[[rs us] [ret|ph]]|]; simplify_eq; [|done].
    unfold recv_returned. destruct (rr_err ret), (rr_ok ret); rewrite ?Hb; done.
  - destruct (sc_returned v); simplify_eq. by rewrite Hb.
  - destruct (writeMu_free v), (sc_finishing v !! i) as [[who err]|]; try done.
    unfold finishStream_end in Hs. destruct (ss_closed _), (negb (ss_sentHeaders (sc_str v))); by simplify_eq.
  - destruct (sc_posted v); by simplify_eq.
  - destruct (sc_watching v), (ss_ctxErr (sc_str v)); by simplify_eq.
  - destruct (send_step _ _); by simplify_eq.
Qed.

(** However the handler, the receive loop and the stream's own goroutines
    interleave, at most one frame of response headers and at most one close
    frame are ever sent or about to be sent for a stream (exactly one once the
    stream is closed), and a method that is not server-streaming begins at most
    one response message. *)
Theorem server_frames_once ls v :
  run stream_step ls new_stream = Some v ->
  let sent := sc_wire v ++ sc_posted v in
  count is_headers sent <= 1 /\ count is_close sent <= 1 /\
  (ss_closed (sc_str v) = true -> count is_headers sent = 1 /\ count is_close sent = 1) /\
  (isServerStream = false -> count is_first (sc_wire v) <= 1).
Proof.
  intros Hrun. pose proof (new_run_inv ls v Hrun) as [_ Hh Hc Hf _ Hu Hn _ _ _].
  assert (Hss : ss_isServerStream (sc_str v) = isServerStream).
  { revert Hrun. apply (run_invariant stream_step
      (fun v => ss_isServerStream (sc_str v) = isServerStream)); [done|].
    intros l v0 v1 Hi Hs. by rewrite (isServerStream_fixed l v0 v1 Hs). }
  simpl. rewrite Hh, Hc. split_and!.
  - destruct (ss_sentHeaders _); lia.
  - destruct (ss_closed _); lia.
  - intros Hcl. rewrite Hcl. destruct (ss_sentHeaders (sc_str v)); [done|].
    destruct (Hu eq_refl) as [? _]. congruence.
  - intros Hns. rewrite <- Hss in Hns. destruct (Hn Hns) as [? ?].
    pose proof (first_pending_nonneg (ss_send (sc_str v))).
    lia.
Qed.

(** Until the stream is closed, what has been sent of the response (that
    is, without the window updates for the request) is nothing, or the headers
    followed by data frames only: a client never sees data before the headers. *)
Theorem server_frame_order ls v :
  run stream_step ls new_stream = Some v -> ss_closed (sc_str v) = false ->
  response (sc_wire v) = [] \/
  exists h ds, response (sc_wire v) = h :: ds /\ is_headers h = true /\
    Forall (fun f => is_data f = true) ds.
Proof.
  intros Hrun Hcl. pose proof (new_run_inv ls v Hrun) as [_ _ _ _ _ Hu _ Ho _ _].
  destruct (ss_sentHeaders (sc_str v)) eqn:Hs.
  - right. by apply Ho.
  - left. by apply Hu.
Qed.

(** ** The end of a stream *)
Lemma stream_cost_nonneg v : inv v -> 0 <= stream_cost v.
Proof.
  intros Hinv. destruct (si_send _ _ _ _ Hinv) as (ls & Hs).
  pose proof (send_cost_nonneg _ _ _ _ _ Hs). unfold stream_cost.
  pose proof (len_nonneg (sc_finishing v)). pose proof (len_nonneg (sc_posted v)).
  destruct (sc_watching v); lia.
Qed.

Lemma finish_posts err st : len (snd (finishStream_end err st)) <= 2.
Proof.
  unfold finishStream_end. destruct (ss_closed st), (ss_sentHeaders st); simpl;
    rewrite ?len_cons, ?len_nil; lia.
Qed.

Lemma finish_send err st : ss_send (fst (finishStream_end err st)) = ss_send st.
Proof. unfold finishStream_end. by destruct (ss_closed st), (ss_sentHeaders st). Qed.

Lemma len_delete {A} (l : list A) i : is_Some (l !! i) -> len (delete i l) = len l - 1.
Proof.
  intros Hi. unfold len. rewrite length_delete by done.
  apply lookup_lt_is_Some in Hi. lia.
Qed.

Lemma internal_cost l v v' :
  inv v -> internal l = true -> stream_step l v = Some v' -> stream_cost v' < stream_cost v.
Proof.
  intros Hinv Hl Hstep. destruct (si_send _ _ _ _ Hinv) as (ls & Hs).
  pose proof (fun l c' Hst => send_step_cost _ _ _ ls l _ c' (max_chunk_pos W maxChunk HW1 Hmc)
    Hov Hs Hst) as Hcost.
  destruct l as [| | | | |l| | |i| | |]; try done; cbn [stream_step] in Hstep.
  - destruct (send_step UPost _) as [c|] eqn:Hc; [|done]. injection Hstep as <-.
    specialize (Hcost _ _ Hc). unfold stream_cost. simpl in *. lia.
  - destruct (in_send l) eqn:Hin; [|done].
    destruct (send_step l (ss_send (sc_str v))) as [c|] eqn:Hc; [|done]. injection Hstep as <-.
    assert (Hg : label_gain l = 0) by (by destruct l).
    specialize (Hcost _ _ Hc). unfold stream_cost. simpl in *.
    assert (0 <= label_emits l) by (destruct l; simpl; lia). lia.
  - destruct (writeMu_free v); [|done].
    destruct (sc_finishing v !! i) as [[who err]|] eqn:Hi; [|done].
    pose proof (finish_posts err (sc_str v)). pose proof (finish_send err (sc_str v)) as Hsend.
    destruct (finishStream_end err (sc_str v)) as [st fs]. injection Hstep as <-.
    unfold stream_cost. simpl in *. rewrite Hsend, len_app, len_delete by done. lia.
  - destruct (sc_posted v) as [|f fs] eqn:Hp; [done|]. injection Hstep as <-.
    unfold stream_cost. simpl. rewrite Hp, len_cons. lia.
  - destruct (sc_watching v) eqn:Hw, (ss_ctxErr (sc_str v)); try done. injection Hstep as <-.
    unfold stream_cost. simpl. rewrite Hw. lia.
Qed.

Lemma internal_run v ls v' :
  inv v -> Forall (fun l => internal l = true) ls -> run stream_step ls v = Some v' ->
  inv v' /\ len ls + stream_cost v' <= stream_cost v.
Proof.
  intros Hinv Hls. revert v Hinv. induction Hls as [|l ls Hl Hls IH]; intros v Hinv Hrun; simpl in Hrun.
  - simplify_eq. rewrite len_nil. split; [done|lia].
  - destruct (stream_step l v) as [v1|] eqn:Hs; [|done].
    pose proof (internal_cost l v v1 Hinv Hl Hs).
    assert (inv v1) as Hv1 by (by eapply stream_inv_step).
    destruct (IH v1 Hv1 Hrun) as [? ?]. rewrite len_cons. split; [done|lia].
Qed.

Lemma ended_step l v v' :
  internal l = true -> stream_step l v = Some v' -> finish_called v -> finish_called v'.
Proof.
  intros Hl Hstep He. destruct l as [| | | | |l| | |i| | |]; try done; cbn [stream_step] in Hstep.
  - destruct (send_step UPost _); by simplify_eq.
  - destruct (in_send l); [|done]. destruct (send_step _ _); by simplify_eq.
  - destruct (writeMu_free v), (sc_finishing v !! i) as [[who err]|]; try done.
    unfold finishStream_end in Hstep. left.
    destruct (ss_closed (sc_str v)) eqn:Hc, (negb (ss_sentHeaders (sc_str v))); by simplify_eq.
  - destruct (sc_posted v); by simplify_eq.
  - destruct (sc_watching v), (ss_ctxErr (sc_str v)); by simplify_eq.
Qed.

Lemma ended_run ls v v' :
  Forall (fun l => internal l = true) ls -> run stream_step ls v = Some v' -> finish_called v -> finish_called v'.
Proof.
  intros Hls. revert v. induction Hls as [|l ls Hl _ IH]; intros v Hrun He; simpl in Hrun.
  - by simplify_eq.
  - destruct (stream_step l v) as [v1|] eqn:Hs; [|done]. by eapply IH, ended_step.
Qed.

(** When the server's goroutines have nothing left to do. *)
Lemma ended_stuck v :
  inv v -> finish_called v -> (forall l, internal l = true -> stream_step l v = None) ->
  ss_closed (sc_str v) = true /\ sc_finishing v = [] /\ sc_posted v = [] /\
  writeMu_free v = true /\ sc_watching v = false.
Proof.
  intros Hinv He Hstuck. pose proof (si_ctx _ _ _ _ Hinv He) as Hctx.
  assert (Hcall : c_call (ss_send (sc_str v)) = None).
  { destruct (c_call (ss_send (sc_str v))) as [k|] eqn:Hk; [|done].
    destruct (done_call_moves _ k Hk Hctx) as (l & Hl & [c' Hc']).
    pose proof (Hstuck (FSend l) eq_refl) as Hs. cbn [stream_step] in Hs. by rewrite Hl, Hc' in Hs. }
  assert (Hfree : writeMu_free v = true) by (unfold writeMu_free; by rewrite Hcall).
  assert (Hfin : sc_finishing v = []).
  { destruct (sc_finishing v) as [|[who err] fs] eqn:Hf; [done|].
    pose proof (Hstuck (FFinish 0) eq_refl) as Hs. cbn [stream_step] in Hs.
    rewrite Hfree, Hf in Hs. simpl in Hs. by destruct (finishStream_end err (sc_str v)). }
  split_and!; try done.
  - destruct He; [done|]. by rewrite Hfin in *.
  - pose proof (Hstuck FPosted eq_refl) as Hs. cbn [stream_step] in Hs. by destruct (sc_posted v).
  - pose proof (Hstuck FWatch eq_refl) as Hs. cbn [stream_step] in Hs.
    by destruct (sc_watching v), (ss_ctxErr (sc_str v)).
Qed.

(** C10: A stream that must end does end.  Once the handler has returned, or the
    stream was finished for any other reason, the server's own goroutines need
    finitely many actions, at most [stream_cost], and when they have none left
    the stream is closed, its one close frame and its headers have been sent,
    no goroutine waits for a mutex, and the reader's queue is cancelled. *)
Theorem server_stream_finishes ls v internals v' :
  run stream_step ls new_stream = Some v ->
  sc_returned v = true \/ sc_finishing v <> [] ->
  Forall (fun l => internal l = true) internals ->
  run stream_step internals v = Some v' ->
  len internals <= stream_cost v /\
  ((forall l, internal l = true -> stream_step l v' = None) ->
   ss_closed (sc_str v') = true /\ sc_finishing v' = [] /\ sc_posted v' = [] /\
   writeMu_free v' = true /\ sc_watching v' = false /\
   count is_headers (sc_wire v') = 1 /\ count is_close (sc_wire v') = 1).
Proof.
  intros Hrun Hend Hint Hrun'. pose proof (new_run_inv ls v Hrun) as Hinv.
  destruct (internal_run v internals v' Hinv Hint Hrun') as [Hinv' Hlen].
  pose proof (stream_cost_nonneg v' Hinv'). split; [lia|]. intros Hstuck.
  assert (Hended : finish_called v).
  { destruct Hend as [Hret|Hf]; [by apply (si_returned _ _ _ _ Hinv)|by right]. }
  destruct (ended_stuck v' Hinv' (ended_run _ _ _ Hint Hrun' Hended) Hstuck)
    as (Hcl & Hf & Hp & Hw & Hwatch).
  split_and!; try done.
  - pose proof (si_headers _ _ _ _ Hinv') as Hh. rewrite Hp, app_nil_r in Hh. rewrite Hh.
    destruct (ss_sentHeaders (sc_str v')) eqn:Hs; [done|].
    destruct (si_unsent _ _ _ _ Hinv' Hs) as [? _]. congruence.
  - pose proof (si_close _ _ _ _ Hinv') as Hc. by rewrite Hp, app_nil_r, Hcl in Hc.
Qed.
End StreamProperties.

(** ** Examples: a server-streaming RPC with one response. *)
Module ServerStreamExample.
#[local] Existing Instance ExampleStatus.lib.
#[local] Existing Instance ExampleMetadata.lib.

Definition A : bytes := [Corelib.Init.Byte.x41].
Definition start : stream_conf :=
  new_stream 1000 100 5 1 "svc/Method" false true None (newReceiver 1000 10 5).
Definition at_end (ls : list stream_label) : stream_conf := default start (run stream_step ls start).

Definition sending : list stream_label :=
  [FFrame (Some (request_frame A 1 true)); FFrame (Some ClientToServer_HalfClose); FRecv;
   FSetHeader (Some {[ "k"%string := ["v"%string] ]}) false None;
   FSendMsg None (inr A); FSend LLoad; FSend LCas; FSend (LCall None); FSend LReturn].
Definition returned : list stream_label := sending ++ [FReturn (HReturned None)].
Definition internals : list stream_label := [FWatch; FFinish 0; FPosted].

(** The client cancels; the handler goes on and sends a response. *)
Definition cancelled : list stream_label :=
  [FFrame (Some ClientToServer_Cancel); FFinish 0; FPosted; FPosted;
   FSendMsg None (inr A); FSend LLoad; FSend LCas; FSend (LCall None)].

Example received :
  sc_reads (at_end sending) = [ReadReturn (Some A) true None].
Proof. vm_compute. reflexivity. Qed.
End ServerStreamExample.

(** The close frame is not always the last one of its stream, although the
    protocol says that nothing follows it: a handler that goes on after the
    client has cancelled still sends its response. *)
Theorem server_data_after_close :
  exists ls v pre c post,
    run (stream_step (H := ExampleStatus.lib) (H0 := ExampleMetadata.lib)) ls
      ServerStreamExample.start = Some v /\
    sc_wire v = pre ++ ServerToClient_CloseStream c :: post /\
    count is_first post = 1.
Proof.
  exists ServerStreamExample.cancelled, (ServerStreamExample.at_end ServerStreamExample.cancelled).
  eexists [_], _, [_]. split_and!; vm_compute; reflexivity.
Qed.

Lemma server_frames_once_witness :
  count is_headers (sc_wire (ServerStreamExample.at_end ServerStreamExample.sending) ++
    sc_posted (ServerStreamExample.at_end ServerStreamExample.sending)) <= 1.
Proof.
  exact (proj1 (server_frames_once (H := ExampleStatus.lib) (H0 := ExampleMetadata.lib) 1000 100 5
    ltac:(vm_compute; split; congruence) ltac:(lia) ltac:(lia) ltac:(vm_compute; split; congruence)
    1 "svc/Method" false true None (newReceiver 1000 10 5) ServerStreamExample.sending
    (ServerStreamExample.at_end ServerStreamExample.sending) ltac:(vm_compute; reflexivity))).
Defined.

Lemma server_frame_order_witness :
  response (sc_wire (ServerStreamExample.at_end ServerStreamExample.sending)) = [] \/
  exists h ds, response (sc_wire (ServerStreamExample.at_end ServerStreamExample.sending)) = h :: ds /\
    is_headers h = true /\ Forall (fun f => is_data f = true) ds.
Proof.
  exact (server_frame_order (H := ExampleStatus.lib) (H0 := ExampleMetadata.lib) 1000 100 5
    ltac:(vm_compute; split; congruence) ltac:(lia) ltac:(lia) ltac:(vm_compute; split; congruence)
    1 "svc/Method" false true None (newReceiver 1000 10 5) ServerStreamExample.sending
    (ServerStreamExample.at_end ServerStreamExample.sending)
    ltac:(vm_compute; reflexivity) ltac:(vm_compute; reflexivity)).
Defined.

Lemma server_stream_finishes_witness :
  len ServerStreamExample.internals
    <= stream_cost (ServerStreamExample.at_end ServerStreamExample.returned).
Proof.
  exact (proj1 (server_stream_finishes (H := ExampleStatus.lib) (H0 := ExampleMetadata.lib) 1000 100 5
    ltac:(vm_compute; split; congruence) ltac:(lia) ltac:(lia) ltac:(vm_compute; split; congruence)
    1 "svc/Method" false true None (newReceiver 1000 10 5) ServerStreamExample.returned
    (ServerStreamExample.at_end ServerStreamExample.returned)
    ServerStreamExample.internals
    (ServerStreamExample.at_end (ServerStreamExample.returned ++ ServerStreamExample.internals))
    ltac:(vm_compute; reflexivity) ltac:(left; vm_compute; reflexivity)
    ltac:(repeat constructor) ltac:(vm_compute; reflexivity))).
Defined.

(** ** Facts for the tunnel that carries the stream *)
Section ForTunnel.
Context `{StatusLib} `{MetadataLib}.

(** The wire of a stream only grows. *)
Lemma stream_step_wire l v v' :
  stream_step l v = Some v' -> exists fs, sc_wire v' = sc_wire v ++ fs.
Proof.
  assert (Hnil : sc_wire v = sc_wire v ++ []) by (by rewrite app_nil_r).
  destruct l as [frame| |md send sendErr|md|sendErr m|l| |o|i| | |e]; cbn [stream_step]; intros Hs.
  - destruct (loop_busy v); [done|].
    destruct frame as [[ns|m|d| | |w]|]; cbn [acceptClientFrame] in Hs;
      try (destruct (accept _ _ _) as [? [?|]]); try (destruct (w =? 0));
      try (destruct (send_step _ _)); simplify_eq; by exists [].
  - destruct (send_step _ _); simplify_eq; by exists [].
  - destruct (writeMu_free v); [|done]. destruct (setHeader _ _ _ _) as [[st fs] err].
    simplify_eq. by exists fs.
  - destruct (writeMu_free v); simplify_eq; by exists [].
  - destruct (writeMu_free v); [|done]. destruct (SendMsg_begin _ _ _) as [[st fs] [e|b]];
      [|destruct (send_step _ _)]; simplify_eq; by exists fs.
  - destruct (in_send l); [|done]. destruct (send_step _ _); simplify_eq; by eexists.
  - destruct (readMsg _ _ _ _) as [[[rs us] [ret|ph]]|]; simplify_eq; [|by eexists].
    unfold recv_returned. destruct (rr_err ret), (rr_ok ret); by eexists.
  - destruct (sc_returned v); simplify_eq. by exists [].
  - destruct (writeMu_free v), (sc_finishing v !! i) as [[who err]|]; try done.
    destruct (finishStream_end _ _). simplify_eq. by exists [].
  - destruct (sc_posted v); simplify_eq. by eexists.
  - destruct (sc_watching v), (ss_ctxErr (sc_str v)); simplify_eq. by exists [].
  - destruct (send_step _ _); simplify_eq. by exists [].
Qed.

(** The steps that call it are those that lengthen [sc_finishing]. *)
Definition starts_finish (v v' : stream_conf) : Prop :=
  (length (sc_finishing v) < length (sc_finishing v'))%nat.

Lemma begin_finish_starts who err v w :
  sc_finishing w = sc_finishing v ->
  starts_finish v (begin_finish who err w) /\ finish_called (begin_finish who err w).
Proof.
  intros E. unfold starts_finish, finish_called, begin_finish. simpl. rewrite E, length_app.
  simpl. split; [lia|right]. by destruct (sc_finishing v).
Qed.

Lemma same_finish v v' :
  sc_finishing v' = sc_finishing v -> ss_closed (sc_str v') = ss_closed (sc_str v) ->
  ~ starts_finish v v' /\ (finish_called v' <-> finish_called v).
Proof. unfold starts_finish, finish_called. intros -> ->. split; [lia|done]. Qed.

Lemma stream_step_finish l v v' :
  stream_step l v = Some v' ->
  (starts_finish v v' /\ finish_called v') \/
  (~ starts_finish v v' /\ (finish_called v' <-> finish_called v)).
Proof.
  destruct l as [frame| |md send sendErr|md|sendErr m|l| |o|i| | |e]; cbn [stream_step]; intros Hs.
  - destruct (loop_busy v); [done|].
    destruct frame as [[ns|m|d| | |w]|]; cbn [acceptClientFrame] in Hs;
      try (destruct (accept _ _ _) as [? [?|]]); try (destruct (w =? 0));
      try (destruct (send_step _ _)); simplify_eq;
      try (left; by apply begin_finish_starts); right; apply same_finish; try done.
    simpl. by destruct (halfClose_same (Some EOF) (sc_str v)) as (_ & _ & _ & _ & ->).
  - destruct (send_step _ _); simplify_eq; right; by apply same_finish.
  - destruct (writeMu_free v); [|done]. unfold setHeader, sendHeadersLocked in Hs.
    destruct (ss_sentHeaders _), md, send; simplify_eq; right; by apply same_finish.
  - destruct (writeMu_free v); [|done]. unfold setTrailer in Hs.
    destruct (ss_closed (sc_str v)) eqn:Hc; simplify_eq; right; by apply same_finish.
  - destruct (writeMu_free v); [|done].
    destruct (SendMsg_begin sendErr m (sc_str v)) as [[st fs] r0] eqn:Hb0.
    destruct (SendMsg_begin_cases _ _ _ _ _ _ Hb0) as (st1 & Hst1 & Hst).
    assert (ss_closed st = ss_closed (sc_str v)).
    { destruct Hst1 as [(_ & -> & _)|(_ & -> & _)], Hst as [(-> & _)|(-> & _)]; done. }
    destruct r0; [|destruct (send_step _ _)]; simplify_eq; right; by apply same_finish.
  - destruct (in_send l); [|done]. destruct (send_step _ _); simplify_eq; right; by apply same_finish.
  - destruct (readMsg _ _ _ _) as [[[rs us] [ret|ph]]|]; simplify_eq; [|right; by apply same_finish].
    unfold recv_returned. destruct (rr_err ret); [destruct (rr_ok ret)|];
      try (left; by apply begin_finish_starts); right; by apply same_finish.
  - destruct (sc_returned v); simplify_eq. left. by apply begin_finish_starts.
  - destruct (writeMu_free v), (sc_finishing v !! i) as [[who err]|] eqn:Hi; try done.
    right. assert (Hcl : ss_closed (fst (finishStream_end err (sc_str v))) = true).
    { unfold finishStream_end. destruct (ss_closed (sc_str v)) eqn:Hc,
        (negb (ss_sentHeaders (sc_str v))); done. }
    destruct (finishStream_end err (sc_str v)) as [st fs]. simplify_eq.
    unfold starts_finish, finish_called. simpl in *. rewrite length_delete by done.
    split; [lia|]. split; [|by left]. intros _. right. intros Hnil. by rewrite Hnil in Hi.
  - destruct (sc_posted v); simplify_eq; right; by apply same_finish.
  - destruct (sc_watching v), (ss_ctxErr (sc_str v)); simplify_eq; right; by apply same_finish.
  - destruct (send_step _ _); simplify_eq; right; by apply same_finish.
Qed.
End ForTunnel.
