(* ===== verification/TunnelServer.v ===== *)
(** * The tunnel server

    [tunnelServer] of tunnel_server.go: the receive loop [serve], the table of
    active streams and the creation of streams.  The streams and their
    goroutines are those of ServerStream; here they run together, and the
    receive loop hands them the frames that arrive. *)
From S2P Require Import Prelude Status Protocol FlowSender FlowReceiver Reassembly.
From S2P Require Import Options Timeout ServerStream.
From Stdlib Require Import Ascii.

(** ** Registered services

    The parts of [grpc.ServiceDesc] that the code looks at.  [QueryService] of
    [grpchan.HandlerMap] is not part of the repository: it is an argument, the
    function from the name of a service to its description. *)
Record StreamDesc := MkStreamDesc {
  StreamName : string;
  ClientStreams : bool;
  ServerStreams : bool;
}.

Record ServiceDesc := MkServiceDesc {
  Methods : list string;
  Streams : list StreamDesc;
}.

Inductive method_desc := UnaryMethod (name : string) | StreamMethod (sd : StreamDesc).

Definition findMethod (sd : ServiceDesc) (method : string) : option method_desc :=
  match List.find (String.eqb method) (Methods sd) with
  | Some name => Some (UnaryMethod name)
  | None =>
      match List.find (fun s => String.eqb method (StreamName s)) (Streams sd) with
      | Some s => Some (StreamMethod s)
      | None => None
      end
  end.

Definition method_streams (md : method_desc) : bool * bool :=
  match md with
  | UnaryMethod _ => (false, false)
  | StreamMethod sd => (ClientStreams sd, ServerStreams sd)
  end.

(** [strings.TrimPrefix(name, "/")] and [strings.SplitN(name, "/", 2)]. *)
Definition trim_slash (s : string) : string :=
  match s with
  | String c s' => if Ascii.eqb c "/"%char then s' else s
  | EmptyString => s
  end.

Fixpoint split_slash (s : string) : option (string * string) :=
  match s with
  | EmptyString => None
  | String c s' =>
      if Ascii.eqb c "/"%char then Some (EmptyString, s')
      else match split_slash s' with
           | Some (service, method) => Some (String c service, method)
           | None => None
           end
  end.

(** ** State

    [ts_objects] has every stream that was created, under its ID; the keys of
    the map [streams] are [ts_streams].  A stream that has left the map lives on
    in its goroutines.  [ts_posted] are the messages of goroutines that are
    started only to send one message: the settings and the close frames of
    rejected streams. *)
Record tunnelServer := TunnelServer {
  ts_clientAcceptsSettings : bool;
  ts_reverse : bool;
  ts_opts : tunnelOpts;
  ts_ctxErr : option error;                (** the context of the tunnel *)
  ts_streams : gset Z;
  ts_lastSeen : Z;
  ts_objects : gmap Z stream_conf;
  ts_loop : option Z;                      (** the stream the receive loop was in last *)
  ts_posted : list ServerToClient;
  ts_wire : list ServerToClient;           (** the messages given to [stream.Send] *)
  ts_result : option (option error);       (** what [serve] has returned *)
}.

Definition set_table (streams : gset Z) (lastSeen : Z) (objects : gmap Z stream_conf)
    (s : tunnelServer) : tunnelServer :=
  TunnelServer (ts_clientAcceptsSettings s) (ts_reverse s) (ts_opts s) (ts_ctxErr s)
    streams lastSeen objects (ts_loop s) (ts_posted s) (ts_wire s) (ts_result s).
Definition set_loop (id : Z) (s : tunnelServer) : tunnelServer :=
  TunnelServer (ts_clientAcceptsSettings s) (ts_reverse s) (ts_opts s) (ts_ctxErr s)
    (ts_streams s) (ts_lastSeen s) (ts_objects s) (Some id) (ts_posted s) (ts_wire s) (ts_result s).
Definition set_out (posted wire : list ServerToClient) (s : tunnelServer) : tunnelServer :=
  TunnelServer (ts_clientAcceptsSettings s) (ts_reverse s) (ts_opts s) (ts_ctxErr s)
    (ts_streams s) (ts_lastSeen s) (ts_objects s) (ts_loop s) posted wire (ts_result s).

(** [serveTunnel] up to the loop. *)
Definition settings_message (opts : tunnelOpts) : ServerToClient := {|
  S2C_StreamId := -1;
  S2C_Frame := Some (ServerToClient_Settings
    {| SupportedProtocolRevisions := supportedRevisions;
       Settings_InitialWindowSize := initialWindowSize opts |}) |}.

Definition serveTunnel (clientAcceptsSettings reverse : bool) (opts : tunnelOpts)
    (ctxErr : option error) : tunnelServer := {|
  ts_clientAcceptsSettings := clientAcceptsSettings;
  ts_reverse := reverse;
  ts_opts := opts;
  ts_ctxErr := ctxErr;
  ts_streams := ∅;
  ts_lastSeen := -1;
  ts_objects := ∅;
  ts_loop := None;
  ts_posted := if clientAcceptsSettings then [settings_message opts] else [];
  ts_wire := [];
  ts_result := None |}.

Section TunnelServer.
Context `{StatusLib} `{MetadataLib} (QueryService : string -> option ServiceDesc).

(** ** createStream *)

(** The context of a new stream: a timeout that has already passed leaves it
    done, unless the tunnel's context is. *)
Definition stream_ctxErr (tunnelErr : option error) (headers : MD) : option error :=
  match tunnelErr with
  | Some e => Some e
  | None =>
      match timeoutFromHeaders headers with
      | Some d => if d <=? 0 then Some ContextDeadlineExceeded else None
      | None => None
      end
  end.

(** The checks that reject a stream, in the order of the code, up to the method
    that will be run with its name. *)
Definition check_stream (closing clientAcceptsSettings reverse : bool) (frame : NewStream)
    : error + (string * method_desc) :=
  let (self, peer) := tunnelRoles reverse in
  let revision := ProtocolRevision frame in
  if closing then inl (Errorf Unavailable "%s is shutting down" [AStr self])
  else if revision =? REVISION_ZERO then
    if clientAcceptsSettings
    then inl (Errorf FailedPrecondition
      "%s does not support protocol revision %d anymore; %s must not disable flow control"
      [AStr self; AInt revision; AStr peer])
    else inl (Errorf FailedPrecondition
      "%s does not support protocol revision %d anymore; upgrade %s to v0.3 or later"
      [AStr self; AInt revision; AStr peer])
  else if negb (bool_decide (revision ∈ supportedRevisions)) then
    inl (Errorf FailedPrecondition "%s does not support protocol revision %d"
      [AStr self; AInt revision])
  else if NewStream_InitialWindowSize frame <? minWindowSize revision then
    inl (Errorf Internal
      "protocol error: %s sent invalid initial window size of %d; must be at least %d"
      [AStr peer; AInt (NewStream_InitialWindowSize frame); AInt (minWindowSize revision)])
  else
    let name := trim_slash (MethodName frame) in
    match split_slash name with
    | None => inl (Errorf InvalidArgument "%s is not a well-formed method name" [AStr name])
    | Some (service, method) =>
        match (match QueryService service with
               | Some sd => findMethod sd method
               | None => None
               end) with
        | None => inl (Errorf Unimplemented "%s not implemented" [AStr name])
        | Some md => inr (name, md)
        end
    end.

(** The stream with its sender and receiver. *)
Definition make_stream (opts : tunnelOpts) (tunnelErr : option error) (streamID : Z)
    (frame : NewStream) (name : string) (md : method_desc) : server_stream :=
  let headers := fromProto (RequestHeaders frame) in
  let msgOverhead := messageOverhead (ProtocolRevision frame) in
  new_server_stream streamID name (fst (method_streams md)) (snd (method_streams md))
    (stream_ctxErr tunnelErr headers)
    (newSender (NewStream_InitialWindowSize frame) (maxChunkSize opts) msgOverhead)
    (newReceiver (initialWindowSize opts) (minWindowUpdateSize opts) msgOverhead).

Definition createStream (closing : bool) (streamID : Z) (frame : NewStream) (s : tunnelServer)
    : tunnelServer * (bool * option error) :=
  if bool_decide (streamID ∈ ts_streams s) then
    (s, (false, Some (Errorf Internal
      "protocol error: cannot create stream ID %d: already exists" [AInt streamID])))
  else if streamID <=? ts_lastSeen s then
    (s, (false, Some (Errorf Internal
      "protocol error: cannot create stream ID %d: that ID has already been used" [AInt streamID])))
  else
    match check_stream closing (ts_clientAcceptsSettings s) (ts_reverse s) frame with
    | inl e => (set_table (ts_streams s) streamID (ts_objects s) s, (true, Some e))
    | inr (name, md) =>
        let str := make_stream (ts_opts s) (ts_ctxErr s) streamID frame name md in
        (set_table ({[streamID]} ∪ ts_streams s) streamID
           (<[streamID := stream_start str]> (ts_objects s)) s, (true, None))
    end.

(** ** getStream and removeStream *)
Inductive get_stream := Found | Ignored | NeverCreated (err : error).

Definition getStream (streamID : Z) (s : tunnelServer) : get_stream :=
  if bool_decide (streamID ∈ ts_streams s) then Found
  else if streamID <=? ts_lastSeen s then Ignored
  else NeverCreated (Errorf Internal
    "protocol error: received frame for stream ID %d: stream never created" [AInt streamID]).

Definition removeStream (streamID : Z) (s : tunnelServer) : tunnelServer :=
  set_table (ts_streams s ∖ {[streamID]}) (ts_lastSeen s) (ts_objects s) s.

(** ** The tunnel at work *)

(** An action of a stream: what it adds to the stream's wire goes out with the
    stream's ID, and a call of [finishStream] that it starts removes the stream
    from the table. *)
Definition began_finish (v v' : stream_conf) : bool :=
  bool_decide (length (sc_finishing v) < length (sc_finishing v'))%nat.

Definition new_frames (v v' : stream_conf) : list ServerToClientFrame :=
  drop (length (sc_wire v)) (sc_wire v').

Definition tag (id : Z) (f : ServerToClientFrame) : ServerToClient :=
  {| S2C_StreamId := id; S2C_Frame := Some f |}.

Definition run_stream (id : Z) (l : stream_label) (s : tunnelServer) : option tunnelServer :=
  match ts_objects s !! id with
  | Some v =>
      match stream_step l v with
      | Some v' =>
          let s' := set_out (ts_posted s) (ts_wire s ++ (tag id <$> new_frames v v'))
                      (set_table (ts_streams s) (ts_lastSeen s) (<[id := v']> (ts_objects s)) s) in
          Some (if began_finish v v' then removeStream id s' else s')
      | None => None
      end
  | None => None
  end.

(** The receive loop waits in [Recv]. *)
Definition loop_idle (s : tunnelServer) : bool :=
  match ts_result s with
  | Some _ => false
  | None =>
      match ts_loop s with
      | Some id =>
          match ts_objects s !! id with Some v => negb (loop_busy v) | None => true end
      | None => true
      end
  end.

(** [serve] returns: its deferred [cancel] ends the contexts of all streams. *)
Definition cancel_stream (v : stream_conf) : stream_conf :=
  set_str (with_send (cancel_ctx ContextCanceled (ss_send (sc_str v))) (sc_str v)) v.

Definition serve_return (err : option error) (s : tunnelServer) : tunnelServer :=
  TunnelServer (ts_clientAcceptsSettings s) (ts_reverse s) (ts_opts s)
    (match ts_ctxErr s with Some e => Some e | None => Some ContextCanceled end)
    (ts_streams s) (ts_lastSeen s) (cancel_stream <$> ts_objects s) (ts_loop s)
    (ts_posted s) (ts_wire s) (Some err).

(** The close message for a stream that is rejected. *)
Definition reject_message (streamID : Z) (err : error) : ServerToClient :=
  tag streamID (ServerToClient_CloseStream
    {| ResponseTrailers := None; CloseStatus := fst (FromError (Some err)) |}).

(** One round of the loop of [serve]; [closing] is what [isClosing] returns. *)
Definition serve_recv (closing : bool) (res : error + ClientToServer) (s : tunnelServer)
    : option tunnelServer :=
  match res with
  | inl e => Some (serve_return (if is_EOF e then None else Some e) s)
  | inr m =>
      let id := C2S_StreamId m in
      match C2S_Frame m with
      | Some (ClientToServer_NewStream frame) =>
          match createStream closing id frame s with
          | (s', (_, None)) => Some s'
          | (s', (false, Some e)) => Some (serve_return (Some e) s')
          | (s', (true, Some e)) =>
              Some (set_out (ts_posted s' ++ [reject_message id e]) (ts_wire s') s')
          end
      | frame =>
          match getStream id s with
          | NeverCreated e => Some (serve_return (Some e) s)
          | Ignored => Some s
          | Found => run_stream id (FFrame frame) (set_loop id s)
          end
      end
  end.

Inductive server_label :=
  | TRecv (closing : bool) (res : error + ClientToServer)
  | TStream (id : Z) (l : stream_label)
  | TPosted (i : nat)                   (** a goroutine with one message sends it *)
  | TCtx (e : error).                   (** the context of the tunnel is done *)

Definition server_step (l : server_label) (s : tunnelServer) : option tunnelServer :=
  match l with
  | TRecv closing res => if loop_idle s then serve_recv closing res s else None
  | TStream id (FFrame _) => None
  | TStream id l => run_stream id l s
  | TPosted i =>
      match ts_posted s !! i with
      | Some m => Some (set_out (delete i (ts_posted s)) (ts_wire s ++ [m]) s)
      | None => None
      end
  | TCtx e =>
      match ts_ctxErr s with
      | None => Some (TunnelServer (ts_clientAcceptsSettings s) (ts_reverse s) (ts_opts s)
          (Some e) (ts_streams s) (ts_lastSeen s)
          ((fun v => set_str (with_send (cancel_ctx e (ss_send (sc_str v))) (sc_str v)) v)
             <$> ts_objects s)
          (ts_loop s) (ts_posted s) (ts_wire s) (ts_result s))
      | Some _ => None
      end
  end.
End TunnelServer.

(** ** What is sent for a stream *)
Definition frames_of (id : Z) (ms : list ServerToClient) : list ServerToClientFrame :=
  List.flat_map (fun m => if S2C_StreamId m =? id then option_list (S2C_Frame m) else []) ms.

Lemma frames_of_app id a b : frames_of id (a ++ b) = frames_of id a ++ frames_of id b.
Proof. apply List.flat_map_app. Qed.

Lemma frames_of_cons id m ms :
  frames_of id (m :: ms)
  = (if S2C_StreamId m =? id then option_list (S2C_Frame m) else []) ++ frames_of id ms.
Proof. done. Qed.

Lemma frames_of_tag id fs : frames_of id (tag id <$> fs) = fs.
Proof.
  induction fs as [|f fs IH]; [done|]. rewrite fmap_cons, frames_of_cons, IH. simpl.
  by rewrite Z.eqb_refl.
Qed.

Lemma frames_of_tag_other id id' fs : id <> id' -> frames_of id (tag id' <$> fs) = [].
Proof.
  intros Hne. induction fs as [|f fs IH]; [done|]. rewrite fmap_cons, frames_of_cons, IH. simpl.
  destruct (Z.eqb_spec id' id); [by subst|done].
Qed.

Lemma frames_of_perm id a b : a ≡ₚ b -> frames_of id a ≡ₚ frames_of id b.
Proof. apply Permutation_flat_map. Qed.

(** Moving a message from [posted] to the wire. *)
Lemma frames_of_posted id wire posted i m :
  posted !! i = Some m ->
  frames_of id ((wire ++ [m]) ++ delete i posted) ≡ₚ frames_of id (wire ++ posted).
Proof.
  intros Hi. apply frames_of_perm. rewrite <- app_assoc. apply Permutation_app_head.
  symmetry. by apply delete_Permutation.
Qed.

(** ** Method names *)
Fixpoint no_slash (s : string) : bool :=
  match s with
  | EmptyString => true
  | String c s => negb (Ascii.eqb c "/"%char) && no_slash s
  end.

Lemma split_slash_spec s service method :
  split_slash s = Some (service, method) <->
  s = (service ++ String "/" method)%string /\ no_slash service = true.
Proof.
  revert service. induction s as [|c s IH]; intros service; cbn [split_slash].
  - split; [done|]. intros [Hs _]. by destruct service.
  - destruct (Ascii.eqb_spec c "/"%char) as [->|Hc].
    + split.
      * intros [= <- <-]. done.
      * intros [Hs Hn]. destruct service as [|c' service]; [by injection Hs as <-|].
        injection Hs as <- _. done.
    + destruct (split_slash s) as [[sv m]|] eqn:Hsp.
      * assert (IH' : forall service', Some (sv, m) = Some (service', method) <->
            s = (service' ++ String "/" method)%string /\ no_slash service' = true)
          by (intros; apply IH).
        split.
        -- intros [= <- ->]. destruct (proj1 (IH' sv) eq_refl) as [-> Hn].
           split; [done|]. simpl. rewrite Hn. by destruct (Ascii.eqb_spec c "/"%char).
        -- intros [Hs Hn]. destruct service as [|c' service]; [by injection Hs as ->|].
           injection Hs as <- Hs. simpl in Hn. apply andb_true_iff in Hn as [_ Hn].
           by pose proof (proj2 (IH' service) (conj Hs Hn)) as [= -> ->].
      * split; [done|]. intros [Hs Hn]. destruct service as [|c' service]; [by injection Hs as ->|].
        injection Hs as <- Hs. simpl in Hn. apply andb_true_iff in Hn as [_ Hn].
        by pose proof (proj2 (IH service) (conj Hs Hn)).
Qed.

Lemma findMethod_spec sd method :
  is_Some (findMethod sd method) <->
  method ∈ Methods sd \/ exists s, s ∈ Streams sd /\ StreamName s = method.
Proof.
  unfold findMethod. destruct (List.find (String.eqb method) (Methods sd)) as [name|] eqn:Hm.
  - apply List.find_some in Hm as [Hin Heq%String.eqb_eq]. subst name.
    split; [|eauto]. intros _. left. by apply list_elem_of_In.
  - pose proof (List.find_none _ _ Hm) as Hno.
    destruct (List.find _ (Streams sd)) as [s|] eqn:Hs.
    + apply List.find_some in Hs as [Hin Heq%String.eqb_eq]. split; [|eauto].
      intros _. right. exists s. split; [by apply list_elem_of_In|done].
    + pose proof (List.find_none _ _ Hs) as Hno'. split; [by intros [? ?]|].
      intros [Hin|(s & Hin & Hname)]; exfalso.
      * apply list_elem_of_In, Hno in Hin. by rewrite String.eqb_refl in Hin.
      * apply list_elem_of_In, Hno' in Hin. rewrite Hname in Hin. by rewrite String.eqb_refl in Hin.
Qed.

Lemma not_removed (id : Z) (X : gset Z) : id ∈ X ∖ {[id]} -> False.
Proof. by intros [_ []%not_elem_of_singleton]%elem_of_difference. Qed.
Lemma removed_other (id id' : Z) (X : gset Z) : id' <> id -> id' ∈ X ∖ {[id]} <-> id' ∈ X.
Proof. rewrite elem_of_difference, elem_of_singleton. tauto. Qed.

(** ** Invariant *)

(** The window of a new stream is a [uint32]. *)
Definition label_ok (l : server_label) : Prop :=
  match l with
  | TRecv _ (inr m) =>
      match C2S_Frame m with
      | Some (ClientToServer_NewStream frame) => is_u32 (NewStream_InitialWindowSize frame)
      | _ => True
      end
  | _ => True
  end.

Section ServerInvariant.
Context `{StatusLib} `{MetadataLib} (QueryService : string -> option ServiceDesc).

Abbreviation step := (server_step QueryService).

(** A stream object: the invariant of its stream, for the window that its
    client announced. *)
Definition object_ok (opts : tunnelOpts) (v : stream_conf) : Prop :=
  exists W ov, is_u32 W /\ 1 <= W /\ 0 <= ov < MaxUint32 /\ stream_inv W (maxChunkSize opts) ov v.

(** What has been sent for an ID that the client may use: what its stream has
    sent, or, when the stream was rejected, its close frame. *)
Definition out_ok (s : tunnelServer) (id : Z) : Prop :=
  match ts_objects s !! id with
  | Some v => frames_of id (ts_wire s) = sc_wire v /\ frames_of id (ts_posted s) = []
  | None =>
      frames_of id (ts_wire s ++ ts_posted s) = [] \/
      (id <= ts_lastSeen s /\
       exists c, frames_of id (ts_wire s ++ ts_posted s) = [ServerToClient_CloseStream c])
  end.

Record server_inv (s : tunnelServer) : Prop := {
  vi_opts : opts_ok (ts_opts s);
  vi_seen : -1 <= ts_lastSeen s;
  vi_ids : forall id v, ts_objects s !! id = Some v -> 0 <= id <= ts_lastSeen s;
  vi_active : forall id, id ∈ ts_streams s <->
    exists v, ts_objects s !! id = Some v /\ ~ finish_called v;
  vi_objects : forall id v, ts_objects s !! id = Some v -> object_ok (ts_opts s) v;
  vi_out : forall id, 0 <= id -> out_ok s id;
}.

Lemma check_stream_ok closing accepts reverse frame name md :
  check_stream QueryService closing accepts reverse frame = inr (name, md) ->
  closing = false /\ ProtocolRevision frame ∈ supportedRevisions /\
  minWindowSize (ProtocolRevision frame) <= NewStream_InitialWindowSize frame /\
  name = trim_slash (MethodName frame) /\
  exists service method sd, split_slash name = Some (service, method) /\
    QueryService service = Some sd /\ findMethod sd method = Some md.
Proof.
  unfold check_stream. destruct (tunnelRoles reverse) as [self peer].
  destruct closing; [done|].
  destruct (Z.eqb_spec (ProtocolRevision frame) REVISION_ZERO); [by destruct accepts|].
  destruct (bool_decide (ProtocolRevision frame ∈ supportedRevisions)) eqn:Hrev; [|done].
  apply bool_decide_eq_true in Hrev. cbn [negb].
  destruct (Z.ltb_spec (NewStream_InitialWindowSize frame) (minWindowSize (ProtocolRevision frame)));
    [done|].
  destruct (split_slash (trim_slash (MethodName frame))) as [[service method]|] eqn:Hs; [|done].
  destruct (QueryService service) as [sd|] eqn:Hq; [|done].
  destruct (findMethod sd method) as [md'|] eqn:Hf; [|done].
  intros [= <- <-]. split_and!; try done. eauto 10.
Qed.

Lemma new_object_ok opts tunnelErr id frame name md :
  opts_ok opts -> is_u32 (NewStream_InitialWindowSize frame) ->
  minWindowSize (ProtocolRevision frame) <= NewStream_InitialWindowSize frame ->
  object_ok opts (stream_start (make_stream opts tunnelErr id frame name md)) /\
  ~ finish_called (stream_start (make_stream opts tunnelErr id frame name md)).
Proof.
  intros Hopts Hw Hmin. rewrite minWindowSize_eq in Hmin.
  assert (Hov : 0 <= messageOverhead (ProtocolRevision frame) < MaxUint32).
  { by destruct (messageOverhead_cases (ProtocolRevision frame)) as [-> | ->]. }
  split; [|by intros [?|?]].
  exists (NewStream_InitialWindowSize frame), (messageOverhead (ProtocolRevision frame)).
  split_and!; [exact Hw|lia|apply Hov|apply Hov|].
  apply new_stream_inv; [done|lia|apply Hopts|done].
Qed.

Lemma cancel_stream_ok opts e v :
  opts_ok opts -> object_ok opts v ->
  object_ok opts (set_str (with_send (cancel_ctx e (ss_send (sc_str v))) (sc_str v)) v).
Proof.
  intros [_ [Hc _] _ _] (W & ov & HW & HW1 & Hov & Hinv). exists W, ov. split_and!; try done; try lia.
  by apply inv_cancel_ctx.
Qed.

(** Ending contexts changes no stream otherwise. *)
Lemma inv_contexts s s' e :
  server_inv s ->
  ts_objects s' = (fun v => set_str (with_send (cancel_ctx e (ss_send (sc_str v))) (sc_str v)) v)
                    <$> ts_objects s ->
  ts_opts s' = ts_opts s -> ts_lastSeen s' = ts_lastSeen s -> ts_streams s' = ts_streams s ->
  ts_posted s' = ts_posted s -> ts_wire s' = ts_wire s -> server_inv s'.
Proof.
  intros [Ho Hs Hi Ha Hob Hout] E1 E2 E3 E4 E5 E6.
  assert (Hlook : forall id v', ts_objects s' !! id = Some v' -> exists v,
    ts_objects s !! id = Some v /\
    v' = set_str (with_send (cancel_ctx e (ss_send (sc_str v))) (sc_str v)) v).
  { intros id v' Hv. rewrite E1, lookup_fmap in Hv.
    destruct (ts_objects s !! id) as [v|]; simplify_eq/=. eauto. }
  split; rewrite ?E2, ?E3, ?E4; auto.
  - intros id v' (v & Hv & _)%Hlook. by eapply Hi.
  - intros id. rewrite Ha. split.
    + intros (v & Hv & Hf). rewrite E1, lookup_fmap, Hv. by eexists.
    + intros (v' & (v & Hv & ->)%Hlook & Hf). by exists v.
  - intros id v' (v & Hv & ->)%Hlook. apply cancel_stream_ok; [done|]. by eapply Hob.
  - intros id Hid. specialize (Hout id Hid). unfold out_ok in *.
    rewrite E1, E3, E5, E6, lookup_fmap. by destruct (ts_objects s !! id).
Qed.

Lemma began_finish_spec v v' : began_finish v v' = true <-> starts_finish v v'.
Proof. apply bool_decide_eq_true. Qed.

(** An action of one stream. *)
Lemma inv_run_stream id l s s' :
  server_inv s -> run_stream id l s = Some s' -> server_inv s'.
Proof.
  intros [Ho Hs Hi Ha Hob Hout] Hrun. unfold run_stream in Hrun.
  destruct (ts_objects s !! id) as [v|] eqn:Hv; [|done].
  destruct (stream_step l v) as [v'|] eqn:Hstep; [|done].
  destruct (stream_step_wire _ _ _ Hstep) as (fs & Hfs).
  assert (Hnew : new_frames v v' = fs) by (unfold new_frames; by rewrite Hfs, drop_app_length).
  assert (Hob' : object_ok (ts_opts s) v').
  { destruct (Hob id v Hv) as (W & ov & HW & HW1 & Hov & Hinv). exists W, ov. split_and!; try done; try lia.
    eapply stream_inv_step; [..|exact Hinv|exact Hstep]; try done. apply Ho. }
  assert (Hlook : forall id' w, <[id := v']> (ts_objects s) !! id' = Some w ->
    (id' = id /\ w = v') \/ (id' <> id /\ ts_objects s !! id' = Some w)).
  { intros id' w. rewrite lookup_insert_Some. intros [[<- <-]|[? ?]]; [by left|by right]. }
  set (streams := if began_finish v v' then ts_streams s ∖ {[id]} else ts_streams s).
  assert (Hs' : s' = set_out (ts_posted s) (ts_wire s ++ (tag id <$> new_frames v v'))
                  (set_table streams (ts_lastSeen s) (<[id := v']> (ts_objects s)) s)).
  { unfold streams. by destruct (began_finish v v'); injection Hrun as <-. }
  rewrite Hnew in Hs'. subst s'. split; simpl; auto.
  - intros id' w [[-> ->]|[_ Hw]]%Hlook; eauto.
  - intros id'. destruct (decide (id' = id)) as [->|Hne].
    + assert (Hact : id ∈ streams <-> ~ finish_called v').
      { destruct (stream_step_finish _ _ _ Hstep) as [[Hst Hf]|[Hst Hf]]; unfold streams.
        - rewrite (proj2 (began_finish_spec v v') Hst).
          split; [by intros ?%not_removed|done].
        - destruct (began_finish v v') eqn:Hb; [by apply began_finish_spec in Hb|].
          rewrite Ha, Hf. split; [by intros (w & Hw & ?); simplify_eq|by exists v]. }
      rewrite Hact. split.
      * exists v'. by rewrite lookup_insert_eq.
      * intros (w & Hw & ?). rewrite lookup_insert_eq in Hw. by simplify_eq.
    + assert (id' ∈ streams <-> id' ∈ ts_streams s) as ->.
      { unfold streams. destruct (began_finish v v'); [by apply removed_other|done]. }
      rewrite Ha. by setoid_rewrite (lookup_insert_ne _ _ _ _ (not_eq_sym Hne)).
  - intros id' w [[-> ->]|[_ Hw]]%Hlook; eauto.
  - intros id' Hid'. specialize (Hout id' Hid'). unfold out_ok in *. simpl.
    destruct (decide (id' = id)) as [->|Hne].
    + rewrite lookup_insert_eq. rewrite Hv in Hout. destruct Hout as [Hw Hp].
      by rewrite frames_of_app, frames_of_tag, Hw, Hfs.
    + rewrite lookup_insert_ne by done. destruct (ts_objects s !! id') as [w|].
      * by rewrite frames_of_app, frames_of_tag_other, app_nil_r.
      * rewrite !frames_of_app in *. by rewrite frames_of_tag_other, app_nil_r.
Qed.

(** The outcomes of [createStream]. *)
Lemma createStream_cases closing id frame s :
  server_inv s -> is_u32 (NewStream_InitialWindowSize frame) ->
  (id <= ts_lastSeen s /\
   exists e, createStream QueryService closing id frame s = (s, (false, Some e))) \/
  (ts_lastSeen s < id /\
   ((exists e, createStream QueryService closing id frame s
       = (set_table (ts_streams s) id (ts_objects s) s, (true, Some e))) \/
    (exists v, object_ok (ts_opts s) v /\ ~ finish_called v /\ sc_wire v = [] /\ closing = false /\
       createStream QueryService closing id frame s
       = (set_table ({[id]} ∪ ts_streams s) id (<[id := v]> (ts_objects s)) s, (true, None))))).
Proof.
  intros [Ho Hs Hi Ha Hob _] Hw. unfold createStream.
  destruct (bool_decide (id ∈ ts_streams s)) eqn:Hin.
  { apply bool_decide_eq_true, Ha in Hin as (v & Hv & _). apply Hi in Hv. left. split; [lia|eauto]. }
  destruct (Z.leb_spec id (ts_lastSeen s)) as [Hle|Hlt]; [left; eauto|right]. split; [done|].
  destruct (check_stream _ _ _ _ _) as [e|[name md]] eqn:Hc; [left; eauto|right].
  destruct (check_stream_ok _ _ _ _ _ _ Hc) as (Hcl & _ & Hmin & _).
  destruct (new_object_ok (ts_opts s) (ts_ctxErr s) id frame name md Ho Hw Hmin).
  eexists. by split_and!.
Qed.

(** A new ID is used. *)
Lemma inv_reject id e s :
  server_inv s -> ts_lastSeen s < id ->
  server_inv (set_out (ts_posted s ++ [reject_message id e]) (ts_wire s)
                (set_table (ts_streams s) id (ts_objects s) s)).
Proof.
  intros [Ho Hs Hi Ha Hob Hout] Hlt. split; simpl; auto.
  - lia.
  - intros id' v Hv. apply Hi in Hv. lia.
  - intros id' Hid'. specialize (Hout id' Hid'). unfold out_ok in *. simpl.
    assert (Hone : frames_of id' [reject_message id e]
      = if id =? id' then option_list (S2C_Frame (reject_message id e)) else []).
    { rewrite frames_of_cons. simpl. by rewrite app_nil_r. }
    rewrite app_assoc, !(frames_of_app _ _ [_]), Hone.
    destruct (Z.eqb_spec id id') as [<-|Hne]; [|rewrite !app_nil_r].
    + destruct (ts_objects s !! id) as [v|] eqn:Hv; [apply Hi in Hv; lia|].
      destruct Hout as [Hf|[? _]]; [|lia]. rewrite Hf. simpl. right. split; [lia|]. by eexists.
    + destruct (ts_objects s !! id') as [v|]; [done|].
      destruct Hout as [?|[? ?]]; [by left|right; split; [lia|done]].
Qed.

Lemma inv_create id v s :
  server_inv s -> ts_lastSeen s < id -> object_ok (ts_opts s) v -> ~ finish_called v ->
  sc_wire v = [] ->
  server_inv (set_table ({[id]} ∪ ts_streams s) id (<[id := v]> (ts_objects s)) s).
Proof.
  intros [Ho Hs Hi Ha Hob Hout] Hlt Hv Hf Hw.
  assert (Hnew : ts_objects s !! id = None).
  { destruct (ts_objects s !! id) eqn:Hlook; [apply Hi in Hlook; lia|done]. }
  split; simpl; auto; [lia| | | |].
  - intros id' w. rewrite lookup_insert_Some. intros [[<- _]|[_ Hlook]]; [lia|].
    apply Hi in Hlook. lia.
  - intros id'. rewrite elem_of_union, elem_of_singleton, Ha.
    destruct (decide (id' = id)) as [->|Hne].
    + split; [|by left]. intros _. exists v. by rewrite lookup_insert_eq.
    + setoid_rewrite (lookup_insert_ne _ _ _ _ (not_eq_sym Hne)).
      split; [by intros [?|?]|by right].
  - intros id' w. rewrite lookup_insert_Some. intros [[_ <-]|[_ Hlook]]; eauto.
  - intros id' Hid'. specialize (Hout id' Hid'). unfold out_ok in *. simpl.
    destruct (decide (id' = id)) as [->|Hne].
    + rewrite lookup_insert_eq, Hw. rewrite Hnew in Hout.
      destruct Hout as [Hn|[? _]]; [|lia]. rewrite frames_of_app in Hn. by apply app_nil in Hn.
    + rewrite lookup_insert_ne by done. destruct (ts_objects s !! id'); [done|].
      destruct Hout as [?|[? ?]]; [by left|right; split; [lia|done]].
Qed.

Lemma inv_serve_return err s : server_inv s -> server_inv (serve_return err s).
Proof. intros Hinv. by apply (inv_contexts s _ ContextCanceled). Qed.

Lemma inv_set_loop id s : server_inv s -> server_inv (set_loop id s).
Proof. by intros [Ho Hs Hi Ha Hob Hout]. Qed.

(** Every action keeps the invariant. *)
Lemma server_inv_step l s s' :
  label_ok l -> server_inv s -> step l s = Some s' -> server_inv s'.
Proof.
  intros Hl Hinv Hstep. destruct l as [closing res|id l|i|e]; cbn [server_step] in Hstep.
  - destruct (loop_idle s); [|done]. destruct res as [e|m]; cbn [serve_recv] in Hstep.
    { injection Hstep as <-. by apply inv_serve_return. }
    assert (Hframe : forall frame, match getStream (C2S_StreamId m) s with
        | NeverCreated e => Some (serve_return (Some e) s)
        | Ignored => Some s
        | Found => run_stream (C2S_StreamId m) (FFrame frame) (set_loop (C2S_StreamId m) s)
        end = Some s' -> server_inv s').
    { intros frame. destruct (getStream _ _); intros Hr.
      - eapply inv_run_stream, Hr. by apply inv_set_loop.
      - by injection Hr as <-.
      - injection Hr as <-. by apply inv_serve_return. }
    simpl in Hl. destruct (C2S_Frame m) as [[frame| | | | |]|]; try (by eapply Hframe).
    destruct (createStream_cases closing (C2S_StreamId m) frame s Hinv Hl)
      as [(_ & e & Hc)|(Hlt & [(e & Hc)|(v & Hv & Hf & Hw & _ & Hc)])];
      rewrite Hc in Hstep; injection Hstep as <-.
    + by apply inv_serve_return.
    + by apply inv_reject.
    + by apply inv_create.
  - destruct l; try done; by eapply inv_run_stream.
  - destruct (ts_posted s !! i) as [m|] eqn:Hi; [|done]. injection Hstep as <-.
    destruct Hinv as [Ho Hs Hids Ha Hob Hout]. split; simpl; auto.
    intros id Hid. specialize (Hout id Hid). unfold out_ok in *. simpl.
    pose proof (frames_of_posted id (ts_wire s) (ts_posted s) i m Hi) as Hperm.
    destruct (ts_objects s !! id) as [v|].
    + destruct Hout as [Hw Hp]. rewrite <- Hw.
      pose proof (frames_of_perm id _ _ (delete_Permutation _ _ _ Hi)) as Hp'.
      rewrite Hp, frames_of_cons in Hp'. apply Permutation_nil_l in Hp'.
      symmetry in Hp'. apply app_nil in Hp' as [Hm Hd].
      rewrite frames_of_app, frames_of_cons, Hm. simpl. by rewrite app_nil_r.
    + destruct Hout as [Hn|(Hle & c & Hc)].
      * left. rewrite Hn in Hperm. by apply Permutation_nil_r in Hperm.
      * right. split; [done|]. exists c. rewrite Hc in Hperm. by apply Permutation_singleton_r in Hperm.
  - destruct (ts_ctxErr s); [done|]. injection Hstep as <-. by apply (inv_contexts s _ e).
Qed.

Lemma server_start_inv accepts reverse opts ctxErr :
  opts_ok opts -> server_inv (serveTunnel accepts reverse opts ctxErr).
Proof.
  intros Ho. split; simpl; [done|lia|by intros id v; rewrite lookup_empty|..].
  - intros id. split; [set_solver|]. intros (v & Hv & _). by rewrite lookup_empty in Hv.
  - intros id v. by rewrite lookup_empty.
  - intros id Hid. unfold out_ok. simpl. rewrite lookup_empty. left.
    destruct accepts; [|done]. rewrite frames_of_cons.
    destruct (Z.eqb_spec (S2C_StreamId (settings_message opts)) id); [simpl in *; lia|done].
Qed.

Lemma server_run_inv accepts reverse opts ctxErr ls s :
  opts_ok opts -> Forall label_ok ls ->
  run step ls (serveTunnel accepts reverse opts ctxErr) = Some s -> server_inv s.
Proof.
  intros Ho Hls. assert (H1 := server_start_inv accepts reverse opts ctxErr Ho).
  revert H1. generalize (serveTunnel accepts reverse opts ctxErr).
  induction Hls as [|l ls Hl _ IH]; intros s0 H1 Hrun; simpl in Hrun; [by simplify_eq|].
  destruct (step l s0) as [s1|] eqn:Hs; [|done]. eapply IH, Hrun. by eapply server_inv_step.
Qed.
End ServerInvariant.

(** ** Properties *)

(** What the receive loop reads in a run, and a client that follows the
    protocol: the IDs of its new streams increase from zero on, and it sends
    other frames only for streams that it has created. *)
Definition received (ls : list server_label) : list ClientToServer :=
  List.flat_map (fun l => match l with TRecv _ (inr m) => [m] | _ => [] end) ls.

Definition is_new (m : ClientToServer) : bool :=
  match C2S_Frame m with Some (ClientToServer_NewStream _) => true | _ => false end.

Definition well_formed (ms : list ClientToServer) : Prop :=
  forall pre m post, ms = pre ++ m :: post ->
    if is_new m
    then 0 <= C2S_StreamId m /\
         forall m', m' ∈ pre -> is_new m' = true -> C2S_StreamId m' < C2S_StreamId m
    else exists m', m' ∈ pre /\ is_new m' = true /\ C2S_StreamId m' = C2S_StreamId m.

Definition recv_fails (l : server_label) : bool :=
  match l with TRecv _ (inl _) => true | _ => false end.

Lemma received_app a b : received (a ++ b) = received a ++ received b.
Proof. apply List.flat_map_app. Qed.

Lemma well_formed_prefix a b : well_formed (a ++ b) -> well_formed a.
Proof.
  intros Hwf pre m post ->. apply (Hwf pre m (post ++ b)). by rewrite <- app_assoc.
Qed.

Section ServerProperties.
Context `{StatusLib} `{MetadataLib} (QueryService : string -> option ServiceDesc).
Context (accepts reverse : bool) (opts : tunnelOpts) (ctxErr : option error).
Context (Hopts : opts_ok opts).

Abbreviation step := (server_step QueryService).
Definition server_start : tunnelServer := serveTunnel accepts reverse opts ctxErr.

Lemma server_inv_run ls s :
  Forall label_ok ls -> run step ls server_start = Some s -> server_inv s.
Proof. intros Hls. by apply server_run_inv. Qed.

(** C26: Whatever the client sends and however the goroutines interleave, at most
    one headers frame and at most one close frame leave the tunnel for any
    stream ID, whether the stream ran, was rejected, or never existed. *)
Theorem server_answers_once ls s id :
  Forall label_ok ls -> run step ls server_start = Some s -> 0 <= id ->
  count is_headers (frames_of id (ts_wire s)) <= 1 /\
  count is_close (frames_of id (ts_wire s)) <= 1.
Proof.
  intros Hls Hrun Hid. pose proof (server_inv_run ls s Hls Hrun) as Hinv.
  pose proof (vi_out _ Hinv id Hid) as Hout. unfold out_ok in Hout.
  destruct (ts_objects s !! id) as [v|] eqn:Hv.
  - destruct Hout as [-> _].
    destruct (vi_objects _ Hinv id v Hv) as (W & ov & _ & _ & _ & [_ Hh Hc _ _ _ _ _ _ _]).
    rewrite count_app in Hh, Hc. pose proof (count_nonneg is_headers (sc_posted v)).
    pose proof (count_nonneg is_close (sc_posted v)).
    destruct (ss_sentHeaders _), (ss_closed _); lia.
  - assert (Hle : forall p, count p (frames_of id (ts_wire s))
              <= count p (frames_of id (ts_wire s ++ ts_posted s))).
    { intros p. rewrite frames_of_app, count_app.
      pose proof (count_nonneg p (frames_of id (ts_posted s))). lia. }
    pose proof (Hle is_headers) as H1. pose proof (Hle is_close) as H2.
    destruct Hout as [Hn|(_ & c & Hn)]; rewrite Hn in H1, H2;
      rewrite ?count_cons, ?count_nil in H1, H2; simpl in H1, H2; lia.
Qed.

(** C29: The table of active streams is exact: its keys are the created streams
    on which [finishStream] has not been called, and every ID ever created is
    between zero and [lastSeen]. *)
Theorem server_table_exact ls s id :
  Forall label_ok ls -> run step ls server_start = Some s ->
  (id ∈ ts_streams s <->
     exists v, ts_objects s !! id = Some v /\ ss_closed (sc_str v) = false /\ sc_finishing v = []) /\
  (is_Some (ts_objects s !! id) -> 0 <= id <= ts_lastSeen s).
Proof.
  intros Hls Hrun. pose proof (server_inv_run ls s Hls Hrun) as Hinv. split.
  - rewrite (vi_active _ Hinv). unfold finish_called. split; intros (v & Hv & Hf); exists v.
    + split; [done|]. destruct (ss_closed (sc_str v)); [by destruct Hf; left|].
      by destruct (sc_finishing v); [|destruct Hf; right].
    + destruct Hf as [-> ->]. split; [done|]. by intros [?|?].
  - intros [v Hv]. by apply (vi_ids _ Hinv id v).
Qed.

Lemma run_stream_seen id l s s' :
  run_stream id l s = Some s' -> ts_lastSeen s' = ts_lastSeen s /\ ts_result s' = ts_result s /\
    dom (ts_objects s') = dom (ts_objects s).
Proof.
  unfold run_stream. destruct (ts_objects s !! id) as [v|] eqn:Hv; [|done].
  assert (Hdom : forall v', dom (<[id := v']> (ts_objects s)) = dom (ts_objects s)).
  { intros v'. rewrite dom_insert_L. apply subseteq_union_1_L, singleton_subseteq_l, elem_of_dom.
    by exists v. }
  destruct (stream_step l v) as [v'|]; [|done].
  destruct (began_finish v v'); intros [= <-]; simpl; by rewrite Hdom.
Qed.

(** What every action leaves: the wire, the result and the streams; a stream is
    only made while the server is not closing. *)
Definition server_grows (l : server_label) (s s' : tunnelServer) : Prop :=
  (exists ms, ts_wire s' = ts_wire s ++ ms) /\ (ts_result s <> None -> ts_result s' <> None) /\
  (dom (ts_objects s') = dom (ts_objects s) \/
   exists m, l = TRecv false (inr m) /\ is_new m = true /\
     dom (ts_objects s') = {[C2S_StreamId m]} ∪ dom (ts_objects s)).

Lemma server_step_grows l s s' : step l s = Some s' -> server_grows l s s'.
Proof.
  assert (Hsame : forall s s', ts_wire s' = ts_wire s -> (ts_result s <> None -> ts_result s' <> None) ->
    dom (ts_objects s') = dom (ts_objects s) ->
    server_grows l s s').
  { intros s1 s2 E1 E2 E3. unfold server_grows. split_and!; [exists []; by rewrite app_nil_r|done|by left]. }
  assert (Hrun : forall id l' s1, ts_wire s1 = ts_wire s -> ts_result s1 = ts_result s ->
    ts_objects s1 = ts_objects s -> run_stream id l' s1 = Some s' ->
    server_grows l s s').
  { intros id l' s1 E1 E2 E3 Hr. destruct (run_stream_seen _ _ _ _ Hr) as (_ & E4 & E5).
    unfold server_grows. split_and!; [|congruence|left; congruence]. rewrite <- E1. unfold run_stream in Hr.
    destruct (ts_objects s1 !! id) as [v|]; [|done]. destruct (stream_step l' v) as [v'|]; [|done].
    injection Hr as <-. destruct (began_finish v v'); simpl; by eexists. }
  intros Hs. destruct l as [closing [e|m]|id l|i|e]; cbn [server_step] in Hs.
  - destruct (loop_idle s); [|done]. injection Hs as <-. apply Hsame; [done|done|]. simpl. by rewrite dom_fmap_L.
  - destruct (loop_idle s); [|done]. cbn [serve_recv] in Hs.
    destruct (C2S_Frame m) as [[frame| | | | |]|] eqn:Hf;
      try (destruct (getStream (C2S_StreamId m) s); [by eapply (Hrun _ _ (set_loop _ s))|by injection Hs as <-; apply Hsame|];
           injection Hs as <-; apply Hsame; [done|done|simpl; by rewrite dom_fmap_L]).
    unfold createStream in Hs. destruct (bool_decide _).
    { injection Hs as <-. apply Hsame; [done|done|simpl; by rewrite dom_fmap_L]. }
    destruct (_ <=? _). { injection Hs as <-. apply Hsame; [done|done|simpl; by rewrite dom_fmap_L]. }
    destruct (check_stream _ _ _ _ _) as [e|[name md]] eqn:Hc; injection Hs as <-; [by apply Hsame|].
    destruct closing; [unfold check_stream in Hc; by destruct (tunnelRoles _)|].
    unfold server_grows. split_and!; [exists []; by rewrite app_nil_r|done|right]. exists m. unfold is_new. rewrite Hf.
    split_and!; [done|done|]. simpl. by rewrite dom_insert_L.
  - destruct l; try done; by eapply (Hrun _ _ s).
  - destruct (ts_posted s !! i); [|done]. injection Hs as <-. unfold server_grows. split_and!; [by eexists|done|by left].
  - destruct (ts_ctxErr s); [done|]. injection Hs as <-. apply Hsame; [done|done|simpl; by rewrite dom_fmap_L].
Qed.

(** The frames that break the protocol: a new stream whose ID is not above
    [lastSeen], and any other frame for an ID that is. *)
Definition violates (lastSeen : Z) (m : ClientToServer) : bool :=
  if is_new m then C2S_StreamId m <=? lastSeen else lastSeen <? C2S_StreamId m.

(** One message, and what it does to the tunnel as a whole. *)
Lemma recv_message closing m s s' :
  server_inv s -> label_ok (TRecv closing (inr m)) ->
  serve_recv QueryService closing (inr m) s = Some s' -> ts_result s = None ->
  (violates (ts_lastSeen s) m = true /\ ts_lastSeen s' = ts_lastSeen s /\
     dom (ts_objects s') = dom (ts_objects s) /\
     exists st, ts_result s' = Some (Some (StatusError st)) /\ st_code st = Internal) \/
  (violates (ts_lastSeen s) m = false /\ ts_result s' = None /\
     ts_lastSeen s' = (if is_new m then C2S_StreamId m else ts_lastSeen s) /\
     (dom (ts_objects s') = dom (ts_objects s) \/
      (is_new m = true /\ closing = false /\
       dom (ts_objects s') = {[C2S_StreamId m]} ∪ dom (ts_objects s)))).
Proof.
  intros Hinv Hl Hstep Hres. cbn [serve_recv] in Hstep. unfold violates.
  assert (Hframe : forall frame, is_new m = false ->
      match getStream (C2S_StreamId m) s with
      | NeverCreated e => Some (serve_return (Some e) s)
      | Ignored => Some s
      | Found => run_stream (C2S_StreamId m) (FFrame frame) (set_loop (C2S_StreamId m) s)
      end = Some s' ->
      ((ts_lastSeen s <? C2S_StreamId m) = true /\ ts_lastSeen s' = ts_lastSeen s /\
         dom (ts_objects s') = dom (ts_objects s) /\
         exists st, ts_result s' = Some (Some (StatusError st)) /\ st_code st = Internal) \/
      ((ts_lastSeen s <? C2S_StreamId m) = false /\ ts_result s' = None /\
         ts_lastSeen s' = ts_lastSeen s /\ dom (ts_objects s') = dom (ts_objects s))).
  { intros frame _. unfold getStream.
    destruct (bool_decide (C2S_StreamId m ∈ ts_streams s)) eqn:Hin;
      [|destruct (Z.leb_spec (C2S_StreamId m) (ts_lastSeen s))]; intros Hr.
    - apply bool_decide_eq_true, (vi_active _ Hinv) in Hin as (v & Hv & _).
      apply (vi_ids _ Hinv) in Hv. destruct (run_stream_seen _ _ _ _ Hr) as (E1 & E2 & E3).
      right. rewrite E1, E2, E3. split; [apply Z.ltb_ge; lia|done].
    - injection Hr as <-. right. split; [by apply Z.ltb_ge|done].
    - injection Hr as <-. left. split; [by apply Z.ltb_lt|]. simpl. rewrite dom_fmap_L.
      split_and!; [done|done|]. eexists. split; [done|done]. }
  unfold is_new in *. simpl in Hl.
  destruct (C2S_Frame m) as [[frame| | | | |]|] eqn:Hf;
    try (destruct (Hframe _ eq_refl Hstep) as [?|(? & ? & ? & ?)]; [by left|right; by eauto]).
  destruct (createStream_cases QueryService closing (C2S_StreamId m) frame s Hinv Hl)
    as [(Hle & e & Hc)|(Hlt & [(e & Hc)|(v & Hv & _ & _ & Hcl & Hc)])]; rewrite Hc in Hstep.
  - left. split; [by apply Z.leb_le|]. injection Hstep as <-. simpl. rewrite dom_fmap_L.
    split_and!; [done|done|]. unfold createStream in Hc.
    destruct (bool_decide _); [injection Hc as <-; by eexists|].
    destruct (_ <=? _); [injection Hc as <-; by eexists|].
    by destruct (check_stream _ _ _ _ _) as [?|[? ?]].
  - right. injection Hstep as <-. simpl. split; [by apply Z.leb_gt|]. by eauto.
  - right. injection Hstep as <-. simpl. split; [by apply Z.leb_gt|]. split_and!; try done.
    right. by rewrite dom_insert_L.
Qed.

Lemma loop_idle_running s : loop_idle s = true -> ts_result s = None.
Proof. unfold loop_idle. by destruct (ts_result s). Qed.

(** The IDs over one action. *)
Lemma server_step_ids l s s' :
  label_ok l -> server_inv s -> step l s = Some s' ->
  (ts_lastSeen s <= ts_lastSeen s' /\ dom (ts_objects s') = dom (ts_objects s)) \/
  (exists id res, l = TRecv false res /\ ts_lastSeen s < id /\ ts_lastSeen s' = id /\
     dom (ts_objects s') = {[id]} ∪ dom (ts_objects s)).
Proof.
  intros Hl Hinv Hstep. destruct l as [closing [e|m]|id l|i|e]; cbn [server_step] in Hstep.
  - destruct (loop_idle s); [|done]. injection Hstep as <-. left. simpl. by rewrite dom_fmap_L.
  - destruct (loop_idle s) eqn:Hidle; [|done]. apply loop_idle_running in Hidle.
    destruct (recv_message closing m s s' Hinv Hl Hstep Hidle)
      as [(_ & -> & -> & _)|(Hv & _ & Hls & Hd)]; [left; split; [lia|done]|].
    unfold violates in Hv. destruct (is_new m) eqn:Hm; rewrite Hls.
    + apply Z.leb_gt in Hv. destruct Hd as [->|(_ & -> & ->)]; [left; split; [lia|done]|right; eauto 10].
    + destruct Hd as [->|(? & _)]; [left; split; [lia|done]|done].
  - assert (exists l, run_stream id l s = Some s') as (l' & Hr) by (destruct l; by eauto).
    destruct (run_stream_seen _ _ _ _ Hr) as (-> & _ & ->). left. split; [lia|done].
  - destruct (ts_posted s !! i); [|done]. injection Hstep as <-. left. split; [simpl; lia|done].
  - destruct (ts_ctxErr s); [done|]. injection Hstep as <-. left. simpl. by rewrite dom_fmap_L.
Qed.

(** Stream IDs are never reused: [lastSeen] never decreases, no stream object
    is ever dropped, and a stream is only created under an ID above every ID
    that was used before, while the server is not shutting down. *)
Theorem server_ids_never_reused ls s l s' :
  Forall label_ok ls -> run step ls server_start = Some s ->
  label_ok l -> step l s = Some s' ->
  ts_lastSeen s <= ts_lastSeen s' /\ dom (ts_objects s) ⊆ dom (ts_objects s') /\
  forall id, id ∈ dom (ts_objects s') -> id ∉ dom (ts_objects s) ->
    ts_lastSeen s < id /\ ts_lastSeen s' = id /\ exists res, l = TRecv false res.
Proof.
  intros Hls Hrun Hl Hstep. pose proof (server_inv_run ls s Hls Hrun) as Hinv.
  destruct (server_step_ids l s s' Hl Hinv Hstep) as [[Hle ->]|(id & res & -> & Hlt & Heq & ->)].
  - split_and!; [done|done|]. by intros id Hin Hnin.
  - split_and!; [lia|by apply union_subseteq_r|].
    intros id' [->%elem_of_singleton|Hin]%elem_of_union Hnin; [|done]. split_and!; [lia|done|eauto].
Qed.

(** C27: The tunnel is torn down for protocol errors only: a message makes [serve]
    return exactly when it is a new stream whose ID is not above every ID used
    before, or another frame for an ID above them; the error has code
    [Internal].  Every other message, for a rejected or finished stream too,
    leaves the tunnel running. *)
Theorem server_protocol_errors ls s closing m s' :
  Forall label_ok ls -> run step ls server_start = Some s ->
  label_ok (TRecv closing (inr m)) -> step (TRecv closing (inr m)) s = Some s' ->
  if violates (ts_lastSeen s) m
  then exists st, ts_result s' = Some (Some (StatusError st)) /\ st_code st = Internal
  else ts_result s' = None.
Proof.
  intros Hls Hrun Hl Hstep. pose proof (server_inv_run ls s Hls Hrun) as Hinv.
  cbn [server_step] in Hstep. destruct (loop_idle s) eqn:Hidle; [|done].
  apply loop_idle_running in Hidle.
  by destruct (recv_message closing m s s' Hinv Hl Hstep Hidle)
    as [(-> & _ & _ & ?)|(-> & ? & _)].
Qed.

(** What a run with a conforming client leaves. *)
Definition served (ls : list server_label) (s : tunnelServer) : Prop :=
  ts_result s = None /\
  (forall m, m ∈ received ls -> is_new m = true -> C2S_StreamId m <= ts_lastSeen s) /\
  (ts_lastSeen s = -1 \/
   exists m, m ∈ received ls /\ is_new m = true /\ C2S_StreamId m = ts_lastSeen s).

Lemma conforming_message ls s m :
  served ls s -> well_formed (received ls ++ [m]) -> violates (ts_lastSeen s) m = false.
Proof.
  intros (_ & Hle & Hmax) Hwf. specialize (Hwf (received ls) m [] eq_refl). unfold violates.
  destruct (is_new m) eqn:Hm.
  - destruct Hwf as [H0id Hlt]. apply Z.leb_gt.
    destruct Hmax as [->|(m' & Hin & Hn & <-)]; [lia|by apply Hlt].
  - destruct Hwf as (m' & Hin & Hn & <-). apply Z.ltb_ge. by apply Hle.
Qed.

Lemma served_message ls s s' m :
  served ls s -> ts_result s' = None ->
  ts_lastSeen s' = (if is_new m then C2S_StreamId m else ts_lastSeen s) ->
  violates (ts_lastSeen s) m = false ->
  forall closing, served (ls ++ [TRecv closing (inr m)]) s'.
Proof.
  intros (_ & Hle & Hmax) Hres Hseen Hv closing. unfold served. rewrite received_app, Hseen. simpl.
  unfold violates in Hv. split; [done|]. destruct (is_new m) eqn:Hm.
  - apply Z.leb_gt in Hv. split.
    + intros m' [Hin| ->%list_elem_of_singleton]%elem_of_app Hn; [|lia]. specialize (Hle m' Hin Hn). lia.
    + right. exists m. split; [|done]. apply elem_of_app. right. by apply list_elem_of_singleton.
  - split.
    + intros m' [Hin| ->%list_elem_of_singleton]%elem_of_app Hn; [by apply Hle|congruence].
    + destruct Hmax as [?|(m' & Hin & Hn & Heq)]; [by left|right].
      exists m'. split; [|done]. apply elem_of_app. by left.
Qed.

Lemma served_other ls s s' l :
  served ls s -> received [l] = [] -> ts_result s' = ts_result s -> ts_lastSeen s' = ts_lastSeen s ->
  served (ls ++ [l]) s'.
Proof. intros Hs Hl E1 E2. unfold served. by rewrite received_app, Hl, app_nil_r, E1, E2. Qed.

Lemma server_served ls s :
  run step ls server_start = Some s -> Forall label_ok ls -> well_formed (received ls) ->
  Forall (fun l => recv_fails l = false) ls -> server_inv s /\ served ls s.
Proof.
  revert ls s. apply (run_history step (fun ls s => Forall label_ok ls -> well_formed (received ls) ->
    Forall (fun l => recv_fails l = false) ls -> server_inv s /\ served ls s)).
  { intros _ _ _. split; [by apply server_start_inv|].
    split_and!; [done|by intros ? ?%not_elem_of_nil|by left]. }
  intros ls l s s' IH Hstep [Hls Hl]%Forall_app Hwf [Hnf Hf]%Forall_app.
  apply Forall_cons_1 in Hl as [Hl _], Hf as [Hf _]. rewrite received_app in Hwf.
  destruct (IH Hls (well_formed_prefix _ _ Hwf) Hnf) as [Hinv Hserved].
  split; [by eapply server_inv_step|]. destruct l as [closing [e|m]|id l|i|e]; [done| | | |];
    cbn [server_step] in Hstep.
  - destruct (loop_idle s) eqn:Hidle; [|done]. apply loop_idle_running in Hidle.
    pose proof (conforming_message ls s m Hserved Hwf) as Hv.
    destruct (recv_message closing m s s' Hinv Hl Hstep Hidle) as [(Hv' & _)|(_ & Hr & Hseen & _)];
      [congruence|]. by eapply served_message.
  - assert (exists l, run_stream id l s = Some s') as (l' & Hr) by (destruct l; by eauto).
    destruct (run_stream_seen _ _ _ _ Hr) as (E1 & E2 & _). by eapply served_other.
  - destruct (ts_posted s !! i); [|done]. injection Hstep as <-. by eapply served_other.
  - destruct (ts_ctxErr s); [done|]. injection Hstep as <-. by eapply served_other.
Qed.

(** C25: A client that follows the protocol never brings the tunnel down, no
    matter how its frames race with streams that are rejected or finish. *)
Theorem server_serves_conforming_client ls s :
  Forall label_ok ls -> run step ls server_start = Some s ->
  well_formed (received ls) -> Forall (fun l => recv_fails l = false) ls ->
  ts_result s = None.
Proof. intros Hls Hrun Hwf Hnf. by destruct (server_served ls s Hrun Hls Hwf Hnf) as [_ [? _]]. Qed.

(** A frame for a stream that was rejected, or that has finished, changes
    nothing at all. *)
Theorem server_ignores_late_frames s closing m :
  loop_idle s = true -> is_new m = false -> C2S_StreamId m <= ts_lastSeen s ->
  C2S_StreamId m ∉ ts_streams s ->
  step (TRecv closing (inr m)) s = Some s.
Proof.
  intros Hidle Hnew Hle Hnin. cbn [server_step]. rewrite Hidle. cbn [serve_recv].
  assert (getStream (C2S_StreamId m) s = Ignored) as Hg.
  { unfold getStream. rewrite bool_decide_false by done.
    destruct (Z.leb_spec (C2S_StreamId m) (ts_lastSeen s)); [done|lia]. }
  unfold is_new in Hnew. rewrite Hg. by destruct (C2S_Frame m) as [[]|].
Qed.

(** C28: Which streams are run.  A new ID gets a stream exactly when the server is
    not shutting down, the revision is supported, the client's window has room
    for the smallest message of the revision, and the name, after one leading
    slash, is that of a registered service, a slash, and one of its methods. *)
Theorem server_accepts_iff ls s closing id frame :
  Forall label_ok ls -> run step ls server_start = Some s -> ts_lastSeen s < id ->
  snd (snd (createStream QueryService closing id frame s)) = None <->
  closing = false /\ ProtocolRevision frame ∈ [REVISION_ONE; REVISION_TWO] /\
  messageOverhead (ProtocolRevision frame) + 1 <= NewStream_InitialWindowSize frame /\
  exists service method sd,
    trim_slash (MethodName frame) = (service ++ String "/" method)%string /\
    no_slash service = true /\ QueryService service = Some sd /\
    (method ∈ Methods sd \/ exists s, s ∈ Streams sd /\ StreamName s = method).
Proof.
  intros Hls Hrun Hlt. pose proof (server_inv_run ls s Hls Hrun) as Hinv.
  assert (Hsnd : snd (snd (createStream QueryService closing id frame s))
    = match check_stream QueryService closing (ts_clientAcceptsSettings s) (ts_reverse s) frame with
      | inl e => Some e | inr _ => None end).
  { unfold createStream. rewrite bool_decide_false.
    - destruct (Z.leb_spec id (ts_lastSeen s)); [lia|]. by destruct (check_stream _ _ _ _ _) as [|[]].
    - intros (v & Hv & _)%(vi_active _ Hinv). apply (vi_ids _ Hinv) in Hv. lia. }
  rewrite Hsnd. clear Hsnd. split.
  - destruct (check_stream _ _ _ _ _) as [e|[name md]] eqn:Hc; [done|]. intros _.
    destruct (check_stream_ok _ _ _ _ _ _ _ Hc)
      as (Hcl & Hrev & Hmin & Hname & service & method & sd & Hsp & Hq & Hf).
    rewrite minWindowSize_eq in Hmin. split_and!; [done|done|done|].
    rewrite Hname in Hsp. apply split_slash_spec in Hsp as [Hs Hns].
    exists service, method, sd. split_and!; [done|done|done|]. apply findMethod_spec. by exists md.
  - intros (-> & Hrev & Hmin & service & method & sd & Hname & Hns & Hq & Hm).
    unfold check_stream. destruct (tunnelRoles _) as [self peer].
    assert (ProtocolRevision frame <> REVISION_ZERO) as Hnz.
    { apply elem_of_cons in Hrev as [->|Hrev]; [done|]. by apply list_elem_of_singleton in Hrev as ->. }
    destruct (Z.eqb_spec (ProtocolRevision frame) REVISION_ZERO); [done|].
    rewrite bool_decide_true by done. cbn [negb]. rewrite minWindowSize_eq.
    destruct (Z.ltb_spec (NewStream_InitialWindowSize frame)
      (messageOverhead (ProtocolRevision frame) + 1)); [lia|].
    rewrite (proj2 (split_slash_spec _ service method) (conj Hname Hns)), Hq.
    apply findMethod_spec in Hm as [md Hmd]. by rewrite Hmd.
Qed.

(** Graceful shutdown.  From the moment [isClosing] is true, no new stream is
    created, whatever arrives, and no stream that was created is dropped. *)
Theorem server_drains ls s ls' s' :
  Forall label_ok ls -> run step ls server_start = Some s ->
  Forall label_ok ls' -> Forall (fun l => match l with TRecv closing _ => closing = true | _ => True end) ls' ->
  run step ls' s = Some s' ->
  dom (ts_objects s') = dom (ts_objects s).
Proof.
  intros Hls Hrun Hls' Hclosing. pose proof (server_inv_run ls s Hls Hrun) as Hinv.
  clear Hrun. revert s Hinv. induction Hls' as [|l ls' Hl Hls' IH]; intros s Hinv Hrun'; simpl in Hrun'.
  - by simplify_eq.
  - apply Forall_cons in Hclosing as [Hcl Hclosing]. destruct (step l s) as [s1|] eqn:Hstep; [|done].
    rewrite (IH Hclosing s1); [|by eapply server_inv_step|done].
    by destruct (server_step_ids l s s1 Hl Hinv Hstep) as [[_ ?]|(id & res & -> & _)].
Qed.
End ServerProperties.

(** ** Examples: a unary RPC, a stream for an unknown method, and frames that
    arrive for the rejected stream. *)
Module TunnelServerExample.
#[local] Existing Instance ExampleStatus.lib.
#[local] Existing Instance ExampleMetadata.lib.

Definition services (name : string) : option ServiceDesc :=
  if String.eqb name "svc" then Some (MkServiceDesc ["Get"%string] []) else None.
Definition opts : tunnelOpts := initOptions zero_options [].
Definition step := server_step services.
Definition start : tunnelServer := server_start true false opts None.

Definition new_stream_frame (method : string) : NewStream := MkNewStream method None 1024 REVISION_TWO.
Definition msg (id : Z) (f : ClientToServerFrame) : error + ClientToServer :=
  inr (MkClientToServer id (Some f)).
Definition A : bytes := [Corelib.Init.Byte.x41].

Definition trace : list server_label :=
  [TPosted 0;
   TRecv false (msg 1 (ClientToServer_NewStream (new_stream_frame "/svc/Get")));
   TRecv false (msg 1 (request_frame A 1 true));
   TRecv false (msg 2 (ClientToServer_NewStream (new_stream_frame "/svc/Put")));
   TRecv false (msg 2 (request_frame A 1 true));
   TRecv false (msg 1 ClientToServer_HalfClose);
   TStream 1 FRecv;
   TStream 1 (FSendMsg None (inr A));
   TStream 1 (FSend LLoad); TStream 1 (FSend LCas); TStream 1 (FSend (LCall None));
   TStream 1 (FSend LReturn); TStream 1 (FReturn (HReturned None));
   TStream 1 (FFinish 0); TStream 1 FPosted; TPosted 0;
   TRecv false (msg 1 ClientToServer_Cancel)].

Definition at_end (ls : list server_label) : tunnelServer := default start (run step ls start).

Lemma opts_valid : opts_ok opts.
Proof. apply initOptions_ok. vm_compute. repeat split; congruence. Qed.

Lemma server_trace_ok : Forall label_ok trace.
Proof. repeat constructor; vm_compute; congruence. Qed.

Lemma server_trace_runs : run step trace start = Some (at_end trace).
Proof. vm_compute. reflexivity. Qed.

(** The responses: headers, data and close for stream 1, a close for stream 2. *)
Example responses :
  List.map is_headers (frames_of 1 (ts_wire (at_end trace))) = [true; false; false] /\
  List.map is_close (frames_of 1 (ts_wire (at_end trace))) = [false; false; true] /\
  List.map is_close (frames_of 2 (ts_wire (at_end trace))) = [true].
Proof. vm_compute. done. Qed.
End TunnelServerExample.

Lemma server_answers_once_witness :
  count is_close (frames_of 1 (ts_wire (TunnelServerExample.at_end TunnelServerExample.trace))) <= 1.
Proof.
  exact (proj2 (server_answers_once (H := ExampleStatus.lib) (H0 := ExampleMetadata.lib)
    TunnelServerExample.services true false TunnelServerExample.opts None
    TunnelServerExample.opts_valid TunnelServerExample.trace
    (TunnelServerExample.at_end TunnelServerExample.trace) 1
    TunnelServerExample.server_trace_ok TunnelServerExample.server_trace_runs ltac:(lia))).
Defined.

Lemma server_table_exact_witness :
  0 <= 1 <= ts_lastSeen (TunnelServerExample.at_end TunnelServerExample.trace).
Proof.
  exact (proj2 (server_table_exact (H := ExampleStatus.lib) (H0 := ExampleMetadata.lib)
    TunnelServerExample.services true false TunnelServerExample.opts None
    TunnelServerExample.opts_valid TunnelServerExample.trace
    (TunnelServerExample.at_end TunnelServerExample.trace) 1
    TunnelServerExample.server_trace_ok TunnelServerExample.server_trace_runs)
    ltac:(vm_compute; eexists; reflexivity)).
Defined.

Lemma server_ids_never_reused_witness :
  -1 <= ts_lastSeen (TunnelServerExample.at_end (take 2 TunnelServerExample.trace)).
Proof.
  exact (proj1 (server_ids_never_reused (H := ExampleStatus.lib) (H0 := ExampleMetadata.lib)
    TunnelServerExample.services true false TunnelServerExample.opts None
    TunnelServerExample.opts_valid (take 1 TunnelServerExample.trace)
    (TunnelServerExample.at_end (take 1 TunnelServerExample.trace))
    (TRecv false (TunnelServerExample.msg 1
       (ClientToServer_NewStream (TunnelServerExample.new_stream_frame "/svc/Get"))))
    (TunnelServerExample.at_end (take 2 TunnelServerExample.trace))
    ltac:(repeat constructor) ltac:(vm_compute; reflexivity)
    ltac:(vm_compute; split; congruence) ltac:(vm_compute; reflexivity))).
Defined.

Lemma server_protocol_errors_witness :
  exists st, ts_result (TunnelServerExample.at_end (TunnelServerExample.trace ++
      [TRecv false (TunnelServerExample.msg 3 ClientToServer_Cancel)]))
    = Some (Some (StatusError st)) /\ st_code st = Internal.
Proof.
  exact (server_protocol_errors (H := ExampleStatus.lib) (H0 := ExampleMetadata.lib)
    TunnelServerExample.services true false TunnelServerExample.opts None
    TunnelServerExample.opts_valid TunnelServerExample.trace
    (TunnelServerExample.at_end TunnelServerExample.trace) false
    (MkClientToServer 3 (Some ClientToServer_Cancel))
    (TunnelServerExample.at_end (TunnelServerExample.trace ++
      [TRecv false (TunnelServerExample.msg 3 ClientToServer_Cancel)]))
    TunnelServerExample.server_trace_ok TunnelServerExample.server_trace_runs I ltac:(vm_compute; reflexivity)).
Defined.

Lemma server_serves_conforming_client_witness :
  ts_result (TunnelServerExample.at_end (take 2 TunnelServerExample.trace)) = None.
Proof.
  apply (server_serves_conforming_client (H := ExampleStatus.lib) (H0 := ExampleMetadata.lib)
    TunnelServerExample.services true false TunnelServerExample.opts None
    TunnelServerExample.opts_valid (take 2 TunnelServerExample.trace)).
  - repeat constructor; vm_compute; congruence.
  - vm_compute. reflexivity.
  - intros [|m0 pre] m post Heq.
    + injection Heq as <- _. split; [vm_compute; congruence|by intros ? ?%not_elem_of_nil].
    + injection Heq as _ Heq. by destruct pre.
  - repeat constructor.
Defined.

Lemma server_ignores_late_frames_witness :
  TunnelServerExample.step (TRecv false (TunnelServerExample.msg 2 ClientToServer_HalfClose))
    (TunnelServerExample.at_end TunnelServerExample.trace)
  = Some (TunnelServerExample.at_end TunnelServerExample.trace).
Proof.
  apply (server_ignores_late_frames (H := ExampleStatus.lib) (H0 := ExampleMetadata.lib)
    TunnelServerExample.services (TunnelServerExample.at_end TunnelServerExample.trace) false
    (MkClientToServer 2 (Some ClientToServer_HalfClose)));
    [vm_compute; reflexivity|reflexivity|vm_compute; congruence|].
  apply (proj1 (bool_decide_eq_false (2 ∈ ts_streams (TunnelServerExample.at_end TunnelServerExample.trace)))).
  vm_compute. reflexivity.
Defined.

Lemma server_accepts_iff_witness :
  snd (snd (createStream (H0 := ExampleMetadata.lib) TunnelServerExample.services false 7
    (TunnelServerExample.new_stream_frame "svc/Get") TunnelServerExample.start)) = None.
Proof.
  apply (server_accepts_iff (H := ExampleStatus.lib) (H0 := ExampleMetadata.lib)
    TunnelServerExample.services true false TunnelServerExample.opts None
    TunnelServerExample.opts_valid [] TunnelServerExample.start false 7);
    [constructor|reflexivity|vm_compute; reflexivity|].
  split; [reflexivity|]. split; [right; left|]. split; [vm_compute; congruence|].
  exists "svc"%string, "Get"%string, (MkServiceDesc ["Get"%string] []).
  repeat split; try reflexivity. left. left.
Defined.

Lemma server_drains_witness :
  dom (ts_objects (TunnelServerExample.at_end (TunnelServerExample.trace ++
    [TRecv true (TunnelServerExample.msg 9
       (ClientToServer_NewStream (TunnelServerExample.new_stream_frame "/svc/Get")))])))
  = dom (ts_objects (TunnelServerExample.at_end TunnelServerExample.trace)).
Proof.
  apply (server_drains (H := ExampleStatus.lib) (H0 := ExampleMetadata.lib)
    TunnelServerExample.services true false TunnelServerExample.opts None
    TunnelServerExample.opts_valid TunnelServerExample.trace
    (TunnelServerExample.at_end TunnelServerExample.trace)
    [TRecv true (TunnelServerExample.msg 9
       (ClientToServer_NewStream (TunnelServerExample.new_stream_frame "/svc/Get")))]
    _ TunnelServerExample.server_trace_ok TunnelServerExample.server_trace_runs).
  - repeat constructor; vm_compute; congruence.
  - repeat constructor.
  - vm_compute. reflexivity.
Defined.
