(* ===== verification/Served.v ===== *)
(** * A tunnel that may be told to close

    [serveTunnel] is called with a function [isClosing], by [Serve] of
    reverse_server.go and by [openTunnel] of handler.go.  Its loop calls this function in
    [createStream], before it takes the mutex of the server: a stream is created
    some time after the answer.  So the receipt of a new stream is three steps here:
    the message, [isClosing], and the rest of [createStream]. *)
From stdpp Require Import gmap sets.
From S2P Require Import Prelude Status Protocol Options ServerStream TunnelServer.

(** [sd_create] is the message with which [serve] calls [createStream], and what
    [isClosing] has returned there, if it has. *)
Record served := Served {
  sd_server : tunnelServer;
  sd_create : option (ClientToServer * option bool);
}.

Inductive served_label :=
  | SdServer (l : server_label)
  | SdFrame (m : ClientToServer)             (** [serve] receives a new stream *)
  | SdIsClosing
  | SdCreate.

(** The loop of [serve] is in [createStream], or the message is for it. *)
Definition creates (l : server_label) (d : served) : bool :=
  match l with
  | TRecv _ res =>
      match sd_create d, res with
      | Some _, _ => true
      | None, inr m => is_new m
      | None, inl _ => false
      end
  | _ => false
  end.

Definition served_start (clientAcceptsSettings reverse : bool) (opts : tunnelOpts) (ctxErr : option error)
    : served := Served (serveTunnel clientAcceptsSettings reverse opts ctxErr) None.

Section Served.
Context `{StatusLib} `{MetadataLib} (QueryService : string -> option ServiceDesc).

(** [closing] is what [isClosing] returns now. *)
Definition served_step (closing : bool) (l : served_label) (d : served) : option served :=
  match l with
  | SdServer l =>
      if creates l d then None
      else match server_step QueryService l (sd_server d) with
           | Some t => Some (Served t (sd_create d))
           | None => None
           end
  | SdFrame m =>
      match sd_create d with
      | None =>
          if is_new m && loop_idle (sd_server d) then Some (Served (sd_server d) (Some (m, None))) else None
      | Some _ => None
      end
  | SdIsClosing =>
      match sd_create d with
      | Some (m, None) => Some (Served (sd_server d) (Some (m, Some closing)))
      | _ => None
      end
  | SdCreate =>
      match sd_create d with
      | Some (m, Some answer) =>
          match server_step QueryService (TRecv answer (inr m)) (sd_server d) with
          | Some t => Some (Served t None)
          | None => None
          end
      | _ => None
      end
  end.

(** The streams of a tunnel, and the one that is being created after [isClosing] has
    returned false. *)
Definition may_run (d : served) : gset Z :=
  dom (ts_objects (sd_server d)) ∪
    match sd_create d with Some (m, Some false) => {[C2S_StreamId m]} | _ => ∅ end.

(** An action is one of the server, or none. *)
Lemma served_step_server closing l d d' :
  served_step closing l d = Some d' ->
  sd_server d' = sd_server d \/ exists l', server_step QueryService l' (sd_server d) = Some (sd_server d').
Proof.
  destruct l as [l|m| |]; cbn [served_step]; intros Hs.
  - destruct (creates l d); [done|]. destruct (server_step QueryService l (sd_server d)) as [t|] eqn:Ht; [|done].
    injection Hs as <-. right. by exists l.
  - destruct (sd_create d); [done|]. destruct (_ && _); [|done]. injection Hs as <-. by left.
  - destruct (sd_create d) as [[m [|]]|]; try done. injection Hs as <-. by left.
  - destruct (sd_create d) as [[m [answer|]]|]; try done.
    destruct (server_step _ _ _) as [t|] eqn:Ht; [|done]. injection Hs as <-. right. by eexists.
Qed.

Lemma served_step_grows closing l d d' :
  served_step closing l d = Some d' ->
  (exists ms, ts_wire (sd_server d') = ts_wire (sd_server d) ++ ms) /\
  (ts_result (sd_server d) <> None -> ts_result (sd_server d') <> None).
Proof.
  intros [->|(l' & Hl)]%served_step_server.
  - split; [exists []; by rewrite app_nil_r|done].
  - by destruct (server_step_grows _ _ _ _ Hl) as (? & ? & _).
Qed.

(** Once [isClosing] returns true, no stream is created but one for which it has
    returned false before. *)
Lemma served_step_may_run l d d' : served_step true l d = Some d' -> may_run d' ⊆ may_run d.
Proof.
  unfold may_run. destruct l as [l|m| |]; cbn [served_step]; intros Hs.
  - destruct (creates l d) eqn:Hc; [done|].
    destruct (server_step QueryService l (sd_server d)) as [t|] eqn:Ht; [|done]. injection Hs as <-. simpl.
    destruct (server_step_grows _ _ _ _ Ht) as (_ & _ & [->|(m & -> & Hn & _)]); [done|].
    unfold creates in Hc. destruct (sd_create d); [done|]. congruence.
  - destruct (sd_create d); [done|]. destruct (_ && _); [|done]. by injection Hs as <-.
  - destruct (sd_create d) as [[m [|]]|]; try done. by injection Hs as <-.
  - destruct (sd_create d) as [[m [answer|]]|]; try done.
    destruct (server_step _ _ _) as [t|] eqn:Ht; [|done]. injection Hs as <-. simpl. rewrite union_empty_r_L.
    destruct (server_step_grows _ _ _ _ Ht) as (_ & _ & [->|(m' & [= -> <-] & _ & ->)]); [apply union_subseteq_l|].
    by rewrite union_comm_L.
Qed.
End Served.
