(* ===== verification/ClientStream.v ===== *)
(** * Streams of the tunnel client

    [tunnelClientStream] of tunnel_client.go: one RPC as its caller sees it.  Its
    methods are called by the receive loop of the tunnel, by the goroutines of
    the caller, by the goroutine that waits for the stream's context and by
    [tunnelChannel.close].

    The atomic pointer [done] decides who finishes the stream: the goroutine
    whose compare-and-swap succeeds goes on with the rest of [finishStream], and
    others can act between its parts.  As on the server, a context is its error
    and [writeMu] is held between two actions only inside [sender.send]. *)
From S2P Require Import Prelude Status Protocol FlowSender FlowReceiver Reassembly.

Record client_stream := ClientStream {
  cs_streamID : Z;
  cs_method : string;
  cs_reverse : bool;                      (** [st.ch.reverse] *)
  cs_isClientStream : bool;
  cs_isServerStream : bool;
  cs_send : send_conf;
  cs_receiver : receiver ServerToClientFrame;
  cs_done : option error;
  cs_gotHeaders : bool;                   (** [gotHeadersSignal] is closed with it *)
  cs_headers : MD;
  cs_headersTargets : option MD;          (** what the call's header targets were set to *)
  cs_doneSignal : bool;                   (** the channel is closed *)
  cs_trailers : MD;
  cs_trailersTargets : option MD;
  cs_readErr : option error;
  cs_numSent : Z;
  cs_halfClosed : bool;
}.

Definition cs_ctxErr (st : client_stream) : option error := c_ctx (cs_send st).

Definition cwith_send (c : send_conf) (st : client_stream) : client_stream :=
  ClientStream (cs_streamID st) (cs_method st) (cs_reverse st) (cs_isClientStream st)
    (cs_isServerStream st) c (cs_receiver st) (cs_done st) (cs_gotHeaders st) (cs_headers st)
    (cs_headersTargets st) (cs_doneSignal st) (cs_trailers st) (cs_trailersTargets st)
    (cs_readErr st) (cs_numSent st) (cs_halfClosed st).
Definition cwith_receiver (r : receiver ServerToClientFrame) (st : client_stream) : client_stream :=
  ClientStream (cs_streamID st) (cs_method st) (cs_reverse st) (cs_isClientStream st)
    (cs_isServerStream st) (cs_send st) r (cs_done st) (cs_gotHeaders st) (cs_headers st)
    (cs_headersTargets st) (cs_doneSignal st) (cs_trailers st) (cs_trailersTargets st)
    (cs_readErr st) (cs_numSent st) (cs_halfClosed st).
Definition cwith_done (e : error) (st : client_stream) : client_stream :=
  ClientStream (cs_streamID st) (cs_method st) (cs_reverse st) (cs_isClientStream st)
    (cs_isServerStream st) (cs_send st) (cs_receiver st) (Some e) (cs_gotHeaders st) (cs_headers st)
    (cs_headersTargets st) (cs_doneSignal st) (cs_trailers st) (cs_trailersTargets st)
    (cs_readErr st) (cs_numSent st) (cs_halfClosed st).
Definition cwith_headers (md : MD) (st : client_stream) : client_stream :=
  ClientStream (cs_streamID st) (cs_method st) (cs_reverse st) (cs_isClientStream st)
    (cs_isServerStream st) (cs_send st) (cs_receiver st) (cs_done st) true md
    (Some md) (cs_doneSignal st) (cs_trailers st) (cs_trailersTargets st)
    (cs_readErr st) (cs_numSent st) (cs_halfClosed st).
Definition cwith_finished (trailers : MD) (st : client_stream) : client_stream :=
  ClientStream (cs_streamID st) (cs_method st) (cs_reverse st) (cs_isClientStream st)
    (cs_isServerStream st) (cs_send st) (cs_receiver st) (cs_done st) true (cs_headers st)
    (cs_headersTargets st) true trailers (Some trailers)
    (cs_readErr st) (cs_numSent st) (cs_halfClosed st).
Definition cwith_reader (rs : read_state) (st : client_stream) : client_stream :=
  ClientStream (cs_streamID st) (cs_method st) (cs_reverse st) (cs_isClientStream st)
    (cs_isServerStream st) (cs_send st) (rs_recv rs) (cs_done st) (cs_gotHeaders st) (cs_headers st)
    (cs_headersTargets st) (cs_doneSignal st) (cs_trailers st) (cs_trailersTargets st)
    (rs_readErr rs) (cs_numSent st) (cs_halfClosed st).
Definition cwith_sent (numSent : Z) (halfClosed : bool) (st : client_stream) : client_stream :=
  ClientStream (cs_streamID st) (cs_method st) (cs_reverse st) (cs_isClientStream st)
    (cs_isServerStream st) (cs_send st) (cs_receiver st) (cs_done st) (cs_gotHeaders st) (cs_headers st)
    (cs_headersTargets st) (cs_doneSignal st) (cs_trailers st) (cs_trailersTargets st)
    (cs_readErr st) numSent halfClosed.

(** ** Operations *)

(** The error that [finishStream] records. *)
Definition finish_error (err : option error) : error :=
  match err with
  | None => EOF
  | Some ContextDeadlineExceeded =>
      StatusError (Status DeadlineExceeded (Msg (context_text ContextDeadlineExceeded) []))
  | Some ContextCanceled =>
      StatusError (Status Canceled (Msg (context_text ContextCanceled) []))
  | Some e => e
  end.

(** [finishStream] up to the compare-and-swap: whether it succeeds.  The stream
    leaves the table of the channel right after it; see TunnelChannel. *)
Definition finishStream_cas (err : option error) (st : client_stream) : option client_stream :=
  match cs_done st with
  | None => Some (cwith_done (finish_error err) st)
  | Some _ => None
  end.

(** The part under [metaMu]: trailers and signals. *)
Definition finishStream_meta (trailers : MD) (st : client_stream) : client_stream :=
  cwith_finished trailers st.

(** Its deferred calls. *)
Definition finishStream_deferred (st : client_stream) : client_stream :=
  cwith_send (cancel_ctx ContextCanceled (cs_send st))
    (cwith_receiver (close (cs_receiver st)) st).

Definition Header (st : client_stream) : option (MD * option error) :=
  if cs_gotHeaders st then Some (cs_headers st, None)
  else match cs_ctxErr st with
       | Some e => Some (None, Some e)
       | None => None
       end.

Definition Trailer (st : client_stream) : MD :=
  if cs_doneSignal st then cs_trailers st else None.

Definition CloseSend (sendErr : option error) (st : client_stream)
    : client_stream * list ClientToServerFrame * option error :=
  if cs_doneSignal st then (st, [], None)
  else if cs_halfClosed st then (st, [], Some (ErrorsNew "already half-closed"))
  else (cwith_sent (cs_numSent st) true st, [ClientToServer_HalfClose], sendErr).

(** [SendMsg] up to [sender.send]. *)
Definition client_SendMsg_begin (marshalled : error + bytes) (st : client_stream)
    : client_stream * (error + bytes) :=
  if negb (cs_isClientStream st) && (cs_numSent st =? 1)
  then (st, inl (Errorf Internal
          "Already sent response for non-server-stream method %s" [AStr (cs_method st)]))
  else
    let st := cwith_sent (cs_numSent st +u 1) (cs_halfClosed st) st in
    match marshalled with
    | inl e => (st, inl e)
    | inr b => if len b >? MaxUint32 then (st, inl (too_large (len b))) else (st, inr b)
    end.

(** [acceptServerFrame]: what it does at once, and the call of [finishStream] or
    the window update that it goes on with. *)
Inductive client_accept_then :=
  | CDone
  | CFinishWith (err : option error) (trailers : MD)
  | CUpdate (add : Z).

Section AcceptServerFrame.
Context `{StatusLib}.

Definition acceptServerFrame (frame : option ServerToClientFrame) (st : client_stream)
    : client_stream * client_accept_then :=
  match frame with
  | Some (ServerToClient_Settings _) =>
      (st, CFinishWith (Some (Errorf Internal "protocol error: unexpected settings frame" [])) None)
  | Some (ServerToClient_ResponseHeaders md) =>
      if cs_gotHeaders st then (st, CDone) else (cwith_headers (fromProto md) st, CDone)
  | Some (ServerToClient_CloseStream c) =>
      (st, CFinishWith (status_Err (CloseStatus c)) (fromProto (ResponseTrailers c)))
  | Some (ServerToClient_WindowUpdate w) => (st, CUpdate w)
  | None =>
      (st, CFinishWith (Some (Errorf Internal "protocol error: unrecognized frame type" [])) None)
  | Some f =>
      let (r, err) := accept response_measure f (cs_receiver st) in
      (cwith_receiver r st, match err with Some e => CFinishWith (Some e) None | None => CDone end)
  end.
End AcceptServerFrame.

Definition client_stream_read_config (st : client_stream) : read_config ServerToClientFrame :=
  client_read_config (cs_isServerStream st) (cs_reverse st) (cs_method st) (cs_done st).

(** The window updates of a read: none once the stream is done. *)
Definition client_read_updates (st : client_stream) (us : list Z) : list ClientToServerFrame :=
  match cs_done st with
  | None => ClientToServer_WindowUpdate <$> us
  | Some _ => []
  end.

(** ** The stream and its goroutines *)

(** Where the goroutine that finishes the stream is: before the part under
    [metaMu], before the deferred calls, or back in [cancelStream].  [by_loop]
    says that it is the receive loop, [cancels] that [cancelStream] called. *)
Inductive finish_pc := PMeta (trailers : MD) | PDeferred | PCancelStream.
Record finishing := Finishing { fi_pc : finish_pc; fi_by_loop : bool; fi_cancels : bool }.

Record client_conf := ClientConf {
  cc_str : client_stream;
  cc_reading : option read_phase;
  cc_finishing : option finishing;
  cc_posted : list ClientToServerFrame;   (** the cancel frame that a goroutine sends *)
  cc_watching : bool;                     (** the goroutine that waits for the context *)
  cc_wire : list ClientToServerFrame;
  cc_reads : list read_return;
}.

Inductive client_label :=
  | CFrame (frame : option ServerToClientFrame)   (** the receive loop *)
  | CUpdatePost
  | CSendMsg (marshalled : error + bytes)
  | CSend (l : send_label)
  | CCloseSend (sendErr : option error)
  | CRecv
  | CMeta | CDeferred                             (** the rest of [finishStream] *)
  | CCancelled                                    (** and of [cancelStream] *)
  | CPosted
  | CWatch                                        (** the context is done: [cancelStream] *)
  | CCtx (e : error).

Definition cset_str (st : client_stream) (v : client_conf) : client_conf :=
  ClientConf st (cc_reading v) (cc_finishing v) (cc_posted v) (cc_watching v) (cc_wire v) (cc_reads v).
Definition cset_reading (o : option read_phase) (v : client_conf) : client_conf :=
  ClientConf (cc_str v) o (cc_finishing v) (cc_posted v) (cc_watching v) (cc_wire v) (cc_reads v).
Definition cset_finishing (o : option finishing) (v : client_conf) : client_conf :=
  ClientConf (cc_str v) (cc_reading v) o (cc_posted v) (cc_watching v) (cc_wire v) (cc_reads v).
Definition cset_posted (l : list ClientToServerFrame) (v : client_conf) : client_conf :=
  ClientConf (cc_str v) (cc_reading v) (cc_finishing v) l (cc_watching v) (cc_wire v) (cc_reads v).
Definition cset_watching (b : bool) (v : client_conf) : client_conf :=
  ClientConf (cc_str v) (cc_reading v) (cc_finishing v) (cc_posted v) b (cc_wire v) (cc_reads v).
Definition cto_wire (fs : list ClientToServerFrame) (v : client_conf) : client_conf :=
  ClientConf (cc_str v) (cc_reading v) (cc_finishing v) (cc_posted v) (cc_watching v)
    (cc_wire v ++ fs) (cc_reads v).
Definition cadd_read (r : read_return) (v : client_conf) : client_conf :=
  ClientConf (cc_str v) (cc_reading v) (cc_finishing v) (cc_posted v) (cc_watching v)
    (cc_wire v) (cc_reads v ++ [r]).

Definition client_writeMu_free (v : client_conf) : bool :=
  match c_call (cs_send (cc_str v)) with None => true | Some _ => false end.

(** The receive loop is inside [finishStream] or [updateWindow]. *)
Definition client_loop_busy (v : client_conf) : bool :=
  match cc_finishing v with Some f => fi_by_loop f | None => false end ||
  match c_posts (cs_send (cc_str v)) with O => false | S _ => true end.

(** A call of [finishStream] or, with [cancels], of [cancelStream]. *)
Definition call_finish (by_loop cancels : bool) (err : option error) (trailers : MD) (v : client_conf)
    : client_conf :=
  match finishStream_cas err (cc_str v) with
  | Some st => cset_finishing (Some (Finishing (PMeta trailers) by_loop cancels)) (cset_str st v)
  | None => v
  end.

Definition client_recv_returned (ret : read_return) (v : client_conf) : client_conf :=
  let v := cadd_read ret (cset_reading None v) in
  match rr_err ret with
  | Some e => if rr_ok ret then v else call_finish false true (Some e) None v
  | None => v
  end.

Section ClientSteps.
Context `{StatusLib}.

Definition client_step (l : client_label) (v : client_conf) : option client_conf :=
  let st := cc_str v in
  match l with
  | CFrame frame =>
      if client_loop_busy v then None
      else match acceptServerFrame frame st with
           | (st, CDone) => Some (cset_str st v)
           | (st, CFinishWith err trailers) => Some (call_finish true false err trailers (cset_str st v))
           | (st, CUpdate w) =>
               if w =? 0 then Some v
               else match send_step (UAdd w) (cs_send st) with
                    | Some c => Some (cset_str (cwith_send c st) v)
                    | None => None
                    end
           end
  | CUpdatePost =>
      match send_step UPost (cs_send st) with
      | Some c => Some (cset_str (cwith_send c st) v)
      | None => None
      end
  | CSendMsg marshalled =>
      if client_writeMu_free v then
        match client_SendMsg_begin marshalled st with
        | (st, inl _) => Some (cset_str st v)
        | (st, inr b) =>
            match send_step (LBegin b) (cs_send st) with
            | Some c => Some (cset_str (cwith_send c st) v)
            | None => None
            end
        end
      else None
  | CSend l =>
      if in_send l then
        match send_step l (cs_send st) with
        | Some c =>
            let out := drop (length (c_out (cs_send st))) (c_out c) in
            Some (cto_wire (chunk_frame <$> out) (cset_str (cwith_send c st) v))
        | None => None
        end
      else None
  | CCloseSend sendErr =>
      if client_writeMu_free v then
        let '(st, fs, _) := CloseSend sendErr st in Some (cto_wire fs (cset_str st v))
      else None
  | CRecv =>
      let phase := match cc_reading v with Some ph => ph | None => read_start end in
      match readMsg response_measure (client_stream_read_config st)
              (ReadState (cs_receiver st) (cs_readErr st)) phase with
      | Some (rs, us, out) =>
          let v := cto_wire (client_read_updates st us) (cset_str (cwith_reader rs st) v) in
          match out with
          | MsgBlocked ph => Some (cset_reading (Some ph) v)
          | MsgReturned ret => Some (client_recv_returned ret v)
          end
      | None => None
      end
  | CMeta =>
      match cc_finishing v with
      | Some (Finishing (PMeta trailers) by_loop cancels) =>
          Some (cset_finishing (Some (Finishing PDeferred by_loop cancels))
                 (cset_str (finishStream_meta trailers st) v))
      | _ => None
      end
  | CDeferred =>
      match cc_finishing v with
      | Some (Finishing PDeferred by_loop cancels) =>
          Some (cset_finishing
                  (if cancels then Some (Finishing PCancelStream by_loop cancels) else None)
                  (cset_str (finishStream_deferred st) v))
      | _ => None
      end
  | CCancelled =>
      match cc_finishing v with
      | Some (Finishing PCancelStream _ _) =>
          Some (cset_finishing None (cset_posted (cc_posted v ++ [ClientToServer_Cancel])
                 (cset_str (cwith_receiver (cancel (cs_receiver st)) st) v)))
      | _ => None
      end
  | CPosted =>
      match cc_posted v with
      | f :: fs => Some (cto_wire [f] (cset_posted fs v))
      | [] => None
      end
  | CWatch =>
      match cc_watching v, cs_ctxErr st with
      | true, Some e => Some (cset_watching false (call_finish false true (Some e) None v))
      | _, _ => None
      end
  | CCtx e =>
      match send_step (LCancel e) (cs_send st) with
      | Some c => Some (cset_str (cwith_send c st) v)
      | None => None
      end
  end.
End ClientSteps.

Definition client_start (st : client_stream) : client_conf :=
  ClientConf st None None [] true [] [].

(** The stream that [allocateStream] makes. *)
Definition new_client_stream (streamID : Z) (method : string) (reverse isClientStream isServerStream : bool)
    (ctxErr : option error) (s : sender) (r : receiver ServerToClientFrame) : client_stream :=
  ClientStream streamID method reverse isClientStream isServerStream
    (SendConf s None 0 ctxErr []) r None false None None false None None None 0 false.

(** ** Kinds of frames *)
Definition is_request_message (f : ClientToServerFrame) : bool :=
  match f with ClientToServer_RequestMessage _ => true | _ => false end.
Definition is_half_close (f : ClientToServerFrame) : bool :=
  match f with ClientToServer_HalfClose => true | _ => false end.
Definition is_cancel (f : ClientToServerFrame) : bool :=
  match f with ClientToServer_Cancel => true | _ => false end.

Lemma request_firsts cks : count is_request_message (chunk_frame <$> cks) = firsts cks.
Proof.
  unfold firsts. induction cks as [|ck cks IH]; [done|]. rewrite !fmap_cons, !count_cons, IH.
  unfold chunk_frame. simpl. unfold request_frame. by destruct (ck_first ck).
Qed.

Lemma request_count_other p cks :
  (forall d n b, p (request_frame d n b) = false) -> count p (chunk_frame <$> cks) = 0.
Proof.
  intros Hp. apply count_none, Forall_fmap, Forall_forall. intros ck _. apply Hp.
Qed.

(** ** Invariant *)
Section ClientInvariant.
Context `{StatusLib}.
Context (W maxChunk ov : Z).
Context (HW : is_u32 W) (HW1 : 1 <= W) (Hmc : 1 <= maxChunk) (Hov : 0 <= ov < MaxUint32).

Abbreviation maxc := (max_chunk W maxChunk).

(** How far the stream is finished. *)
Definition phase_ok (v : client_conf) : Prop :=
  let st := cc_str v in
  let r := cs_receiver st in
  match cs_done st, cc_finishing v with
  | None, None => cs_doneSignal st = false /\ r_closed r = false /\ r_cancelled r = false
  | None, Some _ => False
  | Some _, Some f =>
      match fi_pc f with
      | PMeta _ => cs_doneSignal st = false /\ r_closed r = false /\ r_cancelled r = false
      | PDeferred => cs_doneSignal st = true /\ cs_gotHeaders st = true /\
                     r_closed r = false /\ r_cancelled r = false
      | PCancelStream => cs_doneSignal st = true /\ cs_gotHeaders st = true /\
                     r_closed r = true /\ r_cancelled r = false /\ cs_ctxErr st <> None
      end
  | Some _, None => cs_doneSignal st = true /\ cs_gotHeaders st = true /\ r_closed r = true /\
                    cs_ctxErr st <> None
  end.

Record client_inv (v : client_conf) : Prop := {
  ki_send : exists ls, sender_inv W maxc ov ls (cs_send (cc_str v));
  ki_first : count is_request_message (cc_wire v) = firsts (c_out (cs_send (cc_str v)));
  ki_half : count is_half_close (cc_wire v) = if cs_halfClosed (cc_str v) then 1 else 0;
  ki_cancel : count is_cancel (cc_wire v ++ cc_posted v)
              = if r_cancelled (cs_receiver (cc_str v)) then 1 else 0;
  ki_posted : Forall (fun f => is_cancel f = true) (cc_posted v);
  ki_unary : cs_isClientStream (cc_str v) = false ->
    0 <= cs_numSent (cc_str v) <= 1 /\
    firsts (c_out (cs_send (cc_str v))) + first_pending (cs_send (cc_str v)) <= cs_numSent (cc_str v);
  ki_phase : phase_ok v;
}.

(** An action that leaves alone what the invariant is about, apart from window
    updates on the wire. *)
Lemma kinv_quiet v v' us :
  client_inv v -> phase_ok v' ->
  cs_isClientStream (cc_str v') = cs_isClientStream (cc_str v) ->
  cs_send (cc_str v') = cs_send (cc_str v) -> cs_numSent (cc_str v') = cs_numSent (cc_str v) ->
  cs_halfClosed (cc_str v') = cs_halfClosed (cc_str v) ->
  r_cancelled (cs_receiver (cc_str v')) = r_cancelled (cs_receiver (cc_str v)) ->
  cc_posted v' = cc_posted v -> cc_wire v' = cc_wire v ++ us ->
  count is_request_message us = 0 -> count is_half_close us = 0 -> count is_cancel us = 0 ->
  client_inv v'.
Proof.
  intros [Hs Hf Hh Hc Hp Hu Hph] Hph' E1 E2 E3 E4 E5 E6 E7 C1 C2 C3.
  split; rewrite ?E1, ?E2, ?E3, ?E4, ?E5, ?E6, ?E7; auto; rewrite ?count_app in *; lia.
Qed.

(** Actions of others on the sender. *)
Lemma kinv_send_env v l c :
  client_inv v -> match l with UAdd _ | UPost | LCancel _ => True | _ => False end ->
  send_step l (cs_send (cc_str v)) = Some c ->
  client_inv (cset_str (cwith_send c (cc_str v)) v).
Proof.
  intros [(ls & Hs) Hf Hh Hc Hp Hu Hph] Hl Hstep.
  assert (Hsame : c_call c = c_call (cs_send (cc_str v)) /\ c_out c = c_out (cs_send (cc_str v))
            /\ (cs_ctxErr (cc_str v) <> None -> c_ctx c <> None)).
  { destruct l; try done; simpl in Hstep; step_in Hstep; done. }
  destruct Hsame as (Ecall & Eout & Hctx).
  split; simpl; rewrite ?Eout; auto.
  - exists (ls ++ [l]). eapply sender_inv_step; eauto using max_chunk_pos.
  - unfold first_pending in *. by rewrite Ecall.
  - unfold phase_ok in *. simpl. destruct (cs_done (cc_str v)), (cc_finishing v) as [[[] ? ?]|];
      simpl in *; tauto.
Qed.

Lemma kinv_call_finish v by_loop cancels err trailers :
  client_inv v -> client_inv (call_finish by_loop cancels err trailers v).
Proof.
  intros Hinv. unfold call_finish, finishStream_cas.
  pose proof (ki_phase _ Hinv) as Hph. unfold phase_ok in Hph.
  destruct (cs_done (cc_str v)) eqn:Hd; [done|]. destruct (cc_finishing v) eqn:Hf; [done|].
  by eapply (kinv_quiet v _ []); simpl; rewrite ?app_nil_r.
Qed.

Lemma client_updates_counts st us :
  count is_request_message (client_read_updates st us) = 0 /\
  count is_half_close (client_read_updates st us) = 0 /\
  count is_cancel (client_read_updates st us) = 0.
Proof.
  unfold client_read_updates. destruct (cs_done st); [done|].
  split_and!; apply count_none, Forall_fmap, Forall_forall; done.
Qed.

(** A read of the receiver, or an accepted frame, keeps the phase. *)
Lemma phase_receiver v v' :
  phase_ok v -> cs_done (cc_str v') = cs_done (cc_str v) -> cc_finishing v' = cc_finishing v ->
  cs_doneSignal (cc_str v') = cs_doneSignal (cc_str v) ->
  (cs_gotHeaders (cc_str v) = true -> cs_gotHeaders (cc_str v') = true) ->
  cs_ctxErr (cc_str v') = cs_ctxErr (cc_str v) ->
  r_closed (cs_receiver (cc_str v')) = r_closed (cs_receiver (cc_str v)) ->
  r_cancelled (cs_receiver (cc_str v')) = r_cancelled (cs_receiver (cc_str v)) ->
  phase_ok v'.
Proof.
  unfold phase_ok. intros Hph E1 E2 E3 E4 E5 E6 E7. rewrite E1, E2, E3, E5, E6, E7.
  destruct (cs_done (cc_str v)), (cc_finishing v) as [[[] ? ?]|]; simpl in *; tauto.
Qed.

Lemma kinv_CFrame v frame v' :
  client_inv v -> client_step (CFrame frame) v = Some v' -> client_inv v'.
Proof.
  intros Hinv Hstep. cbn [client_step] in Hstep. destruct (client_loop_busy v); [done|].
  pose proof (ki_phase _ Hinv) as Hph.
  assert (Hsame : client_inv (cset_str (cc_str v) v)) by (by destruct v).
  assert (Hacc : forall f, client_inv (cset_str (cwith_receiver
            (fst (accept response_measure f (cs_receiver (cc_str v)))) (cc_str v)) v)).
  { intros f. destruct (accept_flags response_measure f (cs_receiver (cc_str v))) as [E1 E2].
    eapply (kinv_quiet v _ []); simpl; rewrite ?app_nil_r; try done. by eapply phase_receiver. }
  assert (Hdata : forall f, (let (st, a) := let (r, err) := accept response_measure f
        (cs_receiver (cc_str v)) in (cwith_receiver r (cc_str v),
        match err with Some e => CFinishWith (Some e) None | None => CDone end) in
      match a with
      | CDone => Some (cset_str st v)
      | CFinishWith err trailers => Some (call_finish true false err trailers (cset_str st v))
      | CUpdate w => None
      end) = Some v' -> client_inv v').
  { intros f. specialize (Hacc f). destruct (accept _ _ _) as [r [e|]]; intros [= <-]; [|exact Hacc].
    by apply kinv_call_finish. }
  destruct frame as [[s|md|m|d|c|w]|]; cbn [acceptServerFrame] in Hstep;
    try (injection Hstep as <-; by apply kinv_call_finish).
  - destruct (cs_gotHeaders (cc_str v)) eqn:Hg; injection Hstep as <-; [done|].
    eapply (kinv_quiet v _ []); simpl; rewrite ?app_nil_r; try done. by eapply phase_receiver.
  - apply (Hdata (ServerToClient_ResponseMessage m)). by destruct (accept _ _ _) as [r [e|]].
  - apply (Hdata (ServerToClient_MoreResponseData d)). by destruct (accept _ _ _) as [r [e|]].
  - destruct (w =? 0); [by simplify_eq|].
    destruct (send_step (UAdd w) _) as [c|] eqn:Hc; [|done]. injection Hstep as <-.
    by apply (kinv_send_env v (UAdd w)).
Qed.

Lemma kinv_CSendMsg v marshalled v' :
  client_inv v -> client_step (CSendMsg marshalled) v = Some v' -> client_inv v'.
Proof.
  intros Hinv Hstep. cbn [client_step] in Hstep.
  destruct (client_writeMu_free v) eqn:Hfree; [|done].
  assert (Hcall : c_call (cs_send (cc_str v)) = None).
  { unfold client_writeMu_free in Hfree. by destruct (c_call _). }
  unfold client_SendMsg_begin in Hstep.
  destruct (negb (cs_isClientStream (cc_str v)) && (cs_numSent (cc_str v) =? 1)) eqn:Hg.
  { injection Hstep as <-. by destruct v. }
  destruct Hinv as [(ls & Hs) Hf Hh Hc Hp Hu Hph].
  assert (Hu' : cs_isClientStream (cc_str v) = false ->
            0 <= cs_numSent (cc_str v) +u 1 <= 1 /\
            firsts (c_out (cs_send (cc_str v))) + 1 <= cs_numSent (cc_str v) +u 1).
  { intros Hss. destruct (Hu Hss) as [Hn1 Hn2].
    pose proof (first_pending_nonneg (cs_send (cc_str v))).
    assert (cs_numSent (cc_str v) = 0) as Hn0.
    { rewrite Hss in Hg. simpl in Hg. apply Z.eqb_neq in Hg. lia. }
    rewrite Hn0 in *. change (0 +u 1) with 1. lia. }
  assert (Hnum : client_inv (cset_str (cwith_sent (cs_numSent (cc_str v) +u 1)
            (cs_halfClosed (cc_str v)) (cc_str v)) v)).
  { split; simpl; auto; [by eexists|]. intros Hss. destruct (Hu' Hss) as [? ?].
    unfold first_pending. rewrite Hcall. lia. }
  destruct marshalled as [e|b]; [by simplify_eq|].
  destruct (len b >? MaxUint32); [by simplify_eq|].
  cbn [send_step cs_send cwith_sent] in Hstep. rewrite Hcall in Hstep. injection Hstep as <-.
  split; simpl; auto.
  - exists (ls ++ [LBegin b]). eapply sender_inv_step; eauto using max_chunk_pos.
    simpl. by rewrite Hcall.
  - intros Hss. destruct (Hu' Hss) as [? ?].
    pose proof (first_pending_begin b (cs_send (cc_str v))). split; [done|]. lia.
Qed.

Lemma kinv_CSend v l v' : client_inv v -> client_step (CSend l) v = Some v' -> client_inv v'.
Proof.
  intros [(ls & Hs) Hf Hh Hc Hp Hu Hph] Hstep. cbn [client_step] in Hstep.
  destruct (in_send l) eqn:Hl; [|done].
  destruct (send_step l (cs_send (cc_str v))) as [c|] eqn:Hc'; [|done]. injection Hstep as <-.
  destruct (first_pending_step _ _ _ ls l _ c Hs Hc' Hl) as (Hpend & Ectx & k & Hk).
  pose proof (send_step_drop _ _ _ Hc') as Hout. set (new := drop _ (c_out c)) in *.
  assert (count is_half_close (chunk_frame <$> new) = 0) as C1
    by (apply request_count_other; intros ? ? []; reflexivity).
  assert (count is_cancel (chunk_frame <$> new) = 0) as C2
    by (apply request_count_other; intros ? ? []; reflexivity).
  split; simpl; auto; rewrite ?count_app in *; try lia.
  - exists (ls ++ [l]). eapply sender_inv_step; eauto using max_chunk_pos.
  - rewrite Hf, Hout, request_firsts. unfold firsts. by rewrite count_app.
  - intros Hss. destruct (Hu Hss). lia.
  - unfold phase_ok in *. unfold cs_ctxErr in *. simpl. by rewrite Ectx.
Qed.

Lemma kinv_CRecv v v' : client_inv v -> client_step CRecv v = Some v' -> client_inv v'.
Proof.
  intros Hinv Hstep. cbn [client_step] in Hstep.
  destruct (readMsg _ _ _ _) as [[[rs us] out]|] eqn:Hr; [|done].
  apply readMsg_took in Hr as (_ & E1 & E2). simpl in E1, E2.
  destruct (client_updates_counts (cc_str v) us) as (C1 & C2 & C3).
  pose proof (ki_phase _ Hinv) as Hph. set (v1 := cto_wire _ _) in Hstep.
  assert (Hread : forall rd reads, client_inv (ClientConf (cc_str v1) rd (cc_finishing v1)
            (cc_posted v1) (cc_watching v1) (cc_wire v1) reads)).
  { intros rd reads. eapply (kinv_quiet v _ (client_read_updates (cc_str v) us)); try done.
    by eapply phase_receiver. }
  destruct out as [ret|ph]; injection Hstep as <-; [|apply Hread].
  unfold client_recv_returned. destruct (rr_err ret); [destruct (rr_ok ret)|]; try apply Hread.
  apply kinv_call_finish. apply Hread.
Qed.

Lemma kinv_finish v l v' :
  client_inv v -> match l with CMeta | CDeferred | CCancelled | CPosted | CWatch => True | _ => False end ->
  client_step l v = Some v' -> client_inv v'.
Proof.
  intros Hinv Hl Hstep. pose proof Hinv as [(ls & Hs) Hf Hh Hc Hp Hu Hph].
  destruct l; try done; cbn [client_step] in Hstep.
  - destruct (cc_finishing v) as [[[trailers| |] by_loop cancels]|] eqn:Hfin; try done.
    injection Hstep as <-. eapply (kinv_quiet v _ []); simpl; rewrite ?app_nil_r; try done.
    unfold phase_ok in *. rewrite Hfin in Hph. simpl in *. destruct (cs_done (cc_str v)); tauto.
  - destruct (cc_finishing v) as [[[trailers| |] by_loop cancels]|] eqn:Hfin; try done.
    injection Hstep as <-. unfold phase_ok in Hph. rewrite Hfin in Hph. simpl in Hph.
    destruct (cs_done (cc_str v)) as [e|] eqn:Hd; [|done]. destruct Hph as (P1 & P2 & P3 & P4).
    assert (Hsend : exists ls, sender_inv W maxc ov ls (cancel_ctx ContextCanceled (cs_send (cc_str v)))).
    { unfold cancel_ctx. destruct (c_ctx (cs_send (cc_str v))) eqn:Hx; [by exists ls|].
      exists (ls ++ [LCancel ContextCanceled]). eapply sender_inv_step; eauto using max_chunk_pos.
      simpl. by rewrite Hx. }
    assert (Eout : c_out (cancel_ctx ContextCanceled (cs_send (cc_str v))) = c_out (cs_send (cc_str v)) /\
      first_pending (cancel_ctx ContextCanceled (cs_send (cc_str v))) = first_pending (cs_send (cc_str v))).
    { unfold cancel_ctx. by destruct (c_ctx _). }
    destruct Eout as [Eout Epend].
    pose proof (cancel_ctx_done ContextCanceled (cs_send (cc_str v))) as Hdone.
    split; simpl; rewrite ?Eout, ?Epend; auto.
    unfold phase_ok. simpl. rewrite Hd. by destruct cancels.
  - destruct (cc_finishing v) as [[[trailers| |] by_loop cancels]|] eqn:Hfin; try done.
    injection Hstep as <-. unfold phase_ok in Hph. rewrite Hfin in Hph. simpl in Hph.
    destruct (cs_done (cc_str v)) as [e|] eqn:Hd; [|done]. destruct Hph as (P1 & P2 & P3 & P4 & P5).
    rewrite P4 in Hc. split; simpl; auto; [by exists ls| | |].
    + rewrite app_assoc, count_app, Hc. done.
    + apply Forall_app. split; [done|]. by apply Forall_singleton.
    + unfold phase_ok. simpl. rewrite Hd. done.
  - destruct (cc_posted v) as [|f fs] eqn:Hpo; [done|]. injection Hstep as <-.
    apply Forall_cons in Hp as [Hpf Hpfs]. rewrite count_app, count_cons in Hc.
    assert (is_request_message f = false /\ is_half_close f = false) as [F1 F2] by (by destruct f).
    split; simpl; rewrite ?count_app, ?count_cons, ?count_nil, ?F1, ?F2 in *; auto; try lia; eauto.
  - destruct (cc_watching v), (cs_ctxErr (cc_str v)) as [e|]; try done. injection Hstep as <-.
    assert (Hw : client_inv (call_finish false true (Some e) None v)) by (by apply kinv_call_finish).
    by destruct Hw as [? ? ? ? ? ? ?].
Qed.

(** Every action keeps the invariant. *)
Lemma client_inv_step l v v' : client_inv v -> client_step l v = Some v' -> client_inv v'.
Proof.
  intros Hinv Hstep. destruct l as [frame| |m|l|sendErr| | | | | | |e];
    [by eapply kinv_CFrame| |by eapply kinv_CSendMsg|by eapply kinv_CSend| |by eapply kinv_CRecv
    |by eapply (kinv_finish v _ v' Hinv); try done..|]; cbn [client_step] in Hstep.
  - destruct (send_step _ _) as [c|] eqn:Hc; [|done]. injection Hstep as <-.
    by apply (kinv_send_env v UPost).
  - destruct (client_writeMu_free v); [|done]. unfold CloseSend in Hstep.
    pose proof (ki_half _ Hinv) as Hh. pose proof (ki_cancel _ Hinv) as Hc.
    destruct Hinv as [Hs Hf _ _ Hp Hu Hph].
    destruct (cs_doneSignal (cc_str v)), (cs_halfClosed (cc_str v)) eqn:Hhc; injection Hstep as <-;
      split; simpl; rewrite ?app_nil_r, ?Hhc; auto;
      rewrite ?count_app, ?count_cons, ?count_nil in *; simpl; lia.
  - destruct (send_step _ _) as [c|] eqn:Hc; [|done]. injection Hstep as <-.
    by apply (kinv_send_env v (LCancel e)).
Qed.
End ClientInvariant.

(** ** What an action can change *)

(** Nothing of the outcome, and of the receiver's queue only what is read once
    nothing is accepted any more. *)
Record client_same (v w : client_conf) : Prop := {
  same_client : cs_isClientStream (cc_str w) = cs_isClientStream (cc_str v);
  same_done : cs_done (cc_str w) = cs_done (cc_str v);
  same_finishing : cc_finishing w = cc_finishing v;
  same_signal : cs_doneSignal (cc_str w) = cs_doneSignal (cc_str v);
  same_trailers : cs_trailers (cc_str w) = cs_trailers (cc_str v);
  same_headers : cs_gotHeaders (cc_str v) = true ->
    cs_gotHeaders (cc_str w) = true /\ cs_headers (cc_str w) = cs_headers (cc_str v);
  same_flags : r_closed (cs_receiver (cc_str w)) = r_closed (cs_receiver (cc_str v)) /\
    r_cancelled (cs_receiver (cc_str w)) = r_cancelled (cs_receiver (cc_str v));
  same_items : client_loop_busy v = true \/ r_closed (cs_receiver (cc_str v)) = true ->
    exists taken, r_items (cs_receiver (cc_str v)) = taken ++ r_items (cs_receiver (cc_str w));
}.

Lemma client_same_refl v w :
  cs_isClientStream (cc_str w) = cs_isClientStream (cc_str v) ->
  cs_done (cc_str w) = cs_done (cc_str v) -> cc_finishing w = cc_finishing v ->
  cs_doneSignal (cc_str w) = cs_doneSignal (cc_str v) ->
  cs_trailers (cc_str w) = cs_trailers (cc_str v) ->
  cs_gotHeaders (cc_str w) = cs_gotHeaders (cc_str v) ->
  cs_headers (cc_str w) = cs_headers (cc_str v) ->
  cs_receiver (cc_str w) = cs_receiver (cc_str v) -> client_same v w.
Proof.
  intros E0 E1 E2 E3 E4 E5 E6 E7. split; rewrite ?E5, ?E6, ?E7; auto. intros _. by exists [].
Qed.

Section ClientChanges.
Context `{StatusLib}.

Inductive client_change (v v' : client_conf) : Prop :=
  | ChSame : client_same v v' -> client_change v v'
  | ChFinish w by_loop cancels err trailers :
      client_same v w -> v' = call_finish by_loop cancels err trailers w ->
      (by_loop = true -> cancels = false) -> client_change v v'
  | ChMeta trailers by_loop cancels :
      cc_finishing v = Some (Finishing (PMeta trailers) by_loop cancels) ->
      v' = cset_finishing (Some (Finishing PDeferred by_loop cancels))
             (cset_str (finishStream_meta trailers (cc_str v)) v) -> client_change v v'
  | ChDeferred by_loop cancels :
      cc_finishing v = Some (Finishing PDeferred by_loop cancels) ->
      v' = cset_finishing (if cancels then Some (Finishing PCancelStream by_loop cancels) else None)
             (cset_str (finishStream_deferred (cc_str v)) v) -> client_change v v'
  | ChCancel by_loop cancels :
      cc_finishing v = Some (Finishing PCancelStream by_loop cancels) ->
      v' = cset_finishing None (cset_posted (cc_posted v ++ [ClientToServer_Cancel])
             (cset_str (cwith_receiver (cancel (cs_receiver (cc_str v))) (cc_str v)) v)) ->
      client_change v v'.

Lemma change_CFrame v frame v' : client_step (CFrame frame) v = Some v' -> client_change v v'.
Proof.
  cbn [client_step]. destruct (client_loop_busy v) eqn:Hb; [done|]. intros Hs.
  assert (Hrefl : client_same v (cset_str (cc_str v) v)) by (by apply client_same_refl).
  assert (Hacc : forall f, client_same v (cset_str (cwith_receiver
            (fst (accept response_measure f (cs_receiver (cc_str v)))) (cc_str v)) v)).
  { intros f. split; simpl; auto using accept_flags. rewrite Hb. intros [?|Hc]; [done|].
    unfold accept. rewrite Hc. by exists []. }
  destruct frame as [[s|md|m|d|c|w]|]; cbn [acceptServerFrame] in Hs;
    try (injection Hs as <-; by eapply ChFinish).
  - destruct (cs_gotHeaders (cc_str v)) eqn:Hg; injection Hs as <-; apply ChSame; [done|].
    split; simpl; rewrite ?Hg; try done. by exists [].
  - specialize (Hacc (ServerToClient_ResponseMessage m)).
    destruct (accept _ _ _) as [r [e|]]; injection Hs as <-; [by eapply ChFinish|by apply ChSame].
  - specialize (Hacc (ServerToClient_MoreResponseData d)).
    destruct (accept _ _ _) as [r [e|]]; injection Hs as <-; [by eapply ChFinish|by apply ChSame].
  - apply ChSame. destruct (w =? 0); [injection Hs as <-; by apply client_same_refl|].
    destruct (send_step _ _); simplify_eq. by apply client_same_refl.
Qed.

Lemma change_CRecv v v' : client_step CRecv v = Some v' -> client_change v v'.
Proof.
  cbn [client_step]. intros Hs.
  destruct (readMsg _ _ _ _) as [[[rs us] out]|] eqn:Hr; [|done].
  apply readMsg_took in Hr as (Ht & E1 & E2). simpl in Ht, E1, E2.
  set (w := cto_wire _ _) in Hs.
  assert (Hw : forall rd reads, client_same v (ClientConf (cc_str w) rd (cc_finishing w)
            (cc_posted w) (cc_watching w) (cc_wire w) reads)) by (by split).
  destruct out as [ret|ph]; injection Hs as <-; [|apply ChSame, Hw].
  unfold client_recv_returned. destruct (rr_err ret); [destruct (rr_ok ret)|]; try apply ChSame, Hw.
  eapply ChFinish; [apply Hw|done|done].
Qed.

Lemma client_step_change l v v' : client_step l v = Some v' -> client_change v v'.
Proof.
  destruct l as [frame| |m|l|sendErr| | | | | | |e];
    [apply change_CFrame| | | | |apply change_CRecv|..]; cbn [client_step]; intros Hs.
  - destruct (send_step _ _); simplify_eq. by apply ChSame, client_same_refl.
  - destruct (client_writeMu_free v); [|done]. unfold client_SendMsg_begin in Hs.
    apply ChSame. destruct (_ && _); [by simplify_eq; apply client_same_refl|].
    destruct m as [e|b]; [|destruct (_ >? _); [|destruct (send_step _ _)]]; simplify_eq;
      by apply client_same_refl.
  - destruct (in_send l); [|done]. destruct (send_step _ _); simplify_eq.
    by apply ChSame, client_same_refl.
  - destruct (client_writeMu_free v); [|done]. unfold CloseSend in Hs. apply ChSame.
    destruct (cs_doneSignal (cc_str v)), (cs_halfClosed (cc_str v)); simplify_eq; by apply client_same_refl.
  - destruct (cc_finishing v) as [[[trailers| |] by_loop cancels]|] eqn:Hf; simplify_eq.
    by eapply ChMeta.
  - destruct (cc_finishing v) as [[[trailers| |] by_loop cancels]|] eqn:Hf; simplify_eq.
    by eapply ChDeferred.
  - destruct (cc_finishing v) as [[[trailers| |] by_loop cancels]|] eqn:Hf; simplify_eq.
    by eapply ChCancel.
  - destruct (cc_posted v); simplify_eq. by apply ChSame, client_same_refl.
  - destruct (cc_watching v), (cs_ctxErr (cc_str v)) as [e|]; simplify_eq.
    apply (ChFinish _ _ (cset_watching false v) false true (Some e) None); try done.
    + by apply client_same_refl.
    + unfold call_finish. simpl. by destruct (finishStream_cas _ _).
  - destruct (send_step _ _); simplify_eq. by apply ChSame, client_same_refl.
Qed.

(** The outcome of the RPC, once there, stays. *)
Record outcome_kept (v v' : client_conf) : Prop := {
  kept_done : forall e, cs_done (cc_str v) = Some e -> cs_done (cc_str v') = Some e;
  kept_signal : cs_doneSignal (cc_str v) = true ->
    cs_doneSignal (cc_str v') = true /\ cs_trailers (cc_str v') = cs_trailers (cc_str v);
  kept_headers : cs_gotHeaders (cc_str v) = true ->
    cs_gotHeaders (cc_str v') = true /\ cs_headers (cc_str v') = cs_headers (cc_str v);
}.

Lemma outcome_kept_trans v1 v2 v3 : outcome_kept v1 v2 -> outcome_kept v2 v3 -> outcome_kept v1 v3.
Proof.
  intros [A1 A2 A3] [B1 B2 B3]. split; [by auto| |].
  - intros E. destruct (A2 E) as [E' <-]. by apply B2.
  - intros E. destruct (A3 E) as [E' <-]. by apply B3.
Qed.

(** When the receive loop has finished the stream. *)
Definition finished_by_loop (v : client_conf) : Prop :=
  cs_done (cc_str v) <> None /\ r_cancelled (cs_receiver (cc_str v)) = false /\
  match cc_finishing v with
  | Some f => fi_by_loop f = true /\ fi_cancels f = false /\ fi_pc f <> PCancelStream
  | None => r_closed (cs_receiver (cc_str v)) = true
  end.

Lemma call_finish_done by_loop cancels err trailers w :
  cs_done (cc_str w) <> None -> call_finish by_loop cancels err trailers w = w.
Proof. unfold call_finish, finishStream_cas. by destruct (cs_done (cc_str w)). Qed.

Lemma loop_finish_step v v' :
  client_change v v' -> finished_by_loop v ->
  finished_by_loop v' /\
  exists taken, r_items (cs_receiver (cc_str v)) = taken ++ r_items (cs_receiver (cc_str v')).
Proof.
  intros Hch (Hd & Hc & Hf).
  assert (Hsame : forall w, client_same v w -> finished_by_loop w /\
    exists taken, r_items (cs_receiver (cc_str v)) = taken ++ r_items (cs_receiver (cc_str w))).
  { intros w [_ E1 E2 _ _ _ [E3 E4] Hit]. unfold finished_by_loop. rewrite E1, E2, E3, E4.
    split; [done|]. apply Hit. unfold client_loop_busy.
    destruct (cc_finishing v) as [[pc b c]|]; [left|by right]. simpl in *. by destruct Hf as [-> _]. }
  destruct Hch as [Hs|w b c err tr Hs -> _|tr b c E ->|b c E ->|b c E ->].
  - by apply Hsame.
  - rewrite call_finish_done; [by apply Hsame|]. by rewrite (same_done _ _ Hs).
  - rewrite E in Hf. unfold finished_by_loop. simpl in *.
    split; [|by exists []]. by destruct Hf as (-> & -> & _).
  - rewrite E in Hf. unfold finished_by_loop. simpl in *. destruct Hf as (-> & -> & _).
    split; [done|]. by exists [].
  - rewrite E in Hf. by destruct Hf as (_ & _ & []).
Qed.

(** What the first call of [finishStream] leaves. *)
Lemma loop_finishes frame v v' :
  client_step (CFrame frame) v = Some v' -> cs_done (cc_str v) = None ->
  cs_done (cc_str v') <> None -> r_cancelled (cs_receiver (cc_str v)) = false ->
  finished_by_loop v'.
Proof.
  cbn [client_step]. destruct (client_loop_busy v) eqn:Hb; [done|]. intros Hs Hd Hd' Hc.
  assert (Hfin : forall w err tr, cs_done (cc_str w) = None ->
    r_cancelled (cs_receiver (cc_str w)) = false ->
    finished_by_loop (call_finish true false err tr w)).
  { intros w err tr Ew Ec. unfold call_finish, finishStream_cas, finished_by_loop. by rewrite Ew. }
  destruct frame as [[s|md|m|d|c|w]|]; cbn [acceptServerFrame] in Hs;
    try (injection Hs as <-; by apply Hfin).
  - destruct (cs_gotHeaders (cc_str v)); by simplify_eq.
  - pose proof (accept_flags response_measure (ServerToClient_ResponseMessage m)
      (cs_receiver (cc_str v))) as [_ E].
    destruct (accept _ _ _) as [r [e|]]; simplify_eq. apply Hfin; simpl in *; congruence.
  - pose proof (accept_flags response_measure (ServerToClient_MoreResponseData d)
      (cs_receiver (cc_str v))) as [_ E].
    destruct (accept _ _ _) as [r [e|]]; simplify_eq. apply Hfin; simpl in *; congruence.
  - destruct (w =? 0); [by simplify_eq|]. destruct (send_step _ _); by simplify_eq.
Qed.

Lemma outcome_kept_step W maxChunk ov v v' :
  client_inv W maxChunk ov v -> client_change v v' -> outcome_kept v v'.
Proof.
  intros Hinv Hch. pose proof (ki_phase _ _ _ _ Hinv) as Hph. unfold phase_ok in Hph.
  assert (Hsame : forall w, client_same v w -> outcome_kept v w).
  { intros w [_ E1 _ E2 E3 E4 _ _]. split; [congruence| |done]. intros E. split; congruence. }
  destruct Hch as [Hs|w b c err tr Hs -> _|tr b c E ->|b c E ->|b c E ->].
  - by apply Hsame.
  - unfold call_finish, finishStream_cas. destruct (Hsame w Hs) as [K1 K2 K3].
    destruct (cs_done (cc_str w)) eqn:Ew; [by apply Hsame|]. split; simpl; [|exact K2|exact K3].
    intros e He. apply K1 in He. congruence.
  - rewrite E in Hph. split; simpl; [done| |done].
    destruct (cs_done (cc_str v)); [|done]. simpl in Hph. destruct Hph as [-> _]. done.
  - by split.
  - by split.
Qed.
End ClientChanges.

(** ** The end of a stream *)

(** The actions that the stream's own goroutines take: neither the server nor the
    caller is waited for. *)
Definition client_internal (l : client_label) : bool :=
  match l with CUpdatePost | CSend _ | CMeta | CDeferred | CCancelled | CPosted | CWatch => true
             | _ => false end.

Definition finishing_cost (o : option finishing) : Z :=
  match o with
  | Some f => match fi_pc f with PMeta _ => 5 | PDeferred => 4 | PCancelStream => 3 end
  | None => 0
  end.
Definition client_cost (v : client_conf) : Z :=
  send_cost (cs_send (cc_str v)) + finishing_cost (cc_finishing v) + len (cc_posted v)
  + if cc_watching v then 1 else 0.

Section ClientProperties.
Context `{StatusLib}.
Context (W maxChunk ov : Z).
Context (HW : is_u32 W) (HW1 : 1 <= W) (Hmc : 1 <= maxChunk) (Hov : 0 <= ov < MaxUint32).
Context (streamID : Z) (method : string) (reverse isClientStream isServerStream : bool).
Context (ctxErr : option error) (r : receiver ServerToClientFrame).
Context (Hr : r_closed r = false) (Hr' : r_cancelled r = false).

Definition new_client : client_conf :=
  client_start (new_client_stream streamID method reverse isClientStream isServerStream ctxErr
                  (newSender W maxChunk ov) r).

Abbreviation inv := (client_inv W maxChunk ov).

Lemma new_client_inv : inv new_client.
Proof.
  split; simpl; rewrite ?Hr'; try done.
  exists []. destruct (sender_run_inv W maxChunk ov HW HW1 Hmc Hov [] (sender_start W maxChunk ov) eq_refl)
    as [? ? ? ? ? ?]. by split.
Qed.

Lemma client_run_inv ls v0 v : inv v0 -> run client_step ls v0 = Some v -> inv v.
Proof. intros Hv0. apply run_invariant; [done|]. intros. by eapply client_inv_step. Qed.

Lemma new_client_run_inv ls v : run client_step ls new_client = Some v -> inv v.
Proof. apply client_run_inv, new_client_inv. Qed.

Lemma client_kind ls v :
  run client_step ls new_client = Some v -> cs_isClientStream (cc_str v) = isClientStream.
Proof.
  apply (run_invariant client_step (fun v => cs_isClientStream (cc_str v) = isClientStream)); [done|].
  intros l v0 v1 Hi Hs. rewrite <- Hi.
  destruct (client_step_change _ _ _ Hs) as [E|w b c err tr E -> _|tr b c _ ->|b c _ ->|b c _ ->]; try done.
  - apply E.
  - rewrite <- (same_client _ _ E). unfold call_finish. by destruct (finishStream_cas _ _) eqn:Hc;
      [unfold finishStream_cas in Hc; destruct (cs_done _); simplify_eq|].
Qed.

(** However the caller, the receive loop, the goroutine that waits for the
    context and the stream's own goroutines interleave, at most one half-close
    and at most one cancel frame are ever sent or about to be sent for a stream,
    a cancel frame only for a stream that is done, and a method that is not
    client-streaming begins at most one request message. *)
Theorem client_frames_once ls v :
  run client_step ls new_client = Some v ->
  let sent := cc_wire v ++ cc_posted v in
  count is_half_close sent <= 1 /\ count is_cancel sent <= 1 /\
  (cs_done (cc_str v) = None -> count is_cancel sent = 0) /\
  (isClientStream = false -> count is_request_message (cc_wire v) <= 1).
Proof.
  intros Hrun. pose proof (client_kind ls v Hrun) as Hkind.
  destruct (new_client_run_inv ls v Hrun) as [_ Hf Hh Hc Hp Hu Hph]. simpl.
  assert (Hno : count is_half_close (cc_posted v) = 0).
  { apply count_none. eapply Forall_impl; [exact Hp|]. by intros []. }
  rewrite count_app, Hh, Hno, Hc. split_and!.
  - destruct (cs_halfClosed (cc_str v)); lia.
  - destruct (r_cancelled (cs_receiver (cc_str v))); lia.
  - intros Hd. unfold phase_ok in Hph. rewrite Hd in Hph.
    destruct (cc_finishing v); [done|]. by destruct Hph as (_ & _ & ->).
  - intros Hns. rewrite <- Hkind in Hns. destruct (Hu Hns) as [? ?].
    pose proof (first_pending_nonneg (cs_send (cc_str v))). lia.
Qed.

Lemma outcome_kept_run ls v v' : inv v -> run client_step ls v = Some v' -> outcome_kept v v'.
Proof.
  revert v. induction ls as [|l ls IH]; intros v Hinv Hrun; simpl in Hrun.
  - simplify_eq. by split.
  - destruct (client_step l v) as [v1|] eqn:Hs; [|done].
    eapply outcome_kept_trans; [by eapply outcome_kept_step, client_step_change|].
    by apply IH; [eapply client_inv_step|].
Qed.

(** C20: What the caller is told is told once.  Once the outcome of the RPC is set it
    never changes again; what [Trailer] returns does not change once the stream has
    signalled that it is done, and what [Header] returns not once the headers are
    there, or have been given up: whatever the server sends afterwards, whoever else
    tries to finish the stream, and however the goroutines interleave. *)
Theorem client_outcome_is_final ls v ls' v' :
  run client_step ls new_client = Some v -> run client_step ls' v = Some v' ->
  (forall e, cs_done (cc_str v) = Some e -> cs_done (cc_str v') = Some e) /\
  (cs_doneSignal (cc_str v) = true -> Trailer (cc_str v') = Trailer (cc_str v)) /\
  (cs_gotHeaders (cc_str v) = true -> Header (cc_str v') = Header (cc_str v)).
Proof.
  intros Hrun Hrun'. destruct (outcome_kept_run ls' v v' (new_client_run_inv ls v Hrun) Hrun') as [K1 K2 K3].
  split_and!; [done| |].
  - intros E. destruct (K2 E) as [E' Et]. unfold Trailer. by rewrite E, E', Et.
  - intros E. destruct (K3 E) as [E' Et]. unfold Header. by rewrite E, E', Et.
Qed.

Lemma loop_finish_run ls v v' :
  finished_by_loop v -> run client_step ls v = Some v' ->
  finished_by_loop v' /\
  exists taken, r_items (cs_receiver (cc_str v)) = taken ++ r_items (cs_receiver (cc_str v')).
Proof.
  revert v. induction ls as [|l ls IH]; intros v Hv Hrun; simpl in Hrun.
  - simplify_eq. split; [done|]. by exists [].
  - destruct (client_step l v) as [v1|] eqn:Hs; [|done].
    destruct (loop_finish_step v v1 (client_step_change _ _ _ Hs) Hv) as [Hv1 [t1 E1]].
    destruct (IH v1 Hv1 Hrun) as [Hv2 [t2 E2]]. split; [done|]. exists (t1 ++ t2).
    by rewrite E1, E2, app_assoc.
Qed.

(** *** The reads after the receive loop has finished the stream *)

(** The frame with which the loop finishes a stream is not put in the queue and takes
    nothing out of it. *)
Lemma loop_finish_items frame v v' :
  client_step (CFrame frame) v = Some v' -> cs_done (cc_str v) = None -> cs_done (cc_str v') <> None ->
  r_items (cs_receiver (cc_str v')) = r_items (cs_receiver (cc_str v)) /\
  cc_reading v' = cc_reading v /\ cc_reads v' = cc_reads v /\
  cs_readErr (cc_str v') = cs_readErr (cc_str v) /\
  cs_isServerStream (cc_str v') = cs_isServerStream (cc_str v).
Proof.
  cbn [client_step]. destruct (client_loop_busy v); [done|]. intros Hs Hd Hd'.
  assert (Hfin : forall w err tr, call_finish true false err tr w = w \/
    exists f e, call_finish true false err tr w = cset_finishing (Some f) (cset_str (cwith_done e (cc_str w)) w)).
  { intros w err tr. unfold call_finish, finishStream_cas. destruct (cs_done (cc_str w)); [by left|]. right. by eexists _, _. }
  assert (Hf0 : forall err tr, v' = call_finish true false err tr (cset_str (cc_str v) v) ->
    r_items (cs_receiver (cc_str v')) = r_items (cs_receiver (cc_str v)) /\
    cc_reading v' = cc_reading v /\ cc_reads v' = cc_reads v /\
    cs_readErr (cc_str v') = cs_readErr (cc_str v) /\
    cs_isServerStream (cc_str v') = cs_isServerStream (cc_str v)).
  { intros err tr ->. by destruct (Hfin (cset_str (cc_str v) v) err tr) as [->|(f & e & ->)]. }
  assert (Hacc : forall f r' e, accept response_measure f (cs_receiver (cc_str v)) = (r', Some e) ->
    r' = cs_receiver (cc_str v)).
  { intros f r' e. unfold accept. destruct (r_closed (cs_receiver (cc_str v))); [done|]. destruct (_ >? _); intros E; by simplify_eq. }
  destruct frame as [[s|md|m|d|c|w]|]; cbn [acceptServerFrame] in Hs;
    try (injection Hs as <-; by eapply Hf0).
  - destruct (cs_gotHeaders (cc_str v)); by simplify_eq.
  - destruct (accept _ _ _) as [r' [e|]] eqn:Ha; simplify_eq. apply Hacc in Ha as ->.
    apply (Hf0 (Some e) None). by destruct v as [[] ? ? ? ? ? ?].
  - destruct (accept _ _ _) as [r' [e|]] eqn:Ha; simplify_eq. apply Hacc in Ha as ->.
    apply (Hf0 (Some e) None). by destruct v as [[] ? ? ? ? ? ?].
  - destruct (w =? 0); [by simplify_eq|]. destruct (send_step _ _); by simplify_eq.
Qed.

(** Afterwards only [RecvMsg] touches what a reader sees. *)
Lemma only_reads_take l v v' :
  finished_by_loop v -> l <> CRecv -> client_step l v = Some v' ->
  r_items (cs_receiver (cc_str v')) = r_items (cs_receiver (cc_str v)) /\
  cc_reading v' = cc_reading v /\ cc_reads v' = cc_reads v /\
  cs_readErr (cc_str v') = cs_readErr (cc_str v) /\
  cs_isServerStream (cc_str v') = cs_isServerStream (cc_str v).
Proof.
  intros (Hd & Hc & Hf) Hl Hs.
  destruct l as [frame| |m|l|sendErr| | | | | | |e]; cbn [client_step] in Hs; try done.
  - destruct (client_loop_busy v) eqn:Hb; [done|].
    assert (Hcl : r_closed (cs_receiver (cc_str v)) = true).
    { unfold client_loop_busy in Hb. destruct (cc_finishing v); [by destruct Hf as [Hl' _]; rewrite Hl' in Hb|done]. }
    destruct frame as [[s|md|m|d|c|w]|]; cbn [acceptServerFrame] in Hs; unfold accept in Hs; rewrite ?Hcl in Hs;
      try (injection Hs as <-; by rewrite call_finish_done).
    + destruct (cs_gotHeaders (cc_str v)); by simplify_eq.
    + by simplify_eq.
    + by simplify_eq.
    + destruct (w =? 0); [by simplify_eq|]. destruct (send_step _ _); by simplify_eq.
  - destruct (send_step _ _); by simplify_eq.
  - destruct (client_writeMu_free v); [|done]. unfold client_SendMsg_begin in Hs.
    destruct (_ && _); [by simplify_eq|]. destruct m as [e|b]; [by simplify_eq|].
    destruct (_ >? _); [by simplify_eq|]. destruct (send_step _ _); by simplify_eq.
  - destruct (in_send l); [|done]. destruct (send_step _ _); by simplify_eq.
  - destruct (client_writeMu_free v); [|done]. unfold CloseSend in Hs.
    destruct (cs_doneSignal (cc_str v)), (cs_halfClosed (cc_str v)); by simplify_eq.
  - destruct (cc_finishing v) as [[[] ? ?]|]; by simplify_eq.
  - destruct (cc_finishing v) as [[[] ? ?]|]; by simplify_eq.
  - destruct (cc_finishing v) as [[[] ? ?]|]; try done. by destruct Hf as (_ & _ & []).
  - destruct (cc_posted v); by simplify_eq.
  - destruct (cc_watching v), (cs_ctxErr (cc_str v)); simplify_eq. by rewrite call_finish_done.
  - destruct (send_step _ _); by simplify_eq.
Qed.

Definition message_read (d : bytes) : read_return := ReadReturn (Some d) true None.

(** After the reads [base], the next [n] of the messages [ds] and, when there are no
    more, the error [e], [m] times, have been returned; the frames of the other
    messages are in the queue. *)
Record reads_in_order (base : list read_return) (ds : list bytes) (ckss : list (list chunk)) (e : error)
    (n m : nat) (v : client_conf) : Prop := {
  ro_done : cs_done (cc_str v) = Some e;
  ro_kind : cs_isServerStream (cc_str v) = true;
  ro_reads : cc_reads v = base ++ (message_read <$> take n ds) ++ replicate m (ReadReturn None true (Some e));
  ro_items : r_items (cs_receiver (cc_str v)) = chunk_frame <$> concat (drop n ckss);
  ro_last : m <> 0%nat -> n = length ds;
  ro_err : cs_readErr (cc_str v) = match m with O => None | _ => Some e end;
  ro_reading : cc_reading v = None \/
    (m = 0%nat /\ n = length ds /\ cc_reading v = Some (FirstRead true read_vars0));
}.

Lemma closed_read max base ds ckss e n m v v' :
  finished_by_loop v -> Forall2 (framed max) ds ckss -> (n <= length ds)%nat ->
  reads_in_order base ds ckss e n m v -> client_step CRecv v = Some v' ->
  exists n' m', (n' <= length ds)%nat /\ reads_in_order base ds ckss e n' m' v'.
Proof.
  intros (_ & Hcn & _) Hds Hn [Hd Hk Hreads Hi Hl He Hrd] Hs. cbn [client_step] in Hs.
  pose proof (Forall2_length _ _ _ Hds) as Hlen.
  set (cfg := client_stream_read_config (cc_str v)) in Hs.
  assert (Hstream : rc_stream cfg = true) by exact Hk. assert (Hend : rc_end cfg = Some e) by exact Hd.
  assert (Hempty : forall resumed, m = 0%nat -> n = length ds ->
    readMsg response_measure cfg (ReadState (cs_receiver (cc_str v)) (cs_readErr (cc_str v)))
      (FirstRead resumed read_vars0)
    = Some (if r_closed (cs_receiver (cc_str v))
            then (ReadState (cs_receiver (cc_str v)) (Some e), [], MsgReturned (ReadReturn None true (Some e)))
            else (ReadState (cs_receiver (cc_str v)) None, [], MsgBlocked (FirstRead true read_vars0)))).
  { intros resumed -> ->. assert (Hi0 : r_items (cs_receiver (cc_str v)) = []).
    { rewrite Hi, drop_ge by lia. done. }
    unfold readMsg, readMsgLocked, read_fuel. cbn [rs_readErr rs_recv]. rewrite He, Hi0. cbn [length read_loop].
    destruct resumed; cbn [rc_ctx cfg client_stream_read_config client_read_config]; unfold dequeue;
      rewrite Hcn, Hi0; destruct (r_closed (cs_receiver (cc_str v))); rewrite ?Hend; done. }
  destruct (Nat.eq_dec m 0) as [->|Hm].
  - destruct (Nat.eq_dec n (length ds)) as [->|Hne].
    + exists (length ds). destruct Hrd as [Hrd|(_ & _ & Hrd)]; rewrite Hrd in Hs;
        [change read_start with (FirstRead false read_vars0) in Hs|]; rewrite Hempty in Hs by done;
        (destruct (r_closed (cs_receiver (cc_str v))); injection Hs as <-; [exists 1%nat|exists 0%nat];
         (split; [done|]); split; simpl; auto; rewrite ?Hreads; simpl; rewrite ?app_nil_r, <- ?app_assoc; done).
    + destruct Hrd as [Hrd|(_ & ? & _)]; [|done]. rewrite Hrd in Hs.
      destruct (lookup_lt_is_Some_2 ds n ltac:(lia)) as [d Hdn].
      destruct (lookup_lt_is_Some_2 ckss n ltac:(lia)) as [cks Hcn'].
      assert (Hfr : framed max d cks) by (by eapply Forall2_lookup_lr).
      rewrite (drop_S _ _ _ Hcn') in Hi. simpl in Hi. rewrite fmap_app in Hi.
      destruct (readMsgLocked_framed response_measure max cfg d cks _ _ eq_refl Hcn Hi Hfr)
        as (r1 & us & Hrl & Hi' & _ & _).
      unfold readMsg, read_start in Hs. rewrite He, Hrl in Hs. cbn [rr_err] in Hs.
      rewrite Hstream, andb_false_r in Hs. injection Hs as <-.
      exists (S n), 0%nat. split; [lia|]. split; simpl; auto; [|done].
      rewrite Hreads, (take_S_r _ _ _ Hdn), fmap_app. simpl. by rewrite !app_nil_r, <- app_assoc.
  - destruct Hrd as [Hrd|(? & _)]; [|done]. rewrite Hrd in Hs. destruct m as [|m]; [done|].
    unfold readMsg, read_start, readMsgLocked in Hs. cbn [rs_readErr] in Hs. rewrite He in Hs.
    cbn [rr_err] in Hs. rewrite bool_decide_false in Hs by done. cbn [andb] in Hs. injection Hs as <-.
    exists n, (S (S m)). split; [done|]. split; simpl; auto.
    rewrite Hreads, <- !app_assoc. change (?x :: ?x :: replicate m ?x) with (x :: replicate (S m) x).
    by rewrite <- replicate_S_end.
Qed.

Lemma closed_reads_run max base ds ckss e n m ls v v' :
  finished_by_loop v -> Forall2 (framed max) ds ckss -> (n <= length ds)%nat ->
  reads_in_order base ds ckss e n m v -> run client_step ls v = Some v' ->
  exists n' m', (n' <= length ds)%nat /\ reads_in_order base ds ckss e n' m' v'.
Proof.
  intros Hf Hds Hn Hro Hrun. revert n m v Hf Hn Hro Hrun.
  induction ls as [|l ls IH]; intros n m v Hf Hn Hro Hrun; simpl in Hrun; [simplify_eq; eauto|].
  destruct (client_step l v) as [v1|] eqn:Hs; [|done].
  pose proof (client_step_change _ _ _ Hs) as Hch. destruct (loop_finish_step v v1 Hch Hf) as [Hf1 _].
  assert (exists n1 m1, (n1 <= length ds)%nat /\ reads_in_order base ds ckss e n1 m1 v1) as (n1 & m1 & Hn1 & Hro1).
  { assert (l = CRecv \/ l <> CRecv) as [->|Hl] by (destruct l; (by left) || by right).
    - exact (closed_read max base ds ckss e n m v v1 Hf Hds Hn Hro Hs).
    - exists n, m. split; [done|]. destruct (only_reads_take l v v1 Hf Hl Hs) as (E1 & E2 & E3 & E4 & E5).
      destruct Hro as [R1 R2 R3 R4 R5 R6 R7]. split; rewrite ?E1, ?E2, ?E3, ?E4, ?E5; try done.
      destruct Hch as [Hsm|w b c err tr Hsm -> _|tr b c _ ->|b c _ ->|b c _ ->]; try done.
      + by rewrite (same_done _ _ Hsm).
      + rewrite call_finish_done; by rewrite (same_done _ _ Hsm), ?R1. }
  by eapply IH.
Qed.


Lemma client_cost_nonneg v : inv v -> 0 <= client_cost v.
Proof.
  intros Hinv. destruct (ki_send _ _ _ _ Hinv) as (ls & Hs).
  pose proof (send_cost_nonneg _ _ _ _ _ Hs). unfold client_cost, finishing_cost.
  pose proof (len_nonneg (cc_posted v)).
  destruct (cc_watching v), (cc_finishing v) as [[[] ? ?]|]; simpl; lia.
Qed.

Lemma cancel_ctx_cost e c : send_cost (cancel_ctx e c) <= send_cost c.
Proof. unfold cancel_ctx, send_cost. destruct (c_ctx c) eqn:Hc; simpl; rewrite ?Hc; lia. Qed.

Lemma client_internal_cost l v v' :
  inv v -> cs_done (cc_str v) <> None -> client_internal l = true -> client_step l v = Some v' ->
  client_cost v' < client_cost v.
Proof.
  intros Hinv Hd Hl Hstep. destruct (ki_send _ _ _ _ Hinv) as (ls & Hs).
  pose proof (fun l c' Hst => send_step_cost _ _ _ ls l _ c' (max_chunk_pos W maxChunk HW1 Hmc)
    Hov Hs Hst) as Hcost.
  destruct l as [| | |l| | | | | | | |]; try done; cbn [client_step] in Hstep.
  - destruct (send_step UPost _) as [c|] eqn:Hc; [|done]. injection Hstep as <-.
    specialize (Hcost _ _ Hc). unfold client_cost. simpl in *. lia.
  - destruct (in_send l) eqn:Hin; [|done].
    destruct (send_step l (cs_send (cc_str v))) as [c|] eqn:Hc; [|done]. injection Hstep as <-.
    assert (Hg : label_gain l = 0) by (by destruct l).
    specialize (Hcost _ _ Hc). unfold client_cost. simpl in *.
    assert (0 <= label_emits l) by (destruct l; simpl; lia). lia.
  - destruct (cc_finishing v) as [[[] b c]|] eqn:Hf; simplify_eq.
    unfold client_cost. simpl. rewrite Hf. simpl. lia.
  - destruct (cc_finishing v) as [[[] b c]|] eqn:Hf; simplify_eq.
    pose proof (cancel_ctx_cost ContextCanceled (cs_send (cc_str v))).
    unfold client_cost. simpl. rewrite Hf. destruct c; simpl; lia.
  - destruct (cc_finishing v) as [[[] b c]|] eqn:Hf; simplify_eq.
    unfold client_cost. simpl. rewrite Hf, len_app. change (len [ClientToServer_Cancel]) with 1. simpl. lia.
  - destruct (cc_posted v) as [|f fs] eqn:Hp; [done|]. injection Hstep as <-.
    unfold client_cost. simpl. rewrite Hp, len_cons. lia.
  - destruct (cc_watching v) eqn:Hw, (cs_ctxErr (cc_str v)); try done. injection Hstep as <-.
    rewrite call_finish_done by done. unfold client_cost. simpl. rewrite Hw. lia.
Qed.

Lemma client_internal_run v ls v' :
  inv v -> cs_done (cc_str v) <> None -> Forall (fun l => client_internal l = true) ls ->
  run client_step ls v = Some v' ->
  inv v' /\ cs_done (cc_str v') <> None /\ len ls + client_cost v' <= client_cost v.
Proof.
  intros Hinv Hd Hls. revert v Hinv Hd.
  induction Hls as [|l ls Hl Hls IH]; intros v Hinv Hd Hrun; simpl in Hrun.
  - simplify_eq. rewrite len_nil. split_and!; [done|done|lia].
  - destruct (client_step l v) as [v1|] eqn:Hs; [|done].
    pose proof (client_internal_cost l v v1 Hinv Hd Hl Hs).
    assert (inv v1) as Hv1 by (by eapply client_inv_step).
    assert (Hd1 : cs_done (cc_str v1) <> None).
    { destruct (outcome_kept_step _ _ _ _ _ Hinv (client_step_change _ _ _ Hs)) as [K _ _].
      destruct (cs_done (cc_str v)) as [e|]; [|done]. by rewrite (K e eq_refl). }
    destruct (IH v1 Hv1 Hd1 Hrun) as (? & ? & ?). rewrite len_cons. split_and!; [done|done|lia].
Qed.

(** When the goroutines of a finished stream have nothing left to do. *)
Record client_ended (v : client_conf) : Prop := {
  ce_signal : cs_doneSignal (cc_str v) = true;
  ce_headers : cs_gotHeaders (cc_str v) = true;
  ce_closed : r_closed (cs_receiver (cc_str v)) = true;
  ce_ctx : cs_ctxErr (cc_str v) <> None;
  ce_free : client_writeMu_free v = true;
  ce_watching : cc_watching v = false;
  ce_posted : cc_posted v = [];
}.

Lemma client_stuck_ended v :
  inv v -> cs_done (cc_str v) <> None ->
  (forall l, client_internal l = true -> client_step l v = None) -> client_ended v.
Proof.
  intros Hinv Hd Hstuck. pose proof (ki_phase _ _ _ _ Hinv) as Hph. unfold phase_ok in Hph.
  assert (Hfin : cc_finishing v = None).
  { destruct (cc_finishing v) as [[[] b c]|] eqn:Hf; [| | |done].
    - pose proof (Hstuck CMeta eq_refl) as Hs. cbn [client_step] in Hs. by rewrite Hf in Hs.
    - pose proof (Hstuck CDeferred eq_refl) as Hs. cbn [client_step] in Hs. by rewrite Hf in Hs.
    - pose proof (Hstuck CCancelled eq_refl) as Hs. cbn [client_step] in Hs. by rewrite Hf in Hs. }
  rewrite Hfin in Hph. destruct (cs_done (cc_str v)); [|done].
  destruct Hph as (P1 & P2 & P3 & P4). split; try done.
  - unfold client_writeMu_free. destruct (c_call (cs_send (cc_str v))) as [k|] eqn:Hk; [|done].
    destruct (done_call_moves _ k Hk P4) as (l & Hl & [c' Hc']).
    pose proof (Hstuck (CSend l) eq_refl) as Hs. cbn [client_step] in Hs. by rewrite Hl, Hc' in Hs.
  - pose proof (Hstuck CWatch eq_refl) as Hs. cbn [client_step] in Hs.
    by destruct (cc_watching v), (cs_ctxErr (cc_str v)).
  - pose proof (Hstuck CPosted eq_refl) as Hs. cbn [client_step] in Hs. by destruct (cc_posted v).
Qed.

(** C22: A stream that is finished ends.  Once its outcome is set, by anyone, the
    stream's own goroutines need boundedly many actions, at most [client_cost],
    and when they have none left the waiting caller is released: headers and
    trailers are there, reads no longer wait, no [SendMsg] waits for the window,
    no goroutine waits for the context and nothing is left to be sent. *)
Theorem client_stream_finishes ls v internals v' :
  run client_step ls new_client = Some v -> cs_done (cc_str v) <> None ->
  Forall (fun l => client_internal l = true) internals ->
  run client_step internals v = Some v' ->
  len internals <= client_cost v /\
  ((forall l, client_internal l = true -> client_step l v' = None) -> client_ended v').
Proof.
  intros Hrun Hd Hint Hrun'. pose proof (new_client_run_inv ls v Hrun) as Hinv.
  destruct (client_internal_run v internals v' Hinv Hd Hint Hrun') as (Hinv' & Hd' & Hlen).
  pose proof (client_cost_nonneg v' Hinv'). split; [lia|]. by apply client_stuck_ended.
Qed.
End ClientProperties.

(** ** Examples: a server-streaming RPC with two responses. *)
Module ClientStreamExample.
#[local] Existing Instance ExampleStatus.lib.

Definition A : bytes := [Corelib.Init.Byte.x41].
Definition start : client_conf :=
  new_client 1000 100 5 1 "svc/Method" false false true None (newReceiver 1000 10 5).
Definition at_end (ls : list client_label) : client_conf := default start (run client_step ls start).

Definition sending : list client_label :=
  [CSendMsg (inr A); CSend LLoad; CSend LCas; CSend (LCall None); CSend LReturn; CCloseSend None].
Definition receiving : list client_label :=
  sending ++ [CFrame (Some (ServerToClient_ResponseHeaders None));
   CFrame (Some (response_frame A 1 true)); CFrame (Some (response_frame A 1 true))].
Definition close_frame : ServerToClientFrame :=
  ServerToClient_CloseStream (MkCloseStream None (Status OK (Msg "" []))).
Definition finishing : list client_label := [CMeta; CDeferred; CWatch].
Definition reading : list client_label := finishing ++ [CRecv; CRecv; CRecv].
Definition closed : list client_label := receiving ++ [CFrame (Some close_frame)].

(** Both responses are read after the server has closed the stream. *)
Example read_after_close :
  cc_reads (at_end (closed ++ reading))
  = [ReadReturn (Some A) true None; ReadReturn (Some A) true None; ReadReturn None true (Some EOF)].
Proof. vm_compute. reflexivity. Qed.
End ClientStreamExample.

Lemma client_frames_once_witness :
  count is_half_close (cc_wire (ClientStreamExample.at_end ClientStreamExample.sending) ++
    cc_posted (ClientStreamExample.at_end ClientStreamExample.sending)) <= 1.
Proof.
  exact (proj1 (client_frames_once (H := ExampleStatus.lib) 1000 100 5
    ltac:(vm_compute; split; congruence) ltac:(lia) ltac:(lia) ltac:(vm_compute; split; congruence)
    1 "svc/Method" false false true None (newReceiver 1000 10 5) eq_refl eq_refl
    ClientStreamExample.sending
    (ClientStreamExample.at_end ClientStreamExample.sending) ltac:(vm_compute; reflexivity))).
Defined.

Lemma client_outcome_is_final_witness :
  cs_done (cc_str (ClientStreamExample.at_end (ClientStreamExample.closed ++ ClientStreamExample.reading)))
  = Some EOF.
Proof.
  exact (proj1 (client_outcome_is_final (H := ExampleStatus.lib) 1000 100 5
    ltac:(vm_compute; split; congruence) ltac:(lia) ltac:(lia) ltac:(vm_compute; split; congruence)
    1 "svc/Method" false false true None (newReceiver 1000 10 5) eq_refl eq_refl
    ClientStreamExample.closed (ClientStreamExample.at_end ClientStreamExample.closed)
    ClientStreamExample.reading
    (ClientStreamExample.at_end (ClientStreamExample.closed ++ ClientStreamExample.reading))
    ltac:(vm_compute; reflexivity) ltac:(vm_compute; reflexivity)) EOF ltac:(vm_compute; reflexivity)).
Defined.


Lemma client_stream_finishes_witness :
  len ClientStreamExample.finishing
    <= client_cost (ClientStreamExample.at_end ClientStreamExample.closed).
Proof.
  exact (proj1 (client_stream_finishes (H := ExampleStatus.lib) 1000 100 5
    ltac:(vm_compute; split; congruence) ltac:(lia) ltac:(lia) ltac:(vm_compute; split; congruence)
    1 "svc/Method" false false true None (newReceiver 1000 10 5) eq_refl eq_refl
    ClientStreamExample.closed (ClientStreamExample.at_end ClientStreamExample.closed)
    ClientStreamExample.finishing
    (ClientStreamExample.at_end (ClientStreamExample.closed ++ ClientStreamExample.finishing))
    ltac:(vm_compute; reflexivity) ltac:(vm_compute; discriminate)
    ltac:(repeat constructor) ltac:(vm_compute; reflexivity))).
Defined.
