(* ===== verification/TunnelChannel.v ===== *)
(** * The tunnel client

    [tunnelChannel] of tunnel_client.go: the settings of the server, the table of
    active streams, the allocation of stream IDs, the receive loop that hands
    every frame to its stream, and the closing of the channel.

    All streams run at the same time as the loop: [ch_objects] keeps the state of
    every stream ever allocated, and an action of one is an action of the
    channel.  The mutex [mu] protects single actions; [streamCreation] is held
    from [allocateStream] until the frame that opens the stream is sent. *)
From stdpp Require Import gmap sets.
From S2P Require Import Prelude Status Protocol Options FlowSender FlowReceiver Reassembly.
From S2P Require Import ClientStream TunnelServer.

(** ** Settings *)

(** The loop of [recvLoop] over the server's revisions: the revision to use, and
    whether revision zero is among them. *)
Fixpoint select_revision (useRevision : Z) (v0supported : bool) (revs : list Z) : Z * bool :=
  match revs with
  | [] => (useRevision, v0supported)
  | rev :: revs =>
      if rev =? REVISION_ZERO then select_revision useRevision true revs
      else if bool_decide (rev ∈ supportedRevisions)
      then select_revision (Z.max useRevision rev) v0supported revs
      else select_revision useRevision v0supported revs
  end.

Definition frame_type (f : option ServerToClientFrame) : string :=
  match f with
  | None => "<nil>"
  | Some (ServerToClient_Settings _) => "*tunnelpb.ServerToClient_Settings"
  | Some (ServerToClient_ResponseHeaders _) => "*tunnelpb.ServerToClient_ResponseHeaders"
  | Some (ServerToClient_ResponseMessage _) => "*tunnelpb.ServerToClient_ResponseMessage"
  | Some (ServerToClient_MoreResponseData _) => "*tunnelpb.ServerToClient_MoreResponseData"
  | Some (ServerToClient_CloseStream _) => "*tunnelpb.ServerToClient_CloseStream"
  | Some (ServerToClient_WindowUpdate _) => "*tunnelpb.ServerToClient_WindowUpdate"
  end.

Definition no_settings_error (reverse : bool) : error :=
  let (peer, self) := tunnelRoles reverse in
  Errorf FailedPrecondition
    "%s does not support protocol revision %d anymore; upgrade %s to v0.3 or later"
    [AStr self; AInt REVISION_ZERO; AStr peer].

(** What [recvLoop] makes of the revisions and the window of the server: the
    value of [useRevision], and the error with which it closes the channel. *)
Definition check_settings (reverse : bool) (settings : Settings) : Z * option error :=
  let (peer, self) := tunnelRoles reverse in
  let (useRevision, v0supported) :=
    select_revision REVISION_ZERO false (SupportedProtocolRevisions settings) in
  if useRevision =? REVISION_ZERO then
    if v0supported
    then (useRevision, Some (Errorf FailedPrecondition
      "%s does not support protocol revision %d anymore; %s must not disable flow control"
      [AStr self; AInt REVISION_ZERO; AStr peer]))
    else (useRevision, Some (Errorf FailedPrecondition
      "%s supports revisions %v, but %s supports revisions %v"
      [AStr peer; AInts (SupportedProtocolRevisions settings); AStr self; AInts supportedRevisions]))
  else if Settings_InitialWindowSize settings <? minWindowSize useRevision
  then (useRevision, Some (Errorf Internal
    "protocol error: %s sent invalid initial window size of %d; must be at least %d"
    [AStr peer; AInt (Settings_InitialWindowSize settings); AInt (minWindowSize useRevision)]))
  else (useRevision, None).

(** ** Call options *)

(** [credentials.PerRPCCredentials]: the type, whether it requires transport
    security, and what [GetRequestMetadata] returns, in the order in which the
    loop visits it. *)
Record per_rpc_creds := Creds {
  cr_type : string;
  cr_secure : bool;
  cr_metadata : error + list (string * string);
}.

Inductive call_option :=
  | HeaderCallOption | TrailerCallOption | PeerCallOption
  | PerRPCCredsCallOption (c : per_rpc_creds)
  | tunnelChannelCallOption (ch : option Z)      (** a location, or the nil pointer *)
  | otherCallOption.

(** [md.Append(k, v)] of grpc's metadata package; no result when it panics, as the
    assignment to an entry of a nil map does. *)
Class MetadataAppend `{MetadataLib} := {
  md_Append : MD -> string -> string -> option MD;
  md_Append_nil k v : md_Append None k v = None;
  md_Append_some m k v : exists md, md_Append (Some m) k v = Some (Some md) /\
    md_lookup (Some md) (to_lower k) = md_lookup (Some m) (to_lower k) ++ [v];
}.

Inductive go_result (A : Type) := Panics | Returns (a : A).
Arguments Panics {A}.
Arguments Returns {A}.

Section CallOptions.
Context `{MetadataAppend}.

Fixpoint append_all (md : MD) (kvs : list (string * string)) : option MD :=
  match kvs with
  | [] => Some md
  | (k, v) :: kvs => match md_Append md k v with Some md => append_all md kvs | None => None end
  end.

(** The loop of [allocateStream] over the options. *)
Fixpoint apply_call_options (isSecure : bool) (md : MD) (opts : list call_option)
    : go_result (error + MD) :=
  match opts with
  | [] => Returns (inr md)
  | PerRPCCredsCallOption c :: opts =>
      if cr_secure c && negb isSecure
      then Returns (inl (Errorf Unauthenticated
        "per-RPC credentials %T cannot be used with insecure channel" [AType (cr_type c)]))
      else match cr_metadata c with
           | inl e => Returns (inl e)
           | inr kvs =>
               match append_all md kvs with
               | Some md => apply_call_options isSecure md opts
               | None => Panics
               end
           end
  | tunnelChannelCallOption None :: _ => Panics
  | _ :: opts => apply_call_options isSecure md opts
  end.

(** The locations in which the same loop stores the channel, in order: those it comes
    to, whatever it returns. *)
Fixpoint channel_writes (isSecure : bool) (md : MD) (opts : list call_option) : list Z :=
  match opts with
  | [] => []
  | PerRPCCredsCallOption c :: opts =>
      if cr_secure c && negb isSecure then []
      else match cr_metadata c with
           | inl _ => []
           | inr kvs =>
               match append_all md kvs with
               | Some md => channel_writes isSecure md opts
               | None => []
               end
           end
  | tunnelChannelCallOption None :: _ => []
  | tunnelChannelCallOption (Some loc) :: opts => loc :: channel_writes isSecure md opts
  | _ :: opts => channel_writes isSecure md opts
  end.

(** Every location is written when the loop comes to its end, and none is nil then. *)
Lemma channel_writes_all isSecure md opts md' ch :
  apply_call_options isSecure md opts = Returns (inr md') -> tunnelChannelCallOption ch ∈ opts ->
  exists loc, ch = Some loc /\ loc ∈ channel_writes isSecure md opts.
Proof.
  revert md. induction opts as [|o opts IH]; intros md Hs; [by intros ?%elem_of_nil|].
  intros [<-|Hin]%elem_of_cons.
  { destruct ch as [loc|]; simpl in Hs |- *; [|done]. exists loc. split; [done|]. apply list_elem_of_here. }
  destruct o as [| | |cr|[loc|]|]; simpl in Hs |- *; try (by eapply (IH md)); try done.
  - destruct (_ && _); [done|]. destruct (cr_metadata cr); [done|].
    destruct (append_all _ _) as [md1|]; [|done]. by eapply IH.
  - destruct (IH _ Hs Hin) as (loc' & -> & Hw). exists loc'. split; [done|]. by apply list_elem_of_further.
Qed.
End CallOptions.

(** ** The channel *)

(** Where [recvLoop] is; in [LReceiving] it may still be inside
    [acceptServerFrame] of the given stream. *)
Inductive recv_loop := LStart | LSettings | LReceiving (id : option Z) | LExited.

Record tunnelChannel := TunnelChannel {
  ch_serverSendsSettings : bool;
  ch_reverse : bool;
  ch_isSecure : bool;                      (** the peer of the context has [AuthInfo] *)
  ch_opts : tunnelOpts;
  ch_ctxErr : option error;
  ch_settings : option Settings;           (** [awaitSettings] is closed with it *)
  ch_useRevision : Z;
  ch_streams : option (gset Z);            (** the IDs in the table; nil once closed *)
  ch_objects : gmap Z client_conf;
  ch_lastStreamID : Z;
  ch_streamCreated : bool;
  ch_err : option error;
  ch_finished : bool;
  ch_creating : option (Z * NewStream);    (** the holder of [streamCreation] *)
  ch_handed : gset Z;                      (** streams that [newStream] has returned *)
  ch_loop : recv_loop;
  ch_wire : list ClientToServer;
}.

Definition newTunnelChannel (serverSendsSettings reverse isSecure : bool) (opts : tunnelOpts)
    (ctxErr : option error) : tunnelChannel :=
  TunnelChannel serverSendsSettings reverse isSecure opts ctxErr None REVISION_ZERO (Some ∅) ∅ 0
    false None false None ∅ LStart [].

Definition kset_loop (l : recv_loop) (c : tunnelChannel) : tunnelChannel :=
  TunnelChannel (ch_serverSendsSettings c) (ch_reverse c) (ch_isSecure c) (ch_opts c) (ch_ctxErr c)
    (ch_settings c) (ch_useRevision c) (ch_streams c) (ch_objects c) (ch_lastStreamID c)
    (ch_streamCreated c) (ch_err c) (ch_finished c) (ch_creating c) (ch_handed c) l (ch_wire c).
Definition kset_settings (s : option Settings) (rev : Z) (c : tunnelChannel) : tunnelChannel :=
  TunnelChannel (ch_serverSendsSettings c) (ch_reverse c) (ch_isSecure c) (ch_opts c) (ch_ctxErr c)
    s rev (ch_streams c) (ch_objects c) (ch_lastStreamID c)
    (ch_streamCreated c) (ch_err c) (ch_finished c) (ch_creating c) (ch_handed c) (ch_loop c) (ch_wire c).
Definition kset_table (streams : option (gset Z)) (objects : gmap Z client_conf) (c : tunnelChannel)
    : tunnelChannel :=
  TunnelChannel (ch_serverSendsSettings c) (ch_reverse c) (ch_isSecure c) (ch_opts c) (ch_ctxErr c)
    (ch_settings c) (ch_useRevision c) streams objects (ch_lastStreamID c)
    (ch_streamCreated c) (ch_err c) (ch_finished c) (ch_creating c) (ch_handed c) (ch_loop c) (ch_wire c).
Definition kset_last (id : Z) (c : tunnelChannel) : tunnelChannel :=
  TunnelChannel (ch_serverSendsSettings c) (ch_reverse c) (ch_isSecure c) (ch_opts c) (ch_ctxErr c)
    (ch_settings c) (ch_useRevision c) (ch_streams c) (ch_objects c) id
    true (ch_err c) (ch_finished c) (ch_creating c) (ch_handed c) (ch_loop c) (ch_wire c).
Definition kset_creating (o : option (Z * NewStream)) (handed : gset Z) (c : tunnelChannel)
    : tunnelChannel :=
  TunnelChannel (ch_serverSendsSettings c) (ch_reverse c) (ch_isSecure c) (ch_opts c) (ch_ctxErr c)
    (ch_settings c) (ch_useRevision c) (ch_streams c) (ch_objects c) (ch_lastStreamID c)
    (ch_streamCreated c) (ch_err c) (ch_finished c) o handed (ch_loop c) (ch_wire c).
Definition kset_closed (e : error) (ctxErr : option error) (objects : gmap Z client_conf)
    (c : tunnelChannel) : tunnelChannel :=
  TunnelChannel (ch_serverSendsSettings c) (ch_reverse c) (ch_isSecure c) (ch_opts c) ctxErr
    (ch_settings c) (ch_useRevision c) None objects (ch_lastStreamID c)
    (ch_streamCreated c) (Some e) true (ch_creating c) (ch_handed c) (ch_loop c) (ch_wire c).
Definition kset_ctx (ctxErr : option error) (c : tunnelChannel) : tunnelChannel :=
  TunnelChannel (ch_serverSendsSettings c) (ch_reverse c) (ch_isSecure c) (ch_opts c) ctxErr
    (ch_settings c) (ch_useRevision c) (ch_streams c) (ch_objects c) (ch_lastStreamID c)
    (ch_streamCreated c) (ch_err c) (ch_finished c) (ch_creating c) (ch_handed c) (ch_loop c) (ch_wire c).
Definition kto_wire (ms : list ClientToServer) (c : tunnelChannel) : tunnelChannel :=
  TunnelChannel (ch_serverSendsSettings c) (ch_reverse c) (ch_isSecure c) (ch_opts c) (ch_ctxErr c)
    (ch_settings c) (ch_useRevision c) (ch_streams c) (ch_objects c) (ch_lastStreamID c)
    (ch_streamCreated c) (ch_err c) (ch_finished c) (ch_creating c) (ch_handed c) (ch_loop c)
    (ch_wire c ++ ms).

(** [Err]. *)
Definition Err (c : tunnelChannel) : option error :=
  match ch_err c with
  | None => ch_ctxErr c
  | Some e => if is_EOF e then None else Some e
  end.

(** ** close *)

(** The [cancel] function of a stream's context. *)
Definition cancel_client (v : client_conf) : client_conf :=
  cset_str (cwith_send (cancel_ctx ContextCanceled (cs_send (cc_str v))) (cc_str v)) v.

Definition cancel_in_table (streams : option (gset Z)) (id : Z) (v : client_conf) : client_conf :=
  match streams with
  | Some ids => if bool_decide (id ∈ ids) then cancel_client v else v
  | None => v
  end.

(** [close], after [tearDown], which is not a state of the channel. *)
Definition channel_close (err : option error) (c : tunnelChannel) : tunnelChannel * bool :=
  if ch_finished c then (c, false)
  else
    (kset_closed (default EOF err)
       (match ch_ctxErr c with Some e => Some e | None => Some ContextCanceled end)
       (map_imap (fun id v => Some (cancel_in_table (ch_streams c) id v)) (ch_objects c)) c, true).

(** ** newStream *)
Section NewStream.
Context `{StatusLib} `{MetadataAppend}.

Definition closed_error (c : tunnelChannel) : error :=
  match ch_err c with
  | Some e =>
      if is_EOF e then Errorf Canceled "channel is closed" []
      else let st := toStatus (Some e) in
           Errorf (st_code st) "channel is closed: %s" [AMsg (st_message st)]
  | None => Errorf Canceled "channel is closed" []
  end.

(** The arguments of [newStream]; the caller's context is its error and its
    outgoing metadata. *)
Record new_stream_args := NewStreamArgs {
  na_ctxErr : option error;
  na_headers : MD;
  na_clientStreams : bool;
  na_serverStreams : bool;
  na_method : string;
  na_opts : list call_option;
}.

Definition make_client_stream (c : tunnelChannel) (settings : Settings) (streamID : Z)
    (a : new_stream_args) : client_stream :=
  let msgOverhead := messageOverhead (ch_useRevision c) in
  new_client_stream streamID (na_method a) (ch_reverse c) (na_clientStreams a) (na_serverStreams a)
    (na_ctxErr a)
    (newSender (Settings_InitialWindowSize settings) (maxChunkSize (ch_opts c)) msgOverhead)
    (newReceiver (initialWindowSize (ch_opts c)) (minWindowUpdateSize (ch_opts c)) msgOverhead).

(** The stream before [newStream] has started the goroutine that waits for its
    context. *)
Definition unwatched (st : client_stream) : client_conf :=
  cset_watching false (client_start st).

Definition in_table (id : Z) (c : tunnelChannel) : bool :=
  match ch_streams c with Some ids => bool_decide (id ∈ ids) | None => false end.

(** [allocateStream]; [c.settings] is a pointer that is nil before the settings
    are there. *)
Definition allocateStream (a : new_stream_args) (c : tunnelChannel)
    : go_result (tunnelChannel * (error + Z * MD)) :=
  if ch_finished c then Returns (c, inl (closed_error c))
  else if ch_lastStreamID c <? 0
  then Returns (c, inl (Errorf ResourceExhausted
    "all stream IDs exhausted (must create a new channel)" []))
  else
    let streamID := i64 (ch_lastStreamID c + 1) in
    let c := kset_last streamID c in
    if in_table streamID c
    then Returns (c, inl (Errorf Internal "next stream ID not available" []))
    else
      match apply_call_options (ch_isSecure c) (na_headers a) (na_opts a) with
      | Panics => Panics
      | Returns (inl e) => Returns (c, inl e)
      | Returns (inr md) =>
          match ch_settings c with
          | None => Panics
          | Some settings =>
              let str := make_client_stream c settings streamID a in
              Returns (kset_table ((fun ids => {[streamID]} ∪ ids) <$> ch_streams c)
                         (<[streamID := unwatched str]> (ch_objects c)) c,
                       inr (streamID, md))
          end
      end.

Definition new_stream_frame (c : tunnelChannel) (a : new_stream_args) (md : MD) : NewStream := {|
  MethodName := na_method a;
  RequestHeaders := Some (toProto md);
  NewStream_InitialWindowSize := initialWindowSize (ch_opts c);
  ProtocolRevision := ch_useRevision c |}.

(** [newStream] up to [Send], which it calls with [streamCreation] held. *)
Definition newStream_begin (a : new_stream_args) (c : tunnelChannel)
    : go_result (tunnelChannel * option error) :=
  match allocateStream a c with
  | Panics => Panics
  | Returns (c, inl e) => Returns (c, Some e)
  | Returns (c, inr (id, md)) =>
      Returns (kset_creating (Some (id, new_stream_frame c a md)) (ch_handed c) c, None)
  end.

Definition channel_removeStream (id : Z) (c : tunnelChannel) : tunnelChannel :=
  kset_table ((fun ids => ids ∖ {[id]}) <$> ch_streams c) (ch_objects c) c.

(** The rest of [newStream]: a frame that could not be sent is not on the wire. *)
Definition newStream_end (sendErr : option error) (c : tunnelChannel) : option tunnelChannel :=
  match ch_creating c with
  | Some (id, frame) =>
      match sendErr with
      | Some _ => Some (kset_creating None (ch_handed c) (channel_removeStream id c))
      | None =>
          Some (kto_wire [MkClientToServer id (Some (ClientToServer_NewStream frame))]
            (kset_creating None ({[id]} ∪ ch_handed c)
              (kset_table (ch_streams c) (alter (cset_watching true) id (ch_objects c)) c)))
      end
  | None => None
  end.
End NewStream.

(** ** The receive loop *)
Inductive channel_get := CFound | CIgnored | CNeverCreated (err : error).

Definition channel_getStream (id : Z) (c : tunnelChannel) : channel_get :=
  if in_table id c then CFound
  else if ch_streamCreated c && (id <=? ch_lastStreamID c) then CIgnored
  else CNeverCreated (Errorf Internal
    "protocol error: received frame for stream ID %d: stream never created" [AInt id]).

Definition client_tag (id : Z) (f : ClientToServerFrame) : ClientToServer :=
  MkClientToServer id (Some f).

(** The compare-and-swap of [finishStream] has succeeded. *)
Definition became_done (v v' : client_conf) : bool :=
  match cs_done (cc_str v), cs_done (cc_str v') with None, Some _ => true | _, _ => false end.

Section ChannelSteps.
Context `{StatusLib} `{MetadataAppend}.

(** An action of a stream: what it sends goes out with the stream's ID, and a
    call of [finishStream] that succeeds removes the stream from the table. *)
Definition run_client (id : Z) (l : client_label) (c : tunnelChannel) : option tunnelChannel :=
  match ch_objects c !! id with
  | Some v =>
      match client_step l v with
      | Some v' =>
          let c' := kto_wire (client_tag id <$> drop (length (cc_wire v)) (cc_wire v'))
                      (kset_table (ch_streams c) (<[id := v']> (ch_objects c)) c) in
          Some (if became_done v v' then channel_removeStream id c' else c')
      | None => None
      end
  | None => None
  end.

Definition channel_loop_idle (o : option Z) (c : tunnelChannel) : bool :=
  match o with
  | Some id => match ch_objects c !! id with Some v => negb (client_loop_busy v) | None => true end
  | None => true
  end.

(** [recvLoop] calls [close] and returns. *)
Definition loop_close (err : option error) (c : tunnelChannel) : tunnelChannel :=
  kset_loop LExited (fst (channel_close err c)).

(** The first message. *)
Definition recv_settings (res : error + ServerToClient) (c : tunnelChannel) : tunnelChannel :=
  let (peer, _) := tunnelRoles (ch_reverse c) in
  match res with
  | inl e =>
      let st := toStatus (Some e) in
      loop_close (Some (Errorf (st_code st) "failed to read settings from %s: %s"
        [AStr peer; AMsg (st_message st)])) c
  | inr m =>
      if negb (S2C_StreamId m =? -1)
      then loop_close (Some (Errorf Internal "protocol error: settings frame had bad stream ID (%d)"
             [AInt (S2C_StreamId m)])) c
      else match S2C_Frame m with
           | Some (ServerToClient_Settings settings) =>
               match check_settings (ch_reverse c) settings with
               | (rev, Some e) => loop_close (Some e) (kset_settings None rev c)
               | (rev, None) => kset_loop (LReceiving None) (kset_settings (Some settings) rev c)
               end
           | f => loop_close (Some (Errorf Internal
                    "protocol error: first frame was not settings (instead was %T)"
                    [AType (frame_type f)])) c
           end
  end.

(** One round of the loop after it. *)
Definition recv_frame (res : error + ServerToClient) (c : tunnelChannel) : option tunnelChannel :=
  match res with
  | inl e => Some (loop_close (Some e) c)
  | inr m =>
      match channel_getStream (S2C_StreamId m) c with
      | CNeverCreated e => Some (loop_close (Some e) c)
      | CIgnored => Some c
      | CFound =>
          run_client (S2C_StreamId m) (CFrame (S2C_Frame m))
            (kset_loop (LReceiving (Some (S2C_StreamId m))) c)
      end
  end.

Inductive channel_label :=
  | KStart                                  (** [recvLoop] looks at [serverSendsSettings] *)
  | KRecv (res : error + ServerToClient)    (** its [Recv] returns *)
  | KNewStream (a : new_stream_args)
  | KSendNew (sendErr : option error)
  | KStream (id : Z) (l : client_label)
  | KClose                                  (** [Close] *)
  | KTimeout                                (** the timer of [newReverseChannel] *)
  | KCtx (e : error).                       (** the context of the tunnel is done *)

(** Labels that only the caller of the RPC can bring about. *)
Definition by_caller (l : client_label) : bool :=
  match l with CSendMsg _ | CSend _ | CCloseSend _ | CRecv => true | _ => false end.

Definition channel_step (l : channel_label) (c : tunnelChannel) : option tunnelChannel :=
  match l with
  | KStart =>
      match ch_loop c with
      | LStart => Some (if ch_serverSendsSettings c then kset_loop LSettings c
                        else loop_close (Some (no_settings_error (ch_reverse c))) c)
      | _ => None
      end
  | KRecv res =>
      match ch_loop c with
      | LSettings => Some (recv_settings res c)
      | LReceiving o => if channel_loop_idle o c then recv_frame res c else None
      | _ => None
      end
  | KNewStream a =>
      match ch_creating c with
      | None => match newStream_begin a c with Returns (c', _) => Some c' | Panics => None end
      | Some _ => None
      end
  | KSendNew sendErr => newStream_end sendErr c
  | KStream id (CFrame _) => None
  | KStream id l =>
      if by_caller l && negb (bool_decide (id ∈ ch_handed c)) then None else run_client id l c
  | KClose => Some (fst (channel_close None c))
  | KTimeout =>
      if ch_reverse c && (establishmentTimeout (ch_opts c) >? 0) then
        match ch_settings c with
        | None => Some (fst (channel_close (Some (establishmentTimeoutError
                    (establishmentTimeout (ch_opts c)) (fst (tunnelRoles true)))) c))
        | Some _ => Some c
        end
      else None
  | KCtx e =>
      match ch_ctxErr c with None => Some (kset_ctx (Some e) c) | Some _ => None end
  end.
End ChannelSteps.

(** ** Facts on streams *)
Definition is_new_frame (f : ClientToServerFrame) : bool :=
  match f with ClientToServer_NewStream _ => true | _ => false end.

Section StreamFacts.
Context `{StatusLib}.
Context (W maxChunk ov : Z).

Definition sends (v v' : client_conf) (fs : list ClientToServerFrame) : Prop :=
  cc_wire v' = cc_wire v ++ fs /\ Forall (fun f => is_new_frame f = false) fs.

Lemma sends_nothing v v' : cc_wire v' = cc_wire v -> sends v v' [].
Proof. intros E. unfold sends. by rewrite app_nil_r. Qed.

Lemma call_finish_same b c err tr v :
  cc_wire (call_finish b c err tr v) = cc_wire v /\
  cc_watching (call_finish b c err tr v) = cc_watching v /\
  cc_posted (call_finish b c err tr v) = cc_posted v /\
  cs_send (cc_str (call_finish b c err tr v)) = cs_send (cc_str v) /\
  cs_done (cc_str (call_finish b c err tr v)) <> None /\
  (cs_done (cc_str v) <> None -> call_finish b c err tr v = v).
Proof.
  unfold call_finish, finishStream_cas. destruct (cs_done (cc_str v)) eqn:Hd; simpl;
    rewrite ?Hd; done.
Qed.

(** What a stream sends never opens a stream. *)
Lemma client_step_sends l v v' :
  client_inv W maxChunk ov v -> client_step l v = Some v' -> exists fs, sends v v' fs.
Proof.
  intros Hinv. pose proof (ki_posted _ _ _ _ Hinv) as Hp.
  destruct l as [frame| |m|l|sendErr| | | | | | |e]; cbn [client_step]; intros Hs.
  - exists []. apply sends_nothing. destruct (client_loop_busy v); [done|].
    destruct frame as [[s|md|m|d|c|w]|]; cbn [acceptServerFrame] in Hs;
      try (destruct (cs_gotHeaders _)); try (destruct (accept _ _ _) as [r [e|]]);
      try (destruct (w =? 0)); try (destruct (send_step _ _)); simplify_eq; try done;
      by rewrite (proj1 (call_finish_same _ _ _ _ _)).
  - exists []. apply sends_nothing. destruct (send_step _ _); by simplify_eq.
  - exists []. apply sends_nothing. destruct (client_writeMu_free v); [|done].
    destruct (client_SendMsg_begin _ _) as [st [e|b]]; [by simplify_eq|].
    destruct (send_step _ _); by simplify_eq.
  - destruct (in_send l); [|done]. destruct (send_step _ _); simplify_eq. eexists. split; [done|].
    apply Forall_fmap, Forall_forall. by intros [? ? []] _.
  - destruct (client_writeMu_free v); [|done]. unfold CloseSend in Hs.
    destruct (cs_doneSignal (cc_str v)), (cs_halfClosed (cc_str v)); simplify_eq; eexists;
      (split; [done|]); by repeat constructor.
  - destruct (readMsg _ _ _ _) as [[[rs us] out]|]; [|done].
    assert (Hfs : Forall (fun f => is_new_frame f = false) (client_read_updates (cc_str v) us)).
    { unfold client_read_updates. destruct (cs_done _); [done|]. by apply Forall_fmap, Forall_forall. }
    exists (client_read_updates (cc_str v) us).
    destruct out as [ret|ph]; simplify_eq; [|done].
    unfold client_recv_returned. destruct (rr_err ret); [destruct (rr_ok ret)|]; try done.
    unfold sends. by rewrite (proj1 (call_finish_same _ _ _ _ _)).
  - exists []. apply sends_nothing. destruct (cc_finishing v) as [[[] ? ?]|]; by simplify_eq.
  - exists []. apply sends_nothing. destruct (cc_finishing v) as [[[] ? ?]|]; by simplify_eq.
  - exists []. apply sends_nothing. destruct (cc_finishing v) as [[[] ? ?]|]; by simplify_eq.
  - destruct (cc_posted v) as [|f fs] eqn:Hps; simplify_eq. exists [f]. split; [done|].
    apply Forall_cons_1 in Hp as [Hf _]. constructor; [|done]. by destruct f.
  - exists []. apply sends_nothing. destruct (cc_watching v), (cs_ctxErr (cc_str v)); simplify_eq.
    simpl. by rewrite (proj1 (call_finish_same _ _ _ _ _)).
  - exists []. apply sends_nothing. destruct (send_step _ _); by simplify_eq.
Qed.

(** The goroutine that waits for the context does not go away before the stream
    is finished. *)
Definition watched (v : client_conf) : Prop := cc_watching v = true \/ cs_done (cc_str v) <> None.

Lemma change_done v v' : client_change v v' -> cs_done (cc_str v) <> None -> cs_done (cc_str v') <> None.
Proof.
  intros [E|w b c err tr E -> _|tr b c _ ->|b c _ ->|b c _ ->] Hd; try done.
  - by rewrite (same_done _ _ E).
  - apply call_finish_same.
Qed.

Lemma send_step_ctx l c c' : send_step l c = Some c' -> c_ctx c <> None -> c_ctx c' <> None.
Proof.
  intros Hs Hc. destruct l; simpl in Hs; try (destruct (c_call c) as [k|]; [|done]);
    unfold call_step in *; step_in Hs; simpl in *; try done; congruence.
Qed.

Record client_keeps (v v' : client_conf) : Prop := {
  ck_ctx : cs_ctxErr (cc_str v) <> None -> cs_ctxErr (cc_str v') <> None;
  ck_watch : cc_watching v' = cc_watching v \/
    (cc_watching v' = false /\ cs_done (cc_str v') <> None);
}.

Lemma keeps_same v v' :
  c_ctx (cs_send (cc_str v')) = c_ctx (cs_send (cc_str v)) ->
  cc_watching v' = cc_watching v -> client_keeps v v'.
Proof. unfold cs_ctxErr. intros E1 E2. split; [unfold cs_ctxErr; by rewrite E1|by left]. Qed.

Lemma keeps_send v l c :
  send_step l (cs_send (cc_str v)) = Some c -> forall wire,
  client_keeps v (cto_wire wire (cset_str (cwith_send c (cc_str v)) v)).
Proof. intros Hs wire. split; [by eapply send_step_ctx|by left]. Qed.

Lemma keeps_finish v b c err tr w :
  c_ctx (cs_send (cc_str w)) = c_ctx (cs_send (cc_str v)) ->
  cc_watching w = cc_watching v -> client_keeps v (call_finish b c err tr w).
Proof.
  intros E1 E2. destruct (call_finish_same b c err tr w) as (_ & F2 & _ & F4 & _).
  apply keeps_same; congruence.
Qed.

Lemma client_step_keeps l v v' : client_step l v = Some v' -> client_keeps v v'.
Proof.
  destruct l as [frame| |m|l|sendErr| | | | | | |e]; cbn [client_step]; intros Hs.
  - destruct (client_loop_busy v); [done|].
    destruct frame as [[s|md|m|d|c|w]|]; cbn [acceptServerFrame] in Hs;
      try (destruct (cs_gotHeaders _)); try (destruct (accept _ _ _) as [r [e|]]);
      try (destruct (w =? 0)); try (destruct (send_step _ _) eqn:Hc); simplify_eq;
      try (by apply keeps_finish); try (by apply keeps_same). split; [by eapply send_step_ctx|by left].
  - destruct (send_step _ _) eqn:Hc; simplify_eq. split; [by eapply send_step_ctx|by left].
  - destruct (client_writeMu_free v); [|done].
    assert (E : cs_send (fst (client_SendMsg_begin m (cc_str v))) = cs_send (cc_str v)).
    { unfold client_SendMsg_begin. destruct (_ && _); [done|]. destruct m; [done|]. by destruct (_ >? _). }
    destruct (client_SendMsg_begin _ _) as [st [e|b]]; simpl in E.
    { simplify_eq. apply keeps_same; simpl; by rewrite ?E. }
    destruct (send_step _ _) eqn:Hc; simplify_eq. rewrite E in Hc.
    split; [by eapply send_step_ctx|by left].
  - destruct (in_send l); [|done]. destruct (send_step _ _) eqn:Hc; simplify_eq. by eapply keeps_send.
  - destruct (client_writeMu_free v); [|done]. unfold CloseSend in Hs.
    destruct (cs_doneSignal (cc_str v)), (cs_halfClosed (cc_str v)); simplify_eq; by apply keeps_same.
  - destruct (readMsg _ _ _ _) as [[[rs us] out]|]; [|done].
    destruct out as [ret|ph]; simplify_eq; [|by apply keeps_same].
    unfold client_recv_returned. destruct (rr_err ret); [destruct (rr_ok ret)|];
      (by apply keeps_same) || by apply keeps_finish.
  - destruct (cc_finishing v) as [[[] ? ?]|]; simplify_eq; by apply keeps_same.
  - destruct (cc_finishing v) as [[[] ? ?]|]; simplify_eq.
    split; [|by left]. intros _. apply (cancel_ctx_done ContextCanceled).
  - destruct (cc_finishing v) as [[[] ? ?]|]; simplify_eq; by apply keeps_same.
  - destruct (cc_posted v); simplify_eq; by apply keeps_same.
  - destruct (cc_watching v), (cs_ctxErr (cc_str v)) as [e|] eqn:Hc; simplify_eq.
    destruct (call_finish_same false true (Some e) None v) as (_ & _ & _ & F4 & F5 & _).
    split; [|right; split; [done|exact F5]]. intros _. unfold cs_ctxErr in *. simpl.
    rewrite F4. congruence.
  - destruct (send_step _ _) eqn:Hc; simplify_eq. split; [by eapply send_step_ctx|by left].
Qed.

(** A stream whose caller does not have it yet sends nothing. *)
Definition dormant (v : client_conf) : Prop :=
  cc_watching v = false /\ cc_posted v = [] /\
  match cc_finishing v with
  | Some f => fi_cancels f = false /\ fi_pc f <> PCancelStream
  | None => True
  end.

Lemma dormant_step l v v' :
  by_caller l = false -> dormant v -> client_step l v = Some v' ->
  dormant v' /\ cc_wire v' = cc_wire v.
Proof.
  intros Hl (Hw & Hp & Hf) Hs. unfold dormant.
  assert (Hfin : forall err tr w, cc_watching w = false -> cc_posted w = [] ->
    cc_finishing w = cc_finishing v -> cc_wire w = cc_wire v ->
    dormant (call_finish true false err tr w) /\
    cc_wire (call_finish true false err tr w) = cc_wire v).
  { intros err tr w E1 E2 E3 E4. unfold call_finish, finishStream_cas.
    destruct (cs_done (cc_str w)); unfold dormant; simpl; [rewrite E3|]; done. }
  destruct l as [frame| |m|l|sendErr| | | | | | |e]; try done; cbn [client_step] in Hs.
  - destruct (client_loop_busy v); [done|].
    destruct frame as [[s|md|m|d|c|w]|]; cbn [acceptServerFrame] in Hs;
      try (destruct (cs_gotHeaders _)); try (destruct (accept _ _ _) as [r [e|]]);
      try (destruct (w =? 0)); try (destruct (send_step _ _) eqn:Hc); simplify_eq;
      try (by apply Hfin); done.
  - destruct (send_step _ _); by simplify_eq.
  - destruct (cc_finishing v) as [[[] ? ?]|]; simplify_eq. simpl in *. by destruct Hf as [-> _].
  - destruct (cc_finishing v) as [[[] ? ?]|]; simplify_eq. destruct Hf as [Hf _]. simpl in Hf.
    by rewrite Hf.
  - destruct (cc_finishing v) as [[[] ? ?]|]; simplify_eq. by destruct Hf.
  - by rewrite Hp in Hs.
  - by rewrite Hw in Hs.
  - destruct (send_step _ _); by simplify_eq.
Qed.
End StreamFacts.

(** ** Well-formed sequences of messages grow at the end *)
Lemma well_formed_snoc ms m :
  well_formed ms ->
  (if is_new m
   then 0 <= C2S_StreamId m /\
     forall m', m' ∈ ms -> is_new m' = true -> C2S_StreamId m' < C2S_StreamId m
   else exists m', m' ∈ ms /\ is_new m' = true /\ C2S_StreamId m' = C2S_StreamId m) ->
  well_formed (ms ++ [m]).
Proof.
  intros Hwf Hm pre x post E. destruct post as [|y post _] using rev_ind.
  - apply app_inj_tail in E as [-> ->]. exact Hm.
  - rewrite app_comm_cons, app_assoc in E. apply app_inj_tail in E as [-> _].
    by apply (Hwf pre x post).
Qed.

Lemma well_formed_known ms id fs :
  well_formed ms -> (exists m, m ∈ ms /\ is_new m = true /\ C2S_StreamId m = id) ->
  Forall (fun f => is_new_frame f = false) fs -> well_formed (ms ++ (client_tag id <$> fs)).
Proof.
  intros Hwf Hm Hfs. revert ms Hwf Hm. induction Hfs as [|f fs Hf _ IH]; intros ms Hwf Hm.
  - by rewrite app_nil_r.
  - rewrite fmap_cons, cons_middle, app_assoc. destruct Hm as (m & Hin & Hn & Hid). apply IH.
    + apply well_formed_snoc; [done|]. unfold is_new. simpl.
      assert (match f with ClientToServer_NewStream _ => true | _ => false end = false) as -> by done.
      by exists m.
    + exists m. split; [|done]. apply elem_of_app. by left.
Qed.

(** ** Invariant *)

(** The window of the server's settings is a [uint32]. *)
Definition channel_label_ok (l : channel_label) : Prop :=
  match l with
  | KRecv (inr m) =>
      match S2C_Frame m with
      | Some (ServerToClient_Settings s) => is_u32 (Settings_InitialWindowSize s)
      | _ => True
      end
  | _ => True
  end.

(** A frame that opens a stream and that no server of this package rejects for
    its revision or window. *)
Definition frame_ok (frame : NewStream) : Prop :=
  is_u32 (NewStream_InitialWindowSize frame) /\ ProtocolRevision frame ∈ supportedRevisions /\
  minWindowSize (ProtocolRevision frame) <= NewStream_InitialWindowSize frame.

Definition settings_ok (rev : Z) (s : Settings) : Prop :=
  is_u32 (Settings_InitialWindowSize s) /\ rev ∈ supportedRevisions /\
  minWindowSize rev <= Settings_InitialWindowSize s.

Section ChannelInvariant.
Context `{StatusLib} `{MetadataAppend}.

Definition client_ok (opts : tunnelOpts) (v : client_conf) : Prop :=
  exists W ov, is_u32 W /\ 1 <= W /\ 0 <= ov < MaxUint32 /\ client_inv W (maxChunkSize opts) ov v.

(** The caller has the stream, or [newStream] is about to return it. *)
Definition wanted (c : tunnelChannel) (id : Z) : Prop :=
  id ∈ ch_handed c \/ exists frame, ch_creating c = Some (id, frame).

Definition wire_ok (c : tunnelChannel) : Prop :=
  well_formed (ch_wire c) /\
  (forall m, m ∈ ch_wire c -> C2S_StreamId m ∈ ch_handed c /\
     forall frame, C2S_Frame m = Some (ClientToServer_NewStream frame) -> frame_ok frame) /\
  (forall id, id ∈ ch_handed c -> exists m, m ∈ ch_wire c /\ is_new m = true /\ C2S_StreamId m = id).

(** What holds of the object of a stream. *)
Record client_object_ok (c : tunnelChannel) (id : Z) (v : client_conf) : Prop := {
  ob_id : 1 <= id <= ch_lastStreamID c;
  ob_inv : client_ok (ch_opts c) v;
  ob_watched : id ∈ ch_handed c -> watched v;
  ob_dormant : id ∉ ch_handed c -> dormant v;
  ob_open : ch_finished c = false -> wanted c id -> cs_done (cc_str v) = None -> in_table id c = true;
  ob_closed : ch_finished c = true -> wanted c id -> cs_done (cc_str v) = None ->
    cs_ctxErr (cc_str v) <> None;
}.

Record channel_inv (n : Z) (c : tunnelChannel) : Prop := {
  ni_opts : opts_ok (ch_opts c);
  ni_last : 0 <= ch_lastStreamID c <= n;
  ni_created : ch_streamCreated c = false -> ch_lastStreamID c = 0;
  ni_settings : forall s, ch_settings c = Some s -> settings_ok (ch_useRevision c) s;
  ni_loop : match ch_loop c with
            | LStart | LSettings => ch_settings c = None
            | LReceiving _ => ch_settings c <> None
            | LExited => ch_finished c = true
            end;
  ni_table : forall id, in_table id c = true ->
    exists v, ch_objects c !! id = Some v /\ cs_done (cc_str v) = None;
  ni_finished : if ch_finished c
                then ch_streams c = None /\ ch_err c <> None /\ ch_ctxErr c <> None
                else ch_streams c <> None /\ ch_err c = None;
  ni_objects : forall id v, ch_objects c !! id = Some v -> client_object_ok c id v;
  ni_handed : forall id, id ∈ ch_handed c -> is_Some (ch_objects c !! id);
  ni_creating : forall id frame, ch_creating c = Some (id, frame) ->
    id = ch_lastStreamID c /\ (id ∉ ch_handed c) /\ is_Some (ch_objects c !! id) /\ frame_ok frame;
  ni_wire : wire_ok c;
}.

Lemma channel_start_inv sends reverse secure opts ctxErr :
  opts_ok opts -> channel_inv 0 (newTunnelChannel sends reverse secure opts ctxErr).
Proof.
  intros Hopts. split; simpl; try done.
  split_and!.
  - intros [|? ?] ? ? ?; discriminate.
  - by intros m ?%not_elem_of_nil.
  - by intros id ?%not_elem_of_empty.
Qed.

(** An object under changes of the channel around it. *)
Lemma client_object_same c c' id v :
  client_object_ok c id v -> ch_lastStreamID c <= ch_lastStreamID c' -> ch_opts c' = ch_opts c ->
  ch_finished c' = ch_finished c -> ch_handed c' = ch_handed c -> in_table id c' = in_table id c ->
  (wanted c' id -> wanted c id) -> client_object_ok c' id v.
Proof.
  intros [O1 O2 O3 O4 O5 O6] E1 E2 E3 E4 E5 E6.
  split; rewrite ?E2, ?E3, ?E4, ?E5; auto. lia.
Qed.

Lemma in_table_kset streams objects c id :
  in_table id (kset_table streams objects c)
  = match streams with Some ids => bool_decide (id ∈ ids) | None => false end.
Proof. done. Qed.

(** *** Closing *)
Lemma cancel_client_ok opts v : client_ok opts v -> opts_ok opts -> client_ok opts (cancel_client v).
Proof.
  intros (W & ov & HW & HW1 & Hov & Hinv) Hopts. exists W, ov. split_and!; try done; try apply Hov.
  unfold cancel_client, cancel_ctx. destruct (c_ctx (cs_send (cc_str v))) eqn:Hc.
  { by destruct v as [[] ? ? ? ? ? ?]. }
  apply (kinv_send_env W (maxChunkSize opts) ov HW1 (proj1 (oo_chunk _ Hopts)) Hov v
    (LCancel ContextCanceled)); try done. simpl. by rewrite Hc.
Qed.

Lemma cancel_client_keeps v :
  cs_done (cc_str (cancel_client v)) = cs_done (cc_str v) /\
  cc_watching (cancel_client v) = cc_watching v /\ cc_posted (cancel_client v) = cc_posted v /\
  cc_finishing (cancel_client v) = cc_finishing v /\
  cs_ctxErr (cc_str (cancel_client v)) <> None.
Proof. split_and!; try done. apply cancel_ctx_done. Qed.

Lemma inv_close n err c : channel_inv n c -> channel_inv n (fst (channel_close err c)).
Proof.
  intros Hinv. unfold channel_close. destruct (ch_finished c) eqn:Hfin; [done|].
  destruct Hinv as [I1 I2 I3 I4 I5 I6 I7 I8 I9 I10 I11]. rewrite Hfin in I7.
  destruct I7 as [Hs He]. destruct (ch_streams c) as [ids|] eqn:Hids; [|done].
  split; simpl; auto.
  - by destruct (ch_loop c).
  - by intros id.
  - split_and!; [done|done|by destruct (ch_ctxErr c)].
  - intros id v Hv. rewrite map_lookup_imap in Hv.
    destruct (ch_objects c !! id) as [v0|] eqn:Hv0; [|done]. simpl in Hv. injection Hv as <-.
    destruct (I8 id v0 Hv0) as [O1 O2 O3 O4 O5 O6].
    destruct (cancel_client_keeps v0) as (K1 & K2 & K3 & K4 & K5).
    unfold in_table in O5. rewrite Hids in O5.
    destruct (bool_decide (id ∈ ids)) eqn:Hin.
    + split; [done|by apply cancel_client_ok| | |done|done].
      * intros Hid. destruct (O3 Hid); [left|right]; congruence.
      * intros Hid. destruct (O4 Hid) as (? & ? & ?). by split_and!.
    + split; [done..|]. intros _ Hw Hd. by specialize (O5 Hfin Hw Hd).
  - intros id Hid. rewrite map_lookup_imap. destruct (I9 id Hid) as [v ->]. by eexists.
  - intros id frame Hc. destruct (I10 id frame Hc) as (? & ? & [v Hv] & ?). split_and!; try done.
    rewrite map_lookup_imap, Hv. by eexists.
Qed.

Lemma close_finished err c : ch_finished (fst (channel_close err c)) = true.
Proof. unfold channel_close. by destruct (ch_finished c) eqn:Hf. Qed.

Lemma inv_loop_close n err c : channel_inv n c -> channel_inv n (loop_close err c).
Proof.
  intros Hinv. pose proof (close_finished err c). destruct (inv_close n err c Hinv).
  split; simpl; auto. intros id v Hv. by eapply client_object_same; eauto.
Qed.

(** *** An action of a stream *)
Lemma wire_ok_sends c id fs :
  wire_ok c -> id ∈ ch_handed c -> Forall (fun f => is_new_frame f = false) fs ->
  wire_ok (kto_wire (client_tag id <$> fs) c).
Proof.
  intros (Hwf & Hms & Hnew) Hid Hfs. split_and!; simpl.
  - apply well_formed_known; [done|by apply Hnew|done].
  - intros m [Hm|Hm]%elem_of_app; [by apply Hms|].
    apply list_elem_of_fmap in Hm as (f & -> & Hf). split; [done|]. intros frame [= ->].
    rewrite Forall_forall in Hfs. by specialize (Hfs _ Hf).
  - intros id' Hid'. destruct (Hnew id' Hid') as (m & Hm & ?). exists m.
    split; [|done]. apply elem_of_app. by left.
Qed.

Lemma client_ok_step opts l v v' :
  opts_ok opts -> client_ok opts v -> client_step l v = Some v' ->
  client_ok opts v' /\ exists fs, sends v v' fs.
Proof.
  intros Hopts (W & ov & HW & HW1 & Hov & Hinv) Hs. split; [|by eapply client_step_sends].
  exists W, ov. split_and!; try done; try apply Hov.
  eapply client_inv_step; eauto. apply Hopts.
Qed.

(** The table after an action of a stream. *)
Lemma in_table_after id' c c' v v' id :
  ch_streams c' = (if became_done v v' then (fun ids => ids ∖ {[id]}) <$> ch_streams c else ch_streams c) ->
  in_table id' c' = in_table id' c && negb (became_done v v' && (id' =? id)).
Proof.
  unfold in_table. intros ->. destruct (became_done v v'), (ch_streams c) as [ids|]; simpl; try done.
  - case_bool_decide as H1'; case_bool_decide as H2'; destruct (Z.eqb_spec id' id); try done;
      rewrite elem_of_difference, elem_of_singleton in H1'; tauto.
  - by rewrite andb_true_r.
Qed.

Lemma run_client_inv id l c c' :
  run_client id l c = Some c' ->
  exists v v' objects, ch_objects c !! id = Some v /\ client_step l v = Some v' /\
    objects = <[id := v']> (ch_objects c) /\
    c' = kto_wire (client_tag id <$> drop (length (cc_wire v)) (cc_wire v'))
           (kset_table (if became_done v v' then (fun ids => ids ∖ {[id]}) <$> ch_streams c
                        else ch_streams c) objects c).
Proof.
  unfold run_client. destruct (ch_objects c !! id) as [v|]; [|done].
  destruct (client_step l v) as [v'|] eqn:Hs; [|done]. intros [= <-].
  exists v, v', (<[id := v']> (ch_objects c)). split_and!; try done. by destruct (became_done v v').
Qed.

(** The object of a stream that took an action. *)
Lemma object_step c c' id l v v' :
  opts_ok (ch_opts c) -> client_object_ok c id v -> client_step l v = Some v' ->
  id ∈ ch_handed c \/ by_caller l = false ->
  ch_lastStreamID c' = ch_lastStreamID c -> ch_opts c' = ch_opts c ->
  ch_finished c' = ch_finished c -> ch_handed c' = ch_handed c -> ch_creating c' = ch_creating c ->
  in_table id c' = in_table id c && negb (became_done v v') -> client_object_ok c' id v'.
Proof.
  intros Hopts [O1 O2 O3 O4 O5 O6] Hs Hmay E1 E2 E3 E4 E5 E6.
  pose proof (change_done _ _ (client_step_change _ _ _ Hs)) as Hdone.
  destruct (client_step_keeps _ _ _ Hs) as [Hctx Hwatch].
  assert (Hback : cs_done (cc_str v') = None -> cs_done (cc_str v) = None).
  { intros Hd. destruct (cs_done (cc_str v)); [|done]. by destruct Hdone. }
  assert (Hw : wanted c' id -> wanted c id) by (unfold wanted; by rewrite E4, E5).
  split; rewrite ?E1, ?E2, ?E3, ?E4; try done.
  - by destruct (client_ok_step _ _ _ _ Hopts O2 Hs).
  - intros Hid. destruct (O3 Hid) as [Hw'|Hd]; [|right; by apply Hdone].
    destruct Hwatch as [Ew|[_ Hd]]; [left; congruence|by right].
  - intros Hid. destruct Hmay as [?|Hl]; [done|]. by eapply dormant_step; eauto.
  - intros Hf Hwant Hd. rewrite E6, (O5 Hf (Hw Hwant) (Hback Hd)).
    unfold became_done. rewrite Hd. by destruct (cs_done (cc_str v)).
  - intros Hf Hwant Hd. apply Hctx, O6; auto.
Qed.

Lemma inv_run_client n id l c c' :
  channel_inv n c -> id ∈ ch_handed c \/ by_caller l = false ->
  run_client id l c = Some c' -> channel_inv n c'.
Proof.
  intros Hinv Hmay (v & v' & objects & Hv & Hs & Hobj & Hc')%run_client_inv.
  destruct Hinv as [I1 I2 I3 I4 I5 I6 I7 I8 I9 I10 I11].
  pose proof (I8 id v Hv) as Hok.
  destruct (client_ok_step _ _ _ _ I1 (ob_inv _ _ _ Hok) Hs) as [_ (fs & Hwire & Hfs)].
  assert (Htab : forall id', in_table id' c' = in_table id' c && negb (became_done v v' && (id' =? id)))
    by (intros id'; apply in_table_after; by subst c').
  assert (Hlook : forall id', is_Some (ch_objects c !! id') -> is_Some (objects !! id')).
  { intros id' [w Hw]. subst objects. destruct (decide (id' = id)) as [->|Hne].
    - by rewrite lookup_insert_eq. - by rewrite lookup_insert_ne, Hw by done. }
  assert (Hout : wire_ok c').
  { subst c'. rewrite Hwire, drop_app_length.
    destruct (decide (id ∈ ch_handed c)) as [Hid|Hid]; [by apply (wire_ok_sends c id fs)|].
    destruct Hmay as [?|Hl]; [done|].
    destruct (dormant_step _ _ _ Hl (ob_dormant _ _ _ Hok Hid) Hs) as [_ E].
    rewrite Hwire in E. rewrite <- (app_nil_r (cc_wire v)) in E at 2. apply app_inv_head in E as ->.
    unfold wire_ok. simpl. by rewrite app_nil_r. }
  split; try (subst c'; done).
  - intros id' Hin. rewrite Htab in Hin. apply andb_true_iff in Hin as [Hin Hnot].
    destruct (I6 id' Hin) as (w & Hw & Hd). subst c' objects. simpl.
    destruct (decide (id' = id)) as [->|Hne]; [|rewrite lookup_insert_ne by done; eauto].
    rewrite lookup_insert_eq. exists v'. split; [done|]. simplify_eq.
    rewrite Z.eqb_refl, andb_true_r in Hnot. unfold became_done in Hnot. rewrite Hd in Hnot.
    by destruct (cs_done (cc_str v')).
  - subst c'. simpl. destruct (ch_finished c).
    + destruct I7 as (-> & ? & ?). by destruct (became_done v v').
    + destruct I7 as [Hn He]. split; [|done]. by destruct (became_done v v'), (ch_streams c).
  - intros id' w Hw. destruct (decide (id' = id)) as [->|Hne].
    + assert (w = v') as -> by (subst c' objects; simpl in Hw; rewrite lookup_insert_eq in Hw; by simplify_eq).
      apply (object_step c c' id l v v'); try (subst c'; done). by rewrite Htab, Z.eqb_refl, andb_true_r.
    + assert (ch_objects c !! id' = Some w) as Hw'
        by (subst c' objects; simpl in Hw; by rewrite lookup_insert_ne in Hw).
      apply (client_object_same c); try (subst c'; done); [by apply I8|].
      rewrite Htab. destruct (Z.eqb_spec id' id); [done|]. by rewrite andb_false_r, andb_true_r.
  - intros id' Hid. subst c'. simpl. by apply Hlook, I9.
  - intros id' frame Hc. subst c'. simpl in *. destruct (I10 id' frame Hc) as (? & ? & ? & ?).
    split_and!; auto.
Qed.

(** *** A new stream *)
Lemma inv_later n c : channel_inv n c -> channel_inv (n + 1) c.
Proof. intros []. split; auto. lia. Qed.

Lemma inv_kset_last n c :
  channel_inv n c -> ch_creating c = None -> channel_inv (n + 1) (kset_last (ch_lastStreamID c + 1) c).
Proof.
  intros [I1 I2 I3 I4 I5 I6 I7 I8 I9 I10 I11] Hc. split; simpl; auto; try done.
  - lia.
  - intros id v Hv. apply (client_object_same c); simpl; auto. lia.
  - by rewrite Hc.
Qed.

Lemma new_client_ok c s id a :
  opts_ok (ch_opts c) -> settings_ok (ch_useRevision c) s ->
  client_ok (ch_opts c) (unwatched (make_client_stream c s id a)).
Proof.
  intros Hopts (Hw & _ & Hmin). rewrite minWindowSize_eq in Hmin.
  assert (Hov : 0 <= messageOverhead (ch_useRevision c) < MaxUint32).
  { by destruct (messageOverhead_cases (ch_useRevision c)) as [-> | ->]. }
  exists (Settings_InitialWindowSize s), (messageOverhead (ch_useRevision c)).
  split_and!; [done|lia|apply Hov|apply Hov|].
  destruct (new_client_inv (Settings_InitialWindowSize s) (maxChunkSize (ch_opts c))
    (messageOverhead (ch_useRevision c)) Hw ltac:(lia) (proj1 (oo_chunk _ Hopts)) Hov id
    (na_method a) (ch_reverse c) (na_clientStreams a) (na_serverStreams a) (na_ctxErr a)
    (newReceiver (initialWindowSize (ch_opts c)) (minWindowUpdateSize (ch_opts c))
      (messageOverhead (ch_useRevision c))) eq_refl eq_refl) as [J1 J2 J3 J4 J5 J6 J7].
  by split.
Qed.

Lemma new_frame_ok c a md s :
  opts_ok (ch_opts c) -> settings_ok (ch_useRevision c) s -> frame_ok (new_stream_frame c a md).
Proof.
  intros [[Hw1 Hw2] _ _ _] (_ & Hrev & _). unfold frame_ok, minInitialWindowSize in *. simpl.
  rewrite minWindowSize_eq. unfold is_u32.
  split_and!; [lia|lia|done|]. destruct (messageOverhead_cases (ch_useRevision c)); lia.
Qed.

Lemma inv_newStream n c s id a md :
  channel_inv n c -> ch_creating c = None -> ch_finished c = false -> ch_settings c = Some s ->
  id = ch_lastStreamID c -> 1 <= id -> ch_objects c !! id = None ->
  channel_inv n (kset_creating (Some (id, new_stream_frame c a md)) (ch_handed c)
    (kset_table ((fun ids => {[id]} ∪ ids) <$> ch_streams c)
       (<[id := unwatched (make_client_stream c s id a)]> (ch_objects c)) c)).
Proof.
  intros Hinv Hcr Hfin Hset Hid Hpos Hfresh.
  destruct Hinv as [I1 I2 I3 I4 I5 I6 I7 I8 I9 I10 I11]. rewrite Hfin in I7.
  destruct I7 as [Hs He]. destruct (ch_streams c) as [ids|] eqn:Hids; [|done].
  assert (Hnew : id ∉ ch_handed c) by (intros Hin; destruct (I9 id Hin); congruence).
  assert (Htab : forall id', in_table id' c = bool_decide (id' ∈ ids)) by (intros; unfold in_table; by rewrite Hids).
  split; simpl; auto; try done.
  - intros id' Hin. apply bool_decide_eq_true, elem_of_union in Hin as [->%elem_of_singleton|Hin].
    + rewrite lookup_insert_eq. by eexists.
    + destruct (I6 id') as (v & Hv & Hd); [rewrite Htab; by apply bool_decide_eq_true|].
      assert (id' <> id) by congruence. rewrite lookup_insert_ne by done. eauto.
  - by rewrite Hfin.
  - intros id' v Hv. destruct (decide (id' = id)) as [->|Hne].
    + rewrite lookup_insert_eq in Hv. injection Hv as <-.
      split; simpl; try done; [lia|by apply new_client_ok; [|apply I4]| |congruence].
      intros _ _ _. apply bool_decide_eq_true, elem_of_union. left. by apply elem_of_singleton.
    + rewrite lookup_insert_ne in Hv by done. destruct (I8 id' v Hv) as [O1 O2 O3 O4 O5 O6].
      split; simpl; auto.
      * intros Hf Hw Hd. apply bool_decide_eq_true, elem_of_union. right.
        rewrite Htab in O5. apply (proj1 (bool_decide_eq_true _)), O5; try done.
        destruct Hw as [Hw|(fr & [= -> _])]; [by left|done].
      * intros Hf. congruence.
  - intros id' Hin. destruct (decide (id' = id)) as [->|Hne]; [done|].
    rewrite lookup_insert_ne by done. by apply I9.
  - intros id' frame [= <- <-]. split_and!; try done.
    + rewrite lookup_insert_eq. by eexists.
    + eapply new_frame_ok; [done|by apply I4].
Qed.

Lemma inv_newStream_begin n a c c' e :
  channel_inv n c -> n < MaxInt64 -> ch_creating c = None ->
  newStream_begin a c = Returns (c', e) -> channel_inv (n + 1) c'.
Proof.
  intros Hinv Hn Hcr. unfold newStream_begin, allocateStream.
  pose proof (ni_last _ _ Hinv) as Hlast.
  assert (Hid : i64 (ch_lastStreamID c + 1) = ch_lastStreamID c + 1)
    by (apply i64_small; unfold MinInt64, MaxInt64 in *; lia).
  rewrite Hid. destruct (ch_finished c) eqn:Hfin; [intros [= <- _]; by apply inv_later|].
  destruct (ch_lastStreamID c <? 0); [intros [= <- _]; by apply inv_later|].
  pose proof (inv_kset_last n c Hinv Hcr) as Hinv'. set (c1 := kset_last _ c) in *.
  destruct (in_table (ch_lastStreamID c + 1) c1); [by intros [= <- _]|].
  destruct (apply_call_options _ _ _) as [|[e'|md]]; [done|by intros [= <- _]|].
  destruct (ch_settings c1) as [s|] eqn:Hset; [|done]. intros [= <- _].
  apply (inv_newStream (n + 1) c1 s); try done; [simpl; lia|].
  destruct (ch_objects c1 !! (ch_lastStreamID c + 1)) as [v|] eqn:Hv; [|done].
  pose proof (ob_id _ _ _ (ni_objects _ _ Hinv _ v Hv)). lia.
Qed.

(** The frame that opens the stream is sent, and [newStream] returns. *)
Definition opened (id : Z) (frame : NewStream) (c : tunnelChannel) : tunnelChannel :=
  kto_wire [MkClientToServer id (Some (ClientToServer_NewStream frame))]
    (kset_creating None ({[id]} ∪ ch_handed c)
      (kset_table (ch_streams c) (alter (cset_watching true) id (ch_objects c)) c)).

Lemma opened_wanted c id frame id' :
  ch_creating c = Some (id, frame) -> wanted (opened id frame c) id' -> wanted c id'.
Proof.
  intros Hc [Hin|(fr & Hfr)]; [|done].
  apply elem_of_union in Hin as [->%elem_of_singleton|?]; [right; eauto|by left].
Qed.

Lemma object_handed c id frame v :
  ch_creating c = Some (id, frame) -> client_object_ok c id v ->
  client_object_ok (opened id frame c) id (cset_watching true v).
Proof.
  intros Hc [O1 O2 O3 O4 O5 O6]. pose proof (opened_wanted c id frame id Hc) as Hw.
  split; simpl; auto; try done.
  - destruct O2 as (W & ov & ? & ? & ? & [J1 J2 J3 J4 J5 J6 J7]).
    exists W, ov. split_and!; try done; tauto.
  - intros _. by left.
  - intros []. apply elem_of_union. left. by apply elem_of_singleton.
Qed.

Lemma object_unhanded c id frame id' v :
  ch_creating c = Some (id, frame) -> id' <> id -> client_object_ok c id' v ->
  client_object_ok (opened id frame c) id' v.
Proof.
  intros Hc Hne [O1 O2 O3 O4 O5 O6]. pose proof (opened_wanted c id frame id' Hc) as Hw.
  split; simpl; auto.
  - intros [->%elem_of_singleton|?]%elem_of_union; [done|auto].
  - intros Hin. apply O4. intros ?. apply Hin, elem_of_union. by right.
Qed.

Lemma wire_ok_opens c id frame :
  wire_ok c -> id = ch_lastStreamID c -> 0 <= id ->
  (forall id', id' ∈ ch_handed c -> id' < id) -> frame_ok frame -> wire_ok (opened id frame c).
Proof.
  intros (Hwf & Hms & Hnew) Hid Hpos Hlt Hframe. split_and!; simpl.
  - apply well_formed_snoc; [done|]. simpl. split; [done|].
    intros m Hm _. apply Hlt. by destruct (Hms m Hm).
  - intros m [Hm|Hm]%elem_of_app.
    + destruct (Hms m Hm) as [? ?]. split; [|done]. apply elem_of_union. by right.
    + apply list_elem_of_singleton in Hm as ->. simpl. split.
      * apply elem_of_union. left. by apply elem_of_singleton.
      * by intros fr [= <-].
  - intros id' [->%elem_of_singleton|Hin]%elem_of_union.
    + exists (MkClientToServer id (Some (ClientToServer_NewStream frame))). split; [|done].
      apply elem_of_app. right. by apply list_elem_of_singleton.
    + destruct (Hnew id' Hin) as (m & Hm & ?). exists m. split; [|done]. apply elem_of_app. by left.
Qed.

Lemma inv_newStream_end n e c c' :
  channel_inv n c -> newStream_end e c = Some c' -> channel_inv n c'.
Proof.
  intros [I1 I2 I3 I4 I5 I6 I7 I8 I9 I10 I11]. unfold newStream_end.
  destruct (ch_creating c) as [[id frame]|] eqn:Hc; [|done].
  destruct (I10 id frame eq_refl) as (Hid & Hnew & [v Hv] & Hframe).
  destruct e as [e|]; intros [= <-].
  - split; simpl; auto; try done.
    + intros id' Hin. unfold in_table in Hin. simpl in Hin.
      destruct (ch_streams c) as [ids|] eqn:Hids; [|done]. simpl in Hin.
      apply bool_decide_eq_true, elem_of_difference in Hin as [Hin _].
      apply I6. unfold in_table. rewrite Hids. by apply bool_decide_eq_true.
    + destruct (ch_finished c).
      * destruct I7 as (-> & ? & ?). done.
      * destruct I7 as [? ?]. split; [|done]. by destruct (ch_streams c).
    + intros id' w Hw. destruct (I8 id' w Hw) as [O1 O2 O3 O4 O5 O6].
      assert (Hwant : wanted (kset_creating None (ch_handed c) (channel_removeStream id c)) id' ->
        id' ∈ ch_handed c) by (intros [?|(fr & Hfr)]; done).
      split; simpl; auto.
      * intros Hf Hwt Hd. apply Hwant in Hwt. specialize (O5 Hf ltac:(by left) Hd).
        assert (id' <> id) by congruence.
        unfold in_table in *. simpl. destruct (ch_streams c) as [ids|]; [|done]. simpl.
        apply bool_decide_eq_true in O5. apply bool_decide_eq_true, elem_of_difference.
        split; [done|]. by rewrite elem_of_singleton.
      * intros Hf Hwt. apply O6; [done|]. left. by apply Hwant.
  - assert (Halter : forall id', is_Some (ch_objects c !! id') ->
      is_Some (alter (cset_watching true) id (ch_objects c) !! id')).
    { intros id' [w Hw]. destruct (decide (id' = id)) as [->|Hne].
      - rewrite lookup_alter_eq, Hw. by eexists.
      - rewrite lookup_alter_ne, Hw by done. by eexists. }
    split; simpl; auto; try done.
    + intros id' Hin. destruct (I6 id' Hin) as (w & Hw & Hd). destruct (decide (id' = id)) as [->|Hne].
      * rewrite lookup_alter_eq, Hw. simpl. by eexists.
      * rewrite lookup_alter_ne by done. eauto.
    + intros id' w Hw. destruct (decide (id' = id)) as [->|Hne].
      * rewrite lookup_alter_eq, Hv in Hw. injection Hw as <-.
        by apply (object_handed c id frame v), I8.
      * rewrite lookup_alter_ne in Hw by done. apply (object_unhanded c id frame); auto.
    + intros id' [->%elem_of_singleton|Hin]%elem_of_union; apply Halter; [by eexists|by apply I9].
    + apply wire_ok_opens; try done; [lia|]. intros id' Hin. destruct (I9 id' Hin) as [w Hw].
      destruct (ob_id _ _ _ (I8 id' w Hw)). assert (id' <> id) by congruence. lia.
Qed.

(** *** The receive loop *)
Lemma select_revision_range revs use v0 :
  use = REVISION_ZERO \/ use ∈ supportedRevisions ->
  fst (select_revision use v0 revs) = REVISION_ZERO \/
  fst (select_revision use v0 revs) ∈ supportedRevisions.
Proof.
  revert use v0. induction revs as [|rev revs IH]; intros use v0 Huse; simpl; [done|].
  destruct (rev =? REVISION_ZERO); [by apply IH|]. case_bool_decide as Hrev; [|by apply IH].
  apply IH. destruct (Z.max_spec use rev) as [[_ ->]|[_ ->]]; auto.
Qed.

Lemma check_settings_ok reverse s rev :
  check_settings reverse s = (rev, None) -> is_u32 (Settings_InitialWindowSize s) -> settings_ok rev s.
Proof.
  unfold check_settings. destruct (tunnelRoles reverse) as [peer self].
  pose proof (select_revision_range (SupportedProtocolRevisions s) REVISION_ZERO false ltac:(by left)) as Hr.
  destruct (select_revision _ _ _) as [use v0]. simpl in Hr.
  destruct (Z.eqb_spec use REVISION_ZERO) as [|Hne]; [by destruct v0|].
  destruct (Z.ltb_spec (Settings_InitialWindowSize s) (minWindowSize use)); [done|].
  intros [= <-] Hw. destruct Hr; [done|]. by split_and!.
Qed.

Lemma inv_kset_settings n c s rev :
  channel_inv n c -> ch_settings c = None -> ch_loop c = LSettings ->
  match s with Some s => settings_ok rev s | None => True end ->
  channel_inv n (kset_loop (match s with Some _ => LReceiving None | None => LSettings end) (kset_settings s rev c)).
Proof.
  intros [I1 I2 I3 I4 I5 I6 I7 I8 I9 I10 I11] Hset Hloop Hs.
  assert (Hsame : forall c', ch_lastStreamID c' = ch_lastStreamID c -> ch_opts c' = ch_opts c ->
    ch_finished c' = ch_finished c -> ch_handed c' = ch_handed c -> ch_streams c' = ch_streams c ->
    ch_creating c' = ch_creating c -> forall id v, client_object_ok c id v -> client_object_ok c' id v).
  { intros c' E1 E2 E3 E4 E5 E6 id v Hv. apply (client_object_same c); try done; [lia| |].
    - unfold in_table. by rewrite E5. - unfold wanted. by rewrite E4, E6. }
  split; simpl; auto; [by intros s0 ->|by destruct s].
Qed.

Lemma inv_recv_settings n res c :
  channel_inv n c -> channel_label_ok (KRecv res) -> ch_loop c = LSettings ->
  channel_inv n (recv_settings res c).
Proof.
  intros Hinv Hl Hloop. unfold recv_settings.
  assert (Hset : ch_settings c = None) by (pose proof (ni_loop _ _ Hinv) as I; by rewrite Hloop in I).
  destruct (tunnelRoles (ch_reverse c)) as [peer self].
  destruct res as [e|m]; [by apply inv_loop_close|].
  destruct (negb _); [by apply inv_loop_close|]. simpl in Hl.
  destruct (S2C_Frame m) as [[s|md|mm|d|cl|w]|]; try by apply inv_loop_close.
  destruct (check_settings (ch_reverse c) s) as [rev [e|]] eqn:Hc.
  - pose proof (inv_kset_settings n c None rev Hinv Hset Hloop I) as Hc1.
    apply (inv_loop_close n (Some e)) in Hc1. unfold loop_close, channel_close in *. simpl in *.
    by destruct (ch_finished c).
  - apply (inv_kset_settings n c (Some s) rev Hinv Hset Hloop). by eapply check_settings_ok.
Qed.

Lemma inv_dispatch n c o id :
  channel_inv n c -> ch_loop c = LReceiving o -> channel_inv n (kset_loop (LReceiving (Some id)) c).
Proof.
  intros [I1 I2 I3 I4 I5 I6 I7 I8 I9 I10 I11] Hloop. rewrite Hloop in I5.
  split; simpl; auto. intros id' v Hv. by eapply client_object_same; eauto.
Qed.

Lemma inv_ctx n e c : channel_inv n c -> ch_ctxErr c = None -> channel_inv n (kset_ctx (Some e) c).
Proof.
  intros [I1 I2 I3 I4 I5 I6 I7 I8 I9 I10 I11] Hc. split; simpl; auto.
  - destruct (ch_finished c); [|done]. by destruct I7 as (? & ? & ?).
  - intros id' v Hv. by eapply client_object_same; eauto.
Qed.

Lemma kstream_inv id l c c' :
  channel_step (KStream id l) c = Some c' ->
  run_client id l c = Some c' /\ (id ∈ ch_handed c \/ by_caller l = false).
Proof.
  intros Hs. assert (Hs' : (if by_caller l && negb (bool_decide (id ∈ ch_handed c)) then None
    else run_client id l c) = Some c') by (by destruct l).
  destruct (by_caller l); [|by auto]. simpl in Hs'.
  destruct (bool_decide (id ∈ ch_handed c)) eqn:Hin; [|done].
  apply bool_decide_eq_true in Hin. auto.
Qed.

Lemma channel_inv_step n l c c' :
  channel_inv n c -> (ch_loop c = LSettings -> channel_label_ok l) -> n < MaxInt64 ->
  channel_step l c = Some c' -> channel_inv (n + 1) c'.
Proof.
  intros Hinv Hl Hn Hs. destruct l as [|res|a|e|id l| | |e].
  - apply inv_later. cbn [channel_step] in Hs. pose proof (ni_loop _ _ Hinv) as Hloop.
    destruct (ch_loop c) eqn:Hlp; try done. destruct (ch_serverSendsSettings c); injection Hs as <-.
    + destruct Hinv as [I1 I2 I3 I4 I5 I6 I7 I8 I9 I10 I11]. split; simpl; auto.
      intros id' v Hv. by eapply client_object_same; eauto.
    + by apply inv_loop_close.
  - apply inv_later. cbn [channel_step] in Hs. destruct (ch_loop c) as [| |o|] eqn:Hlp; try done.
    + injection Hs as <-. apply inv_recv_settings; auto.
    + destruct (channel_loop_idle o c); [|done]. unfold recv_frame in Hs.
      destruct res as [e|m]; [injection Hs as <-; by apply inv_loop_close|].
      destruct (channel_getStream (S2C_StreamId m) c); [|by simplify_eq|injection Hs as <-; by apply inv_loop_close].
      apply (inv_run_client n (S2C_StreamId m) (CFrame (S2C_Frame m)) _ c'
        (inv_dispatch n c o _ Hinv Hlp) (or_intror eq_refl) Hs).
  - cbn [channel_step] in Hs. destruct (ch_creating c) eqn:Hc; [done|].
    destruct (newStream_begin a c) as [|[c1 e]] eqn:Hb; [done|]. injection Hs as <-.
    by eapply inv_newStream_begin.
  - apply inv_later. by eapply inv_newStream_end.
  - apply inv_later. apply kstream_inv in Hs as [Hr Hmay]. by eapply inv_run_client.
  - apply inv_later. injection Hs as <-. by apply inv_close.
  - apply inv_later. cbn [channel_step] in Hs. destruct (_ && _); [|done].
    destruct (ch_settings c); injection Hs as <-; [done|by apply inv_close].
  - apply inv_later. cbn [channel_step] in Hs. destruct (ch_ctxErr c) eqn:Hc; [done|].
    injection Hs as <-. by apply inv_ctx.
Qed.

Lemma channel_run_inv sends reverse secure opts ctxErr ls c :
  opts_ok opts -> Forall channel_label_ok ls -> len ls <= MaxInt64 ->
  run channel_step ls (newTunnelChannel sends reverse secure opts ctxErr) = Some c ->
  channel_inv (len ls) c.
Proof.
  intros Hopts Hls Hlen Hrun. revert ls c Hrun Hls Hlen.
  apply (run_history channel_step (fun ls c => Forall channel_label_ok ls -> len ls <= MaxInt64 ->
    channel_inv (len ls) c)).
  - intros _ _. by apply channel_start_inv.
  - intros ls l c c' IH Hs [Hls Hl]%Forall_app Hlen. rewrite len_app in *.
    change (len [l]) with 1 in *. eapply channel_inv_step; [apply IH; [done|lia]| |lia|done].
    intros _. by apply Forall_cons_1 in Hl as [? _].
Qed.
End ChannelInvariant.

(** ** Properties *)
Section ChannelProperties.
Context `{StatusLib} `{MetadataAppend}.

(** The latest revision that both ends support. *)
Definition latest_common (revs : list Z) (rev : Z) : Prop :=
  rev ∈ supportedRevisions /\ rev ∈ revs /\
  forall r, r ∈ supportedRevisions -> r ∈ revs -> r <= rev.

Lemma select_revision_spec revs use v0 :
  0 <= use ->
  let rev := fst (select_revision use v0 revs) in
  use <= rev /\ (rev = use \/ rev ∈ supportedRevisions /\ rev ∈ revs) /\
  forall r, r ∈ supportedRevisions -> r ∈ revs -> r <= rev.
Proof.
  revert use v0. induction revs as [|r revs IH]; intros use v0 Huse; simpl.
  - split_and!; [lia|by left|]. by intros r _ ?%not_elem_of_nil.
  - assert (Hskip : forall v0, ~ r ∈ supportedRevisions ->
      let rev := fst (select_revision use v0 revs) in
      use <= rev /\ (rev = use \/ rev ∈ supportedRevisions /\ rev ∈ r :: revs) /\
      forall r', r' ∈ supportedRevisions -> r' ∈ r :: revs -> r' <= rev).
    { intros v1 Hnot. destruct (IH use v1 Huse) as (I1 & I2 & I3). simpl. split_and!; [done| |].
      - destruct I2 as [->|[? ?]]; [by left|right]. split; [done|]. by apply list_elem_of_further.
      - intros r' Hr' [->|Hin]%elem_of_cons; [done|by apply I3]. }
    destruct (Z.eqb_spec r REVISION_ZERO) as [->|Hne].
    { apply Hskip. intros Hin. unfold supportedRevisions in Hin.
      by rewrite !elem_of_cons, elem_of_nil in Hin; destruct Hin as [|[|[]]]. }
    case_bool_decide as Hin; [|by apply Hskip].
    destruct (IH (Z.max use r) v0 ltac:(lia)) as (I1 & I2 & I3). split_and!; [lia| |].
    + destruct I2 as [->|[? ?]].
      * destruct (Z.max_spec use r) as [[_ ->]|[_ ->]]; [right|by left].
        split; [done|]. by apply list_elem_of_here.
      * right. split; [done|]. by apply list_elem_of_further.
    + intros r' Hr' [->|Hr'']%elem_of_cons; [lia|by apply I3].
Qed.

Lemma check_settings_spec reverse s :
  match check_settings reverse s with
  | (rev, None) => latest_common (SupportedProtocolRevisions s) rev /\
                   minWindowSize rev <= Settings_InitialWindowSize s
  | (_, Some e) => (exists st, e = StatusError st /\ (st_code st = FailedPrecondition \/ st_code st = Internal)) /\
                   forall rev, latest_common (SupportedProtocolRevisions s) rev ->
                     Settings_InitialWindowSize s < minWindowSize rev
  end.
Proof.
  unfold check_settings. destruct (tunnelRoles reverse) as [peer self].
  destruct (select_revision_spec (SupportedProtocolRevisions s) REVISION_ZERO false ltac:(done))
    as (I1 & I2 & I3).
  destruct (select_revision _ _ _) as [use v0]. simpl in *.
  destruct (Z.eqb_spec use REVISION_ZERO) as [->|Hne].
  - assert (Hno : forall rev, latest_common (SupportedProtocolRevisions s) rev ->
      Settings_InitialWindowSize s < minWindowSize rev).
    { intros rev (Hs & Hin & _). specialize (I3 rev Hs Hin). exfalso.
      unfold supportedRevisions in Hs. rewrite !elem_of_cons, elem_of_nil in Hs.
      unfold REVISION_ZERO, REVISION_ONE, REVISION_TWO in *. lia. }
    destruct v0; (split; [eexists; split; [done|by left]|done]).
  - destruct I2 as [|[Hs Hin]]; [done|].
    assert (Hl : latest_common (SupportedProtocolRevisions s) use) by (by split_and!).
    destruct (Z.ltb_spec (Settings_InitialWindowSize s) (minWindowSize use)) as [Hlt|Hge]; [|done].
    split; [eexists; split; [done|by right]|]. intros rev (Hs' & Hin' & Hmax).
    assert (rev = use) as ->; [|done]. specialize (Hmax use Hs Hin). specialize (I3 rev Hs' Hin'). lia.
Qed.

(** C24: The settings of the server establish the channel exactly when they come
    first, with ID -1, name a revision that this end supports, and give a window
    in which a message can be started; the revision in use is then the latest
    that both ends support.  Otherwise the channel is closed, with an error that
    says why. *)
Theorem channel_negotiates_latest m c :
  ch_loop c = LSettings -> ch_settings c = None -> ch_finished c = false ->
  let c' := recv_settings (inr m) c in
  (forall s, ch_settings c' = Some s <->
     S2C_StreamId m = -1 /\ S2C_Frame m = Some (ServerToClient_Settings s) /\
     exists rev, latest_common (SupportedProtocolRevisions s) rev /\
                 minWindowSize rev <= Settings_InitialWindowSize s) /\
  (forall s, ch_settings c' = Some s ->
     latest_common (SupportedProtocolRevisions s) (ch_useRevision c')) /\
  (ch_settings c' = None -> ch_finished c' = true /\ exists st, Err c' = Some (StatusError st)).
Proof.
  intros Hloop Hset Hfin. unfold recv_settings. destruct (tunnelRoles (ch_reverse c)) as [peer self].
  assert (Hclose : forall st c0, ch_settings c0 = None -> ch_finished c0 = false ->
    ch_settings (loop_close (Some (StatusError st)) c0) = None /\
    ch_finished (loop_close (Some (StatusError st)) c0) = true /\
    Err (loop_close (Some (StatusError st)) c0) = Some (StatusError st)).
  { intros st c0 E1 E2. unfold loop_close, channel_close. rewrite E2. by split_and!. }
  assert (Hfail : forall st c0, ch_settings c0 = None -> ch_finished c0 = false ->
    (forall s, S2C_StreamId m = -1 -> S2C_Frame m = Some (ServerToClient_Settings s) ->
       forall rev, latest_common (SupportedProtocolRevisions s) rev ->
         Settings_InitialWindowSize s < minWindowSize rev) ->
    let c' := loop_close (Some (StatusError st)) c0 in
    (forall s, ch_settings c' = Some s <->
     S2C_StreamId m = -1 /\ S2C_Frame m = Some (ServerToClient_Settings s) /\
     exists rev, latest_common (SupportedProtocolRevisions s) rev /\
                 minWindowSize rev <= Settings_InitialWindowSize s) /\
    (forall s, ch_settings c' = Some s ->
     latest_common (SupportedProtocolRevisions s) (ch_useRevision c')) /\
    (ch_settings c' = None -> ch_finished c' = true /\ exists st, Err c' = Some (StatusError st))).
  { intros st c0 E1 E2 Hno. destruct (Hclose st c0 E1 E2) as (F1 & F2 & F3). cbv zeta. rewrite F1.
    split_and!; [|done|intros _; split; [done|by eexists]]. intros s. split; [done|].
    intros (Hid & Hf & rev & Hl & Hw). specialize (Hno s Hid Hf rev Hl). lia. }
  destruct (Z.eqb_spec (S2C_StreamId m) (-1)) as [Hid|Hid]; simpl; [|by apply Hfail].
  destruct (S2C_Frame m) as [[s|md|mm|d|cl|w]|] eqn:Hframe; try by apply Hfail.
  pose proof (check_settings_spec (ch_reverse c) s) as Hspec.
  destruct (check_settings (ch_reverse c) s) as [rev [e|]].
  - destruct Hspec as [(st & -> & _) Hno]. apply Hfail; try done. by intros s' _ [= <-].
  - destruct Hspec as [Hl Hw]. simpl. split_and!; [|by intros s' [= <-]|done].
    intros s'. split; [intros [= <-]; eauto|]. by intros (_ & [= <-] & _).
Qed.

Lemma closed_step l c c' :
  ch_finished c = true -> channel_step l c = Some c' ->
  ch_finished c' = true /\ ch_err c' = ch_err c /\ (ch_err c <> None -> Err c' = Err c).
Proof.
  intros Hf Hs.
  assert (Hsame : ch_finished c' = ch_finished c -> ch_err c' = ch_err c ->
    ch_finished c' = true /\ ch_err c' = ch_err c /\ (ch_err c <> None -> Err c' = Err c)).
  { intros E1 E2. unfold Err. rewrite E1, E2. split_and!; [done|done|]. by destruct (ch_err c). }
  assert (Hloop : forall e, loop_close e c = kset_loop LExited c)
    by (intros e; unfold loop_close, channel_close; by rewrite Hf).
  destruct l as [|res|a|e|id l| | |e].
  - cbn [channel_step] in Hs. destruct (ch_loop c); try done.
    destruct (ch_serverSendsSettings c); injection Hs as <-; rewrite ?Hloop in *; by apply Hsame.
  - cbn [channel_step] in Hs. destruct (ch_loop c) as [| |o|]; try done.
    + injection Hs as <-. unfold recv_settings in *. destruct (tunnelRoles _).
      assert (Hloop' : forall s rev e, loop_close e (kset_settings s rev c)
          = kset_loop LExited (kset_settings s rev c))
        by (intros ? ? ?; unfold loop_close, channel_close; simpl; by rewrite Hf).
      destruct res as [e|m]; [rewrite Hloop in *; by apply Hsame|].
      destruct (negb _); [rewrite Hloop in *; by apply Hsame|].
      destruct (S2C_Frame m) as [[?|?|?|?|?|?]|]; rewrite ?Hloop in *; try by apply Hsame.
      destruct (check_settings _ _) as [rev [e|]]; rewrite ?Hloop' in *; by apply Hsame.
    + destruct (channel_loop_idle o c); [|done]. unfold recv_frame in Hs.
      destruct res as [e|m]; [injection Hs as <-; rewrite Hloop in *; by apply Hsame|].
      destruct (channel_getStream _ c).
      * apply run_client_inv in Hs as (v & v' & obs & _ & _ & _ & ->). by apply Hsame.
      * by simplify_eq.
      * injection Hs as <-. rewrite Hloop in *. by apply Hsame.
  - cbn [channel_step] in Hs. destruct (ch_creating c); [done|].
    unfold newStream_begin, allocateStream in Hs. rewrite Hf in Hs. by simplify_eq.
  - cbn [channel_step] in Hs. unfold newStream_end in Hs.
    destruct (ch_creating c) as [[id fr]|], e; simplify_eq; by apply Hsame.
  - apply kstream_inv in Hs as [(v & v' & obs & _ & _ & _ & ->)%run_client_inv _]. by apply Hsame.
  - injection Hs as <-. unfold channel_close in *. rewrite Hf in *. by apply Hsame.
  - cbn [channel_step] in Hs. destruct (_ && _); [|done].
    destruct (ch_settings c); injection Hs as <-; [by apply Hsame|].
    unfold channel_close in *. rewrite Hf in *. by apply Hsame.
  - cbn [channel_step] in Hs. destruct (ch_ctxErr c); [done|]. injection Hs as <-. by apply Hsame.
Qed.

Lemma closed_run ls c c' :
  ch_finished c = true -> run channel_step ls c = Some c' ->
  ch_finished c' = true /\ ch_err c' = ch_err c /\ (ch_err c <> None -> Err c' = Err c).
Proof.
  revert c. induction ls as [|l ls IH]; intros c Hf Hrun; simpl in Hrun; [by simplify_eq|].
  destruct (channel_step l c) as [c1|] eqn:Hs; [|done].
  destruct (closed_step l c c1 Hf Hs) as (F1 & F2 & F3).
  destruct (IH c1 F1 Hrun) as (G1 & G2 & G3). split_and!; [done|congruence|].
  intros Hne. rewrite G3, F3 by congruence. done.
Qed.

Context (sends reverse secure : bool) (opts : tunnelOpts) (ctxErr : option error).
Context (Hopts : opts_ok opts).

Definition channel_start : tunnelChannel := newTunnelChannel sends reverse secure opts ctxErr.

Lemma channel_inv_run ls c :
  Forall channel_label_ok ls -> len ls <= MaxInt64 ->
  run channel_step ls channel_start = Some c -> channel_inv (len ls) c.
Proof. intros. by eapply channel_run_inv. Qed.

(** C23: A channel is closed once and for good.  Whatever happens after the
    first [close], the channel stays closed, [Err] keeps reporting the first
    cause, and a call of [newStream] does nothing but fail, with the code of that
    cause, or with [Canceled] when the channel was closed in an orderly way. *)
Theorem channel_closed_for_good ls c ls' c' a :
  Forall channel_label_ok ls -> len ls <= MaxInt64 ->
  run channel_step ls channel_start = Some c -> ch_finished c = true ->
  run channel_step ls' c = Some c' ->
  ch_finished c' = true /\ Err c' = Err c /\
  newStream_begin a c' = Returns (c', Some (closed_error c)) /\
  exists st, closed_error c = StatusError st /\
    st_code st = match Err c with Some e => st_code (toStatus (Some e)) | None => Canceled end.
Proof.
  intros Hls Hlen Hrun Hf Hrun'. pose proof (channel_inv_run ls c Hls Hlen Hrun) as Hinv.
  pose proof (ni_finished _ _ Hinv) as Hfin. rewrite Hf in Hfin. destruct Hfin as (_ & He & _).
  destruct (closed_run ls' c c' Hf Hrun') as (F1 & F2 & F3). split_and!; [done|by apply F3| |].
  - unfold newStream_begin, allocateStream. rewrite F1. unfold closed_error. by rewrite F2.
  - unfold closed_error, Err. destruct (ch_err c) as [e|]; [|done].
    destruct (is_EOF e); by eexists.
Qed.

(** Closing the channel ends every RPC.  However the channel came to be
    closed, a stream that a caller has got and whose own goroutines have nothing
    left to do is finished: the caller's pending and later reads, sends and
    header requests all return. *)
Theorem channel_close_ends_rpcs ls c id v :
  Forall channel_label_ok ls -> len ls <= MaxInt64 ->
  run channel_step ls channel_start = Some c -> ch_finished c = true ->
  id ∈ ch_handed c -> ch_objects c !! id = Some v ->
  (forall l, client_internal l = true -> client_step l v = None) ->
  cs_done (cc_str v) <> None /\ client_ended v.
Proof.
  intros Hls Hlen Hrun Hf Hid Hv Hstuck. pose proof (channel_inv_run ls c Hls Hlen Hrun) as Hinv.
  destruct (ni_objects _ _ Hinv id v Hv) as [_ (W & ov & _ & _ & _ & Hc) Hw _ _ Hclosed].
  assert (Hd : cs_done (cc_str v) <> None).
  { destruct (Hw Hid) as [Hwatch|?]; [|done]. intros Hd.
    specialize (Hclosed Hf ltac:(by left) Hd).
    pose proof (Hstuck CWatch eq_refl) as Hs. cbn [client_step] in Hs.
    rewrite Hwatch in Hs. by destruct (cs_ctxErr (cc_str v)). }
  split; [done|]. by eapply client_stuck_ended.
Qed.

(** On an established channel [newStream] does not panic when the caller's
    context has outgoing metadata or no credentials are given per RPC, and no
    [WithTunnelChannel] has the nil pointer. *)
Theorem new_stream_no_panic c a :
  ch_settings c <> None ->
  na_headers a <> None \/ (forall cr, PerRPCCredsCallOption cr ∉ na_opts a) ->
  tunnelChannelCallOption None ∉ na_opts a ->
  newStream_begin a c <> Panics.
Proof.
  intros Hset Ha Hnil. assert (Happ : forall kvs md, md <> None ->
    exists md', append_all md kvs = Some md' /\ md' <> None).
  { intros kvs. induction kvs as [|[k x] kvs IH]; intros md Hmd; simpl; [by eexists|].
    destruct md as [m|]; [|done]. destruct (md_Append_some m k x) as (m' & -> & _). by apply IH. }
  assert (Hopt : forall os secure md, md <> None \/ (forall cr, PerRPCCredsCallOption cr ∉ os) ->
    tunnelChannelCallOption None ∉ os -> apply_call_options secure md os <> Panics).
  { intros os sec. induction os as [|o os IH]; intros md Hmd Hnil'; [done|].
    assert (Hnil'' : tunnelChannelCallOption None ∉ os) by (intros Hin; by eapply Hnil', list_elem_of_further).
    assert (Hmd' : md <> None \/ (forall cr, PerRPCCredsCallOption cr ∉ os)).
    { destruct Hmd as [?|Hno]; [by left|right]. intros cr Hin. by eapply Hno, list_elem_of_further. }
    destruct o as [| | |cr|[loc|]|]; simpl; try by apply IH.
    2: by destruct Hnil'; apply list_elem_of_here.
    destruct (_ && _); [done|]. destruct (cr_metadata cr) as [e|kvs]; [done|].
    destruct Hmd as [Hmd|Hno]; [|by destruct (Hno cr); apply list_elem_of_here].
    destruct (Happ kvs md Hmd) as (md' & -> & Hmd''). by apply IH; [left|]. }
  unfold newStream_begin, allocateStream. destruct (ch_finished c); [done|].
  destruct (_ <? 0); [done|]. destruct (in_table _ _); [done|].
  specialize (Hopt (na_opts a) (ch_isSecure (kset_last (i64 (ch_lastStreamID c + 1)) c)) (na_headers a) Ha Hnil).
  destruct (apply_call_options _ _ _) as [|[e|md]]; [done|done|]. simpl.
  by destruct (ch_settings c).
Qed.
End ChannelProperties.

(** ** Examples *)
Module ExampleAppend.
#[local] Existing Instance ExampleMetadata.lib.
#[export] Program Instance lib : MetadataAppend := {|
  md_Append md k v :=
    match md with
    | None => None
    | Some m => Some (Some (<[to_lower k := md_lookup (Some m) (to_lower k) ++ [v]]> m))
    end;
|}.
Next Obligation. done. Qed.
Next Obligation.
  intros m k v. eexists. split; [done|]. unfold md_lookup at 1. by rewrite lookup_insert_eq.
Qed.
End ExampleAppend.

Module TunnelChannelExample.
#[local] Existing Instance ExampleStatus.lib.
#[local] Existing Instance ExampleMetadata.lib.
#[local] Existing Instance ExampleAppend.lib.

Definition opts : tunnelOpts := initOptions zero_options [].
Lemma example_opts_ok : opts_ok opts.
Proof. apply initOptions_ok. vm_compute. repeat split; congruence. Qed.

Definition step : channel_label -> tunnelChannel -> option tunnelChannel := channel_step.
Definition start : tunnelChannel := channel_start true false false opts None.
Definition at_end (ls : list channel_label) : tunnelChannel := default start (run step ls start).
Definition A : bytes := [Corelib.Init.Byte.x41].

Definition args (headers : MD) (os : list call_option) : new_stream_args :=
  NewStreamArgs None headers false true "/svc/Method" os.
Definition from_server (id : Z) (f : ServerToClientFrame) : channel_label :=
  KRecv (inr (MkServerToClient id (Some f))).

Definition established : list channel_label := [KStart; KRecv (inr (settings_message opts))].
(** Two RPCs; the server answers the first. *)
Definition working : list channel_label := established ++
  [KNewStream (args None []); KSendNew None; KStream 1 (CSendMsg (inr A)); KStream 1 (CSend LLoad);
   KStream 1 (CSend LCas); KStream 1 (CSend (LCall None)); KStream 1 (CSend LReturn);
   KNewStream (args None []); from_server 1 (ServerToClient_ResponseHeaders None); KSendNew None;
   from_server 1 (response_frame A 1 true); KStream 1 CRecv].
Definition closed : list channel_label := working ++ [KClose].
(** The goroutines of the second stream after the channel is closed. *)
Definition drained : list channel_label := closed ++
  [KStream 2 CWatch; KStream 2 CMeta; KStream 2 CDeferred; KStream 2 CCancelled; KStream 2 CPosted].

Definition creds : per_rpc_creds := Creds "creds" false (inr [("authorization", "token")]%string).

Definition idle_client (v : client_conf) : bool :=
  match c_call (cs_send (cc_str v)), c_posts (cs_send (cc_str v)), cc_finishing v, cc_posted v,
        cc_watching v with
  | None, O, None, [], false => true
  | _, _, _, _, _ => false
  end.

Lemma idle_client_stuck v l : idle_client v = true -> client_internal l = true -> client_step l v = None.
Proof.
  unfold idle_client. destruct (c_call _) eqn:E1; [done|]. destruct (c_posts _) eqn:E2; [|done].
  destruct (cc_finishing v) eqn:E3; [done|]. destruct (cc_posted v) eqn:E4; [|done].
  destruct (cc_watching v) eqn:E5; [done|]. intros _ Hl.
  destruct l as [| | |l| | | | | | | |]; try done; cbn [client_step];
    rewrite ?E3, ?E4, ?E5; try done; [simpl; by rewrite E2|].
  destruct (in_send l) eqn:Hin; [|done]. destruct l; try done; simpl; by rewrite E1.
Qed.

Definition second : client_conf :=
  default (unwatched (make_client_stream start (MkSettings [] 0) 2 (args None [])))
    (ch_objects (at_end drained) !! 2).
End TunnelChannelExample.

(** [newStream] panics in two situations that callers can bring about.  When
    the context given to [Start] is cancelled while the settings are awaited,
    [Start] can return the channel before the receive loop has closed it, and the
    nil settings are dereferenced; and credentials per RPC are appended to a nil
    map when the caller's context has no outgoing metadata. *)
Theorem new_stream_panics :
  (exists ls c, run (channel_step (H := ExampleStatus.lib) (H1 := ExampleAppend.lib)) ls
      TunnelChannelExample.start = Some c /\ ch_ctxErr c <> None /\
    newStream_begin (H := ExampleStatus.lib) (H1 := ExampleAppend.lib)
      (TunnelChannelExample.args None []) c = Panics) /\
  (exists ls c, run (channel_step (H := ExampleStatus.lib) (H1 := ExampleAppend.lib)) ls
      TunnelChannelExample.start = Some c /\ ch_settings c <> None /\
    newStream_begin (H := ExampleStatus.lib) (H1 := ExampleAppend.lib)
      (TunnelChannelExample.args None [PerRPCCredsCallOption TunnelChannelExample.creds]) c = Panics).
Proof.
  split.
  - exists [KStart; KCtx ContextCanceled]. eexists. split_and!; [vm_compute; reflexivity|done|done].
  - exists TunnelChannelExample.established. eexists. split_and!; [vm_compute; reflexivity|done|done].
Qed.

(** C40: The check for exhausted stream IDs comes one stream too late.  On a channel whose
    last stream has the ID [MaxInt64], the counter wraps around: the next call of
    [newStream] succeeds and sends the frame that opens a stream with the ID [MinInt64].  A
    server that has seen a stream answers this frame by ending the whole tunnel with an
    error.  Only the call of [newStream] after that is refused, with [ResourceExhausted]. *)
Theorem stream_ids_overflow `{StatusLib} `{MetadataAppend} QueryService c a closing s md :
  ch_finished c = false -> ch_creating c = None ->
  ch_lastStreamID c = MaxInt64 -> in_table MinInt64 c = false ->
  ch_settings c <> None -> apply_call_options (ch_isSecure c) (na_headers a) (na_opts a) = Returns (inr md) ->
  loop_idle s = true -> 0 <= ts_lastSeen s -> MinInt64 ∉ ts_streams s ->
  exists c' s' frame, let m := MkClientToServer MinInt64 (Some (ClientToServer_NewStream frame)) in
    (exists c1, newStream_begin a c = Returns (c1, None)) /\
    run channel_step [KNewStream a; KSendNew None] c = Some c' /\ ch_wire c' = ch_wire c ++ [m] /\
    server_step QueryService (TRecv closing (inr m)) s = Some s' /\
    ts_result s' = Some (Some (Errorf Internal
      "protocol error: cannot create stream ID %d: that ID has already been used" [AInt MinInt64])) /\
    forall b, newStream_begin b c' = Returns (c', Some (Errorf ResourceExhausted
      "all stream IDs exhausted (must create a new channel)" [])).
Proof.
  intros Hf Hcr Hlast Htab Hset Hmd Hidle Hseen Hnin.
  destruct (ch_settings c) as [st|] eqn:Est; [|done].
  assert (Hb : newStream_begin a c = Returns (kset_creating
    (Some (MinInt64, new_stream_frame (kset_last MinInt64 c) a md)) (ch_handed c)
    (kset_table ((fun ids => {[MinInt64]} ∪ ids) <$> ch_streams c)
      (<[MinInt64 := unwatched (make_client_stream (kset_last MinInt64 c) st MinInt64 a)]> (ch_objects c))
      (kset_last MinInt64 c)), None)).
  { unfold newStream_begin, allocateStream. rewrite Hf, Hlast.
    change (MaxInt64 <? 0) with false. change (i64 (MaxInt64 + 1)) with MinInt64. cbv iota.
    change (in_table MinInt64 (kset_last MinInt64 c)) with (in_table MinInt64 c). rewrite Htab.
    change (ch_isSecure (kset_last MinInt64 c)) with (ch_isSecure c). rewrite Hmd.
    change (ch_settings (kset_last MinInt64 c)) with (ch_settings c). by rewrite Est. }
  eexists _, _, (new_stream_frame (kset_last MinInt64 c) a md). split_and!.
  - by eexists.
  - cbn [run channel_step]. rewrite Hcr, Hb. reflexivity.
  - reflexivity.
  - cbn [server_step]. rewrite Hidle. cbn [serve_recv C2S_StreamId C2S_Frame].
    unfold createStream. rewrite bool_decide_false by done.
    destruct (Z.leb_spec MinInt64 (ts_lastSeen s)) as [_|Hlt]; [reflexivity|]. unfold MinInt64 in Hlt. lia.
  - reflexivity.
  - intros b. unfold newStream_begin, allocateStream. simpl. by rewrite Hf.
Qed.

Lemma channel_negotiates_latest_witness :
  latest_common supportedRevisions (ch_useRevision (recv_settings (H := ExampleStatus.lib)
    (inr (settings_message TunnelChannelExample.opts)) (TunnelChannelExample.at_end [KStart]))).
Proof.
  exact (proj1 (proj2 (channel_negotiates_latest (H := ExampleStatus.lib)
    (settings_message TunnelChannelExample.opts) (TunnelChannelExample.at_end [KStart])
    eq_refl eq_refl eq_refl)) (MkSettings supportedRevisions (initialWindowSize TunnelChannelExample.opts))
    ltac:(vm_compute; reflexivity)).
Defined.

Lemma channel_closed_for_good_witness :
  Err (TunnelChannelExample.at_end TunnelChannelExample.drained) = None.
Proof.
  exact (proj1 (proj2 (channel_closed_for_good (H := ExampleStatus.lib) (H1 := ExampleAppend.lib)
    true false false TunnelChannelExample.opts None TunnelChannelExample.example_opts_ok
    TunnelChannelExample.closed (TunnelChannelExample.at_end TunnelChannelExample.closed)
    [KStream 2 CWatch; KStream 2 CMeta; KStream 2 CDeferred; KStream 2 CCancelled; KStream 2 CPosted]
    (TunnelChannelExample.at_end TunnelChannelExample.drained) (TunnelChannelExample.args None [])
    ltac:(repeat constructor; vm_compute; congruence) ltac:(vm_compute; congruence)
    ltac:(vm_compute; reflexivity) ltac:(vm_compute; reflexivity) ltac:(vm_compute; reflexivity)))).
Defined.

Lemma channel_close_ends_rpcs_witness :
  cs_done (cc_str TunnelChannelExample.second) <> None.
Proof.
  exact (proj1 (channel_close_ends_rpcs (H := ExampleStatus.lib) (H1 := ExampleAppend.lib)
    true false false TunnelChannelExample.opts None TunnelChannelExample.example_opts_ok
    TunnelChannelExample.drained (TunnelChannelExample.at_end TunnelChannelExample.drained)
    2 TunnelChannelExample.second
    ltac:(repeat constructor; vm_compute; congruence) ltac:(vm_compute; congruence)
    ltac:(vm_compute; reflexivity) ltac:(vm_compute; reflexivity) ltac:(vm_compute; reflexivity)
    ltac:(vm_compute; reflexivity)
    (fun l => TunnelChannelExample.idle_client_stuck TunnelChannelExample.second l
       ltac:(vm_compute; reflexivity)))).
Defined.

Lemma new_stream_no_panic_witness :
  newStream_begin (H := ExampleStatus.lib) (H1 := ExampleAppend.lib)
    (TunnelChannelExample.args (Some ∅) [tunnelChannelCallOption (Some 1); PerRPCCredsCallOption TunnelChannelExample.creds])
    (TunnelChannelExample.at_end TunnelChannelExample.established) <> Panics.
Proof.
  exact (new_stream_no_panic (H := ExampleStatus.lib) (H1 := ExampleAppend.lib)
    (TunnelChannelExample.at_end TunnelChannelExample.established)
    (TunnelChannelExample.args (Some ∅) [tunnelChannelCallOption (Some 1); PerRPCCredsCallOption TunnelChannelExample.creds])
    ltac:(vm_compute; discriminate) ltac:(left; discriminate)
    ltac:(simpl; intros [?|[?|?%elem_of_nil]%elem_of_cons]%elem_of_cons; [discriminate..|contradiction])).
Defined.

Lemma stream_ids_overflow_witness :
  let c := kset_last MaxInt64 (TunnelChannelExample.at_end TunnelChannelExample.established) in
  exists c' s' frame, let m := MkClientToServer MinInt64 (Some (ClientToServer_NewStream frame)) in
    (exists c1, newStream_begin (H := ExampleStatus.lib) (H1 := ExampleAppend.lib)
      (TunnelChannelExample.args None []) c = Returns (c1, None)) /\
    run (channel_step (H := ExampleStatus.lib) (H1 := ExampleAppend.lib))
      [KNewStream (TunnelChannelExample.args None []); KSendNew None] c = Some c' /\
    ch_wire c' = ch_wire c ++ [m] /\
    server_step (H := ExampleStatus.lib) (H0 := ExampleMetadata.lib) TunnelServerExample.services
      (TRecv false (inr m)) (TunnelServerExample.at_end TunnelServerExample.trace) = Some s' /\
    ts_result s' = Some (Some (Errorf Internal
      "protocol error: cannot create stream ID %d: that ID has already been used" [AInt MinInt64])) /\
    forall b, newStream_begin (H := ExampleStatus.lib) (H1 := ExampleAppend.lib) b c'
      = Returns (c', Some (Errorf ResourceExhausted
      "all stream IDs exhausted (must create a new channel)" [])).
Proof.
  exact (stream_ids_overflow (H := ExampleStatus.lib) (H1 := ExampleAppend.lib)
    TunnelServerExample.services
    (kset_last MaxInt64 (TunnelChannelExample.at_end TunnelChannelExample.established))
    (TunnelChannelExample.args None []) false (TunnelServerExample.at_end TunnelServerExample.trace) None
    ltac:(vm_compute; reflexivity) ltac:(vm_compute; reflexivity) eq_refl ltac:(vm_compute; reflexivity)
    ltac:(vm_compute; discriminate) ltac:(vm_compute; reflexivity) ltac:(vm_compute; reflexivity)
    ltac:(vm_compute; discriminate) ltac:(vm_compute; discriminate)).
Defined.
