(* ===== verification/Invoke.v ===== *)
(** * Unary calls

    [Invoke] of tunnel_client.go: a whole RPC with one request and one response, as a
    goroutine that calls [newStream], [SendMsg], [CloseSend] and twice [RecvMsg] on a
    channel, while the receive loop, the other RPCs, the goroutines of its own stream
    and whoever closes the channel do their part in between.  The calls are those of
    TunnelChannel.v and ClientStream.v. *)
From stdpp Require Import gmap sets.
From S2P Require Import Prelude Status Protocol Options FlowSender FlowReceiver Reassembly Pipe.
From S2P Require Import ClientStream TunnelServer TunnelChannel.

(** The calls that [Invoke] makes, in their order. *)
Inductive invoke_call := CallNewStream | CallSendMsg | CallCloseSend | CallRecvMsg | CallExtra.

(** Where [Invoke] is.  [InOpening] is [newStream] inside [Send], with [streamCreation]
    held; [InSending] is [SendMsg] inside [sender.send]; [InReading] is a call of
    [RecvMsg], the second if [extra]; [InCancelling] is [RecvMsg] inside [cancelStream];
    and [InSeveral] is before [str.cancel()], with a second response.  A result comes
    with the call after which [Invoke] returned it. *)
Inductive invoke_pc :=
  | InCalled
  | InOpening (id : Z)
  | InSendMsg (id : Z)
  | InSending (id : Z)
  | InCloseSend (id : Z)
  | InReading (id : Z) (extra : bool)
  | InCancelling (id : Z) (extra : bool) (err : error)
  | InSeveral (id : Z)
  | InReturned (id : option Z) (from : invoke_call) (err : option error).

Record invoke_conf := InvokeConf { iv_channel : tunnelChannel; iv_pc : invoke_pc }.

Inductive invoke_label :=
  | IvOther (l : channel_label)               (** anything that [Invoke] does not do *)
  | IvNewStream
  | IvSent (sendErr : option error)           (** the [Send] of [newStream] returns *)
  | IvMarshalled (marshalled : error + bytes)
  | IvSend (l : send_label)
  | IvHalfClose (sendErr : option error)
  | IvRead                                    (** a read, or its going on *)
  | IvCancelled                               (** [cancelStream] returns *)
  | IvGiveUp.                                 (** [str.cancel()] *)

Definition several_responses : error :=
  Errorf Internal "unary RPC returned >1 response message" [].

(** Nobody but [Invoke] has its stream. *)
Definition stream_of (pc : invoke_pc) : option Z :=
  match pc with
  | InCalled | InOpening _ => None
  | InSendMsg id | InSending id | InCloseSend id | InReading id _ | InCancelling id _ _ | InSeveral id => Some id
  | InReturned id _ _ => id
  end.
Definition is_own (pc : invoke_pc) (l : channel_label) : bool :=
  match l with
  | KSendNew _ => match pc with InOpening _ => true | _ => false end
  | KStream id l => by_caller l && bool_decide (stream_of pc = Some id)
  | _ => false
  end.

(** The result that a call of [send] is about to return. *)
Definition send_result (v : client_conf) : option (option error) :=
  match c_call (cs_send (cc_str v)) with
  | Some k => match k_pc k with PRet err => Some err | _ => None end
  | None => None
  end.

Section Invoke.
Context `{StatusLib} `{MetadataAppend} (unmarshal : bytes -> option error).
Context (ctxErr : option error) (headers : MD) (method : string) (opts : list call_option).

Definition invoke_args : new_stream_args := NewStreamArgs ctxErr headers false false method opts.

(** After a call of [RecvMsg] that returned [err]. *)
Definition received_err (id : Z) (extra : bool) (err : option error) : invoke_pc :=
  match extra, err with
  | false, Some e => InReturned (Some id) CallRecvMsg (Some e)
  | false, None => InReading id true
  | true, Some e => InReturned (Some id) CallExtra (if is_EOF e then None else Some e)
  | true, None => InSeveral id
  end.

(** [RecvMsg], given what [readMsg] returns, and whether its call of [cancelStream]
    finishes the stream. *)
Definition read_returned (id : Z) (extra finishes : bool) (ret : read_return) : invoke_pc :=
  match rr_err ret with
  | Some e => if negb (rr_ok ret) && finishes then InCancelling id extra e else received_err id extra (Some e)
  | None => received_err id extra (unmarshal (default [] (rr_data ret)))
  end.

Definition invoke_step (l : invoke_label) (s : invoke_conf) : option invoke_conf :=
  let c := iv_channel s in
  let on (id : Z) (l : client_label) (next : client_conf -> client_conf -> invoke_pc) :=
    match ch_objects c !! id, channel_step (KStream id l) c with
    | Some v, Some c' =>
        match ch_objects c' !! id with
        | Some v' => Some (InvokeConf c' (next v v'))
        | None => None
        end
    | _, _ => None
    end in
  match l, iv_pc s with
  | IvOther l, pc =>
      if is_own pc l then None
      else match channel_step l c with Some c' => Some (InvokeConf c' pc) | None => None end
  | IvNewStream, InCalled =>
      match ch_creating c with
      | Some _ => None
      | None =>
          match newStream_begin invoke_args c with
          | Panics => None
          | Returns (c', Some e) => Some (InvokeConf c' (InReturned None CallNewStream (Some e)))
          | Returns (c', None) =>
              match ch_creating c' with
              | Some (id, _) => Some (InvokeConf c' (InOpening id))
              | None => None
              end
          end
      end
  | IvSent sendErr, InOpening id =>
      match newStream_end sendErr c with
      | Some c' => Some (InvokeConf c' match sendErr with
                                       | Some e => InReturned None CallNewStream (Some e)
                                       | None => InSendMsg id
                                       end)
      | None => None
      end
  | IvMarshalled m, InSendMsg id =>
      on id (CSendMsg m) (fun v _ =>
        match snd (client_SendMsg_begin m (cc_str v)) with
        | inl e => InReturned (Some id) CallSendMsg (Some e)
        | inr _ => InSending id
        end)
  | IvSend l, InSending id =>
      on id (CSend l) (fun v v' =>
        match c_call (cs_send (cc_str v')), send_result v with
        | None, Some (Some e) => InReturned (Some id) CallSendMsg (Some e)
        | None, Some None => InCloseSend id
        | _, _ => InSending id
        end)
  | IvHalfClose sendErr, InCloseSend id =>
      on id (CCloseSend sendErr) (fun v _ =>
        match snd (CloseSend sendErr (cc_str v)) with
        | Some e => InReturned (Some id) CallCloseSend (Some e)
        | None => InReading id false
        end)
  | IvRead, InReading id extra =>
      on id CRecv (fun v v' =>
        match cc_reading v', last (cc_reads v') with
        | None, Some ret => read_returned id extra (became_done v v') ret
        | _, _ => InReading id extra
        end)
  | IvCancelled, InCancelling id extra e =>
      match ch_objects c !! id with
      | Some v => match cc_finishing v with
                  | None => Some (InvokeConf c (received_err id extra (Some e)))
                  | Some _ => None
                  end
      | None => None
      end
  | IvGiveUp, InSeveral id =>
      Some (InvokeConf (kset_table (ch_streams c) (alter cancel_client id (ch_objects c)) c)
              (InReturned (Some id) CallExtra (Some several_responses)))
  | _, _ => None
  end.
End Invoke.

(** ** What others do to the stream of a call *)

(** No message will be taken from the receiver. *)
Definition drained {T} (r : receiver T) : Prop :=
  r_cancelled r = true \/ (r_closed r = true /\ r_items r = []).

Record caller_same (v v' : client_conf) : Prop := {
  os_server : cs_isServerStream (cc_str v') = cs_isServerStream (cc_str v);
  os_texts : cs_reverse (cc_str v') = cs_reverse (cc_str v) /\ cs_method (cc_str v') = cs_method (cc_str v);
  os_sent : cs_numSent (cc_str v') = cs_numSent (cc_str v);
  os_half : cs_halfClosed (cc_str v') = cs_halfClosed (cc_str v);
  os_reads : cc_reads v' = cc_reads v;
  os_readErr : cs_readErr (cc_str v') = cs_readErr (cc_str v);
  os_reading : cc_reading v' = cc_reading v;
  os_done : forall e, cs_done (cc_str v) = Some e -> cs_done (cc_str v') = Some e;
  os_ctx : forall e, cs_ctxErr (cc_str v) = Some e -> cs_ctxErr (cc_str v') = Some e;
  os_call : c_call (cs_send (cc_str v')) = c_call (cs_send (cc_str v));
  os_drained : drained (cs_receiver (cc_str v)) -> drained (cs_receiver (cc_str v'));
}.

Lemma caller_same_refl v : caller_same v v.
Proof. by split. Qed.

Lemma cancel_ctx_call e c : c_call (cancel_ctx e c) = c_call c.
Proof. unfold cancel_ctx. by destruct (c_ctx c). Qed.
Lemma cancel_ctx_keeps e c e' : c_ctx c = Some e' -> c_ctx (cancel_ctx e c) = Some e'.
Proof. unfold cancel_ctx. by intros E; rewrite E. Qed.

Lemma caller_same_cancel v : caller_same v (cancel_client v).
Proof.
  unfold cancel_client. split; simpl; try done.
  - intros e. unfold cs_ctxErr. simpl. apply cancel_ctx_keeps.
  - apply cancel_ctx_call.
Qed.

Lemma caller_same_watching b v : caller_same v (cset_watching b v).
Proof. by split. Qed.

Lemma caller_same_finish by_loop cancels err trailers v w :
  caller_same v w -> caller_same v (call_finish by_loop cancels err trailers w).
Proof.
  intros Hw. unfold call_finish, finishStream_cas. destruct (cs_done (cc_str w)) eqn:Hd; [done|].
  destruct Hw as [A1 A2 A3 A4 A5 A6 A7 A8 A9 A10 A11]. split; simpl; auto.
  intros e He. apply A8 in He. congruence.
Qed.

(** An action of a stream that its caller does not take. *)
Lemma other_action `{StatusLib} l v v' : by_caller l = false -> client_step l v = Some v' -> caller_same v v'.
Proof.
  assert (Henv : forall l c, match l with UAdd _ | UPost | LCancel _ => True | _ => False end ->
    send_step l (cs_send (cc_str v)) = Some c -> caller_same v (cset_str (cwith_send c (cc_str v)) v)).
  { intros l0 c Hl Hs.
    assert (Hsame : c_call c = c_call (cs_send (cc_str v)) /\
      forall e, c_ctx (cs_send (cc_str v)) = Some e -> c_ctx c = Some e).
    { destruct l0; try done; simpl in Hs; step_in Hs; (split; [done|]); simpl; intros e' He; congruence. }
    destruct Hsame as [E1 E2]. by split. }
  intros Hl Hs. destruct l as [frame| |m|l|sendErr| | | | | | |e]; try done; cbn [client_step] in Hs.
  - destruct (client_loop_busy v); [done|].
    assert (Hacc : forall f, caller_same v (cset_str (cwith_receiver
              (fst (accept response_measure f (cs_receiver (cc_str v)))) (cc_str v)) v)).
    { intros f. split; simpl; auto. unfold drained.
      destruct (accept_flags response_measure f (cs_receiver (cc_str v))) as [-> ->].
      intros [?|[Hcl Hi]]; [by left|]. right. split; [done|]. unfold accept. by rewrite Hcl. }
    assert (Hdo : caller_same v (cset_str (cc_str v) v)) by (by split).
    destruct frame as [[s|md|m|d|c|w]|]; cbn [acceptServerFrame] in Hs;
      try (injection Hs as <-; by apply caller_same_finish).
    + destruct (cs_gotHeaders (cc_str v)); injection Hs as <-; [done|by split].
    + specialize (Hacc (ServerToClient_ResponseMessage m)).
      destruct (accept _ _ _) as [r [e|]]; injection Hs as <-; [by apply caller_same_finish|done].
    + specialize (Hacc (ServerToClient_MoreResponseData d)).
      destruct (accept _ _ _) as [r [e|]]; injection Hs as <-; [by apply caller_same_finish|done].
    + destruct (w =? 0); [injection Hs as <-; by apply caller_same_refl|].
      destruct (send_step _ _) as [c|] eqn:Hc; [|done]. injection Hs as <-. by apply (Henv (UAdd w)).
  - destruct (send_step _ _) as [c|] eqn:Hc; [|done]. injection Hs as <-. by apply (Henv UPost).
  - destruct (cc_finishing v) as [[[] ? ?]|]; simplify_eq; by split.
  - destruct (cc_finishing v) as [[[] ? ?]|]; simplify_eq. split; simpl; auto; try done.
    + intros e. unfold cs_ctxErr. simpl. apply cancel_ctx_keeps.
    + apply cancel_ctx_call.
    + intros [?|[_ ?]]; [by left|by right].
  - destruct (cc_finishing v) as [[[] ? ?]|]; simplify_eq; split; simpl; auto; try done. intros _. by left.
  - destruct (cc_posted v); simplify_eq; by split.
  - destruct (cc_watching v), (cs_ctxErr (cc_str v)); simplify_eq. simpl.
    pose proof (caller_same_finish false true (Some e) None v v (caller_same_refl v)) as Hf.
    destruct Hf as [A1 A2 A3 A4 A5 A6 A7 A8 A9 A10 A11]. by split.
  - destruct (send_step _ _) as [c|] eqn:Hc; [|done]. injection Hs as <-. by apply (Henv (LCancel e)).
Qed.

Section Others.
Context `{StatusLib} `{MetadataAppend}.

Lemma close_moves err c id v :
  ch_objects c !! id = Some v ->
  exists v', ch_objects (fst (channel_close err c)) !! id = Some v' /\ (v' = v \/ v' = cancel_client v).
Proof.
  intros Hv. unfold channel_close. destruct (ch_finished c); [eauto|]. simpl.
  rewrite map_lookup_imap, Hv. simpl. eexists. split; [done|]. unfold cancel_in_table.
  destruct (ch_streams c); [|by left]. case_bool_decide; [by right|by left].
Qed.

Lemma close_handed err c : ch_handed (fst (channel_close err c)) = ch_handed c.
Proof. unfold channel_close. by destruct (ch_finished c). Qed.
Lemma close_creating err c : ch_creating (fst (channel_close err c)) = ch_creating c.
Proof. unfold channel_close. by destruct (ch_finished c). Qed.

(** An action of the channel, seen from a stream: nothing, a cancel of its context, or an
    action of the stream; frames come only while it is in the table. *)
Inductive stream_sees (c : tunnelChannel) (id : Z) (own : bool) (v v' : client_conf) : Prop :=
  | SeesNothing : v' = v -> stream_sees c id own v v'
  | SeesCancel : v' = cancel_client v -> stream_sees c id own v v'
  | SeesWatch : v' = cset_watching true v -> stream_sees c id own v v'
  | SeesAction l : client_step l v = Some v' -> (by_caller l = true -> own = true) ->
      (forall frame, l = CFrame frame -> in_table id c = true) -> stream_sees c id own v v'.

Definition is_own_of (id : Z) (l : channel_label) : bool :=
  match l with KStream id' l => by_caller l && (id' =? id) | _ => false end.

Record sees_after (c c' : tunnelChannel) (id : Z) (own : bool) (v : client_conf) : Prop := {
  sa_handed : id ∈ ch_handed c -> id ∈ ch_handed c';
  sa_creating : forall x, ch_creating c = Some x -> ch_creating c' = Some x;
  sa_object : exists v', ch_objects c' !! id = Some v' /\ stream_sees c id own v v';
}.

Section Sees.
Context (c : tunnelChannel) (id : Z) (own : bool) (v : client_conf).
Context (Hv : ch_objects c !! id = Some v).

Lemma sees_same_objects c' :
  ch_handed c' = ch_handed c -> ch_creating c' = ch_creating c -> ch_objects c' = ch_objects c ->
  sees_after c c' id own v.
Proof.
  intros E1 E2 E3. split; rewrite ?E1, ?E2, ?E3; try done. exists v. split; [done|by apply SeesNothing].
Qed.

Lemma sees_close err c0 :
  ch_handed c0 = ch_handed c -> ch_creating c0 = ch_creating c -> ch_objects c0 = ch_objects c ->
  sees_after c (fst (channel_close err c0)) id own v.
Proof.
  intros E1 E2 E3. rewrite <- E3 in Hv. destruct (close_moves err c0 id v Hv) as (v' & Hv' & Hor).
  split; rewrite ?close_handed, ?close_creating, ?E1, ?E2; try done.
  exists v'. split; [done|]. destruct Hor; [by apply SeesNothing|by apply SeesCancel].
Qed.

Lemma sees_loop_close err c0 :
  ch_handed c0 = ch_handed c -> ch_creating c0 = ch_creating c -> ch_objects c0 = ch_objects c ->
  sees_after c (loop_close err c0) id own v.
Proof. intros E1 E2 E3. by destruct (sees_close err c0 E1 E2 E3). Qed.

Lemma sees_settings res : sees_after c (recv_settings res c) id own v.
Proof.
  unfold recv_settings. destruct (tunnelRoles _). destruct res as [e|m]; [by apply sees_loop_close|].
  destruct (negb _); [by apply sees_loop_close|].
  destruct (S2C_Frame m) as [[?|?|?|?|?|?]|]; try by apply sees_loop_close.
  destruct (check_settings _ _) as [rev [e|]]; [by apply sees_loop_close|by apply sees_same_objects].
Qed.

Lemma sees_run_client id' l c0 c' :
  ch_objects c0 = ch_objects c -> ch_handed c0 = ch_handed c -> ch_creating c0 = ch_creating c ->
  run_client id' l c0 = Some c' -> (by_caller l = true -> id' = id -> own = true) ->
  (forall frame, l = CFrame frame -> in_table id' c = true) -> sees_after c c' id own v.
Proof.
  intros E1 E2 E3 (w & w' & objs & Hw & Hs & -> & ->)%run_client_inv Hl Hframe.
  split; simpl; rewrite ?E2, ?E3; try done. rewrite E1 in Hw |- *. destruct (decide (id = id')) as [<-|Hne].
  - rewrite lookup_insert_eq. eexists. split; [done|]. assert (w = v) as -> by congruence.
    eapply SeesAction; [done|by intros ?; apply Hl|done].
  - rewrite lookup_insert_ne by done. exists v. split; [done|by apply SeesNothing].
Qed.

Lemma sees_frame res c' : recv_frame res c = Some c' -> sees_after c c' id own v.
Proof.
  intros Hs. unfold recv_frame in Hs. destruct res as [e|m]; [injection Hs as <-; by apply sees_loop_close|].
  unfold channel_getStream in Hs. destruct (in_table (S2C_StreamId m) c) eqn:Htab.
  - by eapply sees_run_client in Hs.
  - destruct (_ && _); injection Hs as <-; [by apply sees_same_objects|by apply sees_loop_close].
Qed.

Lemma sees_newStream n a c' e :
  channel_inv n c -> n < MaxInt64 -> ch_creating c = None -> newStream_begin a c = Returns (c', e) ->
  sees_after c c' id own v.
Proof.
  intros Hinv Hn Hc Hb. unfold newStream_begin, allocateStream in Hb.
  pose proof (ni_last _ _ Hinv). pose proof (ob_id _ _ _ (ni_objects _ _ Hinv _ _ Hv)).
  assert (Hid : i64 (ch_lastStreamID c + 1) = ch_lastStreamID c + 1)
    by (apply i64_small; unfold MinInt64, MaxInt64 in *; lia).
  rewrite Hid in Hb. destruct (ch_finished c); [injection Hb as <- _; by apply sees_same_objects|].
  destruct (ch_lastStreamID c <? 0); [injection Hb as <- _; by apply sees_same_objects|].
  destruct (in_table _ _); [injection Hb as <- _; by apply sees_same_objects|].
  destruct (apply_call_options _ _ _) as [|[e'|md]]; [done|injection Hb as <- _; by apply sees_same_objects|].
  destruct (ch_settings _); [|done]. injection Hb as <- _. split; simpl; [done|congruence|].
  rewrite lookup_insert_ne by lia. exists v. split; [done|by apply SeesNothing].
Qed.

(** The end of [newStream] of this stream, or of another one. *)
Lemma sees_opened e c' :
  newStream_end e c = Some c' ->
  (id ∈ ch_handed c -> id ∈ ch_handed c') /\
  exists v', ch_objects c' !! id = Some v' /\ stream_sees c id own v v'.
Proof.
  intros Hs. unfold newStream_end in Hs. destruct (ch_creating c) as [[id' fr]|] eqn:Hc; [|done].
  destruct e; injection Hs as <-; simpl.
  - split; [done|]. exists v. split; [done|by apply SeesNothing].
  - split; [set_solver|]. destruct (decide (id = id')) as [<-|Hne].
    + rewrite lookup_alter_eq, Hv. eexists. split; [done|by apply SeesWatch].
    + rewrite lookup_alter_ne by done. exists v. split; [done|by apply SeesNothing].
Qed.
End Sees.

Lemma channel_sees n l c c' id v :
  channel_inv n c -> n < MaxInt64 -> ch_objects c !! id = Some v -> channel_step l c = Some c' ->
  (forall e, l <> KSendNew e) -> sees_after c c' id (is_own_of id l) v.
Proof.
  intros Hinv Hn Hv Hs Hno. destruct l as [|res|a|e|id' l| | |e]; [| | |by destruct (Hno e)| | | |].
  - cbn [channel_step] in Hs. destruct (ch_loop c); try done.
    destruct (ch_serverSendsSettings c); injection Hs as <-; [by apply sees_same_objects|by apply sees_loop_close].
  - cbn [channel_step] in Hs. destruct (ch_loop c) as [| |o|]; try done.
    + injection Hs as <-. by apply sees_settings.
    + destruct (channel_loop_idle o c); [|done]. by eapply sees_frame.
  - cbn [channel_step] in Hs. destruct (ch_creating c) eqn:Hc; [done|].
    destruct (newStream_begin a c) as [|[c1 e]] eqn:Hb; [done|]. injection Hs as <-. by eapply sees_newStream.
  - assert (Hfr : forall f, l <> CFrame f) by (intros f ->; done).
    apply kstream_inv in Hs as [Hr _]. eapply sees_run_client; [done..|exact Hr| |].
    + intros E <-. simpl. by rewrite E, Z.eqb_refl.
    + intros f Hf. by destruct (Hfr f).
  - injection Hs as <-. by apply sees_close.
  - cbn [channel_step] in Hs. destruct (_ && _); [|done].
    destruct (ch_settings c); injection Hs as <-; [by apply sees_same_objects|by apply sees_close].
  - cbn [channel_step] in Hs. destruct (ch_ctxErr c); [done|]. injection Hs as <-. by apply sees_same_objects.
Qed.

Lemma sees_same c id v v' : stream_sees c id false v v' -> caller_same v v'.
Proof.
  intros [->| ->| ->|l Hs Hl _].
  - apply caller_same_refl. - apply caller_same_cancel. - apply caller_same_watching.
  - eapply other_action; [|done]. destruct (by_caller l); [by specialize (Hl eq_refl)|done].
Qed.
End Others.

(** ** The reads of a stream with one response *)
Section UnaryReads.
Context {T : Type} `{DataFrame T} (measure : T -> Z * bool) (cfg : read_config T).
Context (Hstream : rc_stream cfg = false) (Hctx : rc_ctx cfg = None).

(** An error that is made of frames out of place. *)
Definition frame_error (e : error) : Prop :=
  e = rc_overflow cfg \/ e = rc_never cfg \/ e = rc_several cfg \/
  (exists got want, e = rc_twice cfg got want) \/ (exists f, e = rc_unrecognized cfg f).

Lemma read_frame_error f v ret :
  read_frame cfg f v = inr ret ->
  (exists d, ret = ReadReturn (Some d) true None) \/
  (exists e, ret = ReadReturn None false (Some e) /\ frame_error e).
Proof. unfold read_frame, read_check, frame_error. intros. step_cases; eauto 10. Qed.

Lemma dequeue_end r r' : dequeue measure r = (r', DequeueEnd) -> r' = r /\ drained r.
Proof.
  unfold dequeue, drained. destruct (r_cancelled r); [intros [= <-]; by auto|].
  destruct (r_items r); [|intros; step_cases]. destruct (r_closed r); intros [= <-]. by auto.
Qed.

(** How [readMsgLocked] returns. *)
Definition locked_return (rs' : read_state (T := T)) (ret : read_return) : Prop :=
  (exists d, ret = ReadReturn (Some d) true None /\ rs_readErr rs' = None) \/
  (ret = ReadReturn None true (rc_end cfg) /\ rs_readErr rs' = rc_end cfg /\ drained (rs_recv rs')) \/
  (exists e, ret = ReadReturn None false (Some e) /\ frame_error e /\ rs_readErr rs' = Some e).

Lemma locked_returns resumed rs v rs' us ret :
  rs_readErr rs = None -> readMsgLocked measure resumed cfg rs v = Some (rs', us, Returned ret) ->
  locked_return rs' ret.
Proof.
  intros He. unfold readMsgLocked. rewrite He. replace (if resumed then None else None) with (@None error) by (by destruct resumed).
  generalize (read_fuel (rs_recv rs)) as fuel. generalize (rs_recv rs) as r. intros r fuel.
  assert (Hloop : forall r', read_loop measure fuel resumed cfg r v = Some (r', us, Returned ret) ->
    locked_return (ReadState r' (rr_err ret)) ret).
  { revert resumed r v us. induction fuel as [|fuel IH]; intros resumed r v us r' Hr; [done|]. simpl in Hr.
    rewrite Hctx in Hr. replace (if resumed then None else None) with (@None error) in Hr by (by destruct resumed).
    destruct (dequeue measure r) as [r1 [frame u| |]] eqn:Hd; [| |done].
    - destruct (read_frame cfg frame v) as [v'|ret'] eqn:Hf.
      + destruct (read_loop measure fuel false cfg r1 v') as [[[r2 us2] out2]|] eqn:Hl; [|done].
        injection Hr as <- _ ->. by eapply IH.
      + injection Hr as <- _ <-. apply read_frame_error in Hf as [(d & ->)|(e & -> & He')]; [left|right; right]; eauto.
    - injection Hr as <- _ <-. apply dequeue_end in Hd as [-> Hd]. right. by left. }
  destruct (read_loop measure fuel resumed cfg r v) as [[[r' us'] [ret'|v']]|] eqn:Hl; [|done|done].
  intros [= <- <- <-]. specialize (Hloop r' eq_refl). unfold keep_err. rewrite He.
  by destruct (rr_err ret').
Qed.

Lemma locked_blocks resumed rs v rs' us v' :
  rs_readErr rs = None -> readMsgLocked measure resumed cfg rs v = Some (rs', us, Blocked v') ->
  rs_readErr rs' = None.
Proof.
  intros He. unfold readMsgLocked. rewrite He. replace (if resumed then None else None) with (@None error) by (by destruct resumed).
  destruct (read_loop _ _ _ _ _ _) as [[[r us1] [ret|v1]]|]; [done| |done]. by intros [= <- _ _].
Qed.

(** A read that waits for the end of the stream has the response. *)
Definition phase_holds (ph : read_phase) : Prop :=
  match ph with
  | FirstRead _ _ => True
  | SecondRead _ _ first => exists d, first = ReadReturn (Some d) true None
  end.

(** How [readMsg] returns the response, the end of the stream or an error. *)
Definition unary_return (rs' : read_state (T := T)) (ret : read_return) : Prop :=
  (exists d, ret = ReadReturn (Some d) true None /\ rc_end cfg = Some EOF /\ rs_readErr rs' = Some EOF /\
     drained (rs_recv rs')) \/
  (exists e, ret = ReadReturn None true (Some e) /\ rc_end cfg = Some e) \/
  (exists e, ret = ReadReturn None false (Some e) /\ frame_error e).

Lemma is_EOF_true e : is_EOF e = true -> e = EOF.
Proof. by destruct e. Qed.

Lemma second_returns resumed rs v d rs' us out :
  rs_readErr rs = None -> second_read measure resumed cfg rs v (ReadReturn (Some d) true None) = Some (rs', us, out) ->
  match out with
  | MsgBlocked ph => rs_readErr rs' = None /\ phase_holds ph
  | MsgReturned ret => unary_return rs' ret
  end.
Proof.
  intros He. unfold second_read.
  destruct (readMsgLocked _ _ _ _ _) as [[[rs1 us1] [ret|v1]]|] eqn:Hl; [| |done].
  - assert (Hsev : frame_error (rc_several cfg)) by (unfold frame_error; auto).
    apply locked_returns in Hl as [(d' & -> & _)|[(-> & Hre & Hdr)|(e & -> & Hfe & _)]]; [..|done]; simpl.
    + intros [= <- _ <-]. right. right. eauto.
    + destruct (rc_end cfg) as [e|] eqn:Hend; simpl; [|intros [= <- _ <-]; right; right; eauto].
      destruct (is_EOF e) eqn:Heof; simpl; intros [= <- _ <-]; [|right; left; eauto].
      apply is_EOF_true in Heof as ->. left. eauto.
    + rewrite orb_true_r. intros [= <- _ <-]. right. right. eauto.
  - intros [= <- _ <-]. split; [by eapply locked_blocks|]. by exists d.
Qed.

Lemma unary_read rs ph rs' us out :
  rs_readErr rs = None -> phase_holds ph -> (rc_end cfg = None -> r_closed (rs_recv rs) = false /\ r_cancelled (rs_recv rs) = false) ->
  readMsg measure cfg rs ph = Some (rs', us, out) ->
  match out with
  | MsgBlocked ph' => rs_readErr rs' = None /\ phase_holds ph'
  | MsgReturned ret => unary_return rs' ret
  end.
Proof.
  intros He Hph Hlive. destruct ph as [resumed v|resumed v first]; simpl; [|destruct Hph as (d & ->); by apply second_returns].
  destruct (readMsgLocked measure resumed cfg rs v) as [[[rs1 us1] [ret|v1]]|] eqn:Hl; [| |done].
  - pose proof (readMsgLocked_took measure _ _ _ _ _ _ _ Hl) as Ht.
    apply locked_returns in Hl as [(d & -> & He1)|[(-> & Hre & Hdr)|(e & -> & Hfe & _)]]; [..|done]; simpl.
    + rewrite Hstream. simpl. destruct (second_read _ _ _ _ _ _) as [[[rs2 us2] out2]|] eqn:H2; [|done].
      intros [= <- _ <-]. by eapply second_returns.
    + destruct (rc_end cfg) as [e|] eqn:Hend; [rewrite bool_decide_false by done; simpl; intros [= <- _ <-]; right; left; eauto|].
      exfalso. destruct (Hlive eq_refl) as [E1 E2], Ht as (_ & Ec & Ecn). destruct Hdr as [?|[? _]]; congruence.
    + intros [= <- _ <-]. right. right. eauto.
  - intros [= <- _ <-]. split; [by eapply locked_blocks|done].
Qed.
End UnaryReads.

(** The first read of a stream with one response, all of whose frames are there. *)
Definition first_read (cfg : read_config ServerToClientFrame) (e : error) (ds : list bytes) : read_return :=
  match ds with
  | [] => ReadReturn None true (Some e)
  | [d] => if is_EOF e then ReadReturn (Some d) true None else ReadReturn None true (Some e)
  | _ => ReadReturn None false (Some (rc_several cfg))
  end.

Lemma readMsg_finished max cfg e ds ckss r :
  rc_stream cfg = false -> rc_ctx cfg = None -> rc_end cfg = Some e ->
  r_closed r = true -> r_cancelled r = false ->
  Forall2 (framed max) ds ckss -> r_items r = chunk_frame <$> concat ckss ->
  exists rs us, readMsg response_measure cfg (ReadState r None) read_start
      = Some (rs, us, MsgReturned (first_read cfg e ds)) /\
    (forall d, ds = [d] -> is_EOF e = true -> rs_readErr rs = Some e).
Proof.
  intros Hstream Hctx Hend Hcl Hcn Hds Hi. unfold readMsg, read_start.
  assert (Hempty : forall r, r_items r = [] -> r_closed r = true -> r_cancelled r = false ->
    readMsgLocked response_measure false cfg (ReadState r None) read_vars0
    = Some (ReadState r (Some e), [], Returned (ReadReturn None true (Some e)))).
  { intros r0 Hi0 Hcl0 Hcn0. unfold readMsgLocked, read_fuel. cbn [rs_readErr rs_recv].
    rewrite Hi0. cbn [length read_loop]. rewrite Hctx. unfold dequeue. by rewrite Hcn0, Hi0, Hcl0, Hend. }
  destruct Hds as [|d cks ds ckss Hd Hds].
  { rewrite Hempty by done. cbn [rr_err]. rewrite bool_decide_false by done. by eexists _, _. }
  simpl in Hi. rewrite fmap_app in Hi.
  destruct (readMsgLocked_framed response_measure max cfg d cks _ r Hctx Hcn Hi Hd)
    as (r1 & us & -> & Hi1 & Hcn1 & Hcl1).
  cbn [rr_err]. rewrite bool_decide_true, Hstream by done. cbn [andb negb]. unfold second_read.
  destruct Hds as [|d2 cks2 ds ckss Hd2 Hds].
  - rewrite Hempty by (done || congruence). cbn [rr_err rr_ok]. simpl.
    destruct (is_EOF e); simpl; by eexists _, _.
  - simpl in Hi1. rewrite fmap_app in Hi1.
    destruct (readMsgLocked_framed response_measure max cfg d2 cks2 _ r1 Hctx Hcn1 Hi1 Hd2)
      as (r2 & us2 & -> & _). simpl. by eexists _, _.
Qed.

(** ** How a unary call ends *)
Section InvokeProperties.
Context `{StatusLib} `{MetadataAppend} (unmarshal : bytes -> option error).
Context (ctxErr : option error) (headers : MD) (method : string) (opts : list call_option).
Context (sends reverse secure : bool) (tunnel_opts : tunnelOpts) (tunnel_ctx : option error).
Context (Hopts : opts_ok tunnel_opts).

Abbreviation step := (invoke_step unmarshal ctxErr headers method opts).
Abbreviation args := (invoke_args ctxErr headers method opts).

(** [Invoke] is called on a channel at some time of its life. *)
Definition invoke_start : invoke_conf :=
  InvokeConf (newTunnelChannel sends reverse secure tunnel_opts tunnel_ctx) InCalled.

Definition invoke_label_ok (l : invoke_label) : Prop :=
  match l with IvOther l => channel_label_ok l | _ => True end.

(** The errors of [newStream], [SendMsg] and [CloseSend], given what the functions that
    they call have returned. *)
Definition newStream_error (ls : list invoke_label) (e : error) : Prop :=
  IvSent (Some e) ∈ ls \/ exists c c', newStream_begin args c = Returns (c', Some e).
Definition send_error (ls : list invoke_label) (v : client_conf) (e : error) : Prop :=
  cs_ctxErr (cc_str v) = Some e \/ IvSend (LCall (Some e)) ∈ ls.
Definition SendMsg_error (ls : list invoke_label) (v : client_conf) (e : error) : Prop :=
  IvMarshalled (inl e) ∈ ls \/
  (exists b, IvMarshalled (inr b) ∈ ls /\ len b > MaxUint32 /\ e = too_large (len b)) \/ send_error ls v e.
Definition CloseSend_error (ls : list invoke_label) (e : error) : Prop := IvHalfClose (Some e) ∈ ls.

(** What the first [RecvMsg] has returned: the response cannot be decoded, the RPC has
    failed or ended without a response, or the frames of the response are not a
    message. *)
Definition RecvMsg_failed (v : client_conf) (e : error) : Prop :=
  (exists d, cc_reads v = [ReadReturn (Some d) true None] /\ cs_done (cc_str v) = Some EOF /\ unmarshal d = Some e) \/
  (cc_reads v = [ReadReturn None true (Some e)] /\ cs_done (cc_str v) = Some e) \/
  (cc_reads v = [ReadReturn None false (Some e)] /\ frame_error (client_stream_read_config (cc_str v)) e).

(** The RPC has succeeded, with one response, which can be decoded. *)
Definition succeeded (v : client_conf) : Prop :=
  cs_done (cc_str v) = Some EOF /\ drained (cs_receiver (cc_str v)) /\
  exists d, cc_reads v = [ReadReturn (Some d) true None; ReadReturn None true (Some EOF)] /\ unmarshal d = None.

Definition returned_ok (ls : list invoke_label) (v : client_conf) (from : invoke_call) (err : option error) : Prop :=
  match from with
  | CallNewStream => False
  | CallSendMsg => exists e, err = Some e /\ SendMsg_error ls v e
  | CallCloseSend => exists e, err = Some e /\ CloseSend_error ls e
  | CallRecvMsg => exists e, err = Some e /\ RecvMsg_failed v e
  | CallExtra => err = None /\ succeeded v
  end.

(** Nothing has been read yet. *)
Definition unread (v : client_conf) : Prop := cc_reads v = [] /\ cs_readErr (cc_str v) = None.

Definition stream_ok (ls : list invoke_label) (pc : invoke_pc) (v : client_conf) : Prop :=
  match pc with
  | InCalled | InSeveral _ => False
  | InOpening _ | InSendMsg _ =>
      unread v /\ cc_reading v = None /\ cs_numSent (cc_str v) = 0 /\ cs_halfClosed (cc_str v) = false
  | InSending _ => unread v /\ cc_reading v = None /\ cs_halfClosed (cc_str v) = false /\
      forall e, send_result v = Some (Some e) -> send_error ls v e
  | InCloseSend _ => unread v /\ cc_reading v = None /\ cs_halfClosed (cc_str v) = false
  | InReading _ false => unread v /\ phase_holds (default read_start (cc_reading v))
  | InReading _ true => exists d, cc_reads v = [ReadReturn (Some d) true None] /\ cc_reading v = None /\
      cs_readErr (cc_str v) = Some EOF /\ cs_done (cc_str v) = Some EOF /\
      drained (cs_receiver (cc_str v)) /\ unmarshal d = None
  | InCancelling _ extra e => extra = false /\ RecvMsg_failed v e
  | InReturned _ from err => returned_ok ls v from err
  end.

Lemma RecvMsg_failed_same v v' e : caller_same v v' -> RecvMsg_failed v e -> RecvMsg_failed v' e.
Proof.
  intros Hs. unfold RecvMsg_failed, frame_error, client_stream_read_config. simpl.
  rewrite (os_reads _ _ Hs), (proj1 (os_texts _ _ Hs)), (proj2 (os_texts _ _ Hs)).
  intros [(d & ? & Hd & ?)|[[? Hd]|?]]; [left|right; left|by right; right].
  - exists d. by rewrite (os_done _ _ Hs _ Hd). - by rewrite (os_done _ _ Hs _ Hd).
Qed.

Lemma send_error_same ls l v v' e : caller_same v v' -> send_error ls v e -> send_error (ls ++ [l]) v' e.
Proof.
  intros Hs [Hc|Hin]; [left; by apply (os_ctx _ _ Hs)|right]. apply elem_of_app. by left.
Qed.

Lemma returned_same ls l v v' from err :
  caller_same v v' -> returned_ok ls v from err -> returned_ok (ls ++ [l]) v' from err.
Proof.
  intros Hs. assert (Hin : forall x, x ∈ ls -> x ∈ ls ++ [l]) by (intros x ?; apply elem_of_app; by left).
  destruct from; simpl; [done|..].
  - intros (e & -> & [He|[(b & Hb & ?)|He]]); exists e; (split; [done|]); [left; auto|right; left; eauto|].
    right. right. by eapply send_error_same.
  - intros (e & -> & He). exists e. split; [done|]. by apply Hin.
  - intros (e & -> & He). exists e. split; [done|]. by eapply RecvMsg_failed_same.
  - intros (-> & Hd & Hdr & Hr). split; [done|]. unfold succeeded. rewrite (os_reads _ _ Hs).
    split_and!; [by apply (os_done _ _ Hs)|by apply (os_drained _ _ Hs)|done].
Qed.

Lemma stream_ok_same ls l pc v v' : caller_same v v' -> stream_ok ls pc v -> stream_ok (ls ++ [l]) pc v'.
Proof.
  intros Hs. unfold stream_ok, unread, send_result.
  rewrite (os_reads _ _ Hs), (os_readErr _ _ Hs), (os_reading _ _ Hs), (os_sent _ _ Hs), (os_half _ _ Hs), (os_call _ _ Hs).
  destruct pc as [|id|id|id|id|id [|]|id extra e|id|oid from err]; try done.
  - intros (Hu & Hr & Hh & He). split; [done|]. split; [done|]. split; [done|]. intros e Hres. eapply send_error_same; eauto.
  - intros (d & ? & ? & ? & Hd & Hdr & ?). exists d.
    split_and!; try done; [by apply (os_done _ _ Hs)|by apply (os_drained _ _ Hs)].
  - intros [-> He]. split; [done|]. by eapply RecvMsg_failed_same.
  - by apply returned_same.
Qed.

Definition the_stream (pc : invoke_pc) : option Z :=
  match pc with InOpening id => Some id | pc => stream_of pc end.

(** The stream of the call in the channel. *)
Record stream_there (ls : list invoke_label) (c : tunnelChannel) (pc : invoke_pc) (id : Z) (v : client_conf) : Prop := {
  th_object : ch_objects c !! id = Some v;
  th_unary : cs_isServerStream (cc_str v) = false;
  th_ok : stream_ok ls pc v;
  th_ours : match pc with
            | InOpening _ => exists frame, ch_creating c = Some (id, frame)
            | _ => id ∈ ch_handed c
            end;
}.

Definition pc_ok (ls : list invoke_label) (c : tunnelChannel) (pc : invoke_pc) : Prop :=
  match the_stream pc with
  | Some id => exists v, stream_there ls c pc id v
  | None => match pc with
            | InReturned None CallNewStream err => exists e, err = Some e /\ newStream_error ls e
            | InCalled => True
            | _ => False
            end
  end.

Record invoke_inv (ls : list invoke_label) (s : invoke_conf) : Prop := {
  ji_channel : channel_inv (len ls) (iv_channel s);
  ji_pc : pc_ok ls (iv_channel s) (iv_pc s);
}.

(** *** Actions of others *)
Lemma other_keeps ls l c c' pc id v :
  channel_inv (len ls) c -> len ls < MaxInt64 -> is_own pc l = false -> channel_step l c = Some c' ->
  the_stream pc = Some id -> stream_there ls c pc id v ->
  exists v', stream_there (ls ++ [IvOther l]) c' pc id v'.
Proof.
  intros Hinv Hlen Hown Hs Hid [Hv Hun Hok Hours].
  assert (Hdo : forall v', ch_objects c' !! id = Some v' -> caller_same v v' ->
    match pc with InOpening _ => exists frame, ch_creating c' = Some (id, frame) | _ => id ∈ ch_handed c' end ->
    exists v', stream_there (ls ++ [IvOther l]) c' pc id v').
  { intros v' Hv' Hsame Ho. exists v'. split; [done|by rewrite (os_server _ _ Hsame)|by eapply stream_ok_same|done]. }
  assert (Hno : (exists e, l = KSendNew e) \/ forall e, l <> KSendNew e) by (destruct l; eauto; by right).
  destruct Hno as [(e & ->)|Hno].
  - destruct (sees_opened c id false v Hv e c' Hs) as (Hh & v' & Hv' & Hsees).
    apply (Hdo v' Hv' (sees_same _ _ _ _ Hsees)). by destruct pc; auto.
  - destruct (channel_sees _ _ _ _ _ _ Hinv Hlen Hv Hs Hno) as [Hh Hc (v' & Hv' & Hsees)].
    assert (Hf : is_own_of id l = false).
    { destruct l as [| | | |id' l| | |]; try done. simpl. destruct (by_caller l) eqn:Hb; [|done].
      destruct (Z.eqb_spec id' id) as [->|]; [|done]. exfalso. simpl in Hown. rewrite Hb in Hown.
      assert (Hst : stream_of pc = Some id \/ exists i, pc = InOpening i) by (destruct pc; simpl in *; eauto).
      destruct Hst as [E|(i & ->)]; [by rewrite E, bool_decide_true in Hown|].
      injection Hid as ->. destruct Hours as (frame & Hcr).
      destruct (ni_creating _ _ Hinv _ _ Hcr) as (_ & Hnot & _). apply kstream_inv in Hs as [_ [?|?]]; [done|congruence]. }
    rewrite Hf in Hsees. apply (Hdo v' Hv' (sees_same _ _ _ _ Hsees)).
    destruct pc; auto. destruct Hours as (frame & Hcr). exists frame. by apply Hc.
Qed.

(** *** Own actions *)
Lemma own_step id l c c' v :
  ch_objects c !! id = Some v -> channel_step (KStream id l) c = Some c' ->
  exists v', client_step l v = Some v' /\ ch_objects c' !! id = Some v' /\ ch_handed c' = ch_handed c.
Proof.
  intros Hv ((w & v' & objs & Hw & Hs & -> & ->)%run_client_inv & _)%kstream_inv.
  assert (w = v) as -> by congruence. exists v'. split_and!; [done|simpl; by rewrite lookup_insert_eq|done].
Qed.

Lemma opening_object a c c' :
  newStream_begin a c = Returns (c', None) ->
  exists id frame s, ch_creating c' = Some (id, frame) /\
    ch_objects c' !! id = Some (unwatched (make_client_stream c s id a)).
Proof.
  unfold newStream_begin, allocateStream. destruct (ch_finished c); [done|]. destruct (_ <? 0); [done|].
  destruct (in_table _ _); [done|]. destruct (apply_call_options _ _ _) as [|[e|md]]; [done|done|].
  cbn [kset_last ch_settings]. destruct (ch_settings c) as [s|]; [|done]. intros [= <-]. simpl.
  eexists _, _, s. split; [done|]. by rewrite lookup_insert_eq.
Qed.

(** A part of a call of [send]. *)
Lemma send_moves ls l c c' :
  send_step l c = Some c' -> in_send l = true ->
  (forall k e, c_call c = Some k -> k_pc k = PRet (Some e) -> c_ctx c = Some e \/ IvSend (LCall (Some e)) ∈ ls) ->
  (forall k e, c_call c' = Some k -> k_pc k = PRet (Some e) ->
     c_ctx c' = Some e \/ IvSend (LCall (Some e)) ∈ ls ++ [IvSend l]).
Proof.
  intros Hs Hin He k e Hk Hpc.
  assert (c_call c <> None) as Hc.
  { intros Hn. destruct l; simpl in Hs; rewrite ?Hn in Hs; try done; step_in Hs; simpl in Hk; congruence. }
  destruct (c_call c) as [k0|] eqn:Hk0; [|done].
  destruct l; try done; simpl in Hs; rewrite Hk0 in Hs; unfold call_step in Hs; destruct (k_pc k0) eqn:Hp; try done;
    step_in Hs; simpl in *; simplify_eq; simpl in *; simplify_eq; auto.
  unfold send_after in Hpc. destruct err as [e'|]; simpl in Hpc; simplify_eq.
  - right. apply elem_of_app. right. by apply list_elem_of_singleton.
  - destruct (_ =? _); simpl in Hpc; simplify_eq.
Qed.

Lemma there_pc ls c pc id v :
  the_stream pc = Some id -> (forall i, pc <> InOpening i) -> ch_objects c !! id = Some v -> id ∈ ch_handed c ->
  cs_isServerStream (cc_str v) = false -> stream_ok ls pc v -> pc_ok ls c pc.
Proof.
  intros Hid Hno Hv Hh Hu Hok. unfold pc_ok. rewrite Hid. exists v. split; try done.
  destruct pc; try done. by destruct (Hno id0).
Qed.

Lemma marshalled_ok ls m id v v' :
  client_step (CSendMsg m) v = Some v' -> cs_isServerStream (cc_str v) = false -> stream_ok ls (InSendMsg id) v ->
  cs_isServerStream (cc_str v') = false /\
  stream_ok (ls ++ [IvMarshalled m])
    match snd (client_SendMsg_begin m (cc_str v)) with
    | inl e => InReturned (Some id) CallSendMsg (Some e)
    | inr _ => InSending id
    end v'.
Proof.
  cbn [client_step]. destruct (client_writeMu_free v); [|done]. intros Hs Hun ((Hr & He) & Hrd & Hn & Hh).
  assert (Hin : IvMarshalled m ∈ ls ++ [IvMarshalled m]) by (apply elem_of_app; right; by apply list_elem_of_singleton).
  unfold client_SendMsg_begin in *. rewrite Hn in Hs |- *. change (0 =? 1) with false in *.
  rewrite andb_false_r in Hs |- *. destruct m as [e|b].
  { injection Hs as <-. split; [done|]. exists e. split; [done|by left]. }
  destruct (Z.gtb_spec (len b) MaxUint32) as [Hgt|Hle].
  { injection Hs as <-. split; [done|]. eexists. split; [done|]. right. left. exists b. split_and!; [done|lia|done]. }
  destruct (send_step (LBegin b) _) as [c|] eqn:Hb; [|done]. injection Hs as <-. simpl.
  split; [done|]. split; [done|]. split; [done|]. split; [exact Hh|]. simpl in Hb.
  destruct (c_call (cs_send (cc_str v))); [done|]. injection Hb as <-. unfold send_result. simpl.
  unfold send_begin. destruct (Z.gtb_spec (len b) MaxUint32); [lia|]. by intros e.
Qed.

Lemma send_ok ls l id v v' :
  client_step (CSend l) v = Some v' -> cs_isServerStream (cc_str v) = false -> stream_ok ls (InSending id) v ->
  cs_isServerStream (cc_str v') = false /\
  stream_ok (ls ++ [IvSend l])
    match c_call (cs_send (cc_str v')), send_result v with
    | None, Some (Some e) => InReturned (Some id) CallSendMsg (Some e)
    | None, Some None => InCloseSend id
    | _, _ => InSending id
    end v'.
Proof.
  cbn [client_step]. destruct (in_send l) eqn:Hin; [|done].
  destruct (send_step l (cs_send (cc_str v))) as [c|] eqn:Hc; [|done]. intros [= <-] Hun ((Hr & He) & Hrd & Hh & Hse).
  assert (Hk : forall k e, c_call (cs_send (cc_str v)) = Some k -> k_pc k = PRet (Some e) ->
    c_ctx (cs_send (cc_str v)) = Some e \/ IvSend (LCall (Some e)) ∈ ls).
  { intros k e Hk Hpc. apply Hse. unfold send_result. by rewrite Hk, Hpc. }
  pose proof (send_moves ls l _ _ Hc Hin Hk) as Hk'. split; [done|]. simpl.
  assert (Hsending : stream_ok (ls ++ [IvSend l]) (InSending id)
    (cto_wire (chunk_frame <$> drop (length (c_out (cs_send (cc_str v)))) (c_out c)) (cset_str (cwith_send c (cc_str v)) v))).
  { split_and!; try done. intros e. unfold send_result, send_error. simpl.
    destruct (c_call c) as [k|] eqn:Hck; [|done]. destruct (k_pc k) eqn:Hpc; try done. intros [= ->]. by apply (Hk' k). }
  destruct (c_call c) as [k|] eqn:Hck; [done|]. destruct (send_result v) as [[e|]|] eqn:Hres; [|done|done].
  exists e. split; [done|]. right. right. specialize (Hse e eq_refl).
  assert (Hctx : c_ctx c = c_ctx (cs_send (cc_str v))).
  { destruct l; try done; simpl in Hc; unfold call_step in Hc; step_in Hc; done. }
  destruct Hse as [Hx|Hx]; [left; unfold cs_ctxErr in *; simpl; congruence|right; apply elem_of_app; by left].
Qed.

Lemma half_close_ok ls e id v v' :
  client_step (CCloseSend e) v = Some v' -> cs_isServerStream (cc_str v) = false -> stream_ok ls (InCloseSend id) v ->
  cs_isServerStream (cc_str v') = false /\
  stream_ok (ls ++ [IvHalfClose e])
    match snd (CloseSend e (cc_str v)) with
    | Some e => InReturned (Some id) CallCloseSend (Some e)
    | None => InReading id false
    end v'.
Proof.
  cbn [client_step]. destruct (client_writeMu_free v); [|done]. intros Hs Hun ((Hr & He) & Hrd & Hh).
  unfold CloseSend in *. rewrite Hh in *.
  assert (Hread : forall w, cc_reads w = cc_reads v -> cs_readErr (cc_str w) = cs_readErr (cc_str v) ->
    cc_reading w = cc_reading v -> stream_ok (ls ++ [IvHalfClose e]) (InReading id false) w).
  { intros w E1 E2 E3. unfold stream_ok, unread. rewrite E1, E2, E3, Hrd. done. }
  destruct (cs_doneSignal (cc_str v)); injection Hs as <-; (split; [done|]).
  - exact (Hread _ eq_refl eq_refl eq_refl).
  - destruct e as [e|]; [|exact (Hread _ eq_refl eq_refl eq_refl)]. exists e. split; [done|].
    apply elem_of_app. right. by apply list_elem_of_singleton.
Qed.

(** What the first [RecvMsg] makes of the way in which [readMsg] returns. *)
Lemma first_read_ok ls id v w rs ret :
  let w := cadd_read ret (cset_reading None w) in
  cc_reads w = [ret] -> cc_str w = cwith_reader rs (cc_str v) ->
  unary_return (client_stream_read_config (cc_str v)) rs ret ->
  let v' := match rr_err ret with
            | Some e => if rr_ok ret then w else call_finish false true (Some e) None w
            | None => w
            end in
  stream_ok ls (read_returned unmarshal id false (became_done v v') ret) v'.
Proof.
  intros w2 Hreads Hstr Hret v'. subst v'.
  destruct Hret as [(d & -> & Hend & Hre & Hdr)|[(e & -> & Hend)|(e & -> & Hfe)]]; unfold read_returned; simpl.
  - assert (Hd : cs_done (cc_str w2) = Some EOF) by (rewrite Hstr; exact Hend).
    destruct (unmarshal d) as [e|] eqn:Hun; simpl.
    + exists e. split; [done|]. left. by exists d.
    + exists d. split_and!; [exact Hreads|done|change (cs_readErr (cc_str w2) = Some EOF); by rewrite Hstr|exact Hd| |done].
      change (drained (cs_receiver (cc_str w2))). by rewrite Hstr.
  - exists e. split; [done|]. right. left. split; [exact Hreads|].
    change (cs_done (cc_str w2) = Some e). by rewrite Hstr.
  - assert (Hf : RecvMsg_failed (call_finish false true (Some e) None w2) e).
    { apply (RecvMsg_failed_same w2); [apply caller_same_finish, caller_same_refl|].
      right. right. split; [exact Hreads|]. rewrite Hstr. exact Hfe. }
    destruct (became_done _ _); simpl; [done|]. by exists e.
Qed.

Lemma read_ok ls id extra v v' :
  client_step CRecv v = Some v' -> cs_isServerStream (cc_str v) = false ->
  (cs_done (cc_str v) = None -> r_closed (cs_receiver (cc_str v)) = false /\ r_cancelled (cs_receiver (cc_str v)) = false) ->
  stream_ok ls (InReading id extra) v ->
  cs_isServerStream (cc_str v') = false /\
  stream_ok (ls ++ [IvRead])
    match cc_reading v', last (cc_reads v') with
    | None, Some ret => read_returned unmarshal id extra (became_done v v') ret
    | _, _ => InReading id extra
    end v'.
Proof.
  cbn [client_step]. intros Hs Hun Hlive Hok. destruct extra.
  - destruct Hok as (d & Hr & Hrd & He & Hd & Hdr & Hdec). rewrite Hrd in Hs.
    unfold readMsg, read_start, readMsgLocked in Hs. cbn [rs_readErr] in Hs. rewrite He in Hs. simpl in Hs.
    injection Hs as <-. simpl. rewrite Hr. simpl. split; [done|]. split; [done|]. split_and!; [done|done|].
    exists d. simpl. by rewrite Hr.
  - destruct Hok as ((Hr & He) & Hph).
    destruct (readMsg _ _ _ _) as [[[rs us] out]|] eqn:Hread; [|done].
    apply unary_read in Hread; [|exact Hun|done|done|exact Hph|exact Hlive].
    destruct out as [ret|ph]; injection Hs as <-.
    + set (w := cto_wire _ _).
      assert (Hw : cc_reads (cadd_read ret (cset_reading None w)) = [ret]) by (simpl; by rewrite Hr).
      pose proof (first_read_ok (ls ++ [IvRead]) id v w rs ret Hw eq_refl Hread) as Hok.
      unfold client_recv_returned.
      assert (Hlast : forall x, cc_reading x = None -> cc_reads x = [ret] ->
        match cc_reading x, last (cc_reads x) with
        | None, Some ret => read_returned unmarshal id false (became_done v x) ret
        | _, _ => InReading id false
        end = read_returned unmarshal id false (became_done v x) ret) by (intros x -> ->; done).
      assert (Hcf : forall e, cc_reading (call_finish false true (Some e) None (cadd_read ret (cset_reading None w))) = None /\
        cc_reads (call_finish false true (Some e) None (cadd_read ret (cset_reading None w))) = [ret] /\
        cs_isServerStream (cc_str (call_finish false true (Some e) None (cadd_read ret (cset_reading None w)))) = false).
      { intros e. unfold call_finish, finishStream_cas. by destruct (cs_done _). }
      destruct (rr_err ret) as [e|]; [destruct (rr_ok ret)|].
      * rewrite Hlast by done. by split.
      * destruct (Hcf e) as (C1 & C2 & C3). rewrite Hlast by done. by split.
      * rewrite Hlast by done. by split.
    + destruct Hread as [He' Hph']. simpl. split; [done|]. by split.
Qed.

(** *** Every action *)
Lemma on_inv (ls : list invoke_label) c id l (next : client_conf -> client_conf -> invoke_pc) s' :
  match ch_objects c !! id, channel_step (KStream id l) c with
  | Some v, Some c' =>
      match ch_objects c' !! id with
      | Some v' => Some (InvokeConf c' (next v v'))
      | None => None
      end
  | _, _ => None
  end = Some s' -> channel_inv (len ls) c -> len ls < MaxInt64 ->
  exists v v' c', ch_objects c !! id = Some v /\ client_step l v = Some v' /\ s' = InvokeConf c' (next v v') /\
    ch_objects c' !! id = Some v' /\ ch_handed c' = ch_handed c /\ channel_inv (len ls + 1) c'.
Proof.
  intros Hs Hinv Hlen. destruct (ch_objects c !! id) as [v|] eqn:Hv; [|done].
  destruct (channel_step (KStream id l) c) as [c'|] eqn:Hc; [|done].
  destruct (own_step _ _ _ _ _ Hv Hc) as (v' & Hs' & Hv' & Hh). rewrite Hv' in Hs. injection Hs as <-.
  exists v, v', c'. split_and!; try done. eapply channel_inv_step; [exact Hinv| |exact Hlen|exact Hc]; done.
Qed.

(** [pc] with the stream [v] goes on to [pc'] with [v']. *)
Lemma own_pc ls l c c' pc pc' id v v' :
  pc_ok ls c pc -> the_stream pc = Some id -> (forall i, pc <> InOpening i) -> ch_objects c !! id = Some v ->
  ch_objects c' !! id = Some v' -> ch_handed c' = ch_handed c ->
  the_stream pc' = Some id -> (forall i, pc' <> InOpening i) ->
  (cs_isServerStream (cc_str v) = false -> stream_ok ls pc v ->
   cs_isServerStream (cc_str v') = false /\ stream_ok (ls ++ [l]) pc' v') ->
  pc_ok (ls ++ [l]) c' pc'.
Proof.
  unfold pc_ok at 1. intros Hpc Hid Hno Hv Hv' Hh Hid' Hno' Hgo. rewrite Hid in Hpc. destruct Hpc as (w & [Hw Hun Hok Hours]).
  assert (w = v) as -> by congruence. destruct (Hgo Hun Hok). eapply there_pc; eauto.
  rewrite Hh. destruct pc; try done. by destruct (Hno id0).
Qed.

Lemma live_flags opts0 v : client_ok opts0 v -> cs_done (cc_str v) = None ->
  r_closed (cs_receiver (cc_str v)) = false /\ r_cancelled (cs_receiver (cc_str v)) = false.
Proof.
  intros (W & ov & _ & _ & _ & Hk) Hd. pose proof (ki_phase _ _ _ _ Hk) as Hph. unfold phase_ok in Hph.
  rewrite Hd in Hph. destruct (cc_finishing v); [done|]. by destruct Hph as (_ & ? & ?).
Qed.

Lemma received_stream id extra err : the_stream (received_err id extra err) = Some id /\
  forall i, received_err id extra err <> InOpening i.
Proof. by destruct extra, err. Qed.

Lemma read_stream id extra b ret : the_stream (read_returned unmarshal id extra b ret) = Some id /\
  forall i, read_returned unmarshal id extra b ret <> InOpening i.
Proof.
  unfold read_returned. destruct (rr_err ret); [|apply received_stream].
  destruct (_ && _); [done|apply received_stream].
Qed.

Lemma pc_more ls l c pc : pc_ok ls c pc -> pc_ok (ls ++ [l]) c pc.
Proof.
  unfold pc_ok. destruct (the_stream pc) as [id|].
  - intros (v & [Hv Hun Hok Ho]). exists v. split; try done. by eapply stream_ok_same, Hok; apply caller_same_refl.
  - destruct pc as [| | | | | | | |[id|] [] err]; try done.
    intros (e & -> & [Hin|?]); exists e; (split; [done|]); [left|by right]. apply elem_of_app. by left.
Qed.

Lemma invoke_inv_step ls l s s' :
  invoke_inv ls s -> invoke_label_ok l -> len ls < MaxInt64 -> step l s = Some s' -> invoke_inv (ls ++ [l]) s'.
Proof.
  destruct s as [c pc]. intros [Hinv Hpc] Hl Hlen Hs.
  assert (Hn : len (ls ++ [l]) = len ls + 1) by (by rewrite len_app).
  assert (Hlast : forall x, x ∈ ls ++ [x]) by (intros x; apply elem_of_app; right; by apply list_elem_of_singleton).
  assert (Hon : forall id cl next, match ch_objects c !! id, channel_step (KStream id cl) c with
      | Some v, Some c' => match ch_objects c' !! id with Some v' => Some (InvokeConf c' (next v v')) | None => None end
      | _, _ => None end = Some s' -> the_stream pc = Some id -> (forall i, pc <> InOpening i) ->
    (forall v v', ch_objects c !! id = Some v -> client_step cl v = Some v' ->
       (the_stream (next v v') = Some id /\ forall i, next v v' <> InOpening i) /\
       (cs_isServerStream (cc_str v) = false -> stream_ok ls pc v ->
        cs_isServerStream (cc_str v') = false /\ stream_ok (ls ++ [l]) (next v v') v')) -> invoke_inv (ls ++ [l]) s').
  { intros id cl next Hs' Hid Hno Hgo.
    destruct (on_inv ls c id cl next s' Hs' Hinv Hlen) as (v & v' & c' & Hv & Hst & -> & Hv' & Hh & Hinv').
    destruct (Hgo v v' Hv Hst) as [[? ?] ?]. split; simpl; [by rewrite Hn|]. by eapply own_pc. }
  destruct l as [l| |e|m|l|e| | |], pc as [|id|id|id|id|id extra|id extra err|id|oid from err];
    cbn [invoke_step iv_channel iv_pc] in Hs, Hinv, Hpc; simpl in Hl; try done;
    try (destruct (is_own _ _) eqn:Hown; [done|]; destruct (channel_step l c) as [c'|] eqn:Hc; [|done]; injection Hs as <-;
         split; simpl; [rewrite Hn; by eapply channel_inv_step|]).
  all: try (destruct Hpc as (v & Hv); destruct (other_keeps _ _ _ _ _ _ _ Hinv Hlen Hown Hc eq_refl Hv) as (v' & Hv');
            by exists v').
  - done.
  - destruct oid as [id|].
    + destruct Hpc as (v & Hv). destruct (other_keeps _ _ _ _ _ _ _ Hinv Hlen Hown Hc eq_refl Hv) as (v' & Hv'). by exists v'.
    + apply (pc_more ls (IvOther l)) in Hpc. exact Hpc.
  - destruct (ch_creating c) eqn:Hcr; [done|]. destruct (newStream_begin args c) as [|[c' [e|]]] eqn:Hb; [done|..].
    + injection Hs as <-. split; simpl; [rewrite Hn; by eapply inv_newStream_begin|]. exists e. split; [done|]. right. eauto.
    + destruct (opening_object _ _ _ Hb) as (id & frame & st & Hcr' & Hv). rewrite Hcr' in Hs. injection Hs as <-.
      split; simpl; [rewrite Hn; by eapply inv_newStream_begin|]. eexists. split; [exact Hv|done|done|by exists frame].
  - destruct Hpc as (v & [Hv Hun Hok (frame & Hcr)]).
    assert (Hinv' : forall c', newStream_end e c = Some c' -> channel_inv (len ls + 1) c')
      by (intros c' Hc; by apply (channel_inv_step _ (KSendNew e) c)).
    unfold newStream_end in Hs, Hinv'. rewrite Hcr in Hs, Hinv'. destruct e as [e|]; injection Hs as <-; split; simpl; try (rewrite Hn; by apply Hinv').
    + exists e. split; [done|]. by left.
    + exists (cset_watching true v). split; [simpl; by rewrite lookup_alter_eq, Hv|done|done|].
      simpl. apply elem_of_union. left. by apply elem_of_singleton.
  - apply (Hon _ _ _ Hs); [done|done|]. intros v v' Hv Hst. split; [by destruct (snd _)|]. by apply marshalled_ok.
  - apply (Hon _ _ _ Hs); [done|done|]. intros v v' Hv Hst. split; [|by apply send_ok].
    destruct (c_call _), (send_result v) as [[|]|]; done.
  - apply (Hon _ _ _ Hs); [done|done|]. intros v v' Hv Hst. split; [by destruct (snd _)|]. by apply half_close_ok.
  - apply (Hon _ _ _ Hs); [done|done|]. intros v v' Hv Hst. split.
    + destruct (cc_reading v'); [done|]. destruct (last _); [apply read_stream|done].
    + intros Hun Hok. apply (read_ok ls id extra v v' Hst Hun); [|done].
      apply (live_flags (ch_opts c)), (ob_inv _ _ _ (ni_objects _ _ Hinv _ _ Hv)).
  - destruct (ch_objects c !! id) as [v|] eqn:Hv; [|done]. destruct (cc_finishing v); [done|]. injection Hs as <-.
    split; simpl; [rewrite Hn; by apply inv_later|]. destruct Hpc as (w & [Hw Hun [-> Hok] Hh]).
    exists w. split; try done. simpl. exists err. split; [done|]. done.
  - by destruct Hpc as (v & [_ _ [] _]).
Qed.

Lemma invoke_run_inv ls s :
  Forall invoke_label_ok ls -> len ls <= MaxInt64 -> run step ls invoke_start = Some s -> invoke_inv ls s.
Proof.
  intros Hls Hlen Hrun. revert ls s Hrun Hls Hlen.
  apply (run_history step (fun ls s => Forall invoke_label_ok ls -> len ls <= MaxInt64 -> invoke_inv ls s)).
  - intros _ _. split; [by apply channel_start_inv|done].
  - intros ls l s s' IH Hs [Hls Hl]%Forall_app Hlen. rewrite len_app in Hlen. change (len [l]) with 1 in Hlen.
    apply Forall_cons_1 in Hl as [Hl _]. eapply invoke_inv_step; [apply IH; [done|lia]|done|lia|done].
Qed.

(** *** The reads of an RPC that has ended *)
Lemma own_runs id l c v v' :
  id ∈ ch_handed c -> ch_objects c !! id = Some v -> client_step l v = Some v' -> (forall f, l <> CFrame f) ->
  exists c', channel_step (KStream id l) c = Some c' /\ ch_objects c' !! id = Some v' /\ ch_handed c' = ch_handed c.
Proof.
  intros Hh Hv Hs Hno.
  assert (Hr : exists c', run_client id l c = Some c') by (unfold run_client; rewrite Hv, Hs; eauto).
  destruct Hr as (c' & Hr). assert (Hc : channel_step (KStream id l) c = Some c').
  { destruct l as [frame| | | | | | | | | | |]; cbn [channel_step by_caller andb]; rewrite ?bool_decide_true by done; try done.
    by destruct (Hno frame). }
  destruct (own_step _ _ _ _ _ Hv Hc) as (w & Hs' & Hw & Hh'). exists c'. split_and!; try done. congruence.
Qed.

(** A read of a stream that is done, which returns. *)
Lemma done_read id extra c v rs us ret :
  id ∈ ch_handed c -> ch_objects c !! id = Some v -> cs_done (cc_str v) <> None -> cc_reading v = None ->
  readMsg response_measure (client_stream_read_config (cc_str v))
    (ReadState (cs_receiver (cc_str v)) (cs_readErr (cc_str v))) read_start = Some (rs, us, MsgReturned ret) ->
  exists c' v', step IvRead (InvokeConf c (InReading id extra))
      = Some (InvokeConf c' (read_returned unmarshal id extra false ret)) /\
    ch_objects c' !! id = Some v' /\ ch_handed c' = ch_handed c /\ cc_reading v' = None /\
    cs_done (cc_str v') = cs_done (cc_str v) /\ cs_readErr (cc_str v') = rs_readErr rs.
Proof.
  intros Hh Hv Hd Hrd Hread.
  assert (exists v', client_step CRecv v = Some v' /\ cc_reading v' = None /\ last (cc_reads v') = Some ret /\
    cs_done (cc_str v') = cs_done (cc_str v) /\ cs_readErr (cc_str v') = rs_readErr rs)
    as (v' & Hs & R1 & R2 & R3 & R4).
  { cbn [client_step]. rewrite Hrd, Hread. eexists. split; [done|]. unfold client_recv_returned.
    destruct (rr_err ret) as [e|]; [destruct (rr_ok ret)|]; rewrite ?call_finish_done by done;
      simpl; rewrite last_snoc; done. }
  destruct (own_runs id CRecv c v v' Hh Hv Hs ltac:(done)) as (c' & Hc & Hv' & Hh').
  exists c', v'. split_and!; try done. cbn [invoke_step iv_channel iv_pc]. rewrite Hv, Hc, Hv', R1, R2.
  unfold became_done. rewrite R3. by destruct (cs_done (cc_str v)).
Qed.

(** What [Invoke] returns when the RPC has ended with [e] and the responses [ds]. *)
Definition reads_result (v : client_conf) (e : error) (ds : list bytes) : option error :=
  match ds with
  | [] => Some e
  | [d] => if is_EOF e then unmarshal d else Some e
  | _ => Some (Errorf Internal "%s sent multiple responses for non-server-stream method %s"
                 [AStr (fst (tunnelRoles (cs_reverse (cc_str v)))); AStr (cs_method (cc_str v))])
  end.

Lemma reads_finished ls s id v max ds ckss e :
  invoke_inv ls s -> iv_pc s = InReading id false -> ch_objects (iv_channel s) !! id = Some v ->
  cs_done (cc_str v) = Some e -> cc_reading v = None ->
  r_closed (cs_receiver (cc_str v)) = true -> r_cancelled (cs_receiver (cc_str v)) = false ->
  Forall2 (framed max) ds ckss -> r_items (cs_receiver (cc_str v)) = chunk_frame <$> concat ckss ->
  exists k s' from, run step (replicate k IvRead) s = Some s' /\
    iv_pc s' = InReturned (Some id) from (reads_result v e ds).
Proof.
  destruct s as [c pc]. cbn [iv_channel iv_pc]. intros [_ Hpc] -> Hv Hd Hrd Hcl Hcn Hds Hi. cbn [iv_channel iv_pc] in Hpc.
  destruct Hpc as (w & [Hw Hun ((_ & Hre) & _) Hh]). assert (w = v) as -> by congruence.
  destruct (readMsg_finished max (client_stream_read_config (cc_str v)) e ds ckss (cs_receiver (cc_str v)))
    as (rs & us & Hread & Hst); try done. rewrite <- Hre in Hread.
  destruct (done_read id false c v rs us _ Hh Hv ltac:(by rewrite Hd) Hrd Hread) as (c' & v' & Hs & Hv' & Hh' & Hrd' & Hd' & Hre').
  assert (Hone : forall err, read_returned unmarshal id false false (first_read (client_stream_read_config (cc_str v)) e ds)
      = InReturned (Some id) CallRecvMsg err -> reads_result v e ds = err ->
    exists k s' from, run step (replicate k IvRead) (InvokeConf c (InReading id false)) = Some s' /\
      iv_pc s' = InReturned (Some id) from (reads_result v e ds)).
  { intros err E <-. exists 1%nat. cbn [replicate run]. rewrite Hs, E. eauto. }
  destruct ds as [|d [|d2 ds]]; [by eapply Hone| |by eapply Hone].
  unfold first_read in *. unfold reads_result in *. destruct (is_EOF e) eqn:He; [|by eapply Hone].
  change (read_returned unmarshal id false false (ReadReturn (Some d) true None))
    with (received_err id false (unmarshal d)) in Hone, Hs.
  destruct (unmarshal d) as [e'|] eqn:Hdec; [by eapply Hone|].
  destruct (done_read id true c' v' (ReadState (cs_receiver (cc_str v')) (Some e)) [] (ReadReturn None true (Some e)) ltac:(by rewrite Hh') Hv' ltac:(by rewrite Hd', Hd) Hrd')
    as (c2 & v2 & Hs2 & _).
  { rewrite Hre', (Hst d eq_refl eq_refl).
    unfold readMsg, read_start, readMsgLocked. cbn [rs_readErr rr_err].
    rewrite bool_decide_false by done. simpl. done. }
  exists 2%nat. change (received_err id false None) with (InReading id true) in Hs.
  cbn [replicate run]. rewrite Hs. cbn [run]. rewrite Hs2. unfold read_returned, received_err. simpl. rewrite He. eauto.
Qed.

(** C9: The result of a unary call is the outcome of its RPC, unless a call before its
    reads fails.  Under every interleaving of [Invoke] with the receive loop, the
    goroutines of its stream, other RPCs and the closing of the channel, [Invoke] returns
    [nil] only after its last read, and then the RPC has succeeded with one response,
    which is decoded, and there is no second one.  Otherwise it returns, as it is, the
    first error among those of [newStream], of [SendMsg] (marshalling, a message that is
    too large, the end of the stream's context, or of the transport), of [CloseSend] (of
    the transport), and of [RecvMsg]: the outcome of the RPC, or that the response is out
    of place, or that it cannot be decoded.  Conversely, when the stream has ended with
    [e] before the first read and the frames in its queue are those of the responses
    [ds], [Invoke] returns [nil] exactly when the RPC succeeded with one response that
    can be decoded, and otherwise [e], that there were several responses, or the error of
    decoding. *)
Theorem unary_call_outcome ls s :
  Forall invoke_label_ok ls -> len ls <= MaxInt64 -> run step ls invoke_start = Some s ->
  (forall oid from err, iv_pc s = InReturned oid from err ->
     (err = None <-> from = CallExtra) /\
     match oid with
     | None => exists e, from = CallNewStream /\ err = Some e /\ newStream_error ls e
     | Some id => exists v, ch_objects (iv_channel s) !! id = Some v /\
         match from with
         | CallNewStream => False
         | CallSendMsg => exists e, err = Some e /\ SendMsg_error ls v e
         | CallCloseSend => exists e, err = Some e /\ CloseSend_error ls e
         | CallRecvMsg => exists e, err = Some e /\ RecvMsg_failed v e
         | CallExtra => succeeded v
         end
     end) /\
  (forall id v max ds ckss e,
     iv_pc s = InReading id false -> ch_objects (iv_channel s) !! id = Some v ->
     cs_done (cc_str v) = Some e -> cc_reading v = None ->
     r_closed (cs_receiver (cc_str v)) = true -> r_cancelled (cs_receiver (cc_str v)) = false ->
     Forall2 (framed max) ds ckss -> r_items (cs_receiver (cc_str v)) = chunk_frame <$> concat ckss ->
     exists k s' from, run step (replicate k IvRead) s = Some s' /\
       iv_pc s' = InReturned (Some id) from
         match ds with
         | [] => Some e
         | [d] => if is_EOF e then unmarshal d else Some e
         | _ => Some (Errorf Internal "%s sent multiple responses for non-server-stream method %s"
                        [AStr (fst (tunnelRoles (cs_reverse (cc_str v)))); AStr (cs_method (cc_str v))])
         end).
Proof.
  intros Hls Hlen Hrun. pose proof (invoke_run_inv ls s Hls Hlen Hrun) as Hinv.
  split; [|intros; by eapply reads_finished].
  destruct s as [c pc]. destruct Hinv as [_ Hpc]. cbn [iv_channel iv_pc] in *. intros oid from err ->.
  unfold pc_ok in Hpc. simpl in Hpc. destruct oid as [id|].
  - destruct Hpc as (v & [Hv _ Hok _]). simpl in Hok. destruct from; try done.
    + destruct Hok as (e & -> & He). split; [done|]. exists v. eauto.
    + destruct Hok as (e & -> & He). split; [done|]. exists v. eauto.
    + destruct Hok as (e & -> & He). split; [done|]. exists v. eauto.
    + destruct Hok as (-> & He). split; [done|]. by exists v.
  - destruct from; try done. destruct Hpc as (e & -> & He). split; [done|]. by exists e.
Qed.

(** *** A call that waits for the window when its RPC ends *)

(** [SendMsg] waits, or has been told that the context is done, or [Invoke] has
    returned that. *)
Definition told_cancelled (s : invoke_conf) (id : Z) : Prop :=
  (iv_pc s = InSending id /\ exists v k, ch_objects (iv_channel s) !! id = Some v /\
     cs_done (cc_str v) <> None /\ cs_ctxErr (cc_str v) = Some ContextCanceled /\
     c_call (cs_send (cc_str v)) = Some k /\
     ((k_pc k = PWait /\ s_windowUpdates (c_sender (cs_send (cc_str v))) = false /\ c_posts (cs_send (cc_str v)) = O) \/
      k_pc k = PRet (Some ContextCanceled))) \/
  iv_pc s = InReturned (Some id) CallSendMsg (Some ContextCanceled).

(** Nobody else wakes it. *)
Lemma nobody_wakes l v v' :
  by_caller l = false -> (forall frame, l <> CFrame frame) -> c_posts (cs_send (cc_str v)) = O ->
  client_step l v = Some v' ->
  s_windowUpdates (c_sender (cs_send (cc_str v'))) = s_windowUpdates (c_sender (cs_send (cc_str v))) /\
  c_posts (cs_send (cc_str v')) = O.
Proof.
  intros Hl Hno Hp Hs.
  assert (Hsame : cs_send (cc_str v') = cs_send (cc_str v) -> s_windowUpdates (c_sender (cs_send (cc_str v')))
    = s_windowUpdates (c_sender (cs_send (cc_str v))) /\ c_posts (cs_send (cc_str v')) = O) by (intros E; by rewrite E).
  destruct l as [frame| |m|l|sendErr| | | | | | |e]; try done; try (by destruct (Hno frame)); cbn [client_step] in Hs.
  - simpl in Hs. by rewrite Hp in Hs.
  - destruct (cc_finishing v) as [[[] ? ?]|]; simplify_eq; by apply Hsame.
  - destruct (cc_finishing v) as [[[] ? ?]|]; simplify_eq. simpl. unfold cancel_ctx. by destruct (c_ctx _).
  - destruct (cc_finishing v) as [[[] ? ?]|]; simplify_eq; by apply Hsame.
  - destruct (cc_posted v); simplify_eq; by apply Hsame.
  - destruct (cc_watching v), (cs_ctxErr (cc_str v)); simplify_eq. apply Hsame. simpl.
    by rewrite (proj1 (proj2 (proj2 (proj2 (call_finish_same _ _ _ _ v))))).
  - simpl in Hs. destruct (c_ctx (cs_send (cc_str v))); simplify_eq. by split.
Qed.

Lemma told_other ls l c c' id :
  invoke_inv ls (InvokeConf c (InSending id)) -> len ls < MaxInt64 -> told_cancelled (InvokeConf c (InSending id)) id ->
  is_own (InSending id) l = false -> channel_step l c = Some c' -> told_cancelled (InvokeConf c' (InSending id)) id.
Proof.
  intros [Hinv _] Hlen [[_ (v & k & Hv & Hd & Hc & Hk & Hw)]|?] Hown Hs; [|done]. cbn [iv_channel iv_pc] in *.
  assert (Hsees : exists v', ch_objects c' !! id = Some v' /\ stream_sees c id false v v').
  { assert (Hno : (exists e, l = KSendNew e) \/ forall e, l <> KSendNew e) by (destruct l; eauto; by right).
    destruct Hno as [(e & ->)|Hno]; [by eapply sees_opened in Hs as (_ & ?)|].
    destruct (channel_sees _ _ _ _ _ _ Hinv Hlen Hv Hs Hno) as [_ _ (v' & Hv' & Hsees)]. exists v'. split; [done|].
    assert (Hf : is_own_of id l = false); [|by rewrite Hf in Hsees].
    destruct l as [| | | |id' l| | |]; try done. simpl in *. destruct (by_caller l); [|done].
    destruct (Z.eqb_spec id' id) as [->|]; [|done]. by rewrite bool_decide_true in Hown. }
  destruct Hsees as (v' & Hv' & Hsees). pose proof (sees_same _ _ _ _ Hsees) as Hsame.
  left. split; [done|]. exists v', k. rewrite (os_call _ _ Hsame), (os_ctx _ _ Hsame _ Hc). split_and!; try done.
  - destruct (cs_done (cc_str v)) as [e|] eqn:He; [|done]. by rewrite (os_done _ _ Hsame _ He).
  - destruct Hw as [(Hpc & Htok & Hp)|?]; [left|by right].
    destruct Hsees as [->| ->| ->|l' Hs' Hl' Hfr]; try done.
    + simpl. unfold cancel_ctx. by destruct (c_ctx _).
    + destruct (nobody_wakes l' v v') as [-> ->]; try done; [destruct (by_caller l'); [by specialize (Hl' eq_refl)|done]|].
      intros frame ->. destruct (ni_table _ _ Hinv id (Hfr frame eq_refl)) as (w & Hw & Hnd). congruence.
Qed.

Lemma told_step ls l s s' id :
  invoke_inv ls s -> len ls < MaxInt64 -> told_cancelled s id -> step l s = Some s' -> told_cancelled s' id.
Proof.
  destruct s as [c pc]. intros Hinv Hlen Htold Hs. pose proof Htold as [[Hpc (v & k & Hv & Hd & Hc & Hk & Hw)]|Hpc];
    cbn [iv_channel iv_pc] in *; subst pc.
  - destruct l as [l| |e|m|l|e| | |]; try done; cbn [invoke_step iv_channel iv_pc] in Hs.
    + destruct (is_own _ _) eqn:Hown; [done|]. destruct (channel_step l c) as [c'|] eqn:Hc'; [|done].
      injection Hs as <-. by eapply told_other.
    + destruct (on_inv ls c id (CSend l) _ s' Hs (ji_channel _ _ Hinv) Hlen) as (w & v' & c' & Hw' & Hst & -> & Hv' & _ & _).
      assert (w = v) as -> by congruence. cbn [client_step] in Hst. destruct (in_send l) eqn:Hl; [|done].
      destruct (send_step l (cs_send (cc_str v))) as [c1|] eqn:Hstep; [|done]. injection Hst as Hst.
      assert (Hcall : call_step l k (cs_send (cc_str v)) = Some c1)
        by (destruct l; try done; simpl in Hstep; by rewrite Hk in Hstep).
      unfold cs_ctxErr in Hc. unfold call_step in Hcall. destruct Hw as [(Hpc & Htok & _)|Hpc]; rewrite Hpc in Hcall;
        destruct l; try done; rewrite ?Htok, ?Hc in Hcall; try done; injection Hcall as <-; subst v'; unfold send_result; simpl.
      * left. split; [done|]. eexists _, _. split_and!; [exact Hv'|done|exact Hc|done|by right].
      * right. by rewrite Hk, Hpc.
  - destruct l; try done. cbn [invoke_step iv_channel iv_pc] in Hs. destruct (is_own _ _); [done|].
    destruct (channel_step _ _); [|done]. injection Hs as <-. by right.
Qed.

Lemma told_run ls ls' s s' id :
  Forall invoke_label_ok ls -> Forall invoke_label_ok ls' -> len ls + len ls' <= MaxInt64 ->
  run step ls invoke_start = Some s -> told_cancelled s id -> run step ls' s = Some s' -> told_cancelled s' id.
Proof.
  intros Hls Hls'. revert ls s Hls. induction Hls' as [|l ls' Hl Hls' IH]; intros ls s Hls Hlen Hrun Htold Hrun';
    simpl in Hrun'; [by simplify_eq|].
  destruct (step l s) as [s1|] eqn:Hs; [|done]. rewrite len_cons in Hlen. pose proof (len_nonneg ls').
  pose proof (invoke_run_inv ls s Hls ltac:(lia) Hrun) as Hinv.
  apply (IH (ls ++ [l]) s1); [by apply Forall_app; split; [|constructor]| |by rewrite run_app, Hrun; simpl; rewrite Hs| |done].
  - rewrite len_app. change (len [l]) with 1. lia.
  - eapply told_step; [exact Hinv|lia|done|done].
Qed.

(** It returns when [send] goes on. *)
Lemma told_returns c id v k :
  id ∈ ch_handed c -> ch_objects c !! id = Some v -> cs_ctxErr (cc_str v) = Some ContextCanceled ->
  c_call (cs_send (cc_str v)) = Some k -> k_pc k = PWait ->
  exists s', run step [IvSend LCtxDone; IvSend LReturn] (InvokeConf c (InSending id)) = Some s' /\
    iv_pc s' = InReturned (Some id) CallSendMsg (Some ContextCanceled).
Proof.
  intros Hh Hv Hc Hk Hw.
  assert (Hs1 : exists v1, client_step (CSend LCtxDone) v = Some v1 /\
    c_call (cs_send (cc_str v1)) = Some (set_pc (PRet (Some ContextCanceled)) k)).
  { cbn [client_step in_send]. simpl. rewrite Hk. unfold call_step. rewrite Hw. unfold cs_ctxErr in Hc. rewrite Hc. eauto. }
  destruct Hs1 as (v1 & Hs1 & Hk1).
  destruct (own_runs id _ c v v1 Hh Hv Hs1 ltac:(done)) as (c1 & Hc1 & Hv1 & Hh1).
  assert (Hs2 : exists v2, client_step (CSend LReturn) v1 = Some v2 /\ c_call (cs_send (cc_str v2)) = None).
  { cbn [client_step in_send]. simpl. rewrite Hk1. unfold call_step. simpl. eauto. }
  destruct Hs2 as (v2 & Hs2 & Hk2).
  destruct (own_runs id _ c1 v1 v2 ltac:(by rewrite Hh1) Hv1 Hs2 ltac:(done)) as (c2 & Hc2 & Hv2 & _).
  assert (E1 : step (IvSend LCtxDone) (InvokeConf c (InSending id)) = Some (InvokeConf c1 (InSending id))).
  { cbn [invoke_step iv_channel iv_pc]. by rewrite Hv, Hc1, Hv1, Hk1. }
  assert (E2 : step (IvSend LReturn) (InvokeConf c1 (InSending id))
    = Some (InvokeConf c2 (InReturned (Some id) CallSendMsg (Some ContextCanceled)))).
  { cbn [invoke_step iv_channel iv_pc]. rewrite Hv1, Hc2, Hv2, Hk2. unfold send_result. by rewrite Hk1. }
  exists (InvokeConf c2 (InReturned (Some id) CallSendMsg (Some ContextCanceled))).
  split; [|done]. cbn [run]. by rewrite E1, E2.
Qed.

(** C39: A unary call whose RPC ends while its request is being sent does not report
    why.  When [SendMsg] waits for the window, the stream is done, with whatever status
    the server has sent, [finishStream] has cancelled its context, and no window update
    is left to wake it, then whatever else happens, [Invoke] can only return
    [context.Canceled], from [SendMsg]; and it does so when [send] goes on. *)
Theorem invoke_hides_status ls s id v k err :
  Forall invoke_label_ok ls -> len ls <= MaxInt64 -> run step ls invoke_start = Some s -> iv_pc s = InSending id ->
  ch_objects (iv_channel s) !! id = Some v -> cs_done (cc_str v) = Some err ->
  cs_ctxErr (cc_str v) = Some ContextCanceled -> c_call (cs_send (cc_str v)) = Some k -> k_pc k = PWait ->
  s_windowUpdates (c_sender (cs_send (cc_str v))) = false -> c_posts (cs_send (cc_str v)) = O ->
  (forall ls' s', Forall invoke_label_ok ls' -> len ls + len ls' <= MaxInt64 -> run step ls' s = Some s' ->
     iv_pc s' = InSending id \/ iv_pc s' = InReturned (Some id) CallSendMsg (Some ContextCanceled)) /\
  (exists s', run step [IvSend LCtxDone; IvSend LReturn] s = Some s' /\
     iv_pc s' = InReturned (Some id) CallSendMsg (Some ContextCanceled)).
Proof.
  intros Hls Hlen Hrun Hpc Hv Hd Hc Hk Hw Htok Hp.
  assert (Htold : told_cancelled s id).
  { left. split; [done|]. exists v, k. rewrite Hd. split_and!; try done. by left. }
  split.
  - intros ls' s' Hls' Hlen' Hrun'.
    destruct (told_run ls ls' s s' id Hls Hls' Hlen' Hrun Htold Hrun') as [[? _]|?]; auto.
  - destruct s as [c pc]. cbn [iv_channel iv_pc] in *. subst pc.
    destruct (invoke_run_inv ls _ Hls Hlen Hrun) as [_ (w & [_ _ _ Hh])]. by eapply told_returns.
Qed.
End InvokeProperties.

(** ** Examples *)
Module InvokeExample.
#[local] Existing Instance ExampleStatus.lib.
#[local] Existing Instance ExampleMetadata.lib.
#[local] Existing Instance ExampleAppend.lib.

Definition A (n : nat) : bytes := repeat Corelib.Init.Byte.x41 n.
Definition opts : tunnelOpts := TunnelChannelExample.opts.
(** The response of one byte cannot be decoded. *)
Definition unmarshal (d : bytes) : option error := if len d =? 1 then Some (ErrorsNew "proto") else None.
Definition step : invoke_label -> invoke_conf -> option invoke_conf :=
  invoke_step unmarshal None None "/svc/Method" [].
Definition start : invoke_conf := invoke_start true false false opts None.
Definition at_end (ls : list invoke_label) : invoke_conf := default start (run step ls start).
Definition stream (s : invoke_conf) : client_conf :=
  default (unwatched (make_client_stream (iv_channel start) (MkSettings [] 0) 1 (invoke_args None None "/svc/Method" [])))
    (ch_objects (iv_channel s) !! 1).

Definition frame (f : ServerToClientFrame) : invoke_label := IvOther (TunnelChannelExample.from_server 1 f).
Definition close_frame (st : status) : invoke_label := frame (ServerToClient_CloseStream (MkCloseStream None st)).
Definition finish : list invoke_label := [IvOther (KStream 1 CMeta); IvOther (KStream 1 CDeferred)].

(** The channel is established with the window [w] of the server. *)
Definition call (w : Z) (request : nat) : list invoke_label :=
  [IvOther KStart; IvOther (KRecv (inr (settings_message (initOptions zero_options [WithInitialWindowSize w]))));
   IvNewStream; IvSent None; IvMarshalled (inr (A request)); IvSend LLoad; IvSend LCas; IvSend (LCall None)].
Definition sent : list invoke_label := call 65536 3 ++ [IvSend LReturn; IvHalfClose None].
Definition answered (n : nat) : list invoke_label :=
  sent ++ [frame (response_frame (A n) (Z.of_nat n) true); close_frame (Status OK (Msg "" []))] ++ finish.

(** A request of 2000 bytes waits for the window when the server rejects the RPC. *)
Definition unimplemented : status := Status Unimplemented (Msg "svc/Method not implemented" []).
Definition rejected : list invoke_label := call 1024 2000 ++ [IvSend LLoad; close_frame unimplemented] ++ finish.

Example answer_returned : iv_pc (at_end (answered 2 ++ [IvRead; IvRead])) = InReturned (Some 1) CallExtra None.
Proof. vm_compute. reflexivity. Qed.
Example answer_not_decoded :
  iv_pc (at_end (answered 1 ++ [IvRead])) = InReturned (Some 1) CallRecvMsg (Some (ErrorsNew "proto")).
Proof. vm_compute. reflexivity. Qed.
End InvokeExample.

#[local] Existing Instance ExampleStatus.lib.
#[local] Existing Instance ExampleAppend.lib.

Lemma unary_call_outcome_witness :
  succeeded InvokeExample.unmarshal (InvokeExample.stream (InvokeExample.at_end (InvokeExample.answered 2 ++ [IvRead; IvRead]))) /\
  exists k s' from, run InvokeExample.step (replicate k IvRead) (InvokeExample.at_end (InvokeExample.answered 2)) = Some s' /\
    iv_pc s' = InReturned (Some 1) from None.
Proof.
  split.
  - destruct (proj1 (unary_call_outcome (H1 := ExampleAppend.lib) InvokeExample.unmarshal None None "/svc/Method" []
      true false false InvokeExample.opts None TunnelChannelExample.example_opts_ok
      (InvokeExample.answered 2 ++ [IvRead; IvRead]) (InvokeExample.at_end (InvokeExample.answered 2 ++ [IvRead; IvRead]))
      ltac:(repeat constructor; vm_compute; congruence) ltac:(vm_compute; discriminate) ltac:(vm_compute; reflexivity))
      (Some 1) CallExtra None InvokeExample.answer_returned) as (_ & v & Hv & Hok).
    assert (v = InvokeExample.stream (InvokeExample.at_end (InvokeExample.answered 2 ++ [IvRead; IvRead]))) as <-
      by (unfold InvokeExample.stream; rewrite Hv; reflexivity).
    exact Hok.
  - exact (proj2 (unary_call_outcome (H1 := ExampleAppend.lib) InvokeExample.unmarshal None None "/svc/Method" []
      true false false InvokeExample.opts None TunnelChannelExample.example_opts_ok
      (InvokeExample.answered 2) (InvokeExample.at_end (InvokeExample.answered 2))
      ltac:(repeat constructor; vm_compute; congruence) ltac:(vm_compute; discriminate) ltac:(vm_compute; reflexivity))
      1 (InvokeExample.stream (InvokeExample.at_end (InvokeExample.answered 2))) 5
      [InvokeExample.A 2] [[Chunk (InvokeExample.A 2) 2 true]] EOF
      ltac:(vm_compute; reflexivity) ltac:(vm_compute; reflexivity) ltac:(vm_compute; reflexivity)
      ltac:(vm_compute; reflexivity) ltac:(vm_compute; reflexivity) ltac:(vm_compute; reflexivity)
      ltac:(repeat constructor; exists (Chunk (InvokeExample.A 2) 2 true), [], []; repeat split; vm_compute; congruence)
      ltac:(vm_compute; reflexivity)).
Defined.

(** The status of the server is not what [Invoke] returns. *)
Lemma invoke_hides_status_witness :
  cs_done (cc_str (InvokeExample.stream (InvokeExample.at_end InvokeExample.rejected)))
    = Some (StatusError InvokeExample.unimplemented) /\
  exists s', run InvokeExample.step [IvSend LCtxDone; IvSend LReturn] (InvokeExample.at_end InvokeExample.rejected) = Some s' /\
    iv_pc s' = InReturned (Some 1) CallSendMsg (Some ContextCanceled).
Proof.
  split; [vm_compute; reflexivity|].
  destruct (c_call (cs_send (cc_str (InvokeExample.stream (InvokeExample.at_end InvokeExample.rejected))))) as [k|] eqn:Hk;
    [|vm_compute in Hk; discriminate Hk].
  exact (proj2 (invoke_hides_status (H1 := ExampleAppend.lib) InvokeExample.unmarshal None None "/svc/Method" []
    true false false InvokeExample.opts None TunnelChannelExample.example_opts_ok
    InvokeExample.rejected (InvokeExample.at_end InvokeExample.rejected) 1
    (InvokeExample.stream (InvokeExample.at_end InvokeExample.rejected)) k (StatusError InvokeExample.unimplemented)
    ltac:(repeat constructor; vm_compute; congruence) ltac:(vm_compute; discriminate) ltac:(vm_compute; reflexivity)
    ltac:(vm_compute; reflexivity) ltac:(vm_compute; reflexivity) ltac:(vm_compute; reflexivity) ltac:(vm_compute; reflexivity)
    Hk ltac:(vm_compute in Hk; injection Hk as <-; reflexivity) ltac:(vm_compute; reflexivity) ltac:(vm_compute; reflexivity))).
Defined.
