(* ===== verification/Tunnel.v ===== *)
(** * A whole tunnel

    The channel of TunnelChannel.v and the server of TunnelServer.v, each
    with the options of its own end, connected by a transport that delivers every
    message in order.  Both ends run at the same time, and messages may be under
    way for any time. *)
From stdpp Require Import gmap sets.
From S2P Require Import Prelude Status Protocol Options FlowSender FlowReceiver Reassembly.
From S2P Require Import ServerStream TunnelServer ClientStream TunnelChannel.

Record tunnel := Tunnel {
  tn_channel : tunnelChannel;
  tn_server : tunnelServer;
  tn_up : nat;        (** how many messages of the channel the server has received *)
  tn_down : nat;      (** how many messages of the server the channel has received *)
}.

Inductive tunnel_label :=
  | AtChannel (l : channel_label)     (** anything but the receipt of a message *)
  | AtServer (l : server_label)
  | Up (closing : bool)               (** the server receives the next message *)
  | Down.                             (** the channel receives the next message *)

Section TunnelSteps.
Context `{StatusLib} `{MetadataAppend} (QueryService : string -> option ServiceDesc).

Definition tunnel_step (l : tunnel_label) (t : tunnel) : option tunnel :=
  match l with
  | AtChannel (KRecv (inr _)) => None
  | AtChannel l =>
      match channel_step l (tn_channel t) with
      | Some c => Some (Tunnel c (tn_server t) (tn_up t) (tn_down t))
      | None => None
      end
  | AtServer (TRecv _ (inr _)) => None
  | AtServer l =>
      match server_step QueryService l (tn_server t) with
      | Some s => Some (Tunnel (tn_channel t) s (tn_up t) (tn_down t))
      | None => None
      end
  | Up closing =>
      match ch_wire (tn_channel t) !! tn_up t with
      | Some m =>
          match server_step QueryService (TRecv closing (inr m)) (tn_server t) with
          | Some s => Some (Tunnel (tn_channel t) s (S (tn_up t)) (tn_down t))
          | None => None
          end
      | None => None
      end
  | Down =>
      match ts_wire (tn_server t) !! tn_down t with
      | Some m =>
          match channel_step (KRecv (inr m)) (tn_channel t) with
          | Some c => Some (Tunnel c (tn_server t) (tn_up t) (S (tn_down t)))
          | None => None
          end
      | None => None
      end
  end.

(** A tunnel that has just been opened between two ends of this package. *)
Definition tunnel_start (reverse secure : bool) (client_opts server_opts : tunnelOpts)
    (client_ctx server_ctx : option error) : tunnel :=
  Tunnel (newTunnelChannel true reverse secure client_opts client_ctx)
    (serveTunnel true reverse server_opts server_ctx) 0 0.
End TunnelSteps.

(** ** What a server sends *)
Definition is_settings_id (m : ServerToClient) : bool := S2C_StreamId m =? -1.

Definition server_out (s : tunnelServer) : list ServerToClient := ts_wire s ++ ts_posted s.

Section ServerOutput.
Context `{StatusLib} `{MetadataLib} (QueryService : string -> option ServiceDesc).

(** Apart from the settings it is about streams whose IDs the client has used. *)
Definition out_known (s : tunnelServer) : Prop :=
  Forall (fun m => m = settings_message (ts_opts s) \/ 0 <= S2C_StreamId m <= ts_lastSeen s)
    (server_out s) /\
  count is_settings_id (server_out s) = 1.

(** What an action adds to it. *)
Definition out_grows (s s' : tunnelServer) : Prop :=
  ts_opts s' = ts_opts s /\ ts_lastSeen s <= ts_lastSeen s' /\
  (exists ws, ts_wire s' = ts_wire s ++ ws) /\
  exists ms, server_out s' ≡ₚ server_out s ++ ms /\
    Forall (fun m => 0 <= S2C_StreamId m <= ts_lastSeen s') ms.

Lemma out_grows_nothing s s' :
  ts_opts s' = ts_opts s -> ts_lastSeen s <= ts_lastSeen s' -> ts_wire s' = ts_wire s ->
  ts_posted s' = ts_posted s -> out_grows s s'.
Proof.
  intros E1 E2 E3 E4. unfold out_grows, server_out. rewrite E3, E4. split_and!; try done.
  - exists []. by rewrite app_nil_r.
  - exists []. by rewrite app_nil_r.
Qed.

Lemma run_stream_out id l s s' :
  server_inv s -> run_stream id l s = Some s' -> out_grows s s'.
Proof.
  intros Hinv Hrun. destruct (run_stream_seen _ _ _ _ Hrun) as (Hseen & _ & _).
  unfold run_stream in Hrun. destruct (ts_objects s !! id) as [v|] eqn:Hv; [|done].
  pose proof (vi_ids _ Hinv id v Hv) as Hid.
  destruct (stream_step l v) as [v'|]; [|done].
  assert (Hout : ts_opts s' = ts_opts s /\ ts_posted s' = ts_posted s /\
    ts_wire s' = ts_wire s ++ (tag id <$> new_frames v v'))
    by (destruct (began_finish v v'); by injection Hrun as <-).
  destruct Hout as (E1 & E2 & E3). unfold out_grows, server_out. rewrite E1, E2, E3, Hseen.
  split_and!; [done|done|by eexists|]. exists (tag id <$> new_frames v v'). split.
  - rewrite <- !app_assoc. apply Permutation_app_head, Permutation_app_comm.
  - by apply Forall_fmap, Forall_forall.
Qed.

Lemma server_step_out l s s' :
  label_ok l -> server_inv s -> server_step QueryService l s = Some s' -> out_grows s s'.
Proof.
  intros Hl Hinv Hs. destruct l as [closing res|id l|i|e]; cbn [server_step] in Hs.
  - destruct (loop_idle s); [|done]. destruct res as [e|m]; [injection Hs as <-; by apply out_grows_nothing|].
    cbn [serve_recv] in Hs.
    assert (Hframe : forall frame,
      match getStream (C2S_StreamId m) s with
      | NeverCreated e => Some (serve_return (Some e) s)
      | Ignored => Some s
      | Found => run_stream (C2S_StreamId m) (FFrame frame) (set_loop (C2S_StreamId m) s)
      end = Some s' -> out_grows s s').
    { intros frame. destruct (getStream _ s); intros Hr.
      - by apply (run_stream_out _ _ (set_loop (C2S_StreamId m) s) _ (inv_set_loop _ _ Hinv)) in Hr.
      - injection Hr as <-. by apply out_grows_nothing.
      - injection Hr as <-. by apply out_grows_nothing. }
    simpl in Hl. destruct (C2S_Frame m) as [[frame| | | | |]|]; try by eapply Hframe.
    pose proof (vi_seen _ Hinv).
    destruct (createStream_cases QueryService closing (C2S_StreamId m) frame s Hinv Hl)
      as [(Hle & e & Hc)|(Hlt & [(e & Hc)|(v & _ & _ & _ & _ & Hc)])]; rewrite Hc in Hs.
    + injection Hs as <-. by apply out_grows_nothing.
    + injection Hs as <-. unfold out_grows, server_out. simpl. split_and!; [done|lia| |].
      * exists []. by rewrite app_nil_r.
      * exists [reject_message (C2S_StreamId m) e]. split; [by rewrite app_assoc|].
        constructor; [|done]. simpl. lia.
    + injection Hs as <-. apply out_grows_nothing; try done. simpl. lia.
  - assert (exists l, run_stream id l s = Some s') as (l' & Hr) by (destruct l; by eauto).
    by eapply run_stream_out.
  - destruct (ts_posted s !! i) as [m|] eqn:Hi; [|done]. injection Hs as <-.
    unfold out_grows, server_out. simpl. split_and!; [done|done|by eexists|]. exists [].
    rewrite app_nil_r. split; [|done]. rewrite <- app_assoc. apply Permutation_app_head.
    symmetry. by apply delete_Permutation.
  - destruct (ts_ctxErr s); [done|]. injection Hs as <-. by apply out_grows_nothing.
Qed.

Lemma out_known_grows s s' : out_known s -> out_grows s s' -> out_known s'.
Proof.
  intros [Hk Hc] (E1 & E2 & _ & ms & Hperm & Hms). split.
  - rewrite Hperm, E1. apply Forall_app. split; [|by eapply Forall_impl; [exact Hms|]; intros; right].
    eapply Forall_impl; [exact Hk|]. intros m [->|?]; [by left|right; lia].
  - rewrite (count_perm _ _ _ Hperm), count_app, Hc, count_none; [done|].
    eapply Forall_impl; [exact Hms|]. intros m Hm. simpl in Hm. apply Z.eqb_neq. lia.
Qed.
End ServerOutput.

(** ** What a channel does in one action *)
Section ChannelFacts.
Context `{StatusLib} `{MetadataAppend}.

(** No stream exists before the settings are there. *)
Definition fresh (c : tunnelChannel) : Prop := ch_settings c = None -> ch_objects c = ∅.

Record channel_goes (l : channel_label) (c c' : tunnelChannel) : Prop := {
  cg_sends : ch_serverSendsSettings c' = ch_serverSendsSettings c;
  cg_wire : exists ms, ch_wire c' = ch_wire c ++ ms;
  cg_settings : ch_settings c <> None -> ch_settings c' <> None;
  cg_loop : ch_settings c = None -> (forall res, l <> KRecv res) ->
    ch_settings c' = None /\ (ch_loop c = LSettings -> ch_loop c' = LSettings);
  cg_fresh : fresh c -> fresh c';
}.

Lemma goes_same l c c' :
  ch_serverSendsSettings c' = ch_serverSendsSettings c -> ch_wire c' = ch_wire c ->
  ch_settings c' = ch_settings c -> (forall res, l <> KRecv res) \/ ch_settings c <> None ->
  ch_loop c' = ch_loop c \/ ch_loop c <> LSettings ->
  (ch_objects c = ∅ -> ch_settings c = None -> ch_objects c' = ∅) -> channel_goes l c c'.
Proof.
  intros E1 E2 E3 E4 E5 E6. split; unfold fresh; rewrite ?E1, ?E2, ?E3; auto.
  - exists []. by rewrite app_nil_r.
  - intros Hs _. split; [done|]. intros Hl. destruct E5 as [->|]; done.
Qed.

Lemma goes_close l err c : channel_goes l c (fst (channel_close err c)).
Proof.
  unfold channel_close. destruct (ch_finished c); simpl.
  - split; auto. exists []. by rewrite app_nil_r.
  - split; unfold fresh; simpl; auto; [exists []; by rewrite app_nil_r|].
    intros Hf Hs. rewrite (Hf Hs). apply map_eq. intros i. by rewrite map_lookup_imap.
Qed.

Lemma goes_loop_close l err c :
  ch_loop c <> LSettings \/ (exists res, l = KRecv res) -> channel_goes l c (loop_close err c).
Proof.
  intros Hl. destruct (goes_close l err c) as [G1 G2 G3 G4 G5]. split; auto.
  intros Hs Hn. split; [by apply G4|]. intros Hlp. destruct Hl as [?|(res & ->)]; [done|].
  by destruct (Hn res).
Qed.

Lemma goes_run_client l id cl c c' :
  run_client id cl c = Some c' -> channel_goes l c c'.
Proof.
  intros (v & v' & objects & Hv & _ & -> & ->)%run_client_inv.
  split; unfold fresh; simpl; auto; [by eexists|]. intros Hf Hs. rewrite (Hf Hs) in Hv.
  by rewrite lookup_empty in Hv.
Qed.

Lemma goes_recv_settings m c :
  ch_settings c = None -> channel_goes (KRecv m) c (recv_settings m c).
Proof.
  intros Hset. unfold recv_settings. destruct (tunnelRoles _).
  assert (Hlc : forall e, channel_goes (KRecv m) c (loop_close e c))
    by (intros; apply goes_loop_close; right; by eexists).
  destruct m as [e|m]; [done|]. destruct (negb _); [done|].
  destruct (S2C_Frame m) as [[st|?|?|?|?|?]|]; try done.
  destruct (check_settings _ _) as [rev [e|]].
  - assert (Hc1 : channel_goes (KRecv (inr m)) (kset_settings None rev c)
        (loop_close (Some e) (kset_settings None rev c))) by (apply goes_loop_close; right; by eexists).
    destruct Hc1 as [G1 G2 G3 G4 G5]. split; try done.
    + by intros _ Hno; destruct (Hno (inr m)).
    + intros Hf. apply G5. intros _. by apply Hf.
  - split; try done.
    + exists []. by rewrite app_nil_r.
    + by intros _ Hno; destruct (Hno (inr m)).
Qed.

Lemma channel_step_goes l c c' :
  match ch_loop c with LStart | LSettings => ch_settings c = None | _ => True end ->
  channel_step l c = Some c' -> channel_goes l c c'.
Proof.
  intros Hset Hs. destruct l as [|res|a|e|id l| | |e].
  - cbn [channel_step] in Hs. destruct (ch_loop c) eqn:Hlp; try done. injection Hs as <-.
    destruct (ch_serverSendsSettings c) eqn:Hsend.
    + apply goes_same; try done; [by left|right; by rewrite Hlp].
    + apply goes_loop_close. left. by rewrite Hlp.
  - cbn [channel_step] in Hs. destruct (ch_loop c) as [| |o|] eqn:Hlp; try done.
    + injection Hs as <-. by apply goes_recv_settings.
    + destruct (channel_loop_idle o c); [|done]. unfold recv_frame in Hs.
      destruct res as [e|m]; [injection Hs as <-; apply goes_loop_close; right; by eexists|].
      destruct (channel_getStream _ _).
      * apply (goes_run_client (KRecv (inr m))) in Hs as [G1 G2 G3 G4 G5].
        split; auto. intros _ Hno. by destruct (Hno (inr m)).
      * injection Hs as <-. split; auto. exists []. by rewrite app_nil_r.
      * injection Hs as <-. apply goes_loop_close. right. by eexists.
  - cbn [channel_step] in Hs. destruct (ch_creating c); [done|].
    unfold newStream_begin, allocateStream in Hs.
    assert (Hid : channel_goes (KNewStream a) c c) by (by apply goes_same; auto).
    assert (Hl : channel_goes (KNewStream a) c (kset_last (i64 (ch_lastStreamID c + 1)) c))
      by (by apply goes_same; auto).
    destruct (ch_finished c); [by simplify_eq|]. destruct (_ <? 0); [by simplify_eq|].
    destruct (in_table _ _); [by simplify_eq|].
    destruct (apply_call_options _ _ _) as [|[e|md]]; [done|by simplify_eq|]. simpl in Hs.
    destruct (ch_settings c) as [st|] eqn:Hst; [|done]. injection Hs as <-.
    apply goes_same; simpl; auto; by rewrite Hst.
  - cbn [channel_step] in Hs. unfold newStream_end in Hs.
    destruct (ch_creating c) as [[id fr]|]; [|done]. destruct e; injection Hs as <-.
    + by apply goes_same; auto.
    + split; unfold fresh; simpl; auto; [by eexists|]. intros Hf Hn. rewrite (Hf Hn).
      apply map_eq. intros i. by rewrite lookup_alter, lookup_empty; destruct (decide _).
  - apply kstream_inv in Hs as [Hr _]. by eapply goes_run_client.
  - injection Hs as <-. apply goes_close.
  - cbn [channel_step] in Hs. destruct (_ && _); [|done].
    destruct (ch_settings c); injection Hs as <-; [|apply goes_close]. by apply goes_same; auto.
  - cbn [channel_step] in Hs. destruct (ch_ctxErr c); [done|]. injection Hs as <-.
    by apply goes_same; auto.
Qed.

(** Who closes a channel. *)
Definition closes (l : channel_label) : bool :=
  match l with KClose | KTimeout | KRecv (inl _) => true | _ => false end.

Definition rejects (m : ServerToClient) (c : tunnelChannel) : bool :=
  match ch_loop c with
  | LSettings => match ch_settings (recv_settings (inr m) c) with None => true | Some _ => false end
  | _ => match channel_getStream (S2C_StreamId m) c with CNeverCreated _ => true | _ => false end
  end.

Lemma loop_close_settings err c : ch_settings (loop_close err c) = ch_settings c.
Proof. unfold loop_close, channel_close. by destruct (ch_finished c). Qed.

Lemma recv_settings_accepted res c s :
  ch_settings c = None -> ch_settings (recv_settings res c) = Some s ->
  ch_finished (recv_settings res c) = ch_finished c /\ ch_loop (recv_settings res c) = LReceiving None.
Proof.
  intros Hc. unfold recv_settings. destruct (tunnelRoles _).
  destruct res as [e|m]; [rewrite loop_close_settings; congruence|].
  destruct (negb _); [rewrite loop_close_settings; congruence|].
  destruct (S2C_Frame m) as [[st|?|?|?|?|?]|]; try (rewrite loop_close_settings; congruence).
  destruct (check_settings _ _) as [rev [e|]]; [by rewrite loop_close_settings|done].
Qed.

Lemma finished_step l c c' :
  match ch_loop c with LStart | LSettings => ch_settings c = None | _ => True end ->
  channel_step l c = Some c' -> ch_finished c' = true -> ch_serverSendsSettings c = true ->
  ch_finished c = true \/ closes l = true \/ exists m, l = KRecv (inr m) /\ rejects m c = true.
Proof.
  intros Hset Hs Hf Hsend. destruct l as [|[e|m]|a|e|id l| | |e]; try (right; by left); cbn [channel_step] in Hs.
  - rewrite Hsend in Hs. destruct (ch_loop c); try done. injection Hs as <-. by left.
  - destruct (rejects m c) eqn:Hr; [right; right; by exists m|left]. unfold rejects in Hr.
    destruct (ch_loop c) as [| |o|] eqn:Hlp; try done.
    + injection Hs as <-. destruct (ch_settings (recv_settings _ _)) as [s|] eqn:Hst; [|done].
      destruct (recv_settings_accepted _ _ _ Hset Hst). congruence.
    + destruct (channel_loop_idle o c); [|done]. cbn [recv_frame] in Hs.
      destruct (channel_getStream _ c); [|by simplify_eq|done].
      by apply run_client_inv in Hs as (v & v' & obs & _ & _ & _ & ->).
  - destruct (ch_creating c); [done|]. left. unfold newStream_begin, allocateStream in Hs.
    destruct (ch_finished c) eqn:Hfc; [done|]. destruct (_ <? 0); [simplify_eq/=; congruence|].
    destruct (in_table _ _); [simplify_eq/=; congruence|].
    destruct (apply_call_options _ _ _) as [|[e|md]]; [done|simplify_eq/=; congruence|].
    destruct (ch_settings _); simplify_eq/=; congruence.
  - left. unfold newStream_end in Hs. destruct (ch_creating c) as [[id fr]|], e; by simplify_eq/=.
  - left. apply (kstream_inv id l) in Hs as [(v & v' & obs & _ & _ & _ & ->)%run_client_inv _]. done.
  - left. destruct (ch_ctxErr c); by simplify_eq/=.
Qed.
End ChannelFacts.

(** ** Invariant of the tunnel *)
Section TunnelInvariant.
Context `{StatusLib} `{MetadataAppend} (QueryService : string -> option ServiceDesc).
Context (reverse secure : bool) (client_opts server_opts : tunnelOpts).
Context (client_ctx server_ctx : option error).
Context (Hco : opts_ok client_opts) (Hso : opts_ok server_opts).

Abbreviation start := (tunnel_start reverse secure client_opts server_opts client_ctx server_ctx).

(** The transport does not fail towards the server. *)
Definition delivers (l : tunnel_label) : bool :=
  match l with AtServer l => negb (recv_fails l) | _ => true end.

(** The channel is closed by its owner, its timer, or a failure of the transport. *)
Definition closed_from_outside (l : tunnel_label) : bool :=
  match l with AtChannel l => closes l | _ => false end.

Definition server_ran (lss : list server_label) (t : tunnel) : Prop :=
  run (server_step QueryService) lss (serveTunnel true reverse server_opts server_ctx)
    = Some (tn_server t) /\
  Forall label_ok lss /\ Forall (fun l => recv_fails l = false) lss /\
  received lss = take (tn_up t) (ch_wire (tn_channel t)).

Record tunnel_inv (ls : list tunnel_label) (t : tunnel) : Prop := {
  ti_channel : channel_inv (len ls) (tn_channel t);
  ti_fresh : fresh (tn_channel t);
  ti_sends : ch_serverSendsSettings (tn_channel t) = true;
  ti_server : exists lss, server_ran lss t;
  ti_up : (tn_up t <= length (ch_wire (tn_channel t)))%nat;
  ti_out : out_known (tn_server t) /\ ts_opts (tn_server t) = server_opts;
  ti_down : match ch_loop (tn_channel t) with
            | LStart | LSettings => tn_down t = O
            | LReceiving _ => (1 <= tn_down t)%nat
            | LExited => True
            end;
  ti_first : (1 <= tn_down t)%nat -> head (ts_wire (tn_server t)) = Some (settings_message server_opts);
  ti_closed : ch_finished (tn_channel t) = true -> Exists (fun l => closed_from_outside l = true) ls;
}.

Lemma tunnel_start_inv : tunnel_inv [] start.
Proof.
  split; simpl; try done.
  - by apply channel_start_inv.
  - exists []. by split_and!.
  - split; [|done]. split; [|done]. constructor; [by left|done].
  - by intros ?%Nat.nle_succ_0.
Qed.

(** What the server has seen has been sent by the channel. *)
Lemma server_behind lss t n :
  channel_inv n (tn_channel t) -> server_ran lss t ->
  server_inv (tn_server t) /\ ts_result (tn_server t) = None /\
  (0 <= ts_lastSeen (tn_server t) ->
   1 <= ts_lastSeen (tn_server t) <= ch_lastStreamID (tn_channel t)) /\
  (ts_lastSeen (tn_server t) = -1 \/ ch_handed (tn_channel t) <> ∅).
Proof.
  intros Hinv (Hrun & Hls & Hnf & Hrec). destruct (ni_wire _ _ Hinv) as (Hwf & Hms & _).
  assert (Hwf' : well_formed (received lss)).
  { rewrite Hrec. apply (well_formed_prefix _ (drop (tn_up t) (ch_wire (tn_channel t)))).
    by rewrite take_drop. }
  destruct (server_served QueryService true reverse server_opts server_ctx Hso lss _ Hrun Hls Hwf' Hnf)
    as [Hsinv (Hres & _ & Hmax)].
  split_and!; [done|done| |].
  - intros Hpos. destruct Hmax as [Hneg|(m & Hin & Hn & Hid)]; [lia|]. rewrite Hrec in Hin.
    apply (subseteq_take (tn_up t)) in Hin. destruct (Hms m Hin) as [Hh _]. rewrite Hid in Hh.
    destruct (ni_handed _ _ Hinv _ Hh) as [v Hv]. apply (ob_id _ _ _ (ni_objects _ _ Hinv _ v Hv)).
  - destruct Hmax as [?|(m & Hin & Hn & Hid)]; [by left|right]. rewrite Hrec in Hin.
    apply (subseteq_take (tn_up t)) in Hin. destruct (Hms m Hin) as [Hh _].
    intros E. rewrite E in Hh. by apply not_elem_of_empty in Hh.
Qed.

Lemma fresh_unseen lss t n :
  channel_inv n (tn_channel t) -> server_ran lss t -> fresh (tn_channel t) ->
  ch_settings (tn_channel t) = None -> ts_lastSeen (tn_server t) = -1.
Proof.
  intros Hinv Hran Hfresh Hset. destruct (server_behind lss t n Hinv Hran) as (_ & _ & _ & [?|Hne]); [done|].
  destruct Hne. apply set_eq. intros id. split; [|by intros ?%not_elem_of_empty].
  intros Hid. destruct (ni_handed _ _ Hinv id Hid) as [v Hv].
  by rewrite (Hfresh Hset), lookup_empty in Hv.
Qed.

(** The first message of the server establishes the channel. *)
Lemma settings_accepted c :
  ch_settings (recv_settings (inr (settings_message server_opts)) c) <> None.
Proof.
  unfold recv_settings. destruct (tunnelRoles _). simpl.
  unfold check_settings. destruct (tunnelRoles _). simpl.
  pose proof (oo_window _ Hso) as [Hw _]. unfold minInitialWindowSize in Hw.
  change (minWindowSize (Z.max (Z.max REVISION_ZERO REVISION_ONE) REVISION_TWO)) with 6.
  by destruct (Z.ltb_spec (initialWindowSize server_opts) 6); [lia|].
Qed.

(** The message that the channel receives next. *)
Lemma next_down ls t m :
  tunnel_inv ls t -> ts_wire (tn_server t) !! tn_down t = Some m ->
  match ch_loop (tn_channel t) with
  | LSettings => m = settings_message server_opts
  | LReceiving _ => rejects m (tn_channel t) = false
  | _ => True
  end.
Proof.
  intros [I1 I2 I3 (lss & Hran) I5 [[Hk Hcnt] Hopts] I7 I8 _] Hm.
  destruct (server_behind lss t _ I1 Hran) as (Hsinv & _ & Hseen & _).
  unfold server_out in *. apply Forall_app in Hk as [Hk _]. rewrite Forall_forall in Hk.
  pose proof (Hk m ltac:(by eapply list_elem_of_lookup_2)) as Hmk. rewrite Hopts in Hmk.
  pose proof (ni_loop _ _ I1) as Hloop. destruct (ch_loop (tn_channel t)) eqn:Hlp; try done.
  - destruct Hmk as [->|Hid]; [done|].
    rewrite (fresh_unseen lss t _ I1 Hran I2 Hloop) in Hid. lia.
  - specialize (I8 I7). destruct (ts_wire (tn_server t)) as [|m0 rest] eqn:Hw; [done|].
    injection I8 as ->. rewrite <- app_comm_cons, count_cons, count_app in Hcnt.
    change (is_settings_id (settings_message server_opts)) with true in Hcnt.
    destruct (tn_down t) as [|k]; [lia|]. simpl in Hm.
    assert (Hne : is_settings_id m = false).
    { apply list_elem_of_split_length in Hm as (pre & post & -> & _).
      rewrite count_app, count_cons in Hcnt. pose proof (count_nonneg is_settings_id pre).
      pose proof (count_nonneg is_settings_id post).
      pose proof (count_nonneg is_settings_id (ts_posted (tn_server t))).
      destruct (is_settings_id m); [lia|done]. }
    destruct Hmk as [->|Hid]; [done|]. specialize (Hseen ltac:(lia)).
    unfold rejects, channel_getStream. rewrite Hlp. destruct (in_table _ _); [done|].
    destruct (ch_streamCreated (tn_channel t)) eqn:Hcr.
    + destruct (Z.leb_spec (S2C_StreamId m) (ch_lastStreamID (tn_channel t))); [done|lia].
    + pose proof (ni_created _ _ I1 Hcr). lia.
Qed.

(** *** The steps of each end *)
Lemma loop_after l c c' :
  channel_step l c = Some c' -> (forall m, l <> KRecv (inr m)) ->
  ch_loop c' = ch_loop c \/ ch_loop c' = LExited \/ (ch_loop c = LStart /\ ch_loop c' = LSettings).
Proof.
  intros Hs Hno. destruct l as [|[e|m]|a|e|id l| | |e]; try (by destruct (Hno m)); cbn [channel_step] in Hs.
  - destruct (ch_loop c) eqn:Hl; try done. injection Hs as <-. right.
    destruct (ch_serverSendsSettings c); [by right|by left].
  - assert (Hexit : forall err, ch_loop (loop_close err c) = LExited) by done.
    destruct (ch_loop c) as [| |o|]; try done; [|destruct (channel_loop_idle o c); [|done]];
      injection Hs as <-; right; left; [unfold recv_settings; destruct (tunnelRoles _)|]; done.
  - destruct (ch_creating c); [done|]. left. unfold newStream_begin, allocateStream in Hs.
    destruct (ch_finished c); [by simplify_eq|]. destruct (_ <? 0); [by simplify_eq|].
    destruct (in_table _ _); [by simplify_eq/=|].
    destruct (apply_call_options _ _ _) as [|[e|md]]; [done|by simplify_eq/=|].
    destruct (ch_settings _); by simplify_eq/=.
  - left. unfold newStream_end in Hs. destruct (ch_creating c) as [[id fr]|], e; by simplify_eq/=.
  - left. by apply (kstream_inv id l) in Hs as [(v & v' & obs & _ & _ & _ & ->)%run_client_inv _].
  - injection Hs as <-. left. unfold channel_close. by destruct (ch_finished c).
  - left. destruct (_ && _); [|done]. destruct (ch_settings c); injection Hs as <-; [done|].
    unfold channel_close. by destruct (ch_finished c).
  - left. destruct (ch_ctxErr c); by simplify_eq/=.
Qed.

Lemma inv_channel_moves ls l cl t c' d :
  tunnel_inv ls t -> (ch_loop (tn_channel t) = LSettings -> channel_label_ok cl) ->
  len ls < MaxInt64 ->
  channel_step cl (tn_channel t) = Some c' ->
  (closes cl = true -> closed_from_outside l = true) ->
  (forall m, cl = KRecv (inr m) -> rejects m (tn_channel t) = false) ->
  match ch_loop c' with
  | LStart | LSettings => d = O | LReceiving _ => (1 <= d)%nat | LExited => True
  end ->
  ((1 <= d)%nat -> head (ts_wire (tn_server t)) = Some (settings_message server_opts)) ->
  tunnel_inv (ls ++ [l]) (Tunnel c' (tn_server t) (tn_up t) d).
Proof.
  intros [I1 I2 I3 (lss & Hrun & Hls & Hnf & Hrec) I5 I6 I7 I8 I9] Hl Hlen Hs Hcl Hrej Hd Hfirst.
  assert (Hgo : channel_goes cl (tn_channel t) c').
  { apply channel_step_goes; [|done]. pose proof (ni_loop _ _ I1). by destruct (ch_loop _). }
  destruct Hgo as [G1 (ms & G2) G3 G4 G5]. split; simpl; try done.
  - rewrite len_app. change (len [l]) with 1. by eapply channel_inv_step.
  - by apply G5.
  - congruence.
  - exists lss. split_and!; try done. simpl. by rewrite G2, take_app_le.
  - rewrite G2, length_app. lia.
  - intros Hf. apply Exists_app.
    destruct (finished_step cl (tn_channel t) c') as [Hold|[Hc|(m & Hm & Hr)]]; try done.
    + pose proof (ni_loop _ _ I1). by destruct (ch_loop _).
    + left. by apply I9.
    + right. constructor. by apply Hcl.
    + by rewrite (Hrej m Hm) in Hr.
Qed.

Lemma inv_server_moves ls l sl t s' up' :
  tunnel_inv ls t -> label_ok sl -> recv_fails sl = false ->
  server_step QueryService sl (tn_server t) = Some s' ->
  received [sl] = drop (tn_up t) (take up' (ch_wire (tn_channel t))) ->
  (tn_up t <= up' <= length (ch_wire (tn_channel t)))%nat ->
  tunnel_inv (ls ++ [l]) (Tunnel (tn_channel t) s' up' (tn_down t)).
Proof.
  intros [I1 I2 I3 (lss & Hran) I5 [Hk Hopts] I7 I8 I9] Hl Hnf Hs Hrec Hup.
  destruct (server_behind lss t _ I1 Hran) as (Hsinv & _).
  pose proof (server_step_out QueryService sl _ _ Hl Hsinv Hs) as Hgrow.
  pose proof Hgrow as (E1 & E2 & (ws & E3) & _).
  destruct Hran as (Hrun & Hls & Hnfs & Hrecs). split; simpl; try done.
  - rewrite len_app. by apply inv_later.
  - exists (lss ++ [sl]). split_and!.
    + rewrite run_app, Hrun. simpl. by rewrite Hs.
    + apply Forall_app. by split; [|constructor].
    + apply Forall_app. by split; [|constructor].
    + rewrite received_app, Hrecs, Hrec. simpl.
      rewrite <- (take_drop (tn_up t) (take up' (ch_wire (tn_channel t)))) at 2.
      rewrite take_take. by rewrite Nat.min_l by lia.
  - lia.
  - split; [by eapply out_known_grows|congruence].
  - intros Hd. specialize (I8 Hd). rewrite E3. by destruct (ts_wire (tn_server t)).
  - intros Hf. apply Exists_app. left. by apply I9.
Qed.

Lemma down_loop m c c' o :
  channel_step (KRecv (inr m)) c = Some c' -> ch_loop c = LSettings \/ ch_loop c = LReceiving o ->
  match ch_loop c' with LStart | LSettings => False | _ => True end.
Proof.
  cbn [channel_step]. intros Hs [E|E]; rewrite E in Hs.
  - injection Hs as <-. unfold recv_settings. destruct (tunnelRoles _), (negb _); [done|].
    destruct (S2C_Frame m) as [[st|?|?|?|?|?]|]; try done. by destruct (check_settings _ _) as [rev [e|]].
  - destruct (channel_loop_idle o c); [|done]. cbn [recv_frame] in Hs.
    destruct (channel_getStream _ c); [|injection Hs as <-; by rewrite E|by injection Hs as <-].
    by apply run_client_inv in Hs as (v & v' & obs & _ & _ & _ & ->).
Qed.

(** An action of one end. *)
Lemma at_channel_inv cl t t' :
  tunnel_step QueryService (AtChannel cl) t = Some t' ->
  (forall m, cl <> KRecv (inr m)) /\ exists c', channel_step cl (tn_channel t) = Some c' /\
    t' = Tunnel c' (tn_server t) (tn_up t) (tn_down t).
Proof.
  destruct cl as [|[e|m]|a|e|id l| | |e]; cbn [tunnel_step]; try done;
    (destruct (channel_step _ _) as [c'|]; [|done]; intros [= <-]; eauto).
Qed.

Lemma at_server_inv sl t t' :
  tunnel_step QueryService (AtServer sl) t = Some t' ->
  received [sl] = [] /\ label_ok sl /\ exists s', server_step QueryService sl (tn_server t) = Some s' /\
    t' = Tunnel (tn_channel t) s' (tn_up t) (tn_down t).
Proof.
  destruct sl as [closing [e|m]|id l|i|e]; cbn [tunnel_step]; try done;
    (destruct (server_step _ _ _) as [s'|]; [|done]; intros [= <-]; split; [done|split; [done|by exists s']]).
Qed.

Lemma tunnel_inv_step ls l t t' :
  tunnel_inv ls t -> delivers l = true -> len ls < MaxInt64 ->
  tunnel_step QueryService l t = Some t' -> tunnel_inv (ls ++ [l]) t'.
Proof.
  intros Hinv Hl Hlen Hs. destruct l as [cl|sl|closing|].
  - destruct (at_channel_inv _ _ _ Hs) as (Hno & c' & Hc & ->).
    apply (inv_channel_moves ls _ cl); try done.
    + by destruct cl as [|[e|m]|a|e|id l| | |e].
    + intros m ->. by destruct (Hno m).
    + pose proof (ti_down _ _ Hinv) as Hd.
      destruct (loop_after _ _ _ Hc Hno) as [->|[->|[E ->]]]; [done|done|by rewrite E in Hd].
    + apply (ti_first _ _ Hinv).
  - destruct (at_server_inv _ _ _ Hs) as (Hno & Hlok & s' & Hs' & ->). pose proof (ti_up _ _ Hinv).
    apply (inv_server_moves ls _ sl _ _ _ Hinv); [done| |done| |lia].
    + simpl in Hl. by destruct (recv_fails sl).
    + rewrite Hno, drop_ge; [done|]. rewrite length_take. lia.
  - cbn [tunnel_step] in Hs. destruct (_ !! tn_up t) as [m|] eqn:Hm; [|done].
    destruct (server_step _ _ _) as [s'|] eqn:Hs'; [|done]. injection Hs as <-.
    pose proof (lookup_lt_Some _ _ _ Hm). pose proof (ni_wire _ _ (ti_channel _ _ Hinv)) as (_ & Hms & _).
    destruct (Hms m ltac:(by eapply list_elem_of_lookup_2)) as [_ Hframe].
    apply (inv_server_moves ls _ (TRecv closing (inr m)) _ _ _ Hinv); [|done|done| |lia].
    + simpl. destruct (C2S_Frame m) as [[frame| | | | |]|]; try done. by destruct (Hframe frame eq_refl).
    + simpl. erewrite take_S_r by done. rewrite drop_app_ge; rewrite length_take; [|lia].
      by rewrite Nat.min_l, Nat.sub_diag by lia.
  - cbn [tunnel_step] in Hs. destruct (_ !! tn_down t) as [m|] eqn:Hm; [|done].
    destruct (channel_step _ _) as [c'|] eqn:Hc; [|done]. injection Hs as <-.
    pose proof (next_down _ _ _ Hinv Hm) as Hnext.
    assert (Hloop : exists o, ch_loop (tn_channel t) = LSettings \/ ch_loop (tn_channel t) = LReceiving o).
    { cbn [channel_step] in Hc. destruct (ch_loop (tn_channel t)) as [| |o|]; try done; [exists None|exists o]; auto. }
    apply (inv_channel_moves ls _ (KRecv (inr m))); try done.
    + intros E. rewrite E in Hnext. subst m. simpl. pose proof (oo_window _ Hso) as [Hw1 Hw2].
      unfold is_u32, minInitialWindowSize in *. lia.
    + intros m' [= <-]. destruct Hloop as (o & [E|E]); rewrite E in Hnext; [|done].
      subst m. unfold rejects. rewrite E. pose proof (settings_accepted (tn_channel t)).
      by destruct (ch_settings (recv_settings _ _)).
    + destruct Hloop as (o & Hlp). pose proof (down_loop m _ _ o Hc Hlp) as Hd.
      destruct (ch_loop c'); try done. lia.
    + intros _. destruct (tn_down t) as [|k] eqn:Hd; [|apply (ti_first _ _ Hinv); rewrite Hd; lia].
      pose proof (ti_down _ _ Hinv) as Hdown. destruct Hloop as (o & [E|E]); rewrite E in Hnext, Hdown.
      * destruct (ts_wire (tn_server t)); [done|]. simpl in *. congruence.
      * lia.
Qed.

Lemma tunnel_run_inv ls t :
  Forall (fun l => delivers l = true) ls -> len ls <= MaxInt64 ->
  run (tunnel_step QueryService) ls start = Some t -> tunnel_inv ls t.
Proof.
  intros Hls Hlen Hrun. revert ls t Hrun Hls Hlen.
  apply (run_history (tunnel_step QueryService) (fun ls t => Forall (fun l => delivers l = true) ls ->
    len ls <= MaxInt64 -> tunnel_inv ls t)).
  - intros _ _. apply tunnel_start_inv.
  - intros ls l t t' IH Hs [Hls Hl]%Forall_app Hlen. rewrite len_app in Hlen.
    change (len [l]) with 1 in Hlen. apply Forall_cons_1 in Hl as [Hl _].
    eapply tunnel_inv_step; [apply IH; [done|lia]|done|lia|done].
Qed.

(** C5: Two ends of this package never bring the tunnel between them down.  For
    all options of the two ends, any number of RPCs and every interleaving of the
    goroutines and of the messages under way, as long as the transport works: the
    server never ends the tunnel, and the channel is closed only from outside;
    the channel is established with the latest revision; and the server rejects
    no stream for its revision or window, only for its method name. *)
Theorem tunnel_stays_up ls t :
  Forall (fun l => delivers l = true) ls -> len ls <= MaxInt64 ->
  run (tunnel_step QueryService) ls start = Some t ->
  ts_result (tn_server t) = None /\
  (ch_finished (tn_channel t) = true -> Exists (fun l => closed_from_outside l = true) ls) /\
  forall m frame, m ∈ ch_wire (tn_channel t) -> C2S_Frame m = Some (ClientToServer_NewStream frame) ->
    match check_stream QueryService false true reverse frame with
    | inr _ => True
    | inl e => exists st, e = StatusError st /\
                 (st_code st = InvalidArgument \/ st_code st = Unimplemented)
    end.
Proof.
  intros Hls Hlen Hrun. pose proof (tunnel_run_inv ls t Hls Hlen Hrun) as Hinv.
  destruct (ti_server _ _ Hinv) as (lss & Hran).
  destruct (server_behind lss t _ (ti_channel _ _ Hinv) Hran) as (_ & Hres & _).
  split_and!; [done|apply (ti_closed _ _ Hinv)|]. intros m frame Hm Hframe.
  destruct (ni_wire _ _ (ti_channel _ _ Hinv)) as (_ & Hms & _).
  destruct (Hms m Hm) as [_ Hok]. destruct (Hok frame Hframe) as (_ & Hrev & Hwin).
  unfold check_stream. destruct (tunnelRoles reverse) as [self peer].
  destruct (Z.eqb_spec (ProtocolRevision frame) REVISION_ZERO) as [E|_].
  { rewrite E in Hrev. by apply elem_of_cons in Hrev as [|[|?%elem_of_nil]%elem_of_cons]. }
  rewrite bool_decide_true by done. cbn [negb].
  destruct (Z.ltb_spec (NewStream_InitialWindowSize frame) (minWindowSize (ProtocolRevision frame))); [lia|].
  destruct (split_slash _) as [[service method]|]; [|by eexists; auto].
  destruct (QueryService service) as [sd|]; [destruct (findMethod sd method)|]; (done || by eexists; auto).
Qed.
End TunnelInvariant.

(** ** Example: an RPC from end to end *)
Module TunnelExample.
#[local] Existing Instance ExampleStatus.lib.
#[local] Existing Instance ExampleMetadata.lib.
#[local] Existing Instance ExampleAppend.lib.

Definition opts : tunnelOpts := TunnelChannelExample.opts.
Definition start : tunnel := tunnel_start false false opts opts None None.
Definition step : tunnel_label -> tunnel -> option tunnel := tunnel_step TunnelServerExample.services.
Definition at_end (ls : list tunnel_label) : tunnel := default start (run step ls start).
Definition A : bytes := [Corelib.Init.Byte.x41].

Definition args (method : string) : new_stream_args := NewStreamArgs None None false false method [].

(** The settings, a unary RPC, and an RPC for an unknown method. *)
Definition trace : list tunnel_label :=
  [AtChannel KStart; AtServer (TPosted 0); Down;
   AtChannel (KNewStream (args "/svc/Get")); AtChannel (KSendNew None);
   AtChannel (KStream 1 (CSendMsg (inr A))); AtChannel (KStream 1 (CSend LLoad));
   AtChannel (KStream 1 (CSend LCas)); AtChannel (KStream 1 (CSend (LCall None)));
   AtChannel (KStream 1 (CSend LReturn)); AtChannel (KStream 1 (CCloseSend None));
   AtChannel (KNewStream (args "/svc/None")); AtChannel (KSendNew None);
   Up false; Up false; Up false; Up false;
   AtServer (TStream 1 FRecv); AtServer (TStream 1 (FSendMsg None (inr A)));
   AtServer (TStream 1 (FSend LLoad)); AtServer (TStream 1 (FSend LCas));
   AtServer (TStream 1 (FSend (LCall None))); AtServer (TStream 1 (FSend LReturn));
   AtServer (TStream 1 (FReturn (HReturned None))); AtServer (TStream 1 (FFinish 0));
   AtServer (TStream 1 FPosted); AtServer (TPosted 0);
   Down; Down; Down; AtChannel (KStream 1 CMeta); AtChannel (KStream 1 CDeferred);
   AtChannel (KStream 1 CRecv); Down].

(** The caller gets the handler's response; the other RPC is unimplemented. *)
Example rpc_answered :
  (fun v => (cc_reads v, cs_done (cc_str v))) <$> ch_objects (tn_channel (at_end trace)) !! 1
  = Some ([ReadReturn (Some A) true None], Some EOF).
Proof. vm_compute. reflexivity. Qed.
Example rpc_rejected :
  (fun v => match cs_done (cc_str v) with Some (StatusError st) => st_code st | _ => OK end)
    <$> ch_objects (tn_channel (at_end trace)) !! 2 = Some Unimplemented.
Proof. vm_compute. reflexivity. Qed.
End TunnelExample.

Lemma tunnel_stays_up_witness :
  ts_result (tn_server (TunnelExample.at_end TunnelExample.trace)) = None.
Proof.
  exact (proj1 (tunnel_stays_up (H := ExampleStatus.lib) (H1 := ExampleAppend.lib)
    TunnelServerExample.services false false TunnelExample.opts TunnelExample.opts None None
    TunnelChannelExample.example_opts_ok TunnelChannelExample.example_opts_ok
    TunnelExample.trace (TunnelExample.at_end TunnelExample.trace)
    ltac:(repeat constructor) ltac:(vm_compute; congruence) ltac:(vm_compute; reflexivity))).
Defined.
