(* ===== verification/Windows.v ===== *)
(** * Flow control in a whole tunnel

    The two ends of a tunnel agree on every window.  For each stream and each
    direction, what the sender may still send and what is under way to the receiver
    (data and window updates) never exceeds the receiver's window, while all
    streams of the tunnel run at the same time and may be finished or cancelled by
    either end; and as long as an end has a stream, nothing of what it is sent is lost
    for it, which Progress.v uses.  The first part is the account of one end of a stream, the next
    two say that the server and the channel keep it for all their streams, and the
    last one puts them together. *)
From stdpp Require Import gmap sets.
From S2P Require Import Prelude Status Protocol Options FlowSender FlowReceiver Reassembly FlowLink.
From S2P Require Import ServerStream TunnelServer ClientStream TunnelChannel Tunnel.

(** ** The account of a sender *)

(** What the sender may still send: its window, and what it has taken from the
    window for a chunk that is not sent yet. *)
Definition outstanding (c : send_conf) : Z := s_currentWindow (c_sender c) + reserved c.

Lemma outstanding_idle c c' :
  s_currentWindow (c_sender c') = s_currentWindow (c_sender c) -> reserved c' = reserved c ->
  outstanding c' = outstanding c.
Proof. unfold outstanding. by intros -> ->. Qed.

Lemma call_step_outstanding W max ov ls l k c c' :
  1 <= max -> 0 <= ov < MaxUint32 -> sender_inv W max ov ls c -> c_call c = Some k -> call_step l k c = Some c' ->
  outstanding c' + charged ov (drop (length (c_out c)) (c_out c')) = outstanding c.
Proof.
  intros Hmax Hov [Hm Ho Hw Hk _ _] Hcall Hstep. destruct (Hk k Hcall) as [Hwf Hwf2].
  unfold outstanding, reserved. rewrite Hcall. unfold call_step in Hstep.
  destruct l; try done; destruct (k_pc k) as [| |w|ch|e] eqn:Hpc; try done.
  - destruct (_ <? _); injection Hstep as <-; simpl; rewrite drop_all; unfold charged; simpl; lia.
  - destruct (s_windowUpdates _); [|done]. injection Hstep as <-. simpl. rewrite drop_all.
    unfold charged. simpl. lia.
  - destruct (c_ctx c); [|done]. injection Hstep as <-. simpl. rewrite drop_all. unfold charged. simpl. lia.
  - destruct Hwf as (Hi & Hlen & Hne), Hwf2 as (Hws & Hneed & Hone).
    destruct (Z.eqb_spec (s_currentWindow (c_sender c)) w) as [<-|]; injection Hstep as <-; simpl;
      rewrite drop_all; unfold charged; simpl; [|lia].
    destruct (send_chunkSz_spec max ov Hov Hmax (c_sender c) k (s_currentWindow (c_sender c)))
      as (_ & _ & _ & _ & Hsub); try done.
    rewrite Hsub. change (send_overhead (set_window _ _) (set_pc _ k)) with (send_overhead (c_sender c) k). lia.
  - destruct Hwf2 as (Hch & _). injection Hstep as <-. simpl. rewrite drop_app_length.
    unfold charged. simpl. unfold chunk_charge. simpl. rewrite len_slice_to by lia.
    unfold send_overhead. rewrite Ho.
    destruct (send_after_pc k ch err) as [->|[_ ->]]; simpl; lia.
  - injection Hstep as <-. simpl. rewrite drop_all. unfold charged. simpl. lia.
Qed.

Lemma send_step_outstanding W max ov ls l c c' :
  1 <= max -> 0 <= ov < MaxUint32 -> sender_inv W max ov ls c -> send_step l c = Some c' ->
  outstanding c' + charged ov (drop (length (c_out c)) (c_out c')) <= outstanding c + label_credit l.
Proof.
  intros Hmax Hov Hinv Hstep.
  assert (Hcall : forall k, c_call c = Some k -> call_step l k c = Some c' -> label_credit l = 0 ->
    outstanding c' + charged ov (drop (length (c_out c)) (c_out c')) <= outstanding c + label_credit l).
  { intros k Hk Hs Hl. pose proof (call_step_outstanding _ _ _ _ _ _ _ _ Hmax Hov Hinv Hk Hs). lia. }
  assert (Hsame : c_out c' = c_out c -> outstanding c' <= outstanding c + label_credit l ->
    outstanding c' + charged ov (drop (length (c_out c)) (c_out c')) <= outstanding c + label_credit l).
  { intros -> Hle. rewrite drop_all. unfold charged. simpl. lia. }
  destruct l as [d| | | | |err| |n| |e]; simpl in Hstep;
    try (destruct (c_call c) as [k|] eqn:Hk; [|done]; by eapply Hcall).
  - destruct (c_call c) eqn:Hk; [done|]. injection Hstep as <-. apply Hsame; [done|].
    unfold outstanding, reserved. simpl. rewrite Hk. unfold send_begin. destruct (_ >? _); simpl; lia.
  - destruct (Z.ltb_spec 0 n), (Z.leb_spec n MaxUint32); try done. injection Hstep as <-.
    apply Hsame; [done|]. unfold outstanding, reserved. simpl.
    pose proof (inv_window _ _ _ _ _ Hinv) as Hw. unfold is_u32 in Hw.
    assert (s_currentWindow (c_sender c) +u n <= s_currentWindow (c_sender c) + n)
      by (unfold u32; apply Z.mod_le; lia).
    unfold send_overhead. simpl. lia.
  - destruct (c_posts c); [done|]. injection Hstep as <-. apply Hsame; [done|].
    unfold outstanding, reserved, send_overhead. simpl. lia.
  - destruct (c_ctx c); [done|]. injection Hstep as <-. apply Hsame; [done|].
    unfold outstanding, reserved. simpl. lia.
Qed.

(** Nothing of it is lost, as long as an update does not wrap around. *)
Lemma send_step_exact W maxChunk ov ls l c c' :
  1 <= max_chunk W maxChunk -> 0 <= ov < MaxUint32 -> sender_inv W (max_chunk W maxChunk) ov ls c ->
  send_step l c = Some c' -> outstanding c + label_credit l <= MaxUint32 ->
  outstanding c + label_credit l <= outstanding c' + charged ov (drop (length (c_out c)) (c_out c')).
Proof.
  intros Hmax Hov Hinv Hstep Hle.
  assert (Hcall : forall k, c_call c = Some k -> call_step l k c = Some c' -> label_credit l = 0 ->
    outstanding c + label_credit l <= outstanding c' + charged ov (drop (length (c_out c)) (c_out c'))).
  { intros k Hk Hs Hl. pose proof (call_step_outstanding _ _ _ _ _ _ _ _ Hmax Hov Hinv Hk Hs). lia. }
  assert (Hsame : c_out c' = c_out c -> outstanding c + label_credit l <= outstanding c' ->
    outstanding c + label_credit l <= outstanding c' + charged ov (drop (length (c_out c)) (c_out c'))).
  { intros -> Hle'. rewrite drop_all. unfold charged. simpl. lia. }
  pose proof (reserved_nonneg W maxChunk ov Hov ls c Hinv) as Hres.
  destruct l as [d| | | | |err| |n| |e]; simpl in Hstep;
    try (destruct (c_call c) as [k|] eqn:Hk; [|done]; by eapply Hcall).
  - destruct (c_call c) eqn:Hk; [done|]. injection Hstep as <-. apply Hsame; [done|].
    unfold outstanding, reserved. simpl. rewrite Hk. unfold send_begin. destruct (_ >? _); simpl; lia.
  - destruct (Z.ltb_spec 0 n), (Z.leb_spec n MaxUint32); try done. injection Hstep as <-.
    apply Hsame; [done|]. unfold outstanding in *. simpl in *.
    pose proof (inv_window _ _ _ _ _ Hinv) as Hw. unfold is_u32 in Hw. unfold reserved, send_overhead in *. simpl.
    rewrite (u32_small (s_currentWindow (c_sender c) + n)) by (unfold is_u32; lia). lia.
  - destruct (c_posts c); [done|]. injection Hstep as <-. apply Hsame; [done|].
    unfold outstanding, reserved, send_overhead. simpl. lia.
  - destruct (c_ctx c); [done|]. injection Hstep as <-. apply Hsame; [done|].
    unfold outstanding, reserved. simpl. lia.
Qed.

Lemma send_step_overhead l c c' :
  send_step l c = Some c' -> s_msgOverhead (c_sender c') = s_msgOverhead (c_sender c).
Proof.
  intros Hs. destruct l; simpl in Hs; try (destruct (c_call c) as [k|]; [|done]);
    unfold call_step in *; step_in Hs; done.
Qed.

(** ** The account of one end of a stream

    An end sends frames of type [O], which its sender and its reader (window
    updates) produce, and receives frames of type [I]. *)
Section Account.
Context {I O : Type} `{DataFrame I} `{DataFrame O}.
Context (measure : I -> Z * bool) (Hmeasure : forall f, measure f = measure_view (data_view_of f)).
(** What a frame adds to the window of the peer's sender. *)
Context (credit : O -> Z) (Hcredit : forall ck, credit (chunk_frame ck) = 0).
Context (W ov : Z) (HW : W <= MaxUint32) (Hov : 0 <= ov < MaxUint32).

Definition end_ok (c : send_conf) (r : receiver I) : Prop :=
  s_msgOverhead (c_sender c) = ov /\ r_msgOverhead r = ov /\ recv_inv measure W r.

Definition owed (fs : list O) : Z := charges ov fs.
Definition credited (fs : list O) : Z := zsum (credit <$> fs).

(** The peer's data is taken and acknowledged. *)
Definition taking (live : Prop) (r : receiver I) : Prop := live /\ r_closed r = false.

(** From [c] and [r] to [c'] and [r'], sending [fs], after having received [cr] in
    updates and [ch] in data.  Nothing appears from nowhere; and nothing gets lost
    while the end takes data, [live] being what it needs for that beside its
    receiver. *)
Definition moved (live live' : Prop) (c c' : send_conf) (r r' : receiver I) (fs : list O) (cr ch : Z) : Prop :=
  end_ok c r -> end_ok c' r' /\
    outstanding c' + owed fs <= outstanding c + cr /\
    r_currentWindow r + credited fs <= r_currentWindow r' + ch /\
    (outstanding c + cr <= MaxUint32 -> outstanding c + cr <= outstanding c' + owed fs) /\
    (taking live' r' -> taking live r /\ r_currentWindow r' + ch <= r_currentWindow r + credited fs).

Lemma credited_app a b : credited (a ++ b) = credited a + credited b.
Proof. unfold credited. by rewrite fmap_app, zsum_app. Qed.
Lemma owed_app a b : owed (a ++ b) = owed a + owed b.
Proof. apply charges_app. Qed.

Lemma moved_trans (p1 p2 p3 : Prop) c1 c2 c3 r1 r2 r3 fs gs cr1 cr2 ch1 ch2 :
  moved p1 p2 c1 c2 r1 r2 fs cr1 ch1 -> moved p2 p3 c2 c3 r2 r3 gs cr2 ch2 -> 0 <= cr2 ->
  moved p1 p3 c1 c3 r1 r3 (fs ++ gs) (cr1 + cr2) (ch1 + ch2).
Proof.
  intros H1 H2 Hcr (H3 & A1 & B1 & C1 & D1)%H1. apply H2 in H3 as (H3 & A2 & B2 & C2 & D2).
  pose proof (charges_nonneg ov fs). rewrite owed_app, credited_app. unfold owed in *. split_and!; [done|lia|lia| |].
  - intros Hle. specialize (C1 ltac:(lia)). specialize (C2 ltac:(lia)). lia.
  - intros (Ht & Hle2)%D2. destruct (D1 Ht). split; [done|lia].
Qed.

(** What follows neither sends nor receives. *)
Lemma moved_then (p1 p2 p3 : Prop) c1 c2 c3 r1 r2 r3 fs cr ch :
  moved p1 p2 c1 c2 r1 r2 fs cr ch -> moved p2 p3 c2 c3 r2 r3 [] 0 0 -> moved p1 p3 c1 c3 r1 r3 fs cr ch.
Proof.
  intros H1 H2. rewrite <- (app_nil_r fs), <- (Z.add_0_r cr), <- (Z.add_0_r ch). by eapply moved_trans.
Qed.

(** Frames without weight. *)
Definition weightless (f : O) : Prop := frame_charge ov f = 0 /\ credit f = 0.

Lemma weightless_sums fs : Forall weightless fs -> owed fs = 0 /\ credited fs = 0.
Proof.
  unfold owed, credited, charges. induction 1 as [|f fs [H1 H2] _ [IH1 IH2]]; [done|].
  rewrite !fmap_cons, !zsum_cons. lia.
Qed.

Lemma moved_frames (p p' : Prop) c r fs : (p' -> p) -> Forall weightless fs -> moved p p' c c r r fs 0 0.
Proof.
  intros Hp [Ho Hc]%weightless_sums Hok. split_and!; [done|lia|lia|lia|]. intros [? ?]. split; [split; auto|lia].
Qed.

Lemma moved_refl (p p' : Prop) c r : (p' -> p) -> moved p p' c c r r [] 0 0.
Proof. intros Hp. by apply moved_frames. Qed.

(** *** The sender *)
Lemma moved_cancel_ctx e (p p' : Prop) c r : (p' -> p) -> moved p p' c (cancel_ctx e c) r r [] 0 0.
Proof.
  intros Hp. unfold cancel_ctx. destruct (c_ctx c); [by apply moved_refl|]. intros Hok.
  destruct (moved_refl p p' c r Hp Hok) as (_ & ? & ? & ? & ?). by split_and!.
Qed.

Lemma chunk_weight ck :
  len (ck_data ck) <= MaxUint32 -> frame_charge ov (chunk_frame (T := O) ck) = chunk_charge ov ck.
Proof.
  intros Hck. unfold frame_charge, frame_measure, chunk_frame, chunk_charge.
  pose proof (len_nonneg (ck_data ck)). unfold MaxUint32 in *.
  destruct (ck_first ck); [rewrite data_view_first|rewrite data_view_more]; simpl; [|lia].
  apply u64_small. lia.
Qed.

Lemma chunks_weight cks :
  Forall (fun ck => len (ck_data ck) <= MaxUint32) cks ->
  owed (chunk_frame <$> cks) = charged ov cks /\ credited (chunk_frame <$> cks) = 0.
Proof.
  unfold owed, credited, charges, charged. induction 1 as [|ck cks Hck _ [IH1 IH2]]; [done|].
  rewrite !fmap_cons, !zsum_cons, IH1, IH2, Hcredit, chunk_weight by done. done.
Qed.

Lemma moved_send (p p' : Prop) V maxChunk ov' ls l c c' r :
  (p' -> p) -> 1 <= max_chunk V maxChunk -> 0 <= ov' < MaxUint32 ->
  sender_inv V (max_chunk V maxChunk) ov' ls c -> send_step l c = Some c' ->
  moved p p' c c' r r (chunk_frame <$> drop (length (c_out c)) (c_out c')) (label_credit l) 0.
Proof.
  intros Hp Hmax Hov' Hinv Hstep (Ho & Hr & Hrecv).
  assert (ov' = ov) as -> by (rewrite <- Ho; symmetry; apply (inv_ov _ _ _ _ _ Hinv)).
  pose proof (send_step_outstanding _ _ _ _ _ _ _ Hmax Hov Hinv Hstep) as Hout.
  pose proof (send_step_exact _ _ _ _ _ _ _ Hmax Hov Hinv Hstep) as Hexact.
  pose proof (send_step_overhead _ _ _ Hstep) as Hovh.
  pose proof (new_chunks_small _ _ _ _ _ _ _ Hinv Hstep) as Hsmall. unfold new_chunks in Hsmall.
  set (new := drop _ (c_out c')) in *. split; [by split_and!; [congruence|..]|].
  destruct (chunks_weight new Hsmall) as [-> ->]. split_and!; [lia|lia|done|].
  intros [? ?]. split; [split; auto|lia].
Qed.

(** *** The receiver *)
Lemma end_charge c r f : end_ok c r -> charge measure r f = frame_charge ov f.
Proof.
  intros (_ & Hr & _). unfold charge, frame_charge, frame_measure. by rewrite Hmeasure, Hr.
Qed.

Lemma measure_nonneg f : 0 <= fst (measure f).
Proof. rewrite Hmeasure. unfold measure_view. case_match; simpl; try apply len_nonneg. done. Qed.

Lemma moved_accept (p p' : Prop) f c r :
  (p' -> p /\ snd (accept measure f r) = None) ->
  moved p p' c c r (fst (accept measure f r)) [] 0 (frame_charge ov f).
Proof.
  intros Hp Hok. pose proof (end_charge _ _ f Hok) as Hch. destruct Hok as (Ho & Hr & Hrecv).
  pose proof (accept_inv measure measure_nonneg W f r HW Hrecv) as Hinv.
  pose proof (charge_nonneg measure measure_nonneg r f).
  assert (is_u32 (r_currentWindow r)) as Hu.
  { destruct Hrecv as [_ ? ? ? _ _ _]. pose proof (queued_nonneg measure measure_nonneg r).
    unfold is_u32. lia. }
  unfold owed, credited, charges, taking in *. simpl.
  destruct (accept_cases measure measure_nonneg f r Hu) as [(Hc & E)|[(_ & _ & E)|(Hc & _ & E)]];
    rewrite E in *; simpl in *; (split; [by split_and!|]; split_and!; try lia).
  - rewrite Hc. by intros [_ ?].
  - by intros [[? ?]%Hp _].
  - intros [[? _]%Hp _]. rewrite Hc. split; [done|lia].
Qed.

Lemma moved_close (p p' : Prop) c r : moved p p' c c r (close r) [] 0 0.
Proof.
  intros (Ho & Hr & [? ? ? ? ? ? ?]). unfold owed, credited, charges. simpl.
  split; [by split_and!|]. split_and!; [lia..|]. by intros [_ ?].
Qed.

Lemma moved_cancel (p p' : Prop) c r : (p' -> p) -> moved p p' c c r (cancel r) [] 0 0.
Proof.
  intros Hp (Ho & Hr & [? ? ? ? ? ? ?]). unfold owed, credited, charges. simpl.
  split; [|split_and!; [lia..|]; intros [? ?]; split; [split; auto|lia]]. split_and!; try done. split; simpl; try done.
  pose proof (queued_nonneg measure measure_nonneg r). unfold queued at 1. simpl. lia.
Qed.

(** *** The reader *)

(** What a read gives back to the window is what it tells the peer. *)
Definition gives (r r' : receiver I) (us : list Z) : Prop :=
  recv_inv measure W r -> recv_inv measure W r' /\ r_msgOverhead r' = r_msgOverhead r /\ r_closed r' = r_closed r /\
    r_currentWindow r' = r_currentWindow r + zsum us /\ Forall (fun u => 0 < u) us.

Lemma gives_nothing r : gives r r [].
Proof. intros Hr. unfold zsum. simpl. split_and!; [done|done|done|lia|done]. Qed.

Lemma gives_trans r1 r2 r3 us us' : gives r1 r2 us -> gives r2 r3 us' -> gives r1 r3 (us ++ us').
Proof.
  intros H1 H2 (A1 & A2 & A0 & A3 & A4)%H1. apply H2 in A1 as (B1 & B2 & B0 & B3 & B4).
  rewrite zsum_app. split_and!; [done|congruence|congruence|lia|by apply Forall_app].
Qed.

Lemma dequeue_gives r :
  gives r (fst (dequeue measure r))
    match snd (dequeue measure r) with Dequeued _ u => send_update u | _ => [] end.
Proof.
  intros Hr. pose proof (dequeue_inv measure measure_nonneg W r HW Hr) as Hinv.
  destruct (dequeue_cases measure measure_nonneg W r HW Hr)
    as [(_ & E)|[(_ & _ & E)|(f & rest & u & _ & _ & _ & Hu & E)]]; rewrite E in *; simpl in *.
  - by apply gives_nothing.
  - pose proof (gives_nothing r Hr) as Hn. by destruct (r_closed r).
  - split_and!; try done; unfold send_update; destruct (Z.gtb_spec u 0); simpl; try done; try lia.
    by constructor.
Qed.

Lemma read_loop_gives fuel resumed (cfg : read_config I) r v r' us out :
  read_loop measure fuel resumed cfg r v = Some (r', us, out) -> gives r r' us.
Proof.
  revert resumed r v us. induction fuel as [|fuel IH]; intros resumed r v us Hr; [done|].
  simpl in Hr. destruct (if resumed then None else rc_ctx cfg); [simplify_eq; apply gives_nothing|].
  pose proof (dequeue_gives r) as Hd.
  destruct (dequeue measure r) as [r1 [frame u| |]]; simpl in Hd; simplify_eq; try done.
  destruct (read_frame cfg frame v) as [v'|ret]; simplify_eq; [|done].
  destruct (read_loop measure fuel false cfg r1 v') as [[[r2 us2] out2]|] eqn:Hl; simplify_eq.
  eapply gives_trans; [exact Hd|]. by eapply IH.
Qed.

Lemma readMsgLocked_gives resumed cfg rs v rs' us out :
  readMsgLocked measure resumed cfg rs v = Some (rs', us, out) -> gives (rs_recv rs) (rs_recv rs') us.
Proof.
  unfold readMsgLocked. destruct (if resumed then None else rs_readErr rs).
  { intros. simplify_eq. apply gives_nothing. }
  destruct (read_loop _ _ _ _ _ _) as [[[r us1] [ret|v1]]|] eqn:Hl; intros; simplify_eq;
    by eapply read_loop_gives.
Qed.

Lemma second_read_gives resumed cfg rs v first rs' us out :
  second_read measure resumed cfg rs v first = Some (rs', us, out) -> gives (rs_recv rs) (rs_recv rs') us.
Proof.
  unfold second_read. destruct (readMsgLocked _ _ _ _ _) as [[[rs1 us1] [ret|v1]]|] eqn:Hl; [| |done];
    apply readMsgLocked_gives in Hl.
  - destruct (rr_err ret) as [e|]; [destruct (orb _ _)|]; intros; by simplify_eq.
  - intros. by simplify_eq.
Qed.

Lemma readMsg_gives cfg rs ph rs' us out :
  readMsg measure cfg rs ph = Some (rs', us, out) -> gives (rs_recv rs) (rs_recv rs') us.
Proof.
  destruct ph as [resumed v|resumed v first]; simpl; [|apply second_read_gives].
  destruct (readMsgLocked _ _ _ _ _) as [[[rs1 us1] [ret|v1]]|] eqn:Hl; [| |done];
    apply readMsgLocked_gives in Hl; [|intros; by simplify_eq].
  destruct (_ && _); [|intros; by simplify_eq].
  destruct (second_read _ _ _ _ _ _) as [[[rs2 us2] out2]|] eqn:Hs; intros; simplify_eq.
  eapply gives_trans; [exact Hl|]. by eapply second_read_gives.
Qed.

(** The updates go out as frames, or are dropped when the peer needs them no more. *)
Lemma moved_read (p p' : Prop) c r r' us (mk : Z -> O) fs :
  (p' -> p) -> gives r r' us -> fs = mk <$> us \/ (fs = [] /\ ~ p') ->
  (forall u, 0 < u -> frame_charge ov (mk u) = 0 /\ credit (mk u) = u) ->
  moved p p' c c r r' fs 0 0.
Proof.
  intros Hp Hg Hfs Hmk (Ho & Hr & Hrecv). destruct (Hg Hrecv) as (Hrecv' & Hr' & Hcl & Hcur & Hpos).
  split; [by split_and!; [|congruence|]|].
  assert (owed (mk <$> us) = 0 /\ credited (mk <$> us) = zsum us) as [Howed Hcred].
  { unfold owed, credited, charges. clear -Hpos Hmk. induction Hpos as [|u us Hu _ [IH1 IH2]]; [done|].
    destruct (Hmk u Hu). rewrite !fmap_cons, !zsum_cons. lia. }
  assert (0 <= zsum us) by (apply zsum_nonneg; eapply Forall_impl; [exact Hpos|]; simpl; lia).
  unfold taking. rewrite Hcl. destruct Hfs as [->|[-> Hno]].
  - split_and!; [lia..|]. intros [? ?]. split; [split; auto|lia].
  - unfold owed, credited, charges. simpl. split_and!; [lia..|]. by intros [? _].
Qed.
End Account.

(** ** Streams *)

(** The windows of both directions are kept with the overhead of the revision
    that two ends of this package use. *)
Definition overhead : Z := messageOverhead REVISION_TWO.

Definition update_down (f : ServerToClientFrame) : Z :=
  match f with ServerToClient_WindowUpdate w => Z.max 0 w | _ => 0 end.
Definition update_up (f : ClientToServerFrame) : Z :=
  match f with ClientToServer_WindowUpdate w => Z.max 0 w | _ => 0 end.

Definition request_weight (f : ClientToServerFrame) : Z := frame_charge overhead f.
Definition response_weight (f : ServerToClientFrame) : Z := frame_charge overhead f.

Lemma overhead_range : 0 <= overhead < MaxUint32.
Proof. vm_compute. split; congruence. Qed.

Lemma new_frames_app v v' fs : sc_wire v' = sc_wire v ++ fs -> new_frames v v' = fs.
Proof. unfold new_frames. intros ->. by rewrite drop_app_length. Qed.

Section ServerStreams.
Context `{StatusLib} `{MetadataLib} (W : Z) (HW : W <= MaxUint32).

Abbreviation weightless_down := (weightless update_down overhead).

(** Updates of the client's window are sent until the stream is half-closed. *)
Definition unclosed (v : stream_conf) : Prop := ss_halfClosed (sc_str v) = None.

Definition server_moved (v v' : stream_conf) (fs : list ServerToClientFrame) (cr ch : Z) : Prop :=
  moved request_measure update_down W overhead (unclosed v) (unclosed v')
    (ss_send (sc_str v)) (ss_send (sc_str v'))
    (ss_receiver (sc_str v)) (ss_receiver (sc_str v')) fs cr ch.

Definition received_up (l : stream_label) : Z :=
  match l with FFrame (Some f) => update_up f | _ => 0 end.
Definition received_data (l : stream_label) : Z :=
  match l with FFrame (Some f) => request_weight f | _ => 0 end.

Lemma request_weight_nonneg f : 0 <= request_weight f.
Proof. unfold request_weight. apply frame_charge_nonneg. Qed.
Lemma update_up_nonneg f : 0 <= update_up f.
Proof. unfold update_up. case_match; lia. Qed.

(** What one action does to the account and to the frames that are posted. *)
Definition server_goes (l : stream_label) (v v' : stream_conf) : Prop :=
  Forall weightless_down (sc_posted v) ->
  exists fs, sc_wire v' = sc_wire v ++ fs /\
    server_moved v v' fs (received_up l) (received_data l) /\
    Forall weightless_down (sc_posted v').

Lemma goes_plain l v v' fs :
  sc_wire v' = sc_wire v ++ fs -> sc_posted v' = sc_posted v ->
  received_up l = 0 -> received_data l = 0 -> server_moved v v' fs 0 0 ->
  server_goes l v v'.
Proof. intros Hw Hp E1 E2 Hm Hok. exists fs. rewrite E1, E2, Hp. by split_and!. Qed.

(** Where the sender and the receiver stay the same. *)
Lemma goes_frames l v v' fs :
  sc_wire v' = sc_wire v ++ fs -> sc_posted v' = sc_posted v ->
  received_up l = 0 -> received_data l = 0 -> ss_halfClosed (sc_str v') = ss_halfClosed (sc_str v) ->
  ss_send (sc_str v') = ss_send (sc_str v) -> ss_receiver (sc_str v') = ss_receiver (sc_str v) ->
  Forall weightless_down fs -> server_goes l v v'.
Proof.
  intros Hw Hp E1 E2 Eh Hs Hr Hfs. apply (goes_plain l v v' fs Hw Hp E1 E2). unfold server_moved, unclosed.
  rewrite Hs, Hr, Eh. by apply moved_frames.
Qed.

Lemma finish_closed who err v : ~ unclosed (begin_finish who err v).
Proof.
  unfold unclosed, begin_finish, finishStream_begin, halfClose. simpl.
  by destruct (ss_halfClosed (sc_str v)) eqn:Eh; simpl; rewrite ?Eh.
Qed.

Lemma finish_moved_from (p : Prop) who err v :
  moved request_measure update_down W overhead p (unclosed (begin_finish who err v))
    (ss_send (sc_str v)) (ss_send (sc_str (begin_finish who err v)))
    (ss_receiver (sc_str v)) (ss_receiver (sc_str (begin_finish who err v))) [] 0 0.
Proof.
  pose proof (finish_closed who err v) as Hno. revert Hno. generalize (unclosed (begin_finish who err v)) as p'.
  intros p' Hno. unfold begin_finish, finishStream_begin, halfClose. simpl.
  pose proof (moved_cancel_ctx request_measure update_down W overhead ContextCanceled p p'
                (ss_send (sc_str v)) (ss_receiver (sc_str v)) ltac:(done)) as H1.
  destruct (ss_halfClosed (sc_str v)) eqn:Eh; simpl; [done|].
  eapply moved_then; [exact H1|]. apply moved_close.
Qed.

Lemma finish_moved who err v :
  server_moved v (begin_finish who err v) [] 0 0.
Proof. apply finish_moved_from. Qed.

Lemma goes_finish l who err v v1 fs :
  sc_wire v1 = sc_wire v ++ fs -> sc_posted v1 = sc_posted v ->
  received_up l = 0 -> received_data l = 0 -> server_moved v v1 fs 0 0 ->
  server_goes l v (begin_finish who err v1).
Proof.
  intros Hw Hp E1 E2 Hm. apply (goes_plain _ _ _ fs); try done.
  eapply moved_then; [exact Hm|]. apply finish_moved_from.
Qed.

(** An action of the sender; what it emits goes out at once. *)
Lemma send_moved V maxChunk ov l v c :
  is_u32 V -> 1 <= V -> 1 <= maxChunk -> 0 <= ov < MaxUint32 -> stream_inv V maxChunk ov v ->
  send_step l (ss_send (sc_str v)) = Some c ->
  forall v', ss_send (sc_str v') = c -> ss_receiver (sc_str v') = ss_receiver (sc_str v) ->
  ss_halfClosed (sc_str v') = ss_halfClosed (sc_str v) ->
  server_moved v v' (chunk_frame <$> drop (length (c_out (ss_send (sc_str v)))) (c_out c)) (label_credit l) 0.
Proof.
  intros HV HV1 Hmc Hov Hinv Hstep v' Hs Hr Eh. destruct (si_send _ _ _ _ Hinv) as (ls & Hsend).
  unfold server_moved, unclosed. rewrite Hs, Hr, Eh.
  eapply moved_send; [|apply overhead_range|done|exact (max_chunk_pos V maxChunk HV1 Hmc)|exact Hov|exact Hsend|exact Hstep].
  intros ck. unfold chunk_frame. simpl. unfold response_frame. by destruct (ck_first ck).
Qed.

(** An action of the sender that emits nothing. *)
Lemma goes_send V maxChunk ov L l v c v' fs :
  is_u32 V -> 1 <= V -> 1 <= maxChunk -> 0 <= ov < MaxUint32 -> stream_inv V maxChunk ov v ->
  send_step l (ss_send (sc_str v)) = Some c -> label_credit l = received_up L -> received_data L = 0 ->
  c_out c = c_out (ss_send (sc_str v)) ->
  ss_send (sc_str v') = c -> ss_receiver (sc_str v') = ss_receiver (sc_str v) ->
  ss_halfClosed (sc_str v') = ss_halfClosed (sc_str v) ->
  sc_wire v' = sc_wire v ++ fs -> sc_posted v' = sc_posted v -> Forall weightless_down fs ->
  server_goes L v v'.
Proof.
  intros HV HV1 Hmc Hov Hinv Hstep Hl Hd Hout Hs Hr Eh Hw Hp Hfs.
  pose proof (send_moved V maxChunk ov l v c HV HV1 Hmc Hov Hinv Hstep v' Hs Hr Eh) as Hm.
  rewrite Hout, drop_all in Hm. intros Hok. exists fs. split; [done|]. split; [|by rewrite Hp].
  rewrite <- Hl, Hd, <- (app_nil_l fs), <- (Z.add_0_r (label_credit l)), <- (Z.add_0_r 0).
  eapply moved_trans; [exact Hm| |done]. by apply moved_frames.
Qed.

Lemma accept_goes f v err :
  received_up (FFrame (Some f)) = 0 ->
  (let (r, e) := accept request_measure f (ss_receiver (sc_str v)) in
   (with_receiver r (sc_str v), match e with Some e => AFinish (Some e) | None => ADone end)) = err ->
  forall v', v' = match err with
              | (st, AFinish e) => begin_finish ByLoop e (set_str st v)
              | (st, _) => set_str st v
              end ->
  server_goes (FFrame (Some f)) v v'.
Proof.
  intros Hup <- v' -> Hok.
  set (v1 := set_str (with_receiver (fst (accept request_measure f (ss_receiver (sc_str v)))) (sc_str v)) v).
  assert (Hm : forall p : Prop, (p -> unclosed v /\ snd (accept request_measure f (ss_receiver (sc_str v))) = None) ->
    moved request_measure update_down W overhead (unclosed v) p (ss_send (sc_str v)) (ss_send (sc_str v1))
      (ss_receiver (sc_str v)) (ss_receiver (sc_str v1)) [] 0 (request_weight f)).
  { intros p Hp. by apply (moved_accept (H := request_data_frame) request_measure request_measure_view update_down W overhead HW). }
  unfold v1 in Hm. rewrite Hup. destruct (accept _ _ _) as [r [e|]]; simpl in Hm; exists []; rewrite app_nil_r;
    (split; [done|]); (split; [|done]).
  - eapply moved_then; [|exact (finish_moved_from False ByLoop (Some e) (set_str (with_receiver r (sc_str v)) v))].
    by apply Hm.
  - apply Hm. intros Hl. done.
Qed.

Lemma SendMsg_same sendErr m st st' fs r :
  SendMsg_begin sendErr m st = (st', fs, r) ->
  ss_send st' = ss_send st /\ ss_receiver st' = ss_receiver st /\ ss_halfClosed st' = ss_halfClosed st /\
  Forall weightless_down fs.
Proof.
  intros (st1 & Hst1 & Hst')%SendMsg_begin_cases.
  destruct Hst1 as [(_ & -> & ->)|(_ & -> & ->)], Hst' as [[-> _]|[-> _]]; split_and!; try done;
    by repeat constructor.
Qed.

Lemma frame_goes V maxChunk ov frame v v' :
  is_u32 V -> 1 <= V -> 1 <= maxChunk -> 0 <= ov < MaxUint32 -> stream_inv V maxChunk ov v ->
  stream_step (FFrame frame) v = Some v' -> server_goes (FFrame frame) v v'.
Proof.
  intros HV HV1 Hmc Hov Hinv Hs. cbn [stream_step] in Hs.
  assert (Hnil : sc_wire v = sc_wire v ++ []) by (by rewrite app_nil_r).
  destruct (loop_busy v); [done|].
  destruct frame as [[fr|m|d| | |w]|]; cbn [acceptClientFrame] in Hs.
  - eapply accept_goes; [done|reflexivity|]. destruct (accept _ _ _) as [r [e|]]; congruence.
  - eapply accept_goes; [done|reflexivity|]. destruct (accept _ _ _) as [r [e|]]; congruence.
  - eapply accept_goes; [done|reflexivity|]. destruct (accept _ _ _) as [r [e|]]; congruence.
  - injection Hs as <-. apply (goes_plain _ _ _ []); [done..|].
    unfold server_moved, unclosed, halfClose. simpl. destruct (ss_halfClosed (sc_str v)) eqn:Eh; simpl;
      [rewrite Eh; by apply moved_refl|apply moved_close].
  - injection Hs as <-. by apply (goes_finish _ _ _ _ _ []), moved_refl.
  - destruct (Z.eqb_spec w 0) as [->|].
    + injection Hs as <-. by apply (goes_frames _ _ _ []).
    + destruct (send_step (UAdd w) _) as [c|] eqn:Hc; [|done]. injection Hs as <-.
      assert (0 < w) by (simpl in Hc; destruct (Z.ltb_spec 0 w); done).
      eapply (goes_send V maxChunk ov _ (UAdd w) v c _ []); try done; [simpl; lia|].
      simpl in Hc. by step_in Hc.
  - injection Hs as <-. by apply (goes_finish _ _ _ _ _ []), moved_refl.
Qed.

Lemma read_goes v v' : stream_step FRecv v = Some v' -> server_goes FRecv v v'.
Proof.
  intros Hs. cbn [stream_step] in Hs.
  destruct (readMsg _ _ _ _) as [[[rs us] out]|] eqn:Hr; [|done].
  apply (readMsg_gives (H := request_data_frame) request_measure request_measure_view W HW) in Hr.
  set (v1 := to_wire (read_updates (sc_str v) us) (set_str (with_reader rs (sc_str v)) v)) in *.
  assert (Hm : server_moved v v1 (read_updates (sc_str v) us) 0 0).
  { eapply (moved_read request_measure update_down W overhead _ _ _ _ _ us ServerToClient_WindowUpdate);
      [done|exact Hr| |].
    - unfold read_updates, unclosed. simpl. destruct (ss_halfClosed _); auto.
    - intros u Hu. split; [done|simpl; lia]. }
  assert (Hkeep : forall w, sc_str w = sc_str v1 -> sc_wire w = sc_wire v1 -> sc_posted w = sc_posted v ->
    server_goes FRecv v w).
  { intros w E1 E2 E3. apply (goes_plain _ _ _ (read_updates (sc_str v) us)); [by rewrite E2|done..|].
    unfold server_moved, unclosed. rewrite E1. exact Hm. }
  destruct out as [ret|ph]; injection Hs as <-; [|by apply Hkeep].
  unfold recv_returned. destruct (rr_err ret) as [e|]; [destruct (rr_ok ret)|]; try by apply Hkeep.
  by apply (goes_finish _ _ _ _ _ (read_updates (sc_str v) us)).
Qed.

Lemma stream_step_goes V maxChunk ov l v v' :
  is_u32 V -> 1 <= V -> 1 <= maxChunk -> 0 <= ov < MaxUint32 -> stream_inv V maxChunk ov v ->
  stream_step l v = Some v' -> server_goes l v v'.
Proof.
  intros HV HV1 Hmc Hov Hinv Hs.
  assert (Hnil : sc_wire v = sc_wire v ++ []) by (by rewrite app_nil_r).
  destruct l as [frame| |md send sendErr|md|sendErr m|l| |o|i| | |e];
    [by eapply frame_goes| | | | | |by apply read_goes| | | | |]; cbn [stream_step] in Hs.
  - destruct (send_step UPost _) as [c|] eqn:Hc; [|done]. injection Hs as <-.
    eapply (goes_send V maxChunk ov _ UPost v c _ []); try done. simpl in Hc. by step_in Hc.
  - destruct (writeMu_free v); [|done]. unfold setHeader in Hs.
    destruct (ss_sentHeaders (sc_str v)); [injection Hs as <-; by apply (goes_frames _ _ _ [])|].
    destruct md, send; injection Hs as <-; eapply goes_frames; try done; by repeat constructor.
  - destruct (writeMu_free v); [|done]. injection Hs as <-. apply (goes_frames _ _ _ []); try done;
      simpl; unfold setTrailer; by destruct (ss_closed (sc_str v)).
  - destruct (writeMu_free v) eqn:Hfree; [|done].
    destruct (SendMsg_begin sendErr m (sc_str v)) as [[st fs] r] eqn:Hb.
    destruct (SendMsg_same _ _ _ _ _ _ Hb) as (Es & Er & Eh & Hfs).
    destruct r as [e|b]; [injection Hs as <-; by apply (goes_frames _ _ _ fs)|].
    destruct (send_step (LBegin b) (ss_send st)) as [c|] eqn:Hc; [|done]. injection Hs as <-.
    rewrite Es in Hc. eapply (goes_send V maxChunk ov _ (LBegin b) v c _ fs); try done.
    simpl in Hc. by step_in Hc.
  - destruct (in_send l) eqn:Hl; [|done]. destruct (send_step l _) as [c|] eqn:Hc; [|done].
    injection Hs as <-. eapply goes_plain; [done..|].
    replace 0 with (label_credit l) at 1 by (by destruct l).
    by eapply (send_moved V maxChunk ov l).
  - destruct (sc_returned v); [done|]. injection Hs as <-.
    by apply (goes_finish _ _ _ _ _ []), moved_refl.
  - destruct (writeMu_free v); [|done]. destruct (sc_finishing v !! i) as [[who err]|]; [|done].
    unfold finishStream_end in Hs. destruct (ss_closed (sc_str v)).
    + injection Hs as <-. apply (goes_frames _ _ _ []); simpl; rewrite ?app_nil_r; done.
    + intros Hok. exists []. rewrite app_nil_r. injection Hs as <-. split_and!; [done| |].
      * unfold server_moved, unclosed. simpl. destruct (negb _); by apply moved_refl.
      * simpl. apply Forall_app. split; [done|].
        destruct (negb _); by repeat constructor.
  - destruct (sc_posted v) as [|f fs] eqn:Hp; [done|]. injection Hs as <-.
    intros Hok. rewrite Hp in Hok. apply Forall_cons_1 in Hok as [Hf Hfs].
    exists [f]. split_and!; [done| |done].
    unfold server_moved, unclosed. simpl. by apply moved_frames, Forall_singleton.
  - destruct (sc_watching v); [|done]. destruct (ss_ctxErr _); [|done]. injection Hs as <-.
    apply (goes_plain _ _ _ []); [done..|].
    by apply (moved_cancel (H := request_data_frame) request_measure request_measure_view).
  - destruct (send_step (LCancel e) _) as [c|] eqn:Hc; [|done]. injection Hs as <-.
    eapply (goes_send V maxChunk ov _ (LCancel e) v c _ []); try done. simpl in Hc. by step_in Hc.
Qed.

(** A half-closed stream takes no more data. *)
Definition closed_right (v : stream_conf) : Prop :=
  ss_halfClosed (sc_str v) <> None -> r_closed (ss_receiver (sc_str v)) = true.

Lemma closed_right_same v w :
  ss_halfClosed (sc_str w) = ss_halfClosed (sc_str v) ->
  r_closed (ss_receiver (sc_str w)) = r_closed (ss_receiver (sc_str v)) -> closed_right v -> closed_right w.
Proof. unfold closed_right. by intros -> ->. Qed.

Lemma halfClose_closed err st :
  (ss_halfClosed st <> None -> r_closed (ss_receiver st) = true) ->
  r_closed (ss_receiver (halfClose err st)) = true.
Proof. unfold halfClose. destruct (ss_halfClosed st) eqn:E; simpl; [intros Hc; by apply Hc|done]. Qed.

Lemma finish_closed_right who err v : closed_right v -> closed_right (begin_finish who err v).
Proof. intros Hc _. by apply halfClose_closed. Qed.

Lemma accept_closed f (r : receiver ClientToServerFrame) :
  r_closed (fst (accept request_measure f r)) = r_closed r.
Proof. unfold accept. destruct (r_closed r) eqn:E; [done|]. by destruct (_ >? _). Qed.

Lemma frame_closed_right frame v v' :
  closed_right v -> stream_step (FFrame frame) v = Some v' -> closed_right v'.
Proof.
  intros Hc Hs. cbn [stream_step] in Hs. destruct (loop_busy v); [done|].
  assert (Hacc : forall f, closed_right (set_str (with_receiver (fst (accept request_measure f (ss_receiver (sc_str v)))) (sc_str v)) v)).
  { intros f. apply (closed_right_same v); [done| |done]. apply accept_closed. }
  destruct frame as [[fr|m|d| | |w]|]; cbn [acceptClientFrame] in Hs.
  1-3: match type of Hs with context [accept _ ?f _] => specialize (Hacc f) end;
    destruct (accept _ _ _) as [r [e|]]; injection Hs as <-; try apply finish_closed_right; exact Hacc.
  - injection Hs as <-. intros _. by apply halfClose_closed.
  - injection Hs as <-. by apply finish_closed_right.
  - destruct (w =? 0); [by injection Hs as <-|]. destruct (send_step _ _); [|done]. injection Hs as <-.
    by apply (closed_right_same v).
  - injection Hs as <-. by apply finish_closed_right.
Qed.

Lemma stream_step_closed_right l v v' :
  recv_inv request_measure W (ss_receiver (sc_str v)) -> closed_right v -> stream_step l v = Some v' -> closed_right v'.
Proof.
  intros Hrecv Hc Hs. destruct l as [frame| |md send sendErr|md|sendErr m|l| |o|i| | |e];
    [by eapply frame_closed_right| | | | | | | | | | |]; cbn [stream_step] in Hs.
  1,5,11: step_in Hs; by apply (closed_right_same v).
  - destruct (writeMu_free v); [|done]. unfold setHeader in Hs.
    destruct (ss_sentHeaders (sc_str v)); [|destruct md, send]; injection Hs as <-; by apply (closed_right_same v).
  - destruct (writeMu_free v); [|done]. injection Hs as <-. unfold setTrailer.
    destruct (ss_closed (sc_str v)) eqn:E; apply (closed_right_same v); simpl; rewrite ?E; done.
  - destruct (writeMu_free v); [|done].
    destruct (SendMsg_begin sendErr m (sc_str v)) as [[st fs] r] eqn:Hb.
    destruct (SendMsg_same _ _ _ _ _ _ Hb) as (_ & Er & Eh & _).
    destruct r; [injection Hs as <-|destruct (send_step _ _); [|done]; injection Hs as <-];
      apply (closed_right_same v); simpl; congruence || done.
  - destruct (readMsg _ _ _ _) as [[[rs us] out]|] eqn:Hr; [|done].
    apply (readMsg_gives (H := request_data_frame) request_measure request_measure_view W HW) in Hr.
    destruct (Hr Hrecv) as (_ & _ & Ecl & _). simpl in Ecl.
    destruct out as [ret|ph]; injection Hs as <-; [|by apply (closed_right_same v)].
    unfold recv_returned. destruct (rr_err ret); [destruct (rr_ok ret)|]; try by apply (closed_right_same v).
    apply finish_closed_right. by apply (closed_right_same v).
  - destruct (sc_returned v); [done|]. injection Hs as <-. apply finish_closed_right. by apply (closed_right_same v).
  - destruct (writeMu_free v); [|done]. destruct (sc_finishing v !! i) as [[who err]|]; [|done].
    unfold finishStream_end in Hs. destruct (ss_closed (sc_str v)); injection Hs as <-;
      [by apply (closed_right_same v)|]. apply (closed_right_same v); simpl; [by destruct (negb _)..|done].
  - destruct (sc_posted v); [done|]. injection Hs as <-. by apply (closed_right_same v).
  - destruct (sc_watching v); [|done]. destruct (ss_ctxErr _); [|done]. injection Hs as <-.
    by apply (closed_right_same v).
Qed.
End ServerStreams.

Section ClientStreams.
Context `{StatusLib} (W : Z) (HW : W <= MaxUint32).

Abbreviation weightless_up := (weightless update_up overhead).

(** Updates of the server's window are sent until the stream is done. *)
Definition undone (v : client_conf) : Prop := cs_done (cc_str v) = None.

Definition client_moved_to (p' : Prop) (v v' : client_conf) (fs : list ClientToServerFrame) (cr ch : Z) : Prop :=
  moved response_measure update_up W overhead (undone v) p' (cs_send (cc_str v)) (cs_send (cc_str v'))
    (cs_receiver (cc_str v)) (cs_receiver (cc_str v')) fs cr ch.
Definition client_moved (v v' : client_conf) : list ClientToServerFrame -> Z -> Z -> Prop :=
  client_moved_to (undone v') v v'.

Definition received_down (l : client_label) : Z :=
  match l with CFrame (Some f) => update_down f | _ => 0 end.
Definition received_response (l : client_label) : Z :=
  match l with CFrame (Some f) => response_weight f | _ => 0 end.

Definition client_goes (l : client_label) (v v' : client_conf) : Prop :=
  exists fs, cc_wire v' = cc_wire v ++ fs /\ client_moved v v' fs (received_down l) (received_response l).

Lemma response_weight_nonneg f : 0 <= response_weight f.
Proof. unfold response_weight. apply frame_charge_nonneg. Qed.
Lemma update_down_nonneg f : 0 <= update_down f.
Proof. unfold update_down. case_match; lia. Qed.

Lemma client_plain l v v' fs :
  cc_wire v' = cc_wire v ++ fs -> received_down l = 0 -> received_response l = 0 -> client_moved v v' fs 0 0 ->
  client_goes l v v'.
Proof. intros Hw E1 E2 Hm. exists fs. by rewrite E1, E2. Qed.

Lemma client_frames l v v' fs :
  cc_wire v' = cc_wire v ++ fs -> received_down l = 0 -> received_response l = 0 ->
  cs_done (cc_str v') = cs_done (cc_str v) -> cs_send (cc_str v') = cs_send (cc_str v) ->
  cs_receiver (cc_str v') = cs_receiver (cc_str v) -> Forall weightless_up fs -> client_goes l v v'.
Proof.
  intros Hw E1 E2 Ed Hs Hr Hfs. apply (client_plain l v v' fs Hw E1 E2). unfold client_moved, client_moved_to, undone.
  rewrite Hs, Hr, Ed. by apply moved_frames.
Qed.

(** [finishStream] up to its compare-and-swap concerns neither. *)
Lemma call_finish_account by_loop cancels err trailers v :
  cs_send (cc_str (call_finish by_loop cancels err trailers v)) = cs_send (cc_str v) /\
  cs_receiver (cc_str (call_finish by_loop cancels err trailers v)) = cs_receiver (cc_str v) /\
  cc_wire (call_finish by_loop cancels err trailers v) = cc_wire v.
Proof. unfold call_finish, finishStream_cas. by destruct (cs_done (cc_str v)). Qed.

Lemma call_finish_not_undone by_loop cancels err trailers v : ~ undone (call_finish by_loop cancels err trailers v).
Proof.
  unfold undone, call_finish, finishStream_cas. destruct (cs_done (cc_str v)) eqn:E; simpl; [by rewrite E|done].
Qed.

(** A stream that is done takes no more data, whatever happened before. *)
Lemma client_finish l by_loop cancels err trailers v v1 fs :
  cc_wire v1 = cc_wire v ++ fs ->
  client_moved_to False v v1 fs (received_down l) (received_response l) ->
  client_goes l v (call_finish by_loop cancels err trailers v1).
Proof.
  intros Hw Hm. pose proof (call_finish_not_undone by_loop cancels err trailers v1) as Hno.
  destruct (call_finish_account by_loop cancels err trailers v1) as (E1 & E2 & E3).
  exists fs. split; [congruence|]. intros Hend. unfold client_moved_to in Hm.
  destruct (Hm Hend) as (A & B & C & D & _). rewrite E1, E2. split_and!; try done. by intros [? _].
Qed.

Lemma client_moved_drop v v' fs cr ch : client_moved v v' fs cr ch -> client_moved_to False v v' fs cr ch.
Proof. intros Hm Hend. destruct (Hm Hend) as (A & B & C & D & _). split_and!; try done. by intros [? _]. Qed.

Lemma client_goes_finish l by_loop cancels err trailers v v1 :
  client_goes l v v1 -> client_goes l v (call_finish by_loop cancels err trailers v1).
Proof. intros (fs & Hw & Hm). eapply client_finish; [done|]. by apply client_moved_drop. Qed.

Lemma client_send_moved V maxChunk ov l v c :
  is_u32 V -> 1 <= V -> 1 <= maxChunk -> 0 <= ov < MaxUint32 -> client_inv V maxChunk ov v ->
  send_step l (cs_send (cc_str v)) = Some c ->
  forall v', cs_send (cc_str v') = c -> cs_receiver (cc_str v') = cs_receiver (cc_str v) ->
  cs_done (cc_str v') = cs_done (cc_str v) ->
  client_moved v v' (chunk_frame <$> drop (length (c_out (cs_send (cc_str v)))) (c_out c)) (label_credit l) 0.
Proof.
  intros HV HV1 Hmc Hov Hinv Hstep v' Hs Hr Ed. destruct (ki_send _ _ _ _ Hinv) as (ls & Hsend).
  unfold client_moved, client_moved_to, undone. rewrite Hs, Hr, Ed.
  eapply moved_send; [|apply overhead_range|done|exact (max_chunk_pos V maxChunk HV1 Hmc)|exact Hov|exact Hsend|exact Hstep].
  intros ck. unfold chunk_frame. simpl. unfold request_frame. by destruct (ck_first ck).
Qed.

Lemma client_send_goes V maxChunk ov L l v c v' :
  is_u32 V -> 1 <= V -> 1 <= maxChunk -> 0 <= ov < MaxUint32 -> client_inv V maxChunk ov v ->
  send_step l (cs_send (cc_str v)) = Some c -> label_credit l = received_down L -> received_response L = 0 ->
  c_out c = c_out (cs_send (cc_str v)) ->
  cs_send (cc_str v') = c -> cs_receiver (cc_str v') = cs_receiver (cc_str v) ->
  cs_done (cc_str v') = cs_done (cc_str v) -> cc_wire v' = cc_wire v -> client_goes L v v'.
Proof.
  intros HV HV1 Hmc Hov Hinv Hstep Hl Hd Hout Hs Hr Ed Hw.
  pose proof (client_send_moved V maxChunk ov l v c HV HV1 Hmc Hov Hinv Hstep v' Hs Hr Ed) as Hm.
  rewrite Hout, drop_all in Hm. exists []. rewrite app_nil_r. split; [done|]. by rewrite <- Hl, Hd.
Qed.

Lemma client_accept_moved f v (p : Prop) :
  received_down (CFrame (Some f)) = 0 ->
  (p -> undone v /\ snd (accept response_measure f (cs_receiver (cc_str v))) = None) ->
  client_moved_to p v (cset_str (cwith_receiver (fst (accept response_measure f (cs_receiver (cc_str v)))) (cc_str v)) v)
    [] (received_down (CFrame (Some f))) (received_response (CFrame (Some f))).
Proof.
  intros -> Hp. by apply (moved_accept (H := response_data_frame) response_measure response_measure_view update_up W overhead HW).
Qed.

Lemma client_read_goes V maxChunk ov v v' :
  client_inv V maxChunk ov v -> client_step CRecv v = Some v' -> client_goes CRecv v v'.
Proof.
  intros Hinv Hs. cbn [client_step] in Hs.
  destruct (readMsg _ _ _ _) as [[[rs us] out]|] eqn:Hr; [|done].
  apply (readMsg_gives (H := response_data_frame) response_measure response_measure_view W HW) in Hr.
  set (v1 := cto_wire (client_read_updates (cc_str v) us) (cset_str (cwith_reader rs (cc_str v)) v)) in *.
  assert (Hm : client_goes CRecv v v1).
  { apply (client_plain _ _ _ (client_read_updates (cc_str v) us)); [done..|].
    eapply (moved_read response_measure update_up W overhead _ _ _ _ _ us ClientToServer_WindowUpdate);
      [done|exact Hr| |].
    - unfold client_read_updates, undone. simpl. destruct (cs_done _); auto.
    - intros u Hu. split; [done|simpl; lia]. }
  destruct out as [ret|ph]; injection Hs as <-; [|exact Hm].
  unfold client_recv_returned. destruct (rr_err ret) as [e|]; [destruct (rr_ok ret)|]; try exact Hm.
  by apply client_goes_finish.
Qed.

Lemma client_same_goes l v w :
  received_down l = 0 -> received_response l = 0 -> cs_done (cc_str w) = cs_done (cc_str v) -> cs_send (cc_str w) = cs_send (cc_str v) -> cs_receiver (cc_str w) = cs_receiver (cc_str v) ->
  cc_wire w = cc_wire v -> client_goes l v w.
Proof. intros H1 H2 Ed E1 E2 E3. apply (client_frames _ _ _ []); try done. by rewrite E3, app_nil_r. Qed.

Lemma client_frame_goes V maxChunk ov frame v v' :
  is_u32 V -> 1 <= V -> 1 <= maxChunk -> 0 <= ov < MaxUint32 -> client_inv V maxChunk ov v ->
  client_step (CFrame frame) v = Some v' -> client_goes (CFrame frame) v v'.
Proof.
  intros HV HV1 Hmc Hov Hinv Hs. cbn [client_step] in Hs.
  destruct (client_loop_busy v); [done|].
  assert (Hacc : forall f, received_down (CFrame (Some f)) = 0 ->
      (let (st, a) := let (r, err) := accept response_measure f
        (cs_receiver (cc_str v)) in (cwith_receiver r (cc_str v),
        match err with Some e => CFinishWith (Some e) None | None => CDone end) in
      match a with
      | CDone => Some (cset_str st v)
      | CFinishWith err trailers => Some (call_finish true false err trailers (cset_str st v))
      | CUpdate w => None
      end) = Some v' -> client_goes (CFrame (Some f)) v v').
  { intros f Hf. pose proof (fun p => client_accept_moved f v p Hf) as Hg.
    assert (Hnil : cc_wire v = cc_wire v ++ []) by (by rewrite app_nil_r).
    destruct (accept _ _ _) as [r [e|]]; intros [= <-].
    - apply (client_finish _ _ _ _ _ _ _ []); [done|]. by apply Hg.
    - exists []. split; [done|]. by apply Hg. }
  destruct frame as [[s|md|m|d|c|w]|]; cbn [acceptServerFrame] in Hs;
    try (injection Hs as <-; by apply client_goes_finish, client_same_goes).
  - destruct (cs_gotHeaders (cc_str v)); injection Hs as <-; by apply client_same_goes.
  - apply (Hacc (ServerToClient_ResponseMessage m)); [done|]. by destruct (accept _ _ _) as [r [e|]].
  - apply (Hacc (ServerToClient_MoreResponseData d)); [done|]. by destruct (accept _ _ _) as [r [e|]].
  - destruct (Z.eqb_spec w 0) as [->|]; [injection Hs as <-; by apply client_same_goes|].
    destruct (send_step (UAdd w) _) as [c|] eqn:Hc; [|done]. injection Hs as <-.
    assert (0 < w) by (simpl in Hc; destruct (Z.ltb_spec 0 w); done).
    eapply (client_send_goes V maxChunk ov _ (UAdd w) v c); try done; [simpl; lia|].
    simpl in Hc. by step_in Hc.
Qed.

Lemma client_step_goes V maxChunk ov l v v' :
  is_u32 V -> 1 <= V -> 1 <= maxChunk -> 0 <= ov < MaxUint32 -> client_inv V maxChunk ov v ->
  client_step l v = Some v' -> client_goes l v v'.
Proof.
  intros HV HV1 Hmc Hov Hinv Hs.
  destruct l as [frame| |m|l|sendErr| | | | | | |e]; 
    [by eapply client_frame_goes| | | | |by eapply client_read_goes| | | | | |]; cbn [client_step] in Hs.
  - destruct (send_step UPost _) as [c|] eqn:Hc; [|done]. injection Hs as <-.
    eapply (client_send_goes V maxChunk ov _ UPost v c); try done. simpl in Hc. by step_in Hc.
  - destruct (client_writeMu_free v); [|done].
    assert (Hb : forall st r, client_SendMsg_begin m (cc_str v) = (st, r) ->
      cs_send st = cs_send (cc_str v) /\ cs_receiver st = cs_receiver (cc_str v) /\ cs_done st = cs_done (cc_str v)).
    { unfold client_SendMsg_begin. intros st r Hb. by step_in Hb. }
    destruct (client_SendMsg_begin m (cc_str v)) as [st r]. destruct (Hb st r eq_refl) as (E1 & E2 & E3).
    destruct r as [e|b]; [injection Hs as <-; by apply client_same_goes|].
    destruct (send_step (LBegin b) _) as [c|] eqn:Hc; [|done]. injection Hs as <-. rewrite E1 in Hc.
    eapply (client_send_goes V maxChunk ov _ (LBegin b) v c); try done. simpl in Hc. by step_in Hc.
  - destruct (in_send l) eqn:Hl; [|done]. destruct (send_step l _) as [c|] eqn:Hc; [|done].
    injection Hs as <-. eapply client_plain; [done..|].
    replace 0 with (label_credit l) at 1 by (by destruct l).
    by eapply (client_send_moved V maxChunk ov l).
  - destruct (client_writeMu_free v); [|done]. unfold CloseSend in Hs.
    destruct (cs_doneSignal _); [|destruct (cs_halfClosed _)]; injection Hs as <-;
      (eapply client_frames; [done..|]); by repeat constructor.
  - destruct (cc_finishing v) as [[[tr| |] bl ca]|]; try done. injection Hs as <-. by apply client_same_goes.
  - destruct (cc_finishing v) as [[[tr| |] bl ca]|]; try done. injection Hs as <-.
    apply (client_plain _ _ _ []); [by rewrite app_nil_r|done..|].
    eapply (moved_then _ _ _ _ (undone v)); [by apply moved_cancel_ctx|apply moved_close].
  - destruct (cc_finishing v) as [[[tr| |] bl ca]|]; try done. injection Hs as <-.
    apply (client_plain _ _ _ []); [by rewrite app_nil_r|done..|].
    by apply (moved_cancel (H := response_data_frame) response_measure response_measure_view).
  - destruct (cc_posted v) as [|f fs] eqn:Hp; [done|]. injection Hs as <-.
    pose proof (ki_posted _ _ _ _ Hinv) as Hpo. rewrite Hp in Hpo. apply Forall_cons_1 in Hpo as [Hf _].
    apply (client_frames _ _ _ [f]); [done..|]. apply Forall_singleton. by destruct f.
  - destruct (cc_watching v); [|done]. destruct (cs_ctxErr _) as [e|]; [|done]. injection Hs as <-.
    by apply client_goes_finish, client_same_goes.
  - destruct (send_step (LCancel e) _) as [c|] eqn:Hc; [|done]. injection Hs as <-.
    eapply (client_send_goes V maxChunk ov _ (LCancel e) v c); try done. simpl in Hc. by step_in Hc.
Qed.
End ClientStreams.

(** ** All streams of one end *)

(** The weight of the messages about one stream. *)
Section Weigh.
Context {M F : Type} (about : M -> Z) (frame : M -> option F) (w : F -> Z).

Definition message_weight (m : M) : Z := match frame m with Some f => w f | None => 0 end.
Definition weigh (ms : list M) (id : Z) : Z :=
  zsum ((fun m => if about m =? id then message_weight m else 0) <$> ms).

Lemma weigh_app a b id : weigh (a ++ b) id = weigh a id + weigh b id.
Proof. unfold weigh. by rewrite fmap_app, zsum_app. Qed.

Lemma weigh_cons m ms id :
  weigh (m :: ms) id = (if about m =? id then message_weight m else 0) + weigh ms id.
Proof. unfold weigh. by rewrite fmap_cons, zsum_cons. Qed.

Lemma weigh_nonneg ms id : (forall f, 0 <= w f) -> 0 <= weigh ms id.
Proof.
  intros Hw. apply zsum_nonneg, Forall_fmap, Forall_forall. intros m _. simpl. unfold message_weight.
  destruct (about m =? id), (frame m); done || apply Hw.
Qed.

Lemma weigh_weightless ms id :
  Forall (fun m => message_weight m = 0) ms -> weigh ms id = 0.
Proof.
  induction 1 as [|m ms Hm _ IH]; [done|]. rewrite weigh_cons, IH, Hm. by destruct (_ =? _).
Qed.

(** The frames of one stream, put into messages. *)
Lemma weigh_tagged (tagged : F -> M) id fs id' :
  (forall f, about (tagged f) = id /\ frame (tagged f) = Some f) ->
  weigh (tagged <$> fs) id' = if id =? id' then zsum (w <$> fs) else 0.
Proof.
  intros Ht. induction fs as [|f fs IH]; [by destruct (_ =? _)|].
  destruct (Ht f) as [Ha Hf]. rewrite !fmap_cons, weigh_cons, IH, zsum_cons. unfold message_weight.
  rewrite Ha, Hf. by destruct (id =? id').
Qed.

(** The messages that are still under way. *)
Lemma weigh_take_next ms n m id :
  ms !! n = Some m -> weigh (drop n ms) id = weigh [m] id + weigh (drop (S n) ms) id.
Proof. intros Hm. by rewrite (drop_S _ _ _ Hm), <- weigh_app. Qed.

Lemma weigh_more ms new n id :
  (n <= length ms)%nat -> weigh (drop n (ms ++ new)) id = weigh (drop n ms) id + weigh new id.
Proof. intros Hn. by rewrite drop_app_le, weigh_app. Qed.
End Weigh.

Definition up_data : list ClientToServer -> Z -> Z := weigh C2S_StreamId C2S_Frame request_weight.
Definition up_credit : list ClientToServer -> Z -> Z := weigh C2S_StreamId C2S_Frame update_up.
Definition down_data : list ServerToClient -> Z -> Z := weigh S2C_StreamId S2C_Frame response_weight.
Definition down_credit : list ServerToClient -> Z -> Z := weigh S2C_StreamId S2C_Frame update_down.

(** What all senders of an end may still send, and the windows of its receivers; the
    streams whose sender hears of updates, and those whose receiver takes data. *)
Record ledger := Ledger {
  lg_left : Z -> Z;
  lg_right : Z -> Z;
  lg_sends : Z -> Prop;
  lg_takes : Z -> Prop;
}.

(** Nothing appears from nowhere, and for those streams nothing gets lost. *)
Definition ledger_moves (a b : ledger) (in_data in_credit out_data out_credit : Z -> Z) : Prop :=
  forall id, lg_left b id + out_data id <= lg_left a id + in_credit id /\
    lg_right a id + out_credit id <= lg_right b id + in_data id /\
    (lg_sends b id -> lg_sends a id /\ (lg_left a id + in_credit id <= MaxUint32 ->
       lg_left a id + in_credit id <= lg_left b id + out_data id)) /\
    (lg_takes b id -> lg_takes a id /\ lg_right b id + in_data id <= lg_right a id + out_credit id).

Definition nothing (_ : Z) : Z := 0.

Section ServerAccount.
Context `{StatusLib} `{MetadataLib} (QueryService : string -> option ServiceDesc).
(** The initial windows of the server's receivers and of the client's. *)
Context (Ws Wc : Z) (HWs : is_u32 Ws) (HWc : is_u32 Wc).

(** The frames that open streams announce the client's window. *)
Definition opens_with (m : ClientToServer) : Prop :=
  forall frame, C2S_Frame m = Some (ClientToServer_NewStream frame) ->
    NewStream_InitialWindowSize frame = Wc /\ ProtocolRevision frame = REVISION_TWO.

(** The frames for a stream are given to it, or will be once it is there. *)
Definition server_lists (s : tunnelServer) (id : Z) : Prop :=
  ts_result s = None /\
  match ts_objects s !! id with Some _ => id ∈ ts_streams s | None => ts_lastSeen s < id end.

Definition server_ledger (s : tunnelServer) : ledger := Ledger
  (fun id => match ts_objects s !! id with
             | Some v => outstanding (ss_send (sc_str v)) | None => Wc end)
  (fun id => match ts_objects s !! id with
             | Some v => r_currentWindow (ss_receiver (sc_str v)) | None => Ws end)
  (server_lists s)
  (fun id => server_lists s id /\
             match ts_objects s !! id with
             | Some v => taking (unclosed v) (ss_receiver (sc_str v)) | None => True end).

Definition stream_end_ok (v : stream_conf) : Prop :=
  end_ok request_measure Ws overhead (ss_send (sc_str v)) (ss_receiver (sc_str v)) /\
  Forall (weightless update_down overhead) (sc_posted v) /\ closed_right v.

Definition weightless_message (m : ServerToClient) : Prop :=
  message_weight S2C_Frame response_weight m = 0 /\ message_weight S2C_Frame update_down m = 0.

Record server_side (s : tunnelServer) : Prop := {
  sv_objects : forall id v, ts_objects s !! id = Some v -> stream_end_ok v;
  sv_posted : Forall weightless_message (ts_posted s);
  sv_window : initialWindowSize (ts_opts s) = Ws;
}.

(** What an action does to the server's side when it receives [ins]. *)
Definition server_accounts (s s' : tunnelServer) (ins : list ClientToServer) : Prop :=
  server_side s' /\ exists ms, ts_wire s' = ts_wire s ++ ms /\
    ledger_moves (server_ledger s) (server_ledger s') (up_data ins) (up_credit ins)
      (down_data ms) (down_credit ms).

Lemma up_sums_nonneg ins id : 0 <= up_data ins id /\ 0 <= up_credit ins id.
Proof. split; apply weigh_nonneg; [apply request_weight_nonneg|apply update_up_nonneg]. Qed.

(** What comes in for listed streams is not lost. *)
Definition misses (s s' : tunnelServer) (ins : list ClientToServer) : Prop :=
  forall id, server_lists s' id -> server_lists s id /\ up_data ins id = 0 /\ up_credit ins id = 0.

Lemma misses_ended s s' ins : ts_result s' <> None -> misses s s' ins.
Proof. by intros Hr id [? _]. Qed.

Lemma misses_nothing s s' :
  dom (ts_objects s) = dom (ts_objects s') ->
  ts_lastSeen s' = ts_lastSeen s -> ts_streams s' = ts_streams s -> ts_result s' = ts_result s -> misses s s' [].
Proof.
  intros Hd E1 E2 E3 id. unfold server_lists. rewrite E1, E2, E3. intros [Hr Hl]. split_and!; try done.
  assert (Ho : id ∈ dom (ts_objects s) <-> id ∈ dom (ts_objects s')) by (by rewrite Hd).
  rewrite !elem_of_dom in Ho.
  destruct (ts_objects s' !! id), (ts_objects s !! id); try done; [by destruct (proj2 Ho)|by destruct (proj1 Ho)].
Qed.

(** Actions that leave the streams as they are. *)
Lemma accounts_same s s' ms ins :
  server_side s -> ts_objects s' = ts_objects s -> ts_opts s' = ts_opts s ->
  Forall weightless_message (ts_posted s') -> ts_wire s' = ts_wire s ++ ms ->
  Forall weightless_message ms -> misses s s' ins -> server_accounts s s' ins.
Proof.
  intros [Ho Hp Hw] E1 E2 Hp' E3 Hms Hmiss. split; [by split; rewrite ?E1, ?E2|]. exists ms. split; [done|].
  intros id. specialize (Hmiss id). unfold server_ledger. simpl. rewrite E1. pose proof (up_sums_nonneg ins id).
  unfold down_data, down_credit. rewrite !weigh_weightless;
    [|(eapply Forall_impl; [exact Hms|]; by intros m [])..].
  split_and!; [lia|lia| |]; [intros [? ?]%Hmiss|intros [[? ?]%Hmiss ?]]; split; done || lia.
Qed.

Lemma accounts_quiet s s' ins :
  server_side s -> ts_objects s' = ts_objects s -> ts_opts s' = ts_opts s ->
  ts_posted s' = ts_posted s -> ts_wire s' = ts_wire s -> misses s s' ins -> server_accounts s s' ins.
Proof.
  intros Hs E1 E2 E3 E4 Hm. apply (accounts_same s s' []); try done.
  - rewrite E3. apply Hs. - by rewrite E4, app_nil_r.
Qed.

(** The contexts of all streams are done. *)
Lemma accounts_contexts e s s' ins :
  server_side s ->
  ts_objects s' = (fun v => set_str (with_send (cancel_ctx e (ss_send (sc_str v))) (sc_str v)) v)
                    <$> ts_objects s ->
  ts_opts s' = ts_opts s -> ts_posted s' = ts_posted s -> ts_wire s' = ts_wire s ->
  misses s s' ins -> server_accounts s s' ins.
Proof.
  intros [Ho Hp Hw] E1 E2 E3 E4 Hmiss.
  assert (Hctx : forall c, outstanding (cancel_ctx e c) = outstanding c /\
    s_msgOverhead (c_sender (cancel_ctx e c)) = s_msgOverhead (c_sender c)).
  { intros c. unfold cancel_ctx. by destruct (c_ctx c). }
  split.
  - split; rewrite ?E2, ?E3; try done. intros id v'. rewrite E1, lookup_fmap.
    destruct (ts_objects s !! id) as [v|] eqn:Hv; simpl; intros ?; simplify_eq.
    destruct (Ho id v Hv) as [(A & B & C) D]. destruct (Hctx (ss_send (sc_str v))) as [_ Ec].
    split; [|done]. split_and!; simpl; congruence || done.
  - exists []. rewrite E4, app_nil_r. split; [done|]. intros id. specialize (Hmiss id).
    pose proof (up_sums_nonneg ins id). unfold server_ledger. simpl. rewrite E1, lookup_fmap.
    change (down_data [] id) with 0. change (down_credit [] id) with 0.
    destruct (ts_objects s !! id) as [v|]; simpl.
    + destruct (Hctx (ss_send (sc_str v))) as [-> _].
      split_and!; [lia|lia| |]; [intros [? ?]%Hmiss|intros [[? ?]%Hmiss ?]]; split; done || lia.
    + split_and!; [lia|lia| |]; [intros [? ?]%Hmiss|intros [[? ?]%Hmiss ?]]; split; done || lia.
Qed.

Lemma table_after (b : bool) (id : Z) (X : gset Z) :
  (id ∈ (if b then X ∖ {[id]} else X) -> id ∈ X) /\
  forall id', id' <> id -> id' ∈ (if b then X ∖ {[id]} else X) <-> id' ∈ X.
Proof.
  split; [|intros id' Hne]; destruct b; rewrite ?elem_of_difference, ?elem_of_singleton; tauto.
Qed.

(** An action of one stream. *)
Lemma accounts_run id l s s' ins :
  server_inv s -> server_side s -> run_stream id l s = Some s' ->
  (forall id', up_credit ins id' = if id =? id' then received_up l else 0) ->
  (forall id', up_data ins id' = if id =? id' then received_data l else 0) ->
  server_accounts s s' ins.
Proof.
  intros Hinv [Ho Hp Hw] Hrun Hcr Hch. unfold run_stream in Hrun.
  destruct (ts_objects s !! id) as [v|] eqn:Hv; [|done].
  destruct (stream_step l v) as [v'|] eqn:Hs; [|done].
  destruct (vi_objects _ Hinv id v Hv) as (V & ov & HV & HV1 & Hov & Hsinv).
  destruct (Ho id v Hv) as (Hend & Hpost & Hright0).
  pose proof (stream_step_closed_right Ws ltac:(unfold is_u32 in HWs; lia) l v v' (proj2 (proj2 Hend)) Hright0 Hs) as Hright1.
  destruct (stream_step_goes Ws ltac:(unfold is_u32 in HWs; lia) V _ ov l v v' HV HV1
    (proj1 (oo_chunk _ (vi_opts _ Hinv))) Hov Hsinv Hs Hpost)
    as (fs & Hwire & Hmoved & Hpost').
  destruct (Hmoved Hend) as (Hend' & Hleft & Hright & Hleft' & Hright').
  assert (Hl : ts_result s' = ts_result s /\ ts_lastSeen s' = ts_lastSeen s /\
    ts_streams s' = if began_finish v v' then ts_streams s ∖ {[id]} else ts_streams s)
    by (by destruct (began_finish v v'); injection Hrun as <-).
  destruct Hl as (L1 & L2 & L3). destruct (table_after (began_finish v v') id (ts_streams s)) as [L4 L5].
  rewrite <- L3 in L4, L5.
  assert (E : ts_objects s' = <[id := v']> (ts_objects s) /\ ts_opts s' = ts_opts s /\
    ts_posted s' = ts_posted s /\ ts_wire s' = ts_wire s ++ (tag id <$> fs)).
  { rewrite (new_frames_app v v' fs Hwire) in Hrun.
    destruct (began_finish v v'); by injection Hrun as <-. }
  destruct E as (E1 & E2 & E3 & E4). split.
  - split; rewrite ?E2, ?E3; try done. intros id' w. rewrite E1, lookup_insert_Some.
    intros [[<- <-]|[_ Hw']]; [done|by eapply Ho].
  - exists (tag id <$> fs). split; [done|]. intros id'. rewrite Hcr, Hch.
    unfold down_data, down_credit. rewrite !(weigh_tagged _ _ _ (tag id) id) by done.
    unfold server_ledger, server_lists. simpl. rewrite E1, L1, L2. destruct (Z.eqb_spec id id') as [<-|Hne].
    + rewrite lookup_insert_eq, Hv. change (zsum (response_weight <$> fs)) with (owed overhead fs).
      change (zsum (update_down <$> fs)) with (credited update_down fs). split_and!; [lia|lia| |].
      * intros [? ?]. split; [split; auto|done].
      * intros [[? ?] (? & ?)%Hright']. split; [split; [split|]; auto|done].
    + rewrite lookup_insert_ne by done. specialize (L5 id' ltac:(done)).
      destruct (ts_objects s !! id'); rewrite ?L5; (split_and!; [lia|lia| |]; intros ?; split; done || lia).
Qed.

(** A new stream starts with the windows that both ends have announced. *)
Lemma accounts_create id frame name md s s' ins :
  server_inv s -> server_side s -> ts_lastSeen s < id ->
  NewStream_InitialWindowSize frame = Wc -> ProtocolRevision frame = REVISION_TWO ->
  ts_objects s' = <[id := stream_start (make_stream (ts_opts s) (ts_ctxErr s) id frame name md)]>
                    (ts_objects s) ->
  ts_opts s' = ts_opts s -> ts_posted s' = ts_posted s -> ts_wire s' = ts_wire s ->
  ts_result s' = ts_result s -> ts_lastSeen s' = id -> ts_streams s' = {[id]} ∪ ts_streams s ->
  (forall id', up_data ins id' = 0 /\ up_credit ins id' = 0) ->
  server_accounts s s' ins.
Proof.
  intros Hinv [Ho Hp Hw] Hnew Hwin Hrev E1 E2 E3 E4 L1 L2 L3 Hins. split.
  - split; rewrite ?E2, ?E3; try done. intros id' w. rewrite E1, lookup_insert_Some.
    intros [[<- <-]|[_ Hw']]; [|by eapply Ho]. split; [|split; [done|by intros []]].
    unfold make_stream. simpl. rewrite Hrev, Hw. split_and!; [done|done|].
    apply new_recv_inv; [done|]. by vm_compute.
  - exists []. rewrite E4, app_nil_r. split; [done|]. intros id'. destruct (Hins id') as [-> ->].
    change (down_data [] id') with 0. change (down_credit [] id') with 0.
    unfold server_ledger, server_lists. simpl. rewrite E1, L1, L2, L3.
    destruct (decide (id' = id)) as [->|Hne].
    + rewrite lookup_insert_eq. unfold outstanding, reserved. simpl.
      destruct (ts_objects s !! id) eqn:Hv; [apply (vi_ids _ Hinv) in Hv; lia|]. rewrite Hwin, Hw.
      split_and!; [lia|lia| |]; [intros [? _]|intros [[? _] _]]; split; done || lia.
    + rewrite lookup_insert_ne by done. split_and!; [lia|lia| |].
      * intros [? Hl]. split; [|lia]. split; [done|].
        destruct (ts_objects s !! id'); [by apply elem_of_union in Hl as [?%elem_of_singleton|]|lia].
      * intros [[? Hl] ?]. split; [|lia]. split; [|done]. split; [done|].
        destruct (ts_objects s !! id'); [by apply elem_of_union in Hl as [?%elem_of_singleton|]|lia].
Qed.

Lemma accounts_recv closing m s s' :
  server_inv s -> server_side s -> opens_with m ->
  serve_recv QueryService closing (inr m) s = Some s' -> server_accounts s s' [m].
Proof.
  intros Hinv Hside Hopen Hs. cbn [serve_recv] in Hs.
  assert (Hframe : forall frame, C2S_Frame m = frame ->
    match getStream (C2S_StreamId m) s with
    | NeverCreated e => Some (serve_return (Some e) s)
    | Ignored => Some s
    | Found => run_stream (C2S_StreamId m) (FFrame frame) (set_loop (C2S_StreamId m) s)
    end = Some s' -> server_accounts s s' [m]).
  { intros frame Hf. destruct (getStream _ s) eqn:Hget; intros Hr.
    - assert (Hin : forall w id, weigh C2S_StreamId C2S_Frame w [m] id
                      = if C2S_StreamId m =? id then message_weight C2S_Frame w m else 0).
      { intros w id. rewrite weigh_cons. unfold weigh. simpl. destruct (_ =? _); lia. }
      apply (accounts_run (C2S_StreamId m) (FFrame frame) (set_loop (C2S_StreamId m) s));
        [by apply inv_set_loop|by destruct Hside; split|done|..]; intros id;
        unfold up_credit, up_data; rewrite Hin; unfold message_weight; rewrite Hf; by destruct frame.
    - injection Hr as <-. apply accounts_quiet; try done. intros id [Hr Hl].
      assert (id <> C2S_StreamId m) as Hne.
      { intros ->. unfold getStream in Hget. destruct (bool_decide _) eqn:Hb; [done|].
        apply bool_decide_eq_false in Hb. destruct (Z.leb_spec (C2S_StreamId m) (ts_lastSeen s)); [|done].
        destruct (ts_objects s !! C2S_StreamId m); [done|lia]. }
      split; [done|]. unfold up_data, up_credit. rewrite !weigh_cons.
      by destruct (Z.eqb_spec (C2S_StreamId m) id); [congruence|].
    - injection Hr as <-. by eapply accounts_contexts, misses_ended. }
  destruct (C2S_Frame m) as [[frame|q|d| | |w]|] eqn:Hf; try exact (Hframe _ eq_refl Hs).
  assert (Hzero : forall id, up_data [m] id = 0 /\ up_credit [m] id = 0).
  { intros id. unfold up_data, up_credit. rewrite !weigh_cons. unfold message_weight. rewrite Hf.
    by destruct (_ =? _). }
  destruct (Hopen frame Hf) as [Hwin Hrev]. unfold createStream in Hs.
  destruct (bool_decide _); [injection Hs as <-; by eapply accounts_contexts, misses_ended|].
  destruct (Z.leb_spec (C2S_StreamId m) (ts_lastSeen s));
    [injection Hs as <-; by eapply accounts_contexts, misses_ended|].
  destruct (check_stream _ _ _ _ _) as [e|[name md]]; injection Hs as <-.
  - apply (accounts_same s _ []); try done; simpl; [|by rewrite app_nil_r|].
    + apply Forall_app. split; [apply Hside|by repeat constructor].
    + intros id [Hr Hl]. simpl in *. split; [|done]. split; [done|]. destruct (ts_objects s !! id); [done|lia].
  - by eapply accounts_create.
Qed.

Lemma accounts_step l s s' :
  server_inv s -> server_side s -> Forall opens_with (received [l]) ->
  server_step QueryService l s = Some s' -> server_accounts s s' (received [l]).
Proof.
  intros Hinv Hside Hopen Hs. destruct l as [closing [e|m]|id l|i|e].
  - cbn [server_step] in Hs. destruct (loop_idle s); [|done]. injection Hs as <-.
    by eapply accounts_contexts, misses_ended.
  - cbn [server_step] in Hs. destruct (loop_idle s); [|done].
    apply Forall_cons_1 in Hopen as [Hm _]. by eapply accounts_recv.
  - assert (exists l', run_stream id l' s = Some s' /\ received_up l' = 0 /\ received_data l' = 0)
      as (l' & Hr & E1 & E2) by (destruct l; simpl in Hs; try done; by eauto).
    eapply accounts_run; [done..| |]; intros id'; [rewrite E1|rewrite E2]; by destruct (_ =? _).
  - cbn [server_step] in Hs. destruct (ts_posted s !! i) as [m|] eqn:Hi; [|done].
    injection Hs as <-. pose proof (sv_posted _ Hside) as Hp.
    apply (accounts_same s _ [m]); try done; simpl.
    + by apply Forall_delete.
    + apply Forall_singleton. by eapply Forall_lookup_1.
  - cbn [server_step] in Hs. destruct (ts_ctxErr s); [done|]. injection Hs as <-.
    eapply accounts_contexts; try done. apply misses_nothing; try done. simpl. by rewrite dom_fmap_L.
Qed.
End ServerAccount.

Section ChannelAccount.
Context `{StatusLib} `{MetadataAppend}.
Context (Ws Wc : Z) (HWs : is_u32 Ws) (HWc : is_u32 Wc).

(** The frames for a stream are given to it, or will be once it is there. *)
Definition client_lists (c : tunnelChannel) (id : Z) : Prop :=
  ch_streams c <> None /\
  match ch_objects c !! id with Some _ => in_table id c = true | None => ch_lastStreamID c < id end.

Definition client_ledger (c : tunnelChannel) : ledger := Ledger
  (fun id => match ch_objects c !! id with
             | Some v => outstanding (cs_send (cc_str v)) | None => Ws end)
  (fun id => match ch_objects c !! id with
             | Some v => r_currentWindow (cs_receiver (cc_str v)) | None => Wc end)
  (client_lists c)
  (fun id => client_lists c id /\
             match ch_objects c !! id with
             | Some v => taking (undone v) (cs_receiver (cc_str v)) | None => True end).

Definition client_end_ok (v : client_conf) : Prop :=
  end_ok response_measure Wc overhead (cs_send (cc_str v)) (cs_receiver (cc_str v)).

Record channel_side (c : tunnelChannel) : Prop := {
  cv_objects : forall id v, ch_objects c !! id = Some v -> client_end_ok v;
  cv_window : initialWindowSize (ch_opts c) = Wc;
  cv_settings : forall st, ch_settings c = Some st ->
    Settings_InitialWindowSize st = Ws /\ ch_useRevision c = REVISION_TWO;
  cv_creating : forall id frame, ch_creating c = Some (id, frame) ->
    NewStream_InitialWindowSize frame = Wc /\ ProtocolRevision frame = REVISION_TWO;
  cv_wire : Forall (opens_with Wc) (ch_wire c);
}.

Definition channel_accounts (c c' : tunnelChannel) (ins : list ServerToClient) : Prop :=
  channel_side c' /\ exists ms, ch_wire c' = ch_wire c ++ ms /\
    ledger_moves (client_ledger c) (client_ledger c') (down_data ins) (down_credit ins)
      (up_data ms) (up_credit ms).

Lemma down_sums_nonneg ins id : 0 <= down_data ins id /\ 0 <= down_credit ins id.
Proof. split; apply weigh_nonneg; [apply response_weight_nonneg|apply update_down_nonneg]. Qed.

(** Two states of a stream with the same account. *)
Definition same_account (v w : client_conf) : Prop :=
  s_msgOverhead (c_sender (cs_send (cc_str w))) = s_msgOverhead (c_sender (cs_send (cc_str v))) /\
  outstanding (cs_send (cc_str w)) = outstanding (cs_send (cc_str v)) /\
  cs_receiver (cc_str w) = cs_receiver (cc_str v) /\ cs_done (cc_str w) = cs_done (cc_str v).

Definition same_accounts (a b : gmap Z client_conf) : Prop :=
  forall id, option_Forall2 same_account (a !! id) (b !! id).

Lemma same_accounts_refl a : same_accounts a a.
Proof. intros id. by destruct (a !! id); constructor. Qed.

(** What comes in for listed streams is not lost. *)
Definition channel_misses (c c' : tunnelChannel) (ins : list ServerToClient) : Prop :=
  forall id, client_lists c' id -> client_lists c id /\ down_data ins id = 0 /\ down_credit ins id = 0.

Lemma channel_misses_closed c c' ins : ch_streams c' = None -> channel_misses c c' ins.
Proof. by intros Hn id [? _]. Qed.

(** Streams may leave the table. *)
Lemma channel_misses_nothing c c' :
  same_accounts (ch_objects c) (ch_objects c') -> ch_lastStreamID c <= ch_lastStreamID c' ->
  (ch_streams c' <> None -> ch_streams c <> None) -> (forall id, in_table id c' = true -> in_table id c = true) ->
  channel_misses c c' [].
Proof.
  intros Ho Hl Hs Ht id [Hn Hid]. specialize (Ho id). split; [|done]. split; [by apply Hs|].
  destruct (ch_objects c !! id), (ch_objects c' !! id); inversion Ho; [by apply Ht|lia].
Qed.

(** Streams keep their accounts, and what is sent weighs nothing. *)
Lemma kaccounts_same c c' ms ins :
  channel_side c -> same_accounts (ch_objects c) (ch_objects c') -> ch_opts c' = ch_opts c ->
  (forall st, ch_settings c' = Some st -> Settings_InitialWindowSize st = Ws /\ ch_useRevision c' = REVISION_TWO) ->
  ch_creating c' = ch_creating c \/ ch_creating c' = None ->
  ch_wire c' = ch_wire c ++ ms -> Forall (opens_with Wc) ms ->
  (forall id, up_data ms id = 0 /\ up_credit ms id = 0) -> channel_misses c c' ins -> channel_accounts c c' ins.
Proof.
  intros [Ho Hw Hs Hc Hm] E1 E2 E3 E4 E5 Hms Hzero Hmiss. split.
  - split; rewrite ?E2; try done.
    + intros id w Hlook. specialize (E1 id). rewrite Hlook in E1.
      inversion E1 as [v w' Hsame Hv Hw'|]; subst. destruct Hsame as (A & _ & B & _).
      destruct (Ho id v (eq_sym Hv)) as (P & Q). unfold client_end_ok, end_ok. by rewrite A, B.
    + intros id frame Hf. apply (Hc id frame). destruct E4 as [<-|E4]; congruence.
    + rewrite E5. by apply Forall_app.
  - exists ms. split; [done|]. intros id. destruct (Hzero id) as [-> ->].
    pose proof (down_sums_nonneg ins id). unfold client_ledger, undone. simpl. specialize (E1 id). specialize (Hmiss id).
    inversion E1 as [v w (_ & A & B & D) Hv Hw'|]; [rewrite A, B, D|];
      (split_and!; [lia|lia| |]; [intros [? ?]%Hmiss|intros [[? ?]%Hmiss ?]]; split; done || lia).
Qed.

Lemma kaccounts_quiet c c' ins :
  channel_side c -> same_accounts (ch_objects c) (ch_objects c') -> ch_opts c' = ch_opts c ->
  ch_settings c' = ch_settings c -> ch_useRevision c' = ch_useRevision c ->
  ch_creating c' = ch_creating c \/ ch_creating c' = None -> ch_wire c' = ch_wire c ->
  channel_misses c c' ins -> channel_accounts c c' ins.
Proof.
  intros Hside E1 E2 E3 E4 E5 E6 Hmiss. apply (kaccounts_same _ _ []); try done.
  - rewrite E3, E4. apply Hside.
  - by rewrite E6, app_nil_r.
Qed.

Lemma same_account_cancel streams id v : same_account v (cancel_in_table streams id v).
Proof.
  unfold cancel_in_table, cancel_client, cancel_ctx. destruct streams as [ids|]; [|done].
  destruct (bool_decide _); [|done]. by destruct (c_ctx (cs_send (cc_str v))).
Qed.

Lemma close_objects err c : same_accounts (ch_objects c) (ch_objects (fst (channel_close err c))).
Proof.
  unfold channel_close. destruct (ch_finished c); [apply same_accounts_refl|]. simpl. intros id.
  rewrite map_lookup_imap. destruct (ch_objects c !! id); simpl; constructor.
  apply same_account_cancel.
Qed.

Lemma close_misses n err c ins : channel_inv n c -> channel_misses c (fst (channel_close err c)) ins.
Proof.
  intros Hinv. apply channel_misses_closed. pose proof (ni_finished _ _ Hinv) as Hf. unfold channel_close.
  destruct (ch_finished c); [apply Hf|done].
Qed.

Lemma kaccounts_close n err c ins :
  channel_inv n c -> channel_side c -> channel_accounts c (fst (channel_close err c)) ins.
Proof.
  intros Hinv Hside. pose proof (close_objects err c). pose proof (close_misses n err c ins Hinv). unfold channel_close in *.
  destruct (ch_finished c); apply kaccounts_quiet; auto.
Qed.

Lemma kaccounts_loop_close n err c ins :
  channel_inv n c -> channel_side c -> channel_accounts c (loop_close err c) ins.
Proof.
  intros Hinv Hside. pose proof (close_objects err c). pose proof (close_misses n err c ins Hinv).
  unfold loop_close, channel_close in *. destruct (ch_finished c); apply kaccounts_quiet; auto.
Qed.

(** An action of one stream. *)
Lemma kaccounts_run n id l c c' ins :
  channel_inv n c -> channel_side c -> run_client id l c = Some c' ->
  (forall id', down_credit ins id' = if id =? id' then received_down l else 0) ->
  (forall id', down_data ins id' = if id =? id' then received_response l else 0) ->
  channel_accounts c c' ins.
Proof.
  intros Hinv [Ho Hw Hset Hc Hm] Hrun Hcr Hch.
  apply run_client_inv in Hrun as (v & v' & objects & Hv & Hs & -> & ->).
  pose proof (ob_inv _ _ _ (ni_objects _ _ Hinv id v Hv)) as Hok.
  destruct (client_ok_step _ _ _ _ (ni_opts _ _ Hinv) Hok Hs) as [_ (fs' & Hwire' & Hnew)].
  destruct Hok as (V & ov & HV & HV1 & Hov & Hcinv).
  destruct (client_step_goes Wc ltac:(unfold is_u32 in HWc; lia) V _ ov l v v' HV HV1
    (proj1 (oo_chunk _ (ni_opts _ _ Hinv))) Hov Hcinv Hs) as (fs & Hwire & Hmoved).
  assert (fs' = fs) as -> by (rewrite Hwire in Hwire'; by apply app_inv_head in Hwire').
  destruct (Hmoved (Ho id v Hv)) as (Hend & Hleft & Hright & Hleft' & Hright').
  rewrite Hwire, drop_app_length. split.
  - split; simpl; try done.
    + intros id' w. rewrite lookup_insert_Some. intros [[<- <-]|[_ Hw']]; [done|by eapply Ho].
    + apply Forall_app. split; [done|]. apply Forall_fmap. eapply Forall_impl; [exact Hnew|].
      intros f Hf frame. simpl. by intros [= ->].
  - exists (client_tag id <$> fs). split; [done|]. intros id'. rewrite Hcr, Hch.
    unfold up_data, up_credit. rewrite !(weigh_tagged _ _ _ (client_tag id) id) by done.
    set (c' := kto_wire _ _).
    assert (Htab : in_table id' c' = true -> in_table id' c = true).
    { rewrite (in_table_after id' c c' v v' id eq_refl). by intros [? _]%andb_true_iff. }
    assert (Hst : ch_streams c' <> None -> ch_streams c <> None)
      by (subst c'; simpl; by destruct (became_done v v'), (ch_streams c)).
    unfold client_ledger, client_lists. destruct (Z.eqb_spec id id') as [<-|Hne]; simpl.
    + rewrite lookup_insert_eq, Hv. change (zsum (request_weight <$> fs)) with (owed overhead fs).
      change (zsum (update_up <$> fs)) with (credited update_up fs). split_and!; [lia|lia| |].
      * intros [? ?]. split; [split; auto|done].
      * intros [[? ?] [? ?]%Hright']. split; [split; [split|]; auto|done].
    + rewrite lookup_insert_ne by done.
      split_and!; [lia|lia| |]; [intros [? Hl]|intros [[? Hl] ?]]; (split; [|lia]);
        [|split; [|done]]; (split; [by apply Hst|]); destruct (ch_objects c !! id'); auto.
Qed.

(** The settings of the server are its window. *)
Lemma kaccounts_settings n res c ins opts :
  channel_inv n c -> channel_side c -> ch_settings c = None -> initialWindowSize opts = Ws ->
  (forall m, res = inr m -> m = settings_message opts) ->
  (forall id, down_data ins id = 0 /\ down_credit ins id = 0) ->
  channel_accounts c (recv_settings res c) ins.
Proof.
  intros Hinv Hside Hnone Hopts Hm Hins. unfold recv_settings. destruct (tunnelRoles _).
  destruct res as [e|m]; [by eapply kaccounts_loop_close|]. rewrite (Hm m eq_refl). simpl.
  unfold check_settings. destruct (tunnelRoles _). simpl.
  destruct (_ <? _).
  - match goal with |- context [loop_close ?err ?c'] => pose proof (close_objects err c') as Hobj end.
    pose proof (ni_finished _ _ Hinv) as Hfin.
    unfold loop_close, channel_close in *. simpl in *. destruct (ch_finished c);
      apply (kaccounts_same _ _ []); rewrite ?app_nil_r; auto;
      (by intros st ?) || (apply channel_misses_closed; by try apply Hfin).
  - apply (kaccounts_same _ _ []); simpl; auto; [apply same_accounts_refl| |by rewrite app_nil_r|].
    + intros st [= <-]. done.
    + intros id ?. by split.
Qed.

(** A new stream starts with the windows that both ends have announced. *)
Lemma kaccounts_new n a c c' e :
  channel_inv n c -> channel_side c -> n < MaxInt64 -> newStream_begin a c = Returns (c', e) ->
  channel_accounts c c' [].
Proof.
  intros Hinv Hside Hn. unfold newStream_begin, allocateStream.
  pose proof (ni_last _ _ Hinv) as Hlast. pose proof (same_accounts_refl (ch_objects c)) as Hrefl.
  rewrite i64_small by (unfold MinInt64, MaxInt64 in *; lia).
  assert (Hsame : channel_accounts c c []) by (apply kaccounts_quiet, channel_misses_nothing; auto; lia).
  destruct (ch_finished c); [by intros [= <- _]|].
  destruct (ch_lastStreamID c <? 0); [by intros [= <- _]|].
  set (c1 := kset_last _ c). set (id := ch_lastStreamID c + 1).
  assert (Hlater : channel_accounts c c1 [])
    by (apply kaccounts_quiet, channel_misses_nothing; auto; simpl; lia).
  destruct (in_table id c1); [by intros [= <- _]|].
  destruct (apply_call_options _ _ _) as [|[e'|md]]; [done|by intros [= <- _]|].
  destruct (ch_settings c1) as [st|] eqn:Hset; [|done]. intros [= <- _].
  destruct Hside as [Ho Hw Hs Hc Hm]. destruct (Hs st Hset) as [Hst Hrev].
  assert (Hnew : ch_objects c !! id = None).
  { destruct (ch_objects c !! id) as [v|] eqn:Hv; [|done].
    pose proof (ob_id _ _ _ (ni_objects _ _ Hinv _ v Hv)). lia. }
  split; [split|]; simpl; try done.
  - intros id' w. rewrite lookup_insert_Some. intros [[<- <-]|[_ Hw']]; [|by eapply Ho].
    unfold client_end_ok, make_client_stream. simpl. rewrite Hrev, Hw. split_and!; [done|done|].
    apply new_recv_inv; [done|]. by vm_compute.
  - intros id' frame [= <- <-]. simpl. by rewrite Hw, Hrev.
  - exists []. rewrite app_nil_r. split; [done|]. intros id'.
    change (up_data [] id') with 0. change (up_credit [] id') with 0.
    change (down_data [] id') with 0. change (down_credit [] id') with 0.
    unfold client_ledger, client_lists, in_table. simpl. destruct (ch_streams c) as [ids|]; simpl.
    + destruct (decide (id' = id)) as [->|Hne].
      * rewrite lookup_insert_eq, Hnew. unfold outstanding, reserved. simpl. rewrite Hst, Hw.
        split_and!; [lia|lia|intros _|intros _]; split_and!; done || lia.
      * rewrite lookup_insert_ne by done.
        assert (Hin : id' ∈ {[id]} ∪ ids -> id' ∈ ids) by (by intros [?%elem_of_singleton|]%elem_of_union).
        split_and!; [lia|lia| |]; destruct (ch_objects c !! id'); rewrite ?bool_decide_eq_true;
          [intros [? ?]|intros [? ?]|intros [[? ?] ?]|intros [[? ?] ?]]; split_and!; auto; lia.
    + rewrite lookup_insert. repeat case_decide; subst; rewrite ?Hnew; unfold outstanding, reserved; simpl;
        rewrite ?Hst, ?Hw; (split_and!; [lia|lia| |]; [by intros [? _]|by intros [[? _] _]]).
Qed.

Lemma kaccounts_opened e c c' :
  channel_side c -> newStream_end e c = Some c' -> channel_accounts c c' [].
Proof.
  intros Hside. unfold newStream_end. destruct (ch_creating c) as [[id frame]|] eqn:Hcr; [|done].
  pose proof (same_accounts_refl (ch_objects c)) as Hrefl.
  destruct e as [e|]; intros [= <-].
  { apply kaccounts_quiet; auto. apply channel_misses_nothing; auto; simpl; [lia|by destruct (ch_streams c)|].
    intros id'. unfold in_table. simpl. destruct (ch_streams c) as [ids|]; [|done]. simpl.
    rewrite !bool_decide_eq_true. by intros [? _]%elem_of_difference. }
  assert (Halter : same_accounts (ch_objects c) (alter (cset_watching true) id (ch_objects c))).
  { intros id'. rewrite lookup_alter. destruct (decide (id = id')) as [<-|]; [|apply Hrefl].
    by destruct (ch_objects c !! id); constructor. }
  eapply (kaccounts_same _ _ [_]); simpl; try done; [apply Hside|by right|..].
  - apply Forall_singleton. intros frame' [= <-]. by eapply cv_creating.
  - intros id'. unfold up_data, up_credit, weigh. simpl. by destruct (id =? id').
  - by apply channel_misses_nothing.
Qed.

Definition delivered (l : channel_label) : list ServerToClient :=
  match l with KRecv (inr m) => [m] | _ => [] end.

Lemma delivers_nothing l : (forall m, l <> KRecv (inr m)) -> delivered l = [].
Proof. intros Hno. destruct l as [|[e|m]| | | | | |]; try done. by destruct (Hno m). Qed.

Lemma kaccounts_step n l c c' opts :
  channel_inv n c -> channel_side c -> n < MaxInt64 -> initialWindowSize opts = Ws ->
  (ch_loop c = LSettings -> forall m, l = KRecv (inr m) -> m = settings_message opts) ->
  channel_step l c = Some c' -> channel_accounts c c' (delivered l).
Proof.
  intros Hinv Hside Hn Hopts Hset Hs. pose proof (same_accounts_refl (ch_objects c)) as Hrefl.
  pose proof (ni_loop _ _ Hinv) as Hloop.
  destruct l as [|res|a|e|id l| | |e]; cbn [channel_step] in Hs.
  - destruct (ch_loop c); try done. injection Hs as <-.
    destruct (ch_serverSendsSettings c);
      [apply kaccounts_quiet, channel_misses_nothing; auto; simpl; lia|by eapply kaccounts_loop_close].
  - destruct (ch_loop c) as [| |o|] eqn:Hlp; try done.
    + injection Hs as <-. apply (kaccounts_settings n res c _ opts); try done.
      * intros m ->. by apply (Hset eq_refl).
      * intros id. destruct res as [e|m]; [done|]. rewrite (Hset eq_refl m eq_refl).
        unfold delivered, down_data, down_credit. rewrite !weigh_cons.
        by destruct (S2C_StreamId (settings_message opts) =? id).
    + destruct (channel_loop_idle o c); [|done]. unfold recv_frame in Hs.
      destruct res as [e|m]; [injection Hs as <-; by eapply kaccounts_loop_close|].
      destruct (channel_getStream _ c) eqn:Hget; [|injection Hs as <-|injection Hs as <-; by eapply kaccounts_loop_close].
      2: { apply kaccounts_quiet; auto. intros id Hl. split; [done|].
        assert (id <> S2C_StreamId m) as Hne.
        { intros ->. destruct Hl as [_ Hl]. unfold channel_getStream in Hget.
          destruct (in_table _ c); [done|]. destruct (andb _ _) eqn:Hand; [|done].
          apply andb_true_iff in Hand as [_ Hle]. apply Z.leb_le in Hle. simpl in Hl.
          destruct (ch_objects c !! S2C_StreamId m); [done|lia]. }
        unfold delivered, down_data, down_credit. rewrite !weigh_cons.
        by destruct (Z.eqb_spec (S2C_StreamId m) id); [congruence|]. }
      assert (Hin : forall w id, weigh S2C_StreamId S2C_Frame w [m] id
                      = if S2C_StreamId m =? id then message_weight S2C_Frame w m else 0).
      { intros w id. rewrite weigh_cons. unfold weigh. simpl. destruct (_ =? _); lia. }
      apply (kaccounts_run n (S2C_StreamId m) (CFrame (S2C_Frame m))
               (kset_loop (LReceiving (Some (S2C_StreamId m))) c)); try done.
      * by eapply inv_dispatch.
      * by destruct Hside; split.
      * intros id. unfold down_credit, delivered. rewrite Hin. unfold message_weight. by destruct (S2C_Frame m).
      * intros id. unfold down_data, delivered. rewrite Hin. unfold message_weight. by destruct (S2C_Frame m).
  - destruct (ch_creating c); [done|].
    destruct (newStream_begin a c) as [|[c1 e]] eqn:Hb; [done|]. injection Hs as <-.
    by eapply kaccounts_new.
  - by eapply kaccounts_opened.
  - assert (received_down l = 0 /\ received_response l = 0) as [E1 E2] by (by destruct l).
    apply (kstream_inv id l) in Hs as [Hr _].
    eapply kaccounts_run; [done..| |]; intros id'; [rewrite E1|rewrite E2]; by destruct (_ =? _).
  - injection Hs as <-. by eapply kaccounts_close.
  - destruct (_ && _); [|done].
    destruct (ch_settings c); injection Hs as <-; [|by eapply kaccounts_close].
    apply kaccounts_quiet, channel_misses_nothing; auto; simpl; lia.
  - destruct (ch_ctxErr c); [done|]. injection Hs as <-.
    apply kaccounts_quiet, channel_misses_nothing; auto; simpl; lia.
Qed.
End ChannelAccount.

(** ** What fits is accepted *)
Lemma fitting_accepted {I} `{DF : DataFrame I} measure (Hm : forall f : I, measure f = measure_view (data_view_of f))
    W c r f :
  W <= MaxUint32 -> end_ok measure W overhead c r -> frame_charge overhead f <= r_currentWindow r ->
  snd (accept measure f r) = None.
Proof.
  intros HW Hok Hfit. rewrite <- (end_charge measure Hm W overhead c r f Hok) in Hfit.
  destruct Hok as (_ & _ & [? ? ? ? _ _ _]). pose proof (measure_nonneg measure Hm) as Hnn.
  assert (is_u32 (r_currentWindow r)) as Hu.
  { pose proof (queued_nonneg measure Hnn r). unfold is_u32. lia. }
  destruct (accept_cases measure Hnn f r Hu) as [(_ & ->)|[(_ & ? & _)|(_ & _ & ->)]]; [done|lia|done].
Qed.

Lemma outstanding_nonneg W maxChunk ov ls c :
  1 <= W -> 1 <= maxChunk -> 0 <= ov < MaxUint32 ->
  sender_inv W (max_chunk W maxChunk) ov ls c -> 0 <= outstanding c.
Proof.
  intros HW Hmc Hov Hinv. pose proof (reserved_nonneg W maxChunk ov Hov ls c Hinv).
  pose proof (inv_window _ _ _ _ _ Hinv) as Hw. unfold is_u32, outstanding in *. lia.
Qed.

Lemma next_fits {M F} (about : M -> Z) (frame : M -> option F) w ms n m f :
  (forall f, 0 <= w f) -> ms !! n = Some m -> frame m = Some f ->
  w f <= weigh about frame w (drop n ms) (about m).
Proof.
  intros Hw Hm Hf. rewrite (weigh_take_next _ _ _ _ _ _ _ Hm), weigh_cons, Z.eqb_refl.
  unfold message_weight. rewrite Hf. pose proof (weigh_nonneg about frame w (drop (S n) ms) (about m) Hw).
  change (weigh about frame w [] (about m)) with 0. lia.
Qed.

(** ** The whole tunnel *)
Section TunnelWindows.
Context `{StatusLib} `{MetadataAppend} (QueryService : string -> option ServiceDesc).
Context (reverse secure : bool) (client_opts server_opts : tunnelOpts).
Context (client_ctx server_ctx : option error).
Context (Hco : opts_ok client_opts) (Hso : opts_ok server_opts).

Abbreviation start := (tunnel_start reverse secure client_opts server_opts client_ctx server_ctx).
Abbreviation inv := (tunnel_inv QueryService reverse server_opts server_ctx).

(** What is under way to the server and to the client. *)
Definition going_up (t : tunnel) : list ClientToServer := drop (tn_up t) (ch_wire (tn_channel t)).
Definition going_down (t : tunnel) : list ServerToClient := drop (tn_down t) (ts_wire (tn_server t)).

Definition server_windows (t : tunnel) : ledger :=
  server_ledger (initialWindowSize server_opts) (initialWindowSize client_opts) (tn_server t).
Definition client_windows (t : tunnel) : ledger :=
  client_ledger (initialWindowSize server_opts) (initialWindowSize client_opts) (tn_channel t).

(** For every stream and both directions: what the sender may still send, and what
    is under way as data or as an update of the sender's window, fits into the
    window of the receiver. *)
Definition windows_agree (t : tunnel) : Prop := forall id,
  lg_left (client_windows t) id + up_data (going_up t) id + down_credit (going_down t) id
    <= lg_right (server_windows t) id /\
  lg_left (server_windows t) id + down_data (going_down t) id + up_credit (going_up t) id
    <= lg_right (client_windows t) id.

Record tunnel_windows (t : tunnel) : Prop := {
  tw_server : server_side (initialWindowSize server_opts) (tn_server t);
  tw_channel : channel_side (initialWindowSize server_opts) (initialWindowSize client_opts) (tn_channel t);
  tw_down : (tn_down t <= length (ts_wire (tn_server t)))%nat;
  tw_agree : windows_agree t;
}.

Lemma opts_window o : opts_ok o -> is_u32 (initialWindowSize o).
Proof. intros [[Hw1 Hw2] _ _ _]. unfold is_u32, minInitialWindowSize in *. lia. Qed.

Lemma start_windows : tunnel_windows start.
Proof.
  split; simpl; try done.
  - split; simpl; try done. by repeat constructor.
  - intros id. unfold server_windows, client_windows, server_ledger, client_ledger. simpl.
    rewrite !lookup_empty. change (up_data _ id) with 0. change (down_credit _ id) with 0.
    change (down_data _ id) with 0. change (up_credit _ id) with 0. lia.
Qed.

(** *** The steps *)
Lemma windows_channel ls t cl c' d :
  inv ls t -> tunnel_windows t -> len ls < MaxInt64 ->
  (ch_loop (tn_channel t) = LSettings -> forall m, cl = KRecv (inr m) -> m = settings_message server_opts) ->
  channel_step cl (tn_channel t) = Some c' -> (d <= length (ts_wire (tn_server t)))%nat ->
  going_down t = delivered cl ++ drop d (ts_wire (tn_server t)) ->
  tunnel_windows (Tunnel c' (tn_server t) (tn_up t) d).
Proof.
  intros Hinv [Hs Hc _ Ha] Hlen Hset Hstep Hd Hdown.
  destruct (kaccounts_step _ _ (opts_window _ Hco) _ _ _ _ server_opts
    (ti_channel _ _ _ _ _ _ Hinv) Hc Hlen eq_refl Hset Hstep) as (Hc' & ms & Hwire & Hmoves).
  split; simpl; try done. intros id. destruct (Ha id) as [A1 A2], (Hmoves id) as [B1 B2].
  rewrite Hdown in A1, A2. unfold going_down, going_up in *. simpl. rewrite Hwire.
  unfold up_data, up_credit, down_data, down_credit, client_windows, server_windows in *. simpl in *.
  rewrite weigh_app in A1, A2. rewrite !weigh_more by (apply (ti_up _ _ _ _ _ _ Hinv)). lia.
Qed.

Lemma windows_server ls t sl s' up :
  inv ls t -> tunnel_windows t ->
  server_step QueryService sl (tn_server t) = Some s' ->
  going_up t = received [sl] ++ drop up (ch_wire (tn_channel t)) ->
  tunnel_windows (Tunnel (tn_channel t) s' up (tn_down t)).
Proof.
  intros Hinv [Hs Hc Hd Ha] Hstep Hup.
  destruct (ti_server _ _ _ _ _ _ Hinv) as (lss & Hran).
  destruct (server_behind QueryService reverse server_opts server_ctx Hso lss t _
    (ti_channel _ _ _ _ _ _ Hinv) Hran) as (Hsinv & _).
  assert (Hopen : Forall (opens_with (initialWindowSize client_opts)) (received [sl])).
  { assert (Hall : Forall (opens_with (initialWindowSize client_opts)) (going_up t)).
    { apply Forall_drop. apply (cv_wire _ _ _ Hc). }
    rewrite Hup in Hall. by apply Forall_app in Hall as [? _]. }
  destruct (accounts_step QueryService _ _ (opts_window _ Hso) _ _ _ Hsinv Hs Hopen Hstep)
    as (Hs' & ms & Hwire & Hmoves).
  split; simpl; try done; [rewrite Hwire, length_app; lia|].
  intros id. destruct (Ha id) as [A1 A2], (Hmoves id) as [B1 B2].
  rewrite Hup in A1, A2. unfold going_down, going_up in *. simpl. rewrite Hwire.
  unfold up_data, up_credit, down_data, down_credit, client_windows, server_windows in *. simpl in *.
  rewrite weigh_app in A1, A2. rewrite !weigh_more by done. lia.
Qed.

Lemma tunnel_windows_step ls l t t' :
  inv ls t -> tunnel_windows t -> len ls < MaxInt64 -> tunnel_step QueryService l t = Some t' ->
  tunnel_windows t'.
Proof.
  intros Hinv Hw Hlen Hs. destruct l as [cl|sl|closing|].
  - destruct (at_channel_inv _ _ _ _ Hs) as (Hno & c' & Hc & ->). pose proof (delivers_nothing cl Hno) as Hdel.
    apply (windows_channel ls t cl); try done; [|apply (tw_down _ Hw)|by rewrite Hdel].
    intros _ m Hm. by destruct (Hno m).
  - destruct (at_server_inv _ _ _ _ Hs) as (Hrec & Hlok & s' & Hs' & ->).
    apply (windows_server ls t sl); try done. by rewrite Hrec.
  - cbn [tunnel_step] in Hs. destruct (_ !! tn_up t) as [m|] eqn:Hm; [|done].
    destruct (server_step _ _ _) as [s'|] eqn:Hs'; [|done]. injection Hs as <-.
    apply (windows_server ls t (TRecv closing (inr m))); try done. by apply drop_S.
  - cbn [tunnel_step] in Hs. destruct (_ !! tn_down t) as [m|] eqn:Hm; [|done].
    destruct (channel_step _ _) as [c'|] eqn:Hc; [|done]. injection Hs as <-.
    apply (windows_channel ls t (KRecv (inr m))); try done; [| |by apply drop_S].
    + intros E m' [= <-].
      pose proof (next_down QueryService reverse server_opts server_ctx Hso ls t m Hinv Hm) as Hn.
      by rewrite E in Hn.
    + apply lookup_lt_Some in Hm. lia.
Qed.

Lemma tunnel_windows_run ls t :
  Forall (fun l => delivers l = true) ls -> len ls <= MaxInt64 ->
  run (tunnel_step QueryService) ls start = Some t -> inv ls t /\ tunnel_windows t.
Proof.
  intros Hls Hlen Hrun. revert ls t Hrun Hls Hlen.
  apply (run_history (tunnel_step QueryService) (fun ls t => Forall (fun l => delivers l = true) ls ->
    len ls <= MaxInt64 -> inv ls t /\ tunnel_windows t)).
  - intros _ _. split; [by apply tunnel_start_inv|apply start_windows].
  - intros ls l t t' IH Hs [Hls Hl]%Forall_app Hlen. rewrite len_app in Hlen.
    change (len [l]) with 1 in Hlen. apply Forall_cons_1 in Hl as [Hl _].
    destruct (IH Hls ltac:(lia)) as [Hinv Hw].
    split; [eapply tunnel_inv_step; try done; lia|eapply tunnel_windows_step; try done; lia].
Qed.

Lemma lefts_nonneg ls t id :
  inv ls t -> 0 <= lg_left (client_windows t) id /\ 0 <= lg_left (server_windows t) id.
Proof.
  intros Hinv. destruct (ti_server _ _ _ _ _ _ Hinv) as (lss & Hran).
  destruct (server_behind QueryService reverse server_opts server_ctx Hso lss t _
    (ti_channel _ _ _ _ _ _ Hinv) Hran) as (Hsinv & _).
  pose proof (opts_window _ Hso) as [? _]. pose proof (opts_window _ Hco) as [? _].
  unfold client_windows, server_windows. simpl. split.
  - destruct (ch_objects _ !! id) as [v|] eqn:Hv; [|done].
    destruct (ob_inv _ _ _ (ni_objects _ _ (ti_channel _ _ _ _ _ _ Hinv) id v Hv))
      as (V & ov & HV & HV1 & Hov & Hk). destruct (ki_send _ _ _ _ Hk) as (lk & Hlk).
    eapply outstanding_nonneg; [..|exact Hlk]; try done.
    apply (oo_chunk _ (ni_opts _ _ (ti_channel _ _ _ _ _ _ Hinv))).
  - destruct (ts_objects _ !! id) as [v|] eqn:Hv; [|done].
    destruct (vi_objects _ Hsinv id v Hv) as (V & ov & HV & HV1 & Hov & Hk).
    destruct (si_send _ _ _ _ Hk) as (lk & Hlk). eapply outstanding_nonneg; [..|exact Hlk]; try done.
    apply (oo_chunk _ (vi_opts _ Hsinv)).
Qed.

(** C6: The two ends of a tunnel agree on the flow-control window of every stream.
    For all options of the two ends and every interleaving of their goroutines,
    of all RPCs and of the messages under way: for each stream and both
    directions, what the sender may still send, plus the data and the window
    updates that are under way for it, never exceeds the window of the receiver.
    So the next frame of the transport always fits, and neither end ever ends
    an RPC for exceeding its window, however the streams share the tunnel and
    whenever they are finished or cancelled. *)
Theorem tunnel_windows_agree ls t :
  Forall (fun l => delivers l = true) ls -> len ls <= MaxInt64 ->
  run (tunnel_step QueryService) ls start = Some t ->
  windows_agree t /\
  (forall m f v, ch_wire (tn_channel t) !! tn_up t = Some m -> C2S_Frame m = Some f ->
     ts_objects (tn_server t) !! C2S_StreamId m = Some v ->
     snd (accept request_measure f (ss_receiver (sc_str v))) = None) /\
  (forall m f v, ts_wire (tn_server t) !! tn_down t = Some m -> S2C_Frame m = Some f ->
     ch_objects (tn_channel t) !! S2C_StreamId m = Some v ->
     snd (accept response_measure f (cs_receiver (cc_str v))) = None).
Proof.
  intros Hls Hlen Hrun. destruct (tunnel_windows_run ls t Hls Hlen Hrun) as [Hinv [Hs Hc _ Ha]].
  pose proof (opts_window _ Hso) as [_ HWs]. pose proof (opts_window _ Hco) as [_ HWc].
  split_and!; [done|..]; intros m f v Hm Hf Hv.
  - destruct (Ha (C2S_StreamId m)) as [A _], (lefts_nonneg ls t (C2S_StreamId m) Hinv) as [Hl _].
    pose proof (next_fits C2S_StreamId C2S_Frame request_weight _ _ _ _ request_weight_nonneg Hm Hf) as Hfit.
    pose proof (down_sums_nonneg (going_down t) (C2S_StreamId m)).
    destruct (sv_objects _ _ Hs _ _ Hv) as [Hend _].
    eapply (fitting_accepted (DF := request_data_frame) request_measure request_measure_view); [exact HWs|exact Hend|].
    assert (lg_right (server_windows t) (C2S_StreamId m) = r_currentWindow (ss_receiver (sc_str v))) as E
      by (simpl; by rewrite Hv).
    fold (going_up t) in Hfit. fold up_data in Hfit. unfold request_weight in Hfit at 1. lia.
  - destruct (Ha (S2C_StreamId m)) as [_ A], (lefts_nonneg ls t (S2C_StreamId m) Hinv) as [_ Hl].
    pose proof (next_fits S2C_StreamId S2C_Frame response_weight _ _ _ _ response_weight_nonneg Hm Hf) as Hfit.
    pose proof (up_sums_nonneg (going_up t) (S2C_StreamId m)).
    pose proof (cv_objects _ _ _ Hc _ _ Hv) as Hend.
    eapply (fitting_accepted (DF := response_data_frame) response_measure response_measure_view); [exact HWc|exact Hend|].
    assert (lg_right (client_windows t) (S2C_StreamId m) = r_currentWindow (cs_receiver (cc_str v))) as E
      by (simpl; by rewrite Hv).
    fold (going_down t) in Hfit. fold down_data in Hfit. unfold response_weight in Hfit at 1. lia.
Qed.
End TunnelWindows.

(** After both RPCs have been opened and before the server receives anything: the
    request and what remains of the window of the first. *)
Example window_in_flight :
  (fun t => (lg_left (client_windows TunnelExample.opts TunnelExample.opts t) 1, up_data (going_up t) 1,
             lg_right (server_windows TunnelExample.opts TunnelExample.opts t) 1))
    (TunnelExample.at_end (take 12 TunnelExample.trace)) = (65530, 6, 65536).
Proof. vm_compute. reflexivity. Qed.

Lemma tunnel_windows_agree_witness :
  windows_agree TunnelExample.opts TunnelExample.opts (TunnelExample.at_end (take 19 TunnelExample.trace)).
Proof.
  exact (proj1 (tunnel_windows_agree (H := ExampleStatus.lib) (H1 := ExampleAppend.lib)
    TunnelServerExample.services false false TunnelExample.opts TunnelExample.opts None None
    TunnelChannelExample.example_opts_ok TunnelChannelExample.example_opts_ok
    (take 19 TunnelExample.trace) (TunnelExample.at_end (take 19 TunnelExample.trace))
    ltac:(repeat constructor) ltac:(vm_compute; congruence) ltac:(vm_compute; reflexivity))).
Defined.
