(* ===== verification/Delivery.v ===== *)
(** * The data of the RPCs

    What is read on one end of a tunnel is what was sent on the other: for all
    streams at once, whatever ends them.  The first part is one end of a stream: what
    its sender has emitted of the messages that were given to it, and what its
    reader has made of the data frames that came.  Then the server and the channel
    with all their streams, and the tunnel. *)
From stdpp Require Import gmap sets.
From S2P Require Import Prelude Status Protocol Options FlowSender FlowReceiver Reassembly FlowLink Pipe.
From S2P Require Import ServerStream TunnelServer ClientStream TunnelChannel Tunnel Windows.

(** ** What a sender has emitted *)

(** The call for [d], which started when the output was [out0], has emitted a part
    of [d], however it ended. *)
Definition call_part (W maxChunk : Z) (d : bytes) (out0 : list chunk) (c : send_conf) : Prop :=
  call_progress W maxChunk d out0 c /\
  exists cks, c_out c = out0 ++ cks /\ partly_framed (max_chunk W maxChunk) d cks.

(** The messages [ds] were given to the sender in this order; of each it has emitted
    a part. *)
Record sender_log_of (W maxChunk ov : Z) (ds : list bytes) (c : send_conf) : Prop := {
  sl_window : is_u32 W /\ 1 <= W;
  sl_chunk : 1 <= maxChunk;
  sl_ov : 0 <= ov < MaxUint32;
  sl_inv : exists ls, sender_inv W (max_chunk W maxChunk) ov ls c;
  sl_parts : exists done parts, Forall2 (partly_framed (max_chunk W maxChunk)) done parts /\
    match c_call c with
    | None => ds = done /\ c_out c = concat parts
    | Some _ => exists d, ds = done ++ [d] /\ call_part W maxChunk d (concat parts) c
    end;
}.

Definition sender_log (ds : list bytes) (c : send_conf) : Prop :=
  exists W maxChunk ov, sender_log_of W maxChunk ov ds c.

Lemma sender_log_parts ds c :
  sender_log ds c -> exists max parts, Forall2 (partly_framed max) ds parts /\ c_out c = concat parts.
Proof.
  intros (W & maxChunk & ov & [_ _ _ _ (done & parts & Hparts & Hc)]).
  exists (max_chunk W maxChunk). destruct (c_call c) as [k|].
  - destruct Hc as (d & -> & _ & cks & Hout & Hd). exists (parts ++ [cks]).
    rewrite concat_app. simpl. rewrite app_nil_r. split; [|done].
    by apply Forall2_app; [|constructor].
  - destruct Hc as [-> Hout]. by exists parts.
Qed.

(** The frame that goes out extends the part of the message. *)
Lemma call_part_step W maxChunk ov ls d out0 l c c' :
  sender_inv W (max_chunk W maxChunk) ov ls c -> l <> LReturn -> send_step l c = Some c' ->
  call_part W maxChunk d out0 c -> call_part W maxChunk d out0 c'.
Proof.
  intros Hinv Hl Hstep [Hp (cks & Hout & Hd)].
  split; [by eapply call_progress_step|].
  destruct (send_step_out l c c' Hstep) as [[Ho _]|(k & ch & err & -> & Hk & Hpc & Ho)].
  { exists cks. by rewrite Ho. }
  destruct (call_step (LCall None) k c) as [c2|] eqn:Hc2; [|by unfold call_step in Hc2; rewrite Hpc in Hc2].
  assert (Hp2 : call_progress W maxChunk d out0 c2)
    by (eapply sendFunc_progress; [apply (inv_call _ _ _ _ _ Hinv k Hk)|..]; done).
  unfold call_step in Hc2. rewrite Hpc in Hc2. injection Hc2 as <-.
  destruct (progress_partly _ _ _ _ _ Hp2) as (cks2 & Hout2 & Hd2).
  - simpl. intros k' e [= <-]. unfold send_after. by destruct (_ =? _).
  - exists cks2. split; [|done]. rewrite Ho. exact Hout2.
Qed.

Definition label_message (l : send_label) : list bytes :=
  match l with LBegin d => [d] | _ => [] end.

Lemma sender_log_step ds l c c' :
  sender_log ds c -> send_step l c = Some c' -> sender_log (ds ++ label_message l) c'.
Proof.
  intros (W & maxChunk & ov & [HW Hmc Hov (ls & Hinv) (done & parts & Hparts & Hc)]) Hstep.
  exists W, maxChunk, ov. split; try done.
  - exists (ls ++ [l]). eapply sender_inv_step; [done|exact (max_chunk_pos _ _ (proj2 HW) Hmc)|done|done].
  - destruct (c_call c) as [k|] eqn:Hk.
    + destruct Hc as (d & -> & Hpart).
      assert (Hnb : label_message l = []) by (destruct l; try done; simpl in Hstep; by rewrite Hk in Hstep).
      rewrite Hnb, app_nil_r. assert (l = LReturn \/ l <> LReturn) as [->|Hl] by (destruct l; (by left) || by right).
      * destruct Hpart as [_ (cks & Hout & Hd)]. simpl in Hstep. rewrite Hk in Hstep.
        unfold call_step in Hstep. destruct (k_pc k); try done. injection Hstep as <-. simpl.
        exists (done ++ [d]), (parts ++ [cks]). rewrite concat_app. simpl. rewrite app_nil_r.
        split; [by apply Forall2_app; [|constructor]|done].
      * pose proof (call_part_step _ _ _ _ _ _ _ _ _ Hinv Hl Hstep Hpart) as Hpart'.
        exists done, parts. split; [done|]. pose proof Hpart' as [(k' & _ & -> & _) _]. eauto.
    + destruct Hc as [-> Hout]. destruct l; simpl in Hstep; rewrite ?Hk in Hstep; try done.
      * injection Hstep as <-. exists done, parts. split; [done|]. simpl. exists data.
        split; [done|]. rewrite <- Hout. split; [by apply send_begin_progress|].
        exists []. rewrite app_nil_r. split; [done|by left].
      * exists done, parts. split; [done|]. step_in Hstep. simpl. rewrite Hk. by rewrite app_nil_r.
      * exists done, parts. split; [done|]. step_in Hstep. simpl. rewrite Hk. by rewrite app_nil_r.
      * exists done, parts. split; [done|]. step_in Hstep. simpl. rewrite Hk. by rewrite app_nil_r.
Qed.

Lemma sender_log_start W maxChunk ov ctxErr :
  is_u32 W -> 1 <= W -> 1 <= maxChunk -> 0 <= ov < MaxUint32 ->
  sender_log [] (SendConf (newSender W maxChunk ov) None 0 ctxErr []).
Proof.
  intros HW HW1 Hmc Hov. exists W, maxChunk, ov. split; try done.
  - exists []. destruct (sender_run_inv W maxChunk ov HW HW1 Hmc Hov [] (sender_start W maxChunk ov) eq_refl)
      as [? ? ? ? ? ?]. by split.
  - by exists [], [].
Qed.

Lemma sender_log_cancel e ds c : sender_log ds c -> sender_log ds (cancel_ctx e c).
Proof.
  intros Hlog. unfold cancel_ctx. destruct (c_ctx c) eqn:Hx; [done|].
  rewrite <- (app_nil_r ds). apply (sender_log_step ds (LCancel e) c); [done|]. simpl. by rewrite Hx.
Qed.

(** ** What a reader makes of frames *)
Section Frames.
Context {T : Type} `{DataFrame T}.

Definition carries_data (f : T) : bool := match data_view_of f with VOther => false | _ => true end.
Definition data_frames (fs : list T) : list T := List.filter carries_data fs.

Lemma data_frames_app a b : data_frames (a ++ b) = data_frames a ++ data_frames b.
Proof. apply List.filter_app. Qed.

Lemma data_frames_none fs : Forall (fun f => carries_data f = false) fs -> data_frames fs = [].
Proof. unfold data_frames. induction 1 as [|f fs Hf _ IH]; simpl; [done|]. by rewrite Hf. Qed.

Lemma data_frames_chunks cks : data_frames (chunk_frame <$> cks) = chunk_frame <$> cks.
Proof.
  unfold data_frames. induction cks as [|ck cks IH]; [done|]. rewrite fmap_cons. simpl. rewrite IH.
  unfold carries_data, chunk_frame. destruct (ck_first ck); by rewrite ?data_view_first, ?data_view_more.
Qed.

(** Whether a read succeeds does not depend on its texts. *)
Lemma assemble_cfg (cfg cfg' : read_config T) ms v fs : assemble cfg ms v fs = assemble cfg' ms v fs.
Proof.
  revert ms v. induction fs as [|f fs IH]; intros ms v; [done|]. cbn [assemble].
  unfold read_frame, read_check. destruct (data_view_of f) as [size d|d|]; [| |done].
  - destruct (negb _); [done|]. destruct (_ >? _); [done|]. destruct (_ =? _); apply IH.
  - destruct (rv_msgLen v =? -1); [done|]. destruct (_ >? _); [done|]. destruct (_ =? _); apply IH.
Qed.

(** Inside a message no other can begin. *)
Lemma assemble_interrupted (cfg : read_config T) ms v ck cks :
  rv_msgLen v <> -1 -> ck_first ck = true -> assemble cfg ms v (chunk_frame <$> (ck :: cks)) = None.
Proof.
  intros Hv Hf. rewrite fmap_cons. cbn [assemble]. unfold read_frame, chunk_frame at 1.
  rewrite Hf, data_view_first. by destruct (Z.eqb_spec (rv_msgLen v) (-1)).
Qed.

(** The messages of which something has been emitted. *)
Fixpoint started (ds : list bytes) (parts : list (list chunk)) : list bytes :=
  match ds, parts with
  | d :: ds, p :: parts => match p with [] => [] | _ => [d] end ++ started ds parts
  | _, _ => []
  end.

Lemma started_sublist ds parts : started ds parts `sublist_of` ds.
Proof.
  revert parts. induction ds as [|d ds IH]; intros [|p parts]; try apply sublist_nil_l.
  simpl. destruct p; simpl; [by apply sublist_cons|by apply sublist_skip].
Qed.

(** One of their frames begins each of them. *)
Lemma started_firsts max ds parts :
  Forall2 (partly_framed max) ds parts -> firsts (concat parts) = len (started ds parts).
Proof.
  assert (Hrest : forall d cks, framed_rest max d cks -> firsts cks = 0).
  { intros d cks. revert d. induction cks as [|ck cks IH]; intros d; [done|].
    intros (rest & Hf & _ & _ & Hr). unfold firsts in *. rewrite count_cons, Hf, (IH _ Hr). done. }
  induction 1 as [|d p ds parts Hd _ IH]; [done|]. simpl. unfold firsts in *.
  rewrite count_app, IH, len_app.
  destruct Hd as [->|(ck & mid & rest & cks & -> & Hf & _ & _ & Hr)]; [done|].
  specialize (Hrest _ _ Hr). unfold firsts in Hrest. rewrite count_cons, Hf, Hrest. done.
Qed.

Lemma bytes_data fs : data_bytes (data_frames fs) = data_bytes fs.
Proof.
  unfold data_bytes. induction fs as [|f fs IH]; [done|]. rewrite fmap_cons. cbn [concat]. rewrite <- IH.
  unfold data_frames. cbn [List.filter]. destruct (carries_data f) eqn:E; [done|].
  unfold carries_data, frame_bytes in *. by destruct (data_view_of f).
Qed.

Lemma data_bytes_chunks ck cks :
  data_bytes (chunk_frame <$> (ck :: cks)) = ck_data ck ++ data_bytes (chunk_frame <$> cks).
Proof.
  unfold data_bytes. rewrite !fmap_cons. simpl. f_equal. unfold frame_bytes, chunk_frame.
  destruct (ck_first ck); by rewrite ?data_view_first, ?data_view_more.
Qed.

Lemma framed_rest_bytes max mid cks : framed_rest max mid cks -> data_bytes (chunk_frame <$> cks) = mid.
Proof.
  revert mid. induction cks as [|ck cks IH]; intros mid Hfr; [by simpl in Hfr; subst mid|].
  destruct Hfr as (rest & _ & _ & -> & Hfr). by rewrite data_bytes_chunks, (IH _ Hfr).
Qed.

(** A read with the variables [v] is in the message [d], of which it holds a part
    that is not all of it. *)
Definition holds_part (v : read_vars) (d : bytes) : Prop :=
  rv_msgLen v = len d /\ rv_b v `prefix_of` d /\ len (rv_b v) < len d.

Lemma assemble_part (cfg : read_config T) max ms d cks :
  partly_framed max d cks ->
  (assemble cfg ms read_vars0 (chunk_frame <$> cks)
     = Some (ms ++ match cks with [] => [] | _ => [d] end, read_vars0) /\
   data_bytes (chunk_frame <$> cks) = concat (match cks with [] => [] | _ => [d] end)) \/
  (cks <> [] /\ exists v, rv_msgLen v <> -1 /\
     assemble cfg ms read_vars0 (chunk_frame <$> cks) = Some (ms, v) /\
     data_bytes (chunk_frame <$> cks) = rv_b v /\ holds_part v d).
Proof.
  intros [->|(ck & mid & rest & cks' & -> & Hf & Hs & Hd & Hfr)].
  { left. by rewrite app_nil_r. }
  rewrite (assemble_first cfg max ms d ck mid rest), data_bytes_chunks, (framed_rest_bytes _ _ _ Hfr) by done.
  unfold settle. destruct (Z.eqb_spec (len (ck_data ck ++ mid)) (len d)) as [Heq|Hne].
  - left. rewrite Hd, !len_app in Heq. assert (rest = []) as -> by (apply len_zero; lia).
    rewrite app_nil_r in Hd. subst d. simpl. by rewrite app_nil_r.
  - right. split; [done|]. eexists. pose proof (len_nonneg d). rewrite app_assoc in Hd.
    assert (len (ck_data ck ++ mid) < len d).
    { pose proof (len_nonneg rest). apply (f_equal len) in Hd. rewrite len_app in Hd. lia. }
    split_and!; [|done|done|]; [simpl; lia|]. split_and!; [done|by exists rest|done].
Qed.

Lemma parts_begin max ds parts ck cks :
  Forall2 (partly_framed max) ds parts -> concat parts = ck :: cks -> ck_first ck = true.
Proof.
  induction 1 as [|d p ds parts Hd _ IH]; [done|]. simpl.
  destruct Hd as [->|(ck' & mid & rest & cks' & -> & Hf & _)]; [done|]. by intros [= <- _].
Qed.

(** Whatever has come of the parts of messages makes the first of those that were
    started. *)
Lemma assemble_parts (cfg : read_config T) max ds parts p q ms ms' v' :
  Forall2 (partly_framed max) ds parts -> p ++ q = concat parts ->
  assemble cfg ms read_vars0 (chunk_frame <$> p) = Some (ms', v') ->
  exists ds', ds' `prefix_of` started ds parts /\ ms' = ms ++ ds'.
Proof.
  intros Hparts. revert p ms. induction Hparts as [|d cks ds parts Hd Hparts IH]; intros p ms Hpq Has.
  { apply app_eq_nil in Hpq as [-> _]. simpl in Has. simplify_eq. exists []. by rewrite app_nil_r. }
  simpl in *. apply app_eq_inv in Hpq as [(k & -> & Hk)|(k & -> & _)].
  - rewrite fmap_app, assemble_app in Has.
    destruct (assemble_part cfg max ms d cks Hd) as [[E _]|(Hne & v & Hv & E & _)]; rewrite E in Has.
    + destruct (IH _ _ (eq_sym Hk) Has) as (ds' & Hds' & ->).
      eexists. rewrite app_assoc. split; [|done]. by apply prefix_app.
    + destruct k as [|ck k]; [simpl in Has; simplify_eq; exists []; rewrite app_nil_r;
        split; [apply prefix_nil|done]|].
      pose proof (parts_begin max ds parts ck (k ++ q) Hparts Hk) as Hf.
      by rewrite (assemble_interrupted cfg _ _ _ _ Hv Hf) in Has.
  - apply partly_framed_prefix in Hd.
    destruct (assemble_part cfg max ms d p Hd) as [[E _]|(Hne & v & Hv & E & _)]; rewrite E in Has; simplify_eq.
    + eexists. split; [|done]. destruct p; [apply prefix_nil|by apply prefix_app_r].
    + exists []. rewrite app_nil_r. split; [apply prefix_nil|done].
Qed.

Lemma started_nothing ds parts : concat parts = [] -> started ds parts = [].
Proof.
  revert parts. induction ds as [|d ds IH]; intros [|p parts]; try done. simpl.
  intros [-> Hp]%app_eq_nil. by apply IH.
Qed.

(** The [unfinished] one of the messages is what a read with the variables [v] is in. *)
Definition in_hand (v : read_vars) (unfinished : list bytes) : Prop :=
  match unfinished with [] => v = read_vars0 | [d] => holds_part v d | _ => False end.

(** When all of it has come, the messages and what the read holds are all the data,
    and the read is in the one message, if any, whose end is not sent. *)
Lemma assemble_all (cfg : read_config T) max ds parts ms ms' v' :
  Forall2 (partly_framed max) ds parts ->
  assemble cfg ms read_vars0 (chunk_frame <$> concat parts) = Some (ms', v') ->
  exists ds' unfinished, started ds parts = ds' ++ unfinished /\ ms' = ms ++ ds' /\
    data_bytes (chunk_frame <$> concat parts) = concat ds' ++ rv_b v' /\ in_hand v' unfinished.
Proof.
  intros Hparts. revert ms. induction Hparts as [|d cks ds parts Hd Hparts IH]; intros ms Has.
  { simpl in Has. simplify_eq. exists [], []. by rewrite !app_nil_r. }
  simpl in *. rewrite fmap_app, assemble_app in Has. rewrite fmap_app, data_bytes_app.
  destruct (assemble_part cfg max ms d cks Hd) as [[E Eb]|(Hne & v & Hv & E & Eb & Hpart)];
    rewrite E in Has; rewrite Eb.
  - destruct (IH _ Has) as (ds' & un & -> & -> & -> & Hun).
    exists (match cks with [] => [] | _ => [d] end ++ ds'), un.
    by rewrite concat_app, <- !app_assoc.
  - destruct (concat parts) as [|ck k] eqn:Hk.
    + simpl in Has. simplify_eq. exists [], [d]. rewrite (started_nothing _ _ Hk), !app_nil_r.
      by split_and!; [destruct cks|..].
    + pose proof (parts_begin max ds parts ck k Hparts Hk) as Hf.
      by rewrite (assemble_interrupted cfg _ _ _ _ Hv Hf) in Has.
Qed.

(** Frames that begin a message. *)
Definition starts_message (f : T) : bool := match data_view_of f with VMessage _ _ => true | _ => false end.

Lemma starts_data fs : count starts_message (data_frames fs) = count starts_message fs.
Proof.
  unfold data_frames. induction fs as [|f fs IH]; [done|]. simpl. rewrite count_cons, <- IH.
  unfold carries_data, starts_message at 2. destruct (data_view_of f) eqn:E; rewrite ?count_cons;
    unfold starts_message at 1; by rewrite ?E.
Qed.

Lemma starts_chunks cks : count starts_message (chunk_frame <$> cks) = firsts cks.
Proof.
  unfold firsts. induction cks as [|ck cks IH]; [done|]. rewrite fmap_cons, !count_cons, IH.
  unfold starts_message, chunk_frame. destruct (ck_first ck); by rewrite ?data_view_first, ?data_view_more.
Qed.
End Frames.

(** ** The log of a reader *)

(** Nothing is taken from the receiver any more. *)
Definition dry {T} (r : receiver T) : bool :=
  r_cancelled r || (r_closed r && match r_items r with [] => true | _ => false end).

Definition messages_read (reads : list read_return) : list bytes :=
  List.flat_map (fun ret => option_list (rr_data ret)) reads.

(** The message that a read holds while it waits for the end of the stream. *)
Definition phase_message (ph : read_phase) : list bytes :=
  match ph with SecondRead _ _ first => option_list (rr_data first) | _ => [] end.
Definition phase_vars (ph : read_phase) : read_vars :=
  match ph with FirstRead _ v => v | SecondRead _ v _ => v end.
Definition phase_resumed (ph : read_phase) : bool :=
  match ph with FirstRead b _ => b | SecondRead b _ _ => b end.

Section Reader.
Context {T : Type} `{DataFrame T} (measure : T -> Z * bool).

(** [fs] are the data frames that have come so far: what has been read, what is in
    the queue, and what came when the stream did not listen any more. *)
Definition queued_up (deaf : Prop) (fs : list T) (r : receiver T) (taken : list T) : Prop :=
  exists missed, fs = taken ++ r_items r ++ missed /\ (missed <> [] -> r_closed r = true \/ deaf).

(** The reads have returned [ms], or hold one of them; a read that goes on has the
    variables [v]. *)
Definition read_log (deaf : Prop) (fs : list T) (rs : read_state) (ms : list bytes) (v : read_vars) : Prop :=
  exists taken ms' v', taken `prefix_of` fs /\
    (forall cfg, assemble cfg [] read_vars0 taken = Some (ms', v')) /\ ms `prefix_of` ms' /\
    (rs_readErr rs = None -> dry (rs_recv rs) = false ->
     ms' = ms /\ v' = v /\ queued_up deaf fs (rs_recv rs) taken).

Lemma read_log_over deaf fs rs rs' ms ms1 v v1 :
  read_log deaf fs rs ms v -> ms1 `prefix_of` ms ->
  rs_readErr rs' <> None \/ dry (rs_recv rs') = true -> read_log deaf fs rs' ms1 v1.
Proof.
  intros (taken & ms' & v' & Hp & Has & Hms & _) Hms1 Hover. exists taken, ms', v'.
  split_and!; [done|done|by etrans|]. intros Hn Hd. destruct Hover; congruence.
Qed.

Lemma dequeue_dry r : dry r = true -> dequeue measure r = (r, DequeueEnd).
Proof.
  unfold dry, dequeue. destruct (r_cancelled r); [done|]. simpl.
  destruct (r_closed r), (r_items r); done.
Qed.

(** Why a read returns without a message. *)
Lemma read_loop_stops fuel resumed (cfg : read_config T) r v r' us ok err :
  read_loop measure fuel resumed cfg r v = Some (r', us, Returned (ReadReturn None ok err)) ->
  err <> None \/ dry r' = true.
Proof.
  revert resumed r v us. induction fuel as [|fuel IH]; intros resumed r v us Hrl; [done|].
  simpl in Hrl. destruct (if resumed then None else rc_ctx cfg); [simplify_eq; by left|].
  destruct (dequeue measure r) as [r1 [frame u| |]] eqn:Hd.
  - destruct (read_frame cfg frame v) as [v'|ret] eqn:Hf.
    + destruct (read_loop measure fuel false cfg r1 v') as [[[? ?] ?]|] eqn:Hr2; simplify_eq. eauto.
    + apply read_frame_returns in Hf as [(d & ->)|(e & ->)]; simplify_eq. by left.
  - simplify_eq. right. unfold dequeue in Hd. unfold dry.
    destruct (r_cancelled r) eqn:Hc; [by simplify_eq; rewrite Hc|].
    destruct (r_items r) eqn:Hi; [|step_in Hd].
    destruct (r_closed r) eqn:Hcl; simplify_eq. by rewrite Hc, Hcl, Hi.
  - done.
Qed.

Lemma read_loop_dry fuel resumed (cfg : read_config T) r v r' us out :
  dry r = true -> read_loop measure fuel resumed cfg r v = Some (r', us, out) ->
  r' = r /\ exists e, out = Returned (ReadReturn None true e).
Proof.
  intros Hd Hrl. destruct fuel as [|fuel]; [done|]. simpl in Hrl.
  destruct (if resumed then None else rc_ctx cfg); [simplify_eq; eauto|].
  rewrite (dequeue_dry r Hd) in Hrl. simplify_eq. eauto.
Qed.

Lemma locked_log deaf fs resumed (cfg : read_config T) rs ms v rs' us out :
  read_log deaf fs rs ms v -> (resumed = true -> rs_readErr rs = None) ->
  readMsgLocked measure resumed cfg rs v = Some (rs', us, out) ->
  match out with
  | Blocked v' => read_log deaf fs rs' ms v' /\ rs_readErr rs' = None
  | Returned ret => read_log deaf fs rs' (ms ++ option_list (rr_data ret)) read_vars0 /\
      rs_readErr rs' = keep_err rs (rr_err ret)
  end.
Proof.
  intros Hlog Hres Hrm. unfold readMsgLocked in Hrm.
  destruct (if resumed then None else rs_readErr rs) as [e|] eqn:He.
  { destruct resumed; [done|]. simplify_eq. simpl. rewrite app_nil_r. split; [|done].
    eapply read_log_over; [exact Hlog|done|]. left. by rewrite He. }
  assert (Hne : rs_readErr rs = None) by (destruct resumed; auto).
  destruct (read_loop _ _ _ _ _ _) as [[[r us1] out1]|] eqn:Hl; [|done].
  destruct (dry (rs_recv rs)) eqn:Hdry.
  { destruct (read_loop_dry _ _ _ _ _ _ _ _ Hdry Hl) as [-> (e & ->)]. simplify_eq. simpl.
    rewrite app_nil_r. split; [|done]. eapply read_log_over; [exact Hlog|done|by right]. }
  destruct Hlog as (taken & ms' & v' & Hp & Has & Hms & Hlive).
  destruct (Hlive Hne Hdry) as (-> & -> & missed & Hfs & Hmissed).
  assert (Hc : r_cancelled (rs_recv rs) = false) by (unfold dry in Hdry; by destruct (r_cancelled _)).
  destruct (read_loop_result _ _ _ _ _ _ _ _ _ Hl Hc) as (more & Hmore & Hout).
  destruct (read_loop_took _ _ _ _ _ _ _ _ _ Hl) as (_ & Hcl & _).
  assert (Hmove : forall ms1 v1, assemble cfg ms v more = Some (ms1, v1) ->
    (taken ++ more) `prefix_of` fs /\
    (forall cfg, assemble cfg [] read_vars0 (taken ++ more) = Some (ms1, v1)) /\
    queued_up deaf fs r (taken ++ more)).
  { intros ms1 v1 Ha. rewrite Hmore, <- app_assoc, (app_assoc taken) in Hfs. split_and!.
    - rewrite Hfs. by apply prefix_app_r.
    - intros cfg'. rewrite assemble_app, Has. by rewrite (assemble_cfg _ cfg).
    - exists missed. by rewrite Hcl. }
  specialize (Hout ms). destruct out1 as [[data ok err]|v1]; injection Hrm as <- <- <-; simpl in Hout |- *.
  - destruct data as [d|]; simpl.
    + destruct (Hmove _ _ Hout) as (H1 & H2 & H3). split; [|done]. by exists (taken ++ more), (ms ++ [d]), read_vars0.
    + rewrite app_nil_r. split; [|done]. eapply (read_log_over deaf fs rs); [|done|].
      * exists taken, ms, v. by split_and!.
      * destruct (read_loop_stops _ _ _ _ _ _ _ _ _ Hl) as [Herr|?]; [left|by right].
        simpl. destruct err; [done|by destruct Herr].
  - destruct (Hmove _ _ Hout) as (H1 & H2 & H3). split; [|done]. by exists (taken ++ more), ms, v1.
Qed.

(** What is left of [readMsg] after a step of it, [prior] being what earlier reads
    have returned. *)
Definition read_on (deaf : Prop) (fs : list T) (rs : read_state) (prior : list bytes)
    (out : read_msg_outcome) : Prop :=
  match out with
  | MsgReturned ret => read_log deaf fs rs (prior ++ option_list (rr_data ret)) read_vars0
  | MsgBlocked ph => read_log deaf fs rs (prior ++ phase_message ph) (phase_vars ph) /\
      phase_resumed ph = true /\ rs_readErr rs = None
  end.

Lemma second_log deaf fs resumed (cfg : read_config T) rs prior first v rs' us out :
  read_log deaf fs rs (prior ++ option_list (rr_data first)) v ->
  (resumed = true -> rs_readErr rs = None) ->
  second_read measure resumed cfg rs v first = Some (rs', us, out) -> read_on deaf fs rs' prior out.
Proof.
  intros Hlog Hres Hs. unfold second_read in Hs.
  destruct (readMsgLocked _ _ _ _ _) as [[[rs1 us1] [ret|v1]]|] eqn:Hl; [| |done].
  - destruct (locked_log _ _ _ _ _ _ _ _ _ _ Hlog Hres Hl) as [Hlog1 Herr].
    destruct (rr_err ret) as [e|].
    + assert (Hne : rs_readErr rs1 <> None \/ dry (rs_recv rs1) = true) by (left; by rewrite Herr).
      destruct (orb _ _); injection Hs as <- <- <-; simpl; (eapply read_log_over; [exact Hlog1| |exact Hne]);
        rewrite ?app_nil_r, <- ?app_assoc; [by apply prefix_app_r|]. apply prefix_app, prefix_app_r. done.
    + injection Hs as <- <- <-. simpl. rewrite app_nil_r.
      eapply read_log_over; [exact Hlog1| |by left]. rewrite <- app_assoc. by apply prefix_app_r.
  - destruct (locked_log _ _ _ _ _ _ _ _ _ _ Hlog Hres Hl) as [Hlog1 Herr].
    by injection Hs as <- <- <-.
Qed.

Lemma readMsg_log deaf fs (cfg : read_config T) rs prior ph rs' us out :
  read_log deaf fs rs (prior ++ phase_message ph) (phase_vars ph) ->
  (phase_resumed ph = true -> rs_readErr rs = None) ->
  readMsg measure cfg rs ph = Some (rs', us, out) -> read_on deaf fs rs' prior out.
Proof.
  destruct ph as [resumed v|resumed v first]; simpl; [|by apply second_log].
  rewrite app_nil_r. intros Hlog Hres.
  destruct (readMsgLocked _ _ _ _ _) as [[[rs1 us1] [ret|v1]]|] eqn:Hl; [| |done];
    destruct (locked_log _ _ _ _ _ _ _ _ _ _ Hlog Hres Hl) as [Hlog1 Herr].
  - destruct (_ && _); [|intros Hs; by injection Hs as <- <- <-].
    destruct (second_read _ _ _ _ _ _) as [[[rs2 us2] out2]|] eqn:Hs; [|done].
    intros [= <- <- <-]. by apply (second_log _ _ false cfg rs1 prior ret read_vars0 rs2 us2 out2 Hlog1).
  - intros [= <- <- <-]. simpl. by rewrite app_nil_r.
Qed.
End Reader.

(** ** One end of a stream *)

(** What the two kinds of streams have in common.  [ev_deaf] says that the receive
    loop does not pass frames to the stream any more. *)
Record end_view (I : Type) := EndView {
  ev_send : send_conf;
  ev_recv : receiver I;
  ev_readErr : option error;
  ev_reading : option read_phase;
  ev_reads : list read_return;
  ev_deaf : Prop;
}.
Arguments EndView {I}.
Arguments ev_send {I}.
Arguments ev_recv {I}.
Arguments ev_readErr {I}.
Arguments ev_reading {I}.
Arguments ev_reads {I}.
Arguments ev_deaf {I}.

Section Ends.
Context {I O : Type} `{DataFrame I} `{DataFrame O} (measure : I -> Z * bool).

Definition reading_phase (e : end_view I) : read_phase := default read_start (ev_reading e).

Record end_log (sent : list bytes) (ins : list I) (outs : list O) (e : end_view I) : Prop := {
  el_sender : exists ds, ds `sublist_of` sent /\ sender_log ds (ev_send e);
  el_outs : outs = chunk_frame <$> c_out (ev_send e);
  el_read : read_log (ev_deaf e) ins (ReadState (ev_recv e) (ev_readErr e))
    (messages_read (ev_reads e) ++ phase_message (reading_phase e)) (phase_vars (reading_phase e));
  el_resumed : phase_resumed (reading_phase e) = true -> ev_readErr e = None;
}.

(** From [e] to [e'] while the messages [bs] are given to the sender, the data
    frames [ins] come and [outs] go out. *)
Definition view_goes (e e' : end_view I) (bs : list bytes) (ins : list I) (outs : list O) : Prop :=
  forall sent i o, end_log sent i o e -> end_log (sent ++ bs) (i ++ ins) (o ++ outs) e'.

Lemma view_trans e1 e2 e3 bs bs' i i' o o' :
  view_goes e1 e2 bs i o -> view_goes e2 e3 bs' i' o' -> view_goes e1 e3 (bs ++ bs') (i ++ i') (o ++ o').
Proof. intros H1 H2 sent a b Hlog. rewrite !app_assoc. auto. Qed.

Lemma view_same e bs : view_goes e e bs [] [].
Proof.
  intros sent i o [(ds & Hds & Hs) Ho Hr Hp]. rewrite !app_nil_r. split; try done.
  exists ds. split; [by apply sublist_inserts_r|done].
Qed.

(** An action of the sender. *)
Lemma view_send l c e :
  send_step l (ev_send e) = Some c ->
  view_goes e (EndView c (ev_recv e) (ev_readErr e) (ev_reading e) (ev_reads e) (ev_deaf e))
    (label_message l) [] (chunk_frame <$> drop (length (c_out (ev_send e))) (c_out c)).
Proof.
  intros Hstep sent i o [(ds & Hds & Hs) Ho Hr Hp]. rewrite app_nil_r. split; try done; simpl.
  - exists (ds ++ label_message l). split; [by apply sublist_app|]. by eapply sender_log_step.
  - rewrite Ho, <- fmap_app. f_equal. symmetry. apply (send_step_drop l _ _ Hstep).
Qed.

Lemma view_cancel_ctx err e :
  view_goes e (EndView (cancel_ctx err (ev_send e)) (ev_recv e) (ev_readErr e) (ev_reading e)
    (ev_reads e) (ev_deaf e)) [] [] [].
Proof.
  intros sent i o [(ds & Hds & Hs) Ho Hr Hp]. rewrite !app_nil_r. split; try done; simpl.
  - exists ds. split; [done|]. by apply sender_log_cancel.
  - rewrite Ho. unfold cancel_ctx. by destruct (c_ctx (ev_send e)).
Qed.

(** An action on the receiver, or of the receive loop. *)
Lemma view_recv r (deaf : Prop) ins e :
  (forall fs ms v, read_log (ev_deaf e) fs (ReadState (ev_recv e) (ev_readErr e)) ms v ->
     read_log deaf (fs ++ ins) (ReadState r (ev_readErr e)) ms v) ->
  view_goes e (EndView (ev_send e) r (ev_readErr e) (ev_reading e) (ev_reads e) deaf) [] ins [].
Proof. intros Hrl sent i o [Hs Ho Hr Hp]. rewrite !app_nil_r. split; try done. by apply Hrl. Qed.

Lemma read_log_accept (deaf deaf' : Prop) f fs r err ms v :
  ~ deaf -> snd (accept measure f r) = None \/ deaf' ->
  read_log deaf fs (ReadState r err) ms v ->
  read_log deaf' (fs ++ [f]) (ReadState (fst (accept measure f r)) err) ms v.
Proof.
  intros Hnd Hrej (taken & ms' & v' & Hp & Has & Hms & Hlive). exists taken, ms', v'.
  split_and!; [by apply prefix_app_r|done|done|]. simpl in *. intros He Hd.
  assert (dry r = false) as Hdr.
  { unfold accept in Hd. destruct (r_closed r) eqn:Hc; [done|]. destruct (_ >? _); [done|].
    unfold dry in *. simpl in Hd. rewrite Hc. by destruct (r_cancelled r). }
  destruct (Hlive He Hdr) as (-> & -> & missed & Hfs & Hmissed). split_and!; [done..|].
  unfold accept in *. destruct (r_closed r) eqn:Hc.
  - exists (missed ++ [f]). split; [by rewrite Hfs, <- !app_assoc|]. simpl. auto.
  - assert (missed = []) as -> by (destruct missed; [done|]; by destruct Hmissed as [?|?]).
    rewrite app_nil_r in Hfs. destruct (_ >? _); simpl in *.
    + exists [f]. split; [by rewrite Hfs, <- app_assoc|]. intros _. by destruct Hrej; [|right].
    + exists []. by rewrite app_nil_r, Hfs, <- app_assoc.
Qed.

Lemma read_log_miss deaf gs fs r err ms v :
  deaf -> read_log deaf fs (ReadState r err) ms v -> read_log deaf (fs ++ gs) (ReadState r err) ms v.
Proof.
  intros Hdeaf (taken & ms' & v' & Hp & Has & Hms & Hlive). exists taken, ms', v'.
  split_and!; [by apply prefix_app_r|done|done|]. intros He Hd.
  destruct (Hlive He Hd) as (-> & -> & missed & -> & _). split_and!; [done..|].
  exists (missed ++ gs). rewrite <- !app_assoc. auto.
Qed.

Lemma read_log_deaf (deaf deaf' : Prop) fs rs ms v :
  (deaf -> deaf') -> read_log deaf fs rs ms v -> read_log (T := I) deaf' fs rs ms v.
Proof.
  intros Hdeaf (taken & ms' & v' & Hp & Has & Hms & Hlive). exists taken, ms', v'.
  split_and!; try done. intros He Hd. destruct (Hlive He Hd) as (-> & -> & missed & Hfs & Hm).
  split_and!; [done..|]. exists missed. split; [done|]. intros Hne. destruct (Hm Hne); auto.
Qed.

Lemma read_log_close deaf fs r err ms v :
  read_log deaf fs (ReadState r err) ms v -> read_log (T := I) deaf fs (ReadState (close r) err) ms v.
Proof.
  intros (taken & ms' & v' & Hp & Has & Hms & Hlive). exists taken, ms', v'.
  split_and!; try done. simpl in *. intros He Hd.
  assert (dry r = false) as Hdr.
  { unfold dry in *. simpl in Hd. destruct (r_cancelled r), (r_closed r), (r_items r); done. }
  destruct (Hlive He Hdr) as (-> & -> & missed & Hfs & _). split_and!; [done..|]. exists missed. auto.
Qed.

Lemma view_accept f (deaf : Prop) e :
  ~ ev_deaf e -> snd (accept measure f (ev_recv e)) = None \/ deaf ->
  view_goes e (EndView (ev_send e) (fst (accept measure f (ev_recv e))) (ev_readErr e)
    (ev_reading e) (ev_reads e) deaf) [] [f] [].
Proof. intros. apply view_recv. intros fs ms v. by apply read_log_accept. Qed.

Lemma view_close e :
  view_goes e (EndView (ev_send e) (close (ev_recv e)) (ev_readErr e)
    (ev_reading e) (ev_reads e) (ev_deaf e)) [] [] [].
Proof. apply view_recv. intros fs ms v. rewrite app_nil_r. apply read_log_close. Qed.

Lemma view_cancel e :
  view_goes e (EndView (ev_send e) (cancel (ev_recv e)) (ev_readErr e)
    (ev_reading e) (ev_reads e) (ev_deaf e)) [] [] [].
Proof.
  apply view_recv. intros fs ms v Hlog. rewrite app_nil_r.
  eapply read_log_over; [exact Hlog|done|by right].
Qed.

Lemma view_deaf (deaf : Prop) e :
  (ev_deaf e -> deaf) ->
  view_goes e (EndView (ev_send e) (ev_recv e) (ev_readErr e)
    (ev_reading e) (ev_reads e) deaf) [] [] [].
Proof. intros Hd. apply view_recv. intros fs ms v. rewrite app_nil_r. by apply read_log_deaf. Qed.

Lemma messages_read_app a b : messages_read (a ++ b) = messages_read a ++ messages_read b.
Proof. apply List.flat_map_app. Qed.

Lemma view_read (cfg : read_config I) rs us out e :
  readMsg measure cfg (ReadState (ev_recv e) (ev_readErr e)) (reading_phase e) = Some (rs, us, out) ->
  view_goes e
    match out with
    | MsgBlocked ph => EndView (ev_send e) (rs_recv rs) (rs_readErr rs) (Some ph) (ev_reads e) (ev_deaf e)
    | MsgReturned ret =>
        EndView (ev_send e) (rs_recv rs) (rs_readErr rs) None (ev_reads e ++ [ret]) (ev_deaf e)
    end [] [] [].
Proof.
  intros Hr sent i o [Hs Ho Hl Hp]. rewrite !app_nil_r.
  pose proof (readMsg_log measure _ _ _ _ _ _ _ _ _ Hl Hp Hr) as Hon. destruct rs as [r err].
  destruct out as [ret|ph]; simpl in Hon.
  - split; try done. simpl. rewrite messages_read_app, <- app_assoc. simpl. by rewrite !app_nil_r.
  - destruct Hon as (Hlog & Hph & Herr). by split.
Qed.

Lemma end_log_start s r :
  sender_log [] s -> r_items r = [] -> c_out s = [] ->
  forall deaf, end_log [] [] [] (EndView s r None None [] deaf).
Proof.
  intros Hs Hr Ho deaf. split; simpl; try done.
  - by exists [].
  - by rewrite Ho.
  - exists [], [], read_vars0. split_and!; try done. intros _ _. split_and!; try done.
    exists []. simpl. by rewrite Hr.
Qed.
End Ends.

(** What the reads on one end have returned are the first of the messages that the
    sender of the other end has started. *)
Lemma end_logs_deliver {I O} `{DataFrame I} `{DataFrame O} sent sent' ins outs ins' outs'
    (e : end_view I) (e' : end_view O) :
  end_log (O := O) sent ins outs e -> end_log (O := I) sent' ins' outs' e' -> ins `prefix_of` outs' ->
  exists ds, ds `sublist_of` sent' /\ count starts_message outs' = len ds /\
    messages_read (ev_reads e) `prefix_of` ds.
Proof.
  intros [_ _ (taken & ms & v & Htaken & Has & Hms & _) _] [(ds & Hds & Hs) Ho _ _] Hpre.
  destruct (sender_log_parts _ _ Hs) as (max & parts & Hparts & Hout).
  assert (Hp : taken `prefix_of` chunk_frame <$> c_out (ev_send e')) by (rewrite <- Ho; by etrans).
  destruct Hp as (more & Hmore). apply fmap_app_inv in Hmore as (p & q & -> & _ & Hpq).
  set (cfg := ReadConfig (T := I) true None None (fun _ _ => EOF) EOF EOF (fun _ => EOF) EOF).
  destruct (assemble_parts cfg max ds parts p q [] ms v Hparts ltac:(congruence) (Has cfg))
    as (ds' & Hds' & ->).
  exists (started ds parts). split_and!.
  - etrans; [apply started_sublist|done].
  - by rewrite Ho, starts_chunks, Hout, (started_firsts max ds parts Hparts).
  - etrans; [|exact Hds']. etrans; [|exact Hms]. by apply prefix_app_r.
Qed.

(** The actions of others on the sender. *)
Definition env_label (l : send_label) : bool :=
  match l with UAdd _ | UPost | LCancel _ => true | _ => false end.

Lemma view_env {I O} `{DataFrame I} `{DataFrame O} l c (e : end_view I) :
  env_label l = true -> send_step l (ev_send e) = Some c ->
  view_goes (O := O) e (EndView c (ev_recv e) (ev_readErr e) (ev_reading e) (ev_reads e) (ev_deaf e)) [] [] [].
Proof.
  intros Hl Hstep. pose proof (view_send (O := O) l c e Hstep) as Hg.
  destruct (send_step_out _ _ _ Hstep) as [[Hout _]|(k & ch & err & -> & _)]; [|done].
  rewrite Hout, drop_all in Hg. by destruct l.
Qed.

(** ** Streams of the server *)
Section ServerData.
Context `{StatusLib} `{MetadataLib}.

Definition server_view_as (deaf : Prop) (v : stream_conf) : end_view ClientToServerFrame :=
  EndView (ss_send (sc_str v)) (ss_receiver (sc_str v)) (ss_readErr (sc_str v))
    (sc_reading v) (sc_reads v) deaf.
Definition server_view (v : stream_conf) : end_view ClientToServerFrame :=
  server_view_as (finish_called v) v.

Definition given_to_server (l : stream_label) : list bytes :=
  match l with FSendMsg _ (inr b) => [b] | _ => [] end.
Definition came_to_server (l : stream_label) : list ClientToServerFrame :=
  match l with FFrame (Some f) => data_frames [f] | _ => [] end.

Abbreviation goes := (view_goes (O := ServerToClientFrame)).

Lemma server_same v w :
  ss_send (sc_str w) = ss_send (sc_str v) -> ss_receiver (sc_str w) = ss_receiver (sc_str v) ->
  ss_readErr (sc_str w) = ss_readErr (sc_str v) -> sc_reading w = sc_reading v ->
  sc_reads w = sc_reads v -> (finish_called v -> finish_called w) ->
  goes (server_view v) (server_view w) [] [] [].
Proof.
  intros E1 E2 E3 E4 E5 Hf. unfold server_view at 2, server_view_as. rewrite E1, E2, E3, E4, E5.
  by apply (view_deaf (finish_called w) (server_view v)).
Qed.

Lemma finish_goes deaf who err v :
  goes (server_view_as deaf v) (server_view (begin_finish who err v)) [] [] [].
Proof.
  set (P := finish_called (begin_finish who err v)).
  assert (HP : P) by (right; simpl; by destruct (sc_finishing v)).
  pose proof (view_deaf (O := ServerToClientFrame) P (server_view_as deaf v) (fun _ => HP)) as H1.
  pose proof (view_cancel_ctx (O := ServerToClientFrame) ContextCanceled (server_view_as P v)) as H2.
  pose proof (view_trans _ _ _ _ _ _ _ _ _ H1 H2) as H3. clear H1 H2.
  unfold server_view. fold P. unfold begin_finish, finishStream_begin, halfClose. simpl.
  destruct (ss_halfClosed (sc_str v)); simpl; [exact H3|].
  exact (view_trans _ _ _ _ _ _ _ _ _ H3 (view_close _)).
Qed.

Lemma accept_data_goes f v v' :
  ~ finish_called v -> carries_data f = true ->
  (let (r, err) := accept request_measure f (ss_receiver (sc_str v)) in
   match err with
   | Some e => begin_finish ByLoop (Some e) (set_str (with_receiver r (sc_str v)) v)
   | None => set_str (with_receiver r (sc_str v)) v
   end) = v' ->
  goes (server_view v) (server_view v') [] [f] [].
Proof.
  intros Hf Hd <-.
  pose proof (view_accept (O := ServerToClientFrame) request_measure f) as Hacc.
  destruct (accept request_measure f (ss_receiver (sc_str v))) as [r [e|]] eqn:Ha.
  - specialize (Hacc True (server_view v) Hf (or_intror Logic.I)). simpl in Hacc. rewrite Ha in Hacc.
    exact (view_trans _ _ _ _ _ _ _ _ _ Hacc (finish_goes True ByLoop (Some e)
             (set_str (with_receiver r (sc_str v)) v))).
  - specialize (Hacc (finish_called v) (server_view v) Hf). simpl in Hacc. rewrite Ha in Hacc.
    apply Hacc. by left.
Qed.

Lemma SendMsg_gives sendErr m st st' fs b :
  SendMsg_begin sendErr m st = (st', fs, inr b) -> m = inr b.
Proof. unfold SendMsg_begin, sendHeadersLocked. intros Hs. by step_in Hs. Qed.

Lemma SendMsg_view sendErr m st st' fs r :
  SendMsg_begin sendErr m st = (st', fs, r) ->
  ss_send st' = ss_send st /\ ss_receiver st' = ss_receiver st /\ ss_readErr st' = ss_readErr st /\
  ss_closed st' = ss_closed st /\ data_frames fs = [].
Proof.
  intros (st1 & Hst1 & Hst')%SendMsg_begin_cases.
  by destruct Hst1 as [(_ & -> & ->)|(_ & -> & ->)], Hst' as [[-> _]|[-> _]].
Qed.

(** What goes out at a step, with the frames [fs] on the wire. *)
Definition server_data_goes (l : stream_label) (v v' : stream_conf) : Prop :=
  exists fs, sc_wire v' = sc_wire v ++ fs /\
    goes (server_view v) (server_view v') (given_to_server l) (came_to_server l) (data_frames fs).

Lemma server_data_quiet l v v' fs :
  sc_wire v' = sc_wire v ++ fs -> data_frames fs = [] -> came_to_server l = [] ->
  goes (server_view v) (server_view v') [] [] [] -> server_data_goes l v v'.
Proof.
  intros Hw Hfs Hl Hg. exists fs. split; [done|]. rewrite Hfs, Hl, <- (app_nil_r (given_to_server l)).
  exact (view_trans _ _ _ _ _ _ _ _ _ (view_same _ (given_to_server l)) Hg).
Qed.

Lemma read_data_goes v v' :
  stream_step FRecv v = Some v' -> server_data_goes FRecv v v'.
Proof.
  intros Hs. cbn [stream_step] in Hs.
  destruct (readMsg _ _ _ _) as [[[rs us] out]|] eqn:Hr; [|done].
  assert (Hu : data_frames (read_updates (sc_str v) us) = []).
  { apply data_frames_none. unfold read_updates. destruct (ss_halfClosed _); [done|].
    by apply Forall_fmap, Forall_forall. }
  pose proof (view_read (O := ServerToClientFrame) request_measure _ rs us out (server_view v) Hr) as Hg.
  destruct out as [ret|ph]; injection Hs as <-;
    (apply (server_data_quiet _ _ _ (read_updates (sc_str v) us)); [| |done|]); try done.
  - unfold recv_returned. destruct (rr_err ret) as [e|]; [destruct (rr_ok ret)|]; done.
  - unfold recv_returned. destruct (rr_err ret) as [e|]; [destruct (rr_ok ret)|]; try exact Hg.
    exact (view_trans _ _ _ _ _ _ _ _ _ Hg (finish_goes (finish_called v) ByReader (Some e)
      (add_read ret (set_reading None
        (to_wire (read_updates (sc_str v) us) (set_str (with_reader rs (sc_str v)) v)))))).
Qed.

Lemma accept_step_data f v v' :
  ~ finish_called v -> carries_data f = true ->
  match (let (r, err) := accept request_measure f (ss_receiver (sc_str v)) in
         (with_receiver r (sc_str v), match err with Some e => AFinish (Some e) | None => ADone end)) with
  | (st, ADone) => Some (set_str st v)
  | (st, AFinish err) => Some (begin_finish ByLoop err (set_str st v))
  | (st, AUpdate w) => None
  end = Some v' -> server_data_goes (FFrame (Some f)) v v'.
Proof.
  intros Hnf Hd Hs. pose proof (accept_data_goes f v v' Hnf Hd) as Hg. exists []. rewrite app_nil_r.
  unfold came_to_server, data_frames. simpl. rewrite Hd.
  destruct (accept request_measure f (ss_receiver (sc_str v))) as [r [e|]]; injection Hs as <-;
    (split; [done|by apply Hg]).
Qed.

Lemma server_same_data l v w fs :
  sc_wire w = sc_wire v ++ fs -> data_frames fs = [] -> came_to_server l = [] ->
  ss_send (sc_str w) = ss_send (sc_str v) -> ss_receiver (sc_str w) = ss_receiver (sc_str v) ->
  ss_readErr (sc_str w) = ss_readErr (sc_str v) -> sc_reading w = sc_reading v ->
  sc_reads w = sc_reads v -> (finish_called v -> finish_called w) -> server_data_goes l v w.
Proof. intros. apply (server_data_quiet _ _ _ fs); try done. by apply server_same. Qed.

Lemma server_env_data l' l v c :
  env_label l' = true -> came_to_server l = [] -> send_step l' (ss_send (sc_str v)) = Some c ->
  server_data_goes l v (set_str (with_send c (sc_str v)) v).
Proof.
  intros Hl' Hl Hc. apply (server_data_quiet _ _ _ []); try done; [by rewrite app_nil_r|].
  exact (view_env l' c (server_view v) Hl' Hc).
Qed.

Lemma frame_data v v' frame :
  ~ finish_called v -> match frame with Some (ClientToServer_NewStream _) => False | _ => True end ->
  stream_step (FFrame frame) v = Some v' -> server_data_goes (FFrame frame) v v'.
Proof.
  intros Hnf Hnew Hs. cbn [stream_step] in Hs.
  destruct (loop_busy v); [done|].
  destruct frame as [[fr|m|d| | |w]|]; cbn [acceptClientFrame] in Hs; [done|..].
  - apply (accept_step_data (ClientToServer_RequestMessage m)); [done|done|]. by destruct (accept _ _ _) as [r [e|]].
  - apply (accept_step_data (ClientToServer_MoreRequestData d)); [done|done|]. by destruct (accept _ _ _) as [r [e|]].
  - injection Hs as <-. apply (server_data_quiet _ _ _ []); try done; [by rewrite app_nil_r| ].
    unfold halfClose. destruct (ss_halfClosed (sc_str v)).
    + by apply server_same.
    + exact (view_close (server_view v)).
  - injection Hs as <-. apply (server_data_quiet _ _ _ []); try done; [by rewrite app_nil_r|].
    apply (finish_goes (finish_called v) ByLoop (Some ContextCanceled) (set_str (sc_str v) v)).
  - destruct (Z.eqb_spec w 0); [injection Hs as <-; by apply (server_same_data _ _ _ []); rewrite ?app_nil_r|].
    destruct (send_step (UAdd w) _) as [c|] eqn:Hc; [|done]. injection Hs as <-. by eapply (server_env_data (UAdd w)).
  - injection Hs as <-. apply (server_data_quiet _ _ _ []); try done; [by rewrite app_nil_r|].
    apply (finish_goes (finish_called v) ByLoop _ (set_str (sc_str v) v)).
Qed.

Lemma SendMsg_data sendErr m v v' :
  stream_step (FSendMsg sendErr m) v = Some v' -> server_data_goes (FSendMsg sendErr m) v v'.
Proof.
  intros Hs. cbn [stream_step] in Hs.
  destruct (writeMu_free v); [|done].
  destruct (SendMsg_begin sendErr m (sc_str v)) as [[st fs] r] eqn:Hb.
  destruct (SendMsg_view _ _ _ _ _ _ Hb) as (E1 & E2 & E3 & E4 & E5).
  destruct r as [e|b].
  { injection Hs as <-. apply (server_same_data _ _ _ fs); try done. unfold finish_called. simpl. by rewrite E4. }
  destruct (send_step (LBegin b) (ss_send st)) as [c|] eqn:Hc; [|done]. injection Hs as <-.
  apply SendMsg_gives in Hb as ->. rewrite E1 in Hc.
  pose proof (view_send (O := ServerToClientFrame) _ c (server_view v) Hc) as Hg.
  assert (c_out c = c_out (ss_send (sc_str v))) as Hout by (simpl in Hc; by step_in Hc).
  simpl in Hg. rewrite Hout, drop_all in Hg. exists fs. split; [done|]. rewrite E5.
  unfold server_view, server_view_as. simpl. rewrite E2, E3.
  assert (Hd : finish_called v -> finish_called (to_wire fs (set_str (with_send c st) v)))
    by (unfold finish_called; simpl; by rewrite E4).
  exact (view_trans _ _ _ _ _ _ _ _ _ Hg (view_deaf _ (EndView c (ss_receiver (sc_str v))
    (ss_readErr (sc_str v)) (sc_reading v) (sc_reads v) (finish_called v)) Hd)).
Qed.

Lemma stream_step_data l v v' :
  stream_step l v = Some v' ->
  (forall f, l = FFrame f -> ~ finish_called v /\ match f with Some (ClientToServer_NewStream _) => False | _ => True end) ->
  Forall (fun f => is_data f = false) (sc_posted v) -> server_data_goes l v v'.
Proof.
  intros Hs Hframe Hposted.
  destruct l as [frame| |md send sendErr|md|sendErr m|l| |o|i| | |e];
    [destruct (Hframe frame eq_refl); by apply frame_data| | | |by apply SendMsg_data|
    |by apply read_data_goes| | | | |]; cbn [stream_step] in Hs.
  - destruct (send_step UPost _) as [c|] eqn:Hc; [|done]. injection Hs as <-. by eapply (server_env_data UPost).
  - destruct (writeMu_free v); [|done]. unfold setHeader in Hs.
    destruct (ss_sentHeaders (sc_str v)); [injection Hs as <-; by apply (server_same_data _ _ _ [])|].
    destruct md, send; injection Hs as <-; by eapply server_same_data.
  - destruct (writeMu_free v); [|done]. injection Hs as <-.
    apply (server_same_data _ _ _ []); try done; simpl; rewrite ?app_nil_r; unfold setTrailer, finish_called; simpl;
      destruct (ss_closed (sc_str v)) eqn:Hcl; simpl; rewrite ?Hcl; try done.
  - destruct (in_send l) eqn:Hl; [|done]. destruct (send_step l _) as [c|] eqn:Hc; [|done].
    injection Hs as <-. eexists. split; [done|]. rewrite data_frames_chunks.
    pose proof (view_send (O := ServerToClientFrame) l c (server_view v) Hc) as Hg. by destruct l.
  - destruct (sc_returned v); [done|]. injection Hs as <-.
    apply (server_data_quiet _ _ _ []); try done; [by rewrite app_nil_r|].
    apply (finish_goes (finish_called v) ByHandler (serveStream o) (set_returned v)).
  - destruct (writeMu_free v); [|done]. destruct (sc_finishing v !! i) as [[who err]|] eqn:Hi; [|done].
    assert (Hf : finish_called v) by (right; intros E; by rewrite E in Hi).
    unfold finishStream_end in Hs. destruct (ss_closed (sc_str v)) eqn:Hcl; injection Hs as <-.
    + apply (server_same_data _ _ _ []); simpl; rewrite ?app_nil_r; try done. intros _. by left.
    + apply (server_same_data _ _ _ []); simpl; rewrite ?app_nil_r; try done; try (by destruct (negb _)). intros _. by left.
  - destruct (sc_posted v) as [|f fs] eqn:Hp; [done|]. injection Hs as <-.
    apply Forall_cons_1 in Hposted as [Hfd _]. apply (server_same_data _ _ _ [f]); try done. by destruct f.
  - destruct (sc_watching v); [|done]. destruct (ss_ctxErr _); [|done]. injection Hs as <-.
    apply (server_data_quiet _ _ _ []); try done; [by rewrite app_nil_r|].
    exact (view_cancel (server_view v)).
  - destruct (send_step (LCancel e) _) as [c|] eqn:Hc; [|done]. injection Hs as <-. by eapply (server_env_data (LCancel e)).
Qed.
End ServerData.

(** ** Streams of the client *)
Section ClientData.
Context `{StatusLib}.
(** The stream is not in the table of the channel. *)
Context (gone : Prop).

Definition client_view_as (deaf : Prop) (v : client_conf) : end_view ServerToClientFrame :=
  EndView (cs_send (cc_str v)) (cs_receiver (cc_str v)) (cs_readErr (cc_str v))
    (cc_reading v) (cc_reads v) deaf.
Definition not_listening (v : client_conf) : Prop := cs_done (cc_str v) <> None \/ gone.
Definition client_view (v : client_conf) : end_view ServerToClientFrame :=
  client_view_as (not_listening v) v.

Definition given_to_client (l : client_label) : list bytes :=
  match l with CSendMsg (inr b) => [b] | _ => [] end.
Definition came_to_client (l : client_label) : list ServerToClientFrame :=
  match l with CFrame (Some f) => data_frames [f] | _ => [] end.

Abbreviation goes := (view_goes (O := ClientToServerFrame)).

Lemma client_view_same v w :
  cs_send (cc_str w) = cs_send (cc_str v) -> cs_receiver (cc_str w) = cs_receiver (cc_str v) ->
  cs_readErr (cc_str w) = cs_readErr (cc_str v) -> cc_reading w = cc_reading v ->
  cc_reads w = cc_reads v -> (cs_done (cc_str v) <> None -> cs_done (cc_str w) <> None) ->
  goes (client_view v) (client_view w) [] [] [].
Proof.
  intros E1 E2 E3 E4 E5 Hf. unfold client_view at 2, client_view_as. rewrite E1, E2, E3, E4, E5.
  apply (view_deaf _ (client_view v)). unfold not_listening. simpl. intros [?|?]; [left; auto|by right].
Qed.

Lemma call_finish_goes deaf by_loop cancels err trailers v :
  goes (client_view_as deaf v) (client_view (call_finish by_loop cancels err trailers v)) [] [] [].
Proof.
  assert (Hd : not_listening (call_finish by_loop cancels err trailers v)).
  { left. unfold call_finish, finishStream_cas. by destruct (cs_done (cc_str v)) eqn:E; simpl; rewrite ?E. }
  pose proof (view_deaf (O := ClientToServerFrame) _ (client_view_as deaf v) (fun _ => Hd)) as Hg.
  unfold client_view, client_view_as in *. revert Hg. generalize (not_listening (call_finish by_loop cancels err trailers v)).
  unfold call_finish, finishStream_cas. by destruct (cs_done (cc_str v)).
Qed.

Definition client_data_goes (l : client_label) (v v' : client_conf) : Prop :=
  exists fs, cc_wire v' = cc_wire v ++ fs /\
    goes (client_view v) (client_view v') (given_to_client l) (came_to_client l) (data_frames fs).

Lemma client_data_quiet l v v' fs :
  cc_wire v' = cc_wire v ++ fs -> data_frames fs = [] -> came_to_client l = [] ->
  goes (client_view v) (client_view v') [] [] [] -> client_data_goes l v v'.
Proof.
  intros Hw Hfs Hl Hg. exists fs. split; [done|]. rewrite Hfs, Hl, <- (app_nil_r (given_to_client l)).
  exact (view_trans _ _ _ _ _ _ _ _ _ (view_same _ (given_to_client l)) Hg).
Qed.

Lemma call_finish_data l by_loop cancels err trailers v v1 :
  client_data_goes l v v1 -> client_data_goes l v (call_finish by_loop cancels err trailers v1).
Proof.
  intros (fs & Hw & Hg). exists fs. split.
  - unfold call_finish, finishStream_cas. by destruct (cs_done (cc_str v1)).
  - rewrite <- (app_nil_r (given_to_client l)), <- (app_nil_r (came_to_client l)), <- (app_nil_r (data_frames fs)).
    exact (view_trans _ _ _ _ _ _ _ _ _ Hg (call_finish_goes _ by_loop cancels err trailers v1)).
Qed.

Lemma client_accept_data f v v' :
  ~ not_listening v -> carries_data f = true ->
  match (let (r, err) := accept response_measure f (cs_receiver (cc_str v)) in
         (cwith_receiver r (cc_str v), match err with Some e => CFinishWith (Some e) None | None => CDone end)) with
  | (st, CDone) => Some (cset_str st v)
  | (st, CFinishWith err trailers) => Some (call_finish true false err trailers (cset_str st v))
  | (st, CUpdate w) => None
  end = Some v' -> client_data_goes (CFrame (Some f)) v v'.
Proof.
  intros Hnf Hd Hs. exists []. rewrite app_nil_r. unfold came_to_client, data_frames. simpl. rewrite Hd.
  pose proof (view_accept (O := ClientToServerFrame) response_measure f) as Hacc.
  destruct (accept response_measure f (cs_receiver (cc_str v))) as [r [e|]] eqn:Ha; injection Hs as <-.
  - specialize (Hacc True (client_view v) Hnf (or_intror Logic.I)). simpl in Hacc. rewrite Ha in Hacc.
    split; [unfold call_finish, finishStream_cas; simpl; by destruct (cs_done (cc_str v))|].
    exact (view_trans _ _ _ _ _ _ _ _ _ Hacc (call_finish_goes True true false (Some e) None
             (cset_str (cwith_receiver r (cc_str v)) v))).
  - specialize (Hacc (not_listening v) (client_view v) Hnf). simpl in Hacc. rewrite Ha in Hacc.
    split; [done|]. apply Hacc. by left.
Qed.

Lemma client_read_data v v' : client_step CRecv v = Some v' -> client_data_goes CRecv v v'.
Proof.
  intros Hs. cbn [client_step] in Hs.
  destruct (readMsg _ _ _ _) as [[[rs us] out]|] eqn:Hr; [|done].
  assert (Hu : data_frames (client_read_updates (cc_str v) us) = []).
  { apply data_frames_none. unfold client_read_updates. destruct (cs_done _); [done|].
    by apply Forall_fmap, Forall_forall. }
  pose proof (view_read (O := ClientToServerFrame) response_measure _ rs us out (client_view v) Hr) as Hg.
  destruct out as [ret|ph]; injection Hs as <-;
    [|by apply (client_data_quiet _ _ _ (client_read_updates (cc_str v) us))].
  assert (Hd : client_data_goes CRecv v (cadd_read ret (cset_reading None
    (cto_wire (client_read_updates (cc_str v) us) (cset_str (cwith_reader rs (cc_str v)) v)))))
    by (by apply (client_data_quiet _ _ _ (client_read_updates (cc_str v) us))).
  unfold client_recv_returned. destruct (rr_err ret) as [e|]; [destruct (rr_ok ret)|]; try exact Hd.
  by apply call_finish_data.
Qed.

Lemma client_SendMsg_view m st st' r :
  client_SendMsg_begin m st = (st', r) ->
  cs_send st' = cs_send st /\ cs_receiver st' = cs_receiver st /\ cs_readErr st' = cs_readErr st /\
  cs_done st' = cs_done st /\ forall b, r = inr b -> m = inr b.
Proof. unfold client_SendMsg_begin. intros Hb. step_in Hb; split_and!; try done; by intros b [= ->]. Qed.

Lemma client_same_data l v w fs :
  cc_wire w = cc_wire v ++ fs -> data_frames fs = [] -> came_to_client l = [] ->
  cs_send (cc_str w) = cs_send (cc_str v) -> cs_receiver (cc_str w) = cs_receiver (cc_str v) ->
  cs_readErr (cc_str w) = cs_readErr (cc_str v) -> cc_reading w = cc_reading v ->
  cc_reads w = cc_reads v -> (cs_done (cc_str v) <> None -> cs_done (cc_str w) <> None) ->
  client_data_goes l v w.
Proof. intros. apply (client_data_quiet _ _ _ fs); try done. by apply client_view_same. Qed.

Lemma client_env_data l' l v c :
  env_label l' = true -> came_to_client l = [] -> send_step l' (cs_send (cc_str v)) = Some c ->
  client_data_goes l v (cset_str (cwith_send c (cc_str v)) v).
Proof.
  intros Hl' Hl Hc. apply (client_data_quiet _ _ _ []); try done; [by rewrite app_nil_r|].
  exact (view_env l' c (client_view v) Hl' Hc).
Qed.

Lemma client_now_data l v : came_to_client l = [] -> client_data_goes l v v.
Proof. intros Hl. by apply (client_same_data _ _ _ []); rewrite ?app_nil_r. Qed.

Lemma client_frame_data v v' frame :
  ~ not_listening v -> client_step (CFrame frame) v = Some v' -> client_data_goes (CFrame frame) v v'.
Proof.
  intros Hnf Hs. cbn [client_step] in Hs.
  destruct (client_loop_busy v); [done|].
  destruct frame as [[st|md|m|d|c|w]|]; cbn [acceptServerFrame] in Hs;
    try (injection Hs as <-; apply call_finish_data; by apply (client_same_data _ _ _ []); rewrite ?app_nil_r).
  - destruct (cs_gotHeaders (cc_str v)); injection Hs as <-; by apply (client_same_data _ _ _ []); rewrite ?app_nil_r.
  - apply (client_accept_data (ServerToClient_ResponseMessage m)); [done|done|].
    by destruct (accept _ _ _) as [r [e|]].
  - apply (client_accept_data (ServerToClient_MoreResponseData d)); [done|done|].
    by destruct (accept _ _ _) as [r [e|]].
  - destruct (Z.eqb_spec w 0); [injection Hs as <-; by apply client_now_data|].
    destruct (send_step (UAdd w) _) as [c|] eqn:Hc; [|done]. injection Hs as <-. by eapply (client_env_data (UAdd w)).
Qed.

Lemma client_step_data l v v' :
  client_step l v = Some v' -> (forall f, l = CFrame f -> ~ not_listening v) ->
  Forall (fun f => is_cancel f = true) (cc_posted v) -> client_data_goes l v v'.
Proof.
  intros Hs Hframe Hposted.
  destruct l as [frame| |m|l|sendErr| | | | | | |e];
    [apply client_frame_data; [by eapply Hframe|done]| | | | |by apply client_read_data| | | | | |];
    cbn [client_step] in Hs.
  - destruct (send_step UPost _) as [c|] eqn:Hc; [|done]. injection Hs as <-. by eapply (client_env_data UPost).
  - destruct (client_writeMu_free v); [|done].
    destruct (client_SendMsg_begin m (cc_str v)) as [st r] eqn:Hb.
    destruct (client_SendMsg_view _ _ _ _ Hb) as (E1 & E2 & E3 & E4 & E5).
    destruct r as [e|b].
    { injection Hs as <-. apply (client_same_data _ _ _ []); try done; simpl; rewrite ?app_nil_r, ?E4; done. }
    destruct (send_step (LBegin b) (cs_send st)) as [c|] eqn:Hc; [|done]. injection Hs as <-.
    rewrite (E5 b eq_refl). rewrite E1 in Hc.
    pose proof (view_send (O := ClientToServerFrame) _ c (client_view v) Hc) as Hg.
    assert (c_out c = c_out (cs_send (cc_str v))) as Hout by (simpl in Hc; by step_in Hc).
    simpl in Hg. rewrite Hout, drop_all in Hg. exists []. split; [by rewrite app_nil_r|].
    unfold client_view, client_view_as, not_listening. simpl. rewrite E2, E3, E4. exact Hg.
  - destruct (in_send l) eqn:Hl; [|done]. destruct (send_step l _) as [c|] eqn:Hc; [|done].
    injection Hs as <-. eexists. split; [done|]. rewrite data_frames_chunks.
    pose proof (view_send (O := ClientToServerFrame) l c (client_view v) Hc) as Hg. by destruct l.
  - destruct (client_writeMu_free v); [|done]. unfold CloseSend in Hs.
    destruct (cs_doneSignal _); [|destruct (cs_halfClosed _)]; injection Hs as <-; by eapply client_same_data.
  - destruct (cc_finishing v) as [[[tr| |] bl ca]|]; try done. injection Hs as <-.
    by apply (client_same_data _ _ _ []); rewrite ?app_nil_r.
  - destruct (cc_finishing v) as [[[tr| |] bl ca]|]; try done. injection Hs as <-.
    apply (client_data_quiet _ _ _ []); [by rewrite app_nil_r|done|done|].
    exact (view_trans _ _ _ _ _ _ _ _ _ (view_cancel_ctx ContextCanceled (client_view v)) (view_close _)).
  - destruct (cc_finishing v) as [[[tr| |] bl ca]|]; try done. injection Hs as <-.
    apply (client_data_quiet _ _ _ []); [by rewrite app_nil_r|done|done|]. exact (view_cancel (client_view v)).
  - destruct (cc_posted v) as [|f fs] eqn:Hp; [done|]. injection Hs as <-.
    apply Forall_cons_1 in Hposted as [Hfd _]. apply (client_same_data _ _ _ [f]); try done. by destruct f.
  - destruct (cc_watching v); [|done]. destruct (cs_ctxErr _) as [e|]; [|done]. injection Hs as <-.
    pose proof (call_finish_data CWatch false true (Some e) None v v (client_now_data CWatch v eq_refl)) as Hg. exact Hg.
  - destruct (send_step (LCancel e) _) as [c|] eqn:Hc; [|done]. injection Hs as <-. by eapply (client_env_data (LCancel e)).
Qed.
End ClientData.

(** ** All streams of one end *)
Definition requests_of (id : Z) (ms : list ClientToServer) : list ClientToServerFrame :=
  List.flat_map (fun m => if C2S_StreamId m =? id then option_list (C2S_Frame m) else []) ms.

Definition data_up (ms : list ClientToServer) (id : Z) : list ClientToServerFrame :=
  data_frames (requests_of id ms).
Definition data_down (ms : list ServerToClient) (id : Z) : list ServerToClientFrame :=
  data_frames (frames_of id ms).

Lemma data_up_app a b id : data_up (a ++ b) id = data_up a id ++ data_up b id.
Proof. unfold data_up, requests_of. by rewrite List.flat_map_app, data_frames_app. Qed.
Lemma data_down_app a b id : data_down (a ++ b) id = data_down a id ++ data_down b id.
Proof. unfold data_down. by rewrite frames_of_app, data_frames_app. Qed.

Lemma data_up_one m id :
  data_up [m] id = if C2S_StreamId m =? id then data_frames (option_list (C2S_Frame m)) else [].
Proof. unfold data_up, requests_of. simpl. rewrite app_nil_r. by destruct (_ =? _). Qed.
Lemma data_down_one m id :
  data_down [m] id = if S2C_StreamId m =? id then data_frames (option_list (S2C_Frame m)) else [].
Proof. unfold data_down. rewrite frames_of_cons. simpl. rewrite app_nil_r. by destruct (_ =? _). Qed.

Lemma data_up_others ms id : Forall (fun m => C2S_StreamId m <> id) ms -> data_up ms id = [].
Proof.
  unfold data_up, requests_of. induction 1 as [|m ms Hm _ IH]; [done|]. simpl.
  by destruct (Z.eqb_spec (C2S_StreamId m) id).
Qed.
Lemma data_down_others ms id : Forall (fun m => S2C_StreamId m <> id) ms -> data_down ms id = [].
Proof.
  unfold data_down. induction 1 as [|m ms Hm _ IH]; [done|]. rewrite frames_of_cons.
  by destruct (Z.eqb_spec (S2C_StreamId m) id).
Qed.

(** Messages that are given to no sender, and frames that a stream does not hear. *)
Lemma end_log_more {I O} `{DataFrame I} `{DataFrame O} sent bs i (o : list O) (e : end_view I) :
  end_log sent i o e -> end_log (sent ++ bs) i o e.
Proof. intros Hlog. pose proof (view_same e bs sent i o Hlog) as Hm. by rewrite !app_nil_r in Hm. Qed.

Lemma end_log_miss {I O} `{DataFrame I} `{DataFrame O} sent i more (o : list O) (e : end_view I) :
  ev_deaf e -> end_log sent i o e -> end_log sent (i ++ more) o e.
Proof.
  intros Hd Hlog.
  pose proof (view_recv (ev_recv e) (ev_deaf e) more e
    (fun fs ms v => read_log_miss (ev_deaf e) more fs (ev_recv e) (ev_readErr e) ms v Hd) sent i o Hlog) as Hm.
  rewrite !app_nil_r in Hm. by destruct e.
Qed.

(** When all of it has come and the reader waits for more, it has read or holds all that
    the sender of the other end has sent, and a message is missing only if not all of
    its data was sent. *)
Lemma end_logs_complete {I O} `{DataFrame I} `{DataFrame O} sent sent' outs ins' outs'
    (e : end_view I) (e' : end_view O) :
  end_log (O := O) sent outs' outs e -> end_log (O := I) sent' ins' outs' e' ->
  phase_resumed (reading_phase e) = true -> r_cancelled (ev_recv e) = false ->
  r_closed (ev_recv e) = false -> r_items (ev_recv e) = [] -> ~ ev_deaf e ->
  exists ds unfinished, (ds ++ unfinished) `sublist_of` sent' /\
    count starts_message outs' = len (ds ++ unfinished) /\
    messages_read (ev_reads e) ++ phase_message (reading_phase e) = ds /\
    data_bytes outs' = concat ds ++ rv_b (phase_vars (reading_phase e)) /\
    in_hand (phase_vars (reading_phase e)) unfinished.
Proof.
  intros [_ _ (taken & ms & v & _ & Has & _ & Hlive) Hres] [(ds & Hds & Hs) Ho _ _] Hph Hcn Hcl Hi Hdeaf.
  destruct Hlive as (-> & -> & missed & Hfs & Hmissed); simpl in *; [by apply Hres|by unfold dry; rewrite Hcn, Hcl|].
  assert (missed = []) as ->.
  { destruct missed as [|f fs]; [done|]. destruct Hmissed as [?|?]; [done|congruence|done]. }
  rewrite Hi, !app_nil_r in Hfs. subst taken.
  destruct (sender_log_parts _ _ Hs) as (max & parts & Hparts & Hout).
  set (cfg := ReadConfig (T := I) true None None (fun _ _ => EOF) EOF EOF (fun _ => EOF) EOF).
  specialize (Has cfg). rewrite Ho, Hout in Has.
  destruct (assemble_all cfg max ds parts [] _ _ Hparts Has) as (ds' & un & Hst & Hms & Hbytes & Hun).
  exists ds', un. rewrite <- Hst. split_and!; try done.
  - etrans; [apply started_sublist|done].
  - by rewrite Ho, starts_chunks, Hout, (started_firsts max ds parts Hparts).
  - by rewrite Ho, Hout.
Qed.

Section ServerStreamsData.
Context `{StatusLib} `{MetadataLib} (QueryService : string -> option ServiceDesc).

(** [given id] are the messages that the handler of a stream has given to its
    sender, [rcvd] what the server has received. *)
Record server_data (given : Z -> list bytes) (rcvd : list ClientToServer) (s : tunnelServer) : Prop := {
  sd_objects : forall id v, ts_objects s !! id = Some v ->
    end_log (given id) (data_up rcvd id) (data_frames (sc_wire v)) (server_view v);
  sd_seen : Forall (fun m => C2S_StreamId m <= ts_lastSeen s) rcvd;
}.

Definition server_given (l : server_label) (id : Z) : list bytes :=
  match l with TStream id' l => if id' =? id then given_to_server l else [] | _ => [] end.

(** Actions that leave the streams alone; [ins] has no data for them. *)
Lemma server_data_same given bs rcvd ins s s' :
  server_data given rcvd s -> ts_objects s' = ts_objects s -> ts_lastSeen s <= ts_lastSeen s' ->
  Forall (fun m => C2S_StreamId m <= ts_lastSeen s') ins ->
  (forall id v, ts_objects s !! id = Some v -> data_up ins id = [] \/ finish_called v) ->
  server_data (fun id => given id ++ bs id) (rcvd ++ ins) s'.
Proof.
  intros [Ho Hseen] E1 E2 Hins Hnone. split.
  - intros id v. rewrite E1. intros Hv. rewrite data_up_app. apply end_log_more.
    destruct (Hnone id v Hv) as [->|Hf]; [by rewrite app_nil_r; apply Ho|].
    apply end_log_miss; [done|by apply Ho].
  - apply Forall_app. split; [|done]. eapply Forall_impl; [exact Hseen|]. simpl. lia.
Qed.

Lemma server_data_run given rcvd ins bs id l s s' :
  server_inv s -> server_data given rcvd s -> run_stream id l s = Some s' ->
  (forall f, l = FFrame f -> id ∈ ts_streams s /\
     match f with Some (ClientToServer_NewStream _) => False | _ => True end) ->
  Forall (fun m => C2S_StreamId m = id) ins -> data_up ins id = came_to_server l ->
  bs id = given_to_server l -> (forall id', id' <> id -> bs id' = []) ->
  server_data (fun id => given id ++ bs id) (rcvd ++ ins) s'.
Proof.
  intros Hinv [Ho Hseen] Hrun Hframe Hins Hcame Hbs Hbs'.
  destruct (run_stream_seen _ _ _ _ Hrun) as (Hls & _ & _).
  unfold run_stream in Hrun. destruct (ts_objects s !! id) as [v|] eqn:Hv; [|done].
  destruct (stream_step l v) as [v'|] eqn:Hs; [|done].
  destruct (vi_objects _ Hinv id v Hv) as (V & ov & HV & HV1 & Hov & Hsinv).
  assert (Hfr : forall f, l = FFrame f -> ~ finish_called v /\
     match f with Some (ClientToServer_NewStream _) => False | _ => True end).
  { intros f Hl. destruct (Hframe f Hl) as [Hin Hf]. split; [|done].
    apply (vi_active _ Hinv) in Hin as (w & Hw & ?). by simplify_eq. }
  destruct (stream_step_data l v v' Hs Hfr (si_posted _ _ _ _ Hsinv)) as (fs & Hwire & Hg).
  assert (E : ts_objects s' = <[id := v']> (ts_objects s)).
  { destruct (began_finish v v'); by injection Hrun as <-. }
  split.
  - intros id' w. rewrite E, lookup_insert_Some, data_up_app. intros [[<- <-]|[Hne Hw]].
    + rewrite Hwire, data_frames_app, Hcame, Hbs. by apply Hg, Ho.
    + rewrite (Hbs' id'), app_nil_r by done.
      rewrite (data_up_others ins), app_nil_r; [by apply Ho|].
      eapply Forall_impl; [exact Hins|]. simpl. congruence.
  - pose proof (vi_ids _ Hinv id v Hv). rewrite Hls. apply Forall_app. split; [done|].
    eapply Forall_impl; [exact Hins|]. simpl. lia.
Qed.

Lemma server_data_contexts given bs rcvd e s s' :
  server_data given rcvd s ->
  ts_objects s' = (fun v => set_str (with_send (cancel_ctx e (ss_send (sc_str v))) (sc_str v)) v)
                    <$> ts_objects s ->
  ts_lastSeen s' = ts_lastSeen s -> server_data (fun id => given id ++ bs id) rcvd s'.
Proof.
  intros [Ho Hseen] E1 E2. split; [|by rewrite E2]. intros id v'. rewrite E1, lookup_fmap.
  destruct (ts_objects s !! id) as [v|] eqn:Hv; simpl; intros ?; simplify_eq. apply end_log_more.
  pose proof (view_cancel_ctx e (server_view v) _ _ _ (Ho id v Hv)) as Hg. by rewrite !app_nil_r in Hg.
Qed.

Lemma server_data_create given rcvd closing m frame s s' :
  server_inv s -> is_u32 (NewStream_InitialWindowSize frame) -> server_data given rcvd s ->
  C2S_Frame m = Some (ClientToServer_NewStream frame) ->
  serve_recv QueryService closing (inr m) s = Some s' -> ts_result s' = None ->
  server_data (fun id => given id ++ []) (rcvd ++ [m]) s'.
Proof.
  intros Hinv Hwin Hd Hf Hs Hres. cbn [serve_recv] in Hs. rewrite Hf in Hs.
  assert (Hnone : forall id, data_up [m] id = []) by (intros id; rewrite data_up_one, Hf; by destruct (_ =? _)).
  unfold createStream in Hs. destruct (bool_decide _); [by injection Hs as <-|].
  destruct (Z.leb_spec (C2S_StreamId m) (ts_lastSeen s)) as [?|Hlt]; [by injection Hs as <-|].
  destruct (check_stream _ _ _ _ _) as [e|[name md]] eqn:Hc; injection Hs as <-.
  - apply (server_data_same given (fun _ => []) rcvd [m] s); simpl; try done; [lia|by repeat constructor|by left].
  - destruct Hd as [Ho Hseen]. split; simpl.
    + intros id v. rewrite lookup_insert_Some, data_up_app, Hnone, app_nil_r, app_nil_r.
      intros [[<- <-]|[_ Hv]]; [|by apply Ho].
      rewrite (data_up_others rcvd) by (eapply Forall_impl; [exact Hseen|]; simpl; lia).
      apply (end_log_more [] (given _)). apply end_log_start; [|done|done].
      destruct (check_stream_ok _ _ _ _ _ _ _ Hc) as (_ & _ & Hmin & _). rewrite minWindowSize_eq in Hmin.
      assert (0 <= messageOverhead (ProtocolRevision frame) < MaxUint32) as Hov
        by (by destruct (messageOverhead_cases (ProtocolRevision frame)) as [-> | ->]).
      apply sender_log_start; [done|lia|apply (oo_chunk _ (vi_opts _ Hinv))|done].
    + apply Forall_app. split; [|by repeat constructor]. eapply Forall_impl; [exact Hseen|]. simpl. lia.
Qed.

Lemma finish_called_dec v : finish_called v \/ ~ finish_called v.
Proof.
  unfold finish_called. destruct (ss_closed (sc_str v)); [by left; left|].
  destruct (sc_finishing v); [right; by intros [?|[]]|by left; right].
Qed.

Lemma server_data_recv given rcvd closing m s s' :
  server_inv s -> label_ok (TRecv closing (inr m)) -> server_data given rcvd s ->
  serve_recv QueryService closing (inr m) s = Some s' -> ts_result s' = None ->
  server_data (fun id => given id ++ []) (rcvd ++ [m]) s'.
Proof.
  intros Hinv Hl Hd Hs Hres. simpl in Hl.
  assert (Hframe : forall frame, C2S_Frame m = frame ->
    match frame with Some (ClientToServer_NewStream _) => False | _ => True end ->
    match getStream (C2S_StreamId m) s with
    | NeverCreated e => Some (serve_return (Some e) s)
    | Ignored => Some s
    | Found => run_stream (C2S_StreamId m) (FFrame frame) (set_loop (C2S_StreamId m) s)
    end = Some s' -> server_data (fun id => given id ++ []) (rcvd ++ [m]) s').
  { intros frame Hf Hn. unfold getStream. destruct (bool_decide (C2S_StreamId m ∈ ts_streams s)) eqn:Hin.
    - apply bool_decide_eq_true in Hin. intros Hr.
      apply (server_data_run given rcvd [m] (fun _ => []) (C2S_StreamId m) (FFrame frame)
               (set_loop (C2S_StreamId m) s)); try done.
      + by apply inv_set_loop.
      + by destruct Hd; split.
      + intros f [= <-]. by split.
      + by constructor.
      + rewrite data_up_one, Z.eqb_refl, Hf. by destruct frame.
    - apply bool_decide_eq_false in Hin.
      destruct (Z.leb_spec (C2S_StreamId m) (ts_lastSeen s)) as [Hle|]; intros [= <-]; [|done].
      apply (server_data_same given (fun _ => []) rcvd [m] s); try done; [by repeat constructor|].
      intros id v Hv. destruct (decide (C2S_StreamId m = id)) as [Eid|Hne]; [right|left].
      + subst id.
        destruct (finish_called_dec v) as [?|Hnf]; [done|]. destruct Hin. apply (vi_active _ Hinv). eauto.
      + apply data_up_others. by constructor. }
  destruct (C2S_Frame m) as [[frame|q|d| | |w]|] eqn:Hf;
    try (cbn [serve_recv] in Hs; rewrite Hf in Hs; exact (Hframe _ eq_refl Logic.I Hs)).
  by eapply server_data_create.
Qed.

Lemma server_data_step given rcvd l s s' :
  server_inv s -> label_ok l -> server_data given rcvd s ->
  server_step QueryService l s = Some s' -> ts_result s' = None ->
  server_data (fun id => given id ++ server_given l id) (rcvd ++ received [l]) s'.
Proof.
  intros Hinv Hl Hd Hs Hres. destruct l as [closing [e|m]|id l|i|e].
  - cbn [server_step] in Hs. destruct (loop_idle s); [|done]. by injection Hs as <-.
  - cbn [server_step] in Hs. destruct (loop_idle s); [|done]. by eapply server_data_recv.
  - assert (exists l', run_stream id l' s = Some s' /\ (forall f, l' <> FFrame f) /\
      given_to_server l' = given_to_server l) as (l' & Hr & Hno & Hg)
      by (destruct l; simpl in Hs; try done; by eauto).
    apply (server_data_run given rcvd [] (server_given (TStream id l)) id l' s s'); try done.
    + intros f ->. by destruct (Hno f).
    + destruct l' as [f| | | | | | | | | | |]; try done. by destruct (Hno f).
    + simpl. by rewrite Z.eqb_refl.
    + intros id' Hne. simpl. by destruct (Z.eqb_spec id id').
  - cbn [server_step] in Hs. destruct (ts_posted s !! i) as [m|] eqn:Hi; [|done].
    injection Hs as <-. apply (server_data_same given _ rcvd [] s); try done. by left.
  - cbn [server_step] in Hs. destruct (ts_ctxErr s); [done|]. injection Hs as <-.
    simpl. rewrite app_nil_r. by eapply (server_data_contexts given (fun _ => [])).
Qed.
End ServerStreamsData.

Section ChannelData.
Context `{StatusLib} `{MetadataAppend}.

Abbreviation deaf id c := (in_table id c = false).

Record channel_data (given : Z -> list bytes) (rcvd : list ServerToClient) (c : tunnelChannel) : Prop := {
  kd_objects : forall id v, ch_objects c !! id = Some v ->
    end_log (given id) (data_down rcvd id) (data_frames (cc_wire v)) (client_view_as (deaf id c) v);
  kd_wire : forall id, data_up (ch_wire c) id
    = match ch_objects c !! id with Some v => data_frames (cc_wire v) | None => [] end;
  kd_seen : ch_finished c = false -> Forall (fun m => S2C_StreamId m <= ch_lastStreamID c) rcvd;
}.

Definition channel_given (l : channel_label) (id : Z) : list bytes :=
  match l with KStream id' l => if id' =? id then given_to_client l else [] | _ => [] end.

(** A stream whose context may have been cancelled. *)
Definition client_quiet (v w : client_conf) : Prop :=
  cc_wire w = cc_wire v /\ forall deaf,
    view_goes (O := ClientToServerFrame) (client_view_as deaf v) (client_view_as deaf w) [] [] [].

Lemma client_quiet_refl v : client_quiet v v.
Proof. split; [done|]. intros d. apply view_same. Qed.

Lemma client_quiet_cancel streams id v : client_quiet v (cancel_in_table streams id v).
Proof.
  unfold cancel_in_table. destruct streams as [ids|]; [|apply client_quiet_refl].
  destruct (bool_decide _); [|apply client_quiet_refl]. split; [done|]. intros d.
  exact (view_cancel_ctx ContextCanceled (client_view_as d v)).
Qed.

Definition all_quiet (a b : gmap Z client_conf) : Prop :=
  forall id, option_Forall2 client_quiet (a !! id) (b !! id).

Lemma all_quiet_refl a : all_quiet a a.
Proof. intros id. destruct (a !! id); constructor. apply client_quiet_refl. Qed.

Lemma end_log_goes {I O} `{DataFrame I} `{DataFrame O} sent i (o : list O) (e e' : end_view I) :
  end_log sent i o e -> view_goes (O := O) e e' [] [] [] -> end_log sent i o e'.
Proof. intros Hlog Hg. apply Hg in Hlog. by rewrite !app_nil_r in Hlog. Qed.

(** Actions that pass no frame to a stream. *)
Lemma channel_data_same given bs rcvd ins c c' ms :
  channel_data given rcvd c -> all_quiet (ch_objects c) (ch_objects c') ->
  (forall id, deaf id c -> deaf id c') -> ch_wire c' = ch_wire c ++ ms ->
  (forall id, data_up ms id = []) ->
  (ch_finished c' = false -> ch_finished c = false /\ ch_lastStreamID c <= ch_lastStreamID c' /\
     Forall (fun m => S2C_StreamId m <= ch_lastStreamID c') ins) ->
  (forall id v, ch_objects c !! id = Some v -> data_down ins id = [] \/ deaf id c') ->
  channel_data (fun id => given id ++ bs id) (rcvd ++ ins) c'.
Proof.
  intros [Ho Hw Hseen] E1 E2 E3 Hms E4 Hins. split.
  - intros id w Hlook. specialize (E1 id). rewrite Hlook in E1.
    inversion E1 as [v w' [Hwire Hq] Hv Hw'|]; subst. symmetry in Hv. rewrite data_down_app, Hwire.
    apply end_log_more. pose proof (end_log_goes _ _ _ _ _ (Ho id v Hv) (Hq _)) as Hlog.
    apply (end_log_goes _ _ _ _ (client_view_as (deaf id c') w)) in Hlog;
      [|exact (view_deaf _ (client_view_as (deaf id c) w) (E2 id))].
    destruct (Hins id v Hv) as [->|Hd]; [by rewrite app_nil_r|by apply end_log_miss].
  - intros id. rewrite E3, data_up_app, Hms, app_nil_r, Hw. specialize (E1 id).
    inversion E1 as [v w [Hwire _] Hv Hw'|]; [by rewrite Hwire|done].
  - intros Hf. destruct (E4 Hf) as (Hf' & Hle & Hi). apply Forall_app. split; [|done].
    eapply Forall_impl; [exact (Hseen Hf')|]. simpl. lia.
Qed.

(** With nothing received. *)
Lemma channel_data_quiet given bs rcvd c c' ms :
  channel_data given rcvd c -> all_quiet (ch_objects c) (ch_objects c') ->
  (forall id, deaf id c -> deaf id c') -> ch_wire c' = ch_wire c ++ ms ->
  (forall id, data_up ms id = []) ->
  (ch_finished c' = false -> ch_finished c = false /\ ch_lastStreamID c <= ch_lastStreamID c') ->
  channel_data (fun id => given id ++ bs id) (rcvd ++ []) c'.
Proof.
  intros Hd E1 E2 E3 Hms E4. apply (channel_data_same given bs rcvd [] c c' ms); try done.
  - intros Hf. by destruct (E4 Hf).
  - by left.
Qed.

Lemma closed_deaf n err c id :
  channel_inv n c -> deaf id (fst (channel_close err c)).
Proof.
  intros Hinv. pose proof (ni_finished _ _ Hinv) as Hf. unfold channel_close, in_table.
  destruct (ch_finished c); [|done]. simpl. by destruct Hf as (-> & _).
Qed.

Lemma close_quiet err c : all_quiet (ch_objects c) (ch_objects (fst (channel_close err c))).
Proof.
  unfold channel_close. destruct (ch_finished c); [apply all_quiet_refl|]. simpl. intros id.
  rewrite map_lookup_imap. destruct (ch_objects c !! id); simpl; constructor. apply client_quiet_cancel.
Qed.

Lemma close_wire err c : ch_wire (fst (channel_close err c)) = ch_wire c ++ [].
Proof. unfold channel_close. rewrite app_nil_r. by destruct (ch_finished c). Qed.

Lemma channel_data_close given bs rcvd ins n err c :
  channel_inv n c -> channel_data given rcvd c ->
  channel_data (fun id => given id ++ bs id) (rcvd ++ ins) (fst (channel_close err c)).
Proof.
  intros Hinv Hd. apply (channel_data_same given bs rcvd ins c _ []); try done.
  - apply close_quiet.
  - intros id _. by eapply closed_deaf.
  - apply close_wire.
  - by rewrite close_finished.
  - intros id v _. right. by eapply closed_deaf.
Qed.

Lemma channel_data_loop_close given bs rcvd ins n err c :
  channel_inv n c -> channel_data given rcvd c ->
  channel_data (fun id => given id ++ bs id) (rcvd ++ ins) (loop_close err c).
Proof.
  intros Hinv Hd. pose proof (channel_data_close given bs rcvd ins n err c Hinv Hd) as [? ? ?]. by split.
Qed.

Lemma data_up_client_tags id fs id' :
  data_up (client_tag id <$> fs) id' = if id =? id' then data_frames fs else [].
Proof.
  unfold data_up, requests_of. induction fs as [|f fs IH]; [by destruct (_ =? _)|].
  rewrite fmap_cons. simpl. destruct (id =? id'); [|done].
  rewrite data_frames_app, IH, <- data_frames_app. done.
Qed.

Lemma channel_data_run given rcvd ins bs n id l c c' :
  channel_inv n c -> channel_data given rcvd c -> run_client id l c = Some c' ->
  (forall f, l = CFrame f -> in_table id c = true) ->
  Forall (fun m => S2C_StreamId m = id) ins -> data_down ins id = came_to_client l ->
  bs id = given_to_client l -> (forall id', id' <> id -> bs id' = []) ->
  channel_data (fun id => given id ++ bs id) (rcvd ++ ins) c'.
Proof.
  intros Hinv [Ho Hw Hseen] Hrun Hframe Hins Hcame Hbs Hbs'.
  apply run_client_inv in Hrun as (v & v' & objects & Hv & Hs & -> & Hc').
  pose proof (ob_inv _ _ _ (ni_objects _ _ Hinv id v Hv)) as (V & ov & HV & HV1 & Hov & Hcinv).
  assert (Hfr : forall f, l = CFrame f -> ~ not_listening (deaf id c) v).
  { intros f Hl. pose proof (Hframe f Hl) as Hin. destruct (ni_table _ _ Hinv id Hin) as (w & Hw' & Hd).
    simplify_eq. unfold not_listening. rewrite Hin, Hd. intros [?|?]; done. }
  destruct (client_step_data (deaf id c) l v v' Hs Hfr (ki_posted _ _ _ _ Hcinv)) as (fs & Hwire & Hg).
  assert (Htab : forall id', in_table id' c' = in_table id' c && negb (became_done v v' && (id' =? id)))
    by (intros id'; apply in_table_after; by subst c').
  assert (Hdeaf : not_listening (deaf id c) v' -> deaf id c').
  { intros Hn. rewrite Htab, Z.eqb_refl, andb_true_r. destruct (in_table id c) eqn:Hin; [|done].
    destruct Hn as [Hd|?]; [|done]. destruct (ni_table _ _ Hinv id Hin) as (w & Hw' & Hdone). simplify_eq.
    unfold became_done. rewrite Hdone. by destruct (cs_done (cc_str v')). }
  subst c'. rewrite Hwire, drop_app_length. rewrite Hwire, drop_app_length in Htab, Hdeaf. split; simpl.
  - intros id' w. rewrite lookup_insert_Some, data_down_app. intros [[<- <-]|[Hne Hw']].
    + rewrite Hwire, data_frames_app, Hcame, Hbs.
      apply (end_log_goes _ _ _ (client_view (deaf id c) v')); [|exact (view_deaf _ (client_view _ v') Hdeaf)].
      apply Hg. apply (end_log_goes _ _ _ (client_view_as (deaf id c) v)); [by apply Ho|].
      apply (view_deaf (not_listening (deaf id c) v) (client_view_as (deaf id c) v)). simpl. by right.
    + rewrite (Hbs' id'), app_nil_r by done.
      rewrite (data_down_others ins), app_nil_r by (eapply Forall_impl; [exact Hins|]; simpl; congruence).
      apply (end_log_goes _ _ _ _ _ (Ho id' w Hw')).
      apply (view_deaf _ (client_view_as (deaf id' c) w)). simpl. rewrite Htab. by intros ->.
  - intros id'. rewrite data_up_app, Hw, data_up_client_tags.
    destruct (Z.eqb_spec id id') as [<-|Hne].
    + by rewrite lookup_insert_eq, Hv, Hwire, data_frames_app.
    + by rewrite lookup_insert_ne, app_nil_r.
  - intros Hf. apply Forall_app. split; [by apply Hseen|]. eapply Forall_impl; [exact Hins|]. simpl.
    pose proof (ob_id _ _ _ (ni_objects _ _ Hinv id v Hv)). lia.
Qed.

Lemma channel_data_settings given rcvd n m c opts :
  channel_inv n c -> channel_data given rcvd c -> m = settings_message opts ->
  channel_data (fun id => given id ++ []) (rcvd ++ [m]) (recv_settings (inr m) c).
Proof.
  intros Hinv Hd ->.
  assert (Hnone : forall id, data_down [settings_message opts] id = [])
    by (intros id; rewrite data_down_one; by destruct (_ =? _)).
  unfold recv_settings. destruct (tunnelRoles _). simpl. destruct (check_settings _ _) as [rev [e|]].
  - destruct (channel_data_loop_close given (fun _ => []) rcvd [settings_message opts] n (Some e) c Hinv Hd)
      as [K1 K2 K3]. revert K1 K2 K3. unfold loop_close, channel_close, in_table. simpl.
    destruct (ch_finished c); intros K1 K2 K3; by split.
  - apply (channel_data_same given (fun _ => []) rcvd [settings_message opts] c _ []); try done;
      simpl; [apply all_quiet_refl|by rewrite app_nil_r| |].
    + intros Hf. split_and!; [done|lia|]. pose proof (ni_last _ _ Hinv). constructor; [simpl; lia|done].
    + intros. left. apply Hnone.
Qed.

Lemma channel_data_new given rcvd bs n a c c' e :
  channel_inv n c -> channel_data given rcvd c -> n < MaxInt64 -> newStream_begin a c = Returns (c', e) ->
  channel_data (fun id => given id ++ bs id) (rcvd ++ []) c'.
Proof.
  intros Hinv Hd Hn. unfold newStream_begin, allocateStream. pose proof (ni_last _ _ Hinv) as Hlast.
  assert (Hsame : forall w, ch_objects w = ch_objects c -> ch_streams w = ch_streams c ->
    ch_wire w = ch_wire c -> ch_finished w = ch_finished c -> ch_lastStreamID c <= ch_lastStreamID w ->
    channel_data (fun id => given id ++ bs id) (rcvd ++ []) w).
  { intros w E1 E2 E3 E4 E5. apply (channel_data_quiet given bs rcvd c w []); try done.
    - rewrite E1. apply all_quiet_refl.
    - unfold in_table. by rewrite E2.
    - by rewrite E3, app_nil_r.
    - by rewrite E4. }
  rewrite i64_small by (unfold MinInt64, MaxInt64 in *; lia).
  destruct (ch_finished c) eqn:Hfin; [intros [= <- _]; by apply Hsame|].
  destruct (ch_lastStreamID c <? 0); [intros [= <- _]; by apply Hsame|].
  set (id := ch_lastStreamID c + 1). set (c1 := kset_last id c).
  assert (Hc1 : channel_data (fun id => given id ++ bs id) (rcvd ++ []) c1)
    by (apply Hsame; try done; simpl; lia).
  destruct (in_table id c1); [by intros [= <- _]|].
  destruct (apply_call_options _ _ _) as [|[e'|md]]; [done|by intros [= <- _]|].
  destruct (ch_settings c1) as [st|] eqn:Hset; [|done]. intros [= <- _]. rewrite app_nil_r.
  destruct (ni_settings _ _ Hinv st Hset) as (Hwin & _ & Hmin). rewrite minWindowSize_eq in Hmin.
  assert (0 <= messageOverhead (ch_useRevision c) < MaxUint32) as Hov
    by (by destruct (messageOverhead_cases (ch_useRevision c)) as [-> | ->]).
  assert (Hnew : ch_objects c !! id = None).
  { destruct (ch_objects c !! id) as [v|] eqn:Hv; [|done].
    pose proof (ob_id _ _ _ (ni_objects _ _ Hinv _ v Hv)). lia. }
  destruct Hd as [Ho Hw Hseen]. split; simpl.
  - intros id' w. rewrite lookup_insert_Some. intros [[<- <-]|[Hne Hw']].
    + rewrite (data_down_others rcvd) by (eapply Forall_impl; [exact (Hseen Hfin)|]; simpl; lia).
      apply (end_log_more [] (given id ++ bs id)), end_log_start; [|done|done].
      apply sender_log_start; [done|lia|apply (oo_chunk _ (ni_opts _ _ Hinv))|done].
    + apply end_log_more, (end_log_goes _ _ _ _ _ (Ho id' w Hw')).
      apply (view_deaf _ (client_view_as (deaf id' c) w)). simpl. unfold in_table. simpl.
      destruct (ch_streams c) as [ids|]; [|done]. simpl. intros Hni.
      apply bool_decide_eq_false in Hni. apply bool_decide_eq_false.
      by intros [->%elem_of_singleton|?]%elem_of_union.
  - intros id'. rewrite Hw. destruct (decide (id' = id)) as [->|Hne].
    + by rewrite lookup_insert_eq, Hnew.
    + by rewrite lookup_insert_ne.
  - intros _. eapply Forall_impl; [exact (Hseen Hfin)|]. simpl. lia.
Qed.

Lemma channel_data_opened given bs rcvd e c c' :
  channel_data given rcvd c -> newStream_end e c = Some c' ->
  channel_data (fun id => given id ++ bs id) (rcvd ++ []) c'.
Proof.
  intros Hd. unfold newStream_end. destruct (ch_creating c) as [[id frame]|]; [|done].
  destruct e as [e|]; intros [= <-].
  - apply (channel_data_quiet given bs rcvd c _ []); simpl; try done; [apply all_quiet_refl| |by rewrite app_nil_r].
    intros id'. unfold in_table. simpl. destruct (ch_streams c) as [ids|]; [|done]. simpl.
    intros Hni%bool_decide_eq_false. apply bool_decide_eq_false. by intros [? _]%elem_of_difference.
  - apply (channel_data_quiet given bs rcvd c _ [MkClientToServer id (Some (ClientToServer_NewStream frame))]);
      simpl; try done.
    + intros id'. pose proof (all_quiet_refl (ch_objects c) id') as Hq. rewrite lookup_alter.
      destruct (decide (id = id')) as [<-|]; [|done]. destruct (ch_objects c !! id) as [v|]; [|done].
      constructor. split; [done|]. intros d. apply (view_same (client_view_as d v)).
    + intros id'. rewrite data_up_one. by destruct (_ =? _).
Qed.

Lemma channel_data_recv given rcvd n o m c c' :
  channel_inv n c -> channel_data given rcvd c -> ch_loop c = LReceiving o -> recv_frame (inr m) c = Some c' ->
  channel_data (fun id => given id ++ []) (rcvd ++ [m]) c'.
Proof.
  intros Hinv Hd Hlp Hs. cbn [recv_frame] in Hs. unfold channel_getStream in Hs.
  destruct (in_table (S2C_StreamId m) c) eqn:Hin.
  - apply (channel_data_run given rcvd [m] (fun _ => []) n (S2C_StreamId m) (CFrame (S2C_Frame m))
      (kset_loop (LReceiving (Some (S2C_StreamId m))) c)); try done.
    + by eapply inv_dispatch.
    + by destruct Hd; split.
    + by constructor.
    + rewrite data_down_one, Z.eqb_refl. by destruct (S2C_Frame m).
  - destruct (ch_streamCreated c && (S2C_StreamId m <=? ch_lastStreamID c)) eqn:Hseen;
      injection Hs as <-; [|by eapply channel_data_loop_close].
    apply andb_true_iff in Hseen as [_ Hle%Z.leb_le].
    apply (channel_data_same given (fun _ => []) rcvd [m] c c []); try done.
    + apply all_quiet_refl. + by rewrite app_nil_r. + by repeat constructor.
    + intros id v Hv. destruct (decide (S2C_StreamId m = id)) as [<-|Hne]; [by right|left].
      apply data_down_others. by constructor.
Qed.

Lemma channel_data_step given rcvd n l c c' opts :
  channel_inv n c -> channel_data given rcvd c -> n < MaxInt64 ->
  (ch_loop c = LSettings -> forall m, l = KRecv (inr m) -> m = settings_message opts) ->
  channel_step l c = Some c' ->
  channel_data (fun id => given id ++ channel_given l id) (rcvd ++ delivered l) c'.
Proof.
  intros Hinv Hd Hn Hset Hs.
  assert (Hsame : forall bs w, ch_objects w = ch_objects c -> ch_streams w = ch_streams c ->
    ch_wire w = ch_wire c -> ch_finished w = ch_finished c -> ch_lastStreamID w = ch_lastStreamID c ->
    channel_data (fun id => given id ++ bs id) (rcvd ++ []) w).
  { intros bs w E1 E2 E3 E4 E5. apply (channel_data_quiet given bs rcvd c w []); try done.
    - rewrite E1. apply all_quiet_refl.
    - unfold in_table. by rewrite E2.
    - by rewrite E3, app_nil_r.
    - rewrite E4, E5. auto with lia. }
  destruct l as [|res|a|e|id l| | |e]; cbn [channel_step] in Hs.
  - destruct (ch_loop c); try done. injection Hs as <-.
    destruct (ch_serverSendsSettings c); [by apply (Hsame (fun _ => []))|by eapply channel_data_loop_close].
  - destruct (ch_loop c) as [| |o|] eqn:Hlp; try done.
    + injection Hs as <-. destruct res as [e|m].
      * unfold recv_settings. destruct (tunnelRoles _). by eapply channel_data_loop_close.
      * by eapply channel_data_settings; [..|apply Hset].
    + destruct (channel_loop_idle o c); [|done].
      destruct res as [e|m]; [injection Hs as <-; by eapply channel_data_loop_close|].
      by eapply channel_data_recv.
  - destruct (ch_creating c); [done|].
    destruct (newStream_begin a c) as [|[c1 e]] eqn:Hb; [done|]. injection Hs as <-.
    by eapply (channel_data_new given rcvd (fun _ => [])).
  - by eapply (channel_data_opened given (fun _ => [])).
  - assert (Hno : forall f, l <> CFrame f) by (by intros f ->).
    apply (kstream_inv id l) in Hs as [Hr _].
    apply (channel_data_run given rcvd [] (channel_given (KStream id l)) n id l c c'); try done.
    + intros f ->. by destruct (Hno f).
    + destruct l as [f| | | | | | | | | | |]; try done. by destruct (Hno f).
    + simpl. by rewrite Z.eqb_refl.
    + intros id' Hne. simpl. by destruct (Z.eqb_spec id id').
  - injection Hs as <-. by eapply channel_data_close.
  - destruct (_ && _); [|done].
    destruct (ch_settings c); injection Hs as <-; [by apply (Hsame (fun _ => []))|by eapply channel_data_close].
  - destruct (ch_ctxErr c); [done|]. injection Hs as <-. by apply (Hsame (fun _ => [])).
Qed.
End ChannelData.

(** ** The whole tunnel *)

(** The messages that the callers of the channel and the handlers of the server have
    given to [SendMsg] of the stream [id], in order. *)
Definition requests_given (ls : list tunnel_label) (id : Z) : list bytes :=
  List.flat_map (fun l => match l with AtChannel l => channel_given l id | _ => [] end) ls.
Definition responses_given (ls : list tunnel_label) (id : Z) : list bytes :=
  List.flat_map (fun l => match l with AtServer l => server_given l id | _ => [] end) ls.

Lemma requests_given_snoc ls l id :
  requests_given (ls ++ [l]) id
  = requests_given ls id ++ match l with AtChannel l => channel_given l id | _ => [] end.
Proof. unfold requests_given. rewrite List.flat_map_app. simpl. by rewrite app_nil_r. Qed.
Lemma responses_given_snoc ls l id :
  responses_given (ls ++ [l]) id
  = responses_given ls id ++ match l with AtServer l => server_given l id | _ => [] end.
Proof. unfold responses_given. rewrite List.flat_map_app. simpl. by rewrite app_nil_r. Qed.

Lemma end_log_no_frames {I O} `{DataFrame I} `{DataFrame O} sent (o : list O) (e : end_view I) :
  end_log sent [] o e -> messages_read (ev_reads e) = [].
Proof.
  intros [_ _ (taken & ms & v & Htaken & Has & Hms & _) _].
  apply prefix_nil_inv in Htaken as ->.
  specialize (Has (ReadConfig true None None (fun _ _ => EOF) EOF EOF (fun _ => EOF) EOF)).
  simpl in Has. simplify_eq. apply prefix_nil_inv, app_eq_nil in Hms. apply Hms.
Qed.

Section TunnelData.
Context `{StatusLib} `{MetadataAppend} (QueryService : string -> option ServiceDesc).
Context (reverse secure : bool) (client_opts server_opts : tunnelOpts).
Context (client_ctx server_ctx : option error).
Context (Hco : opts_ok client_opts) (Hso : opts_ok server_opts).

Abbreviation start := (tunnel_start reverse secure client_opts server_opts client_ctx server_ctx).
Abbreviation inv := (tunnel_inv QueryService reverse server_opts server_ctx).

Record tunnel_data (ls : list tunnel_label) (t : tunnel) : Prop := {
  td_server : server_data (responses_given ls) (take (tn_up t) (ch_wire (tn_channel t))) (tn_server t);
  td_channel : channel_data (requests_given ls) (take (tn_down t) (ts_wire (tn_server t))) (tn_channel t);
  td_down : (tn_down t <= length (ts_wire (tn_server t)))%nat;
}.

Lemma server_data_ext given given' rcvd rcvd' s :
  server_data given rcvd s -> (forall id, given id = given' id) -> rcvd = rcvd' -> server_data given' rcvd' s.
Proof. intros [Ho Hseen] E <-. split; [|done]. intros id v Hv. rewrite <- E. by apply Ho. Qed.

Lemma channel_data_ext given given' rcvd rcvd' c :
  channel_data given rcvd c -> (forall id, given id = given' id) -> rcvd = rcvd' -> channel_data given' rcvd' c.
Proof. intros [Ho Hw Hseen] E <-. split; [|done..]. intros id v Hv. rewrite <- E. by apply Ho. Qed.

Lemma data_channel_moves ls t l cl c' d :
  inv ls t -> tunnel_data ls t -> len ls < MaxInt64 ->
  (ch_loop (tn_channel t) = LSettings -> forall m, cl = KRecv (inr m) -> m = settings_message server_opts) ->
  channel_step cl (tn_channel t) = Some c' ->
  (forall id, requests_given (ls ++ [l]) id = requests_given ls id ++ channel_given cl id) ->
  (forall id, responses_given (ls ++ [l]) id = responses_given ls id) ->
  (d <= length (ts_wire (tn_server t)))%nat ->
  take d (ts_wire (tn_server t)) = take (tn_down t) (ts_wire (tn_server t)) ++ delivered cl ->
  tunnel_data (ls ++ [l]) (Tunnel c' (tn_server t) (tn_up t) d).
Proof.
  intros Hinv [Hs Hc _] Hlen Hset Hstep Hreq Hresp Hd Hdown.
  pose proof (ti_channel _ _ _ _ _ _ Hinv) as Hcinv.
  destruct (channel_step_goes cl (tn_channel t) c') as [_ (ms & Hwire) _ _ _];
    [pose proof (ni_loop _ _ Hcinv); by destruct (ch_loop _)|done|].
  split; simpl; try done.
  - apply (server_data_ext _ _ _ _ _ Hs); [done|]. rewrite Hwire, take_app_le; [done|].
    apply (ti_up _ _ _ _ _ _ Hinv).
  - apply (channel_data_ext _ _ _ _ _
      (channel_data_step _ _ _ _ _ _ server_opts Hcinv Hc Hlen Hset Hstep)); done.
Qed.

Lemma data_server_moves ls t l sl s' up :
  inv ls t -> inv (ls ++ [l]) (Tunnel (tn_channel t) s' up (tn_down t)) -> tunnel_data ls t ->
  label_ok sl -> server_step QueryService sl (tn_server t) = Some s' ->
  (forall id, requests_given (ls ++ [l]) id = requests_given ls id) ->
  (forall id, responses_given (ls ++ [l]) id = responses_given ls id ++ server_given sl id) ->
  take up (ch_wire (tn_channel t)) = take (tn_up t) (ch_wire (tn_channel t)) ++ received [sl] ->
  tunnel_data (ls ++ [l]) (Tunnel (tn_channel t) s' up (tn_down t)).
Proof.
  intros Hinv Hinv' [Hs Hc Hd] Hl Hstep Hreq Hresp Hup.
  destruct (ti_server _ _ _ _ _ _ Hinv) as (lss & Hran).
  destruct (server_behind QueryService reverse server_opts server_ctx Hso lss t _
    (ti_channel _ _ _ _ _ _ Hinv) Hran) as (Hsinv & _).
  destruct (ti_server _ _ _ _ _ _ Hinv') as (lss' & Hran').
  destruct (server_behind QueryService reverse server_opts server_ctx Hso lss' _ _
    (ti_channel _ _ _ _ _ _ Hinv') Hran') as (_ & Hres & _). simpl in Hres.
  destruct (server_step_out QueryService sl _ _ Hl Hsinv Hstep) as (_ & _ & (ws & Hwire) & _).
  split; simpl.
  - apply (server_data_ext _ _ _ _ _ (server_data_step QueryService _ _ _ _ _ Hsinv Hl Hs Hstep Hres)); done.
  - apply (channel_data_ext _ _ _ _ _ Hc); [done|]. by rewrite Hwire, take_app_le.
  - rewrite Hwire, length_app. lia.
Qed.

Lemma tunnel_data_step ls l t t' :
  inv ls t -> tunnel_data ls t -> delivers l = true -> len ls < MaxInt64 ->
  tunnel_step QueryService l t = Some t' -> tunnel_data (ls ++ [l]) t'.
Proof.
  intros Hinv Hd Hl Hlen Hs.
  pose proof (tunnel_inv_step QueryService reverse server_opts server_ctx Hso _ _ _ _ Hinv Hl Hlen Hs)
    as Hinv'.
  assert (Hreq : forall id, requests_given (ls ++ [l]) id
    = requests_given ls id ++ match l with AtChannel l => channel_given l id | _ => [] end)
    by (intros; apply requests_given_snoc).
  assert (Hresp : forall id, responses_given (ls ++ [l]) id
    = responses_given ls id ++ match l with AtServer l => server_given l id | _ => [] end)
    by (intros; apply responses_given_snoc).
  destruct l as [cl|sl|closing|].
  - destruct (at_channel_inv _ _ _ _ Hs) as (Hno & c' & Hc & ->). pose proof (delivers_nothing cl Hno) as Hdel.
    apply (data_channel_moves ls t _ cl); try done.
    + intros _ m Hm. by destruct (Hno m).
    + intros id. by rewrite Hresp, app_nil_r.
    + apply (td_down _ _ Hd).
    + by rewrite Hdel, app_nil_r.
  - destruct (at_server_inv _ _ _ _ Hs) as (Hrec & Hlok & s' & Hs' & ->).
    apply (data_server_moves ls t _ sl); try done.
    + intros id. by rewrite Hreq, app_nil_r.
    + by rewrite Hrec, app_nil_r.
  - cbn [tunnel_step] in Hs. destruct (_ !! tn_up t) as [m|] eqn:Hm; [|done].
    destruct (server_step _ _ _) as [s'|] eqn:Hs'; [|done]. injection Hs as <-.
    destruct (ni_wire _ _ (ti_channel _ _ _ _ _ _ Hinv)) as (_ & Hms & _).
    destruct (Hms m ltac:(by eapply list_elem_of_lookup_2)) as [_ Hframe].
    apply (data_server_moves ls t _ (TRecv closing (inr m))); try done.
    + simpl. destruct (C2S_Frame m) as [[frame| | | | |]|]; try done. by destruct (Hframe frame eq_refl).
    + intros id. by rewrite Hreq, app_nil_r.
    + by apply take_S_r.
  - cbn [tunnel_step] in Hs. destruct (_ !! tn_down t) as [m|] eqn:Hm; [|done].
    destruct (channel_step _ _) as [c'|] eqn:Hc; [|done]. injection Hs as <-.
    apply (data_channel_moves ls t _ (KRecv (inr m))); try done.
    + intros E m' [= <-].
      pose proof (next_down QueryService reverse server_opts server_ctx Hso ls t m Hinv Hm) as Hn.
      by rewrite E in Hn.
    + intros id. by rewrite Hresp, app_nil_r.
    + apply lookup_lt_Some in Hm. lia.
    + by apply take_S_r.
Qed.

Lemma tunnel_data_run ls t :
  Forall (fun l => delivers l = true) ls -> len ls <= MaxInt64 ->
  run (tunnel_step QueryService) ls start = Some t -> inv ls t /\ tunnel_data ls t.
Proof.
  intros Hls Hlen Hrun. revert ls t Hrun Hls Hlen.
  apply (run_history (tunnel_step QueryService) (fun ls t => Forall (fun l => delivers l = true) ls ->
    len ls <= MaxInt64 -> inv ls t /\ tunnel_data ls t)).
  - intros _ _. split; [by apply tunnel_start_inv|]. split; simpl; [| |lia].
    + by split.
    + by split.
  - intros ls l t t' IH Hs [Hls Hl]%Forall_app Hlen. rewrite len_app in Hlen.
    change (len [l]) with 1 in Hlen. apply Forall_cons_1 in Hl as [Hl _].
    destruct (IH Hls ltac:(lia)) as [Hinv Hw].
    split; [eapply tunnel_inv_step; try done; lia|eapply tunnel_data_step; try done; lia].
Qed.

Lemma data_up_prefix n ms id : data_up (take n ms) id `prefix_of` data_up ms id.
Proof. exists (data_up (drop n ms) id). by rewrite <- data_up_app, take_drop. Qed.
Lemma data_down_prefix n ms id : data_down (take n ms) id `prefix_of` data_down ms id.
Proof. exists (data_down (drop n ms) id). by rewrite <- data_down_app, take_drop. Qed.

(** What the server has sent for a stream. *)
Lemma server_sent s id :
  server_inv s -> 0 <= id ->
  data_down (ts_wire s) id = match ts_objects s !! id with Some v => data_frames (sc_wire v) | None => [] end.
Proof.
  intros Hinv Hid. pose proof (vi_out _ Hinv id Hid) as Hout. unfold out_ok in Hout. unfold data_down.
  destruct (ts_objects s !! id) as [v|]; [by destruct Hout as [-> _]|].
  assert (Hall : data_frames (frames_of id (ts_wire s ++ ts_posted s)) = []).
  { destruct Hout as [-> |(_ & c & ->)]; done. }
  rewrite frames_of_app, data_frames_app in Hall. by apply app_eq_nil in Hall as [? _].
Qed.

(** What each end has read of a stream, from the data that is on the wire. *)
Lemma messages_delivered ls t id :
  inv ls t -> tunnel_data ls t ->
  (forall v, ts_objects (tn_server t) !! id = Some v ->
     exists ds, ds `sublist_of` requests_given ls id /\
       count starts_message (requests_of id (ch_wire (tn_channel t))) = len ds /\
       messages_read (sc_reads v) `prefix_of` ds) /\
  (forall v, ch_objects (tn_channel t) !! id = Some v ->
     exists ds, ds `sublist_of` responses_given ls id /\
       count starts_message (frames_of id (ts_wire (tn_server t))) = len ds /\
       messages_read (cc_reads v) `prefix_of` ds).
Proof.
  intros Hinv [Hs Hc _].
  destruct (ti_server _ _ _ _ _ _ Hinv) as (lss & Hran).
  destruct (server_behind QueryService reverse server_opts server_ctx Hso lss t _
    (ti_channel _ _ _ _ _ _ Hinv) Hran) as (Hsinv & _).
  rewrite <- (starts_data (requests_of _ _)), <- (starts_data (frames_of _ _)).
  fold (data_up (ch_wire (tn_channel t)) id). fold (data_down (ts_wire (tn_server t)) id).
  split; intros v Hv.
  - pose proof (sd_objects _ _ _ Hs id v Hv) as Hlog.
    pose proof (data_up_prefix (tn_up t) (ch_wire (tn_channel t)) id) as Hpre.
    rewrite (kd_wire _ _ _ Hc id) in *. destruct (ch_objects (tn_channel t) !! id) as [w|] eqn:Hw.
    + exact (end_logs_deliver _ _ _ _ _ _ _ _ Hlog (kd_objects _ _ _ Hc id w Hw) Hpre).
    + apply prefix_nil_inv in Hpre. rewrite Hpre in Hlog. exists [].
      rewrite (end_log_no_frames _ _ _ Hlog : messages_read (sc_reads v) = []).
      split_and!; [apply sublist_nil_l|done|done].
  - pose proof (kd_objects _ _ _ Hc id v Hv) as Hlog.
    pose proof (data_down_prefix (tn_down t) (ts_wire (tn_server t)) id) as Hpre.
    pose proof (ob_id _ _ _ (ni_objects _ _ (ti_channel _ _ _ _ _ _ Hinv) id v Hv)) as Hid.
    rewrite (server_sent _ id Hsinv) in * by lia.
    destruct (ts_objects (tn_server t) !! id) as [w|] eqn:Hw.
    + exact (end_logs_deliver _ _ _ _ _ _ _ _ Hlog (sd_objects _ _ _ Hs id w Hw) Hpre).
    + apply prefix_nil_inv in Hpre. rewrite Hpre in Hlog. exists [].
      rewrite (end_log_no_frames _ _ _ Hlog : messages_read (cc_reads v) = []).
      split_and!; [apply sublist_nil_l|done|done].
Qed.
End TunnelData.

