(* ===== verification/Progress.v ===== *)
(** * Progress in a whole tunnel

    Windows.v shows that a sender never has more room than the receiver has; here it
    never has less, once what is under way has arrived, as long as both ends still
    have the stream.  So a [SendMsg] waits for nothing but its reader, and a reader for
    nothing that was sent. *)
From stdpp Require Import gmap sets.
From S2P Require Import Prelude Status Protocol Options FlowSender FlowReceiver Reassembly FlowLink Pipe.
From S2P Require Import ServerStream TunnelServer ClientStream TunnelChannel Tunnel Windows Delivery.

(** A call of [send] waits in its select, and neither an update nor the end of its
    context is about to wake it. *)
Definition waits (c : send_conf) : Prop :=
  c_ctx c = None /\ c_posts c = O /\ s_windowUpdates (c_sender c) = false /\
  exists k, c_call c = Some k /\ k_pc k = PWait.

Lemma waits_starved V max ov ls c : 0 <= ov < MaxUint32 -> sender_inv V max ov ls c -> waits c -> outstanding c <= ov.
Proof.
  intros Hov Hinv (Hctx & Hp & Htok & k & Hk & Hpc). pose proof (inv_wakeup _ _ _ _ _ Hinv k Hk Hpc) as Hwk.
  pose proof (needed_bounds ov Hov k). unfold outstanding, reserved. rewrite Hk, Hpc.
  rewrite Htok, Hp in Hwk. destruct Hwk as [?|[?|?]]; [lia|done|lia].
Qed.

(** A reader that waits finds an open receiver, whose window has been given back but
    for less than what a message takes at least. *)
Lemma reader_room {T} (measure : T -> Z * bool) W r :
  (forall f, 0 <= fst (measure f)) -> W <= MaxUint32 -> recv_inv measure W r ->
  0 < r_msgOverhead r < W -> snd (dequeue measure r) = DequeueWait ->
  r_msgOverhead r < r_currentWindow r /\ r_closed r = false.
Proof.
  intros Hm HW Hinv Hov Hd. pose proof Hinv as [_ Hw Hu _ He _ Hq].
  destruct (dequeue_cases measure Hm W r HW Hinv)
    as [(_ & E)|[(Hc & Hi & E)|(f & rest & u & _ & _ & _ & _ & E)]]; rewrite E in Hd; simpl in Hd; try done.
  destruct (r_closed r); [done|]. split; [|done]. specialize (He Hc). specialize (Hq Hi Hc).
  unfold queued in He. rewrite Hi in He. simpl in He. destruct (Z.eq_dec (r_windowUpdate r) 0); [lia|].
  apply Hq; lia.
Qed.

Section Progress.
Context `{StatusLib} `{MetadataAppend} (QueryService : string -> option ServiceDesc).
Context (reverse secure : bool) (client_opts server_opts : tunnelOpts).
Context (client_ctx server_ctx : option error).
Context (Hco : opts_ok client_opts) (Hso : opts_ok server_opts).

Abbreviation start := (tunnel_start reverse secure client_opts server_opts client_ctx server_ctx).
Abbreviation inv := (tunnel_inv QueryService reverse server_opts server_ctx).
Abbreviation Ws := (initialWindowSize server_opts).
Abbreviation Wc := (initialWindowSize client_opts).
Abbreviation server_windows := (server_windows client_opts server_opts).
Abbreviation client_windows := (client_windows client_opts server_opts).

(** ** No part of a window is lost *)
Definition up_exact (t : tunnel) (id : Z) : Prop :=
  lg_sends (client_windows t) id -> lg_takes (server_windows t) id ->
  lg_right (server_windows t) id
    <= lg_left (client_windows t) id + up_data (going_up t) id + down_credit (going_down t) id.
Definition down_exact (t : tunnel) (id : Z) : Prop :=
  lg_sends (server_windows t) id -> lg_takes (client_windows t) id ->
  lg_right (client_windows t) id
    <= lg_left (server_windows t) id + down_data (going_down t) id + up_credit (going_up t) id.
Definition windows_exact (t : tunnel) : Prop := forall id, up_exact t id /\ down_exact t id.

Lemma start_exact : windows_exact start.
Proof.
  intros id. unfold up_exact, down_exact. simpl. rewrite !lookup_empty.
  change (up_data _ id) with 0. change (down_credit _ id) with 0.
  change (down_data _ id) with 0. change (up_credit _ id) with 0. lia.
Qed.

(** The windows are values of [uint32]. *)
Lemma rights_small t id :
  tunnel_windows client_opts server_opts t ->
  lg_right (server_windows t) id <= MaxUint32 /\ lg_right (client_windows t) id <= MaxUint32.
Proof.
  intros [Hs Hc _ _]. pose proof (opts_window _ Hso) as [_ HWs]. pose proof (opts_window _ Hco) as [_ HWc].
  pose proof (measure_nonneg (H := request_data_frame) request_measure request_measure_view) as Hqn.
  pose proof (measure_nonneg (H := response_data_frame) response_measure response_measure_view) as Hpn.
  unfold Windows.server_windows, Windows.client_windows. simpl. split.
  - destruct (ts_objects _ !! id) as [v|] eqn:Hv; [|done].
    destruct (sv_objects _ _ Hs _ _ Hv) as [(_ & _ & [? ? ? ? _ _ _]) _].
    pose proof (queued_nonneg request_measure Hqn (ss_receiver (sc_str v))). lia.
  - destruct (ch_objects _ !! id) as [v|] eqn:Hv; [|done].
    destruct (cv_objects _ _ _ Hc _ _ Hv) as (_ & _ & [? ? ? ? _ _ _]).
    pose proof (queued_nonneg response_measure Hpn (cs_receiver (cc_str v))). lia.
Qed.

Lemma goings_nonneg t id :
  0 <= up_data (going_up t) id /\ 0 <= up_credit (going_up t) id /\
  0 <= down_data (going_down t) id /\ 0 <= down_credit (going_down t) id.
Proof. destruct (up_sums_nonneg (going_up t) id), (down_sums_nonneg (going_down t) id). done. Qed.

Lemma exact_channel ls t cl c' d :
  inv ls t -> tunnel_windows client_opts server_opts t -> windows_exact t -> len ls < MaxInt64 ->
  (ch_loop (tn_channel t) = LSettings -> forall m, cl = KRecv (inr m) -> m = settings_message server_opts) ->
  channel_step cl (tn_channel t) = Some c' ->
  going_down t = delivered cl ++ drop d (ts_wire (tn_server t)) ->
  windows_exact (Tunnel c' (tn_server t) (tn_up t) d).
Proof.
  intros Hinv Hw Hex Hlen Hset Hstep Hdown. pose proof Hw as [Hs Hc _ Ha].
  destruct (kaccounts_step _ _ (opts_window _ Hco) _ _ _ _ server_opts
    (ti_channel _ _ _ _ _ _ Hinv) Hc Hlen eq_refl Hset Hstep) as (_ & ms & Hwire & Hmoves).
  intros id. destruct (Hex id) as [E1 E2], (Ha id) as [A1 _], (Hmoves id) as (_ & _ & B1 & B2).
  pose proof (rights_small t id Hw) as [R1 _]. pose proof (goings_nonneg t id) as (G1 & _ & _ & _).
  pose proof (down_sums_nonneg (drop d (ts_wire (tn_server t))) id) as [_ G2].
  unfold up_exact, down_exact in *. rewrite Hdown in *. unfold going_down, going_up in *. simpl tn_up in *.
  simpl tn_down in *. simpl tn_server in *. simpl tn_channel in *. rewrite Hwire.
  unfold up_data, up_credit, down_data, down_credit, Windows.client_windows, Windows.server_windows in *.
  simpl tn_channel in *. simpl tn_server in *. rewrite !weigh_app in *.
  rewrite !weigh_more by (apply (ti_up _ _ _ _ _ _ Hinv)). split.
  - intros (Hl & Hk)%B1 Ht. specialize (E1 Hl Ht). specialize (Hk ltac:(lia)). lia.
  - intros Hl (Ht & Hk)%B2. specialize (E2 Hl Ht). lia.
Qed.

Lemma exact_server ls t sl s' up :
  inv ls t -> tunnel_windows client_opts server_opts t -> windows_exact t ->
  server_step QueryService sl (tn_server t) = Some s' ->
  going_up t = received [sl] ++ drop up (ch_wire (tn_channel t)) ->
  windows_exact (Tunnel (tn_channel t) s' up (tn_down t)).
Proof.
  intros Hinv Hw Hex Hstep Hup. pose proof Hw as [Hs Hc Hd Ha].
  destruct (ti_server _ _ _ _ _ _ Hinv) as (lss & Hran).
  destruct (server_behind QueryService reverse server_opts server_ctx Hso lss t _
    (ti_channel _ _ _ _ _ _ Hinv) Hran) as (Hsinv & _).
  assert (Hopen : Forall (opens_with Wc) (received [sl])).
  { assert (Hall : Forall (opens_with Wc) (going_up t)) by (apply Forall_drop, (cv_wire _ _ _ Hc)).
    rewrite Hup in Hall. by apply Forall_app in Hall as [? _]. }
  destruct (accounts_step QueryService _ _ (opts_window _ Hso) _ _ _ Hsinv Hs Hopen Hstep)
    as (_ & ms & Hwire & Hmoves).
  intros id. destruct (Hex id) as [E1 E2], (Ha id) as [_ A2], (Hmoves id) as (_ & _ & B1 & B2).
  pose proof (rights_small t id Hw) as [_ R2]. pose proof (goings_nonneg t id) as (_ & _ & G1 & _).
  pose proof (up_sums_nonneg (drop up (ch_wire (tn_channel t))) id) as [_ G2].
  unfold up_exact, down_exact in *. rewrite Hup in *. unfold going_down, going_up in *. simpl tn_up in *.
  simpl tn_down in *. simpl tn_server in *. simpl tn_channel in *. rewrite Hwire.
  unfold up_data, up_credit, down_data, down_credit, Windows.client_windows, Windows.server_windows in *.
  simpl tn_channel in *. simpl tn_server in *. rewrite !weigh_app in *. rewrite !weigh_more by done. split.
  - intros Hl (Ht & Hk)%B2. specialize (E1 Hl Ht). lia.
  - intros (Hl & Hk)%B1 Ht. specialize (E2 Hl Ht). specialize (Hk ltac:(lia)). lia.
Qed.

Lemma exact_step ls l t t' :
  inv ls t -> tunnel_windows client_opts server_opts t -> windows_exact t -> len ls < MaxInt64 ->
  tunnel_step QueryService l t = Some t' -> windows_exact t'.
Proof.
  intros Hinv Hw Hex Hlen Hs. destruct l as [cl|sl|closing|].
  - destruct (at_channel_inv _ _ _ _ Hs) as (Hno & c' & Hc & ->). pose proof (delivers_nothing cl Hno) as Hdel.
    apply (exact_channel ls t cl); try done; [|by rewrite Hdel].
    intros _ m Hm. by destruct (Hno m).
  - destruct (at_server_inv _ _ _ _ Hs) as (Hrec & Hlok & s' & Hs' & ->).
    apply (exact_server ls t sl); try done. by rewrite Hrec.
  - cbn [tunnel_step] in Hs. destruct (_ !! tn_up t) as [m|] eqn:Hm; [|done].
    destruct (server_step _ _ _) as [s'|] eqn:Hs'; [|done]. injection Hs as <-.
    apply (exact_server ls t (TRecv closing (inr m))); try done. by apply drop_S.
  - cbn [tunnel_step] in Hs. destruct (_ !! tn_down t) as [m|] eqn:Hm; [|done].
    destruct (channel_step _ _) as [c'|] eqn:Hc; [|done]. injection Hs as <-.
    apply (exact_channel ls t (KRecv (inr m))); try done; [|by apply drop_S].
    intros E m' [= <-].
    pose proof (next_down QueryService reverse server_opts server_ctx Hso ls t m Hinv Hm) as Hn.
    by rewrite E in Hn.
Qed.

Lemma exact_run ls t :
  Forall (fun l => delivers l = true) ls -> len ls <= MaxInt64 ->
  run (tunnel_step QueryService) ls start = Some t ->
  inv ls t /\ tunnel_windows client_opts server_opts t /\ windows_exact t.
Proof.
  intros Hls Hlen Hrun. revert ls t Hrun Hls Hlen.
  apply (run_history (tunnel_step QueryService) (fun ls t => Forall (fun l => delivers l = true) ls ->
    len ls <= MaxInt64 -> inv ls t /\ tunnel_windows client_opts server_opts t /\ windows_exact t)).
  - intros _ _. split_and!; [by apply tunnel_start_inv|by apply start_windows|apply start_exact].
  - intros ls l t t' IH Hs [Hls Hl]%Forall_app Hlen. rewrite len_app in Hlen.
    change (len [l]) with 1 in Hlen. apply Forall_cons_1 in Hl as [Hl _].
    destruct (IH Hls ltac:(lia)) as (Hinv & Hw & Hex).
    split_and!; [eapply tunnel_inv_step; try done; lia|eapply tunnel_windows_step; try done; lia|].
    eapply exact_step; try done; lia.
Qed.

(** ** Nobody waits for one that waits *)

(** Both ends have the stream, and nothing is under way on the tunnel. *)
Record at_rest (t : tunnel) (id : Z) (vc : client_conf) (vs : stream_conf) : Prop := {
  ar_client : ch_objects (tn_channel t) !! id = Some vc;
  ar_server : ts_objects (tn_server t) !! id = Some vs;
  ar_in_table : in_table id (tn_channel t) = true;
  ar_active : ts_result (tn_server t) = None /\ id ∈ ts_streams (tn_server t);
  ar_up : going_up t = [];
  ar_down : going_down t = [];
}.

(** A call of [RecvMsg] waits for data; [ph] is where it is in its reads. *)
Definition handler_waits (vs : stream_conf) (ph : read_phase) : Prop :=
  sc_reading vs = Some ph /\ phase_resumed ph = true /\
  snd (dequeue request_measure (ss_receiver (sc_str vs))) = DequeueWait.
Definition caller_waits (vc : client_conf) (ph : read_phase) : Prop :=
  cc_reading vc = Some ph /\ phase_resumed ph = true /\
  snd (dequeue response_measure (cs_receiver (cc_str vc))) = DequeueWait.

(** The waiting read has been given all that is in the [frames] of its stream.  Of the
    messages [given] to [SendMsg], those of which there is a frame have been returned by
    [reads] or are in the hands of the read that waits, but for at most one; these
    messages and the bytes that the read holds are all the data of the frames; and if a
    message is missing, the bytes are a part of it that is not all of it, so that it
    was not sent to its end. *)
Definition has_read_all {T} `{DataFrame T} (given : list bytes) (frames : list T)
    (reads : list read_return) (ph : read_phase) : Prop :=
  exists ds unfinished, (ds ++ unfinished) `sublist_of` given /\
    count starts_message frames = len (ds ++ unfinished) /\
    messages_read reads ++ phase_message ph = ds /\
    data_bytes frames = concat ds ++ rv_b (phase_vars ph) /\
    in_hand (phase_vars ph) unfinished.

(** *** The windows *)
Lemma rest_windows ls t id vc vs :
  Forall (fun l => delivers l = true) ls -> len ls <= MaxInt64 ->
  run (tunnel_step QueryService) ls start = Some t -> at_rest t id vc vs ->
  (waits (cs_send (cc_str vc)) ->
   snd (dequeue request_measure (ss_receiver (sc_str vs))) <> DequeueWait) /\
  (waits (ss_send (sc_str vs)) ->
   snd (dequeue response_measure (cs_receiver (cc_str vc))) <> DequeueWait).
Proof.
  intros Hls Hlen Hrun [Hvc Hvs Htab [Hres Hact] Hup Hdown].
  destruct (exact_run ls t Hls Hlen Hrun) as (Hinv & [Hs Hc _ _] & Hex). destruct (Hex id) as [E1 E2].
  destruct (sv_objects _ _ Hs _ _ Hvs) as ((Ho & Hr & Hrecv) & _ & Hclosed).
  destruct (cv_objects _ _ _ Hc _ _ Hvc) as (Ko & Kr & Krecv).
  pose proof (ti_channel _ _ _ _ _ _ Hinv) as Hcinv.
  destruct (ni_table _ _ Hcinv id Htab) as (vc' & Hvc' & Hdone). assert (vc' = vc) as -> by congruence.
  pose proof (opts_window _ Hso) as [HWs HWs']. pose proof (opts_window _ Hco) as [HWc HWc'].
  pose proof (oo_window _ Hso) as [Hms _]. pose proof (oo_window _ Hco) as [Hmc _].
  assert (Hcl : client_lists (tn_channel t) id).
  { split; [|by rewrite Hvc]. unfold in_table in Htab. by destruct (ch_streams (tn_channel t)). }
  assert (Hsl : server_lists (tn_server t) id) by (split; [done|by rewrite Hvs]).
  unfold up_exact, down_exact in E1, E2. rewrite Hup, Hdown in E1, E2. simpl in E1, E2. rewrite Hvc, Hvs in E1, E2.
  unfold up_data, up_credit, down_data, down_credit, weigh in E1, E2. simpl in E1, E2.
  change overhead with 5 in *. unfold minInitialWindowSize in *. split; intros Hwait Hd.
  - destruct (reader_room request_measure Ws _ (measure_nonneg (H := request_data_frame) request_measure request_measure_view)
      HWs' Hrecv ltac:(lia) Hd) as [Hroom Hopen].
    assert (Hun : unclosed vs).
    { unfold unclosed. destruct (ss_halfClosed (sc_str vs)) eqn:Eh; [|done].
      by rewrite (Hclosed ltac:(by rewrite Eh)) in Hopen. }
    specialize (E1 Hcl (conj Hsl (conj Hun Hopen))).
    destruct (ob_inv _ _ _ (ni_objects _ _ Hcinv id vc Hvc)) as (V & ov & _ & _ & Hov & Hk).
    destruct (ki_send _ _ _ _ Hk) as (lk & Hlk). pose proof (inv_ov _ _ _ _ _ Hlk) as Eov.
    pose proof (waits_starved _ _ _ _ _ Hov Hlk Hwait). lia.
  - destruct (reader_room response_measure Wc _ (measure_nonneg (H := response_data_frame) response_measure response_measure_view)
      HWc' Krecv ltac:(lia) Hd) as [Hroom Hopen].
    specialize (E2 Hsl (conj Hcl (conj Hdone Hopen))).
    destruct (ti_server _ _ _ _ _ _ Hinv) as (lss & Hran).
    destruct (server_behind QueryService reverse server_opts server_ctx Hso lss t _ Hcinv Hran) as (Hsinv & _).
    destruct (vi_objects _ Hsinv id vs Hvs) as (V & ov & _ & _ & Hov & Hk).
    destruct (si_send _ _ _ _ Hk) as (lk & Hlk). pose proof (inv_ov _ _ _ _ _ Hlk) as Eov.
    pose proof (waits_starved _ _ _ _ _ Hov Hlk Hwait). lia.
Qed.

(** *** The data *)
Lemma arrived {A} n (ms : list A) : drop n ms = [] -> take n ms = ms.
Proof. intros Hd. rewrite <- (take_drop n ms) at 2. by rewrite Hd, app_nil_r. Qed.

Lemma waiting_reader {T} (measure : T -> Z * bool) W r :
  (forall f, 0 <= fst (measure f)) -> W <= MaxUint32 -> recv_inv measure W r ->
  snd (dequeue measure r) = DequeueWait -> r_cancelled r = false /\ r_closed r = false /\ r_items r = [].
Proof.
  intros Hm HW Hinv Hd.
  destruct (dequeue_cases measure Hm W r HW Hinv)
    as [(_ & E)|[(Hc & Hi & E)|(f & rest & u & _ & _ & _ & _ & E)]]; rewrite E in Hd; simpl in Hd; try done.
  by destruct (r_closed r).
Qed.

Lemma rest_data ls t id vc vs :
  Forall (fun l => delivers l = true) ls -> len ls <= MaxInt64 ->
  run (tunnel_step QueryService) ls start = Some t -> at_rest t id vc vs ->
  (forall ph, handler_waits vs ph ->
     has_read_all (requests_given ls id) (requests_of id (ch_wire (tn_channel t))) (sc_reads vs) ph) /\
  (forall ph, caller_waits vc ph ->
     has_read_all (responses_given ls id) (frames_of id (ts_wire (tn_server t))) (cc_reads vc) ph).
Proof.
  intros Hls Hlen Hrun [Hvc Hvs Htab [Hres Hact] Hup Hdown].
  destruct (tunnel_data_run QueryService reverse secure client_opts server_opts client_ctx server_ctx Hco Hso
    ls t Hls Hlen Hrun) as (Hinv & [Hsd Hcd _]).
  destruct (exact_run ls t Hls Hlen Hrun) as (_ & [Hs Hc _ _] & _).
  destruct (sv_objects _ _ Hs _ _ Hvs) as ((_ & _ & Hrecv) & _).
  destruct (cv_objects _ _ _ Hc _ _ Hvc) as (_ & _ & Krecv).
  pose proof (opts_window _ Hso) as [_ HWs]. pose proof (opts_window _ Hco) as [_ HWc].
  pose proof (ti_channel _ _ _ _ _ _ Hinv) as Hcinv.
  destruct (ti_server _ _ _ _ _ _ Hinv) as (lss & Hran).
  destruct (server_behind QueryService reverse server_opts server_ctx Hso lss t _ Hcinv Hran) as (Hsinv & _).
  pose proof (sd_objects _ _ _ Hsd id vs Hvs) as Hslog. pose proof (kd_objects _ _ _ Hcd id vc Hvc) as Hclog.
  pose proof (ob_id _ _ _ (ni_objects _ _ Hcinv id vc Hvc)) as Hid.
  rewrite (arrived _ _ Hup), (kd_wire _ _ _ Hcd id), Hvc in Hslog.
  rewrite (arrived _ _ Hdown), (server_sent _ id Hsinv), Hvs in Hclog by lia.
  unfold has_read_all.
  rewrite <- (starts_data (requests_of _ _)), <- (starts_data (frames_of _ _)),
    <- (bytes_data (requests_of _ _)), <- (bytes_data (frames_of _ _)).
  fold (data_up (ch_wire (tn_channel t)) id). fold (data_down (ts_wire (tn_server t)) id).
  rewrite (kd_wire _ _ _ Hcd id), (server_sent _ id Hsinv), Hvc, Hvs by lia. split; intros ph (Hph & Hr & Hd).
  - destruct (waiting_reader request_measure _ _ (measure_nonneg (H := request_data_frame) request_measure request_measure_view)
      HWs Hrecv Hd) as (R1 & R2 & R3).
    assert (E : reading_phase (server_view vs) = ph) by (unfold reading_phase; simpl; by rewrite Hph).
    rewrite <- E. apply (end_logs_complete _ _ _ _ _ _ _ Hslog Hclog); try done; [by rewrite E|].
    simpl. apply (vi_active _ Hsinv) in Hact as (v & Hv & Hno). congruence.
  - destruct (waiting_reader response_measure _ _ (measure_nonneg (H := response_data_frame) response_measure response_measure_view)
      HWc Krecv Hd) as (R1 & R2 & R3).
    assert (E : reading_phase (client_view_as (in_table id (tn_channel t) = false) vc) = ph)
      by (unfold reading_phase; simpl; by rewrite Hph).
    rewrite <- E. apply (end_logs_complete _ _ _ _ _ _ _ Hclog Hslog); try done; [by rewrite E|].
    simpl. by rewrite Htab.
Qed.

(** No call on a tunnel waits for what was sent.  For all options of the two ends
    and under every interleaving of all streams: when what was sent has arrived and
    both ends still have the stream, a call of [RecvMsg] that waits, of the handler or
    of the caller, has been given all the data in the frames that the other end has
    sent on the stream: the messages read, the one in hand and the bytes that the read
    holds are all of it, and what it holds of a message is less than the message, so
    that no message that was sent to its end is missing; and no [SendMsg] of the other
    end waits for its window, so the two never wait for each other.  Nothing is lost for data or windows
    by frames of other streams, refused RPCs, small updates that are held back, or
    updates that come while a chunk is being cut. *)
Theorem tunnel_progress ls t id vc vs :
  Forall (fun l => delivers l = true) ls -> len ls <= MaxInt64 ->
  run (tunnel_step QueryService) ls start = Some t -> at_rest t id vc vs ->
  (forall ph, handler_waits vs ph -> ~ waits (cs_send (cc_str vc)) /\
     has_read_all (requests_given ls id) (requests_of id (ch_wire (tn_channel t))) (sc_reads vs) ph) /\
  (forall ph, caller_waits vc ph -> ~ waits (ss_send (sc_str vs)) /\
     has_read_all (responses_given ls id) (frames_of id (ts_wire (tn_server t))) (cc_reads vc) ph).
Proof.
  intros Hls Hlen Hrun Hrest. destruct (rest_windows ls t id vc vs Hls Hlen Hrun Hrest) as [W1 W2].
  destruct (rest_data ls t id vc vs Hls Hlen Hrun Hrest) as [D1 D2].
  split; intros ph Hw; pose proof Hw as (_ & _ & Hd); (split; [|auto]); intros Hwait.
  - by apply W1.
  - by apply W2.
Qed.
End Progress.

(** ** Example: a message that is larger than the window *)
Module ProgressExample.
#[local] Existing Instance ExampleStatus.lib.
#[local] Existing Instance ExampleMetadata.lib.
#[local] Existing Instance ExampleAppend.lib.

Definition opts : tunnelOpts := initOptions zero_options [WithInitialWindowSize 1024].
Definition start : tunnel := tunnel_start false false opts opts None None.
Definition at_end (ls : list tunnel_label) : tunnel :=
  default start (run (tunnel_step TunnelServerExample.services) ls start).
Definition message : bytes := repeat Corelib.Init.Byte.x41 1500.
Definition sends (ls : list send_label) : list tunnel_label := (fun l => AtChannel (KStream 1 (CSend l))) <$> ls.

(** The caller has sent the first chunk and waits; the chunk has arrived. *)
Definition waiting : list tunnel_label :=
  [AtChannel KStart; AtServer (TPosted 0); Down;
   AtChannel (KNewStream (TunnelExample.args "/svc/Get")); AtChannel (KSendNew None);
   AtChannel (KStream 1 (CSendMsg (inr message)))] ++ sends [LLoad; LCas; LCall None; LLoad] ++ [Up false; Up false].

(** The handler reads it, and the update arrives. *)
Definition refilled : list tunnel_label := waiting ++ [AtServer (TStream 1 FRecv); Down].

(** The caller wakes and sends the rest. *)
Definition resumed : list tunnel_label :=
  refilled ++ [AtChannel (KStream 1 CUpdatePost)] ++
  sends [LWake; LLoad; LCas; LCall None; LReturn] ++
  [AtChannel (KStream 1 (CCloseSend None)); Up false; Up false; AtServer (TStream 1 FRecv)].

Lemma opts_fine : opts_ok opts.
Proof. apply initOptions_ok. vm_compute. repeat split; congruence. Qed.

Definition no_caller : client_conf :=
  unwatched (make_client_stream (tn_channel start) (MkSettings [] 0) 1 (TunnelExample.args "")).
Definition no_handler : stream_conf :=
  stream_start (make_stream opts None 1 (MkNewStream "" None 1024 REVISION_TWO) "" (UnaryMethod "")).
Definition caller (ls : list tunnel_label) : client_conf := default no_caller (ch_objects (tn_channel (at_end ls)) !! 1).
Definition handler (ls : list tunnel_label) : stream_conf := default no_handler (ts_objects (tn_server (at_end ls)) !! 1).

Example message_read : sc_reads (handler resumed) = [ReadReturn (Some message) true None].
Proof. vm_compute. reflexivity. Qed.
End ProgressExample.

(** The handler waits for the rest of the message, whose first chunk it has read. *)
Lemma tunnel_progress_witness :
  exists ph, handler_waits (ProgressExample.handler ProgressExample.refilled) ph /\
    ~ waits (cs_send (cc_str (ProgressExample.caller ProgressExample.refilled))) /\
    has_read_all (requests_given ProgressExample.refilled 1)
      (requests_of 1 (ch_wire (tn_channel (ProgressExample.at_end ProgressExample.refilled)))) [] ph.
Proof.
  eexists. assert (Hw : handler_waits (ProgressExample.handler ProgressExample.refilled) _)
    by (split; [vm_compute; reflexivity|split; vm_compute; reflexivity]).
  split; [exact Hw|].
  refine (proj1 (tunnel_progress (H := ExampleStatus.lib) (H1 := ExampleAppend.lib)
    TunnelServerExample.services false false ProgressExample.opts ProgressExample.opts None None
    ProgressExample.opts_fine ProgressExample.opts_fine
    ProgressExample.refilled (ProgressExample.at_end ProgressExample.refilled) 1
    (ProgressExample.caller ProgressExample.refilled) (ProgressExample.handler ProgressExample.refilled)
    ltac:(repeat constructor) ltac:(vm_compute; congruence) ltac:(vm_compute; reflexivity) _) _ Hw).
  split; [vm_compute; reflexivity|vm_compute; reflexivity|vm_compute; reflexivity| |vm_compute; reflexivity|vm_compute; reflexivity].
  split; [vm_compute; reflexivity|]. apply (bool_decide_unpack _). vm_compute. exact I.
Defined.
