(* ===== verification/ReverseChannels.v ===== *)
(** * Reverse tunnels of a handler

    [reverseChannels] of handler.go, the tables in which [TunnelServiceHandler]
    keeps its reverse tunnels (all of them, and by affinity key), and the
    goroutines that change them: one [openReverseTunnel] per tunnel, and the calls
    of [unregister] that closing a channel makes at any time.

    A channel is named by a number (its pointer), an affinity key is any value
    with decidable equality. *)
From stdpp Require Import gmap sets.
From S2P Require Import Prelude.

(** ** reverseChannels *)
Section ReverseChannels.
Context {K : Type} `{Countable K}.

(** [avail] is the [rc_avail]-th channel that was made; [rc_closed] holds those that
    have been closed, for goroutines that got an earlier one. *)
Record reverseChannels := RC {
  rc_avail : nat;
  rc_closed : gset nat;
  rc_chans : list (Z * K);
  rc_idx : Z;
}.

Definition newReverseChannels : reverseChannels := RC 0 ∅ [] 0.

Definition allChans (c : reverseChannels) : list Z := fst <$> rc_chans c.

(** A nil receiver is [None] in [pickKey].  The second result is [None] when nothing is
    ready, where the code returns nil, and when the index is outside of the list, where it
    panics: see [picked_from]. *)
Definition pick (c : reverseChannels) : reverseChannels * option Z :=
  match rc_chans c with
  | [] => (c, None)
  | _ =>
      let idx := rc_idx c + 1 in
      let idx := if idx >=? len (rc_chans c) then 0 else idx in
      (RC (rc_avail c) (rc_closed c) (rc_chans c) idx, fst <$> rc_chans c !! Z.to_nat idx)
  end.

(** No result when [close(c.avail)] panics because it is closed already. *)
Definition add (ch : Z) (key : K) (c : reverseChannels) : option reverseChannels :=
  let chans := rc_chans c ++ [(ch, key)] in
  if len chans =? 1 then
    if bool_decide (rc_avail c ∈ rc_closed c) then None
    else Some (RC (rc_avail c) ({[rc_avail c]} ∪ rc_closed c) chans (rc_idx c))
  else Some (RC (rc_avail c) (rc_closed c) chans (rc_idx c)).

Fixpoint remove_chan (ch : Z) (l : list (Z * K)) : option (K * list (Z * K)) :=
  match l with
  | [] => None
  | (ch', key) :: l =>
      if ch' =? ch then Some (key, l)
      else match remove_chan ch l with
           | Some (k, l') => Some (k, (ch', key) :: l')
           | None => None
           end
  end.

Definition remove (ch : Z) (c : reverseChannels) : reverseChannels * option K :=
  match remove_chan ch (rc_chans c) with
  | Some (key, chans) =>
      (RC (match chans with [] => S (rc_avail c) | _ => rc_avail c end) (rc_closed c) chans (rc_idx c),
       Some key)
  | None => (c, None)
  end.

Definition ready (c : reverseChannels) : bool := len (rc_chans c) >? 0.

(** [waitForReady], for a goroutine that has read [avail] earlier: whether it can
    go on. *)
Definition wait_ready (avail : nat) (c : reverseChannels) : bool :=
  bool_decide (avail ∈ rc_closed c).

(** ** Its invariant *)
Record rc_ok (c : reverseChannels) : Prop := {
  ro_nodup : NoDup (allChans c);
  ro_avail : rc_avail c ∈ rc_closed c <-> rc_chans c <> [];
  ro_old : forall g, (g < rc_avail c)%nat -> g ∈ rc_closed c;
  ro_new : forall g, g ∈ rc_closed c -> (g <= rc_avail c)%nat;
  ro_idx : 0 <= rc_idx c;
}.

Lemma newReverseChannels_ok : rc_ok newReverseChannels.
Proof.
  split; try done; [constructor|intros g Hg; simpl in Hg; lia].
Qed.

Lemma remove_chan_some ch l key l' :
  remove_chan ch l = Some (key, l') ->
  exists pre post, l = pre ++ (ch, key) :: post /\ l' = pre ++ post.
Proof.
  revert l'. induction l as [|[ch' k'] l IH]; intros l' Hr; simpl in Hr; [done|].
  destruct (Z.eqb_spec ch' ch) as [->|Hne]; [injection Hr as -> ->; by exists [], l'|].
  destruct (remove_chan ch l) as [[k1 l1]|]; [|done]. injection Hr as -> <-.
  destruct (IH l1 eq_refl) as (pre & post & -> & ->). by exists ((ch', k') :: pre), post.
Qed.

Lemma remove_chan_none ch l : remove_chan ch l = None -> ch ∉ (fst <$> l).
Proof.
  induction l as [|[ch' k'] l IH]; intros Hr; simpl in *; [by intros ?%elem_of_nil|].
  destruct (Z.eqb_spec ch' ch) as [->|Hne]; [done|].
  destruct (remove_chan ch l) as [[k1 l1]|]; [done|].
  intros [->|Hin]%elem_of_cons; [done|by apply IH].
Qed.

(** What is left of the table after a removal. *)
Lemma remove_spec ch c :
  rc_ok c -> let (c', key) := remove ch c in
  rc_ok c' /\ (ch ∉ allChans c') /\
  (forall e, e ∈ rc_chans c' <-> e ∈ rc_chans c /\ fst e <> ch) /\
  match key with Some k => (ch, k) ∈ rc_chans c | None => ch ∉ allChans c end.
Proof.
  intros [H1 H2 H3 H4 H5]. unfold remove. destruct (remove_chan ch (rc_chans c)) as [[key l]|] eqn:Hr.
  - apply remove_chan_some in Hr as (pre & post & Hl & ->).
    unfold allChans in *. rewrite Hl in H1, H2. rewrite fmap_app, fmap_cons in H1.
    apply NoDup_app in H1 as (N1 & N2 & [N3 N4]%NoDup_cons). simpl in N2, N3.
    assert (Hpre : ch ∉ (fst <$> pre)) by (intros Hin; by apply (N2 ch Hin), list_elem_of_here).
    assert (Hnot : ch ∉ (fst <$> pre ++ post)) by (rewrite fmap_app; by intros [?|?]%elem_of_app).
    split_and!.
    + split; simpl; try done.
      * unfold allChans. simpl. rewrite fmap_app. apply NoDup_app. split_and!; [done| |done].
        intros x Hx Hx'. by apply (N2 x Hx), list_elem_of_further.
      * destruct (pre ++ post) eqn:E; [|split; [done|intros _; apply H2; by destruct pre]].
        split; [|done]. intros Hin. specialize (H4 _ Hin). lia.
      * intros g Hg. destruct (pre ++ post); [|by apply H3].
        destruct (decide (g = rc_avail c)) as [->|]; [apply H2; by destruct pre|]. apply H3. lia.
      * intros g Hg. specialize (H4 g Hg). destruct (pre ++ post); lia.
    + done.
    + intros e. simpl. rewrite Hl, !elem_of_app, elem_of_cons. split.
      * intros He. split; [tauto|]. intros <-. apply Hnot. rewrite fmap_app, elem_of_app.
        destruct He; [left|right]; by apply list_elem_of_fmap_2.
      * intros [[?|[->|?]] Hne]; [by left|done|by right].
    + rewrite Hl. apply elem_of_app. right. apply list_elem_of_here.
  - pose proof (remove_chan_none _ _ Hr) as Hnot. split_and!; [by split|done| |done].
    intros e. split; [|by intros [? _]]. intros He. split; [done|]. intros <-.
    apply Hnot. by apply list_elem_of_fmap_2.
Qed.

(** An addition never panics, and makes every waiting goroutine go on. *)
Lemma add_spec ch key c :
  rc_ok c -> ch ∉ allChans c ->
  exists c', add ch key c = Some c' /\ rc_ok c' /\
    (forall e, e ∈ rc_chans c' <-> e ∈ rc_chans c \/ e = (ch, key)).
Proof.
  intros [H1 H2 H3 H4 H5] Hnew. unfold add. rewrite len_app. change (len [(ch, key)]) with 1.
  assert (Hnd : NoDup (fst <$> rc_chans c ++ [(ch, key)])).
  { rewrite fmap_app. apply NoDup_app. split_and!; [done| |apply NoDup_singleton].
    intros x Hx Hx'. apply list_elem_of_singleton in Hx'. simpl in Hx'. by subst x. }
  assert (Hel : forall e, e ∈ rc_chans c ++ [(ch, key)] <-> e ∈ rc_chans c \/ e = (ch, key))
    by (intros e; by rewrite elem_of_app, list_elem_of_singleton).
  destruct (rc_chans c) as [|e0 l] eqn:Hl.
  - rewrite bool_decide_false by (by intros ?%H2). simpl. eexists. split_and!; [done| |done].
    split; simpl; try done.
    + split; [done|]. intros _. apply elem_of_union. left. by apply elem_of_singleton.
    + intros g Hg. apply elem_of_union. right. by apply H3.
    + intros g [->%elem_of_singleton|Hg]%elem_of_union; [done|by apply H4].
  - pose proof (len_nonneg l). rewrite len_cons.
    destruct (Z.eqb_spec (1 + len l + 1) 1); [lia|]. eexists. split_and!; [done| |done].
    split; simpl; try done. split; [done|]. intros _. by apply H2.
Qed.

Lemma pick_ok c : rc_ok c -> rc_ok (fst (pick c)) /\ rc_chans (fst (pick c)) = rc_chans c.
Proof.
  intros Hok. assert (Hidx : forall idx, 0 <= idx ->
    rc_ok (RC (rc_avail c) (rc_closed c) (rc_chans c) idx)) by (intros; destruct Hok; by split).
  pose proof (ro_idx _ Hok). destruct c as [avail closed [|e l] idx]; [done|]. cbn [pick rc_chans rc_idx].
  split; [|done]. apply Hidx. simpl in *. destruct (_ >=? _); lia.
Qed.

(** ** Round robin *)
Fixpoint picks (n : nat) (c : reverseChannels) : reverseChannels * list Z :=
  match n with
  | O => (c, [])
  | S n =>
      let (c, ch) := pick c in
      let (c, chs) := picks n c in (c, option_list ch ++ chs)
  end.

Definition next_idx (c : reverseChannels) : nat :=
  Z.to_nat (if rc_idx c + 1 >=? len (rc_chans c) then 0 else rc_idx c + 1).

Definition set_idx (idx : Z) (c : reverseChannels) : reverseChannels :=
  RC (rc_avail c) (rc_closed c) (rc_chans c) idx.

Lemma pick_next c :
  0 <= rc_idx c -> rc_chans c <> [] ->
  (next_idx c < length (rc_chans c))%nat /\
  pick c = (set_idx (Z.of_nat (next_idx c)) c, allChans c !! next_idx c).
Proof.
  intros Hidx Hne. unfold pick, next_idx, set_idx, allChans, len. rewrite list_lookup_fmap.
  destruct (rc_chans c) as [|e l]; [done|]. cbn [length].
  destruct (Z.geb_spec (rc_idx c + 1) (Z.of_nat (S (length l)))); split; try lia; [done|].
  by rewrite Z2Nat.id by lia.
Qed.

Lemma next_set idx c :
  next_idx (set_idx idx c) = Z.to_nat (if idx + 1 >=? len (rc_chans c) then 0 else idx + 1).
Proof. done. Qed.

Lemma picks_run n c :
  0 <= rc_idx c -> rc_chans c <> [] -> (next_idx c + n <= length (rc_chans c))%nat ->
  rc_chans (fst (picks n c)) = rc_chans c /\ 0 <= rc_idx (fst (picks n c)) /\
  snd (picks n c) = take n (drop (next_idx c) (allChans c)) /\
  next_idx (fst (picks n c))
    = (if decide (next_idx c + n = length (rc_chans c)) then 0 else next_idx c + n)%nat.
Proof.
  revert c. induction n as [|n IH]; intros c Hidx Hne Hn.
  - destruct (pick_next c Hidx Hne) as [Hlt _]. split_and!; [done|done|done|].
    simpl. destruct (decide _); lia.
  - destruct (pick_next c Hidx Hne) as [Hlt Hp]. simpl. rewrite Hp.
    destruct (lookup_lt_is_Some_2 (allChans c) (next_idx c)) as [x Hx].
    { unfold allChans. by rewrite length_fmap. }
    set (c1 := set_idx _ c). assert (Hc1 : rc_chans c1 = rc_chans c) by done.
    assert (Hnext : next_idx c1 = (if decide (S (next_idx c) = length (rc_chans c)) then 0 else S (next_idx c))%nat).
    { unfold c1. rewrite next_set. unfold len.
      destruct (Z.geb_spec (Z.of_nat (next_idx c) + 1) (Z.of_nat (length (rc_chans c))));
        destruct (decide _); lia. }
    rewrite (drop_S _ _ _ Hx), Hx. destruct n as [|n].
    { simpl. split_and!; [done|lia|done|]. rewrite Hnext, Nat.add_1_r. done. }
    rewrite decide_False in Hnext by lia.
    destruct (IH c1) as (I1 & I2 & I3 & I4); [simpl; lia|done|rewrite Hnext; simpl; lia|].
    destruct (picks (S n) c1) as [c2 chs]. simpl in *. split_and!; [done|done| |].
    + by rewrite I3, Hnext.
    + rewrite I4, Hnext. by replace (S (next_idx c) + S n)%nat with (next_idx c + S (S n))%nat by lia.
Qed.

Lemma picks_app n m c :
  picks (n + m) c
  = (fst (picks m (fst (picks n c))), snd (picks n c) ++ snd (picks m (fst (picks n c)))).
Proof.
  revert c. induction n as [|n IH]; intros c; simpl; [by destruct (picks m c)|].
  destruct (pick c) as [c1 ch]. rewrite IH. destruct (picks n c1) as [c2 chs]. simpl.
  by rewrite app_assoc.
Qed.

(** RPCs over reverse tunnels are balanced: while no tunnel comes or goes, as
    many consecutive picks as there are tunnels choose every tunnel exactly once,
    in a cyclic order. *)
Theorem pick_round_robin c :
  rc_ok c -> rc_chans c <> [] ->
  snd (picks (length (rc_chans c)) c) = drop (next_idx c) (allChans c) ++ take (next_idx c) (allChans c) /\
  snd (picks (length (rc_chans c)) c) ≡ₚ allChans c.
Proof.
  intros Hok Hne. pose proof (ro_idx _ Hok) as Hidx. destruct (pick_next c Hidx Hne) as [Hlt _].
  assert (Heq : snd (picks (length (rc_chans c)) c)
    = drop (next_idx c) (allChans c) ++ take (next_idx c) (allChans c)).
  { replace (length (rc_chans c)) with ((length (rc_chans c) - next_idx c) + next_idx c)%nat by lia.
    rewrite picks_app. simpl.
    destruct (picks_run (length (rc_chans c) - next_idx c) c Hidx Hne ltac:(lia)) as (I1 & I2 & I3 & I4).
    rewrite decide_True in I4 by lia. set (c1 := fst (picks (length (rc_chans c) - next_idx c) c)) in *.
    assert (Hne1 : rc_chans c1 <> []) by (by rewrite I1).
    destruct (picks_run (next_idx c) c1 I2 Hne1 ltac:(rewrite I1, I4; lia)) as (_ & _ & J3 & _).
    rewrite I3, J3, I4. unfold allChans. rewrite I1. simpl. f_equal.
    apply take_ge. rewrite length_drop, length_fmap. lia. }
  split; [done|]. rewrite Heq, Permutation_app_comm. by rewrite take_drop.
Qed.
End ReverseChannels.
Arguments reverseChannels : clear implicits.

(** ** The tables of a handler *)
Section Registry.
Context {K : Type} `{Countable K}.

(** Where the goroutine of [openReverseTunnel] is, once the tunnel is established
    and has its key: before each call that changes a table, while it waits for
    the channel to be done, and in its deferred calls. *)
Inductive open_pc :=
  | OAddAll | OForKey | OAddKey | OWait | ORemoveKey | ORemoveAll | OReturned.

Record reverse_conf := ReverseConf {
  h_reverse : reverseChannels K;
  h_byKey : gmap K (reverseChannels K);
  h_tunnels : gmap Z (open_pc * K);      (** every goroutine that got that far *)
  h_done : gset Z;                       (** channels whose context is done *)
  h_unregistered : gset Z;               (** channels on which [close] was called *)
  h_removing : list (Z * K);             (** calls of [unregister] in their second half *)
  h_panicked : bool;
}.

Definition registry_start : reverse_conf := ReverseConf newReverseChannels ∅ ∅ ∅ ∅ [] false.

Definition hset_all (c : reverseChannels K) (h : reverse_conf) : reverse_conf :=
  ReverseConf c (h_byKey h) (h_tunnels h) (h_done h) (h_unregistered h) (h_removing h) (h_panicked h).
Definition hset_keys (m : gmap K (reverseChannels K)) (h : reverse_conf) : reverse_conf :=
  ReverseConf (h_reverse h) m (h_tunnels h) (h_done h) (h_unregistered h) (h_removing h) (h_panicked h).
Definition hset_pc (ch : Z) (pc : open_pc) (key : K) (h : reverse_conf) : reverse_conf :=
  ReverseConf (h_reverse h) (h_byKey h) (<[ch := (pc, key)]> (h_tunnels h)) (h_done h)
    (h_unregistered h) (h_removing h) (h_panicked h).
Definition hset_closing (done unregistered : gset Z) (removing : list (Z * K)) (h : reverse_conf)
    : reverse_conf :=
  ReverseConf (h_reverse h) (h_byKey h) (h_tunnels h) done unregistered removing (h_panicked h).
Definition hpanic (h : reverse_conf) : reverse_conf :=
  ReverseConf (h_reverse h) (h_byKey h) (h_tunnels h) (h_done h) (h_unregistered h) (h_removing h) true.

(** [reverseChannelsForKey]: the table of a key, which is made at most once. *)
Definition reverseChannelsForKey (key : K) (h : reverse_conf) : reverse_conf :=
  match h_byKey h !! key with
  | Some _ => h
  | None => hset_keys (<[key := newReverseChannels]> (h_byKey h)) h
  end.

Definition on_key (key : K) (f : reverseChannels K -> reverseChannels K) (h : reverse_conf)
    : reverse_conf := hset_keys (alter f key (h_byKey h)) h.

(** The next call of [openReverseTunnel]. *)
Definition openReverseTunnel (ch : Z) (h : reverse_conf) : option reverse_conf :=
  match h_tunnels h !! ch with
  | Some (OAddAll, key) =>
      match add ch key (h_reverse h) with
      | Some c => Some (hset_pc ch OForKey key (hset_all c h))
      | None => Some (hpanic h)
      end
  | Some (OForKey, key) => Some (hset_pc ch OAddKey key (reverseChannelsForKey key h))
  | Some (OAddKey, key) =>
      match h_byKey h !! key with
      | Some rc =>
          match add ch key rc with
          | Some rc => Some (hset_pc ch OWait key (hset_keys (<[key := rc]> (h_byKey h)) h))
          | None => Some (hpanic h)
          end
      | None => Some (hpanic h)
      end
  | Some (OWait, key) =>
      if bool_decide (ch ∈ h_done h) then Some (hset_pc ch ORemoveKey key h) else None
  | Some (ORemoveKey, key) =>
      Some (hset_pc ch ORemoveAll key (on_key key (fun rc => fst (remove ch rc)) h))
  | Some (ORemoveAll, key) =>
      Some (hset_pc ch OReturned key (hset_all (fst (remove ch (h_reverse h))) h))
  | _ => None
  end.

(** [unregister] up to the second table. *)
Definition unregister_begin (ch : Z) (h : reverse_conf) : reverse_conf :=
  let (c, key) := remove ch (h_reverse h) in
  hset_closing (h_done h) ({[ch]} ∪ h_unregistered h)
    (h_removing h ++ match key with Some k => [(ch, k)] | None => [] end) (hset_all c h).

Definition unregister_end (i : nat) (h : reverse_conf) : option reverse_conf :=
  match h_removing h !! i with
  | Some (ch, key) =>
      Some (on_key key (fun rc => fst (remove ch rc))
        (hset_closing (h_done h) (h_unregistered h) (delete i (h_removing h)) h))
  | None => None
  end.

(** What an index of [pick] outside of the list does: [None] from a list that is not
    empty. *)
Definition picked_from (c : reverseChannels K) (ch : option Z) (h : reverse_conf) : reverse_conf :=
  match rc_chans c, ch with _ :: _, None => hpanic h | _, _ => h end.

Definition pickAll (h : reverse_conf) : reverse_conf * option Z :=
  let (c, ch) := pick (h_reverse h) in (picked_from (h_reverse h) ch (hset_all c h), ch).

Definition pickKey (key : K) (h : reverse_conf) : reverse_conf * option Z :=
  match h_byKey h !! key with
  | Some rc =>
      let (rc', ch) := pick rc in
      (picked_from rc ch (hset_keys (<[key := rc']> (h_byKey h)) h), ch)
  | None => (h, None)
  end.

Definition keyIsReady (key : K) (h : reverse_conf) : bool :=
  match h_byKey h !! key with Some rc => ready rc | None => false end.

Inductive reverse_label :=
  | HOpen (ch : Z) (key : K)       (** a reverse tunnel is established *)
  | HStep (ch : Z)
  | HDone (ch : Z)
  | HUnregister (ch : Z)
  | HUnregistered (i : nat)
  | HPick
  | HPickKey (key : K)
  | HWaitKey (key : K).            (** [waitForKeyReady] gets the table *)

Definition reverse_step (l : reverse_label) (h : reverse_conf) : option reverse_conf :=
  match l with
  | HOpen ch key =>
      match h_tunnels h !! ch with None => Some (hset_pc ch OAddAll key h) | Some _ => None end
  | HStep ch => openReverseTunnel ch h
  | HDone ch => Some (hset_closing ({[ch]} ∪ h_done h) (h_unregistered h) (h_removing h) h)
  | HUnregister ch => Some (unregister_begin ch h)
  | HUnregistered i => unregister_end i h
  | HPick => Some (fst (pickAll h))
  | HPickKey key => Some (fst (pickKey key h))
  | HWaitKey key => Some (reverseChannelsForKey key h)
  end.

Lemma picked_same c ch h :
  h_tunnels (picked_from c ch h) = h_tunnels h /\ h_done (picked_from c ch h) = h_done h /\
  h_unregistered (picked_from c ch h) = h_unregistered h.
Proof. unfold picked_from. by destruct (rc_chans c), ch. Qed.

Lemma pickAll_same h :
  h_tunnels (fst (pickAll h)) = h_tunnels h /\ h_done (fst (pickAll h)) = h_done h /\
  h_unregistered (fst (pickAll h)) = h_unregistered h.
Proof. unfold pickAll. destruct (pick _) as [c o]. exact (picked_same _ o (hset_all c h)). Qed.

Lemma pickKey_same key h :
  h_tunnels (fst (pickKey key h)) = h_tunnels h /\ h_done (fst (pickKey key h)) = h_done h /\
  h_unregistered (fst (pickKey key h)) = h_unregistered h.
Proof.
  unfold pickKey. destruct (h_byKey h !! key) as [rc|]; [|done]. destruct (pick rc) as [rc' o].
  exact (picked_same rc o (hset_keys (<[key := rc']> (h_byKey h)) h)).
Qed.

(** The index is never outside of the list. *)
Lemma picked_ok c h : rc_ok c -> picked_from c (snd (pick c)) h = h.
Proof.
  intros Hok. unfold picked_from. destruct (rc_chans c) as [|e l] eqn:Hl; [done|].
  destruct (pick_next c (ro_idx _ Hok)) as [Hlt ->]; [by rewrite Hl|]. simpl.
  destruct (lookup_lt_is_Some_2 (allChans c) (next_idx c)) as [x ->]; [|done].
  unfold allChans. by rewrite length_fmap.
Qed.

(** ** Invariant *)
Definition in_all (pc : open_pc) : bool :=
  match pc with OForKey | OAddKey | OWait | ORemoveKey | ORemoveAll => true | _ => false end.
Definition in_key (pc : open_pc) : bool :=
  match pc with OWait | ORemoveKey => true | _ => false end.
Definition has_key (pc : open_pc) : bool :=
  match pc with OAddKey | OWait | ORemoveKey => true | _ => false end.

Definition entries (key : K) (h : reverse_conf) : list (Z * K) :=
  match h_byKey h !! key with Some rc => rc_chans rc | None => [] end.

Record registry_inv (h : reverse_conf) : Prop := {
  hi_all_ok : rc_ok (h_reverse h);
  hi_key_ok : forall key rc, h_byKey h !! key = Some rc -> rc_ok rc;
  hi_all : forall ch key, (ch, key) ∈ rc_chans (h_reverse h) ->
    exists pc, h_tunnels h !! ch = Some (pc, key) /\ in_all pc = true;
  hi_key : forall ch key key', (ch, key') ∈ entries key h -> key' = key /\
    exists pc, h_tunnels h !! ch = Some (pc, key) /\ in_key pc = true;
  hi_live_all : forall ch pc key, h_tunnels h !! ch = Some (pc, key) -> in_all pc = true ->
    ch ∉ h_unregistered h -> (ch, key) ∈ rc_chans (h_reverse h);
  hi_live_key : forall ch pc key, h_tunnels h !! ch = Some (pc, key) -> in_key pc = true ->
    ch ∉ h_unregistered h -> (ch, key) ∈ entries key h;
  hi_table : forall ch pc key, h_tunnels h !! ch = Some (pc, key) -> has_key pc = true ->
    is_Some (h_byKey h !! key);
  hi_removing : forall e, e ∈ h_removing h -> fst e ∈ h_unregistered h;
  hi_safe : h_panicked h = false;
}.

Lemma registry_start_inv : registry_inv registry_start.
Proof.
  split; simpl; try done.
  - apply newReverseChannels_ok.
  - by intros ch key ?%elem_of_nil.
  - by intros ch key key' ?%elem_of_nil.
  - by intros e ?%elem_of_nil.
Qed.

Lemma entries_insert key k rc h :
  entries key (hset_keys (<[k := rc]> (h_byKey h)) h)
  = if decide (key = k) then rc_chans rc else entries key h.
Proof.
  unfold entries. simpl. destruct (decide (key = k)) as [->|Hne].
  - by rewrite lookup_insert_eq. - by rewrite lookup_insert_ne.
Qed.

(** Only the two tables change, and only where [ch] is concerned. *)
Definition at_pc (h : reverse_conf) (ch : Z) (pc : open_pc) (key : K) : Prop :=
  h_tunnels h !! ch = Some (pc, key).

Lemma set_pc_cases h ch pc key ch' pc' key' :
  at_pc (hset_pc ch pc key h) ch' pc' key' ->
  (ch' = ch /\ pc' = pc /\ key' = key) \/ (ch' <> ch /\ at_pc h ch' pc' key').
Proof.
  unfold at_pc. simpl. destruct (decide (ch' = ch)) as [->|Hne].
  - rewrite lookup_insert_eq. intros [= <- <-]. by left.
  - rewrite lookup_insert_ne by done. by right.
Qed.

Lemma set_pc_kept h ch pc key ch' pc' key' :
  at_pc h ch' pc' key' -> ch' <> ch -> at_pc (hset_pc ch pc key h) ch' pc' key'.
Proof. unfold at_pc. simpl. intros. by rewrite lookup_insert_ne. Qed.

Lemma set_pc_here h ch pc key : at_pc (hset_pc ch pc key h) ch pc key.
Proof. unfold at_pc. simpl. by rewrite lookup_insert_eq. Qed.

(** A goroutine of [openReverseTunnel] moves on. *)
Lemma inv_move h ch pc key pc' c m :
  registry_inv h -> at_pc h ch pc key ->
  rc_ok c -> (forall k rc, m !! k = Some rc -> rc_ok rc) ->
  (forall k, is_Some (h_byKey h !! k) -> is_Some (m !! k)) ->
  (forall e, fst e <> ch -> e ∈ rc_chans c <-> e ∈ rc_chans (h_reverse h)) ->
  (forall k, (ch, k) ∈ rc_chans c -> k = key /\ in_all pc' = true) ->
  (in_all pc' = true -> ch ∉ h_unregistered h -> (ch, key) ∈ rc_chans c) ->
  (let h' := hset_pc ch pc' key (hset_keys m (hset_all c h)) in
   (forall k e, fst e <> ch -> e ∈ entries k h' <-> e ∈ entries k h) /\
   (forall k k', (ch, k') ∈ entries k h' -> k' = k /\ k = key /\ in_key pc' = true) /\
   (in_key pc' = true -> ch ∉ h_unregistered h -> (ch, key) ∈ entries key h') /\
   (has_key pc' = true -> is_Some (m !! key))) ->
  registry_inv (hset_pc ch pc' key (hset_keys m (hset_all c h))).
Proof.
  intros [I1 I2 I3 I4 I5 I6 I7 I8 I9] Hpc Hc Hm Hdom Hall Hhere Hin Hkeys.
  set (h' := hset_pc ch pc' key (hset_keys m (hset_all c h))) in *.
  destruct Hkeys as (K1 & K2 & K3 & K4). split; try done.
  - intros ch' k Hk. simpl in Hk. destruct (decide (ch' = ch)) as [->|Hne].
    + destruct (Hhere k Hk) as [-> ?]. exists pc'. split; [apply set_pc_here|done].
    + apply Hall in Hk; [|done]. destruct (I3 _ _ Hk) as (p & Hp & ?). exists p.
      split; [by apply set_pc_kept|done].
  - intros ch' k k' Hk. destruct (decide (ch' = ch)) as [->|Hne].
    + destruct (K2 k k' Hk) as (-> & -> & ?). split; [done|]. exists pc'. split; [apply set_pc_here|done].
    + apply K1 in Hk; [|done]. destruct (I4 _ _ _ Hk) as (-> & p & Hp & ?). split; [done|].
      exists p. split; [by apply set_pc_kept|done].
  - intros ch' p k [(-> & -> & ->)|[Hne Hp]]%set_pc_cases Hia Hun; [by apply Hin|].
    simpl. apply Hall; [done|]. by eapply I5.
  - intros ch' p k [(-> & -> & ->)|[Hne Hp]]%set_pc_cases Hik Hun; [by apply K3|].
    apply K1; [done|]. by eapply I6.
  - intros ch' p k [(-> & -> & ->)|[Hne Hp]]%set_pc_cases Hhk; [by apply K4|].
    apply Hdom. by eapply I7.
Qed.

(** Before its addition and after its removal a tunnel is not in a table. *)
Lemma not_in_all h ch pc key k :
  registry_inv h -> at_pc h ch pc key -> in_all pc = false -> (ch, k) ∉ rc_chans (h_reverse h).
Proof.
  intros Hinv Hpc Hia Hin. destruct (hi_all _ Hinv _ _ Hin) as (p & Hp & ?).
  unfold at_pc in Hpc. simplify_eq. congruence.
Qed.

Lemma not_in_key h ch pc key k k' :
  registry_inv h -> at_pc h ch pc key -> in_key pc = false -> (ch, k') ∉ entries k h.
Proof.
  intros Hinv Hpc Hik Hin. destruct (hi_key _ Hinv _ _ _ Hin) as (_ & p & Hp & ?).
  unfold at_pc in Hpc. simplify_eq. congruence.
Qed.

Lemma not_listed ch (l : list (Z * K)) : (forall k, (ch, k) ∉ l) -> ch ∉ (fst <$> l).
Proof. intros Hno ([ch' k] & -> & Hin)%list_elem_of_fmap. by apply (Hno k). Qed.

Lemma entries_same k ch pc key c h :
  entries k (hset_pc ch pc key (hset_keys (h_byKey h) (hset_all c h))) = entries k h.
Proof. done. Qed.

(** The steps that leave the tables by key alone. *)
Lemma inv_move_all h ch pc key pc' c :
  registry_inv h -> at_pc h ch pc key -> rc_ok c ->
  (forall e, fst e <> ch -> e ∈ rc_chans c <-> e ∈ rc_chans (h_reverse h)) ->
  (forall k, (ch, k) ∈ rc_chans c -> k = key /\ in_all pc' = true) ->
  (in_all pc' = true -> ch ∉ h_unregistered h -> (ch, key) ∈ rc_chans c) ->
  in_key pc' = in_key pc -> (has_key pc' = true -> has_key pc = true) ->
  registry_inv (hset_pc ch pc' key (hset_all c h)).
Proof.
  intros Hinv Hpc Hc H1 H2 H3 Hik Hhk. pose proof Hinv as [_ I2 _ I4 _ I6 I7 _ _].
  change (hset_all c h) with (hset_keys (h_byKey h) (hset_all c h)).
  apply (inv_move h ch pc key); try done. cbv zeta. split_and!.
  - intros k e _. by rewrite entries_same.
  - intros k k' Hin. rewrite entries_same in Hin. destruct (I4 _ _ _ Hin) as (-> & p & Hp & ?).
    unfold at_pc in Hpc. simplify_eq. split_and!; try done. congruence.
  - intros Hk Hun. rewrite entries_same. eapply I6; [exact Hpc|congruence|done].
  - intros Hk. eapply I7; [exact Hpc|auto].
Qed.

(** The steps that leave the table of all tunnels alone. *)
Lemma inv_move_key h ch pc key pc' m :
  registry_inv h -> at_pc h ch pc key ->
  (forall k rc, m !! k = Some rc -> rc_ok rc) ->
  (forall k, is_Some (h_byKey h !! k) -> is_Some (m !! k)) ->
  in_all pc' = in_all pc ->
  (let h' := hset_keys m h in
   (forall k e, fst e <> ch -> e ∈ entries k h' <-> e ∈ entries k h) /\
   (forall k k', (ch, k') ∈ entries k h' -> k' = k /\ k = key /\ in_key pc' = true) /\
   (in_key pc' = true -> ch ∉ h_unregistered h -> (ch, key) ∈ entries key h') /\
   (has_key pc' = true -> is_Some (m !! key))) ->
  registry_inv (hset_pc ch pc' key (hset_keys m h)).
Proof.
  intros Hinv Hpc Hm Hdom Hia Hkeys. pose proof Hinv as [I1 _ I3 _ I5 _ _ _ _].
  apply (inv_move h ch pc key pc' (h_reverse h) m); try done.
  - intros k Hin. destruct (I3 _ _ Hin) as (p & Hp & ?). unfold at_pc in Hpc. simplify_eq.
    split; [done|congruence].
  - intros Hin Hun. eapply I5; [exact Hpc|congruence|done].
Qed.

Lemma key_rc_same k key rc rc' (m : gmap K (reverseChannels K)) :
  (forall k rc, m !! k = Some rc -> rc_ok rc) -> rc_ok rc' ->
  <[key := rc']> m !! k = Some rc -> rc_ok rc.
Proof. intros Hm Hrc' [[_ <-]|[_ Hk]]%lookup_insert_Some; [done|by eapply Hm]. Qed.

Lemma key_dom_same k key rc' (m : gmap K (reverseChannels K)) :
  is_Some (m !! k) -> is_Some (<[key := rc']> m !! k).
Proof. intros Hk. apply lookup_insert_is_Some'. by right. Qed.

Lemma inv_for_key h ch key :
  registry_inv h -> at_pc h ch OForKey key ->
  registry_inv (hset_pc ch OAddKey key (reverseChannelsForKey key h)).
Proof.
  intros Hinv Hpc. pose proof Hinv as [_ I2 _ _ _ _ _ _ _]. unfold reverseChannelsForKey.
  pose proof (fun k k' => not_in_key h ch _ _ k k' Hinv Hpc eq_refl) as Hno.
  destruct (h_byKey h !! key) as [rc|] eqn:Hrc.
  - apply (inv_move_key h ch OForKey key OAddKey (h_byKey h)); try done. cbv zeta. split_and!; try done.
    intros k k' Hin. by destruct (Hno k k').
  - apply (inv_move_key h ch OForKey); try done.
    + intros k rc'. by apply key_rc_same, newReverseChannels_ok.
    + intros k. by apply key_dom_same.
    + assert (Hent : forall k, entries k (hset_keys (<[key := newReverseChannels]> (h_byKey h)) h) = entries k h).
      { intros k. rewrite entries_insert. destruct (decide (k = key)) as [->|]; [|done].
        unfold entries. by rewrite Hrc. }
      cbv zeta. split_and!; try done.
      * intros k e _. by rewrite Hent.
      * intros k k' Hin. rewrite Hent in Hin. by destruct (Hno k k').
      * intros _. rewrite lookup_insert_eq. by eexists.
Qed.

Lemma inv_add_key h ch key rc :
  registry_inv h -> at_pc h ch OAddKey key -> h_byKey h !! key = Some rc ->
  exists rc', add ch key rc = Some rc' /\
    registry_inv (hset_pc ch OWait key (hset_keys (<[key := rc']> (h_byKey h)) h)).
Proof.
  intros Hinv Hpc Hrc. pose proof Hinv as [_ I2 _ _ _ _ _ _ _].
  pose proof (fun k k' => not_in_key h ch _ _ k k' Hinv Hpc eq_refl) as Hno.
  assert (Hent : entries key h = rc_chans rc) by (unfold entries; by rewrite Hrc).
  destruct (add_spec ch key rc (I2 _ _ Hrc)) as (rc' & Hadd & Hok & Hel).
  { apply not_listed. intros k. rewrite <- Hent. apply Hno. }
  exists rc'. split; [done|]. apply (inv_move_key h ch OAddKey); try done.
  - intros k rc0. by apply key_rc_same.
  - intros k. by apply key_dom_same.
  - cbv zeta. split_and!.
    + intros k e He. rewrite entries_insert. destruct (decide (k = key)) as [->|]; [|done].
      rewrite Hel, Hent. split; [|by left]. by intros [?| ->].
    + intros k k'. rewrite entries_insert. destruct (decide (k = key)) as [->|].
      * intros [Hin| [= ->]]%Hel; [|done]. rewrite <- Hent in Hin. by destruct (Hno key k').
      * intros Hin. by destruct (Hno k k').
    + intros _ _. rewrite entries_insert, decide_True by done. apply Hel. by right.
    + intros _. rewrite lookup_insert_eq. by eexists.
Qed.

(** Removal from the table of a key. *)
Lemma entries_on_key k key ch h :
  (forall k rc, h_byKey h !! k = Some rc -> rc_ok rc) ->
  (forall e, e ∈ entries k (on_key key (fun rc => fst (remove ch rc)) h) <->
     e ∈ entries k h /\ (k = key -> fst e <> ch)) /\
  forall rc, alter (fun rc => fst (remove ch rc)) key (h_byKey h) !! k = Some rc -> rc_ok rc.
Proof.
  intros Hok. unfold entries, on_key. simpl. destruct (decide (k = key)) as [->|Hne].
  - rewrite lookup_alter_eq. destruct (h_byKey h !! key) as [rc|] eqn:Hrc; simpl.
    + pose proof (remove_spec ch rc (Hok _ _ Hrc)) as Hrem. destruct (remove ch rc) as [rc' o].
      destruct Hrem as (R1 & R2 & R3 & R4). simpl. split; [|by intros rc0 [= <-]].
      intros e. rewrite R3. split; [by intros [? ?]|]. intros [? Hf]. split; [done|by apply Hf].
    + split; [|done]. intros e. split; [by intros ?%elem_of_nil|by intros [?%elem_of_nil _]].
  - rewrite lookup_alter_ne by done. split; [|by apply Hok]. intros e. split; [done|by intros [? _]].
Qed.

Lemma alter_dom k key f (m : gmap K (reverseChannels K)) : is_Some (m !! k) -> is_Some (alter f key m !! k).
Proof.
  intros [rc Hk]. destruct (decide (k = key)) as [->|Hne].
  - rewrite lookup_alter_eq, Hk. by eexists. - rewrite lookup_alter_ne, Hk by done. by eexists.
Qed.

Lemma inv_remove_key h ch key :
  registry_inv h -> at_pc h ch ORemoveKey key ->
  registry_inv (hset_pc ch ORemoveAll key (on_key key (fun rc => fst (remove ch rc)) h)).
Proof.
  intros Hinv Hpc. pose proof Hinv as [_ I2 _ I4 _ _ _ _ _]. unfold on_key.
  apply (inv_move_key h ch ORemoveKey); try done.
  - intros k. apply (entries_on_key k key ch h I2).
  - intros k. apply alter_dom.
  - cbv zeta. split_and!; try done.
    + intros k e He. destruct (entries_on_key k key ch h I2) as [Hel _]. unfold on_key in Hel.
      rewrite Hel. split; [by intros [? _]|done].
    + intros k k' Hin. destruct (entries_on_key k key ch h I2) as [Hel _]. unfold on_key in Hel.
      apply Hel in Hin as [Hin Hne]. destruct (I4 _ _ _ Hin) as (-> & p & Hp & _).
      unfold at_pc in Hpc. simplify_eq. by destruct Hne.
Qed.

Lemma inv_openReverseTunnel ch h h' :
  registry_inv h -> openReverseTunnel ch h = Some h' -> registry_inv h'.
Proof.
  intros Hinv. pose proof Hinv as [I1 I2 I3 I4 I5 I6 I7 I8 I9]. unfold openReverseTunnel.
  destruct (h_tunnels h !! ch) as [[pc key]|] eqn:Hpc; [|done].
  destruct pc; try done.
  - pose proof (fun k => not_in_all h ch _ _ k Hinv Hpc eq_refl) as Hno.
    destruct (add_spec ch key (h_reverse h) I1 (not_listed _ _ Hno)) as (c & -> & Hc & Hel).
    intros [= <-]. apply (inv_move_all h ch OAddAll); try done.
    + intros e He. rewrite Hel. split; [|by left]. by intros [?| ->].
    + intros k [?| [= ->]]%Hel; [by destruct (Hno k)|done].
    + intros _ _. apply Hel. by right.
  - intros [= <-]. by apply inv_for_key.
  - destruct (I7 _ _ _ Hpc eq_refl) as [rc Hrc]. rewrite Hrc.
    destruct (inv_add_key h ch key rc Hinv Hpc Hrc) as (rc' & -> & Hinv'). by intros [= <-].
  - destruct (bool_decide _); [|done]. intros [= <-].
    apply (inv_move_all h ch OWait key ORemoveKey (h_reverse h)); try done.
    + intros k Hin. destruct (I3 _ _ Hin) as (p & Hp & ?). by simplify_eq.
    + intros _ Hun. by eapply I5.
  - intros [= <-]. by apply inv_remove_key.
  - intros [= <-]. pose proof (remove_spec ch (h_reverse h) I1) as Hrem.
    destruct (remove ch (h_reverse h)) as [c o]. destruct Hrem as (R1 & R2 & R3 & _). simpl.
    apply (inv_move_all h ch ORemoveAll); try done.
    + intros e He. rewrite R3. split; [by intros [? _]|done].
    + intros k [_ Hne]%R3. by destruct Hne.
Qed.

(** Changes by others: entries only go for channels that were closed. *)
Lemma inv_tables h c m done unreg removing :
  registry_inv h -> rc_ok c -> (forall k rc, m !! k = Some rc -> rc_ok rc) ->
  (forall k, is_Some (h_byKey h !! k) -> is_Some (m !! k)) -> h_unregistered h ⊆ unreg ->
  (forall e, e ∈ rc_chans c -> e ∈ rc_chans (h_reverse h)) ->
  (forall e, e ∈ rc_chans (h_reverse h) -> fst e ∉ unreg -> e ∈ rc_chans c) ->
  (forall k e, e ∈ entries k (hset_keys m h) -> e ∈ entries k h) ->
  (forall k e, e ∈ entries k h -> fst e ∉ unreg -> e ∈ entries k (hset_keys m h)) ->
  (forall e, e ∈ removing -> fst e ∈ unreg) ->
  registry_inv (hset_closing done unreg removing (hset_keys m (hset_all c h))).
Proof.
  intros [I1 I2 I3 I4 I5 I6 I7 I8 I9] Hc Hm Hdom Hsub A1 A2 K1 K2 Hrem.
  split; try done.
  - intros ch k Hin. by apply I3, A1.
  - intros ch k k' Hin. by apply I4, K1.
  - intros ch pc k Hp Hia Hun. apply A2; [|done]. eapply I5; [exact Hp|done|]. intros Hin. by apply Hun, Hsub.
  - intros ch pc k Hp Hik Hun. apply K2; [|done]. eapply I6; [exact Hp|done|]. intros Hin. by apply Hun, Hsub.
  - intros ch pc k Hp Hhk. by apply Hdom; eapply I7.
Qed.

Lemma inv_unregister_begin ch h : registry_inv h -> registry_inv (unregister_begin ch h).
Proof.
  intros Hinv. pose proof Hinv as [I1 I2 _ _ _ _ _ I8 _]. unfold unregister_begin.
  pose proof (remove_spec ch (h_reverse h) I1) as Hrem.
  destruct (remove ch (h_reverse h)) as [c key]. destruct Hrem as (R1 & R2 & R3 & R4).
  assert (Hch : ch ∈ {[ch]} ∪ h_unregistered h) by (apply elem_of_union; left; by apply elem_of_singleton).
  apply (inv_tables h c (h_byKey h)); try done.
  - by apply union_subseteq_r.
  - by intros e [? _]%R3.
  - intros e He Hun. apply R3. split; [done|]. by intros Heq; rewrite Heq in Hun.
  - intros e [He|He]%elem_of_app; [apply elem_of_union; right; by apply I8|].
    destruct key as [k|]; [|by apply elem_of_nil in He].
    apply list_elem_of_singleton in He as ->. done.
Qed.

Lemma inv_unregister_end i h h' :
  registry_inv h -> unregister_end i h = Some h' -> registry_inv h'.
Proof.
  intros Hinv. pose proof Hinv as [I1 I2 _ _ _ _ _ I8 _]. unfold unregister_end.
  destruct (h_removing h !! i) as [[ch key]|] eqn:Hi; [|done]. intros [= <-].
  assert (Hch : ch ∈ h_unregistered h) by (apply (I8 (ch, key)); by eapply list_elem_of_lookup_2).
  pose proof (fun k => entries_on_key k key ch h I2) as Hon. unfold on_key in *. simpl.
  pose proof (fun k => alter_dom k key (fun rc => fst (remove ch rc)) (h_byKey h)) as Hdom.
  set (m := alter _ key (h_byKey h)) in *.
  apply (inv_tables h (h_reverse h) m (h_done h) (h_unregistered h) (delete i (h_removing h))); try done.
  - intros k. apply (Hon k).
  - by intros k e [? _]%(proj1 (Hon k)).
  - intros k e He Hun. apply (proj1 (Hon k)). split; [done|]. by intros _ Heq; rewrite Heq in Hun.
  - intros e He. apply I8. by eapply list_elem_of_delete_inv.
Qed.

Lemma inv_pick h : registry_inv h -> registry_inv (fst (pickAll h)).
Proof.
  intros Hinv. pose proof Hinv as [I1 I2 _ _ _ _ _ I8 _].
  destruct (pick_ok _ I1) as [Hok E]. unfold pickAll. rewrite (surjective_pairing (pick _)).
  rewrite (picked_ok _ _ I1). simpl.
  apply (inv_tables h (fst (pick (h_reverse h))) (h_byKey h) (h_done h) (h_unregistered h)
    (h_removing h)); try done; intros e; by rewrite E.
Qed.

Lemma inv_set_key key rc h :
  registry_inv h -> rc_ok rc -> rc_chans rc = entries key h ->
  registry_inv (hset_keys (<[key := rc]> (h_byKey h)) h).
Proof.
  intros Hinv Hrc E. pose proof Hinv as [I1 I2 _ _ _ _ _ I8 _].
  assert (Hent : forall k, entries k (hset_keys (<[key := rc]> (h_byKey h)) h) = entries k h).
  { intros k. rewrite entries_insert. by destruct (decide (k = key)) as [->|]. }
  apply (inv_tables h (h_reverse h) _ (h_done h) (h_unregistered h) (h_removing h)); try done.
  - intros k rc'. by apply key_rc_same.
  - intros k. by apply key_dom_same.
  - intros k e. by rewrite Hent.
  - intros k e He _. by rewrite Hent.
Qed.

Lemma registry_inv_step l h h' : registry_inv h -> reverse_step l h = Some h' -> registry_inv h'.
Proof.
  intros Hinv. pose proof Hinv as [I1 I2 I3 I4 I5 I6 I7 I8 I9].
  destruct l as [ch key|ch|ch|ch|i| |key|key]; cbn [reverse_step].
  - destruct (h_tunnels h !! ch) eqn:Hch; [done|]. intros [= <-].
    assert (Hnew : forall ch' pc k, at_pc h ch' pc k -> at_pc (hset_pc ch OAddAll key h) ch' pc k).
    { intros ch' pc k Hp. apply set_pc_kept; [done|]. intros ->. unfold at_pc in Hp. congruence. }
    split; try done.
    + intros ch' k Hin. destruct (I3 _ _ Hin) as (p & Hp & ?).
      exists p. split; [by apply Hnew|done].
    + intros ch' k k' Hin. destruct (I4 _ _ _ Hin) as (? & p & Hp & ?).
      split; [done|]. exists p. split; [by apply Hnew|done].
    + intros ch' p k [(-> & -> & ->)|[_ Hp]]%set_pc_cases; [done|by eapply I5].
    + intros ch' p k [(-> & -> & ->)|[_ Hp]]%set_pc_cases; [done|by eapply I6].
    + intros ch' p k [(-> & -> & ->)|[_ Hp]]%set_pc_cases; [done|by eapply I7].
  - by apply inv_openReverseTunnel.
  - intros [= <-]. by apply (inv_tables h (h_reverse h) (h_byKey h) _ (h_unregistered h) (h_removing h)).
  - intros [= <-]. by apply inv_unregister_begin.
  - by apply inv_unregister_end.
  - intros [= <-]. by apply inv_pick.
  - intros [= <-]. unfold pickKey. destruct (h_byKey h !! key) as [rc|] eqn:Hrc; [|done].
    destruct (pick_ok rc (I2 _ _ Hrc)) as [Hok E]. rewrite (surjective_pairing (pick rc)).
    rewrite (picked_ok _ _ (I2 _ _ Hrc)). apply inv_set_key; [done|done|]. unfold entries. by rewrite Hrc.
  - intros [= <-]. unfold reverseChannelsForKey. destruct (h_byKey h !! key) as [rc|] eqn:Hrc; [done|].
    apply inv_set_key; [done|apply newReverseChannels_ok|]. unfold entries. by rewrite Hrc.
Qed.

Lemma registry_run_inv ls h : run reverse_step ls registry_start = Some h -> registry_inv h.
Proof. apply run_invariant; [apply registry_start_inv|]. intros. by eapply registry_inv_step. Qed.

Lemma entries_nodup h key : registry_inv h -> NoDup (fst <$> entries key h).
Proof.
  intros Hinv. unfold entries. destruct (h_byKey h !! key) as [rc|] eqn:Hrc; [|constructor].
  exact (ro_nodup _ (hi_key_ok _ Hinv _ _ Hrc)).
Qed.

(** C32: The tables of reverse tunnels are exact, under every interleaving of
    tunnels that come and go, of closings (several for one channel, before,
    during or after its registration) and of picks.  No table holds a tunnel twice, and a
    tunnel is in the table of at most one key.  A tunnel that waits and was not closed is in
    the table of all tunnels and in that of its key; a table of a key holds tunnels with that
    key only; a tunnel whose [openReverseTunnel] has returned is in no table.  And nothing
    panics: no [avail] channel is ever closed twice, the table of a key is there when a
    tunnel is added to it, and the index of [pick] is never outside of its list. *)
Theorem reverse_tables_exact ls h :
  run reverse_step ls registry_start = Some h ->
  NoDup (allChans (h_reverse h)) /\ (forall key, NoDup (fst <$> entries key h)) /\
  (forall ch key1 key2, ch ∈ (fst <$> entries key1 h) -> ch ∈ (fst <$> entries key2 h) -> key1 = key2) /\
  (forall ch key, h_tunnels h !! ch = Some (OWait, key) -> ch ∉ h_unregistered h ->
     ch ∈ allChans (h_reverse h) /\ (ch, key) ∈ entries key h) /\
  (forall ch key key', (ch, key') ∈ entries key h ->
     exists pc, h_tunnels h !! ch = Some (pc, key) /\ pc <> OReturned) /\
  (forall ch key, h_tunnels h !! ch = Some (OReturned, key) ->
     (ch ∉ allChans (h_reverse h)) /\ forall k k', (ch, k') ∉ entries k h) /\
  h_panicked h = false.
Proof.
  intros Hrun. pose proof (registry_run_inv ls h Hrun) as Hinv. split_and!.
  - apply (ro_nodup _ (hi_all_ok _ Hinv)).
  - intros key. by apply entries_nodup.
  - intros ch key1 key2 ([c1 k1] & -> & Hin1)%list_elem_of_fmap ([c2 k2] & Hc & Hin2)%list_elem_of_fmap.
    simpl in *. subst c2. destruct (hi_key _ Hinv _ _ _ Hin1) as (_ & p1 & Hp1 & _).
    destruct (hi_key _ Hinv _ _ _ Hin2) as (_ & p2 & Hp2 & _). by simplify_eq.
  - intros ch key Hp Hun. split; [|by eapply (hi_live_key _ Hinv)].
    apply (list_elem_of_fmap_2' fst _ (ch, key)); [|done]. by eapply (hi_live_all _ Hinv).
  - intros ch key key' Hin. destruct (hi_key _ Hinv _ _ _ Hin) as (_ & pc & Hp & Hik).
    exists pc. split; [done|]. by intros ->.
  - intros ch key Hp. split; [|by intros k k'; eapply (not_in_key h ch OReturned key)].
    apply not_listed. intros k. by eapply (not_in_all h ch OReturned key).
  - apply Hinv.
Qed.

(** Waiting for a key works: once a goroutine of [waitForKeyReady] has read
    [avail], it goes on if a tunnel with that key is registered, and it waits only
    while none has been registered since. *)
Theorem wait_for_ready_exact ls h key rc :
  run reverse_step ls registry_start = Some h -> h_byKey h !! key = Some rc ->
  (forall g, (g < rc_avail rc)%nat -> wait_ready g rc = true) /\
  (wait_ready (rc_avail rc) rc = true <-> ready rc = true) /\
  (ready rc = true <-> keyIsReady key h = true /\ is_Some (snd (pickKey key h))).
Proof.
  intros Hrun Hrc. pose proof (registry_run_inv ls h Hrun) as Hinv.
  pose proof (hi_key_ok _ Hinv _ _ Hrc) as Hok. unfold wait_ready, keyIsReady, pickKey. rewrite Hrc.
  rewrite (surjective_pairing (pick rc)).
  assert (Hready : ready rc = true <-> rc_chans rc <> []).
  { unfold ready. destruct (rc_chans rc) as [|e l]; [done|]. rewrite len_cons.
    pose proof (len_nonneg l). split; [done|]. intros _. apply Z.gtb_lt. lia. }
  split_and!.
  - intros g Hg. apply bool_decide_eq_true. by apply (ro_old _ Hok).
  - rewrite bool_decide_eq_true, (ro_avail _ Hok). by rewrite Hready.
  - split; [|by intros [? _]]. intros Hr. split; [done|]. apply Hready in Hr.
    destruct (pick_next rc (ro_idx _ Hok) Hr) as [Hlt ->]. simpl.
    apply lookup_lt_is_Some. unfold allChans. by rewrite length_fmap.
Qed.
End Registry.
Arguments reverse_conf K {_ _}.

(** ** Examples: two tunnels with one key, one of which is closed. *)
Module ReverseExample.
Definition start : reverse_conf string := registry_start.
Definition at_end (ls : list reverse_label) : reverse_conf string :=
  default start (run reverse_step ls start).
Definition opening (ch : Z) : list reverse_label :=
  [HOpen ch "blue"%string; HStep ch; HStep ch; HStep ch].
Definition both : list reverse_label := HWaitKey "blue"%string :: opening 1 ++ opening 2.
Definition one_left : list reverse_label :=
  both ++ [HUnregister 1; HDone 1; HStep 1; HUnregistered 0; HStep 1; HStep 1].
Definition picked : list reverse_label := both ++ [HPick; HPick; HPick; HPickKey "blue"%string].
Definition blue (ls : list reverse_label) : reverseChannels string :=
  default newReverseChannels (h_byKey (at_end ls) !! "blue"%string).

Lemma blue_ok : rc_ok (blue both).
Proof.
  apply (hi_key_ok (at_end both)) with (key := "blue"%string); [|by vm_compute].
  apply (registry_run_inv both). by vm_compute.
Qed.
End ReverseExample.

Lemma pick_round_robin_witness :
  snd (picks (length (rc_chans (ReverseExample.blue ReverseExample.both)))
         (ReverseExample.blue ReverseExample.both)) = [2; 1].
Proof.
  exact (proj1 (pick_round_robin (ReverseExample.blue ReverseExample.both) ReverseExample.blue_ok
    ltac:(vm_compute; discriminate))).
Defined.

Lemma reverse_tables_exact_witness :
  allChans (h_reverse (ReverseExample.at_end ReverseExample.picked)) = [1; 2] /\
  NoDup (allChans (h_reverse (ReverseExample.at_end ReverseExample.picked))) /\
  1 ∈ allChans (h_reverse (ReverseExample.at_end ReverseExample.picked)) /\
  h_panicked (ReverseExample.at_end ReverseExample.picked) = false.
Proof.
  destruct (reverse_tables_exact ReverseExample.picked
    (ReverseExample.at_end ReverseExample.picked) ltac:(vm_compute; reflexivity))
    as (N1 & _ & _ & W & _ & _ & P).
  split; [vm_compute; reflexivity|]. split; [exact N1|]. split; [|exact P].
  apply (W 1 "blue"%string); [vm_compute; reflexivity|]. by apply (bool_decide_unpack _).
Defined.

Lemma wait_for_ready_exact_witness :
  wait_ready (rc_avail (ReverseExample.blue ReverseExample.both)) (ReverseExample.blue ReverseExample.both) = true
  <-> ready (ReverseExample.blue ReverseExample.both) = true.
Proof.
  exact (proj1 (proj2 (wait_for_ready_exact ReverseExample.both (ReverseExample.at_end ReverseExample.both)
    "blue"%string (ReverseExample.blue ReverseExample.both)
    ltac:(vm_compute; reflexivity) ltac:(vm_compute; reflexivity)))).
Defined.
