(* ===== verification/ReverseServer.v ===== *)
(** * Reverse tunnel servers

    [ReverseTunnelServer] of reverse_server.go: the calls of [Serve], each of which
    opens and runs one tunnel, and those of [Stop] and [GracefulStop], which wait
    for them.  A call of [Serve] goes through the establishment of Options.v, and
    then runs the server of Served.v on a stream that is wrapped as in
    SafeStream.v, whose calls are atomic.

    A call of [Serve], its tunnel and its stream are named by a number, and so are
    the calls of [Stop] and [GracefulStop].  [Stop] holds the server's mutex while
    it closes the streams one after the other. *)
From stdpp Require Import gmap sets.
From S2P Require Import Prelude Status Protocol SafeStream Options ServerStream TunnelServer Served.

(** ** State *)
Inductive server_state := stateActive | stateClosing | stateClosed.

(** The order of the constants. *)
Definition state_num (s : server_state) : Z :=
  match s with stateActive => 0 | stateClosing => 1 | stateClosed => 2 end.

(** Where a call of [Serve] is: in [OpenReverseTunnel], before [est.done] with its
    error, in [Header], before [est.done] with its result, before [addInstance], in
    [serveTunnel], before the deferred [wg.Done], before the deferred
    [est.release], or returned. *)
Inductive serve_pc :=
  | SvOpen | SvOpenFailed (err : error)
  | SvHeader | SvDone (res : error + MD)
  | SvAdd (md : MD)
  | Serving
  | SvEnd (err : option error)
  | SvRelease (started : bool) (err : option error)
  | ServeReturned (started : bool) (err : option error).

(** The stream counts from [addInstance] on. *)
Record serve_call := ServeCall {
  sv_pc : serve_pc;
  sv_est : est_conf;
  sv_stream : wrapped ServerToClient ClientToServer;
  sv_tunnel : option served;
}.

(** A call of [Stop] or [GracefulStop]: closing the streams that are left (only
    [Stop]), in [wg.Wait], or returned. *)
Inductive stop_pc := Closing (todo : gset Z) | Waiting | Stopped.

Record reverse_server := ReverseServer {
  rs_state : server_state;
  rs_mu : option Z;                     (** the call of [Stop] that holds the mutex *)
  rs_instances : gset Z;
  rs_wg : Z;
  rs_serves : gmap Z serve_call;
  rs_stops : gmap Z stop_pc;
}.

Definition NewReverseTunnelServer : reverse_server := ReverseServer stateActive None ∅ 0 ∅ ∅.

Definition isClosing (s : reverse_server) : bool := state_num (rs_state s) >=? state_num stateClosing.
Definition isClosed (s : reverse_server) : bool := state_num (rs_state s) >=? state_num stateClosed.

Definition mu_free (s : reverse_server) : bool := match rs_mu s with None => true | Some _ => false end.

Definition shutting_down : error := Errorf Unavailable "%s is shutting down" [AStr (fst (tunnelRoles true))].

Definition addInstance (i : Z) (s : reverse_server) : reverse_server * option error :=
  if isClosing s then (s, Some shutting_down)
  else (ReverseServer (rs_state s) (rs_mu s) ({[i]} ∪ rs_instances s) (rs_wg s + 1) (rs_serves s)
          (rs_stops s), None).

Definition set_serve (i : Z) (c : serve_call) (s : reverse_server) : reverse_server :=
  ReverseServer (rs_state s) (rs_mu s) (rs_instances s) (rs_wg s) (<[i := c]> (rs_serves s)) (rs_stops s).
Definition set_stop (j : Z) (pc : stop_pc) (s : reverse_server) : reverse_server :=
  ReverseServer (rs_state s) (rs_mu s) (rs_instances s) (rs_wg s) (rs_serves s) (<[j := pc]> (rs_stops s)).
Definition set_state (st : server_state) (s : reverse_server) : reverse_server :=
  ReverseServer st (rs_mu s) (rs_instances s) (rs_wg s) (rs_serves s) (rs_stops s).
Definition set_mu (mu : option Z) (s : reverse_server) : reverse_server :=
  ReverseServer (rs_state s) mu (rs_instances s) (rs_wg s) (rs_serves s) (rs_stops s).

Definition at_pc (pc : serve_pc) (c : serve_call) : serve_call :=
  ServeCall pc (sv_est c) (sv_stream c) (sv_tunnel c).

(** ** Serve *)
Section Serve.
Context `{StatusLib} `{MetadataLib} (QueryService : string -> option ServiceDesc) (opts : tunnelOpts).

(** [Serve] up to the call of [OpenReverseTunnel]. *)
Definition Serve_begin : serve_call :=
  ServeCall SvOpen (est_start (establishmentTimeout opts) (snd (tunnelRoles true))) wrapper_start None.

(** A step of the establishment. *)
Definition with_est (l : est_label) (pc : est_conf -> serve_pc) (c : serve_call) : option serve_call :=
  match est_step l (sv_est c) with
  | Some e => Some (ServeCall (pc e) e (sv_stream c) (sv_tunnel c))
  | None => None
  end.

(** What [est.done] has returned. *)
Definition done_result (e : est_conf) : option error := default None (ec_done e).

Definition Serve_done (c : serve_call) : option serve_call :=
  match sv_pc c with
  | SvOpenFailed err => with_est (EDone (Some err)) (fun e => SvRelease false (done_result e)) c
  | SvDone (inl err) => with_est (EDone (Some err)) (fun e => SvRelease false (done_result e)) c
  | SvDone (inr md) =>
      with_est (EDone None)
        (fun e => match done_result e with Some err => SvRelease false (Some err) | None => SvAdd md end) c
  | _ => None
  end.

(** Wrapping the stream, [addInstance], and [serveTunnel] up to its loop. *)
Definition Serve_add (i : Z) (ctxErr : option error) (md : MD) (c : serve_call) (s : reverse_server)
    : reverse_server :=
  let clientAcceptsSettings := negotiated (md_Get md grpctunnelNegotiateKey) in
  match addInstance i s with
  | (s, Some err) => set_serve i (at_pc (SvRelease false (Some err)) c) s
  | (s, None) =>
      set_serve i (ServeCall Serving (sv_est c) wrapper_start
        (Some (served_start clientAcceptsSettings true opts ctxErr))) s
  end.

(** The messages that an action of the tunnel gives to [Send]. *)
Definition send_all (ms : list ServerToClient) (h : wrapped ServerToClient ClientToServer)
    : wrapped ServerToClient ClientToServer := foldl (fun h m => fst (SendMsg m None h)) h ms.

Definition serve_tunnel_step (closing : bool) (l : served_label) (c : serve_call) : option serve_call :=
  match sv_tunnel c with
  | Some d =>
      match served_step QueryService closing l d with
      | Some d' =>
          Some (ServeCall (sv_pc c) (sv_est c)
            (send_all (drop (length (ts_wire (sd_server d))) (ts_wire (sd_server d'))) (sv_stream c)) (Some d'))
      | None => None
      end
  | None => None
  end.

(** The error that [Serve] reports; [ctxErr] is that of the context given to it.
    [errors.Is] finds [context.Canceled] itself, not a status with that code. *)
Definition Serve_error (ctxErr : option error) (closed : bool) (err : option error) : option error :=
  match err with
  | Some e =>
      if is_ContextCanceled e && match ctxErr with None => true | Some _ => false end && closed
      then None else err
  | None => None
  end.

(** [isClosed] is only called, and waits for the mutex, when it matters. *)
Definition asks_closed (ctxErr : option error) (err : option error) : bool :=
  match err, ctxErr with Some e, None => is_ContextCanceled e | _, _ => false end.

(** ** Stop and GracefulStop *)

(** [Stop] up to its loop: it keeps the mutex until all streams are closed. *)
Definition Stop_begin (j : Z) (s : reverse_server) : reverse_server :=
  match rs_state s with
  | stateClosed => set_stop j Waiting s
  | _ => set_mu (Some j) (set_stop j (Closing (rs_instances s)) (set_state stateClosed s))
  end.

(** One round of the loop, and its end. *)
Definition Stop_close (j i : Z) (err : option error) (s : reverse_server) : option reverse_server :=
  match rs_stops s !! j, rs_serves s !! i with
  | Some (Closing todo), Some c =>
      if bool_decide (i ∈ todo) then
        Some (set_stop j (Closing (todo ∖ {[i]}))
          (set_serve i (ServeCall (sv_pc c) (sv_est c) (fst (CloseSend err (sv_stream c))) (sv_tunnel c)) s))
      else None
  | _, _ => None
  end.

Definition Stop_unlock (j : Z) (s : reverse_server) : option reverse_server :=
  match rs_stops s !! j with
  | Some (Closing todo) => if bool_decide (todo = ∅) then Some (set_mu None (set_stop j Waiting s)) else None
  | _ => None
  end.

Definition GracefulStop_begin (j : Z) (s : reverse_server) : reverse_server :=
  match rs_state s with
  | stateActive => set_stop j Waiting (set_state stateClosing s)
  | _ => set_stop j Waiting s
  end.

(** ** All of them together *)
Inductive call_label :=
  | SvOpened (err : option error)            (** [OpenReverseTunnel] returns *)
  | SvHeaders (res : error + MD)             (** [Header] returns *)
  | SvEstDone
  | SvExpire | SvFunc                        (** the timer *)
  | SvTunnel (l : served_label)              (** but not [isClosing] *)
  | SvReleased.

(** The steps that concern only one call of [Serve]. *)
Definition call_step (l : call_label) (c : serve_call) : option serve_call :=
  match l, sv_pc c with
  | SvOpened None, SvOpen => Some (at_pc SvHeader c)
  | SvOpened (Some err), SvOpen => Some (at_pc (SvOpenFailed err) c)
  | SvHeaders res, SvHeader => Some (at_pc (SvDone res) c)
  | SvEstDone, _ => Serve_done c
  | SvExpire, pc => with_est EExpire (fun _ => pc) c
  | SvFunc, pc => with_est EFunc (fun _ => pc) c
  | SvTunnel SdIsClosing, _ => None
  | SvTunnel l, _ => serve_tunnel_step false l c
  | SvReleased, SvRelease started err => with_est ERelease (fun _ => ServeReturned started err) c
  | _, _ => None
  end.

Inductive rs_label :=
  | SServe (i : Z)
  | SCall (i : Z) (l : call_label)
  | SAdd (i : Z) (ctxErr : option error)
  | SIsClosing (i : Z)
  | SServed (i : Z) (ctxErr : option error)     (** [serveTunnel] has returned *)
  | SWgDone (i : Z)
  | SStop (j : Z) | SClose (j i : Z) (err : option error) | SUnlock (j : Z)
  | SGraceful (j : Z)
  | SWaited (j : Z).                            (** [wg.Wait] returns *)

Definition rs_step (l : rs_label) (s : reverse_server) : option reverse_server :=
  match l with
  | SServe i =>
      match rs_serves s !! i with None => Some (set_serve i Serve_begin s) | Some _ => None end
  | SCall i l =>
      match rs_serves s !! i with
      | Some c => match call_step l c with Some c => Some (set_serve i c s) | None => None end
      | None => None
      end
  | SAdd i ctxErr =>
      match rs_serves s !! i with
      | Some c =>
          match sv_pc c with
          | SvAdd md => if mu_free s then Some (Serve_add i ctxErr md c s) else None
          | _ => None
          end
      | None => None
      end
  | SIsClosing i =>
      match rs_serves s !! i with
      | Some c =>
          if mu_free s then
            match serve_tunnel_step (isClosing s) SdIsClosing c with
            | Some c => Some (set_serve i c s)
            | None => None
            end
          else None
      | None => None
      end
  | SServed i ctxErr =>
      match rs_serves s !! i with
      | Some c =>
          match sv_pc c, (d ← sv_tunnel c; ts_result (sd_server d)) with
          | Serving, Some err =>
              if asks_closed ctxErr err && negb (mu_free s) then None
              else Some (set_serve i (at_pc (SvEnd (Serve_error ctxErr (isClosed s) err)) c) s)
          | _, _ => None
          end
      | None => None
      end
  | SWgDone i =>
      match rs_serves s !! i with
      | Some c =>
          match sv_pc c with
          | SvEnd err =>
              let s := set_serve i (at_pc (SvRelease true err) c) s in
              Some (ReverseServer (rs_state s) (rs_mu s) (rs_instances s) (rs_wg s - 1) (rs_serves s) (rs_stops s))
          | _ => None
          end
      | None => None
      end
  | SStop j =>
      match rs_stops s !! j with
      | None => if mu_free s then Some (Stop_begin j s) else None
      | Some _ => None
      end
  | SClose j i err => Stop_close j i err s
  | SUnlock j => Stop_unlock j s
  | SGraceful j =>
      match rs_stops s !! j with
      | None => if mu_free s then Some (GracefulStop_begin j s) else None
      | Some _ => None
      end
  | SWaited j =>
      match rs_stops s !! j with
      | Some Waiting => if rs_wg s =? 0 then Some (set_stop j Stopped s) else None
      | _ => None
      end
  end.
End Serve.

(** ** Invariant *)

(** A call is in the wait group from [addInstance] to its deferred [wg.Done]: while it
    has a tunnel and has not come to an end with it.  A call that is still opening its
    RPC, or is past [wg.Done], is not. *)
Definition counted (c : serve_call) : Z := match sv_pc c with Serving | SvEnd _ => 1 | _ => 0 end.

Definition is_serving (pc : serve_pc) : bool :=
  match pc with Serving | SvEnd _ | SvRelease true _ | ServeReturned true _ => true | _ => false end.

Lemma counted_nonneg c : 0 <= counted c.
Proof. unfold counted. destruct (sv_pc c); lia. Qed.

Section Invariant.
Context `{StatusLib} `{MetadataLib} (QueryService : string -> option ServiceDesc) (opts : tunnelOpts).

Abbreviation limit := (establishmentTimeout opts).
Abbreviation peer := (snd (tunnelRoles true)).

Definition timeout_error : error := establishmentTimeoutError limit peer.

(** What one call of [Serve] has done so far; [failed] are the errors with which its
    RPC has failed. *)
Definition call_phase (failed : error -> Prop) (c : serve_call) : Prop :=
  match sv_pc c with
  | SvOpen | SvHeader | SvDone (inr _) => ec_done (sv_est c) = None
  | SvOpenFailed err | SvDone (inl err) => ec_done (sv_est c) = None /\ failed err
  | SvAdd _ => ec_done (sv_est c) = Some None
  | Serving => ec_done (sv_est c) = Some None
  | SvEnd err | SvRelease true err | ServeReturned true err =>
      ec_done (sv_est c) = Some None /\ exists d, sv_tunnel c = Some d /\ ts_result (sd_server d) <> None
  | SvRelease false (Some err) | ServeReturned false (Some err) =>
      (ec_done (sv_est c) = Some (Some err) /\
         (failed err \/ err = timeout_error /\ est_timer (ec_est (sv_est c)) = Some TimerExpired)) \/
      (ec_done (sv_est c) = Some None /\ err = shutting_down)
  | SvRelease false None | ServeReturned false None => False
  end.

Definition released (c : serve_call) : Prop :=
  match sv_pc c with ServeReturned _ _ => est_cause (ec_est (sv_est c)) <> None | _ => True end.

(** The tunnel of a call is one of TunnelServer.v, and the stream carries what it
    sends until it is closed. *)
Definition carries (c : serve_call) : Prop :=
  match sv_tunnel c with
  | None => is_serving (sv_pc c) = false /\ sv_stream c = wrapper_start
  | Some d =>
      is_serving (sv_pc c) = true /\
      (exists accepts ctxErr ls,
         run (server_step QueryService) ls (serveTunnel accepts true opts ctxErr) = Some (sd_server d)) /\
      w_sent (sv_stream c) `prefix_of` ts_wire (sd_server d) /\
      (w_closed (sv_stream c) = false -> w_sent (sv_stream c) = ts_wire (sd_server d))
  end.

Record call_inv (failed : error -> Prop) (c : serve_call) : Prop := {
  ci_est : est_inv limit peer (sv_est c);
  ci_phase : call_phase failed c;
  ci_released : released c;
  ci_carries : carries c;
}.

Lemma call_phase_weaken (P Q : error -> Prop) c : (forall e, P e -> Q e) -> call_phase P c -> call_phase Q c.
Proof.
  intros HPQ. unfold call_phase. destruct (sv_pc c) as [| | |[]| | | |[] []|[] []]; intuition auto.
Qed.

Lemma call_inv_weaken (P Q : error -> Prop) c : (forall e, P e -> Q e) -> call_inv P c -> call_inv Q c.
Proof. intros HPQ []. split; try done. by eapply call_phase_weaken. Qed.

Lemma call_inv_begin failed : call_inv failed (Serve_begin opts).
Proof. split; [apply est_inv_start|done|done|done]. Qed.

(** The establishment goes on by itself. *)
Lemma est_step_keeps l e e' :
  est_inv limit peer e -> est_step l e = Some e' -> (forall err, l <> EDone err) ->
  est_inv limit peer e' /\ ec_done e' = ec_done e /\
  (est_timer (ec_est e) = Some TimerExpired -> est_timer (ec_est e') = Some TimerExpired) /\
  (est_cause (ec_est e) <> None -> est_cause (ec_est e') <> None) /\
  (l = ERelease -> est_cause (ec_est e') <> None).
Proof.
  intros Hi Hs Hl. split; [by eapply est_inv_step|]. destruct e as [[t er ca] f d].
  destruct l; simpl in Hs; [destruct t as [[]|]|destruct f|by destruct (Hl err)|destruct d]; simplify_eq; simpl;
    unfold est_release, est_cancel; simpl; destruct ca; simpl; by split_and!.
Qed.

Lemma with_est_inv failed l pc c c' :
  call_inv failed c -> with_est l pc c = Some c' -> (forall err, l <> EDone err) ->
  (forall e, (pc e = sv_pc c /\ l <> ERelease) \/
     exists st err, sv_pc c = SvRelease st err /\ pc e = ServeReturned st err /\ l = ERelease) ->
  call_inv failed c'.
Proof.
  intros [I1 I2 I3 I4] Hs Hl Hpc. unfold with_est in Hs. destruct (est_step l (sv_est c)) as [e|] eqn:He; [|done].
  injection Hs as <-. destruct (est_step_keeps _ _ _ I1 He Hl) as (J1 & J2 & J3 & J4 & J5).
  unfold call_phase, released, carries in *. specialize (Hpc e).
  split; unfold call_phase, released, carries; simpl; [done|..]; destruct Hpc as [[-> _]|(st & err & Hp & -> & ->)];
    rewrite ?J2; try rewrite Hp in *; auto.
  - destruct (sv_pc c) as [| | |[]| | | |[] []|[] []]; intuition.
  - destruct st, err; intuition.
  - destruct (sv_pc c); auto.
Qed.

Lemma est_done_facts e err e' :
  est_inv limit peer e -> est_step (EDone err) e = Some e' ->
  est_inv limit peer e' /\ ec_done e = None /\
  (ec_done e' = Some err \/
   ec_done e' = Some (Some timeout_error) /\ est_timer (ec_est e') = Some TimerExpired).
Proof.
  intros Hi Hs. split; [by eapply est_inv_step|]. pose proof (ei_err _ _ _ Hi) as Herr.
  pose proof (ei_timer _ _ _ Hi) as Ht. unfold timeout_error.
  destruct e as [[t er ca] f d]. simpl in *. destruct d; [done|]. unfold est_done in Hs. simpl in Hs.
  destruct t as [[]|]; injection Hs as <-; simpl; (split; [done|]); auto.
  - right. split; [|done]. rewrite Herr. pose proof (Zgt_cases limit 0).
    destruct (limit >? 0); [done|]. by specialize (proj2 Ht ltac:(lia)).
  - exfalso. by destruct (ei_stopped _ _ _ Hi eq_refl).
Qed.

Lemma Serve_done_inv failed c c' : call_inv failed c -> Serve_done c = Some c' -> call_inv failed c'.
Proof.
  intros [I1 I2 I3 I4] Hs. unfold Serve_done in Hs.
  assert (Hfail : forall err,
    failed err -> carries c -> is_serving (sv_pc c) = false ->
    with_est (EDone (Some err)) (fun e => SvRelease false (done_result e)) c = Some c' -> call_inv failed c').
  { intros err Hf Hc Hns Hw. unfold with_est in Hw. destruct (est_step _ _) as [e|] eqn:He; [|done]. injection Hw as <-.
    destruct (est_done_facts _ _ _ I1 He) as (J1 & _ & Hr). unfold carries in *. rewrite Hns in Hc.
    split; unfold call_phase, released, carries; simpl; [done| |done|].
    - unfold done_result. destruct Hr as [Hr|[Hr Ht]]; rewrite Hr; simpl; left; auto.
    - destruct (sv_tunnel c); [by destruct Hc|]. done. }
  unfold call_phase in I2. destruct (sv_pc c) as [|err| |[err|md]| | | | |] eqn:Hpc; try done.
  - apply (Hfail err); [tauto|done|done|done].
  - apply (Hfail err); [tauto|done|done|done].
  - unfold with_est in Hs. destruct (est_step _ _) as [e|] eqn:He; [|done]. injection Hs as <-.
    destruct (est_done_facts _ _ _ I1 He) as (J1 & _ & Hr). unfold carries in I4. rewrite Hpc in I4.
    unfold done_result. destruct Hr as [Hr|[Hr Ht]]; rewrite Hr; simpl;
      (split; unfold call_phase, released, carries; simpl; [done| |done|destruct (sv_tunnel c); [by destruct I4|done]]).
    + done.
    + left. auto.
Qed.

(** *** The tunnel *)
Lemma send_all_spec ms h :
  w_closed (send_all ms h) = w_closed h /\
  w_sent (send_all ms h) = w_sent h ++ (if w_closed h then [] else ms).
Proof.
  unfold send_all. revert h. induction ms as [|m ms IH]; intros h; simpl; [split; [done|]; destruct (w_closed h); by rewrite app_nil_r|].
  destruct (IH (fst (SendMsg m None h))) as [-> ->]. unfold SendMsg.
  destruct (w_closed h) eqn:Hc; simpl; rewrite ?Hc; [done|]. by rewrite <- app_assoc.
Qed.


(** What a tunnel's action does to its call. *)
Lemma serve_tunnel_facts closing l c c' :
  serve_tunnel_step QueryService closing l c = Some c' ->
  exists d d', sv_tunnel c = Some d /\ served_step QueryService closing l d = Some d' /\
    c' = ServeCall (sv_pc c) (sv_est c) (sv_stream c') (Some d') /\
    w_closed (sv_stream c') = w_closed (sv_stream c) /\
    exists ms, ts_wire (sd_server d') = ts_wire (sd_server d) ++ ms /\
      w_sent (sv_stream c') = w_sent (sv_stream c) ++ (if w_closed (sv_stream c) then [] else ms).
Proof.
  unfold serve_tunnel_step. intros Hs. destruct (sv_tunnel c) as [d|] eqn:Ht; [|done].
  destruct (served_step QueryService closing l d) as [d'|] eqn:Hst; [|done]. injection Hs as <-.
  destruct (served_step_grows _ _ _ _ _ Hst) as ((ms & Hms) & _).
  exists d, d'. cbn [sv_stream].
  destruct (send_all_spec (drop (length (ts_wire (sd_server d))) (ts_wire (sd_server d'))) (sv_stream c)) as [E1 E2].
  split_and!; [done|done|done|done|]. exists ms. split; [done|]. by rewrite E2, Hms, drop_app_length.
Qed.

Lemma serve_tunnel_inv failed closing l c c' :
  call_inv failed c -> serve_tunnel_step QueryService closing l c = Some c' -> call_inv failed c'.
Proof.
  intros [I1 I2 I3 I4] Hs.
  destruct (serve_tunnel_facts _ _ _ _ Hs) as (d & d' & Ht & Hst & Hc & Hcl & ms & Hms & Hsent).
  unfold call_phase, released, carries in *. rewrite Ht in I4. destruct I4 as (Hsv & (ac & ce & ls & Hrun) & Hpre & Heq).
  destruct (served_step_grows _ _ _ _ _ Hst) as (_ & Hres).
  rewrite Hc. split; unfold call_phase, released, carries; simpl; [done| |done|].
  - rewrite Ht in I2. destruct (sv_pc c) as [| | |[]| | | |[] []|[] []]; try done;
      destruct I2 as (? & t0 & [= <-] & ?); eauto.
  - split_and!; [done| | |].
    + exists ac, ce. destruct (served_step_server _ _ _ _ _ Hst) as [->|(l' & Hl)]; [by exists ls|].
      exists (ls ++ [l']). rewrite run_app, Hrun. simpl. by rewrite Hl.
    + rewrite Hms, Hsent. destruct (w_closed (sv_stream c)) eqn:E.
      * rewrite app_nil_r. by apply prefix_app_r.
      * by rewrite (Heq eq_refl).
    + rewrite Hcl, Hms, Hsent. intros E. rewrite E. by rewrite (Heq E).
Qed.

(** Which leaves what the server counts on. *)
Lemma serve_tunnel_kept closing l c c' :
  serve_tunnel_step QueryService closing l c = Some c' ->
  counted c' = counted c /\ w_closed (sv_stream c') = w_closed (sv_stream c) /\
  (sv_tunnel c' = None <-> sv_tunnel c = None) /\
  (w_closed (sv_stream c) = true -> w_sent (sv_stream c') = w_sent (sv_stream c)).
Proof.
  intros Ht. destruct (serve_tunnel_facts _ _ _ _ Ht) as (t & t' & E1 & _ & E2 & E3 & ms & _ & E4).
  unfold counted. rewrite E1. rewrite E2 at 1 3. split_and!; try done. intros Hcl. by rewrite E4, Hcl, app_nil_r.
Qed.

Lemma at_pc_inv failed pc c :
  call_inv failed c -> is_serving pc = is_serving (sv_pc c) -> call_phase failed (at_pc pc c) ->
  released (at_pc pc c) -> call_inv failed (at_pc pc c).
Proof.
  intros [I1 I2 I3 I4] Hs Hp Hr. split; try done. unfold carries in *. simpl. by rewrite Hs.
Qed.

(** The errors of the RPC that a step of a call reports. *)
Definition rpc_error (l : call_label) (err : error) : Prop :=
  l = SvOpened (Some err) \/ l = SvHeaders (inl err).

Lemma call_step_inv failed l c c' :
  call_inv failed c -> call_step QueryService l c = Some c' ->
  call_inv (fun e => failed e \/ rpc_error l e) c'.
Proof.
  intros Hinv Hs. assert (Hw : call_inv (fun e => failed e \/ rpc_error l e) c)
    by (eapply call_inv_weaken; [|exact Hinv]; auto).
  assert (Hsame : call_inv failed c' -> call_inv (fun e => failed e \/ rpc_error l e) c')
    by (apply call_inv_weaken; auto).
  destruct Hinv as [I1 I2 I3 I4]. unfold call_phase in I2.
  destruct l as [[err|]|[err|md]| | | |l|]; cbn [call_step] in Hs.
  - destruct (sv_pc c) eqn:Hpc; try done. injection Hs as <-. apply at_pc_inv; rewrite ?Hpc; try done.
    unfold call_phase. simpl. split; [done|]. right. by left.
  - destruct (sv_pc c) eqn:Hpc; try done. injection Hs as <-. by apply at_pc_inv; rewrite ?Hpc.
  - destruct (sv_pc c) eqn:Hpc; try done. injection Hs as <-. apply at_pc_inv; rewrite ?Hpc; try done.
    unfold call_phase. simpl. split; [done|]. right. by right.
  - destruct (sv_pc c) eqn:Hpc; try done. injection Hs as <-. by apply at_pc_inv; rewrite ?Hpc.
  - by eapply Serve_done_inv.
  - eapply with_est_inv; [exact Hw|exact Hs|done|]. intros e. by left.
  - eapply with_est_inv; [exact Hw|exact Hs|done|]. intros e. by left.
  - assert (Ht : serve_tunnel_step QueryService false l c = Some c') by (by destruct l).
    by eapply serve_tunnel_inv.
  - destruct (sv_pc c) eqn:Hpc; try done. eapply with_est_inv; [exact Hw|exact Hs|done|].
    intros e. right. by eexists _, _.
Qed.

Lemma call_step_kept l c c' :
  call_step QueryService l c = Some c' ->
  counted c' = counted c /\ w_closed (sv_stream c') = w_closed (sv_stream c) /\
  (sv_tunnel c' = None <-> sv_tunnel c = None) /\
  (w_closed (sv_stream c) = true -> w_sent (sv_stream c') = w_sent (sv_stream c)).
Proof.
  assert (Hest : forall l pc c c', with_est l pc c = Some c' ->
    sv_stream c' = sv_stream c /\ sv_tunnel c' = sv_tunnel c /\ exists e, sv_pc c' = pc e).
  { intros l1 pc c1 c2 He. unfold with_est in He. destruct (est_step l1 _); [|done]. injection He as <-. eauto. }
  intros Hs. unfold counted.
  destruct l as [[err|]|[err|md]| | | |l|]; cbn [call_step] in Hs.
  1-4: destruct (sv_pc c); try done; by injection Hs as <-.
  - unfold Serve_done in Hs. destruct (sv_pc c) as [| | |[err|md]| | | | |]; try done;
      apply Hest in Hs as (-> & -> & e & ->); try done. by destruct (done_result e).
  - apply Hest in Hs as (-> & -> & e & ->). done.
  - apply Hest in Hs as (-> & -> & e & ->). done.
  - assert (Ht : serve_tunnel_step QueryService false l c = Some c') by (by destruct l).
    by apply serve_tunnel_kept in Ht.
  - destruct (sv_pc c) eqn:Hpc; try done. apply Hest in Hs as (-> & -> & e & ->). done.
Qed.

(** *** All calls together *)
Definition rpc_failed (ls : list rs_label) (i : Z) (err : error) : Prop :=
  exists l, SCall i l ∈ ls /\ rpc_error l err.

Record rs_inv (ls : list rs_label) (s : reverse_server) : Prop := {
  xi_calls : forall i c, rs_serves s !! i = Some c -> call_inv (rpc_failed ls i) c;
  xi_wg : rs_wg s = map_sum counted (rs_serves s);
  xi_inst : forall i, i ∈ rs_instances s <-> exists c, rs_serves s !! i = Some c /\ sv_tunnel c <> None;
  xi_stops : forall j pc, rs_stops s !! j = Some pc -> isClosing s = true;
  xi_stopped : forall j, rs_stops s !! j = Some Stopped -> rs_wg s = 0;
  xi_mu : forall j, rs_mu s = Some j <-> exists todo, rs_stops s !! j = Some (Closing todo);
  xi_todo : forall j todo, rs_stops s !! j = Some (Closing todo) ->
    rs_state s = stateClosed /\ todo ⊆ rs_instances s;
  xi_closed : rs_state s = stateClosed -> forall i c, rs_serves s !! i = Some c -> sv_tunnel c <> None ->
    w_closed (sv_stream c) = true \/ exists j todo, rs_stops s !! j = Some (Closing todo) /\ i ∈ todo;
  xi_open : rs_state s <> stateClosed -> forall i c, rs_serves s !! i = Some c -> w_closed (sv_stream c) = false;
}.

Lemma rs_start_inv : rs_inv [] NewReverseTunnelServer.
Proof.
  split; simpl; try done.
  - intros i. split; [by intros ?%not_elem_of_empty|by intros (c & ? & _)].
  - intros j. split; [done|by intros [todo ?]].
Qed.

Lemma call_failed_snoc ls l i e : rpc_failed ls i e -> rpc_failed (ls ++ [l]) i e.
Proof. intros (l' & Hin & He). exists l'. split; [|done]. apply elem_of_app. by left. Qed.

Lemma rs_inv_snoc ls l s : rs_inv ls s -> rs_inv (ls ++ [l]) s.
Proof.
  intros []. split; auto. intros i c Hi. eapply call_inv_weaken; [|by eauto]. intros e. apply call_failed_snoc.
Qed.

(** One call changes, but neither the number of calls in the wait group nor the streams. *)
Lemma inv_call ls s i c c' :
  rs_inv ls s -> rs_serves s !! i = Some c -> call_inv (rpc_failed ls i) c' ->
  counted c' = counted c -> w_closed (sv_stream c') = w_closed (sv_stream c) ->
  (sv_tunnel c' = None <-> sv_tunnel c = None) -> rs_inv ls (set_serve i c' s).
Proof.
  intros [X1 X2 X3 X4 X5 X6 X7 X8 X9] Hi Hc Hr Hcl Ht. split; simpl; auto.
  - by intros i' c0 [[<- <-]|[_ ?]]%lookup_insert_Some; [|apply X1].
  - rewrite (map_sum_update _ _ _ _ _ Hi), Hr. lia.
  - intros i'. rewrite X3. split; intros (c0 & Hl & Hn).
    + destruct (decide (i' = i)) as [->|Hne]; [|exists c0; by rewrite lookup_insert_ne].
      rewrite Hi in Hl. injection Hl as <-. exists c'. rewrite lookup_insert_eq. tauto.
    + apply lookup_insert_Some in Hl as [[<- <-]|[_ ?]]; [|by eauto]. exists c. tauto.
  - intros Hst i' c0 [[<- <-]|[_ ?]]%lookup_insert_Some; [|by apply X8]. rewrite Hcl, Ht. by apply X8.
  - intros Hst i' c0 [[<- <-]|[_ ?]]%lookup_insert_Some; [|by eapply X9]. rewrite Hcl. by eapply X9.
Qed.

(** A new call. *)
Lemma inv_begin ls s i : rs_inv ls s -> rs_serves s !! i = None -> rs_inv ls (set_serve i (Serve_begin opts) s).
Proof.
  intros [X1 X2 X3 X4 X5 X6 X7 X8 X9] Hi. split; simpl; auto.
  - intros i' c0 [[<- <-]|[_ ?]]%lookup_insert_Some; [apply call_inv_begin|by apply X1].
  - by rewrite map_sum_insert.
  - intros i'. rewrite X3. split; intros (c0 & Hl & Hn).
    + exists c0. rewrite lookup_insert_ne; [done|]. intros ->. congruence.
    + apply lookup_insert_Some in Hl as [[<- <-]|[_ ?]]; [done|by eauto].
  - by intros Hst i' c0 [[<- <-]|[_ ?]]%lookup_insert_Some; [|apply X8].
  - by intros Hst i' c0 [[<- <-]|[_ ?]]%lookup_insert_Some; [|eapply X9].
Qed.

Lemma isClosing_spec s : isClosing s = false <-> rs_state s = stateActive.
Proof. unfold isClosing. by destruct (rs_state s). Qed.

Lemma inv_add ls s i ctxErr md c :
  rs_inv ls s -> rs_serves s !! i = Some c -> sv_pc c = SvAdd md -> rs_inv ls (Serve_add opts i ctxErr md c s).
Proof.
  intros Hinv Hi Hpc. unfold Serve_add, addInstance. pose proof (xi_calls _ _ Hinv i c Hi) as [I1 I2 I3 I4].
  unfold call_phase in I2. rewrite Hpc in I2.
  assert (Ht : sv_tunnel c = None).
  { unfold carries in I4. rewrite Hpc in I4. by destruct (sv_tunnel c); [destruct I4|]. }
  destruct (isClosing s) eqn:Hcl.
  { eapply inv_call; try done; [|by unfold counted; rewrite Hpc].
    apply at_pc_inv; [by eapply xi_calls|by rewrite Hpc| |done]. right. done. }
  apply isClosing_spec in Hcl. destruct Hinv as [X1 X2 X3 X4 X5 X6 X7 X8 X9].
  assert (Hno : forall j pc, rs_stops s !! j = Some pc -> False).
  { intros j pc Hj. specialize (X4 j pc Hj). unfold isClosing in X4. by rewrite Hcl in X4. }
  set (c' := ServeCall _ _ _ _).
  assert (Hc' : call_inv (rpc_failed ls i) c').
  { split; [done|done|done|]. unfold carries. simpl. split_and!; [done| |done|done].
    by exists (negotiated (md_Get md grpctunnelNegotiateKey)), ctxErr, []. }
  split; simpl; auto.
  - by intros i' c0 [[<- <-]|[_ ?]]%lookup_insert_Some; [|apply X1].
  - rewrite (map_sum_update _ _ _ _ _ Hi), X2. assert (counted c = 0) as -> by (unfold counted; by rewrite Hpc).
    change (counted c') with 1. lia.
  - intros i'. rewrite elem_of_union, elem_of_singleton, X3. split.
    + intros [->|(c0 & Hl & Hn)]; [exists c'; by rewrite lookup_insert_eq|].
      destruct (decide (i' = i)) as [->|Hne]; [congruence|]. exists c0. by rewrite lookup_insert_ne.
    + intros (c0 & [[<- _]|[_ ?]]%lookup_insert_Some & Hn); [by left|right; by eauto].
  - intros j Hj. by destruct (Hno j Stopped).
  - intros j todo Hj. by destruct (Hno _ _ Hj).
  - congruence.
  - intros Hst i' c0 [[<- <-]|[_ ?]]%lookup_insert_Some; [done|by eapply X9].
Qed.

Lemma inv_wg_done ls s i c err :
  rs_inv ls s -> rs_serves s !! i = Some c -> sv_pc c = SvEnd err ->
  let s' := set_serve i (at_pc (SvRelease true err) c) s in
  rs_inv ls (ReverseServer (rs_state s') (rs_mu s') (rs_instances s') (rs_wg s' - 1) (rs_serves s') (rs_stops s')).
Proof.
  intros [X1 X2 X3 X4 X5 X6 X7 X8 X9] Hi Hpc. pose proof (X1 i c Hi) as [I1 I2 I3 I4].
  unfold call_phase in I2. rewrite Hpc in I2.
  assert (Hone : 1 <= rs_wg s).
  { rewrite X2. assert (counted c = 1) as <- by (unfold counted; by rewrite Hpc).
    eapply map_sum_one; [|exact Hi]. intros. apply counted_nonneg. }
  split; simpl; auto.
  - intros i' c0 [[<- <-]|[_ ?]]%lookup_insert_Some; [|by apply X1].
    apply at_pc_inv; [by apply X1|by rewrite Hpc|done|done].
  - rewrite (map_sum_update _ _ _ _ _ Hi), X2. assert (counted c = 1) as -> by (unfold counted; by rewrite Hpc).
    change (counted (at_pc (SvRelease true err) c)) with 0. lia.
  - intros i'. rewrite X3. split; intros (c0 & Hl & Hn).
    + destruct (decide (i' = i)) as [->|Hne]; [|exists c0; by rewrite lookup_insert_ne].
      rewrite Hi in Hl. injection Hl as <-. eexists. by rewrite lookup_insert_eq.
    + apply lookup_insert_Some in Hl as [[<- <-]|[_ ?]]; by eauto.
  - intros j Hj. specialize (X5 j Hj). lia.
  - intros Hst i' c0 [[<- <-]|[_ ?]]%lookup_insert_Some; [by apply (X8 Hst i c Hi)|by eapply X8].
  - intros Hst i' c0 [[<- <-]|[_ ?]]%lookup_insert_Some; [by apply (X9 Hst i c Hi)|by eapply X9].
Qed.

(** *** Stop *)
Lemma inv_stop_waits ls s j pc :
  rs_inv ls s -> rs_stops s !! j = None \/ rs_stops s !! j = Some Waiting -> isClosing s = true ->
  pc = Waiting \/ pc = Stopped /\ rs_wg s = 0 -> rs_inv ls (set_stop j pc s).
Proof.
  intros [X1 X2 X3 X4 X5 X6 X7 X8 X9] Hj Hc Hpc.
  assert (Hnc : forall todo, rs_stops s !! j <> Some (Closing todo)) by (intros todo; destruct Hj; congruence).
  assert (Hkeep : forall j' todo, <[j := pc]> (rs_stops s) !! j' = Some (Closing todo) <->
    rs_stops s !! j' = Some (Closing todo)).
  { intros j' todo. destruct (decide (j' = j)) as [->|Hne]; [|by rewrite lookup_insert_ne].
    rewrite lookup_insert_eq. split; [|by intros ?%Hnc]. destruct Hpc as [->|[-> _]]; done. }
  split; simpl; auto.
  - intros j'. destruct (decide (j' = j)) as [->|Hne]; [|rewrite lookup_insert_ne by done; apply X5].
    rewrite lookup_insert_eq. intros [= ->]. by destruct Hpc as [|[_ ?]].
  - intros j'. rewrite X6. by setoid_rewrite Hkeep.
  - intros j' todo. rewrite Hkeep. apply X7.
  - intros Hst i c Hi Ht. setoid_rewrite Hkeep. by eapply X8.
Qed.

(** The state moves on. *)
Lemma inv_state ls s st :
  rs_inv ls s -> rs_state s <> stateClosed -> st = stateClosing \/ st = stateClosed /\ rs_instances s = ∅ ->
  rs_inv ls (set_state st s).
Proof.
  intros [X1 X2 X3 X4 X5 X6 X7 X8 X9] Hs Hst. split; simpl; auto.
  - intros j pc _. unfold isClosing. simpl. by destruct Hst as [->|[-> _]].
  - intros j todo Hj. by destruct (X7 j todo Hj).
  - intros -> i c Hi Ht. destruct Hst as [|[_ Hst]]; [done|].
    assert (i ∈ rs_instances s) as Hin by (apply X3; eauto). by rewrite Hst in Hin.
  - intros _. by apply X9.
Qed.

Lemma inv_Stop_begin ls s j :
  rs_inv ls s -> rs_stops s !! j = None -> rs_mu s = None -> rs_inv ls (Stop_begin j s).
Proof.
  intros Hinv Hj Hmu. unfold Stop_begin. destruct (rs_state s) eqn:Hst;
    [..|apply inv_stop_waits; auto; unfold isClosing; by rewrite Hst].
  all: assert (Hno : forall j' todo, rs_stops s !! j' <> Some (Closing todo))
    by (intros j' todo Hj'; apply (xi_todo _ _ Hinv) in Hj' as [? _]; congruence);
    destruct Hinv as [X1 X2 X3 X4 X5 X6 X7 X8 X9]; split; simpl; auto;
    [ intros j' Hj'; apply lookup_insert_Some in Hj' as [[_ ?]|[_ ?]]; [done|by eapply X5]
    | intros j'; split;
      [ intros [= <-]; exists (rs_instances s); apply lookup_insert_eq
      | intros [todo Ht]; apply lookup_insert_Some in Ht as [[-> _]|[_ Ht]]; [done|by apply Hno in Ht] ]
    | intros j' todo Ht; apply lookup_insert_Some in Ht as [[_ [= <-]]|[_ Ht]]; [done|by apply Hno in Ht]
    | intros _ i c Hi Ht; right; exists j, (rs_instances s); rewrite lookup_insert_eq;
      split; [done|]; apply X3; by eauto
    | done ].
Qed.

Lemma inv_Stop_close ls s j i err s' : rs_inv ls s -> Stop_close j i err s = Some s' -> rs_inv ls s'.
Proof.
  intros Hinv Hs. unfold Stop_close in Hs. destruct (rs_stops s !! j) as [[todo| |]|] eqn:Hj; try done.
  destruct (rs_serves s !! i) as [c|] eqn:Hi; [|done]. destruct (bool_decide (i ∈ todo)) eqn:Hin; [|done].
  apply bool_decide_eq_true in Hin. injection Hs as <-.
  destruct (xi_todo _ _ Hinv _ _ Hj) as [Hst Hsub].
  destruct Hinv as [X1 X2 X3 X4 X5 X6 X7 X8 X9].
  assert (Ht : sv_tunnel c <> None) by (apply Hsub, X3 in Hin as (c0 & ? & ?); congruence).
  set (c' := ServeCall _ _ _ _).
  assert (Hc' : call_inv (rpc_failed ls i) c').
  { destruct (X1 i c Hi) as [I1 I2 I3 I4]. split; try done. unfold carries in *. simpl.
    destruct (sv_tunnel c); [|done]. destruct I4 as (? & ? & ? & _). by split_and!. }
  assert (Hone : forall j' todo', rs_stops s !! j' = Some (Closing todo') -> j' = j).
  { intros j' todo' Hj'. assert (rs_mu s = Some j') by (apply X6; eauto).
    assert (rs_mu s = Some j) by (apply X6; eauto). congruence. }
  split; simpl; auto.
  - by intros i' c0 [[<- <-]|[_ ?]]%lookup_insert_Some; [|apply X1].
  - rewrite (map_sum_update _ _ _ _ _ Hi). change (counted c') with (counted c). lia.
  - intros i'. rewrite X3. split; intros (c0 & Hl & Hn).
    + destruct (decide (i' = i)) as [->|Hne]; [|exists c0; by rewrite lookup_insert_ne].
      exists c'. by rewrite lookup_insert_eq.
    + apply lookup_insert_Some in Hl as [[<- <-]|[_ ?]]; by eauto.
  - intros j' pc [[<- _]|[_ ?]]%lookup_insert_Some; by eapply X4.
  - intros j' [[_ ?]|[_ ?]]%lookup_insert_Some; [done|by eapply X5].
  - intros j'. rewrite X6. split; intros [todo' Ht'].
    + apply Hone in Ht' as Heq. subst j'. rewrite lookup_insert_eq. by eexists.
    + apply lookup_insert_Some in Ht' as [[<- _]|[_ ?]]; by eauto.
  - intros j' todo' [[_ [= <-]]|[_ ?]]%lookup_insert_Some; [|by apply (X7 j')]. split; [done|].
    intros x [? _]%elem_of_difference. by apply Hsub.
  - intros _ i' c0 [[<- <-]|[Hne Hl]]%lookup_insert_Some Ht0; [by left|].
    destruct (X8 Hst i' c0 Hl Ht0) as [?|(j' & todo' & Hj' & Hin')]; [by left|right].
    exists j, (todo ∖ {[i]}). rewrite lookup_insert_eq. split; [done|].
    rewrite (Hone _ _ Hj'), Hj in Hj'. injection Hj' as ->. apply elem_of_difference. split; [done|]. by apply not_elem_of_singleton.
  - intros Hn. by destruct Hn.
Qed.

Lemma inv_Stop_unlock ls s j s' : rs_inv ls s -> Stop_unlock j s = Some s' -> rs_inv ls s'.
Proof.
  intros Hinv Hs. unfold Stop_unlock in Hs. destruct (rs_stops s !! j) as [[todo| |]|] eqn:Hj; try done.
  destruct (bool_decide (todo = ∅)) eqn:Hemp; [|done]. apply bool_decide_eq_true in Hemp. subst todo.
  injection Hs as <-. destruct Hinv as [X1 X2 X3 X4 X5 X6 X7 X8 X9].
  assert (Hone : forall j' todo', rs_stops s !! j' = Some (Closing todo') -> j' = j).
  { intros j' todo' Hj'. assert (rs_mu s = Some j') by (apply X6; eauto).
    assert (rs_mu s = Some j) by (apply X6; eauto). congruence. }
  assert (Hno : forall j' todo', <[j := Waiting]> (rs_stops s) !! j' <> Some (Closing todo')).
  { intros j' todo' [[_ ?]|[Hne Hj']]%lookup_insert_Some; [done|]. by apply Hone in Hj'. }
  split; simpl; auto.
  - intros j' pc [[<- _]|[_ ?]]%lookup_insert_Some; by eapply X4.
  - intros j' [[_ ?]|[_ ?]]%lookup_insert_Some; [done|by eapply X5].
  - intros j'. split; [done|]. by intros [todo' Ht'%Hno].
  - by intros j' todo' Ht'%Hno.
  - intros Hst i c Hi Ht. destruct (X8 Hst i c Hi Ht) as [?|(j' & todo' & Hj' & Hin')]; [by left|].
    rewrite (Hone _ _ Hj'), Hj in Hj'. injection Hj' as <-. by apply not_elem_of_empty in Hin'.
Qed.

Lemma inv_GracefulStop_begin ls s j :
  rs_inv ls s -> rs_stops s !! j = None -> rs_inv ls (GracefulStop_begin j s).
Proof.
  intros Hinv Hj. unfold GracefulStop_begin. destruct (rs_state s) eqn:Hst.
  - apply inv_stop_waits; [|by left|done|by left]. apply inv_state; [done|congruence|by left].
  - apply inv_stop_waits; [done|by left|unfold isClosing; by rewrite Hst|by left].
  - apply inv_stop_waits; [done|by left|unfold isClosing; by rewrite Hst|by left].
Qed.

Lemma rs_step_inv ls l s s' : rs_inv ls s -> rs_step QueryService opts l s = Some s' -> rs_inv (ls ++ [l]) s'.
Proof.
  intros Hinv0 Hs. pose proof (rs_inv_snoc _ l _ Hinv0) as Hinv.
  destruct l as [i|i l|i ctxErr|i|i ctxErr|i|j|j i err|j|j|j]; cbn [rs_step] in Hs.
  - destruct (rs_serves s !! i) eqn:Hi; [done|]. injection Hs as <-. by apply inv_begin.
  - destruct (rs_serves s !! i) as [c|] eqn:Hi; [|done].
    destruct (call_step QueryService l c) as [c'|] eqn:Hc; [|done]. injection Hs as <-.
    destruct (call_step_kept _ _ _ Hc) as (E1 & E2 & E3 & _). eapply inv_call; try done.
    eapply call_inv_weaken; [|eapply call_step_inv; [by eapply (xi_calls _ _ Hinv0)|exact Hc]].
    intros e [?|?]; [by apply call_failed_snoc|]. exists l. split; [|done].
    apply elem_of_app. right. apply list_elem_of_here.
  - destruct (rs_serves s !! i) as [c|] eqn:Hi; [|done]. destruct (sv_pc c) eqn:Hpc; try done.
    destruct (mu_free s); [|done]. injection Hs as <-. by eapply inv_add.
  - destruct (rs_serves s !! i) as [c|] eqn:Hi; [|done]. destruct (mu_free s); [|done].
    destruct (serve_tunnel_step _ _ _ c) as [c'|] eqn:Hc; [|done]. injection Hs as <-.
    destruct (serve_tunnel_kept _ _ _ _ Hc) as (E1 & E2 & E3 & _). eapply inv_call; try done.
    eapply serve_tunnel_inv; [by eapply (xi_calls _ _ Hinv)|exact Hc].
  - destruct (rs_serves s !! i) as [c|] eqn:Hi; [|done]. destruct (sv_pc c) eqn:Hpc; try done.
    destruct (sv_tunnel c) as [d|] eqn:Ht; [|done]. simpl in Hs.
    destruct (ts_result (sd_server d)) as [err|] eqn:Hr; [|done].
    destruct (_ && _); [done|]. injection Hs as <-. pose proof (xi_calls _ _ Hinv i c Hi) as Hc.
    eapply inv_call; try done; [|unfold counted; by rewrite Hpc]. apply at_pc_inv; [done|by rewrite Hpc| |done].
    destruct Hc as [_ Hc _ _]. unfold call_phase in *. rewrite Hpc in Hc. simpl. split; [done|].
    exists d. split; [done|congruence].
  - destruct (rs_serves s !! i) as [c|] eqn:Hi; [|done]. destruct (sv_pc c) eqn:Hpc; try done.
    injection Hs as <-. by eapply inv_wg_done.
  - destruct (rs_stops s !! j) eqn:Hj; [done|]. unfold mu_free in Hs. destruct (rs_mu s) eqn:Hmu; [done|].
    injection Hs as <-. by apply inv_Stop_begin.
  - by eapply inv_Stop_close.
  - by eapply inv_Stop_unlock.
  - destruct (rs_stops s !! j) eqn:Hj; [done|]. destruct (mu_free s); [|done]. injection Hs as <-.
    by apply inv_GracefulStop_begin.
  - destruct (rs_stops s !! j) as [[]|] eqn:Hj; try done. destruct (Z.eqb_spec (rs_wg s) 0); [|done].
    injection Hs as <-. apply inv_stop_waits; auto. by eapply xi_stops.
Qed.

Lemma rs_run_inv ls s : run (rs_step QueryService opts) ls NewReverseTunnelServer = Some s -> rs_inv ls s.
Proof. apply (run_history (rs_step QueryService opts)); [apply rs_start_inv|]. intros. by eapply rs_step_inv. Qed.
End Invariant.

(** ** What the operations promise *)
Section ServerProperties.
Context `{StatusLib} `{MetadataLib} (QueryService : string -> option ServiceDesc) (opts : tunnelOpts).

Abbreviation step := (rs_step QueryService opts).

(** C14: [Serve] reports truthfully.  When it has returned, the resources of the
    establishment are released.  If it says that the tunnel was started, then the
    limit on establishment was not exceeded, nor did its timer cancel anything,
    and [serve] has returned.  Otherwise there was no tunnel, and the error is the
    one with which the RPC failed, the timeout error if the limit was exceeded,
    or [Unavailable] because the server is shutting down. *)
Theorem serve_outcome ls s i c started err :
  run step ls NewReverseTunnelServer = Some s -> rs_serves s !! i = Some c ->
  sv_pc c = ServeReturned started err ->
  est_cause (ec_est (sv_est c)) <> None /\
  if started then
    est_timer (ec_est (sv_est c)) <> Some TimerExpired /\
    (forall e, est_cause (ec_est (sv_est c)) <> Some (Some e)) /\
    exists d, sv_tunnel c = Some d /\ ts_result (sd_server d) <> None
  else
    sv_tunnel c = None /\ w_sent (sv_stream c) = [] /\
    exists e, err = Some e /\
      (rpc_failed ls i e \/ e = shutting_down \/
       e = timeout_error opts /\ est_timer (ec_est (sv_est c)) = Some TimerExpired).
Proof.
  intros Hrun Hi Hpc. destruct (xi_calls _ _ _ _ (rs_run_inv QueryService opts ls s Hrun) i c Hi) as [I1 I2 I3 I4].
  unfold call_phase, released, carries in *. rewrite Hpc in *. split; [done|]. destruct started.
  - destruct I2 as [Hd Ht]. assert (Hne : est_timer (ec_est (sv_est c)) <> Some TimerExpired).
    { intros He. pose proof (ei_timeout _ _ _ I1 _ He Hd) as Hn. rewrite (ei_err _ _ _ I1) in Hn.
      pose proof (Zgt_cases (establishmentTimeout opts) 0). destruct (_ >? 0); [done|].
      rewrite (proj2 (ei_timer _ _ _ I1)) in He by lia. done. }
    split_and!; [done| |done]. intros e He. by apply Hne, (ei_cause _ _ _ I1 e).
  - destruct (sv_tunnel c); [by destruct I4|]. destruct I4 as (_ & ->).
    split_and!; [done|done|]. destruct err as [e|]; [|done]. exists e. tauto.
Qed.

(** Once it is closing, the server stays so, and its state only moves on. *)
Lemma rs_step_state l s s' :
  step l s = Some s' -> state_num (rs_state s) <= state_num (rs_state s') /\
  (isClosing s = true -> rs_wg s' <= rs_wg s).
Proof.
  intros Hs. destruct l as [i|i l|i ctxErr|i|i ctxErr|i|j|j i err|j|j|j]; cbn [rs_step] in Hs.
  - destruct (rs_serves s !! i); by simplify_eq.
  - destruct (rs_serves s !! i); [|done]. destruct (call_step _ _ _); by simplify_eq.
  - destruct (rs_serves s !! i) as [c|]; [|done]. destruct (sv_pc c); try done. destruct (mu_free s); [|done].
    injection Hs as <-. unfold Serve_add, addInstance. destruct (isClosing s); by simpl.
  - destruct (rs_serves s !! i) as [c|]; [|done]. destruct (mu_free s); [|done].
    destruct (serve_tunnel_step _ _ _ c); by simplify_eq.
  - destruct (rs_serves s !! i) as [c|]; [|done]. destruct (sv_pc c); try done.
    destruct (d ← sv_tunnel c; ts_result (sd_server d)); [|done]. destruct (_ && _); by simplify_eq.
  - destruct (rs_serves s !! i) as [c|]; [|done]. destruct (sv_pc c); try done. injection Hs as <-. simpl.
    split; [done|lia].
  - destruct (rs_stops s !! j); [done|]. destruct (mu_free s); [|done]. injection Hs as <-.
    unfold Stop_begin. destruct (rs_state s) eqn:E; simpl; rewrite ?E; by split.
  - unfold Stop_close in Hs. destruct (rs_stops s !! j) as [[todo| |]|], (rs_serves s !! i); try done.
    destruct (bool_decide _); by simplify_eq.
  - unfold Stop_unlock in Hs. destruct (rs_stops s !! j) as [[todo| |]|]; try done.
    destruct (bool_decide _); by simplify_eq.
  - destruct (rs_stops s !! j); [done|]. destruct (mu_free s); [|done]. injection Hs as <-.
    unfold GracefulStop_begin. destruct (rs_state s) eqn:E; simpl; rewrite ?E; by split.
  - destruct (rs_stops s !! j) as [[]|]; try done. destruct (_ =? 0); by simplify_eq.
Qed.

Lemma rs_run_state ls s s' :
  run step ls s = Some s' -> state_num (rs_state s) <= state_num (rs_state s') /\
  (isClosing s = true -> isClosing s' = true /\ rs_wg s' <= rs_wg s).
Proof.
  revert s. induction ls as [|l ls IH]; intros s Hrun; simpl in Hrun.
  - simplify_eq. split; [lia|]. intros ?. split; [done|lia].
  - destruct (step l s) as [s1|] eqn:Hs; [|done]. destruct (rs_step_state _ _ _ Hs) as [H1 H2].
    destruct (IH s1 Hrun) as [H3 H4]. split; [lia|]. intros Hc.
    assert (Hc1 : isClosing s1 = true) by (unfold isClosing in *; apply Z.geb_le in Hc; apply Z.geb_le; lia).
    destruct (H4 Hc1). specialize (H2 Hc). split; [done|lia].
Qed.

(** *** What a step does to a call *)
Inductive call_change (s : reverse_server) (c c' : serve_call) : Prop :=
  | ChSame : sv_stream c' = sv_stream c -> sv_tunnel c' = sv_tunnel c -> call_change s c c'
  | ChCall l : call_step QueryService l c = Some c' -> call_change s c c'
  | ChAdd : isClosing s = false -> call_change s c c'
  | ChCheck : serve_tunnel_step QueryService (isClosing s) SdIsClosing c = Some c' -> call_change s c c'
  | ChClose err : sv_stream c' = fst (CloseSend err (sv_stream c)) -> sv_tunnel c' = sv_tunnel c ->
      call_change s c c'.

Definition calls_change (s s' : reverse_server) : Prop :=
  forall i, match rs_serves s !! i, rs_serves s' !! i with
  | None, None => True
  | None, Some c' => c' = Serve_begin opts
  | Some c, Some c' => call_change s c c'
  | Some _, None => False
  end.

Lemma calls_same s s' : rs_serves s' = rs_serves s -> calls_change s s'.
Proof. intros E i. rewrite E. destruct (rs_serves s !! i); [by apply ChSame|done]. Qed.

Lemma calls_one s s' i c c' :
  rs_serves s !! i = Some c -> rs_serves s' = <[i := c']> (rs_serves s) -> call_change s c c' -> calls_change s s'.
Proof.
  intros Hi E Hc i'. rewrite E. destruct (decide (i' = i)) as [->|Hne]; [by rewrite Hi, lookup_insert_eq|].
  rewrite lookup_insert_ne by done. destruct (rs_serves s !! i'); [by apply ChSame|done].
Qed.

Lemma rs_step_calls l s s' : step l s = Some s' -> calls_change s s'.
Proof.
  intros Hs. destruct l as [i|i l|i ctxErr|i|i ctxErr|i|j|j i err|j|j|j]; cbn [rs_step] in Hs.
  - destruct (rs_serves s !! i) eqn:Hi; [done|]. injection Hs as <-. intros i'. simpl.
    destruct (decide (i' = i)) as [->|Hne]; [by rewrite Hi, lookup_insert_eq|].
    rewrite lookup_insert_ne by done. destruct (rs_serves s !! i'); [by apply ChSame|done].
  - destruct (rs_serves s !! i) as [c|] eqn:Hi; [|done]. destruct (call_step _ _ _) as [c'|] eqn:Hc; [|done].
    injection Hs as <-. eapply calls_one; [done|done|]. by eapply ChCall.
  - destruct (rs_serves s !! i) as [c|] eqn:Hi; [|done]. destruct (sv_pc c); try done. destruct (mu_free s); [|done].
    injection Hs as <-. unfold Serve_add, addInstance. destruct (isClosing s) eqn:Hc;
      (eapply calls_one; [done|done|]); [by apply ChSame|by apply ChAdd].
  - destruct (rs_serves s !! i) as [c|] eqn:Hi; [|done]. destruct (mu_free s); [|done].
    destruct (serve_tunnel_step _ _ _ c) as [c'|] eqn:Hc; [|done]. injection Hs as <-.
    eapply calls_one; [done|done|]. by apply ChCheck.
  - destruct (rs_serves s !! i) as [c|] eqn:Hi; [|done]. destruct (sv_pc c); try done.
    destruct (d ← sv_tunnel c; ts_result (sd_server d)); [|done]. destruct (_ && _); [done|]. injection Hs as <-.
    eapply calls_one; [done|done|]. by apply ChSame.
  - destruct (rs_serves s !! i) as [c|] eqn:Hi; [|done]. destruct (sv_pc c); try done. injection Hs as <-.
    eapply calls_one; [done|done|]. by apply ChSame.
  - destruct (rs_stops s !! j); [done|]. destruct (mu_free s); [|done]. injection Hs as <-.
    apply calls_same. unfold Stop_begin. by destruct (rs_state s).
  - unfold Stop_close in Hs. destruct (rs_stops s !! j) as [[todo| |]|], (rs_serves s !! i) as [c|] eqn:Hi; try done.
    destruct (bool_decide _); [|done]. injection Hs as <-. eapply calls_one; [done|done|]. by apply (ChClose _ _ _ err).
  - unfold Stop_unlock in Hs. destruct (rs_stops s !! j) as [[todo| |]|]; try done.
    destruct (bool_decide _); [|done]. injection Hs as <-. by apply calls_same.
  - destruct (rs_stops s !! j); [done|]. destruct (mu_free s); [|done]. injection Hs as <-.
    apply calls_same. unfold GracefulStop_begin. by destruct (rs_state s).
  - destruct (rs_stops s !! j) as [[]|]; try done. destruct (_ =? 0); [|done]. injection Hs as <-. by apply calls_same.
Qed.

(** Nobody gets a tunnel once the server is closing. *)
Lemma no_new_tunnel l s s' i c' :
  isClosing s = true -> step l s = Some s' -> rs_serves s' !! i = Some c' -> sv_tunnel c' <> None ->
  exists c, rs_serves s !! i = Some c /\ sv_tunnel c <> None.
Proof.
  intros Hc Hs Hi Ht. pose proof (rs_step_calls _ _ _ Hs i) as Hch. rewrite Hi in Hch.
  destruct (rs_serves s !! i) as [c|] eqn:Hi0; [|by subst c']. exists c. split; [done|].
  assert (Htun : forall closing l, serve_tunnel_step QueryService closing l c = Some c' -> sv_tunnel c <> None).
  { intros closing l' Hst Hn. unfold serve_tunnel_step in Hst. by rewrite Hn in Hst. }
  assert (Hest : forall l pc, with_est l pc c = Some c' -> sv_tunnel c <> None).
  { intros l' pc Hw. unfold with_est in Hw. destruct (est_step _ _); [|done]. by injection Hw as <-. }
  destruct Hch as [_ E|l' Hst|Hno|Hst|err _ E]; [congruence| |congruence|by eapply Htun|congruence].
  destruct l' as [[err|]|res| | | |sl|]; cbn [call_step] in Hst; try by eapply Hest.
  - destruct (sv_pc c); try done. by injection Hst as <-.
  - destruct (sv_pc c); try done. by injection Hst as <-.
  - destruct (sv_pc c); try done. by injection Hst as <-.
  - unfold Serve_done in Hst. destruct (sv_pc c) as [| | |[]| | | | |]; try done; by eapply Hest.
  - destruct sl; try done; by eapply Htun.
  - destruct (sv_pc c); try done. by eapply Hest.
Qed.

Lemma no_new_tunnels ls s s' i c' :
  isClosing s = true -> run step ls s = Some s' -> rs_serves s' !! i = Some c' -> sv_tunnel c' <> None ->
  exists c, rs_serves s !! i = Some c /\ sv_tunnel c <> None.
Proof.
  intros Hc Hrun. revert s Hc Hrun. induction ls as [|l ls IH]; intros s Hc Hrun Hi Ht; simpl in Hrun.
  - simplify_eq. eauto.
  - destruct (step l s) as [s1|] eqn:Hs; [|done].
    assert (Hrun1 : run step [l] s = Some s1) by (simpl; by rewrite Hs).
    destruct (rs_run_state _ _ _ Hrun1) as [_ Hst].
    destruct (IH s1 (proj1 (Hst Hc)) Hrun Hi Ht) as (c1 & Hi1 & Ht1). by eapply no_new_tunnel.
Qed.

(** C31: [Stop] and [GracefulStop] keep their promise for the tunnels: when one of them
    has returned, every tunnel that a call of [Serve] was given has ended, and no call
    ever gets one again.  They do not wait for calls that are still opening the RPC of
    their tunnel, nor for what a call does after its tunnel has ended; a call that comes
    to [addInstance] later is turned away with [Unavailable].  The wait group is exact:
    it stays at zero, and counts the calls between [addInstance] and [wg.Done], of which
    there are none. *)
Theorem stop_means_stopped ls s j ls' s' :
  run step ls NewReverseTunnelServer = Some s -> rs_stops s !! j = Some Stopped ->
  run step ls' s = Some s' ->
  rs_wg s' = 0 /\ (forall i c, rs_serves s' !! i = Some c -> counted c = 0) /\
  (forall i c, rs_serves s' !! i = Some c ->
     match sv_tunnel c with
     | Some d => ts_result (sd_server d) <> None /\
         exists c0, rs_serves s !! i = Some c0 /\ sv_tunnel c0 <> None
     | None => is_serving (sv_pc c) = false
     end) /\
  forall i ctxErr s'', step (SAdd i ctxErr) s' = Some s'' ->
    exists c, rs_serves s'' !! i = Some c /\ sv_pc c = SvRelease false (Some shutting_down) /\
      sv_tunnel c = None.
Proof.
  intros Hrun Hj Hrun'. pose proof (rs_run_inv _ _ _ _ Hrun) as Hinv.
  assert (Hinv' : rs_inv QueryService opts (ls ++ ls') s') by (apply rs_run_inv; by rewrite run_app, Hrun).
  destruct (rs_run_state _ _ _ Hrun') as [_ Hst]. pose proof (xi_stops _ _ _ _ Hinv _ _ Hj) as Hclosing.
  destruct (Hst Hclosing) as [Hc Hle].
  rewrite (xi_stopped _ _ _ _ Hinv _ Hj) in Hle. pose proof (xi_wg _ _ _ _ Hinv') as E.
  assert (Hnn : forall i c, rs_serves s' !! i = Some c -> 0 <= counted c) by (intros; apply counted_nonneg).
  pose proof (map_sum_nonneg counted (rs_serves s') Hnn).
  assert (Hzero : forall i c, rs_serves s' !! i = Some c -> counted c = 0).
  { intros i c Hi. pose proof (map_sum_one counted _ _ _ Hnn Hi). pose proof (counted_nonneg c). lia. }
  split_and!; [lia|done| |].
  - intros i c Hi. pose proof (Hzero i c Hi) as Hz. pose proof (xi_calls _ _ _ _ Hinv' i c Hi) as [_ Hph _ Hca].
    unfold carries in Hca. destruct (sv_tunnel c) as [d|] eqn:Ht; [|tauto]. split.
    + unfold counted in Hz. unfold call_phase in Hph. rewrite Ht in Hph. destruct Hca as [Hserv _].
      destruct (sv_pc c) as [| | |[]| | | |[] []|[] []]; try done; by destruct Hph as (_ & d' & [= <-] & ?).
    + eapply (no_new_tunnels ls' s s' i c); try done. by rewrite Ht.
  - intros i ctxErr s''. cbn [rs_step]. destruct (rs_serves s' !! i) as [c|] eqn:Hi; [|done].
    destruct (sv_pc c) eqn:Hpc; try done. destruct (mu_free s'); [|done]. intros [= <-].
    unfold Serve_add, addInstance. rewrite Hc. simpl. eexists. split; [apply lookup_insert_eq|]. split; [done|].
    pose proof (ci_carries _ _ _ _ (xi_calls _ _ _ _ Hinv' i c Hi)) as Hca. unfold carries in Hca. simpl.
    rewrite Hpc in Hca. by destruct (sv_tunnel c); [destruct Hca|].
Qed.


(** *** Silence *)
Definition sent_by (s : reverse_server) (i : Z) : list ServerToClient :=
  match rs_serves s !! i with Some c => w_sent (sv_stream c) | None => [] end.

Definition muted (s : reverse_server) (i : Z) : Prop :=
  match rs_serves s !! i with
  | Some c => w_closed (sv_stream c) = true \/ sv_tunnel c = None /\ isClosing s = true
  | None => isClosing s = true
  end.

Lemma closing_step l s s' : step l s = Some s' -> isClosing s = true -> isClosing s' = true.
Proof.
  intros Hs Hc. destruct (rs_step_state _ _ _ Hs) as [Hle _]. unfold isClosing in *.
  apply Z.geb_le in Hc. apply Z.geb_le. lia.
Qed.

Lemma no_tunnel_sends_nothing ls s i c :
  rs_inv QueryService opts ls s -> rs_serves s !! i = Some c -> sv_tunnel c = None -> w_sent (sv_stream c) = [].
Proof.
  intros Hinv Hi Ht. pose proof (ci_carries _ _ _ _ (xi_calls _ _ _ _ Hinv i c Hi)) as Hc.
  unfold carries in Hc. rewrite Ht in Hc. by destruct Hc as (_ & ->).
Qed.

Lemma muted_step ls l s s' i :
  rs_inv QueryService opts ls s -> step l s = Some s' -> muted s i -> muted s' i /\ sent_by s' i = sent_by s i.
Proof.
  intros Hinv Hs Hm. pose proof (rs_step_inv _ _ _ _ _ _ Hinv Hs) as Hinv'.
  pose proof (closing_step _ _ _ Hs) as Hcl. pose proof (rs_step_calls _ _ _ Hs i) as Hc.
  unfold muted, sent_by in *.
  destruct (rs_serves s !! i) as [c|] eqn:Hi, (rs_serves s' !! i) as [c'|] eqn:Hi'; try done.
  - assert (Hnone : sv_tunnel c' = None -> sv_tunnel c = None -> w_sent (sv_stream c') = w_sent (sv_stream c))
      by (intros; rewrite (no_tunnel_sends_nothing _ _ _ _ Hinv' Hi'), (no_tunnel_sends_nothing _ _ _ _ Hinv Hi); done).
    assert (Hkept : w_closed (sv_stream c') = w_closed (sv_stream c) /\ (sv_tunnel c' = None <-> sv_tunnel c = None) /\
        (w_closed (sv_stream c) = true -> w_sent (sv_stream c') = w_sent (sv_stream c)) ->
      (w_closed (sv_stream c') = true \/ sv_tunnel c' = None /\ isClosing s' = true) /\
      w_sent (sv_stream c') = w_sent (sv_stream c)).
    { intros (E2 & E3 & E4). rewrite E2, E3.
      destruct Hm as [Hm|[Ht ?]]; [split; [by left|by apply E4]|]. split; [right; auto|].
      apply Hnone; [by apply E3|done]. }
    destruct Hc as [E1 E2|l' Hl|Hn|Hcheck|err E1 E2].
    + rewrite E1, E2. split; [|done]. destruct Hm as [?|[? ?]]; [by left|right; auto].
    + apply call_step_kept in Hl. tauto.
    + exfalso. destruct Hm as [Hm|[_ Hm]]; [|congruence].
      apply isClosing_spec in Hn. by rewrite (xi_open _ _ _ _ Hinv ltac:(by rewrite Hn) i c Hi) in Hm.
    + apply serve_tunnel_kept in Hcheck. tauto.
    + rewrite E1. split; [by left|done].
  - subst c'. simpl. split; [|done]. right. auto.
  - auto.
Qed.

(** [Stop] silences the tunnels: from the moment it has closed a stream, and
    for all streams once it has closed them all, no message of a tunnel reaches
    the stream any more, whatever the tunnel does; nor does one of a tunnel that
    is opened later. *)
Theorem stop_silences ls s ls' s' i :
  run step ls NewReverseTunnelServer = Some s -> run step ls' s = Some s' ->
  (exists c, rs_serves s !! i = Some c /\ w_closed (sv_stream c) = true) \/
    rs_state s = stateClosed /\ rs_mu s = None ->
  sent_by s' i = sent_by s i.
Proof.
  intros Hrun Hrun' Hcase. pose proof (rs_run_inv _ _ _ _ Hrun) as Hinv.
  assert (Hm : muted s i).
  { unfold muted. destruct Hcase as [(c & -> & Hc)|[Hst Hmu]]; [by left|].
    assert (Hcl : isClosing s = true) by (unfold isClosing; by rewrite Hst).
    destruct (rs_serves s !! i) as [c|] eqn:Hi; [|done]. destruct (sv_tunnel c) eqn:Ht; [left|by right].
    destruct (xi_closed _ _ _ _ Hinv Hst i c Hi) as [?|(j & todo & Hj & _)]; [congruence|done|].
    assert (rs_mu s = Some j) by (apply (xi_mu _ _ _ _ Hinv); eauto). congruence. }
  enough (rs_inv QueryService opts (ls ++ ls') s' /\ muted s' i /\ sent_by s' i = sent_by s i) by tauto.
  revert ls' s' Hrun'. apply (run_history step (fun ls' s' => rs_inv QueryService opts (ls ++ ls') s' /\
    muted s' i /\ sent_by s' i = sent_by s i)).
  - by rewrite app_nil_r.
  - intros ls' l s1 s2 (Hi1 & Hm1 & E1) Hs. destruct (muted_step _ _ _ _ _ Hi1 Hs Hm1) as [Hm2 E2].
    split_and!; [rewrite app_assoc; by eapply rs_step_inv|done|congruence].
Qed.

(** *** Draining *)

Definition call_may_run (c : serve_call) : gset Z :=
  match sv_tunnel c with Some d => may_run d | None => ∅ end.

Lemma tunnel_may_run l c c' :
  serve_tunnel_step QueryService true l c = Some c' -> call_may_run c' ⊆ call_may_run c.
Proof.
  intros Hs. destruct (serve_tunnel_facts _ _ _ _ _ Hs) as (d & d' & Ht & Hst & E & _).
  unfold call_may_run. rewrite E, Ht. by eapply served_step_may_run.
Qed.

Lemma call_step_may_run l c c' : call_step QueryService l c = Some c' -> call_may_run c' ⊆ call_may_run c.
Proof.
  assert (Hest : forall l pc c c', with_est l pc c = Some c' -> call_may_run c' ⊆ call_may_run c).
  { intros l1 pc c1 c2 He. unfold with_est in He. destruct (est_step l1 _); [|done]. by injection He as <-. }
  intros Hs. destruct l as [[err|]|[err|md]| | | |l|]; cbn [call_step] in Hs.
  1-4: destruct (sv_pc c); try done; by injection Hs as <-.
  - unfold Serve_done in Hs. destruct (sv_pc c) as [| | |[err|md]| | | | |]; try done; by eapply Hest.
  - by eapply Hest.
  - by eapply Hest.
  - apply (tunnel_may_run l). by destruct l.
  - destruct (sv_pc c); try done. by eapply Hest.
Qed.

Lemma change_may_run s c c' : isClosing s = true -> call_change s c c' -> call_may_run c' ⊆ call_may_run c.
Proof.
  intros Hcl [E1 E2|l Hl|Hn|Hcheck|err E1 E2].
  - unfold call_may_run. by rewrite E2.
  - by eapply call_step_may_run.
  - congruence.
  - rewrite Hcl in Hcheck. by eapply tunnel_may_run.
  - unfold call_may_run. by rewrite E2.
Qed.

Lemma change_no_tunnel s c c' :
  isClosing s = true -> call_change s c c' -> sv_tunnel c = None -> sv_tunnel c' = None.
Proof.
  intros Hcl [E1 E2|l Hl|Hn|Hcheck|err E1 E2] Ht; [congruence| |congruence| |congruence].
  - apply call_step_kept in Hl. tauto.
  - apply serve_tunnel_kept in Hcheck. tauto.
Qed.

(** C16: [Stop] and [GracefulStop] let no new operation start: once either has been
    called, no tunnel is added, and no RPC is started on any tunnel but one per
    tunnel, whose message has arrived and found the server not closing yet. *)
Theorem closing_starts_nothing ls s s' i c' :
  isClosing s = true -> run step ls s = Some s' -> rs_serves s' !! i = Some c' ->
  match rs_serves s !! i with
  | Some c => (sv_tunnel c = None -> sv_tunnel c' = None) /\ call_may_run c' ⊆ call_may_run c
  | None => sv_tunnel c' = None
  end.
Proof.
  intros Hcl Hrun Hi.
  apply (run_invariant step (fun s' => isClosing s' = true /\
    match rs_serves s !! i, rs_serves s' !! i with
    | Some c, Some c' => (sv_tunnel c = None -> sv_tunnel c' = None) /\ call_may_run c' ⊆ call_may_run c
    | None, Some c' => sv_tunnel c' = None
    | Some _, None => False
    | None, None => True
    end)) in Hrun as [_ Hsub]; [|split; [done|by destruct (rs_serves s !! i)]|].
  { rewrite Hi in Hsub. by destruct (rs_serves s !! i). }
  intros l s1 s2 [Hc1 Hsub] Hs. split; [by eapply closing_step|].
  pose proof (rs_step_calls _ _ _ Hs i) as Hc.
  destruct (rs_serves s1 !! i) as [c1|], (rs_serves s2 !! i) as [c2|]; try done.
  - pose proof (change_may_run _ _ _ Hc1 Hc). pose proof (change_no_tunnel _ _ _ Hc1 Hc).
    destruct (rs_serves s !! i); [destruct Hsub as [? Hsub]; split; [auto|by etrans]|auto].
  - subst c2. by destruct (rs_serves s !! i).
Qed.

(** *** What [GracefulStop] does not do *)

(** Nothing makes [GracefulStop] return when the operations are done: it
    closes no tunnel, and [serveTunnel] returns only for what it receives.  However
    many of its RPCs have finished, the server waits until the other end closes
    every tunnel. *)
Theorem graceful_stop_waits_for_peer ls s :
  run step ls NewReverseTunnelServer = Some s -> rs_state s = stateClosing ->
  (forall i c, rs_serves s !! i = Some c -> w_closed (sv_stream c) = false) /\
  forall l t t', server_step QueryService l t = Some t' -> ts_result t = None -> ts_result t' <> None ->
    exists closing res, l = TRecv closing res.
Proof.
  intros Hrun Hst. split.
  - intros i c Hi. eapply (xi_open QueryService opts ls s); [by apply rs_run_inv|by rewrite Hst|exact Hi].
  - intros l t t' Hs Hn Hr. destruct l as [closing res|id l|i|e]; [by eexists _, _| | |]; cbn [server_step] in Hs.
    + assert (exists l, run_stream id l t = Some t') as (l' & Hl) by (destruct l; by eauto).
      destruct (run_stream_seen _ _ _ _ Hl) as (_ & E & _). congruence.
    + destruct (ts_posted t !! i); [|done]. injection Hs as <-. by destruct Hr.
    + destruct (ts_ctxErr t); [done|]. injection Hs as <-. by destruct Hr.
Qed.
End ServerProperties.

(** ** Examples *)
Module ReverseServerExample.
#[local] Existing Instance ExampleStatus.lib.
#[local] Existing Instance ExampleMetadata.lib.

Definition opts : tunnelOpts := initOptions zero_options [WithEstablishmentTimeout 1000].
Definition services (name : string) : option ServiceDesc := None.
Definition step := rs_step services opts.
Definition at_end (ls : list rs_label) : reverse_server :=
  default NewReverseTunnelServer (run step ls NewReverseTunnelServer).
Definition headers : MD := Some {[grpctunnelNegotiateKey := [grpctunnelNegotiateVal]]}.

Definition opening (i : Z) : list rs_label :=
  [SServe i; SCall i (SvOpened None); SCall i (SvHeaders (inr headers)); SCall i SvEstDone; SAdd i None].
Definition finishing (i : Z) (err : option error) : list rs_label :=
  [SCall i (SvTunnel (SdServer (TRecv false (inl (default EOF err))))); SServed i None; SWgDone i; SCall i SvReleased].

(** Two tunnels, a graceful stop, then a stop that ends them, and a call of [Serve]
    that comes too late.  The first tunnel has sent its settings. *)
Definition draining : list rs_label :=
  opening 1 ++ opening 2 ++ [SCall 1 (SvTunnel (SdServer (TPosted 0))); SServe 3; SCall 3 (SvOpened None); SGraceful 1].
Definition closed : list rs_label := draining ++ [SStop 2; SClose 2 2 None; SClose 2 1 None; SUnlock 2].
Definition stopped : list rs_label :=
  closed ++ [SCall 2 (SvTunnel (SdServer (TPosted 0)))] ++ finishing 1 None ++ finishing 2 (Some ContextCanceled) ++ [SWaited 2].
(** The timer of a call of [Serve] expires while it waits for the headers. *)
Definition timed_out : list rs_label :=
  [SServe 1; SCall 1 (SvOpened None); SCall 1 SvExpire; SCall 1 SvFunc;
   SCall 1 (SvHeaders (inl ContextCanceled)); SCall 1 SvEstDone; SCall 1 SvReleased].
Definition call_of (i : Z) (ls : list rs_label) : serve_call :=
  default (Serve_begin opts) (rs_serves (at_end ls) !! i).
End ReverseServerExample.

Lemma serve_outcome_witness :
  sv_tunnel (ReverseServerExample.call_of 1 ReverseServerExample.timed_out) = None /\
  sv_pc (ReverseServerExample.call_of 1 ReverseServerExample.stopped) = ServeReturned true None /\
  sv_pc (ReverseServerExample.call_of 2 ReverseServerExample.stopped) = ServeReturned true None.
Proof.
  split; [|split; vm_compute; reflexivity].
  exact (proj1 (proj2 (serve_outcome (H := ExampleStatus.lib) (H0 := ExampleMetadata.lib)
    ReverseServerExample.services ReverseServerExample.opts ReverseServerExample.timed_out
    (ReverseServerExample.at_end ReverseServerExample.timed_out) 1
    (ReverseServerExample.call_of 1 ReverseServerExample.timed_out) false
    (Some (timeout_error ReverseServerExample.opts))
    ltac:(vm_compute; reflexivity) ltac:(vm_compute; reflexivity) ltac:(vm_compute; reflexivity)))).
Defined.

Lemma stop_means_stopped_witness : rs_wg (ReverseServerExample.at_end ReverseServerExample.stopped) = 0.
Proof.
  exact (proj1 (stop_means_stopped (H := ExampleStatus.lib) (H0 := ExampleMetadata.lib)
    ReverseServerExample.services ReverseServerExample.opts ReverseServerExample.stopped
    (ReverseServerExample.at_end ReverseServerExample.stopped) 2 []
    (ReverseServerExample.at_end ReverseServerExample.stopped)
    ltac:(vm_compute; reflexivity) ltac:(vm_compute; reflexivity) ltac:(vm_compute; reflexivity))).
Defined.

Lemma stop_silences_witness :
  length (sent_by (ReverseServerExample.at_end ReverseServerExample.closed) 1) = 1%nat /\
  sent_by (ReverseServerExample.at_end ReverseServerExample.stopped) 2
  = sent_by (ReverseServerExample.at_end ReverseServerExample.closed) 2.
Proof.
  split; [vm_compute; reflexivity|].
  exact (stop_silences (H := ExampleStatus.lib) (H0 := ExampleMetadata.lib)
    ReverseServerExample.services ReverseServerExample.opts ReverseServerExample.closed
    (ReverseServerExample.at_end ReverseServerExample.closed)
    (drop (length ReverseServerExample.closed) ReverseServerExample.stopped)
    (ReverseServerExample.at_end ReverseServerExample.stopped) 2
    ltac:(vm_compute; reflexivity) ltac:(vm_compute; reflexivity)
    ltac:(right; split; vm_compute; reflexivity)).
Defined.

Lemma closing_starts_nothing_witness :
  (sv_tunnel (ReverseServerExample.call_of 1 ReverseServerExample.draining) = None ->
   sv_tunnel (ReverseServerExample.call_of 1 ReverseServerExample.closed) = None) /\
  call_may_run (ReverseServerExample.call_of 1 ReverseServerExample.closed)
  ⊆ call_may_run (ReverseServerExample.call_of 1 ReverseServerExample.draining).
Proof.
  exact (closing_starts_nothing (H := ExampleStatus.lib) (H0 := ExampleMetadata.lib)
    ReverseServerExample.services ReverseServerExample.opts
    (drop (length ReverseServerExample.draining) ReverseServerExample.closed)
    (ReverseServerExample.at_end ReverseServerExample.draining)
    (ReverseServerExample.at_end ReverseServerExample.closed) 1
    (ReverseServerExample.call_of 1 ReverseServerExample.closed)
    ltac:(vm_compute; reflexivity) ltac:(vm_compute; reflexivity) ltac:(vm_compute; reflexivity)).
Defined.

Lemma graceful_stop_waits_for_peer_witness :
  w_closed (sv_stream (ReverseServerExample.call_of 1 ReverseServerExample.draining)) = false.
Proof.
  exact (proj1 (graceful_stop_waits_for_peer (H := ExampleStatus.lib) (H0 := ExampleMetadata.lib)
    ReverseServerExample.services ReverseServerExample.opts
    ReverseServerExample.draining (ReverseServerExample.at_end ReverseServerExample.draining)
    ltac:(vm_compute; reflexivity) ltac:(vm_compute; reflexivity)) 1
    (ReverseServerExample.call_of 1 ReverseServerExample.draining) ltac:(vm_compute; reflexivity)).
Defined.
