(* ===== verification/Opening.v ===== *)
(** * Opening tunnels

    [PendingChannel.Start] of tunnel_client.go, which makes a channel and waits for
    the server's settings: a sequence of steps that interleave with the timer of
    establish.go and with everything that the new channel does. *)
From stdpp Require Import gmap sets.
From S2P Require Import Prelude Status Protocol Options TunnelServer TunnelChannel.

(** [waitForSettings] returns. *)
Definition settings_decided (c : tunnelChannel) : bool :=
  match ch_settings c, ch_ctxErr c with None, None => false | _, _ => true end.

(** ** Start *)

(** Where [Start] is: in [OpenTunnel], in [Header], in [waitForSettings], before
    [est.done(nil)], before [ch.Close()] with its error, or returned. *)
Inductive start_pc :=
  | AtOpenTunnel | AtHeader | AtSettings | AtDone
  | AtClose (err : error)
  | StartReturned (err : option error).    (** without an error, with the channel *)

Record start_conf := StartConf {
  st_pc : start_pc;
  st_est : establishment;
  st_func : bool;                          (** the timer's function has to run *)
  st_channel : option tunnelChannel;
}.

Inductive start_label :=
  | SOpenTunnel (err : option error)       (** [OpenTunnel] returns *)
  | SHeader (res : error + MD) (secure : bool) (ctxErr : option error)
  | SSettings | SDone | SCloseChannel
  | SExpire | SFunc                        (** the timer *)
  | SRelease                               (** [recvLoop] has returned: [streamDone] *)
  | SChannel (l : channel_label).

(** What only the caller of [Start] can do with the channel. *)
Definition needs_channel (l : channel_label) : bool :=
  match l with KNewStream _ | KClose => true | _ => false end.

Section Start.
Context `{StatusLib} `{MetadataAppend} (opts : tunnelOpts).

Definition start_step (l : start_label) (s : start_conf) : option start_conf :=
  let '(StartConf pc est f ch) := s in
  let fail err :=
    let (est, err) := est_done (Some err) est in
    Some (StartConf (StartReturned err) (est_release est) f ch) in
  match l, pc, ch with
  | SOpenTunnel (Some err), AtOpenTunnel, _ => fail err
  | SOpenTunnel None, AtOpenTunnel, _ => Some (StartConf AtHeader est f ch)
  | SHeader (inl err) _ _, AtHeader, _ => fail err
  | SHeader (inr md) secure ctxErr, AtHeader, _ =>
      Some (StartConf AtSettings est f
        (Some (newTunnelChannel (negotiated (md_Get md grpctunnelNegotiateKey)) false secure opts ctxErr)))
  | SSettings, AtSettings, Some c =>
      if settings_decided c then Some (StartConf AtDone est f ch) else None
  | SDone, AtDone, _ =>
      match est_done None est with
      | (est, Some err) => Some (StartConf (AtClose err) est f ch)
      | (est, None) => Some (StartConf (StartReturned None) est f ch)
      end
  | SCloseChannel, AtClose err, Some c =>
      Some (StartConf (StartReturned (Some err)) est f (Some (fst (channel_close None c))))
  | SExpire, _, _ =>
      match est_timer est with
      | Some TimerPending =>
          Some (StartConf pc (Establishment (Some TimerExpired) (est_err est) (est_cause est)) true ch)
      | _ => None
      end
  | SFunc, _, _ => if f then Some (StartConf pc (est_cancel (est_err est) est) false ch) else None
  | SRelease, _, Some c =>
      match ch_loop c with LExited => Some (StartConf pc (est_release est) f ch) | _ => None end
  | SChannel l, _, Some c =>
      if needs_channel l && negb (match pc with StartReturned None => true | _ => false end) then None
      else match channel_step l c with
           | Some c => Some (StartConf pc est f (Some c))
           | None => None
           end
  | _, _, _ => None
  end.

Definition start_begin : start_conf :=
  StartConf AtOpenTunnel
    (startEstablishment (establishmentTimeout opts) (fst (tunnelRoles false))) false None.

(** ** What the channel keeps *)
Definition settled (c : tunnelChannel) : Prop := ch_finished c = true -> ch_ctxErr c <> None.

(** An action leaves the settings and the context alone, or keeps a context that
    is done. *)
Definition keeps_decision (c c' : tunnelChannel) : Prop :=
  settled c' /\ (ch_ctxErr c <> None -> ch_ctxErr c' <> None) /\
  (settings_decided c = true -> settings_decided c' = true).

Lemma keeps_same_channel c c' :
  settled c -> ch_finished c' = ch_finished c -> ch_ctxErr c' = ch_ctxErr c ->
  ch_settings c' = ch_settings c -> keeps_decision c c'.
Proof. unfold keeps_decision, settled, settings_decided. by intros Hs -> -> ->. Qed.

Lemma keeps_close c c0 err :
  settled c -> ch_finished c0 = ch_finished c -> ch_ctxErr c0 = ch_ctxErr c ->
  keeps_decision c (fst (channel_close err c0)) /\ keeps_decision c (loop_close err c0).
Proof.
  unfold keeps_decision, settled, settings_decided, loop_close, channel_close. intros Hs E1 E2.
  destruct (ch_finished c0) eqn:Hf; simpl; rewrite ?Hf, ?E2.
  - destruct (ch_ctxErr c); [|by destruct Hs]. split_and!; intros; by try destruct (ch_settings c0).
  - destruct (ch_ctxErr c); split_and!; intros; by try destruct (ch_settings c0).
Qed.

Lemma channel_step_keeps l c c' : settled c -> channel_step l c = Some c' -> keeps_decision c c'.
Proof.
  intros Hc Hs.
  assert (Hclose : forall err c0, ch_finished c0 = ch_finished c -> ch_ctxErr c0 = ch_ctxErr c ->
    keeps_decision c (fst (channel_close err c0)) /\ keeps_decision c (loop_close err c0))
    by (intros; by apply keeps_close).
  destruct l as [|res|a|e|id l| | |e].
  - cbn [channel_step] in Hs. destruct (ch_loop c); try done. injection Hs as <-.
    destruct (ch_serverSendsSettings c); [by apply keeps_same_channel|by apply Hclose].
  - cbn [channel_step] in Hs. destruct (ch_loop c) as [| |o|]; try done.
    + injection Hs as <-. unfold recv_settings. destruct (tunnelRoles _).
      destruct res as [e|m]; [by apply Hclose|]. destruct (negb _); [by apply Hclose|].
      destruct (S2C_Frame m) as [[st|?|?|?|?|?]|]; try by apply Hclose.
      destruct (check_settings _ _) as [rev [e|]]; [by apply Hclose|]. by split; [|split].
    + destruct (channel_loop_idle o c); [|done]. unfold recv_frame in Hs.
      destruct res as [e|m]; [injection Hs as <-; by apply Hclose|].
      destruct (channel_getStream _ c).
      * apply run_client_inv in Hs as (v & v' & obs & _ & _ & _ & ->). by apply keeps_same_channel.
      * injection Hs as <-. by apply keeps_same_channel.
      * injection Hs as <-. by apply Hclose.
  - cbn [channel_step] in Hs. destruct (ch_creating c); [done|].
    unfold newStream_begin, allocateStream in Hs.
    destruct (ch_finished c) eqn:Hf; [injection Hs as <-; by apply keeps_same_channel|].
    destruct (_ <? 0); [injection Hs as <-; by apply keeps_same_channel|].
    destruct (in_table _ _); [injection Hs as <-; by apply keeps_same_channel|].
    destruct (apply_call_options _ _ _) as [|[e|md]]; [done|injection Hs as <-; by apply keeps_same_channel|].
    destruct (ch_settings _); [|done]. injection Hs as <-. by apply keeps_same_channel.
  - cbn [channel_step] in Hs. unfold newStream_end in Hs.
    destruct (ch_creating c) as [[id fr]|]; [|done].
    destruct e; injection Hs as <-; by apply keeps_same_channel.
  - apply kstream_inv in Hs as [(v & v' & obs & _ & _ & _ & ->)%run_client_inv _].
    by apply keeps_same_channel.
  - injection Hs as <-. by apply Hclose.
  - cbn [channel_step] in Hs. destruct (_ && _); [|done].
    destruct (ch_settings c); injection Hs as <-; [by apply keeps_same_channel|by apply Hclose].
  - cbn [channel_step] in Hs. destruct (ch_ctxErr c); [done|]. injection Hs as <-.
    split; [done|]. split; [done|]. unfold settings_decided. simpl. by destruct (ch_settings c).
Qed.

(** ** Invariant of Start *)
Definition timeout_error : error :=
  establishmentTimeoutError (establishmentTimeout opts) (fst (tunnelRoles false)).

(** [OpenTunnel] or [Header] has failed with [err]. *)
Definition rpc_failed (err : error) (ls : list start_label) : Prop :=
  SOpenTunnel (Some err) ∈ ls \/ exists secure ctxErr, SHeader (inl err) secure ctxErr ∈ ls.

Definition expired (e : establishment) : Prop :=
  est_timer e = Some TimerExpired /\ est_err e = Some timeout_error.

Definition start_phase (ls : list start_label) (s : start_conf) : Prop :=
  match st_pc s, st_channel s with
  | AtOpenTunnel, None | AtHeader, None | AtSettings, Some _ => est_timer (st_est s) <> Some TimerStopped
  | AtDone, Some c => est_timer (st_est s) <> Some TimerStopped /\ settings_decided c = true
  | AtClose err, Some _ => expired (st_est s) /\ err = timeout_error
  | StartReturned None, Some c =>
      settings_decided c = true /\ est_timer (st_est s) <> Some TimerPending /\
      est_timer (st_est s) <> Some TimerExpired
  | StartReturned (Some err), Some c => expired (st_est s) /\ err = timeout_error /\ ch_finished c = true
  | StartReturned (Some err), None =>
      est_timer (st_est s) <> Some TimerPending /\
      ((expired (st_est s) /\ err = timeout_error) \/ rpc_failed err ls)
  | _, _ => False
  end.

Record start_inv (ls : list start_label) (s : start_conf) : Prop := {
  si_limit : est_timer (st_est s) <> None -> est_err (st_est s) = Some timeout_error;
  si_func : st_func s = true -> est_timer (st_est s) = Some TimerExpired;
  si_cause : forall e, est_cause (st_est s) = Some (Some e) ->
    est_timer (st_est s) = Some TimerExpired;
  si_channel : forall c, st_channel s = Some c -> settled c;
  si_phase : start_phase ls s;
}.

Lemma start_inv_begin : start_inv [] start_begin.
Proof.
  unfold start_begin, startEstablishment. destruct (_ >? 0); by split.
Qed.

Lemma rpc_failed_snoc err ls l : rpc_failed err ls -> rpc_failed err (ls ++ [l]).
Proof.
  unfold rpc_failed. setoid_rewrite elem_of_app.
  intros [?|(? & ? & ?)]; [by left; left|right; eexists _, _; by left].
Qed.

(** Where nothing but the trace and the channel has changed. *)
Lemma start_phase_snoc ls l s : start_phase ls s -> start_phase (ls ++ [l]) s.
Proof.
  unfold start_phase. destruct (st_pc s) as [| | | |?|[?|]], (st_channel s); auto.
  intros (? & [?|?]); split; auto using rpc_failed_snoc.
Qed.

Lemma release_facts e :
  est_timer (est_release e) = est_timer e /\ est_err (est_release e) = est_err e /\
  forall x, est_cause (est_release e) = Some (Some x) -> est_cause e = Some (Some x).
Proof.
  unfold est_release, est_cancel. destruct (est_cause e) eqn:Hc; simpl; split_and!; try done.
  intros x. by rewrite Hc.
Qed.

Lemma start_failed ls est f err :
  (est_timer est <> None -> est_err est = Some timeout_error) ->
  (f = true -> est_timer est = Some TimerExpired) ->
  (forall e, est_cause est = Some (Some e) -> est_timer est = Some TimerExpired) ->
  est_timer est <> Some TimerPending -> (expired est /\ err = timeout_error) \/ rpc_failed err ls ->
  start_inv ls (StartConf (StartReturned (Some err)) (est_release est) f None).
Proof.
  intros I1 I2 I3 Hp He. destruct (release_facts est) as (E1 & E2 & E3).
  split; unfold start_phase, expired in *; simpl; rewrite ?E1, ?E2; auto; [|done].
  intros e Hc. by apply (I3 e), E3.
Qed.

(** [done] and [release] after an error. *)
Lemma start_fail ls l pc est f err :
  start_inv ls (StartConf pc est f None) -> est_timer est <> Some TimerStopped ->
  rpc_failed err (ls ++ [l]) ->
  start_inv (ls ++ [l])
    (let (est, err) := est_done (Some err) est in StartConf (StartReturned err) (est_release est) f None).
Proof.
  intros [I1 I2 I3 I4 _] Hns Hf. simpl in *. unfold est_done.
  destruct (est_timer est) as [[]|] eqn:Ht; try done.
  - apply start_failed; simpl; auto; try done.
    + intros Hff. by discriminate (I2 Hff).
    + intros e Hc. by discriminate (I3 e Hc).
  - rewrite I1 by done. apply start_failed; rewrite ?Ht; auto. unfold expired. rewrite Ht, I1 by done. by left.
  - apply start_failed; rewrite ?Ht; auto.
Qed.

(** [done] when the tunnel is established. *)
Lemma start_done ls pc est f c est' ret :
  start_inv ls (StartConf pc est f (Some c)) -> est_timer est <> Some TimerStopped ->
  settings_decided c = true -> est_done None est = (est', ret) ->
  start_inv ls (StartConf (match ret with Some err => AtClose err | None => StartReturned None end)
                  est' f (Some c)).
Proof.
  intros [I1 I2 I3 I4 _] Hns Hset Hd. simpl in *. unfold est_done in Hd.
  destruct (est_timer est) as [[]|] eqn:Ht; try done; injection Hd as <- <-.
  - split; unfold start_phase; simpl; auto; try done.
    + intros Hf. by discriminate (I2 Hf).
    + intros e Hc. by discriminate (I3 e Hc).
  - rewrite I1 by done. split; unfold start_phase, expired; simpl; rewrite ?Ht; auto.
  - split; unfold start_phase; simpl; rewrite ?Ht; auto.
Qed.

Lemma start_inv_expire ls l pc est f ch :
  start_inv ls (StartConf pc est f ch) -> est_timer est = Some TimerPending ->
  start_inv (ls ++ [l])
    (StartConf pc (Establishment (Some TimerExpired) (est_err est) (est_cause est)) true ch).
Proof.
  intros [I1 I2 I3 I4 I5] Ht. simpl in *. split; simpl; auto.
  - intros _. apply I1. by rewrite Ht.
  - apply start_phase_snoc. unfold start_phase, expired in *. simpl in *. rewrite Ht in I5.
    destruct pc as [| | | |?|[?|]], ch; intuition congruence.
Qed.

Lemma start_inv_cause ls l pc est f f' ch cause :
  start_inv ls (StartConf pc est f ch) -> (f' = true -> f = true) ->
  match cause with Some (Some _) => est_timer est = Some TimerExpired | _ => True end ->
  start_inv (ls ++ [l]) (StartConf pc (Establishment (est_timer est) (est_err est) cause) f' ch).
Proof.
  intros [I1 I2 I3 I4 I5] Hf Hc. simpl in *. split; simpl; auto.
  - intros e ->. done.
  - by apply start_phase_snoc.
Qed.

Lemma start_inv_channel ls l pc est f c c' :
  start_inv ls (StartConf pc est f (Some c)) ->
  keeps_decision c c' /\ (ch_finished c = true -> ch_finished c' = true) ->
  start_inv (ls ++ [l]) (StartConf pc est f (Some c')).
Proof.
  intros [I1 I2 I3 I4 I5] ((K1 & _ & K2) & K3). simpl in *. split; simpl; auto.
  - by intros ? [= <-].
  - apply start_phase_snoc. unfold start_phase in *. simpl in *.
    destruct pc as [| | | |?|[?|]]; intuition congruence.
Qed.

Lemma start_inv_snoc ls l s : start_inv ls s -> start_inv (ls ++ [l]) s.
Proof. intros []. split; auto using start_phase_snoc. Qed.

Lemma start_inv_step ls l s s' :
  start_inv ls s -> start_step l s = Some s' -> start_inv (ls ++ [l]) s'.
Proof.
  intros Hinv Hs. destruct s as [pc est f ch]. pose proof (si_phase _ _ Hinv) as Hph.
  unfold start_phase in Hph. simpl in Hph.
  destruct l as [[err|]|[err|md] secure ctxErr| | | | | | |l]; cbn [start_step] in Hs.
  - destruct pc; try done. destruct ch; [done|].
    replace s' with (let (est, err) := est_done (Some err) est in
      StartConf (StartReturned err) (est_release est) f None) by (destruct (est_done _ _); congruence).
    eapply start_fail; [done|done|]. left. apply elem_of_app. right. apply list_elem_of_here.
  - destruct pc; try done. destruct ch; [done|]. injection Hs as <-.
    destruct Hinv as [I1 I2 I3 I4 _]. by split.
  - destruct pc; try done. destruct ch; [done|].
    replace s' with (let (est, err) := est_done (Some err) est in
      StartConf (StartReturned err) (est_release est) f None) by (destruct (est_done _ _); congruence).
    eapply start_fail; [done|done|]. right. exists secure, ctxErr.
    apply elem_of_app. right. apply list_elem_of_here.
  - destruct pc; try done. destruct ch; [done|]. injection Hs as <-.
    destruct Hinv as [I1 I2 I3 I4 _]. split; try done. by intros c [= <-].
  - destruct pc, ch as [c|]; try done. destruct (settings_decided c) eqn:Hset; [|done].
    injection Hs as <-. destruct Hinv as [I1 I2 I3 I4 _]. by split.
  - destruct pc, ch as [c|]; try done. destruct Hph as [Hns Hset].
    destruct (est_done None est) as [est' ret] eqn:Hd.
    pose proof (start_done _ _ _ _ _ _ _ Hinv Hns Hset Hd) as Hinv'.
    destruct ret; injection Hs as <-; by apply start_inv_snoc.
  - destruct pc as [| | | |err|], ch as [c|]; try done. injection Hs as <-.
    destruct Hph as [Hexp ->]. pose proof (si_channel _ _ Hinv c eq_refl) as Hc.
    destruct (keeps_close c c None Hc eq_refl eq_refl) as [(K1 & _ & _) _].
    destruct Hinv as [I1 I2 I3 I4 _]. split; simpl in *; auto; [by intros ? [= <-]|].
    unfold start_phase. simpl. by rewrite close_finished.
  - assert (exists est', s' = StartConf pc est' true ch /\ est_timer est = Some TimerPending /\
      est' = Establishment (Some TimerExpired) (est_err est) (est_cause est)) as (est' & -> & Ht & ->).
    { destruct (est_timer est) as [[]|], pc, ch; try done; simplify_eq; by eexists. }
    by apply start_inv_expire with (f := f).
  - assert (s' = StartConf pc (est_cancel (est_err est) est) false ch /\ f = true) as [-> ->].
    { destruct f, pc, ch; by simplify_eq. }
    pose proof (si_func _ _ Hinv eq_refl) as Ht. simpl in Ht.
    unfold est_cancel. destruct (est_cause est) as [ca|] eqn:Hca.
    + replace est with (Establishment (est_timer est) (est_err est) (est_cause est)) by (by destruct est).
      eapply start_inv_cause; [done|done|]. by destruct (est_cause est) as [[]|].
    + eapply start_inv_cause; [done|done|]. by destruct (est_err est).
  - assert (exists c, ch = Some c /\ s' = StartConf pc (est_release est) f ch) as (c & -> & ->).
    { destruct ch as [c|]; [|by destruct pc]. exists c. destruct pc, (ch_loop c); by simplify_eq. }
    unfold est_release, est_cancel. destruct (est_cause est) as [ca|] eqn:Hca; [by apply start_inv_snoc|].
    by eapply start_inv_cause.
  - assert (exists c c', ch = Some c /\ channel_step l c = Some c' /\ s' = StartConf pc est f (Some c'))
      as (c & c' & -> & Hl & ->).
    { destruct ch as [c|]; [|by destruct pc]. exists c.
      destruct pc; destruct (_ && _), (channel_step l c) as [c'|]; simplify_eq; by exists c'. }
    eapply start_inv_channel; [exact Hinv|]. split.
    + apply channel_step_keeps with (l := l); [|done]. by apply (si_channel _ _ Hinv).
    + intros Hf. by destruct (closed_step _ _ _ Hf Hl).
Qed.

Lemma start_run_inv ls s : run start_step ls start_begin = Some s -> start_inv ls s.
Proof.
  apply (run_history start_step); [apply start_inv_begin|]. intros. by eapply start_inv_step.
Qed.
End Start.

Section StartProperties.
Context `{StatusLib} `{MetadataAppend} (opts : tunnelOpts).

(** C36: [Start] reports the establishment of a tunnel truthfully.  Whatever the
    timer, the transport and the new channel do, when [Start] returns the channel
    then the limit was not exceeded, the channel has the server's settings or
    its context is done, and the timer never cancels the tunnel afterwards; when
    it returns an error, that is the error of the RPC and there is no channel, or
    it is the timeout error and the channel, if there was one, is closed. *)
Theorem start_outcome ls s res :
  run (start_step opts) ls (start_begin opts) = Some s -> st_pc s = StartReturned res ->
  match res, st_channel s with
  | None, Some c =>
      (ch_settings c <> None \/ ch_ctxErr c <> None) /\
      est_timer (st_est s) <> Some TimerExpired /\
      (forall e, est_cause (st_est s) <> Some (Some e)) /\
      start_step opts SExpire s = None /\ start_step opts SFunc s = None
  | None, None => False
  | Some err, Some c => err = timeout_error opts /\ ch_finished c = true
  | Some err, None =>
      (err = timeout_error opts /\ est_timer (st_est s) = Some TimerExpired) \/ rpc_failed err ls
  end.
Proof.
  intros Hrun Hpc. destruct (start_run_inv opts ls s Hrun) as [I1 I2 I3 I4 I5].
  unfold start_phase, expired in I5. destruct s as [pc est f ch]. simpl in *. subst pc.
  destruct res as [err|], ch as [c|]; try done; [tauto|tauto|].
  destruct I5 as (Hset & Hp & He). split_and!.
  - unfold settings_decided in Hset. destruct (ch_settings c); [by left|].
    destruct (ch_ctxErr c); [by right|done].
  - done.
  - intros e Hc. by specialize (I3 e Hc).
  - by destruct (est_timer est) as [[]|].
  - destruct f; [|done]. by specialize (I2 eq_refl).
Qed.
End StartProperties.

(** ** Examples *)
Module OpeningExample.
#[local] Existing Instance ExampleStatus.lib.
#[local] Existing Instance ExampleMetadata.lib.
#[local] Existing Instance ExampleAppend.lib.

Definition opts : tunnelOpts := initOptions zero_options [WithEstablishmentTimeout 1000].
Definition headers : MD := Some {[grpctunnelNegotiateKey := [grpctunnelNegotiateVal]]}.

Definition at_end (ls : list start_label) : start_conf :=
  default (start_begin opts) (run (start_step opts) ls (start_begin opts)).

Definition opening : list start_label := [SOpenTunnel None; SHeader (inr headers) false None].
Definition opened : list start_label := opening ++
  [SChannel KStart; SChannel (KRecv (inr (settings_message opts))); SSettings; SDone].
(** The server does not answer; the timer cancels the RPC, and the loop of the
    channel sees its end. *)
Definition timed_out : list start_label := opening ++
  [SChannel KStart; SExpire; SFunc; SChannel (KCtx ContextCanceled); SSettings; SDone;
   SChannel (KRecv (inl ContextCanceled)); SCloseChannel; SRelease].
End OpeningExample.

Lemma start_outcome_witness :
  (ch_finished (default (TunnelChannelExample.start) (st_channel (OpeningExample.at_end OpeningExample.timed_out))) = true) /\
  start_step (H := ExampleStatus.lib) (H1 := ExampleAppend.lib) OpeningExample.opts SExpire
    (OpeningExample.at_end OpeningExample.opened) = None.
Proof.
  split.
  - exact (proj2 (start_outcome (H := ExampleStatus.lib) (H1 := ExampleAppend.lib) OpeningExample.opts
      OpeningExample.timed_out (OpeningExample.at_end OpeningExample.timed_out)
      (Some (timeout_error OpeningExample.opts))
      ltac:(vm_compute; reflexivity) ltac:(vm_compute; reflexivity))).
  - exact (proj1 (proj2 (proj2 (proj2 (start_outcome (H := ExampleStatus.lib) (H1 := ExampleAppend.lib)
      OpeningExample.opts OpeningExample.opened (OpeningExample.at_end OpeningExample.opened) None
      ltac:(vm_compute; reflexivity) ltac:(vm_compute; reflexivity)))))).
Defined.
