(* ===== verification/Handler.v ===== *)
(** * The service handler

    [TunnelServiceHandler] of handler.go: the calls of [openTunnel], each of which
    serves a forward tunnel (Served.v), those of [openReverseTunnel], each of which
    keeps a channel (TunnelChannel.v) in the tables of ReverseChannels.v while it
    is up, [InitiateShutdown], and the channels that [AsChannel] and [KeyAsChannel]
    return.

    A tunnel is named by a number; an affinity key is a value or the nil
    interface.  The callbacks of the user are a trace of the calls made to them. *)
From stdpp Require Import gmap sets.
From S2P Require Import Prelude Status Protocol Options TunnelServer Served TunnelChannel.
From S2P Require Import Tunnel ReverseChannels Opening.

(** ** The handler and its options *)
Section HandlerState.
Context {K : Type} `{Countable K}.

(** Of the callbacks, only whether they are set; [AffinityKey] is any function of the
    tunnel. *)
Record TunnelServiceHandlerOptions := HandlerOptions {
  NoReverseTunnels : bool;
  OnReverseTunnelOpen : bool;
  OnReverseTunnelClose : bool;
  AffinityKey : option (Z -> option K);
  InitialWindowSize : Z;
  MaxChunkSize : Z;
  MinWindowUpdateSize : Z;
  EstablishmentTimeout : Z;
}.

Inductive callback := Connected (ch : Z) | Disconnected (ch : Z).

(** Where a call of [openReverseTunnel] is: in [newReverseChannel], before the
    [select] on [ch.Done()], before it computes the key, adding the channel to the
    tables, before the callback, in [<-ch.Done()], before [ch.Err()] (with or
    without having added the channel), in its deferred calls, or returned. *)
Inductive rev_pc :=
  | RvSettings | RvCheck | RvKey | RvAdding | RvConnect | RvWait
  | RvErr (added : bool)
  | RvDisconnect (err : option error) | RvRemoving (err : option error)
  | RvTearDown (err : option error) | RvClose (err : option error)
  | RvReturned (err : option error).

Record rev_call := RevCall { rv_pc : rev_pc; rv_channel : tunnelChannel }.

(** A call that was refused has its error. *)
Record handler := Handler {
  hd_options : TunnelServiceHandlerOptions;
  hd_tunnelOpts : tunnelOpts;
  hd_stopping : bool;
  hd_registry : reverse_conf (option K);
  hd_reverse : gmap Z (error + rev_call);
  hd_forward : gmap Z (error + served);
  hd_callbacks : list callback;
}.

Definition NewTunnelServiceHandler (options : TunnelServiceHandlerOptions) : handler :=
  Handler options
    (initOptions (TunnelOpts (InitialWindowSize options) (MaxChunkSize options)
       (MinWindowUpdateSize options) (EstablishmentTimeout options)) [])
    false registry_start ∅ ∅ [].

Definition dset_registry (r : reverse_conf (option K)) (h : handler) : handler :=
  Handler (hd_options h) (hd_tunnelOpts h) (hd_stopping h) r (hd_reverse h) (hd_forward h) (hd_callbacks h).
Definition dset_reverse (ch : Z) (c : error + rev_call) (h : handler) : handler :=
  Handler (hd_options h) (hd_tunnelOpts h) (hd_stopping h) (hd_registry h) (<[ch := c]> (hd_reverse h))
    (hd_forward h) (hd_callbacks h).
Definition dset_forward (f : Z) (d : error + served) (h : handler) : handler :=
  Handler (hd_options h) (hd_tunnelOpts h) (hd_stopping h) (hd_registry h) (hd_reverse h)
    (<[f := d]> (hd_forward h)) (hd_callbacks h).

(** [onReverseTunnelConnect] and [onReverseTunnelDisconnect], if they are set. *)
Definition call_back (isSet : bool) (e : callback) (h : handler) : handler :=
  Handler (hd_options h) (hd_tunnelOpts h) (hd_stopping h) (hd_registry h) (hd_reverse h) (hd_forward h)
    (hd_callbacks h ++ if isSet then [e] else []).

Definition InitiateShutdown (h : handler) : handler :=
  Handler (hd_options h) (hd_tunnelOpts h) true (hd_registry h) (hd_reverse h) (hd_forward h) (hd_callbacks h).

Definition affinity (ch : Z) (h : handler) : option K :=
  match AffinityKey (hd_options h) with Some f => f ch | None => None end.

(** ** AsChannel and KeyAsChannel *)

(** A [multiChannel]: the functions [pick], [ready] and [waitForReady] of
    [AsChannel] or of [KeyAsChannel]. *)
Inductive multiChannel := AllTunnels | TunnelsOf (key : option K).

Definition AsChannel (h : handler) : go_result multiChannel :=
  if NoReverseTunnels (hd_options h) then Panics else Returns AllTunnels.

Definition KeyAsChannel (key : option K) (h : handler) : go_result multiChannel :=
  if NoReverseTunnels (hd_options h) then Panics else Returns (TunnelsOf key).

Definition multi_pick (m : multiChannel) (h : handler) : handler * option Z :=
  match m with
  | AllTunnels => let (r, ch) := pickAll (hd_registry h) in (dset_registry r h, ch)
  | TunnelsOf key => let (r, ch) := pickKey key (hd_registry h) in (dset_registry r h, ch)
  end.

Definition multi_Ready (m : multiChannel) (h : handler) : bool :=
  match m with
  | AllTunnels => ready (h_reverse (hd_registry h))
  | TunnelsOf key => keyIsReady key (hd_registry h)
  end.

(** [Invoke] and [NewStream]: the tunnel to which the call goes. *)
Definition multi_call (m : multiChannel) (h : handler) : handler * (error + Z) :=
  let (h, picked) := multi_pick m h in
  (h, match picked with
      | Some ch => inr ch
      | None => inl (Errorf Unavailable "no channels ready" [])
      end).

(** [WaitForReady] up to its [select]: the table, and the channel [avail] that it
    has read from it. *)
Definition multi_wait_begin (m : multiChannel) (h : handler) : handler * nat :=
  match m with
  | AllTunnels => (h, rc_avail (h_reverse (hd_registry h)))
  | TunnelsOf key =>
      let r := reverseChannelsForKey key (hd_registry h) in
      (dset_registry r h, match h_byKey r !! key with Some rc => rc_avail rc | None => 0%nat end)
  end.

(** The results that its [select] can choose from; it waits while there is none. *)
Definition multi_wait_results (m : multiChannel) (avail : nat) (ctxErr : option error) (h : handler)
    : list (option error) :=
  let is_ready :=
    match m with
    | AllTunnels => wait_ready avail (h_reverse (hd_registry h))
    | TunnelsOf key =>
        match h_byKey (hd_registry h) !! key with Some rc => wait_ready avail rc | None => false end
    end in
  (if is_ready then [None] else []) ++ (Some <$> option_list ctxErr).

Definition AllReverseTunnels (h : handler) : list Z := allChans (h_reverse (hd_registry h)).
End HandlerState.
Arguments handler K {_ _}.
Arguments TunnelServiceHandlerOptions : clear implicits.
Arguments multiChannel : clear implicits.

(** ** Its tunnels *)
Section Handler.
Context {K : Type} `{Countable K} `{StatusLib} `{MetadataAppend}.
Context (QueryService : string -> option ServiceDesc) (handlers : Z).

(** [openTunnel], with the number of registered services and the headers of the
    request: its error, or the tunnel that it serves. *)
Definition openTunnel (md : MD) (ctxErr : option error) (h : handler K) : error + served :=
  if handlers =? 0 then inl (Errorf Unimplemented "forward tunnels not supported" [])
  else inr (served_start (negotiated (md_Get md grpctunnelNegotiateKey)) false (hd_tunnelOpts h) ctxErr).

(** [newReverseChannel] up to [waitForSettings]; its timer is the label [KTimeout] of
    the channel. *)
Definition newReverseChannel (md : MD) (secure : bool) (opts : tunnelOpts) (ctxErr : option error)
    : tunnelChannel :=
  newTunnelChannel (negotiated (md_Get md grpctunnelNegotiateKey)) true secure opts ctxErr.

Definition openReverseTunnel_begin (md : MD) (secure : bool) (ctxErr : option error) (h : handler K)
    : error + rev_call :=
  if NoReverseTunnels (hd_options h) then inl (Errorf Unimplemented "reverse tunnels not supported" [])
  else inr (RevCall RvSettings (newReverseChannel md secure (hd_tunnelOpts h) ctxErr)).

Definition is_done (c : tunnelChannel) : bool := match ch_ctxErr c with Some _ => true | None => false end.

Definition registered_pc (ch : Z) (h : handler K) : option open_pc := fst <$> h_tunnels (hd_registry h) !! ch.

(** A step in the tables. *)
Definition in_tables (l : reverse_label) (h : handler K) : option (handler K) :=
  match reverse_step l (hd_registry h) with Some r => Some (dset_registry r h) | None => None end.

(** The next step of a call of [openReverseTunnel]. *)
Definition openReverseTunnel_next (ch : Z) (c : rev_call) (h : handler K) : option (handler K) :=
  let chan := rv_channel c in
  let go pc h := Some (dset_reverse ch (inr (RevCall pc chan)) h) in
  match rv_pc c with
  | RvSettings => if settings_decided chan then go RvCheck h else None
  | RvCheck => if is_done chan then go (RvErr false) h else go RvKey h
  | RvKey => h ← in_tables (HOpen ch (affinity ch h)) h; go RvAdding h
  | RvAdding =>
      h ← in_tables (HStep ch) h;
      go (match registered_pc ch h with Some OWait => RvConnect | _ => RvAdding end) h
  | RvConnect => go RvWait (call_back (OnReverseTunnelOpen (hd_options h)) (Connected ch) h)
  | RvWait => if is_done chan then h ← in_tables (HDone ch) h; go (RvErr true) h else None
  | RvErr added => go (if added then RvDisconnect (Err chan) else RvTearDown (Err chan)) h
  | RvDisconnect err =>
      h ← in_tables (HStep ch) (call_back (OnReverseTunnelClose (hd_options h)) (Disconnected ch) h);
      go (RvRemoving err) h
  | RvRemoving err =>
      h ← in_tables (HStep ch) h;
      go (match registered_pc ch h with Some OReturned => RvTearDown err | _ => RvRemoving err end) h
  | RvTearDown err => h ← in_tables (HUnregister ch) h; go (RvClose err) h
  | RvClose err => Some (dset_reverse ch (inr (RevCall (RvReturned err) (fst (channel_close None chan)))) h)
  | RvReturned _ => None
  end.

Inductive handler_label :=
  | DOpenTunnel (f : Z) (md : MD) (ctxErr : option error)
  | DServed (f : Z) (l : served_label)
  | DOpenReverse (ch : Z) (md : MD) (secure : bool) (ctxErr : option error)
  | DReverse (ch : Z)
  | DChannel (ch : Z) (l : channel_label)
  | DUnregister (ch : Z) | DUnregistered (i : nat)   (** [tearDown] of a channel that is closed *)
  | DPick (m : multiChannel K) | DWait (m : multiChannel K)
  | DShutdown.

(** An action of a channel.  Whoever closes it has called [tearDown] before. *)
Definition channel_action (ch : Z) (l : channel_label) (c : rev_call) (h : handler K) : option (handler K) :=
  match channel_step l (rv_channel c) with
  | Some chan =>
      if ch_finished chan && negb (ch_finished (rv_channel c)) &&
         negb (bool_decide (ch ∈ h_unregistered (hd_registry h)))
      then None
      else Some (dset_reverse ch (inr (RevCall (rv_pc c) chan)) h)
  | None => None
  end.

Definition handler_step (l : handler_label) (h : handler K) : option (handler K) :=
  match l with
  | DOpenTunnel f md ctxErr =>
      match hd_forward h !! f with
      | None => Some (dset_forward f (openTunnel md ctxErr h) h)
      | Some _ => None
      end
  | DServed f l =>
      match hd_forward h !! f with
      | Some (inr d) =>
          match served_step QueryService (hd_stopping h) l d with
          | Some d => Some (dset_forward f (inr d) h)
          | None => None
          end
      | _ => None
      end
  | DOpenReverse ch md secure ctxErr =>
      match hd_reverse h !! ch with
      | None => Some (dset_reverse ch (openReverseTunnel_begin md secure ctxErr h) h)
      | Some _ => None
      end
  | DReverse ch =>
      match hd_reverse h !! ch with Some (inr c) => openReverseTunnel_next ch c h | _ => None end
  | DChannel ch l =>
      match hd_reverse h !! ch with Some (inr c) => channel_action ch l c h | _ => None end
  | DUnregister ch =>
      match hd_reverse h !! ch with Some (inr _) => in_tables (HUnregister ch) h | _ => None end
  | DUnregistered i => in_tables (HUnregistered i) h
  | DPick m => Some (fst (multi_pick m h))
  | DWait m => Some (fst (multi_wait_begin m h))
  | DShutdown => Some (InitiateShutdown h)
  end.
End Handler.

(** ** The channels *)
Section Channels.
Context `{StatusLib} `{MetadataAppend}.

Definition chan_ok (c : tunnelChannel) : Prop :=
  settled c /\ match ch_loop c with LStart | LSettings => ch_settings c = None | _ => True end.

(** What stays once it is so. *)
Record chan_grows (c c' : tunnelChannel) : Prop := {
  gr_ok : chan_ok c';
  gr_done : ch_ctxErr c <> None -> ch_ctxErr c' <> None;
  gr_decided : settings_decided c = true -> settings_decided c' = true;
  gr_settings : ch_settings c <> None -> ch_settings c' <> None;
  gr_finished : ch_finished c = true -> ch_finished c' = true;
}.

Lemma loop_close_loop err c : ch_loop (loop_close err c) = LExited.
Proof. done. Qed.

Lemma recv_settings_loop res c :
  match ch_loop (recv_settings res c) with LStart | LSettings => False | _ => True end.
Proof.
  unfold recv_settings. destruct (tunnelRoles _). destruct res as [e|m]; [done|].
  destruct (negb _); [done|]. destruct (S2C_Frame m) as [[st|?|?|?|?|?]|]; try done.
  by destruct (check_settings _ _) as [rev [e|]].
Qed.

(** Only the receive loop moves, or sets the settings. *)
Lemma channel_step_loop l c c' :
  channel_step l c = Some c' ->
  (ch_loop c' = ch_loop c /\ ch_settings c' = ch_settings c) \/
  (ch_loop c' = LSettings /\ ch_settings c' = ch_settings c /\ ch_loop c = LStart) \/
  match ch_loop c' with LStart | LSettings => False | _ => True end.
Proof.
  assert (Hclose : forall err, ch_loop (fst (channel_close err c)) = ch_loop c /\
    ch_settings (fst (channel_close err c)) = ch_settings c)
    by (intros err; unfold channel_close; by destruct (ch_finished c)).
  intros Hs. destruct l as [|res|a|e|id l| | |e]; cbn [channel_step] in Hs.
  - destruct (ch_loop c) eqn:Hl; try done. injection Hs as <-. destruct (ch_serverSendsSettings c); [by right; left|by right; right].
  - destruct (ch_loop c) as [| |o|] eqn:Hl; try done.
    + injection Hs as <-. right. right. apply recv_settings_loop.
    + destruct (channel_loop_idle o c); [|done]. unfold recv_frame in Hs.
      destruct res as [e|m]; [injection Hs as <-; by right; right|]. destruct (channel_getStream _ c).
      * apply run_client_inv in Hs as (v & v' & obs & _ & _ & _ & ->). by right; right.
      * injection Hs as <-. by left.
      * injection Hs as <-. by right; right.
  - destruct (ch_creating c); [done|]. left. unfold newStream_begin, allocateStream in Hs.
    destruct (ch_finished c); [by injection Hs as <-|]. destruct (_ <? 0); [by injection Hs as <-|].
    destruct (in_table _ _); [by injection Hs as <-|].
    destruct (apply_call_options _ _ _) as [|[e|md]]; [done|by injection Hs as <-|].
    destruct (ch_settings _) eqn:E; [|done]. injection Hs as <-. by split.
  - left. unfold newStream_end in Hs. destruct (ch_creating c) as [[id fr]|]; [|done]. by destruct e; injection Hs as <-.
  - left. apply kstream_inv in Hs as [(v & v' & obs & _ & _ & _ & ->)%run_client_inv _]. done.
  - left. by injection Hs as <-.
  - left. destruct (_ && _); [|done]. destruct (ch_settings c) eqn:E; injection Hs as <-; rewrite ?E; auto.
  - left. destruct (ch_ctxErr c); [done|]. by injection Hs as <-.
Qed.

Lemma channel_step_grows l c c' : chan_ok c -> channel_step l c = Some c' -> chan_grows c c'.
Proof.
  intros [Hset Hloop] Hs. destruct (channel_step_keeps _ _ _ Hset Hs) as (K1 & K2 & K3). split; try done.
  - split; [done|]. destruct (channel_step_loop _ _ _ Hs) as [[-> ->]|[(-> & -> & Hl)|Hl]]; [done| |by destruct (ch_loop c')].
    by rewrite Hl in Hloop.
  - apply (cg_settings _ _ _ (channel_step_goes _ _ _ Hloop Hs)).
  - intros Hf. by destruct (closed_step _ _ _ Hf Hs).
Qed.

Lemma chan_grows_close err c : chan_ok c -> chan_grows c (fst (channel_close err c)).
Proof.
  intros [Hset Hloop]. destruct (keeps_close c c err Hset eq_refl eq_refl) as [(K1 & K2 & K3) _].
  assert (E : ch_loop (fst (channel_close err c)) = ch_loop c /\
    ch_settings (fst (channel_close err c)) = ch_settings c)
    by (unfold channel_close; by destruct (ch_finished c)).
  destruct E as [E1 E2]. split; try done.
  - split; [done|]. by rewrite E1, E2.
  - by rewrite E2.
  - intros _. apply close_finished.
Qed.

Lemma chan_ok_new sends reverse secure opts ctxErr : chan_ok (newTunnelChannel sends reverse secure opts ctxErr).
Proof. by split. Qed.
End Channels.

(** ** Invariant *)
Section HandlerInvariant.
Context {K : Type} `{Countable K} `{StatusLib} `{MetadataAppend}.
Context (QueryService : string -> option ServiceDesc) (handlers : Z).

Abbreviation step := (handler_step QueryService handlers).

Definition about (ch : Z) (e : callback) : bool :=
  match e with Connected ch' | Disconnected ch' => bool_decide (ch' = ch) end.

(** The callbacks for a tunnel. *)
Definition callbacks_of (ch : Z) (h : handler K) : list callback :=
  filter (fun e => about ch e = true) (hd_callbacks h).

Definition on_open (ch : Z) (h : handler K) : list callback :=
  if OnReverseTunnelOpen (hd_options h) then [Connected ch] else [].
Definition on_close (ch : Z) (h : handler K) : list callback :=
  if OnReverseTunnelClose (hd_options h) then [Disconnected ch] else [].

(** The tables that the goroutine has reached. *)
Definition table_pc (ch : Z) (h : handler K) : option open_pc := registered_pc ch h.

Definition never_added (ch : Z) (h : handler K) : Prop := table_pc ch h = None /\ callbacks_of ch h = [].
Definition was_removed (ch : Z) (h : handler K) : Prop :=
  table_pc ch h = Some OReturned /\ callbacks_of ch h = on_open ch h ++ on_close ch h.

Definition rev_phase (ch : Z) (c : rev_call) (h : handler K) : Prop :=
  let chan := rv_channel c in
  match rv_pc c with
  | RvSettings => never_added ch h
  | RvCheck => never_added ch h /\ settings_decided chan = true
  | RvKey => never_added ch h /\ ch_settings chan <> None
  | RvErr false => never_added ch h /\ ch_ctxErr chan <> None
  | RvAdding => (table_pc ch h = Some OAddAll \/ table_pc ch h = Some OForKey \/ table_pc ch h = Some OAddKey) /\
      callbacks_of ch h = []
  | RvConnect => table_pc ch h = Some OWait /\ callbacks_of ch h = []
  | RvWait => table_pc ch h = Some OWait /\ callbacks_of ch h = on_open ch h
  | RvErr true | RvDisconnect _ => table_pc ch h = Some OWait /\ callbacks_of ch h = on_open ch h /\
      ch_ctxErr chan <> None /\ ch ∈ h_done (hd_registry h)
  | RvRemoving _ => (table_pc ch h = Some ORemoveKey \/ table_pc ch h = Some ORemoveAll) /\
      callbacks_of ch h = on_open ch h ++ on_close ch h /\ ch_ctxErr chan <> None
  | RvTearDown _ => (never_added ch h \/ was_removed ch h) /\ ch_ctxErr chan <> None
  | RvClose _ => (never_added ch h \/ was_removed ch h) /\ ch_ctxErr chan <> None /\
      ch ∈ h_unregistered (hd_registry h)
  | RvReturned _ => (never_added ch h \/ was_removed ch h) /\ ch_finished chan = true /\
      ch ∈ h_unregistered (hd_registry h)
  end.

(** The state of one call. *)
Record rev_ok (ch : Z) (c : rev_call) (h : handler K) : Prop := {
  rk_chan : chan_ok (rv_channel c);
  rk_phase : rev_phase ch c h;
  rk_settings : table_pc ch h <> None -> ch_settings (rv_channel c) <> None;
  rk_closed : ch_finished (rv_channel c) = true -> ch ∈ h_unregistered (hd_registry h);
}.

Record handler_inv (h : handler K) : Prop := {
  dv_registry : exists ls, run reverse_step ls registry_start = Some (hd_registry h);
  dv_calls : forall ch c, hd_reverse h !! ch = Some (inr c) -> rev_ok ch c h;
  dv_others : forall ch, (forall c, hd_reverse h !! ch <> Some (inr c)) -> never_added ch h;
  dv_keys : forall ch pc key, h_tunnels (hd_registry h) !! ch = Some (pc, key) -> key = affinity ch h;
}.

Lemma callbacks_app ch ls isSet e :
  filter (fun e => about ch e = true) (ls ++ if isSet : bool then [e] else [])
  = filter (fun e => about ch e = true) ls ++ (if isSet && about ch e then [e] else []).
Proof.
  rewrite filter_app. f_equal. destruct isSet; [|done]. cbn [filter list_filter andb].
  destruct (about ch e) eqn:E; [by rewrite decide_True|by rewrite decide_False].
Qed.

(** What a step in the tables leaves, for the other tunnels and in general. *)
Record tables_grow (only : Z -> Prop) (r r' : reverse_conf (option K)) : Prop := {
  tg_tunnels : forall ch, ~ only ch -> h_tunnels r' !! ch = h_tunnels r !! ch;
  tg_key : forall ch pc key, h_tunnels r !! ch = Some (pc, key) -> exists pc', h_tunnels r' !! ch = Some (pc', key);
  tg_done : forall ch, ch ∈ h_done r -> ch ∈ h_done r';
  tg_unregistered : forall ch, ch ∈ h_unregistered r -> ch ∈ h_unregistered r';
}.

Definition moves (l : reverse_label (K := option K)) (ch : Z) : Prop :=
  match l with HOpen ch' _ | HStep ch' => ch = ch' | _ => False end.

Lemma grow_same (only : Z -> Prop) (r r' : reverse_conf (option K)) :
  h_tunnels r' = h_tunnels r -> h_done r ⊆ h_done r' -> h_unregistered r ⊆ h_unregistered r' ->
  tables_grow only r r'.
Proof.
  intros E Hd Hu. split; [by rewrite E|rewrite E; by eauto| |]; intros ch; [apply Hd|apply Hu].
Qed.

Lemma grow_pc (l : reverse_label (K := option K)) (ch : Z) (pc : open_pc) (key : option K) (r r' : reverse_conf (option K)) :
  moves l ch -> h_tunnels r' = <[ch := (pc, key)]> (h_tunnels r) ->
  (forall pc0 key0, h_tunnels r !! ch = Some (pc0, key0) -> key0 = key) ->
  h_done r' = h_done r -> h_unregistered r' = h_unregistered r -> tables_grow (moves l) r r'.
Proof.
  intros Hl E Hk Hd Hu. split; rewrite ?E, ?Hd, ?Hu; auto.
  - intros ch' Hch. rewrite lookup_insert_ne; [done|]. by intros <-.
  - intros ch' pc' key' Hch. destruct (decide (ch' = ch)) as [->|Hne].
    + rewrite lookup_insert_eq. exists pc. by rewrite (Hk _ _ Hch).
    + rewrite lookup_insert_ne by done. by eexists.
Qed.

Lemma reverse_step_grows (l : reverse_label) (r r' : reverse_conf (option K)) : reverse_step l r = Some r' -> tables_grow (moves l) r r'.
Proof.
  intros Hs. destruct l as [ch key|ch|ch|ch|i| |key|key]; cbn [reverse_step] in Hs.
  - destruct (h_tunnels r !! ch) eqn:Hch; [done|]. injection Hs as <-.
    eapply (grow_pc (HOpen ch key) ch OAddAll key); try done. congruence.
  - unfold openReverseTunnel in Hs. destruct (h_tunnels r !! ch) as [[pc key]|] eqn:Hch; [|done].
    assert (Hgo : forall pc' r1, h_tunnels r1 = h_tunnels r -> h_done r1 = h_done r ->
      h_unregistered r1 = h_unregistered r -> tables_grow (moves (HStep ch)) r (hset_pc ch pc' key r1)).
    { intros pc' r1 E1 E2 E3. eapply (grow_pc (HStep ch) ch pc' key); simpl; try done; [by rewrite E1|congruence]. }
    assert (Hpanic : tables_grow (moves (HStep ch)) r (hpanic r)) by (by apply grow_same).
    destruct pc; try done.
    + destruct (add ch key (h_reverse r)); injection Hs as <-; [by apply Hgo|done].
    + injection Hs as <-. unfold reverseChannelsForKey. apply Hgo; by destruct (h_byKey r !! key).
    + destruct (h_byKey r !! key) as [rc|]; [|by injection Hs as <-].
      destruct (add ch key rc); injection Hs as <-; [by apply Hgo|done].
    + destruct (bool_decide _); [|done]. injection Hs as <-. by apply Hgo.
    + injection Hs as <-. by apply Hgo.
    + injection Hs as <-. by apply Hgo.
  - injection Hs as <-. apply grow_same; simpl; [done|apply union_subseteq_r|done].
  - injection Hs as <-. unfold unregister_begin. destruct (remove ch (h_reverse r)) as [c key].
    apply grow_same; simpl; [done|done|apply union_subseteq_r].
  - unfold unregister_end in Hs. destruct (h_removing r !! i) as [[ch key]|]; [|done]. injection Hs as <-.
    by apply grow_same.
  - injection Hs as <-. destruct (pickAll_same r) as (E1 & E2 & E3).
    by apply grow_same; rewrite ?E2, ?E3.
  - injection Hs as <-. destruct (pickKey_same key r) as (E1 & E2 & E3).
    by apply grow_same; rewrite ?E2, ?E3.
  - injection Hs as <-. unfold reverseChannelsForKey. destruct (h_byKey r !! key); by apply grow_same.
Qed.

(** What the state of a call depends on. *)
Record same_view (ch : Z) (h h' : handler K) : Prop := {
  sw_options : hd_options h' = hd_options h;
  sw_pc : table_pc ch h' = table_pc ch h;
  sw_callbacks : callbacks_of ch h' = callbacks_of ch h;
  sw_done : ch ∈ h_done (hd_registry h) -> ch ∈ h_done (hd_registry h');
  sw_unregistered : ch ∈ h_unregistered (hd_registry h) -> ch ∈ h_unregistered (hd_registry h');
}.

Lemma view_phase ch c h h' : same_view ch h h' -> rev_phase ch c h -> rev_phase ch c h'.
Proof.
  intros [E1 E2 E3 E4 E5]. unfold rev_phase, never_added, was_removed, on_open, on_close. rewrite E1, E2, E3.
  destruct (rv_pc c) as [| | | | | |[]|?|?|?|?|?]; tauto.
Qed.

Lemma view_ok ch c h h' : same_view ch h h' -> rev_ok ch c h -> rev_ok ch c h'.
Proof.
  intros Hv [R1 R2 R3 R4]. split; [done|by eapply view_phase|by rewrite (sw_pc _ _ _ Hv)|].
  intros Hf. by apply (sw_unregistered _ _ _ Hv), R4.
Qed.

Lemma view_tables (only : Z -> Prop) ch h r :
  tables_grow only (hd_registry h) r -> ~ only ch -> same_view ch h (dset_registry r h).
Proof.
  intros [G1 G2 G3 G4] Hch. split; simpl; auto. unfold table_pc, registered_pc. simpl. by rewrite G1.
Qed.

Lemma in_tables_run h l r :
  handler_inv h -> reverse_step l (hd_registry h) = Some r -> exists ls, run reverse_step ls registry_start = Some r.
Proof.
  intros [(ls & Hls) _ _ _] Hs. exists (ls ++ [l]). rewrite run_app, Hls. simpl. by rewrite Hs.
Qed.

Lemma tables_keys l (h : handler K) r :
  (forall ch pc key, h_tunnels (hd_registry h) !! ch = Some (pc, key) -> key = affinity ch h) ->
  reverse_step l (hd_registry h) = Some r -> (forall ch key, l = HOpen ch key -> key = affinity ch h) ->
  forall ch pc key, h_tunnels r !! ch = Some (pc, key) -> key = affinity ch h.
Proof.
  intros Hk Hs Hl ch pc key Hch. destruct (h_tunnels (hd_registry h) !! ch) as [[pc0 key0]|] eqn:H0'.
  - destruct (tg_key _ _ _ (reverse_step_grows _ _ _ Hs) _ _ _ H0') as [pc' Hp].
    rewrite Hch in Hp. injection Hp as -> ->. by eapply Hk.
  - destruct l as [ch' key'|ch'|ch'|ch'|i| |key'|key']; cbn [reverse_step] in Hs.
    + destruct (h_tunnels (hd_registry h) !! ch'); [done|]. injection Hs as <-. simpl in Hch.
      apply lookup_insert_Some in Hch as [[<- [= _ <-]]|[_ Hch]]; [by apply Hl|congruence].
    + destruct (decide (ch = ch')) as [->|Hne].
      * unfold openReverseTunnel in Hs. by rewrite H0' in Hs.
      * rewrite (tg_tunnels _ _ _ (reverse_step_grows (HStep ch') _ _ Hs)) in Hch by done. congruence.
    + rewrite (tg_tunnels _ _ _ (reverse_step_grows (HDone ch') _ _ Hs)) in Hch by (by intros []). congruence.
    + rewrite (tg_tunnels _ _ _ (reverse_step_grows (HUnregister ch') _ _ Hs)) in Hch by (by intros []). congruence.
    + rewrite (tg_tunnels _ _ _ (reverse_step_grows (HUnregistered i) _ _ Hs)) in Hch by (by intros []). congruence.
    + rewrite (tg_tunnels _ _ _ (reverse_step_grows HPick _ _ Hs)) in Hch by (by intros []). congruence.
    + rewrite (tg_tunnels _ _ _ (reverse_step_grows (HPickKey key') _ _ Hs)) in Hch by (by intros []). congruence.
    + rewrite (tg_tunnels _ _ _ (reverse_step_grows (HWaitKey key') _ _ Hs)) in Hch by (by intros []). congruence.
Qed.

(** A step that moves no tunnel in the tables. *)
Lemma inv_quiet_tables h l r :
  handler_inv h -> reverse_step l (hd_registry h) = Some r -> (forall ch, ~ moves l ch) ->
  handler_inv (dset_registry r h).
Proof.
  intros Hinv Hs Hl. pose proof (reverse_step_grows _ _ _ Hs) as Hg.
  assert (Hv : forall ch, same_view ch h (dset_registry r h)) by (intros ch; by eapply view_tables).
  split; simpl.
  - by eapply in_tables_run.
  - intros ch c Hc. eapply view_ok; [apply Hv|]. by apply (dv_calls _ Hinv).
  - intros ch Hc. destruct (dv_others _ Hinv ch Hc) as [E1 E2]. destruct (Hv ch) as [_ V1 V2 _ _].
    unfold never_added. by rewrite V1, V2.
  - apply (tables_keys l h r); [apply (dv_keys _ Hinv)|done|]. intros ch key ->. by destruct (Hl ch).
Qed.

(** A call of [openReverseTunnel] goes on, with what it does to the tables and the
    callbacks that it makes. *)
Lemma inv_rev_call h h' ch c' :
  handler_inv h -> hd_options h' = hd_options h ->
  hd_reverse h' = <[ch := inr c']> (hd_reverse h) ->
  (exists ls, run reverse_step ls registry_start = Some (hd_registry h')) ->
  tables_grow (fun x => x = ch) (hd_registry h) (hd_registry h') ->
  (forall ch', ch' <> ch -> callbacks_of ch' h' = callbacks_of ch' h) ->
  (forall pc key, h_tunnels (hd_registry h') !! ch = Some (pc, key) -> key = affinity ch h) ->
  rev_ok ch c' h' -> handler_inv h'.
Proof.
  intros Hinv Ho Hr Hrun Hg Hcb Hkey Hok.
  assert (Hv : forall ch', ch' <> ch -> same_view ch' h h').
  { intros ch' Hne. destruct Hg as [G1 G2 G3 G4]. split; auto. unfold table_pc, registered_pc. by rewrite G1. }
  split; [done|..].
  - intros ch' c. rewrite Hr. intros [[<- [= <-]]|[Hne Hc]]%lookup_insert_Some; [done|].
    eapply view_ok; [by apply Hv|]. by apply (dv_calls _ Hinv).
  - intros ch' Hc. destruct (decide (ch' = ch)) as [->|Hne].
    + by destruct (Hc c'); rewrite Hr, lookup_insert_eq.
    + destruct (dv_others _ Hinv ch') as [E1 E2].
      { intros c. specialize (Hc c). by rewrite Hr, lookup_insert_ne in Hc. }
      destruct (Hv ch' Hne) as [_ V1 V2 _ _]. unfold never_added. by rewrite V1, V2.
  - intros ch' pc key. unfold affinity. rewrite Ho. destruct (decide (ch' = ch)) as [->|Hne]; [apply Hkey|].
    rewrite (tg_tunnels _ _ _ Hg) by done. apply (dv_keys _ Hinv).
Qed.

Lemma grow_refl (only : Z -> Prop) (r : reverse_conf (option K)) : tables_grow only r r.
Proof. split; eauto. Qed.

Lemma grow_moves (l : reverse_label) (ch : Z) (r r' : reverse_conf (option K)) :
  (forall x, moves l x -> x = ch) -> tables_grow (moves l) r r' -> tables_grow (fun x => x = ch) r r'.
Proof. intros Hl [G1 G2 G3 G4]. split; auto. Qed.

Definition next_pc (pc : open_pc) : open_pc :=
  match pc with
  | OAddAll => OForKey | OForKey => OAddKey | OAddKey => OWait
  | OWait => ORemoveKey | ORemoveKey => ORemoveAll | ORemoveAll | OReturned => OReturned
  end.

(** A step of the goroutine in the tables, which do not panic. *)
Lemma table_step h ch r pc :
  handler_inv h -> reverse_step (HStep ch) (hd_registry h) = Some r -> table_pc ch h = Some pc ->
  table_pc ch (dset_registry r h) = Some (next_pc pc).
Proof.
  intros Hinv Hs Hpc. destruct (in_tables_run _ _ _ Hinv Hs) as (ls & Hls).
  pose proof (hi_safe _ (registry_run_inv _ _ Hls)) as Hsafe. unfold table_pc, registered_pc in *. simpl.
  destruct (h_tunnels (hd_registry h) !! ch) as [[pc0 key]|] eqn:Hch; [|done]. injection Hpc as ->.
  cbn [reverse_step] in Hs. unfold openReverseTunnel in Hs. rewrite Hch in Hs.
  assert (Hgo : forall pc' r1, h_tunnels (hset_pc ch pc' key r1) !! ch = Some (pc', key))
    by (intros; apply lookup_insert_eq).
  destruct pc; try done.
  - destruct (add ch key _); injection Hs as <-; [by rewrite Hgo|done].
  - injection Hs as <-. by rewrite Hgo.
  - destruct (h_byKey _ !! key) as [rc|]; [|by injection Hs as <-].
    destruct (add ch key rc); injection Hs as <-; [by rewrite Hgo|done].
  - destruct (bool_decide _); [|done]. injection Hs as <-. by rewrite Hgo.
  - injection Hs as <-. by rewrite Hgo.
  - injection Hs as <-. by rewrite Hgo.
Qed.

Lemma in_tables_some l (h h' : handler K) :
  in_tables l h = Some h' -> exists r, reverse_step l (hd_registry h) = Some r /\ h' = dset_registry r h.
Proof. unfold in_tables. destruct (reverse_step _ _) as [r|]; [|done]. intros [= <-]. by exists r. Qed.

Lemma bind_some {A B} (o : option A) (f : A -> option B) b :
  o ≫= f = Some b -> exists a, o = Some a /\ f a = Some b.
Proof. destruct o as [a|]; [|done]. intros Hf. by exists a. Qed.

(** A call that goes on without the tables and the callbacks. *)
Lemma inv_go h ch c c' :
  handler_inv h -> hd_reverse h !! ch = Some (inr c) -> chan_grows (rv_channel c) (rv_channel c') ->
  rev_phase ch c' h -> (ch_finished (rv_channel c') = true -> ch ∈ h_unregistered (hd_registry h)) ->
  handler_inv (dset_reverse ch (inr c') h).
Proof.
  intros Hinv Hc Hg Hp Hf. destruct (dv_calls _ Hinv ch c Hc) as [R1 R2 R3 R4].
  eapply inv_rev_call; [exact Hinv|done|done|by apply (dv_registry _ Hinv)|apply grow_refl|done|by apply (dv_keys _ Hinv)|].
  split; [by eapply gr_ok|done| |done]. intros Ht. by apply (gr_settings _ _ Hg), R3.
Qed.

Lemma chan_grows_refl c : chan_ok c -> chan_grows c c.
Proof. by split. Qed.

(** A call that makes a step in the tables, after a callback. *)
Lemma inv_go_tables h h0 h' ch c pc' l r isSet e :
  handler_inv h -> hd_reverse h !! ch = Some (inr c) ->
  h0 = call_back isSet e h -> about ch e = true -> (forall x, moves l x -> x = ch) ->
  reverse_step l (hd_registry h) = Some r -> (forall ch' key, l = HOpen ch' key -> key = affinity ch' h) ->
  (table_pc ch (dset_registry r h0) <> None -> ch_settings (rv_channel c) <> None) ->
  rev_phase ch (RevCall pc' (rv_channel c)) (dset_registry r h0) ->
  h' = dset_reverse ch (inr (RevCall pc' (rv_channel c))) (dset_registry r h0) ->
  handler_inv h'.
Proof.
  intros Hinv Hc -> He Hl Hs Hkey Hset Hp ->. destruct (dv_calls _ Hinv ch c Hc) as [R1 R2 R3 R4].
  pose proof (reverse_step_grows _ _ _ Hs) as Hg.
  eapply inv_rev_call; [exact Hinv|done|done|by eapply in_tables_run|by eapply grow_moves|..].
  - intros ch' Hne. unfold callbacks_of. simpl. rewrite callbacks_app.
    assert (about ch' e = false) as ->; [|by rewrite andb_false_r, app_nil_r].
    destruct e; simpl in *; apply bool_decide_eq_true in He; apply bool_decide_eq_false; congruence.
  - intros pc key Hpc. by apply (tables_keys l h r (dv_keys _ Hinv) Hs Hkey ch pc).
  - split; [done|done|done|]. intros Hf. simpl. by apply (tg_unregistered _ _ _ Hg), R4.
Qed.

Lemma inv_go_tables_quietly h h' ch c pc' l r :
  handler_inv h -> hd_reverse h !! ch = Some (inr c) -> (forall x, moves l x -> x = ch) ->
  reverse_step l (hd_registry h) = Some r -> (forall ch' key, l = HOpen ch' key -> key = affinity ch' h) ->
  (table_pc ch (dset_registry r h) <> None -> ch_settings (rv_channel c) <> None) ->
  rev_phase ch (RevCall pc' (rv_channel c)) (dset_registry r h) ->
  h' = dset_reverse ch (inr (RevCall pc' (rv_channel c))) (dset_registry r h) ->
  handler_inv h'.
Proof.
  intros Hinv Hc Hl Hs Hkey Hset Hp Hh.
  assert (Hcb : h = call_back false (Connected ch) h) by (unfold call_back; rewrite app_nil_r; by destruct h).
  apply (inv_go_tables h h h' ch c pc' l r false (Connected ch)); try done. by apply bool_decide_eq_true.
Qed.

Lemma table_quiet ch l (h : handler K) r :
  reverse_step l (hd_registry h) = Some r -> ~ moves l ch -> table_pc ch (dset_registry r h) = table_pc ch h.
Proof.
  intros Hs Hl. unfold table_pc, registered_pc. simpl.
  by rewrite (tg_tunnels _ _ _ (reverse_step_grows _ _ _ Hs) ch Hl).
Qed.

Lemma callbacks_after ch isSet e (h : handler K) r :
  about ch e = true ->
  callbacks_of ch (dset_registry r (call_back isSet e h)) = callbacks_of ch h ++ if isSet then [e] else [].
Proof. intros He. unfold callbacks_of. simpl. rewrite callbacks_app, He. by rewrite andb_true_r. Qed.

Lemma about_self ch : about ch (Connected ch) = true /\ about ch (Disconnected ch) = true.
Proof. split; by apply bool_decide_eq_true. Qed.

(** The part of [openReverseTunnel] in which the channel is in the tables. *)
Lemma inv_next_adding h ch c h' :
  handler_inv h -> hd_reverse h !! ch = Some (inr c) -> (rv_pc c = RvAdding \/ exists err, rv_pc c = RvRemoving err) ->
  openReverseTunnel_next ch c h = Some h' -> handler_inv h'.
Proof.
  intros Hinv Hc Hpc Hs. destruct (dv_calls _ Hinv ch c Hc) as [R1 R2 R3 R4]. unfold rev_phase in R2.
  unfold openReverseTunnel_next in Hs. destruct Hpc as [Hpc|(err & Hpc)]; rewrite Hpc in *;
    apply bind_some in Hs as (h1 & (r & Hr & ->)%in_tables_some & [= <-]).
  - destruct R2 as [Hp Hcb].
    assert (Hset : ch_settings (rv_channel c) <> None) by (apply R3; destruct Hp as [->|[->| ->]]; done).
    eapply (inv_go_tables_quietly h _ ch c _ (HStep ch) r); try done; simpl.
    change (registered_pc ch (dset_registry r h)) with (table_pc ch (dset_registry r h)).
    unfold rev_phase. simpl.
    destruct Hp as [Hp|[Hp|Hp]]; rewrite (table_step _ _ _ _ Hinv Hr Hp); simpl; auto.
  - destruct R2 as (Hp & Hcb & Hd).
    assert (Hset : ch_settings (rv_channel c) <> None) by (apply R3; destruct Hp as [->| ->]; done).
    eapply (inv_go_tables_quietly h _ ch c _ (HStep ch) r); try done; simpl.
    change (registered_pc ch (dset_registry r h)) with (table_pc ch (dset_registry r h)).
    unfold rev_phase, was_removed. simpl.
    destruct Hp as [Hp|Hp]; rewrite (table_step _ _ _ _ Hinv Hr Hp); simpl; auto.
Qed.

(** The steps that touch neither the tables nor the channel. *)
Lemma inv_next_local h ch c h' :
  handler_inv h -> hd_reverse h !! ch = Some (inr c) ->
  match rv_pc c with RvSettings | RvCheck | RvConnect | RvErr _ => True | _ => False end ->
  openReverseTunnel_next ch c h = Some h' -> handler_inv h'.
Proof.
  intros Hinv Hc Hpc Hs. destruct (dv_calls _ Hinv ch c Hc) as [R1 R2 R3 R4]. unfold rev_phase in R2.
  destruct (about_self ch) as [A1 A2]. unfold openReverseTunnel_next in Hs.
  assert (Hgo : forall pc, rev_phase ch (RevCall pc (rv_channel c)) h ->
    handler_inv (dset_reverse ch (inr (RevCall pc (rv_channel c))) h))
    by (intros; eapply inv_go; try done; by apply chan_grows_refl).
  destruct (rv_pc c) as [| | | | | |[]|?|?|?|?|?]; try done.
  - destruct (settings_decided _) eqn:Hd; [|done]. injection Hs as <-. by apply Hgo.
  - destruct R2 as [Hn Hdec]. unfold is_done in Hs. destruct (ch_ctxErr (rv_channel c)) eqn:Hx; injection Hs as <-; apply Hgo.
    + split; [done|]. simpl. by rewrite Hx.
    + split; [done|]. simpl. unfold settings_decided in Hdec. rewrite Hx in Hdec. by destruct (ch_settings _).
  - destruct R2 as [Hp Hcb]. injection Hs as <-.
    assert (Hset : ch_settings (rv_channel c) <> None) by (apply R3; by rewrite Hp).
    set (h0 := call_back _ _ h).
    assert (E : h0 = dset_registry (hd_registry h) h0) by (by destruct h).
    eapply inv_rev_call; [exact Hinv|done|done|by apply (dv_registry _ Hinv)|apply grow_refl| |by apply (dv_keys _ Hinv)|].
    + intros ch' Hne. unfold callbacks_of. simpl. rewrite callbacks_app. simpl.
      by rewrite bool_decide_false, andb_false_r, app_nil_r by congruence.
    + split; [done| |done|done]. unfold rev_phase. simpl. split; [done|].
      change (callbacks_of ch (dset_registry (hd_registry h) h0) = on_open ch h).
      unfold h0. by rewrite callbacks_after, Hcb.
  - destruct R2 as (? & ? & ? & ?). injection Hs as <-. by apply Hgo.
  - destruct R2 as [? ?]. injection Hs as <-. apply Hgo. split; [by left|done].
Qed.

Lemma inv_next h ch c h' :
  handler_inv h -> hd_reverse h !! ch = Some (inr c) -> openReverseTunnel_next ch c h = Some h' -> handler_inv h'.
Proof.
  intros Hinv Hc Hs. destruct (dv_calls _ Hinv ch c Hc) as [R1 R2 R3 R4]. unfold rev_phase in R2.
  destruct (about_self ch) as [A1 A2].
  destruct (rv_pc c) as [| | | | | |added|err|err|err|err|err] eqn:Hpc;
    try (eapply inv_next_local; [done|done|by rewrite Hpc|done]);
    try (eapply inv_next_adding; [done|done|by eauto|done]);
    unfold openReverseTunnel_next in Hs; rewrite Hpc in Hs.
  - apply bind_some in Hs as (h1 & (r & Hr & ->)%in_tables_some & [= <-]). destruct R2 as [[E1 E2] Hset].
    eapply (inv_go_tables_quietly h _ ch c RvAdding (HOpen ch (affinity ch h)) r); try done.
    { by intros ch' key [= <- <-]. }
    unfold rev_phase. simpl. split; [left|done]. cbn [reverse_step] in Hr.
    destruct (h_tunnels (hd_registry h) !! ch); [done|]. injection Hr as <-.
    unfold table_pc, registered_pc. simpl. by rewrite lookup_insert_eq.
  - destruct (is_done (rv_channel c)) eqn:Hd; [|done].
    apply bind_some in Hs as (h1 & (r & Hr & ->)%in_tables_some & [= <-]). destruct R2 as [E1 E2].
    assert (E : table_pc ch (dset_registry r h) = table_pc ch h) by (eapply table_quiet; [exact Hr|by intros []]).
    eapply (inv_go_tables_quietly h _ ch c (RvErr true) (HDone ch) r); try done.
    { intros _. apply R3. by rewrite E1. }
    unfold rev_phase. simpl. rewrite E. split_and!; [done|done| |].
    + unfold is_done in Hd. by destruct (ch_ctxErr _).
    + injection Hr as <-. simpl. apply elem_of_union. left. by apply elem_of_singleton.
  - apply bind_some in Hs as (h1 & (r & Hr & ->)%in_tables_some & [= <-]). destruct R2 as (E1 & E2 & E3 & E4).
    eapply (inv_go_tables h _ _ ch c (RvRemoving err) (HStep ch) r _ (Disconnected ch)); try done.
    { intros _. apply R3. by rewrite E1. }
    unfold rev_phase. simpl. rewrite callbacks_after by done. split_and!; [|by rewrite E2|done].
    left. by apply (table_step h ch r OWait).
  - apply bind_some in Hs as (h1 & (r & Hr & ->)%in_tables_some & [= <-]). destruct R2 as [E1 E2].
    assert (E : table_pc ch (dset_registry r h) = table_pc ch h) by (eapply table_quiet; [exact Hr|by intros []]).
    eapply (inv_go_tables_quietly h _ ch c (RvClose err) (HUnregister ch) r); try done; [by rewrite E|].
    unfold rev_phase, never_added, was_removed in *. simpl. rewrite E. split_and!; [done|done|].
    injection Hr as <-. unfold unregister_begin. destruct (remove ch _). simpl.
    apply elem_of_union. left. by apply elem_of_singleton.
  - injection Hs as <-. destruct R2 as (E1 & E2 & E3).
    eapply inv_go; [done|done| | |done]; simpl; [by apply chan_grows_close|].
    split_and!; [done|apply close_finished|done].
  - done.
Qed.

(** ** All steps *)
Lemma inv_channel h ch l c h' :
  handler_inv h -> hd_reverse h !! ch = Some (inr c) -> channel_action ch l c h = Some h' -> handler_inv h'.
Proof.
  intros Hinv Hc Hs. destruct (dv_calls _ Hinv ch c Hc) as [R1 R2 R3 R4]. unfold channel_action in Hs.
  destruct (channel_step l (rv_channel c)) as [chan|] eqn:Hl; [|done].
  destruct (_ && _) eqn:Hg; [done|]. injection Hs as <-. pose proof (channel_step_grows _ _ _ R1 Hl) as [G1 G2 G3 G4 G5].
  eapply inv_go; [done|done|done| |].
  - unfold rev_phase in *. simpl. destruct (rv_pc c) as [| | | | | |[]|?|?|?|?|?]; intuition.
  - simpl. intros Hf. rewrite Hf in Hg. destruct (ch_finished (rv_channel c)); [by apply R4|].
    simpl in Hg. by apply negb_false_iff, bool_decide_eq_true in Hg.
Qed.

(** A step that changes neither the tables nor a reverse tunnel. *)
Lemma inv_same h h' :
  handler_inv h -> hd_options h' = hd_options h -> hd_registry h' = hd_registry h ->
  hd_reverse h' = hd_reverse h -> hd_callbacks h' = hd_callbacks h -> handler_inv h'.
Proof.
  intros Hinv E1 E2 E3 E4.
  assert (Hv : forall ch, same_view ch h h').
  { intros ch. split; rewrite ?E2; auto; unfold table_pc, registered_pc, callbacks_of; by rewrite ?E2, ?E4. }
  split; rewrite ?E2, ?E3; [apply (dv_registry _ Hinv)| | |].
  - intros ch c Hc. eapply view_ok; [apply Hv|]. by apply (dv_calls _ Hinv).
  - intros ch Hc. destruct (dv_others _ Hinv ch Hc) as [F1 F2]. destruct (Hv ch) as [_ V1 V2 _ _].
    unfold never_added. by rewrite V1, V2.
  - unfold affinity. rewrite E1. apply (dv_keys _ Hinv).
Qed.

Lemma inv_new_reverse h ch x :
  handler_inv h -> hd_reverse h !! ch = None ->
  match x with inl _ => True | inr c => exists md secure opts ctxErr,
    c = RevCall RvSettings (newReverseChannel md secure opts ctxErr) end ->
  handler_inv (dset_reverse ch x h).
Proof.
  intros Hinv Hn Hx. assert (Hnever : never_added ch h) by (apply (dv_others _ Hinv); intros c; by rewrite Hn).
  destruct x as [e|c].
  - split; simpl; [apply (dv_registry _ Hinv)| | |apply (dv_keys _ Hinv)].
    + intros ch' c [[_ ?]|[_ Hc]]%lookup_insert_Some; [done|]. by apply (view_ok ch' c h), (dv_calls _ Hinv).
    + intros ch' Hc. destruct (decide (ch' = ch)) as [->|Hne]; [done|]. apply (dv_others _ Hinv).
      intros c. specialize (Hc c). by rewrite lookup_insert_ne in Hc.
  - destruct Hx as (md & secure & opts & ctxErr & ->).
    eapply inv_rev_call; [exact Hinv|done|done|by apply (dv_registry _ Hinv)|apply grow_refl|done|by apply (dv_keys _ Hinv)|].
    split; [apply chan_ok_new|done| |done]. intros Ht. by destruct Hnever.
Qed.

Lemma handler_inv_step l h h' : handler_inv h -> step l h = Some h' -> handler_inv h'.
Proof.
  intros Hinv Hs. destruct l as [f md ce|f l|ch md sec ce|ch|ch l|ch|i|m|m|]; cbn [handler_step] in Hs.
  - destruct (hd_forward h !! f); [done|]. injection Hs as <-. by eapply inv_same.
  - destruct (hd_forward h !! f) as [[e|d]|]; try done. destruct (served_step _ _ _ d); [|done].
    injection Hs as <-. by eapply inv_same.
  - destruct (hd_reverse h !! ch) eqn:Hc; [done|]. injection Hs as <-. apply inv_new_reverse; [done|done|].
    unfold openReverseTunnel_begin. destruct (NoReverseTunnels _); [done|]. by eexists _, _, _, _.
  - destruct (hd_reverse h !! ch) as [[e|c]|] eqn:Hc; try done. by eapply inv_next.
  - destruct (hd_reverse h !! ch) as [[e|c]|] eqn:Hc; try done. by eapply inv_channel.
  - destruct (hd_reverse h !! ch) as [[e|c]|] eqn:Hc; try done. apply in_tables_some in Hs as (r & Hr & ->).
    eapply inv_quiet_tables; [done|exact Hr|by intros ? []].
  - apply in_tables_some in Hs as (r & Hr & ->). eapply inv_quiet_tables; [done|exact Hr|by intros ? []].
  - injection Hs as <-. unfold multi_pick. destruct m as [|key].
    + destruct (pickAll (hd_registry h)) as [r o] eqn:Hp. simpl.
      apply (inv_quiet_tables h HPick); [done| |by intros ? []]. cbn [reverse_step]. by rewrite Hp.
    + destruct (pickKey key (hd_registry h)) as [r o] eqn:Hp. simpl.
      apply (inv_quiet_tables h (HPickKey key)); [done| |by intros ? []]. cbn [reverse_step]. by rewrite Hp.
  - injection Hs as <-. unfold multi_wait_begin. destruct m as [|key]; simpl; [done|].
    apply (inv_quiet_tables h (HWaitKey key)); [done|done|by intros ? []].
  - injection Hs as <-. by eapply inv_same.
Qed.

Lemma handler_start_inv options : handler_inv (NewTunnelServiceHandler options).
Proof. split; simpl; try done. by exists []. Qed.

Lemma handler_run_inv options ls h : run step ls (NewTunnelServiceHandler options) = Some h -> handler_inv h.
Proof. apply run_invariant; [apply handler_start_inv|]. intros. by eapply handler_inv_step. Qed.
End HandlerInvariant.

(** ** What the handler promises *)
Section HandlerProperties.
Context {K : Type} `{Countable K} `{StatusLib} `{MetadataAppend}.
Context (QueryService : string -> option ServiceDesc) (handlers : Z).

Abbreviation step := (handler_step QueryService handlers).

(** A tunnel is in one of the tables. *)
Definition listed (ch : Z) (h : handler K) : Prop :=
  ch ∈ AllReverseTunnels h \/ exists key k, (ch, k) ∈ entries key (hd_registry h).

Lemma handler_registry (h : handler K) : handler_inv h -> registry_inv (hd_registry h).
Proof. intros [(ls & Hls) _ _ _]. by eapply registry_run_inv. Qed.

Lemma listed_pc (ch : Z) (h : handler K) :
  handler_inv h -> listed ch h -> exists pc, table_pc ch h = Some pc /\ in_all pc = true.
Proof.
  intros Hinv Hl. pose proof (handler_registry h Hinv) as Hr. unfold table_pc, registered_pc.
  destruct Hl as [([ch' key] & -> & Hin)%list_elem_of_fmap|(key & k & Hin)].
  - destruct (hi_all _ Hr _ _ Hin) as (pc & Hp & Ha). exists pc. simpl. by rewrite Hp.
  - destruct (hi_key _ Hr _ _ _ Hin) as (_ & pc & Hp & Ha). exists pc. rewrite Hp. by destruct pc.
Qed.

Lemma unlisted (ch : Z) (h : handler K) :
  handler_inv h -> table_pc ch h = None \/ table_pc ch h = Some OReturned -> ~ listed ch h.
Proof. intros Hinv Hp (pc & E & Ha)%listed_pc; [|done]. destruct Hp; by simplify_eq. Qed.

Lemma listed_key (ch : Z) (h : handler K) (key k : option K) :
  handler_inv h -> (ch, k) ∈ entries key (hd_registry h) -> k = key /\ key = affinity ch h.
Proof.
  intros Hinv Hin. destruct (hi_key _ (handler_registry h Hinv) _ _ _ Hin) as (-> & pc & Hp & _).
  split; [done|]. by apply (dv_keys _ Hinv) with (pc := pc).
Qed.

Lemma never_removed_unlisted (ch : Z) (h : handler K) : handler_inv h -> never_added ch h \/ was_removed ch h -> ~ listed ch h.
Proof. intros Hinv [[E _]|[E _]]; apply unlisted; auto. Qed.

Lemma phase_callbacks (ch : Z) (c : rev_call) (h : handler K) :
  rev_phase ch c h -> callbacks_of ch h `prefix_of` on_open ch h ++ on_close ch h.
Proof.
  unfold rev_phase, never_added, was_removed. intros Hp.
  assert (callbacks_of ch h = [] \/ callbacks_of ch h = on_open ch h \/
    callbacks_of ch h = on_open ch h ++ on_close ch h) as [->|[->| ->]].
  { destruct (rv_pc c) as [| | | | | |[]|?|?|?|?|?]; tauto. }
  - by apply prefix_nil. - by apply prefix_app_r. - done.
Qed.

(** C11: The life of a reverse tunnel, under every interleaving of all calls, closings
    and RPCs: the user is told at most once that it connected and at most once, later,
    that it disconnected; from its connect callback until it is done or is closed it is
    in the list of all tunnels and in that of its affinity key (and of no other key);
    no tunnel is listed before its settings have arrived; and once [openReverseTunnel]
    has returned the channel is closed, in no list, and the user was told of both events
    or of none. *)
Theorem reverse_tunnel_lifecycle options ls (h : handler K) ch c :
  run step ls (NewTunnelServiceHandler options) = Some h -> hd_reverse h !! ch = Some (inr c) ->
  callbacks_of ch h `prefix_of` on_open ch h ++ on_close ch h /\
  ((rv_pc c = RvConnect \/ rv_pc c = RvWait) -> ch ∉ h_unregistered (hd_registry h) ->
     ch ∈ AllReverseTunnels h /\ (ch, affinity ch h) ∈ entries (affinity ch h) (hd_registry h)) /\
  (forall key k, (ch, k) ∈ entries key (hd_registry h) -> key = affinity ch h) /\
  (listed ch h -> ch_settings (rv_channel c) <> None) /\
  (forall err, rv_pc c = RvReturned err ->
     ch_finished (rv_channel c) = true /\ ~ listed ch h /\
     (callbacks_of ch h = [] \/ callbacks_of ch h = on_open ch h ++ on_close ch h)).
Proof.
  intros Hrun Hc. pose proof (handler_run_inv _ _ _ _ _ Hrun) as Hinv.
  destruct (dv_calls _ Hinv ch c Hc) as [R1 R2 R3 R4]. split_and!.
  - by eapply phase_callbacks.
  - intros Hpc Hun. assert (Hw : table_pc ch h = Some OWait).
    { unfold rev_phase in R2. destruct Hpc as [E|E]; rewrite E in R2; tauto. }
    unfold table_pc, registered_pc in Hw.
    destruct (h_tunnels (hd_registry h) !! ch) as [[pc key]|] eqn:Hp; [|done]. injection Hw as ->.
    pose proof (dv_keys _ Hinv _ _ _ Hp) as ->.
    pose proof (handler_registry h Hinv) as Hr. split.
    + apply list_elem_of_fmap. exists (ch, affinity ch h). split; [done|]. by eapply (hi_live_all _ Hr).
    + by eapply (hi_live_key _ Hr).
  - intros key k Hin. by destruct (listed_key ch h key k Hinv Hin).
  - intros (pc & Hp & _)%listed_pc; [|done]. apply R3. by rewrite Hp.
  - intros err Hpc. unfold rev_phase in R2. rewrite Hpc in R2. destruct R2 as (Hn & Hf & _).
    split_and!; [done|by apply never_removed_unlisted|]. destruct Hn as [[_ ?]|[_ ?]]; auto.
Qed.

(** *** RPCs over AsChannel and KeyAsChannel *)
Lemma multi_ready_pick (m : multiChannel K) (h : handler K) :
  handler_inv h ->
  match snd (multi_pick m h) with
  | Some ch => multi_Ready m h = true /\ listed ch h /\
      match m with TunnelsOf key => exists k, (ch, k) ∈ entries key (hd_registry h) | AllTunnels => True end
  | None => multi_Ready m h = false
  end.
Proof.
  intros Hinv. pose proof (handler_registry h Hinv) as Hr.
  assert (Hpick : forall rc : reverseChannels (option K), rc_ok rc -> match snd (pick rc) with
    | Some ch => ready rc = true /\ exists k, (ch, k) ∈ rc_chans rc
    | None => ready rc = false end).
  { intros rc Hok. unfold ready. destruct (decide (rc_chans rc = [])) as [Hnil|Hne].
    - unfold pick. by rewrite Hnil.
    - destruct (pick_next rc (ro_idx _ Hok) Hne) as [Hlt ->]. simpl.
      destruct (lookup_lt_is_Some_2 (rc_chans rc) _ Hlt) as [[ch k] Hk].
      unfold allChans. rewrite list_lookup_fmap, Hk. simpl. split; [|exists k; by eapply list_elem_of_lookup_2].
      destruct (rc_chans rc) as [|e l]; [done|]. rewrite len_cons. pose proof (len_nonneg l).
      apply Z.gtb_lt. lia. }
  destruct m as [|key]; unfold multi_pick, multi_Ready.
  - specialize (Hpick _ (hi_all_ok _ Hr)). unfold pickAll. destruct (pick _) as [c [ch|]]; simpl in *; [|done].
    destruct Hpick as [? [k Hk]]. split_and!; [done| |done]. left. apply list_elem_of_fmap. by exists (ch, k).
  - unfold pickKey, keyIsReady. destruct (h_byKey (hd_registry h) !! key) as [rc|] eqn:Hrc; [|done].
    specialize (Hpick _ (hi_key_ok _ Hr _ _ Hrc)). destruct (pick rc) as [c [ch|]]; simpl in *; [|done].
    destruct Hpick as [? [k Hk]].
    assert (He : (ch, k) ∈ entries key (hd_registry h)) by (unfold entries; by rewrite Hrc).
    split_and!; [done|right; by exists key, k|by exists k].
Qed.

(** C17: An RPC over the channel of [AsChannel] or [KeyAsChannel] fails with
    [Unavailable] exactly when [Ready] is false; otherwise it goes to a reverse tunnel
    whose call has not returned, which has its settings (so that creating the stream
    cannot dereference nil) and, for [KeyAsChannel], has the affinity key asked for. *)
Theorem multi_call_outcome options ls (h : handler K) (m : multiChannel K) :
  run step ls (NewTunnelServiceHandler options) = Some h ->
  match snd (multi_call m h) with
  | inr ch => multi_Ready m h = true /\
      exists c, hd_reverse h !! ch = Some (inr c) /\ ch_settings (rv_channel c) <> None /\
        (forall err, rv_pc c <> RvReturned err) /\
        match m with TunnelsOf key => key = affinity ch h | AllTunnels => True end
  | inl e => multi_Ready m h = false /\ e = Errorf Unavailable "no channels ready" []
  end.
Proof.
  intros Hrun. pose proof (handler_run_inv _ _ _ _ _ Hrun) as Hinv.
  pose proof (multi_ready_pick m h Hinv) as Hp. unfold multi_call.
  destruct (multi_pick m h) as [h' [ch|]]; simpl in *; [|done].
  destruct Hp as (Hready & Hl & Hk). split; [done|].
  destruct (listed_pc ch h Hinv Hl) as (pc & Hpc & _).
  assert (Hc : exists c, hd_reverse h !! ch = Some (inr c)).
  { destruct (hd_reverse h !! ch) as [[e|c]|] eqn:E; [|by exists c|];
      destruct (dv_others _ Hinv ch) as [F _]; try (by intros c; rewrite E); congruence. }
  destruct Hc as [c Hc]. exists c. destruct (dv_calls _ Hinv ch c Hc) as [R1 R2 R3 R4].
  split_and!; [done|apply R3; by rewrite Hpc| |].
  - intros err E. unfold rev_phase in R2. rewrite E in R2. destruct R2 as (Hn & _).
    by apply (never_removed_unlisted ch h Hinv Hn).
  - destruct m as [|key]; [done|]. destruct Hk as [k Hk]. by destruct (listed_key ch h key k Hinv Hk).
Qed.

(** *** InitiateShutdown *)
Lemma served_step_closing b l d :
  l <> SdIsClosing -> served_step QueryService b l d = served_step QueryService (negb b) l d.
Proof. by destruct l. Qed.

Lemma in_tables_shutdown l (h : handler K) :
  in_tables l (InitiateShutdown h) = InitiateShutdown <$> in_tables l h.
Proof. unfold in_tables. simpl. by destruct (reverse_step l (hd_registry h)). Qed.

Lemma next_shutdown ch c (h : handler K) :
  openReverseTunnel_next ch c (InitiateShutdown h) = InitiateShutdown <$> openReverseTunnel_next ch c h.
Proof.
  unfold openReverseTunnel_next. destruct (rv_pc c) as [| | | | | |[]|?|?|?|?|?]; try done.
  - by destruct (settings_decided _).
  - by destruct (is_done _).
  - rewrite in_tables_shutdown. by destruct (in_tables _ h).
  - rewrite in_tables_shutdown. by destruct (in_tables _ h).
  - destruct (is_done _); [|done]. rewrite in_tables_shutdown. by destruct (in_tables _ h).
  - change (call_back ?b ?e (InitiateShutdown h)) with (InitiateShutdown (call_back b e h)).
    rewrite in_tables_shutdown. by destruct (in_tables _ _).
  - rewrite in_tables_shutdown. by destruct (in_tables _ h).
Qed.

(** Nothing but [isClosing] looks at [stopping]. *)
Lemma shutdown_step l (h : handler K) :
  (forall f, l <> DServed f SdIsClosing) -> step l (InitiateShutdown h) = InitiateShutdown <$> step l h.
Proof.
  intros Hl. destruct l as [f md ce|f l|ch md sec ce|ch|ch l|ch|i|m|m|]; cbn [handler_step InitiateShutdown hd_forward hd_reverse].
  - by destruct (hd_forward h !! f).
  - destruct (hd_forward h !! f) as [[e|d]|]; try done.
    change (hd_stopping (InitiateShutdown h)) with true.
    assert (Hn : l <> SdIsClosing) by (intros ->; by apply (Hl f)).
    assert (E : served_step QueryService true l d = served_step QueryService (hd_stopping h) l d)
      by (destruct (hd_stopping h); [done|by apply served_step_closing]).
    rewrite E. by destruct (served_step QueryService (hd_stopping h) l d).
  - by destruct (hd_reverse h !! ch).
  - destruct (hd_reverse h !! ch) as [[e|c]|]; try done. apply next_shutdown.
  - destruct (hd_reverse h !! ch) as [[e|c]|]; try done. unfold channel_action.
    destruct (channel_step l (rv_channel c)) as [chan|]; [|done]. simpl. by destruct (_ && _).
  - by destruct (hd_reverse h !! ch) as [[e|c]|].
  - apply in_tables_shutdown.
  - unfold multi_pick. destruct m; simpl; [by destruct (pickAll _)|by destruct (pickKey _ _)].
  - by destruct m.
  - done.
Qed.

(** The streams of the forward tunnel [f], as in [may_run]. *)
Definition running (f : Z) (h : handler K) : gset Z :=
  match hd_forward h !! f with Some (inr d) => may_run d | _ => ∅ end.

Lemma running_set f f' d (h : handler K) :
  running f (dset_forward f' d h) =
  if decide (f = f') then match d with inr d => may_run d | inl _ => ∅ end else running f h.
Proof.
  unfold running. simpl. destruct (decide (f = f')) as [->|Hne]; [by rewrite lookup_insert_eq|].
  by rewrite lookup_insert_ne.
Qed.

Lemma next_forward ch c (h h' : handler K) :
  openReverseTunnel_next ch c h = Some h' -> hd_forward h' = hd_forward h /\ hd_stopping h' = hd_stopping h.
Proof.
  unfold openReverseTunnel_next.
  destruct (rv_pc c) as [| | | | | |[]|?|?|?|?|?]; try (by intros [= <-]); try done;
    try (by intros (h1 & (r & _ & ->)%in_tables_some & [= <-])%bind_some).
  - by destruct (settings_decided _); [intros [= <-]|].
  - by destruct (is_done _); intros [= <-].
  - destruct (is_done _); [|done]. by intros (h1 & (r & _ & ->)%in_tables_some & [= <-])%bind_some.
Qed.

Lemma openTunnel_running md ctxErr (h : handler K) :
  match openTunnel handlers md ctxErr h with inr d => may_run d | inl _ => ∅ end = ∅.
Proof. unfold openTunnel. destruct (handlers =? 0); [done|]. unfold may_run. simpl. by rewrite dom_empty_L, union_empty_r_L. Qed.

Lemma stopping_step l (h h' : handler K) :
  hd_stopping h = true -> step l h = Some h' ->
  hd_stopping h' = true /\ forall f, running f h' ⊆ running f h.
Proof.
  intros Hst Hs.
  assert (Hsame : hd_forward h' = hd_forward h -> forall f, running f h' ⊆ running f h)
    by (intros E f; unfold running; by rewrite E).
  destruct l as [f md ce|f l|ch md sec ce|ch|ch l|ch|i|m|m|]; cbn [handler_step] in Hs.
  - destruct (hd_forward h !! f) as [|] eqn:E; [done|]. injection Hs as <-. split; [done|]. intros f'.
    rewrite running_set. destruct (decide (f' = f)) as [->|]; [|done]. rewrite openTunnel_running. apply empty_subseteq.
  - destruct (hd_forward h !! f) as [[e|d]|] eqn:E; try done. rewrite Hst in Hs.
    destruct (served_step _ _ _ d) as [d'|] eqn:Hd; [|done]. injection Hs as <-. split; [done|]. intros f'.
    rewrite running_set. destruct (decide (f' = f)) as [->|]; [|done]. unfold running. rewrite E.
    by eapply served_step_may_run.
  - destruct (hd_reverse h !! ch); [done|]. injection Hs as <-. split; [done|by apply Hsame].
  - destruct (hd_reverse h !! ch) as [[e|c]|]; try done. apply next_forward in Hs as [E1 E2].
    split; [congruence|by apply Hsame].
  - destruct (hd_reverse h !! ch) as [[e|c]|]; try done. unfold channel_action in Hs.
    destruct (channel_step l (rv_channel c)); [|done]. destruct (_ && _); [done|]. injection Hs as <-.
    split; [done|by apply Hsame].
  - destruct (hd_reverse h !! ch) as [[e|c]|]; try done. apply in_tables_some in Hs as (r & _ & ->).
    split; [done|by apply Hsame].
  - apply in_tables_some in Hs as (r & _ & ->). split; [done|by apply Hsame].
  - injection Hs as <-. unfold multi_pick in *. destruct m; simpl in *; [destruct (pickAll _)|destruct (pickKey _ _)]; simpl in *;
      (split; [done|by apply Hsame]).
  - injection Hs as <-. destruct m; simpl in *; (split; [done|by apply Hsame]).
  - injection Hs as <-. split; [done|by apply Hsame].
Qed.

(** C15: InitiateShutdown drains the forward tunnels: whatever happens after it, no
    tunnel has a stream that was not there (or for which [isClosing] had not returned
    false) when it was called, and new tunnels get none.  It disturbs nothing else:
    every other action, of the streams that exist, of the reverse tunnels and of the
    RPCs over them, is possible and has the same effect with it and without it. *)
Theorem shutdown_drains ls (h h' : handler K) :
  run step ls (InitiateShutdown h) = Some h' ->
  (hd_stopping h' = true /\ forall f, running f h' ⊆ running f h) /\
  forall l, (forall f, l <> DServed f SdIsClosing) ->
    step l (InitiateShutdown h) = InitiateShutdown <$> step l h.
Proof.
  intros Hrun. split; [|intros l; apply shutdown_step].
  revert h' Hrun. apply (run_invariant step (fun h' => hd_stopping h' = true /\ forall f, running f h' ⊆ running f h));
    [done|].
  intros l h1 h2 [Hs Hr] Hl. destruct (stopping_step l h1 h2 Hs Hl) as [Hs' Hr'].
  split; [done|]. intros f. etrans; [apply Hr'|apply Hr].
Qed.

(** *** A tunnel that is done is put away *)
Definition table_measure (pc : option open_pc) : Z :=
  match pc with
  | Some OAddAll => 3 | Some OForKey => 2 | Some OAddKey => 1
  | Some ORemoveKey => 2 | Some ORemoveAll => 1 | _ => 0
  end.

(** How many steps [openReverseTunnel] still makes at most. *)
Definition rev_measure (ch : Z) (c : rev_call) (h : handler K) : Z :=
  match rv_pc c with
  | RvSettings => 14 | RvCheck => 13 | RvKey => 12
  | RvAdding => 8 + table_measure (table_pc ch h)
  | RvConnect => 8 | RvWait => 7 | RvErr _ => 6 | RvDisconnect _ => 5
  | RvRemoving _ => 2 + table_measure (table_pc ch h)
  | RvTearDown _ => 2 | RvClose _ => 1 | RvReturned _ => 0
  end.

(** The tables never make the goroutine of a tunnel wait, but for its channel. *)
Lemma tables_enabled ch pc (h : handler K) :
  table_pc ch h = Some pc -> pc <> OReturned -> (pc = OWait -> ch ∈ h_done (hd_registry h)) ->
  exists r, reverse_step (HStep ch) (hd_registry h) = Some r.
Proof.
  unfold table_pc, registered_pc. intros Hp Hr Hw. cbn [reverse_step]. unfold openReverseTunnel.
  destruct (h_tunnels (hd_registry h) !! ch) as [[pc' key]|]; [|done]. injection Hp as ->.
  destruct pc; try done; try (by eexists).
  - destruct (add ch key _); by eexists.
  - destruct (h_byKey _ !! key) as [rc|]; [|by eexists]. destruct (add ch key rc); by eexists.
  - destruct (bool_decide _) eqn:E; [by eexists|]. by apply bool_decide_eq_false in E; destruct E; apply Hw.
Qed.

Lemma next_progress ch c (h : handler K) :
  handler_inv h -> hd_reverse h !! ch = Some (inr c) -> ch_ctxErr (rv_channel c) <> None ->
  (exists err, rv_pc c = RvReturned err) \/
  exists h' c', openReverseTunnel_next ch c h = Some h' /\ hd_reverse h' !! ch = Some (inr c') /\
    0 <= rev_measure ch c' h' < rev_measure ch c h.
Proof.
  intros Hinv Hc Hd. destruct (dv_calls _ Hinv ch c Hc) as [R1 R2 R3 R4]. unfold rev_phase in R2.
  assert (Hdone : is_done (rv_channel c) = true) by (unfold is_done; by destruct (ch_ctxErr _)).
  assert (Hdec : settings_decided (rv_channel c) = true)
    by (unfold settings_decided; destruct (ch_ctxErr _); [by destruct (ch_settings _)|done]).
  unfold openReverseTunnel_next. rewrite Hdone, Hdec.
  assert (Hgo : forall (o : option (handler K)) h1 pc n,
    o = Some (dset_reverse ch (inr (RevCall pc (rv_channel c))) h1) ->
    0 <= rev_measure ch (RevCall pc (rv_channel c)) h1 < n ->
    exists h' c', o = Some h' /\ hd_reverse h' !! ch = Some (inr c') /\ 0 <= rev_measure ch c' h' < n).
  { intros o h1 pc n -> Hn. eexists _, _. split; [done|]. simpl. rewrite lookup_insert_eq. by split. }
  assert (Htab : forall pc, table_pc ch h = Some pc -> pc <> OReturned -> (pc = OWait -> ch ∈ h_done (hd_registry h)) ->
    exists r, in_tables (HStep ch) h = Some (dset_registry r h) /\
      table_pc ch (dset_registry r h) = Some (next_pc pc)).
  { intros pc Hp Hr Hw. destruct (tables_enabled ch pc h Hp Hr Hw) as [r Hs]. exists r. split.
    - unfold in_tables. by rewrite Hs.
    - by apply (table_step h ch r pc Hinv Hs). }
  destruct (rv_pc c) as [| | | | | |[]|err|err|err|err|err] eqn:Hpc; [right..|by left; exists err];
    unfold rev_measure at 3; rewrite Hpc.
  - by eapply Hgo.
  - by eapply Hgo.
  - destruct R2 as [[Hn _] _]. unfold table_pc, registered_pc in Hn.
    destruct (h_tunnels (hd_registry h) !! ch) eqn:E; [done|].
    eapply Hgo; [unfold in_tables; cbn [reverse_step]; by rewrite E|].
    unfold rev_measure, table_pc, registered_pc. simpl. by rewrite lookup_insert_eq.
  - destruct R2 as [Hp _].
    assert (exists pc, table_pc ch h = Some pc /\ (pc = OAddAll \/ pc = OForKey \/ pc = OAddKey)) as (pc & Hpc' & Hcase)
      by (destruct Hp as [|[|]]; eexists; eauto).
    destruct (Htab pc Hpc') as (r & Hr & Hr'); [by intros ->; destruct Hcase as [|[|]]..|].
    eapply Hgo; [by rewrite Hr|]. change (registered_pc ch ?x) with (table_pc ch x).
    unfold rev_measure. simpl. rewrite Hr', Hpc'. by destruct Hcase as [->|[->| ->]].
  - by eapply Hgo.
  - by eapply Hgo.
  - by eapply Hgo.
  - by eapply Hgo.
  - destruct R2 as (Hp & _ & _ & Hin).
    destruct (tables_enabled ch OWait h Hp) as [r Hs]; [done..|].
    set (h0 := call_back _ _ h).
    assert (Ht : in_tables (HStep ch) h0 = Some (dset_registry r h0))
      by (unfold in_tables; change (hd_registry h0) with (hd_registry h); by rewrite Hs).
    eapply Hgo; [by rewrite Ht|]. unfold rev_measure, h0. simpl.
    change (table_pc ch (dset_registry r (call_back ?b ?e h))) with (table_pc ch (dset_registry r h)).
    by rewrite (table_step h ch r OWait Hinv Hs Hp).
  - destruct R2 as (Hp & _).
    assert (exists pc, table_pc ch h = Some pc /\ (pc = ORemoveKey \/ pc = ORemoveAll)) as (pc & Hpc' & Hcase)
      by (destruct Hp; eexists; eauto).
    destruct (Htab pc Hpc') as (r & Hr & Hr'); [by intros ->; destruct Hcase..|].
    eapply Hgo; [by rewrite Hr|]. change (registered_pc ch ?x) with (table_pc ch x).
    unfold rev_measure. simpl. rewrite Hr', Hpc'. by destruct Hcase as [->| ->].
  - by eapply Hgo.
  - eexists _, _. split; [done|]. simpl. rewrite lookup_insert_eq. by split.
Qed.
Lemma in_tables_quiet ch l (h h' : handler K) :
  in_tables l h = Some h' -> ~ moves l ch -> table_pc ch h' = table_pc ch h /\ hd_reverse h' = hd_reverse h.
Proof.
  intros (r & Hr & ->)%in_tables_some Hl. split; [by eapply table_quiet|done].
Qed.

Lemma next_others ch ch' c (h h' : handler K) :
  openReverseTunnel_next ch' c h = Some h' -> ch' <> ch ->
  hd_reverse h' !! ch = hd_reverse h !! ch /\ table_pc ch h' = table_pc ch h.
Proof.
  intros Hs Hne. unfold openReverseTunnel_next in Hs.
  assert (Hgo : forall pc (h1 : handler K), Some (dset_reverse ch' (inr (RevCall pc (rv_channel c))) h1) = Some h' ->
    table_pc ch h1 = table_pc ch h -> hd_reverse h1 = hd_reverse h ->
    hd_reverse h' !! ch = hd_reverse h !! ch /\ table_pc ch h' = table_pc ch h).
  { intros pc h1 [= <-] E2 E1. simpl. by rewrite lookup_insert_ne, E1. }
  destruct (rv_pc c) as [| | | | | |[]|err|err|err|err|err]; try done.
  - destruct (settings_decided _); [|done]. by apply (Hgo _ _ Hs).
  - destruct (is_done _); by apply (Hgo _ _ Hs).
  - apply bind_some in Hs as (h1 & Ht & Hs). apply (in_tables_quiet ch) in Ht as [E1 E2]; [|by intros ->]. by apply (Hgo _ _ Hs).
  - apply bind_some in Hs as (h1 & Ht & Hs). apply (in_tables_quiet ch) in Ht as [E1 E2]; [|by intros ->]. by apply (Hgo _ _ Hs).
  - by apply (Hgo _ _ Hs).
  - destruct (is_done _); [|done].
    apply bind_some in Hs as (h1 & Ht & Hs). apply (in_tables_quiet ch) in Ht as [E1 E2]; [|by intros []]. by apply (Hgo _ _ Hs).
  - by apply (Hgo _ _ Hs).
  - by apply (Hgo _ _ Hs).
  - apply bind_some in Hs as (h1 & Ht & Hs). apply (in_tables_quiet ch) in Ht as [E1 E2]; [|by intros ->]. by apply (Hgo _ _ Hs).
  - apply bind_some in Hs as (h1 & Ht & Hs). apply (in_tables_quiet ch) in Ht as [E1 E2]; [|by intros ->]. by apply (Hgo _ _ Hs).
  - apply bind_some in Hs as (h1 & Ht & Hs). apply (in_tables_quiet ch) in Ht as [E1 E2]; [|by intros []]. by apply (Hgo _ _ Hs).
  - injection Hs as <-. simpl. by rewrite lookup_insert_ne.
Qed.

(** The other actions leave the goroutine where it is, and its channel done. *)
Lemma others_step l ch c (h h' : handler K) :
  handler_inv h -> hd_reverse h !! ch = Some (inr c) -> step l h = Some h' -> l <> DReverse ch ->
  exists c', hd_reverse h' !! ch = Some (inr c') /\ chan_grows (rv_channel c) (rv_channel c') /\
    rev_measure ch c' h' = rev_measure ch c h.
Proof.
  intros Hinv Hc Hs Hl. destruct (dv_calls _ Hinv ch c Hc) as [R1 _ _ _].
  assert (Hsame : hd_reverse h' = hd_reverse h -> table_pc ch h' = table_pc ch h ->
    exists c', hd_reverse h' !! ch = Some (inr c') /\ chan_grows (rv_channel c) (rv_channel c') /\
      rev_measure ch c' h' = rev_measure ch c h).
  { intros E1 E2. exists c. rewrite E1. split_and!; [done|by apply chan_grows_refl|]. unfold rev_measure. by rewrite E2. }
  destruct l as [f md ce|f l|ch' md sec ce|ch'|ch' l|ch'|i|m|m|]; cbn [handler_step] in Hs.
  - destruct (hd_forward h !! f); [done|]. injection Hs as <-. by apply Hsame.
  - destruct (hd_forward h !! f) as [[e|d]|]; try done. destruct (served_step _ _ _ d); [|done].
    injection Hs as <-. by apply Hsame.
  - destruct (hd_reverse h !! ch') eqn:E; [done|]. injection Hs as <-. exists c.
    simpl. rewrite lookup_insert_ne by congruence. split_and!; [done|by apply chan_grows_refl|done].
  - destruct (hd_reverse h !! ch') as [[e|c']|]; try done.
    destruct (next_others ch ch' c' h h' Hs) as [E1 E2]; [congruence|].
    exists c. rewrite E1. split_and!; [done|by apply chan_grows_refl|]. unfold rev_measure. by rewrite E2.
  - destruct (hd_reverse h !! ch') as [[e|c']|] eqn:E; try done. unfold channel_action in Hs.
    destruct (channel_step l (rv_channel c')) as [chan|] eqn:Hst; [|done]. destruct (_ && _); [done|]. injection Hs as <-.
    destruct (decide (ch' = ch)) as [->|Hne].
    + assert (c' = c) as -> by congruence. eexists. simpl. rewrite lookup_insert_eq.
      split_and!; [done|by eapply channel_step_grows|done].
    + exists c. simpl. rewrite lookup_insert_ne by done. split_and!; [done|by apply chan_grows_refl|done].
  - destruct (hd_reverse h !! ch') as [[e|c']|]; try done.
    apply (in_tables_quiet ch) in Hs as [E1 E2]; [|by intros []]. by apply Hsame.
  - apply (in_tables_quiet ch) in Hs as [E1 E2]; [|by intros []]. by apply Hsame.
  - injection Hs as <-. unfold multi_pick in *. destruct m as [|key].
    + destruct (pickAll_same (hd_registry h)) as (E1 & E2 & E3). destruct (pickAll _); apply Hsame; [done|].
      unfold table_pc, registered_pc. simpl in *. by rewrite E1.
    + destruct (pickKey_same key (hd_registry h)) as (E1 & E2 & E3). destruct (pickKey _ _); apply Hsame; [done|].
      unfold table_pc, registered_pc. simpl in *. by rewrite E1.
  - injection Hs as <-. destruct m as [|key]; [by apply Hsame|]. apply Hsame; [done|].
    unfold table_pc, registered_pc. simpl. unfold reverseChannelsForKey. by destruct (h_byKey _ !! key).
  - injection Hs as <-. by apply Hsame.
Qed.

Lemma next_done ch c (h h' : handler K) :
  chan_ok (rv_channel c) -> openReverseTunnel_next ch c h = Some h' ->
  exists c', hd_reverse h' !! ch = Some (inr c') /\ chan_grows (rv_channel c) (rv_channel c').
Proof.
  intros Hok. unfold openReverseTunnel_next.
  assert (Hgo : forall pc (h1 : handler K),
    Some (dset_reverse ch (inr (RevCall pc (rv_channel c))) h1) = Some h' ->
    exists c', hd_reverse h' !! ch = Some (inr c') /\ chan_grows (rv_channel c) (rv_channel c')).
  { intros pc h1 [= <-]. eexists. simpl. rewrite lookup_insert_eq. split; [done|by apply chan_grows_refl]. }
  destruct (rv_pc c) as [| | | | | |[]|err|err|err|err|err]; try done;
    try (by apply Hgo); try (by intros (h1 & _ & Hs)%bind_some; eapply Hgo).
  - destruct (settings_decided _); [apply Hgo|done].
  - destruct (is_done _); apply Hgo.
  - destruct (is_done _); [|done]. intros (h1 & _ & Hs)%bind_some. by eapply Hgo.
  - intros [= <-]. eexists. simpl. rewrite lookup_insert_eq. split; [done|by apply chan_grows_close].
Qed.

(** The steps of one goroutine in a run. *)
Definition steps_of (ch : Z) (ls : list (handler_label (K := K))) : Z :=
  len (filter (fun l => match l with DReverse ch' => bool_decide (ch' = ch) | _ => false end = true) ls).

Lemma steps_of_cons ch l ls :
  (l = DReverse ch -> steps_of ch (l :: ls) = 1 + steps_of ch ls) /\
  (l <> DReverse ch -> steps_of ch (l :: ls) = steps_of ch ls).
Proof.
  unfold steps_of. rewrite filter_cons. split; intros Hl.
  - subst l. rewrite decide_True by (by apply bool_decide_eq_true). by rewrite len_cons.
  - rewrite decide_False; [done|]. destruct l; try done. rewrite bool_decide_eq_true. congruence.
Qed.

Lemma put_away_run ls ch c (h h' : handler K) :
  handler_inv h -> hd_reverse h !! ch = Some (inr c) -> ch_ctxErr (rv_channel c) <> None ->
  run step ls h = Some h' ->
  handler_inv h' /\ exists c', hd_reverse h' !! ch = Some (inr c') /\ ch_ctxErr (rv_channel c') <> None /\
    0 <= rev_measure ch c' h' /\ steps_of ch ls + rev_measure ch c' h' <= rev_measure ch c h.
Proof.
  revert c h. induction ls as [|l ls IH]; intros c h Hinv Hc Hd Hrun; simpl in Hrun.
  - injection Hrun as <-. split; [done|]. exists c. split_and!; [done|done| |done].
    unfold rev_measure. destruct (rv_pc c); try done; by destruct (table_pc ch h) as [[]|].
  - destruct (step l h) as [h1|] eqn:Hs; [|done].
    pose proof (handler_inv_step _ _ _ _ _ Hinv Hs) as Hinv1. destruct (steps_of_cons ch l ls) as [S1 S2].
    assert (l = DReverse ch \/ l <> DReverse ch) as [->|Hl]
      by (destruct l as [| | |ch'| | | | | |]; try (by right); destruct (decide (ch' = ch)); [left|right]; congruence).
    + rewrite (S1 eq_refl). cbn [handler_step] in Hs. rewrite Hc in Hs.
      destruct (next_progress ch c h Hinv Hc Hd) as [[err E]|(h2 & c2 & E & Hc2 & Hm)].
      * unfold openReverseTunnel_next in Hs. by rewrite E in Hs.
      * assert (h2 = h1) as -> by congruence.
        destruct (next_done ch c h h1 (rk_chan _ _ _ (dv_calls _ Hinv ch c Hc)) Hs) as (c3 & Hc3 & Hg).
        assert (c3 = c2) as -> by congruence.
        destruct (IH c2 h1 Hinv1 Hc2 (gr_done _ _ Hg Hd) Hrun) as (? & c' & ? & ? & ? & ?).
        split; [done|]. exists c'. split_and!; [done|done|done|lia].
    + rewrite (S2 Hl).
      destruct (others_step l ch c h h1 Hinv Hc Hs Hl) as (c1 & Hc1 & Hg & <-).
      apply (IH c1 h1); auto. by apply (gr_done _ _ Hg).
Qed.

(** C13: A reverse tunnel that is done is put away: from then on its goroutine, at
    every moment, has returned or can go on, nothing can make it wait, and it has
    returned after at most fourteen more steps of its own, whatever the other
    goroutines do in between. *)
Theorem openReverseTunnel_returns options ls ks (h h' : handler K) ch c :
  run step ls (NewTunnelServiceHandler options) = Some h ->
  hd_reverse h !! ch = Some (inr c) -> ch_ctxErr (rv_channel c) <> None ->
  run step ks h = Some h' ->
  steps_of ch ks <= 14 /\
  exists c', hd_reverse h' !! ch = Some (inr c') /\
    ((exists err, rv_pc c' = RvReturned err) \/ is_Some (step (DReverse ch) h')).
Proof.
  intros Hls Hc Hd Hks. pose proof (handler_run_inv _ _ _ _ _ Hls) as Hinv.
  destruct (put_away_run ks ch c h h' Hinv Hc Hd Hks) as (Hinv' & c' & Hc' & Hd' & Hm & Hle). split.
  - assert (rev_measure ch c h <= 14); [|lia].
    unfold rev_measure. destruct (rv_pc c); try done; by destruct (table_pc ch h) as [[]|].
  - exists c'. split; [done|]. destruct (next_progress ch c' h' Hinv' Hc' Hd') as [?|(h2 & c2 & E & _)]; [by left|].
    right. cbn [handler_step]. rewrite Hc', E. by eexists.
Qed.
End HandlerProperties.

(** ** Examples: one reverse tunnel from its start to its end, with one RPC. *)
Module HandlerExample.
#[local] Existing Instance ExampleStatus.lib.
#[local] Existing Instance ExampleMetadata.lib.
#[local] Existing Instance ExampleAppend.lib.

Definition options : TunnelServiceHandlerOptions string :=
  HandlerOptions false true true (Some (fun _ => Some "blue"%string)) 0 0 0 0.
Definition label : Type := handler_label (K := string).
Definition start : handler string := NewTunnelServiceHandler options.
Definition step : label -> handler string -> option (handler string) :=
  handler_step (K := string) TunnelServerExample.services 1.
Definition at_end (ls : list label) : handler string := default start (run step ls start).
Definition headers : MD := Some {[grpctunnelNegotiateKey := [grpctunnelNegotiateVal]]}.
Definition goes (n : nat) : list label := replicate n (DReverse 1).
Definition blue : multiChannel string := TunnelsOf (Some "blue"%string).

(** It is established, and connected. *)
Definition waiting : list label :=
  [DOpenReverse 1 headers false None; DChannel 1 KStart;
   DChannel 1 (KRecv (inr (settings_message (hd_tunnelOpts start))))] ++ goes 7.
(** The other end closes it while it waits. *)
Definition finished : list label := waiting ++ [DPick blue; DUnregister 1; DChannel 1 (KRecv (inl EOF))].
Definition returned : list label := finished ++ goes 7.

(** A forward tunnel with one RPC, and one that is being created, at the shutdown. *)
Definition new_stream (id : Z) : ClientToServer :=
  MkClientToServer id (Some (ClientToServer_NewStream (TunnelServerExample.new_stream_frame "/svc/Get"))).
Definition serving : list label :=
  DOpenTunnel 1 headers None ::
  (DServed 1 <$> [SdFrame (new_stream 1); SdIsClosing; SdCreate; SdFrame (new_stream 2); SdIsClosing]).
Definition draining : list label :=
  DServed 1 <$> [SdCreate; SdFrame (new_stream 3); SdIsClosing; SdCreate].

Definition tunnel (ls : list label) : rev_call :=
  match hd_reverse (at_end ls) !! 1 with
  | Some (inr c) => c
  | _ => RevCall RvSettings (newReverseChannel headers false (hd_tunnelOpts start) None)
  end.
End HandlerExample.

Lemma reverse_tunnel_lifecycle_witness :
  rv_pc (HandlerExample.tunnel HandlerExample.returned) = RvReturned None /\
  hd_callbacks (HandlerExample.at_end HandlerExample.returned) = [Connected 1; Disconnected 1] /\
  ~ listed 1 (HandlerExample.at_end HandlerExample.returned).
Proof.
  split; [vm_compute; reflexivity|]. split; [vm_compute; reflexivity|].
  exact (proj1 (proj2 (proj2 (proj2 (proj2 (proj2 (reverse_tunnel_lifecycle
    (H0 := ExampleStatus.lib) (H1 := ExampleMetadata.lib) (H2 := ExampleAppend.lib)
    TunnelServerExample.services 1 HandlerExample.options HandlerExample.returned
    (HandlerExample.at_end HandlerExample.returned) 1 (HandlerExample.tunnel HandlerExample.returned)
    ltac:(vm_compute; reflexivity) ltac:(vm_compute; reflexivity))))) None ltac:(vm_compute; reflexivity)))).
Defined.

Lemma multi_call_outcome_witness :
  multi_Ready HandlerExample.blue (HandlerExample.at_end HandlerExample.waiting) = true.
Proof.
  exact (proj1 (multi_call_outcome
    (H0 := ExampleStatus.lib) (H1 := ExampleMetadata.lib) (H2 := ExampleAppend.lib)
    TunnelServerExample.services 1 HandlerExample.options HandlerExample.waiting
    (HandlerExample.at_end HandlerExample.waiting) HandlerExample.blue ltac:(vm_compute; reflexivity))).
Defined.

Lemma shutdown_drains_witness :
  running 1 (default HandlerExample.start
    (run HandlerExample.step HandlerExample.draining (InitiateShutdown (HandlerExample.at_end HandlerExample.serving))))
  ⊆ running 1 (HandlerExample.at_end HandlerExample.serving).
Proof.
  exact (proj2 (proj1 (shutdown_drains
    (H0 := ExampleStatus.lib) (H1 := ExampleMetadata.lib) (H2 := ExampleAppend.lib)
    TunnelServerExample.services 1 HandlerExample.draining (HandlerExample.at_end HandlerExample.serving)
    _ ltac:(vm_compute; reflexivity))) 1).
Defined.

Lemma openReverseTunnel_returns_witness :
  steps_of 1 (HandlerExample.goes 7) <= 14 /\ steps_of 1 (HandlerExample.goes 7) = 7.
Proof.
  split; [|vm_compute; reflexivity].
  exact (proj1 (openReverseTunnel_returns
    (H0 := ExampleStatus.lib) (H1 := ExampleMetadata.lib) (H2 := ExampleAppend.lib)
    TunnelServerExample.services 1 HandlerExample.options HandlerExample.finished (HandlerExample.goes 7)
    (HandlerExample.at_end HandlerExample.finished) (HandlerExample.at_end HandlerExample.returned) 1
    (HandlerExample.tunnel HandlerExample.finished)
    ltac:(vm_compute; reflexivity) ltac:(vm_compute; reflexivity) ltac:(vm_compute; discriminate)
    ltac:(vm_compute; reflexivity))).
Defined.
