(* ===== verification/Ends.v ===== *)
(** * The ends of a tunnel as the program makes them

    In Tunnel.v both ends of a tunnel exist from the start.  In the program one of
    them is made before the other, with a context that nobody knows before, and the
    server calls [isClosing] in the middle of receiving a message (Served.v).  Here
    are the two ends as they come into being, and that they go through states of
    Tunnel.v all the same; System.v uses this for every tunnel of the program. *)
From stdpp Require Import gmap sets.
From S2P Require Import Prelude Status Protocol Options TunnelServer Served TunnelChannel Tunnel.
From S2P Require Import Delivery Opening Handler.

(** [lk_up] messages of the channel have been received by the server, and [lk_down]
    of the server by the channel. *)
Record link := Link {
  lk_channel : option tunnelChannel;
  lk_server : option served;
  lk_up : nat;
  lk_down : nat;
}.

(** How many messages [serve] has dealt with. *)
Definition dealt (d : served) (up : nat) : nat :=
  match sd_create d with Some _ => pred up | None => up end.

(** The receipt of a message, up to the call of [isClosing] if it is a new stream. *)
Definition receipt (m : ClientToServer) : served_label :=
  if is_new m then SdFrame m else SdServer (TRecv false (inr m)).

(** Labels that receive a message. *)
Definition channel_receives (l : channel_label) : bool := match l with KRecv (inr _) => true | _ => false end.
Definition server_receives (l : server_label) : bool := match l with TRecv _ (inr _) => true | _ => false end.

Section Ends.
Context `{StatusLib} `{MetadataAppend} (QueryService : string -> option ServiceDesc).
Context (reverse : bool) (client_opts server_opts : tunnelOpts).

Abbreviation step := (tunnel_step QueryService).
Abbreviation start := (fun secure client_ctx server_ctx =>
  tunnel_start reverse secure client_opts server_opts client_ctx server_ctx).

(** A run of Tunnel.v: of at most [n] actions, in which the transport does not fail
    if [works], and the callers and handlers give these messages to [SendMsg]. *)
Record traced (n : Z) (works : Prop) (req resp : Z -> list bytes)
    (secure : bool) (client_ctx server_ctx : option error) (tls : list tunnel_label) (t : tunnel) : Prop := {
  tr_run : run step tls (start secure client_ctx server_ctx) = Some t;
  tr_len : len tls <= n;
  tr_works : works -> Forall (fun l => delivers l = true) tls;
  tr_requests : forall id, requests_given tls id = req id;
  tr_responses : forall id, responses_given tls id = resp id;
}.

(** The ends, with those that are not there yet as they will be made. *)
Definition tunnel_of (lk : link) (secure : bool) (client_ctx server_ctx : option error) : tunnel :=
  Tunnel (default (newTunnelChannel true reverse secure client_opts client_ctx) (lk_channel lk))
    (match lk_server lk with Some d => sd_server d | None => serveTunnel true reverse server_opts server_ctx end)
    (match lk_server lk with Some d => dealt d (lk_up lk) | None => lk_up lk end) (lk_down lk).

Definition creating_ok (lk : link) : Prop :=
  match lk_server lk with
  | Some d =>
      match sd_create d with
      | Some (m, _) => (1 <= lk_up lk)%nat /\ is_new m = true /\
          exists c, lk_channel lk = Some c /\ ch_wire c !! pred (lk_up lk) = Some m
      | None => True
      end
  | None => True
  end.

(** The ends are those of a tunnel of Tunnel.v, whatever the contexts of an end that
    is not there will be. *)
Record joined (n : Z) (works : Prop) (req resp : Z -> list bytes) (lk : link) : Prop := {
  jo_run : exists secure0 client_ctx0 server_ctx0, forall secure client_ctx server_ctx,
    (lk_channel lk <> None -> secure = secure0 /\ client_ctx = client_ctx0) ->
    (lk_server lk <> None -> server_ctx = server_ctx0) ->
    exists tls, traced n works req resp secure client_ctx server_ctx tls (tunnel_of lk secure client_ctx server_ctx);
  jo_channel : forall c, lk_channel lk = Some c -> chan_ok c;
  jo_none : lk_channel lk = None \/ lk_server lk = None -> lk_up lk = O /\ lk_down lk = O;
  jo_creating : creating_ok lk;
}.

Lemma joined_start works : joined 0 works (fun _ => []) (fun _ => []) (Link None None 0 0).
Proof.
  split; try done. exists false, None, None. intros secure cc sc _ _. exists []. by split.
Qed.

(** ** Making an end *)
Lemma joined_new_channel n works req resp lk secure ctxErr :
  joined n works req resp lk -> lk_channel lk = None ->
  joined n works req resp (Link (Some (newTunnelChannel true reverse secure client_opts ctxErr))
    (lk_server lk) (lk_up lk) (lk_down lk)).
Proof.
  intros [(sec0 & cc0 & sc0 & Hrun) _ J2 J3] Hn. destruct (J2 (or_introl Hn)) as [Hup Hdown]. split; simpl.
  - exists secure, ctxErr, sc0. intros sec cc sc Hc Hs. destruct (Hc ltac:(done)) as [-> ->].
    destruct (Hrun secure ctxErr sc) as (tls & Htls); [by rewrite Hn|done|]. exists tls.
    unfold tunnel_of in *. simpl. by rewrite Hn in Htls.
  - intros c [= <-]. apply chan_ok_new.
  - by rewrite Hup, Hdown.
  - unfold creating_ok in *. simpl. destruct (lk_server lk) as [d|]; [|done]. destruct (sd_create d) as [[m a]|]; [|done].
    destruct J3 as (? & _). lia.
Qed.

Lemma joined_new_server n works req resp lk ctxErr :
  joined n works req resp lk -> lk_server lk = None ->
  joined n works req resp (Link (lk_channel lk) (Some (served_start true reverse server_opts ctxErr))
    (lk_up lk) (lk_down lk)).
Proof.
  intros [(sec0 & cc0 & sc0 & Hrun) J1 J2 J3] Hn. destruct (J2 (or_intror Hn)) as [Hup Hdown]. split; simpl.
  - exists sec0, cc0, ctxErr. intros sec cc sc Hc Hs. rewrite (Hs ltac:(done)).
    destruct (Hrun sec cc ctxErr) as (tls & Htls); [done|by rewrite Hn|]. exists tls.
    unfold tunnel_of in *. simpl. by rewrite Hn in Htls.
  - done.
  - by rewrite Hup, Hdown.
  - done.
Qed.

(** ** Actions of the ends *)

(** A run that goes on with one action. *)
Lemma traced_snoc n works req resp sec cc sc tls t l t' works' req' resp' :
  traced n works req resp sec cc sc tls t -> step l t = Some t' ->
  (works' -> works /\ delivers l = true) ->
  (forall id, req' id = req id ++ match l with AtChannel l => channel_given l id | _ => [] end) ->
  (forall id, resp' id = resp id ++ match l with AtServer l => server_given l id | _ => [] end) ->
  traced (n + 1) works' req' resp' sec cc sc (tls ++ [l]) t'.
Proof.
  intros [T1 T2 T3 T4 T5] Hs Hw Hreq Hresp. split.
  - rewrite run_app, T1. simpl. by rewrite Hs.
  - rewrite len_app. change (len [l]) with 1. lia.
  - intros [Hw' Hl]%Hw. apply Forall_app. split; [by apply T3|by constructor].
  - intros id. by rewrite requests_given_snoc, T4, Hreq.
  - intros id. by rewrite responses_given_snoc, T5, Hresp.
Qed.

Lemma traced_more n works req resp sec cc sc tls t n' works' req' resp' :
  traced n works req resp sec cc sc tls t -> n <= n' -> (works' -> works) ->
  (forall id, req' id = req id) -> (forall id, resp' id = resp id) ->
  traced n' works' req' resp' sec cc sc tls t.
Proof.
  intros [T1 T2 T3 T4 T5] Hn Hw Hreq Hresp. split; [done|lia|by auto|..]; intros id; by rewrite ?Hreq, ?Hresp.
Qed.

Lemma joined_more n works req resp lk n' works' req' resp' :
  joined n works req resp lk -> n <= n' -> (works' -> works) ->
  (forall id, req' id = req id) -> (forall id, resp' id = resp id) -> joined n' works' req' resp' lk.
Proof.
  intros [(sec0 & cc0 & sc0 & Hrun) J1 J2 J3] Hn Hw Hreq Hresp. split; try done.
  exists sec0, cc0, sc0. intros sec cc sc Hc Hs. destruct (Hrun sec cc sc Hc Hs) as (tls & Ht).
  exists tls. by eapply traced_more.
Qed.

(** One action of the tunnel, after which the same ends exist. *)
Lemma joined_step n works req resp lk lk' l works' req' resp' :
  joined n works req resp lk ->
  (forall sec cc sc, (is_Some (lk_channel lk) \/ is_Some (lk_server lk)) ->
     step l (tunnel_of lk sec cc sc) = Some (tunnel_of lk' sec cc sc)) ->
  (is_Some (lk_channel lk) \/ is_Some (lk_server lk)) ->
  (lk_channel lk = None <-> lk_channel lk' = None) -> (lk_server lk = None <-> lk_server lk' = None) ->
  (works' -> works /\ delivers l = true) ->
  (forall id, req' id = req id ++ match l with AtChannel l => channel_given l id | _ => [] end) ->
  (forall id, resp' id = resp id ++ match l with AtServer l => server_given l id | _ => [] end) ->
  (forall c, lk_channel lk' = Some c -> chan_ok c) ->
  (lk_channel lk' = None \/ lk_server lk' = None -> lk_up lk' = O /\ lk_down lk' = O) ->
  creating_ok lk' -> joined (n + 1) works' req' resp' lk'.
Proof.
  intros [(sec0 & cc0 & sc0 & Hrun) J1 J2 J3] Hs Hsome Ec Es Hw Hreq Hresp Hok Hnone Hcr. split; try done.
  exists sec0, cc0, sc0. intros sec cc sc Hc Hd.
  destruct (Hrun sec cc sc) as (tls & Ht); [tauto|tauto|]. exists (tls ++ [l]).
  by eapply traced_snoc; [exact Ht|apply Hs|..].
Qed.

Lemma chan_wire l c c' : chan_ok c -> channel_step l c = Some c' -> exists ms, ch_wire c' = ch_wire c ++ ms.
Proof. intros [_ Hl] Hs. exact (cg_wire _ _ _ (channel_step_goes l c c' Hl Hs)). Qed.

Lemma creating_channel lk c c' down :
  creating_ok lk -> lk_channel lk = Some c -> (exists ms, ch_wire c' = ch_wire c ++ ms) ->
  creating_ok (Link (Some c') (lk_server lk) (lk_up lk) down).
Proof.
  unfold creating_ok. simpl. intros Hcr Hc (ms & Hw). destruct (lk_server lk) as [d|]; [|done].
  destruct (sd_create d) as [[m a]|]; [|done]. destruct Hcr as (? & ? & c0 & Hc0 & Hm). split_and!; [done|done|].
  exists c'. split; [done|]. assert (c0 = c) as -> by congruence. rewrite Hw. by apply lookup_app_l_Some.
Qed.

Lemma step_down c s up down m c' :
  ts_wire s !! down = Some m -> channel_step (KRecv (inr m)) c = Some c' ->
  step Down (Tunnel c s up down) = Some (Tunnel c' s up (S down)).
Proof. intros Hm Hs. cbn [tunnel_step tn_server tn_down tn_channel tn_up]. destruct (_ !! down); [|done]. injection Hm as ->. by rewrite Hs. Qed.

Lemma step_up closing c s up down m s' :
  ch_wire c !! up = Some m -> server_step QueryService (TRecv closing (inr m)) s = Some s' ->
  step (Up closing) (Tunnel c s up down) = Some (Tunnel c s' (S up) down).
Proof. intros Hm Hs. cbn [tunnel_step tn_server tn_down tn_channel tn_up]. destruct (_ !! up); [|done]. injection Hm as ->. by rewrite Hs. Qed.

(** The channel acts, but does not receive a message. *)
Lemma joined_channel n works req resp lk l c c' req' :
  joined n works req resp lk -> lk_channel lk = Some c -> channel_step l c = Some c' ->
  channel_receives l = false -> (forall id, req' id = req id ++ channel_given l id) ->
  joined (n + 1) works req' resp (Link (Some c') (lk_server lk) (lk_up lk) (lk_down lk)).
Proof.
  intros Hj Hc Hs Hl Hreq. pose proof (jo_channel _ _ _ _ _ Hj c Hc) as Hok.
  eapply (joined_step _ _ _ _ lk _ (AtChannel l)); simpl; [exact Hj|..]; try done.
  - intros sec cc sc _. unfold tunnel_of. rewrite Hc. cbn [default]. simpl.
    destruct l as [|[e|m]|a|e|id cl| | |e]; try done; cbn [tunnel_step tn_channel]; by rewrite Hs.
  - rewrite Hc. by left.
  - by rewrite Hc.
  - intros id. by rewrite app_nil_r.
  - intros c1 [= <-]. by apply (gr_ok _ _ (channel_step_grows _ _ _ Hok Hs)).
  - intros [?|Hn]; [done|]. apply (jo_none _ _ _ _ _ Hj). by right.
  - eapply creating_channel; [apply (jo_creating _ _ _ _ _ Hj)|done|by eapply chan_wire].
Qed.

(** The channel receives the next message. *)
Lemma joined_down n works req resp lk c d m c' :
  joined n works req resp lk -> lk_channel lk = Some c -> lk_server lk = Some d ->
  ts_wire (sd_server d) !! lk_down lk = Some m -> channel_step (KRecv (inr m)) c = Some c' ->
  joined (n + 1) works req resp (Link (Some c') (lk_server lk) (lk_up lk) (S (lk_down lk))).
Proof.
  intros Hj Hc Hd Hm Hs. pose proof (jo_channel _ _ _ _ _ Hj c Hc) as Hok.
  eapply (joined_step _ _ _ _ lk _ Down); simpl; [exact Hj|..]; try done.
  - intros sec cc sc _. unfold tunnel_of. rewrite Hc, Hd. by apply (step_down _ _ _ _ m).
  - rewrite Hc. by left.
  - by rewrite Hc.
  - intros id. by rewrite app_nil_r.
  - intros id. by rewrite app_nil_r.
  - intros c1 [= <-]. by apply (gr_ok _ _ (channel_step_grows _ _ _ Hok Hs)).
  - rewrite Hd. by intros [?|?].
  - eapply creating_channel; [apply (jo_creating _ _ _ _ _ Hj)|done|by eapply chan_wire].
Qed.

(** The server acts, but does not receive a message. *)
Lemma joined_server n works req resp lk closing l d d' works' resp' :
  joined n works req resp lk -> lk_server lk = Some d -> served_step QueryService closing (SdServer l) d = Some d' ->
  server_receives l = false -> (works' -> works /\ recv_fails l = false) ->
  (forall id, resp' id = resp id ++ server_given l id) ->
  joined (n + 1) works' req resp' (Link (lk_channel lk) (Some d') (lk_up lk) (lk_down lk)).
Proof.
  intros Hj Hd Hs Hl Hw Hresp. cbn [served_step] in Hs. destruct (creates l d); [done|].
  destruct (server_step QueryService l (sd_server d)) as [s|] eqn:Hstep; [|done]. injection Hs as <-.
  eapply (joined_step _ _ _ _ lk _ (AtServer l)); simpl; [exact Hj|..]; try done.
  - intros sec cc sc _. unfold tunnel_of. rewrite Hd. simpl.
    destruct l as [closing' [e|m]|id sl|i|e]; try done; cbn [tunnel_step tn_server]; by rewrite Hstep.
  - rewrite Hd. by right.
  - by rewrite Hd.
  - intros [? E]%Hw. split; [done|]. by rewrite E.
  - intros id. by rewrite app_nil_r.
  - apply (jo_channel _ _ _ _ _ Hj).
  - intros [Hn|?]; [|done]. apply (jo_none _ _ _ _ _ Hj). by left.
  - pose proof (jo_creating _ _ _ _ _ Hj) as Hcr. unfold creating_ok in *. by rewrite Hd in Hcr.
Qed.

(** The server receives the next message. *)
Lemma joined_up n works req resp lk closing c d m d' :
  joined n works req resp lk -> lk_channel lk = Some c -> lk_server lk = Some d ->
  ch_wire c !! lk_up lk = Some m -> served_step QueryService closing (receipt m) d = Some d' ->
  joined (n + 1) works req resp (Link (lk_channel lk) (Some d') (S (lk_up lk)) (lk_down lk)).
Proof.
  intros Hj Hc Hd Hm Hs. unfold receipt in Hs. destruct (is_new m) eqn:Hnew.
  - cbn [served_step] in Hs. destruct (sd_create d) eqn:Hcr; [done|]. destruct (_ && _); [|done]. injection Hs as <-.
    apply (joined_more n works req resp); [|lia|done..]. destruct Hj as [Hrun J1 J2 J3]. split; simpl.
    + destruct Hrun as (sec0 & cc0 & sc0 & Hrun). exists sec0, cc0, sc0. intros sec cc sc E1 E2.
      destruct (Hrun sec cc sc E1) as (tls & Ht); [by intros _; apply E2|]. exists tls.
      unfold tunnel_of, dealt in *. simpl. by rewrite Hd, Hcr in Ht.
    + apply J1.
    + rewrite Hc. by intros [?|?].
    + unfold creating_ok. simpl. split_and!; [lia|done|]. by exists c.
  - cbn [served_step] in Hs. destruct (creates _ d) eqn:Hcreate; [done|].
    destruct (server_step _ _ _) as [s|] eqn:Hstep; [|done]. injection Hs as <-.
    simpl in Hcreate. destruct (sd_create d) eqn:Hcr; [done|].
    eapply (joined_step _ _ _ _ lk _ (Up false)); simpl; [exact Hj|..]; try done.
    + intros sec cc sc _. unfold tunnel_of, dealt. rewrite Hc, Hd, Hcr.
      by apply (step_up _ _ _ _ _ m).
    + rewrite Hc. by left.
    + by rewrite Hd.
    + intros id. by rewrite app_nil_r.
    + intros id. by rewrite app_nil_r.
    + apply (jo_channel _ _ _ _ _ Hj).
    + rewrite Hc. by intros [?|?].
Qed.

(** [isClosing] and the rest of [createStream]. *)
Lemma joined_create n works req resp lk closing l d d' :
  joined n works req resp lk -> lk_server lk = Some d -> l = SdIsClosing \/ l = SdCreate ->
  served_step QueryService closing l d = Some d' ->
  joined (n + 1) works req resp (Link (lk_channel lk) (Some d') (lk_up lk) (lk_down lk)).
Proof.
  intros Hj Hd Hl Hs. pose proof (jo_creating _ _ _ _ _ Hj) as Hcr. unfold creating_ok in Hcr. rewrite Hd in Hcr.
  destruct Hl as [-> | ->]; cbn [served_step] in Hs.
  - destruct (sd_create d) as [[m [|]]|] eqn:E; try done. injection Hs as <-.
    apply (joined_more n works req resp); [|lia|done..]. destruct Hj as [Hrun J1 J2 J3]. split; simpl.
    + destruct Hrun as (sec0 & cc0 & sc0 & Hrun). exists sec0, cc0, sc0. intros sec cc sc E1 E2.
      destruct (Hrun sec cc sc E1) as (tls & Ht); [by intros _; apply E2|]. exists tls.
      unfold tunnel_of, dealt in *. simpl. by rewrite Hd, E in Ht.
    + apply J1.
    + intros [Hn|?]; [|done]. apply J2. by left.
    + done.
  - destruct (sd_create d) as [[m [answer|]]|] eqn:E; try done.
    destruct (server_step _ _ _) as [s|] eqn:Hstep; [|done]. injection Hs as <-.
    destruct Hcr as (Hup & Hnew & c & Hc & Hm).
    eapply (joined_step _ _ _ _ lk _ (Up answer)); simpl; [exact Hj|..]; try done.
    + intros sec cc sc _. unfold tunnel_of, dealt. rewrite Hc, Hd, E.
      assert (Eup : S (pred (lk_up lk)) = lk_up lk) by lia.
      cbn [sd_server sd_create lk_up lk_down lk_server lk_channel default]. rewrite <- Eup at 2.
      by apply (step_up _ _ _ _ _ m).
    + rewrite Hc. by left.
    + by rewrite Hd.
    + intros id. by rewrite app_nil_r.
    + intros id. by rewrite app_nil_r.
    + apply (jo_channel _ _ _ _ _ Hj).
    + rewrite Hc. by intros [?|?].
Qed.
End Ends.
