(* ===== verification/System.v ===== *)
(** * The whole program

    A network server with its handler (Handler.v) and a network client that opens
    forward tunnels with [Start] (Opening.v) and reverse tunnels with [Serve]
    (ReverseServer.v), over a network that delivers the messages of a stream in order.
    Everything runs at the same time: any number of tunnels, the RPCs on them,
    timers, shutdowns of either side, and messages that are under way.

    The forward tunnel [Fwd f] is opened by the [f]-th call of [Start], the reverse
    tunnel [Rev i] by the [i]-th call of [Serve].  The metadata with which a tunnel is
    opened is any that has what both sides add to it, grpctunnel-negotiate. *)
From stdpp Require Import gmap sets.
From S2P Require Import Prelude Status Protocol Options FlowSender Reassembly ServerStream ClientStream SafeStream.
From S2P Require Import TunnelServer Served.
From S2P Require Import TunnelChannel Tunnel Windows Delivery Progress ReverseChannels ReverseServer Opening Handler Ends.

Inductive tunnel_id := Fwd (f : Z) | Rev (i : Z).
#[export] Instance tunnel_id_eq_dec : EqDecision tunnel_id.
Proof. solve_decision. Defined.

Definition is_reverse (t : tunnel_id) : bool := match t with Rev _ => true | Fwd _ => false end.

Section SystemState.
Context {K : Type} `{Countable K}.

(** [sy_counts]: how many messages each end of a tunnel has received, the server's
    first. *)
Record system := System {
  sy_handler : handler K;
  sy_starts : gmap Z start_conf;
  sy_rev : reverse_server;
  sy_counts : tunnel_id -> nat * nat;
}.

Definition yset_handler (h : handler K) (y : system) : system := System h (sy_starts y) (sy_rev y) (sy_counts y).
Definition yset_start (f : Z) (s : start_conf) (y : system) : system :=
  System (sy_handler y) (<[f := s]> (sy_starts y)) (sy_rev y) (sy_counts y).
Definition yset_rev (s : reverse_server) (y : system) : system := System (sy_handler y) (sy_starts y) s (sy_counts y).
Definition count_up (t : tunnel_id) (y : system) : system :=
  System (sy_handler y) (sy_starts y) (sy_rev y)
    (fun t' => if decide (t' = t) then (S (sy_counts y t).1, (sy_counts y t).2) else sy_counts y t').
Definition count_down (t : tunnel_id) (y : system) : system :=
  System (sy_handler y) (sy_starts y) (sy_rev y)
    (fun t' => if decide (t' = t) then ((sy_counts y t).1, S (sy_counts y t).2) else sy_counts y t').

(** ** The two ends of a tunnel *)
Definition forward_server (f : Z) (h : handler K) : option served :=
  match hd_forward h !! f with Some (inr d) => Some d | _ => None end.
Definition reverse_channel (i : Z) (h : handler K) : option tunnelChannel :=
  match hd_reverse h !! i with Some (inr c) => Some (rv_channel c) | _ => None end.
Definition forward_channel (f : Z) (starts : gmap Z start_conf) : option tunnelChannel :=
  match starts !! f with Some s => st_channel s | None => None end.
Definition served_by (i : Z) (s : reverse_server) : option served :=
  match rs_serves s !! i with Some c => sv_tunnel c | None => None end.

Definition channel_end (t : tunnel_id) (y : system) : option tunnelChannel :=
  match t with Fwd f => forward_channel f (sy_starts y) | Rev i => reverse_channel i (sy_handler y) end.
Definition server_end (t : tunnel_id) (y : system) : option served :=
  match t with Fwd f => forward_server f (sy_handler y) | Rev i => served_by i (sy_rev y) end.

(** What the network has from each end. *)
Definition sent_up (t : tunnel_id) (y : system) : list ClientToServer :=
  match channel_end t y with Some c => ch_wire c | None => [] end.
Definition sent_down (t : tunnel_id) (y : system) : list ServerToClient :=
  match t with
  | Fwd f => match forward_server f (sy_handler y) with Some d => ts_wire (sd_server d) | None => [] end
  | Rev i => sent_by (sy_rev y) i
  end.

Definition link_of (t : tunnel_id) (y : system) : link :=
  Link (channel_end t y) (server_end t y) (sy_counts y t).1 (sy_counts y t).2.
End SystemState.
Arguments system K {_ _}.

Section System.
Context {K : Type} `{Countable K} `{StatusLib} `{MetadataAppend}.

(** The services of the two sides, and the options of the handler, of each channel and
    of the reverse server. *)
Context (forward_services : string -> option ServiceDesc) (handlers : Z).
Context (reverse_services : string -> option ServiceDesc).
Context (options : TunnelServiceHandlerOptions K) (client_opts : Z -> tunnelOpts) (reverse_opts : tunnelOpts).

Inductive system_label :=
  | YNew (f : Z)                                (** [Start] is called *)
  | YStart (f : Z) (l : start_label)
  | YRev (l : rs_label)
  | YHandler (l : handler_label (K := K))
  | YUp (t : tunnel_id) | YDown (t : tunnel_id). (** the network delivers the next message *)

Definition system_start : system K :=
  System (NewTunnelServiceHandler options) ∅ NewReverseTunnelServer (fun _ => (O, O)).

Definition agreed (md : MD) : bool := negotiated (md_Get md grpctunnelNegotiateKey).
Definition exists_some {A} (o : option A) : bool := match o with Some _ => true | None => false end.
Definition served_receives (l : served_label) : bool :=
  match l with SdFrame _ => true | SdServer l => server_receives l | _ => false end.

(** A tunnel is opened by both sides, and messages come from the other end. *)
Definition start_allowed (f : Z) (l : start_label) (y : system K) : bool :=
  match l with
  | SChannel l => negb (channel_receives l)
  | SHeader (inr md) _ _ => agreed md && exists_some (forward_server f (sy_handler y))
  | _ => true
  end.
Definition rev_allowed (l : rs_label) (y : system K) : bool :=
  match l with
  | SCall i (SvTunnel l) => negb (served_receives l)
  | SCall i (SvHeaders (inr md)) => agreed md && exists_some (reverse_channel i (sy_handler y))
  | _ => true
  end.
Definition handler_allowed (l : handler_label (K := K)) (y : system K) : bool :=
  match l with
  | DOpenTunnel f md _ => agreed md && exists_some (sy_starts y !! f)
  | DServed _ l => negb (served_receives l)
  | DOpenReverse ch md _ _ => agreed md && exists_some (rs_serves (sy_rev y) !! ch)
  | DChannel _ l => negb (channel_receives l)
  | _ => true
  end.

Definition on_start (f : Z) (l : start_label) (y : system K) : option (system K) :=
  match sy_starts y !! f with
  | Some s => match start_step (client_opts f) l s with Some s => Some (yset_start f s y) | None => None end
  | None => None
  end.
Definition on_rev (l : rs_label) (y : system K) : option (system K) :=
  match rs_step reverse_services reverse_opts l (sy_rev y) with Some s => Some (yset_rev s y) | None => None end.
Definition on_handler (l : handler_label (K := K)) (y : system K) : option (system K) :=
  match handler_step forward_services handlers l (sy_handler y) with
  | Some h => Some (yset_handler h y)
  | None => None
  end.

Definition system_step (l : system_label) (y : system K) : option (system K) :=
  match l with
  | YNew f =>
      match sy_starts y !! f with
      | None => Some (yset_start f (start_begin (client_opts f)) y)
      | Some _ => None
      end
  | YStart f l => if start_allowed f l y then on_start f l y else None
  | YRev l => if rev_allowed l y then on_rev l y else None
  | YHandler l => if handler_allowed l y then on_handler l y else None
  | YUp t =>
      match sent_up t y !! (sy_counts y t).1 with
      | Some m =>
          match t with
          | Fwd f => on_handler (DServed f (receipt m)) (count_up t y)
          | Rev i => on_rev (SCall i (SvTunnel (receipt m))) (count_up t y)
          end
      | None => None
      end
  | YDown t =>
      match sent_down t y !! (sy_counts y t).2 with
      | Some m =>
          match t with
          | Fwd f => on_start f (SChannel (KRecv (inr m))) (count_down t y)
          | Rev i => on_handler (DChannel i (KRecv (inr m))) (count_down t y)
          end
      | None => None
      end
  end.

(** ** What happens on one tunnel *)
Definition services (t : tunnel_id) : string -> option ServiceDesc :=
  match t with Fwd _ => forward_services | Rev _ => reverse_services end.
Definition handler_opts : tunnelOpts := hd_tunnelOpts (NewTunnelServiceHandler options).
Definition opts_of_channel (t : tunnel_id) : tunnelOpts :=
  match t with Fwd f => client_opts f | Rev _ => handler_opts end.
Definition opts_of_server (t : tunnel_id) : tunnelOpts :=
  match t with Fwd _ => handler_opts | Rev _ => reverse_opts end.

(** The action of a label on the channel or the server of a tunnel, but for messages. *)
Definition on_channel (t : tunnel_id) (l : system_label) : option channel_label :=
  match t, l with
  | Fwd f, YStart f' (SChannel l) => if decide (f' = f) then Some l else None
  | Rev i, YHandler (DChannel i' l) => if decide (i' = i) then Some l else None
  | _, _ => None
  end.
Definition on_server (t : tunnel_id) (l : system_label) : option server_label :=
  match t, l with
  | Fwd f, YHandler (DServed f' (SdServer l)) => if decide (f' = f) then Some l else None
  | Rev i, YRev (SCall i' (SvTunnel (SdServer l))) => if decide (i' = i) then Some l else None
  | _, _ => None
  end.

Definition label_requests (t : tunnel_id) (l : system_label) (id : Z) : list bytes :=
  match on_channel t l with Some l => channel_given l id | None => [] end.
Definition label_responses (t : tunnel_id) (l : system_label) (id : Z) : list bytes :=
  match on_server t l with Some l => server_given l id | None => [] end.

(** The messages that are given to [SendMsg] of a stream of the tunnel, by the caller
    and by the handler. *)
Definition requests (t : tunnel_id) (ls : list system_label) (id : Z) : list bytes :=
  List.flat_map (fun l => label_requests t l id) ls.
Definition responses (t : tunnel_id) (ls : list system_label) (id : Z) : list bytes :=
  List.flat_map (fun l => label_responses t l id) ls.

(** The tunnel's stream has not failed towards its server. *)
Definition up_works (t : tunnel_id) (ls : list system_label) : Prop :=
  Forall (fun l => match on_server t l with Some l => recv_fails l = false | None => True end) ls.
End System.
Arguments system_label K : clear implicits.

(** ** What the steps of the components do to the ends *)

(** A channel is made, acts, or stays. *)
Inductive channel_change (sends reverse : bool) (opts : tunnelOpts) `{StatusLib} `{MetadataAppend}
    (o : option channel_label) (c c' : option tunnelChannel) : Prop :=
  | CcSame : c' = c -> o = None -> channel_change sends reverse opts o c c'
  | CcNew secure ctxErr : c = None -> o = None ->
      c' = Some (newTunnelChannel sends reverse secure opts ctxErr) -> channel_change sends reverse opts o c c'
  | CcStep l c0 c1 : c = Some c0 -> c' = Some c1 -> channel_step l c0 = Some c1 ->
      o = Some l \/ o = None /\ l = KClose -> channel_change sends reverse opts o c c'.

(** So is the server of a tunnel. *)
Inductive server_change (accepts reverse : bool) (opts : tunnelOpts) (QueryService : string -> option ServiceDesc)
    `{StatusLib} `{MetadataAppend} (o : option served_label) (d d' : option served) : Prop :=
  | ScSame : d' = d -> o = None -> server_change accepts reverse opts QueryService o d d'
  | ScNew ctxErr : d = None -> o = None ->
      d' = Some (served_start accepts reverse opts ctxErr) -> server_change accepts reverse opts QueryService o d d'
  | ScStep closing l d0 d1 : d = Some d0 -> d' = Some d1 -> served_step QueryService closing l d0 = Some d1 ->
      o = Some l \/ o = None /\ l = SdIsClosing -> server_change accepts reverse opts QueryService o d d'.

Section HandlerEnds.
Context {K : Type} `{Countable K} `{StatusLib} `{MetadataAppend}.
Context (QueryService : string -> option ServiceDesc) (handlers : Z).

(** The metadata with which a label opens a tunnel agrees to send settings. *)
Definition handler_agreed (l : handler_label (K := K)) : bool :=
  match l with DOpenTunnel _ md _ => agreed md | DOpenReverse _ md _ _ => agreed md | _ => true end.

Definition reverse_action (i : Z) (l : handler_label (K := K)) : option channel_label :=
  match l with DChannel i' l => if decide (i' = i) then Some l else None | _ => None end.
Definition forward_action (f : Z) (l : handler_label (K := K)) : option served_label :=
  match l with DServed f' l => if decide (f' = f) then Some l else None | _ => None end.

Lemma reverse_channel_set i i' x (h : handler K) :
  reverse_channel i (dset_reverse i' x h) =
  if decide (i' = i) then match x with inr c => Some (rv_channel c) | inl _ => None end else reverse_channel i h.
Proof.
  unfold reverse_channel. simpl. destruct (decide (i' = i)) as [->|Hne]; [by rewrite lookup_insert_eq|].
  by rewrite lookup_insert_ne.
Qed.

Lemma forward_server_set f f' x (h : handler K) :
  forward_server f (dset_forward f' x h) =
  if decide (f' = f) then match x with inr d => Some d | inl _ => None end else forward_server f h.
Proof.
  unfold forward_server. simpl. destruct (decide (f' = f)) as [->|Hne]; [by rewrite lookup_insert_eq|].
  by rewrite lookup_insert_ne.
Qed.

(** [openReverseTunnel] leaves its channel alone, but for closing it at the end. *)
Lemma next_channel ch c (h h' : handler K) :
  openReverseTunnel_next ch c h = Some h' ->
  hd_tunnelOpts h' = hd_tunnelOpts h /\ exists c', hd_reverse h' = <[ch := inr c']> (hd_reverse h) /\
    (rv_channel c' = rv_channel c \/ channel_step KClose (rv_channel c) = Some (rv_channel c')).
Proof.
  unfold openReverseTunnel_next.
  assert (Hgo : forall pc (h1 : handler K), hd_reverse h1 = hd_reverse h -> hd_tunnelOpts h1 = hd_tunnelOpts h ->
    Some (dset_reverse ch (inr (RevCall pc (rv_channel c))) h1) = Some h' ->
    hd_tunnelOpts h' = hd_tunnelOpts h /\ exists c', hd_reverse h' = <[ch := inr c']> (hd_reverse h) /\
      (rv_channel c' = rv_channel c \/ channel_step KClose (rv_channel c) = Some (rv_channel c'))).
  { intros pc h1 E1 E2 [= <-]. split; [done|]. eexists. split; [simpl; by rewrite E1|]. by left. }
  assert (Htab : forall l (h0 : handler K) pc, hd_reverse h0 = hd_reverse h -> hd_tunnelOpts h0 = hd_tunnelOpts h ->
    in_tables l h0 ≫= (fun h1 => Some (dset_reverse ch (inr (RevCall (pc h1) (rv_channel c))) h1)) = Some h' ->
    hd_tunnelOpts h' = hd_tunnelOpts h /\ exists c', hd_reverse h' = <[ch := inr c']> (hd_reverse h) /\
      (rv_channel c' = rv_channel c \/ channel_step KClose (rv_channel c) = Some (rv_channel c'))).
  { intros l h0 pc E1 E2 (h1 & (r & _ & ->)%in_tables_some & Hs)%bind_some. by eapply Hgo in Hs. }
  destruct (rv_pc c) as [| | | | | |[]|err|err|err|err|err]; try done; try (by apply Hgo); try (by eapply Htab).
  - destruct (settings_decided _); [by apply Hgo|done].
  - destruct (is_done _); by apply Hgo.
  - destruct (is_done _); [|done]. by apply (Htab _ _ (fun _ => RvErr true)).
  - intros [= <-]. split; [done|]. eexists. split; [done|]. by right.
Qed.

Lemma handler_step_channel l (h h' : handler K) i :
  handler_step QueryService handlers l h = Some h' -> handler_agreed l = true ->
  channel_change true true (hd_tunnelOpts h) (reverse_action i l) (reverse_channel i h) (reverse_channel i h').
Proof.
  intros Hs Hag. assert (Hsame : reverse_action i l = None -> hd_reverse h' = hd_reverse h ->
    channel_change true true (hd_tunnelOpts h) (reverse_action i l) (reverse_channel i h) (reverse_channel i h'))
    by (intros E1 E2; apply CcSame; [|done]; unfold reverse_channel; by rewrite E2).
  destruct l as [f md ce|f l|ch md sec ce|ch|ch l|ch|j|m|m|]; cbn [handler_step] in Hs; cbn [reverse_action] in *.
  - destruct (hd_forward h !! f); [done|]. injection Hs as <-. by apply Hsame.
  - destruct (hd_forward h !! f) as [[e|d]|]; try done. destruct (served_step _ _ _ d); [|done].
    injection Hs as <-. by apply Hsame.
  - destruct (hd_reverse h !! ch) eqn:Hc; [done|]. injection Hs as <-. rewrite reverse_channel_set.
    destruct (decide (ch = i)) as [->|Hne]; [|by apply CcSame]. unfold openReverseTunnel_begin.
    assert (En : reverse_channel i h = None) by (unfold reverse_channel; by rewrite Hc).
    destruct (NoReverseTunnels _); [by apply CcSame|]. eapply CcNew; [done|done|]. simpl.
    unfold newReverseChannel. simpl in Hag. unfold agreed in Hag. by rewrite Hag.
  - destruct (hd_reverse h !! ch) as [[e|c]|] eqn:Hc; try done.
    apply next_channel in Hs as (_ & c' & E & Hc'). unfold reverse_channel. rewrite E.
    destruct (decide (ch = i)) as [->|Hne].
    + rewrite Hc, lookup_insert_eq. destruct Hc' as [->|Hc']; [by apply CcSame|]. eapply CcStep; eauto.
    + rewrite lookup_insert_ne by done. by apply CcSame.
  - destruct (hd_reverse h !! ch) as [[e|c]|] eqn:Hc; try done. unfold channel_action in Hs.
    destruct (channel_step l (rv_channel c)) as [chan|] eqn:Hst; [|done]. destruct (_ && _); [done|]. injection Hs as <-.
    rewrite reverse_channel_set. destruct (decide (ch = i)) as [->|Hne]; [|by apply CcSame].
    eapply CcStep; [unfold reverse_channel; by rewrite Hc|done|done|by left].
  - destruct (hd_reverse h !! ch) as [[e|c]|]; try done. apply in_tables_some in Hs as (r & _ & ->). by apply Hsame.
  - apply in_tables_some in Hs as (r & _ & ->). by apply Hsame.
  - injection Hs as <-. unfold multi_pick in *. by destruct m; [destruct (pickAll _)|destruct (pickKey _ _)]; apply Hsame.
  - injection Hs as <-. by destruct m; apply Hsame.
  - injection Hs as <-. by apply Hsame.
Qed.

Lemma handler_step_server l (h h' : handler K) f :
  handler_step QueryService handlers l h = Some h' -> handler_agreed l = true ->
  server_change true false (hd_tunnelOpts h) QueryService (forward_action f l) (forward_server f h) (forward_server f h').
Proof.
  intros Hs Hag. assert (Hsame : forward_action f l = None -> hd_forward h' = hd_forward h ->
    server_change true false (hd_tunnelOpts h) QueryService (forward_action f l) (forward_server f h) (forward_server f h'))
    by (intros E1 E2; apply ScSame; [|done]; unfold forward_server; by rewrite E2).
  destruct l as [f' md ce|f' l|ch md sec ce|ch|ch l|ch|j|m|m|]; cbn [handler_step] in Hs; cbn [forward_action] in *.
  - destruct (hd_forward h !! f') eqn:Hf; [done|]. injection Hs as <-. rewrite forward_server_set.
    destruct (decide (f' = f)) as [->|Hne]; [|by apply ScSame]. unfold openTunnel.
    assert (En : forward_server f h = None) by (unfold forward_server; by rewrite Hf).
    destruct (handlers =? 0); [by apply ScSame|]. eapply ScNew; [done|done|].
    simpl in Hag. unfold agreed in Hag. by rewrite Hag.
  - destruct (hd_forward h !! f') as [[e|d]|] eqn:Hf; try done.
    destruct (served_step _ _ l d) as [d'|] eqn:Hst; [|done]. injection Hs as <-. rewrite forward_server_set.
    destruct (decide (f' = f)) as [->|Hne]; [|by apply ScSame].
    eapply ScStep; [unfold forward_server; by rewrite Hf|done|done|by left].
  - destruct (hd_reverse h !! ch); [done|]. injection Hs as <-. by apply Hsame.
  - destruct (hd_reverse h !! ch) as [[e|c]|]; try done. apply next_forward in Hs as [E _]. by apply Hsame.
  - destruct (hd_reverse h !! ch) as [[e|c]|]; try done. unfold channel_action in Hs.
    destruct (channel_step l (rv_channel c)); [|done]. destruct (_ && _); [done|]. injection Hs as <-. by apply Hsame.
  - destruct (hd_reverse h !! ch) as [[e|c]|]; try done. apply in_tables_some in Hs as (r & _ & ->). by apply Hsame.
  - apply in_tables_some in Hs as (r & _ & ->). by apply Hsame.
  - injection Hs as <-. unfold multi_pick in *. by destruct m; [destruct (pickAll _)|destruct (pickKey _ _)]; apply Hsame.
  - injection Hs as <-. by destruct m; apply Hsame.
  - injection Hs as <-. by apply Hsame.
Qed.

Lemma handler_step_opts l (h h' : handler K) :
  handler_step QueryService handlers l h = Some h' -> hd_tunnelOpts h' = hd_tunnelOpts h.
Proof.
  intros Hs. destruct l as [f' md ce|f' l|ch md sec ce|ch|ch l|ch|j|m|m|]; cbn [handler_step] in Hs.
  - destruct (hd_forward h !! f'); [done|]. by injection Hs as <-.
  - destruct (hd_forward h !! f') as [[e|d]|]; try done. destruct (served_step _ _ l d); [|done]. by injection Hs as <-.
  - destruct (hd_reverse h !! ch); [done|]. by injection Hs as <-.
  - destruct (hd_reverse h !! ch) as [[e|c]|]; try done. by apply next_channel in Hs as [E _].
  - destruct (hd_reverse h !! ch) as [[e|c]|]; try done. unfold channel_action in Hs.
    destruct (channel_step l (rv_channel c)); [|done]. destruct (_ && _); [done|]. by injection Hs as <-.
  - destruct (hd_reverse h !! ch) as [[e|c]|]; try done. by apply in_tables_some in Hs as (r & _ & ->).
  - by apply in_tables_some in Hs as (r & _ & ->).
  - injection Hs as <-. unfold multi_pick. by destruct m; [destruct (pickAll _)|destruct (pickKey _ _)].
  - injection Hs as <-. by destruct m.
  - by injection Hs as <-.
Qed.
End HandlerEnds.

Section RevEnds.
Context `{StatusLib} `{MetadataAppend} (QueryService : string -> option ServiceDesc) (opts : tunnelOpts).

Abbreviation step := (rs_step QueryService opts).

Definition rev_agreed (l : rs_label) : bool :=
  match l with SCall _ (SvHeaders (inr md)) => agreed md | _ => true end.
Definition rev_action (i : Z) (l : rs_label) : option served_label :=
  match l with SCall i' (SvTunnel l) => if decide (i' = i) then Some l else None | _ => None end.

(** The headers of a call of [Serve] agree to send settings. *)
Definition md_ok (pc : serve_pc) : Prop :=
  match pc with SvDone (inr md) | SvAdd md => agreed md = true | _ => True end.
Definition all_md_ok (s : reverse_server) : Prop := forall i c, rs_serves s !! i = Some c -> md_ok (sv_pc c).

Lemma with_est_keeps l pc c c' :
  with_est l pc c = Some c' -> sv_tunnel c' = sv_tunnel c /\ exists e, sv_pc c' = pc e.
Proof. unfold with_est. destruct (est_step l (sv_est c)) as [e|]; [|done]. intros [= <-]. split; [done|by exists e]. Qed.

Lemma call_step_ends l c c' :
  call_step QueryService l c = Some c' -> match l with SvHeaders (inr md) => agreed md = true | _ => True end ->
  md_ok (sv_pc c) -> md_ok (sv_pc c') /\
  match l with
  | SvTunnel l => l <> SdIsClosing /\
      exists d d', sv_tunnel c = Some d /\ sv_tunnel c' = Some d' /\ served_step QueryService false l d = Some d'
  | _ => sv_tunnel c' = sv_tunnel c
  end.
Proof.
  intros Hs Hl Hmd. destruct l as [[err|]|[err|md]| | | |l|]; cbn [call_step] in Hs.
  - destruct (sv_pc c); try done. by injection Hs as <-.
  - destruct (sv_pc c); try done. by injection Hs as <-.
  - destruct (sv_pc c); try done. by injection Hs as <-.
  - destruct (sv_pc c); try done. by injection Hs as <-.
  - unfold Serve_done in Hs.
    destruct (sv_pc c) as [|err| |[err|md]|md| |err|b err|b err] eqn:Hpc; try done;
      apply with_est_keeps in Hs as [E1 [e E2]]; rewrite E1, E2; (split; [|done]); try done.
    destruct (done_result e); done.
  - apply with_est_keeps in Hs as [E1 [e E2]]. by rewrite E1, E2.
  - apply with_est_keeps in Hs as [E1 [e E2]]. by rewrite E1, E2.
  - assert (Hne : l <> SdIsClosing) by (by intros ->). assert (Ht : serve_tunnel_step QueryService false l c = Some c')
      by (by destruct l). unfold serve_tunnel_step in Ht. destruct (sv_tunnel c) as [d|]; [|done].
    destruct (served_step _ _ _ d) as [d'|] eqn:Hd; [|done]. injection Ht as <-. split; [done|]. split; [done|].
    by exists d, d'.
  - destruct (sv_pc c) as [|err| |[err|md]|md| |err|b err|b err]; try done.
    apply with_est_keeps in Hs as [E1 [e E2]]. by rewrite E1, E2.
Qed.

Lemma served_by_set i i' c s :
  served_by i (set_serve i' c s) = if decide (i' = i) then sv_tunnel c else served_by i s.
Proof.
  unfold served_by. simpl. destruct (decide (i' = i)) as [->|Hne]; [by rewrite lookup_insert_eq|].
  by rewrite lookup_insert_ne.
Qed.

Lemma md_set i c s : all_md_ok s -> md_ok (sv_pc c) -> all_md_ok (set_serve i c s).
Proof. intros Hs Hc i' c'. simpl. intros [[<- <-]|[_ Hi]]%lookup_insert_Some; [done|by eapply Hs]. Qed.

Lemma rs_step_ends l s s' :
  step l s = Some s' -> rev_agreed l = true -> all_md_ok s ->
  (forall i c, rs_serves s !! i = Some c -> is_serving (sv_pc c) = false -> sv_tunnel c = None) ->
  all_md_ok s' /\ forall i, server_change true true opts QueryService (rev_action i l) (served_by i s) (served_by i s').
Proof.
  intros Hs Hl Hmd Hno. unfold rev_agreed in Hl.
  assert (Hsame : (forall i, rev_action i l = None) -> rs_serves s' = rs_serves s ->
    all_md_ok s' /\ forall i, server_change true true opts QueryService (rev_action i l) (served_by i s) (served_by i s')).
  { intros E1 E2. split; [intros i c; rewrite E2; apply Hmd|]. intros i. apply ScSame; [|done].
    unfold served_by. by rewrite E2. }
  assert (Hset : forall i c c', rs_serves s !! i = Some c -> (forall i, rev_action i l = None) ->
    rs_serves s' = <[i := c']> (rs_serves s) -> md_ok (sv_pc c') -> sv_tunnel c' = sv_tunnel c ->
    all_md_ok s' /\ forall i, server_change true true opts QueryService (rev_action i l) (served_by i s) (served_by i s')).
  { intros i c c' Hi E1 E2 E3 E4. split.
    - intros i1 c1. rewrite E2. intros [[<- <-]|[_ ?]]%lookup_insert_Some; [done|by eapply Hmd].
    - intros i'. apply ScSame; [|done]. unfold served_by. rewrite E2.
      destruct (decide (i = i')) as [<-|Hne]; [by rewrite lookup_insert_eq, Hi|by rewrite lookup_insert_ne]. }
  destruct l as [i|i l|i ctxErr|i|i ctxErr|i|j|j i err|j|j|j]; cbn [rs_step] in Hs.
  - destruct (rs_serves s !! i) eqn:Hi; [done|]. injection Hs as <-. split; [by apply md_set|].
    intros i'. rewrite served_by_set. apply ScSame; [|done]. unfold served_by.
    destruct (decide (i = i')) as [<-|]; [by rewrite Hi|done].
  - destruct (rs_serves s !! i) as [c|] eqn:Hi; [|done]. destruct (call_step _ _ _) as [c'|] eqn:Hc; [|done].
    injection Hs as <-. destruct (call_step_ends l c c' Hc) as [Hmd' Hl'];
      [by destruct l as [|[]| | | | |]|by apply (Hmd i)|].
    split; [by apply md_set|]. intros i'. rewrite served_by_set. cbn [rev_action].
    destruct (decide (i = i')) as [<-|Hne]; [|by apply ScSame; [|by destruct l]].
    assert (Es : served_by i s = sv_tunnel c) by (unfold served_by; by rewrite Hi).
    destruct l as [err|res| | | |l|]; try (apply ScSame; [congruence|done]).
    destruct Hl' as (_ & d & d' & E1 & E2 & E3). eapply ScStep; [by rewrite Es|done|done|by left].
  - destruct (rs_serves s !! i) as [c|] eqn:Hi; [|done].
    destruct (sv_pc c) as [|err| |res|md| |err|b err|b err] eqn:Hpc; try done.
    destruct (mu_free s); [|done]. injection Hs as Hs. pose proof (Hmd i c Hi) as Hag. rewrite Hpc in Hag. simpl in Hag.
    unfold agreed in Hag. unfold Serve_add in Hs. rewrite Hag in Hs. unfold addInstance in Hs.
    destruct (isClosing s); subst s'.
    + by eapply Hset.
    + assert (Hn : served_by i s = None)
        by (unfold served_by; rewrite Hi; apply (Hno i c Hi); by rewrite Hpc).
      split; [by apply md_set|]. intros i'. rewrite served_by_set.
      destruct (decide (i = i')) as [<-|Hne]; [by eapply ScNew|by apply ScSame].
  - destruct (rs_serves s !! i) as [c|] eqn:Hi; [|done]. destruct (mu_free s); [|done].
    destruct (serve_tunnel_step _ _ _ c) as [c'|] eqn:Hc; [|done]. injection Hs as <-.
    unfold serve_tunnel_step in Hc. destruct (sv_tunnel c) as [d|] eqn:Ht; [|done].
    destruct (served_step _ _ _ d) as [d'|] eqn:Hd; [|done]. injection Hc as <-.
    split; [apply md_set; [done|exact (Hmd i c Hi)]|]. intros i'. rewrite served_by_set.
    destruct (decide (i = i')) as [<-|Hne]; [|by apply ScSame].
    eapply ScStep; [unfold served_by; by rewrite Hi|done|done|by right].
  - destruct (rs_serves s !! i) as [c|] eqn:Hi; [|done]. destruct (sv_pc c) eqn:Hpc; try done.
    destruct (d ← sv_tunnel c; ts_result (sd_server d)); [|done]. destruct (_ && _); [done|]. injection Hs as <-.
    by eapply Hset.
  - destruct (rs_serves s !! i) as [c|] eqn:Hi; [|done]. destruct (sv_pc c) eqn:Hpc; try done. injection Hs as <-.
    by eapply Hset.
  - destruct (rs_stops s !! j); [done|]. destruct (mu_free s); [|done]. injection Hs as <-.
    apply Hsame; [done|]. unfold Stop_begin. by destruct (rs_state s).
  - unfold Stop_close in Hs. destruct (rs_stops s !! j) as [[todo| |]|], (rs_serves s !! i) as [c|] eqn:Hi; try done.
    destruct (bool_decide _); [|done]. injection Hs as <-. eapply Hset; [done|done|done|exact (Hmd i c Hi)|done].
  - unfold Stop_unlock in Hs. destruct (rs_stops s !! j) as [[todo| |]|]; try done.
    destruct (bool_decide _); [|done]. injection Hs as <-. by apply Hsame.
  - destruct (rs_stops s !! j); [done|]. destruct (mu_free s); [|done]. injection Hs as <-.
    apply Hsame; [done|]. unfold GracefulStop_begin. by destruct (rs_state s).
  - destruct (rs_stops s !! j) as [[]|]; try done. destruct (_ =? 0); [|done]. injection Hs as <-. by apply Hsame.
Qed.
End RevEnds.

Section StartEnds.
Context `{StatusLib} `{MetadataAppend} (opts : tunnelOpts).

Definition start_agreed (l : start_label) : bool := match l with SHeader (inr md) _ _ => agreed md | _ => true end.
Definition start_action (l : start_label) : option channel_label := match l with SChannel l => Some l | _ => None end.

(** There is no channel before the headers. *)
Definition unopened (s : start_conf) : Prop :=
  match st_pc s with AtOpenTunnel | AtHeader => st_channel s = None | _ => True end.

Lemma start_step_ends l s s' :
  start_step opts l s = Some s' -> start_agreed l = true -> unopened s ->
  unopened s' /\ channel_change true false opts (start_action l) (st_channel s) (st_channel s').
Proof.
  intros Hs Hl Hu. destruct s as [pc est f ch]. unfold unopened in Hu. cbn [st_pc st_channel] in *.
  destruct l as [[err|]|[err|md] secure ctxErr| | | | | | |l]; cbn [start_step] in Hs; cbn [start_action].
  - destruct pc; try done. destruct (est_done _ _). injection Hs as <-. split; [done|by apply CcSame].
  - destruct pc; try done. injection Hs as <-. split; [done|by apply CcSame].
  - destruct pc; try done. destruct (est_done _ _). injection Hs as <-. split; [done|by apply CcSame].
  - destruct pc; try done. injection Hs as <-. split; [done|]. subst ch. simpl in Hl. unfold agreed in Hl. rewrite Hl.
    by eapply CcNew.
  - destruct pc, ch as [c|]; try done. destruct (settings_decided c); [|done]. injection Hs as <-. split; [done|by apply CcSame].
  - destruct pc; try done. destruct (est_done _ _) as [e [err|]]; injection Hs as <-; (split; [done|by apply CcSame]).
  - destruct pc, ch as [c|]; try done. injection Hs as <-. split; [done|]. eapply (CcStep _ _ _ _ _ _ KClose); eauto.
  - destruct (est_timer est) as [[]|]; try done. injection Hs as <-. split; [done|by apply CcSame].
  - destruct f; [|done]. injection Hs as <-. split; [done|by apply CcSame].
  - destruct ch as [c|]; [|done]. destruct (ch_loop c); try done. injection Hs as <-. split; [done|by apply CcSame].
  - destruct ch as [c|]; [|done]. destruct (_ && _); [done|]. destruct (channel_step l c) as [c'|] eqn:Hc; [|done].
    injection Hs as <-. split; [unfold unopened; cbn [st_pc st_channel]; by destruct pc|].
    eapply (CcStep _ _ _ _ _ _ l); eauto.
Qed.
End StartEnds.

(** ** Every tunnel is one of Tunnel.v *)
Section Moves.
Context `{StatusLib} `{MetadataAppend} (QueryService : string -> option ServiceDesc).
Context (reverse : bool) (client_opts server_opts : tunnelOpts).

Abbreviation joined := (joined QueryService reverse client_opts server_opts).

Lemma joined_channel_change n works req resp lk o c' req' :
  joined n works req resp lk -> channel_change true reverse client_opts o (lk_channel lk) c' ->
  (forall l, o = Some l -> channel_receives l = false) ->
  (forall id, req' id = req id ++ match o with Some l => channel_given l id | None => [] end) ->
  joined (n + 1) works req' resp (Link c' (lk_server lk) (lk_up lk) (lk_down lk)).
Proof.
  intros Hj Hc Hr Hreq. destruct Hc as [-> ->|secure ctxErr Hn -> ->|l c0 c1 E0 -> Hs Hl].
  - destruct lk. eapply joined_more; [exact Hj|lia|done| |done]. intros id. by rewrite Hreq, app_nil_r.
  - eapply joined_more; [by apply joined_new_channel|lia|done| |done]. intros id. by rewrite Hreq, app_nil_r.
  - eapply joined_channel; [exact Hj|done|exact Hs|..].
    + destruct Hl as [Hl|[_ ->]]; [by apply Hr|done].
    + intros id. rewrite Hreq. by destruct Hl as [->|[-> ->]].
Qed.

Lemma joined_server_change n works req resp lk o d' works' resp' :
  joined n works req resp lk -> server_change true reverse server_opts QueryService o (lk_server lk) d' ->
  (forall l, o = Some l -> served_receives l = false) ->
  (works' -> works /\ match o with Some (SdServer l) => recv_fails l = false | _ => True end) ->
  (forall id, resp' id = resp id ++ match o with Some (SdServer l) => server_given l id | _ => [] end) ->
  joined (n + 1) works' req resp' (Link (lk_channel lk) d' (lk_up lk) (lk_down lk)).
Proof.
  intros Hj Hd Hr Hw Hresp. destruct Hd as [-> ->|ctxErr Hn -> ->|closing l d0 d1 E0 -> Hs Hl].
  - destruct lk. eapply joined_more; [exact Hj|lia|tauto|done|]. intros id. by rewrite Hresp, app_nil_r.
  - eapply joined_more; [by apply joined_new_server|lia|tauto|done|]. intros id. by rewrite Hresp, app_nil_r.
  - assert (Hcase : (exists sl, l = SdServer sl /\ o = Some l) \/ (l = SdIsClosing \/ l = SdCreate)).
    { destruct Hl as [->|[_ ->]]; [|by right; left]. destruct l as [sl|m| |]; [left; by exists sl|by specialize (Hr _ eq_refl)|auto..]. }
    destruct Hcase as [(sl & -> & ->)|Hcase].
    + eapply joined_server; [exact Hj|done|exact Hs|by specialize (Hr _ eq_refl)|done|done].
    + assert (Eo : match o with Some (SdServer _) => False | _ => True end)
        by (destruct Hl as [->|[-> _]]; [by destruct Hcase as [-> | ->]|done]).
      eapply joined_more; [eapply joined_create; [exact Hj|done|exact Hcase|exact Hs]|lia|tauto|done|].
      intros id. rewrite Hresp. destruct o as [[]|]; try done; by rewrite app_nil_r.
Qed.
End Moves.

Section SystemInvariant.
Context {K : Type} `{Countable K} `{StatusLib} `{MetadataAppend}.
Context (forward_services : string -> option ServiceDesc) (handlers : Z).
Context (reverse_services : string -> option ServiceDesc).
Context (options : TunnelServiceHandlerOptions K) (client_opts : Z -> tunnelOpts) (reverse_opts : tunnelOpts).

Abbreviation step := (system_step forward_services handlers reverse_services client_opts reverse_opts).
Abbreviation joined_at := (fun t => joined (services forward_services reverse_services t) (is_reverse t)
  (opts_of_channel options client_opts t) (opts_of_server options reverse_opts t)).

Record system_inv (ls : list (system_label K)) (y : system K) : Prop := {
  yi_links : forall t, joined_at t (len ls) (up_works t ls) (requests t ls) (responses t ls) (link_of t y);
  yi_opts : hd_tunnelOpts (sy_handler y) = handler_opts options;
  yi_rev : exists rls, run (rs_step reverse_services reverse_opts) rls NewReverseTunnelServer = Some (sy_rev y);
  yi_md : all_md_ok (sy_rev y);
  yi_starts : forall f s, sy_starts y !! f = Some s -> unopened s;
}.

Lemma requests_snoc t ls l id : requests (K := K) t (ls ++ [l]) id = requests t ls id ++ label_requests t l id.
Proof. unfold requests. rewrite List.flat_map_app. simpl. by rewrite app_nil_r. Qed.
Lemma responses_snoc t ls l id : responses (K := K) t (ls ++ [l]) id = responses t ls id ++ label_responses t l id.
Proof. unfold responses. rewrite List.flat_map_app. simpl. by rewrite app_nil_r. Qed.
Lemma works_snoc t (ls : list (system_label K)) l :
  up_works t (ls ++ [l]) -> up_works t ls /\ match on_server t l with Some l => recv_fails l = false | None => True end.
Proof. unfold up_works. by intros [? [? _]%Forall_cons_1]%Forall_app. Qed.

(** What a step must show of a tunnel. *)
Definition goes_on (t : tunnel_id) (ls : list (system_label K)) (l : system_label K) (y' : system K) : Prop :=
  joined_at t (len ls + 1) (up_works t (ls ++ [l])) (requests t (ls ++ [l])) (responses t (ls ++ [l])) (link_of t y').

Lemma goes_channel t ls l y c' :
  system_inv ls y ->
  channel_change true (is_reverse t) (opts_of_channel options client_opts t) (on_channel t l) (channel_end t y) c' ->
  on_server t l = None -> (forall k, on_channel t l = Some k -> channel_receives k = false) ->
  forall y', link_of t y' = Link c' (server_end t y) (sy_counts y t).1 (sy_counts y t).2 -> goes_on t ls l y'.
Proof.
  intros Hinv Hc Hns Hr y' E. unfold goes_on. rewrite E.
  apply (joined_more _ _ _ _ (len ls + 1) (up_works t ls) (requests t (ls ++ [l])) (responses t ls)); [|lia| |done|].
  - eapply (joined_channel_change _ _ _ _ _ _ _ _ (link_of t y)); [apply (yi_links _ _ Hinv)|exact Hc|exact Hr|].
    intros id. by rewrite requests_snoc.
  - by intros [? _]%works_snoc.
  - intros id. rewrite responses_snoc. unfold label_responses. by rewrite Hns, app_nil_r.
Qed.

Lemma goes_server t ls l o y d' :
  system_inv ls y ->
  server_change true (is_reverse t) (opts_of_server options reverse_opts t)
    (services forward_services reverse_services t) o (server_end t y) d' ->
  on_channel t l = None -> on_server t l = (match o with Some (SdServer sl) => Some sl | _ => None end) ->
  (forall k, o = Some k -> served_receives k = false) ->
  forall y', link_of t y' = Link (channel_end t y) d' (sy_counts y t).1 (sy_counts y t).2 -> goes_on t ls l y'.
Proof.
  intros Hinv Hd Hnc Ho Hr y' E. unfold goes_on. rewrite E.
  apply (joined_more _ _ _ _ (len ls + 1) (up_works t (ls ++ [l])) (requests t ls) (responses t (ls ++ [l]))); [|lia|done| |done].
  - eapply (joined_server_change _ _ _ _ _ _ _ _ (link_of t y)); [apply (yi_links _ _ Hinv)|exact Hd|exact Hr|..].
    + intros [? Hf]%works_snoc. split; [done|]. rewrite Ho in Hf. by destruct o as [[]|].
    + intros id. rewrite responses_snoc. unfold label_responses. rewrite Ho. by destruct o as [[]|].
  - intros id. rewrite requests_snoc. unfold label_requests. by rewrite Hnc, app_nil_r.
Qed.

(** A tunnel whose ends stay. *)
Lemma system_goes_same t ls l y y' :
  system_inv ls y -> on_channel t l = None -> on_server t l = None -> link_of t y' = link_of t y -> goes_on t ls l y'.
Proof.
  intros Hinv Hc Hs E. eapply (goes_channel t ls l y (channel_end t y)); try done; [|by intros k; rewrite Hc].
  by apply CcSame.
Qed.

Lemma counts_other t t' (y : system K) :
  t' <> t -> link_of t' (count_up t y) = link_of t' y /\ link_of t' (count_down t y) = link_of t' y.
Proof. intros Hne. unfold link_of. simpl. by rewrite !decide_False. Qed.

(** ** The steps of each component *)
Lemma handler_goes t ls sl hl y h' :
  system_inv ls y -> handler_step forward_services handlers hl (sy_handler y) = Some h' -> handler_agreed hl = true ->
  on_channel t sl = match t with Rev i => reverse_action i hl | Fwd _ => None end ->
  on_server t sl = match t with
                   | Fwd f => match forward_action f hl with Some (SdServer l) => Some l | _ => None end
                   | Rev _ => None
                   end ->
  match t with
  | Rev i => forall k, reverse_action i hl = Some k -> channel_receives k = false
  | Fwd f => forall k, forward_action f hl = Some k -> served_receives k = false
  end ->
  goes_on t ls sl (yset_handler h' y).
Proof.
  intros Hinv Hs Hag Ec Es Hr. destruct t as [f|i].
  - eapply (goes_server (Fwd f) ls sl (forward_action f hl) y (forward_server f h')); try done.
    pose proof (handler_step_server _ _ _ _ _ f Hs Hag) as Hd. by rewrite (yi_opts _ _ Hinv) in Hd.
  - eapply (goes_channel (Rev i) ls sl y (reverse_channel i h')); try done; rewrite Ec; [|done].
    pose proof (handler_step_channel _ _ _ _ _ i Hs Hag) as Hd. by rewrite (yi_opts _ _ Hinv) in Hd.
Qed.

Lemma no_tunnel_yet ls y i c :
  system_inv ls y -> rs_serves (sy_rev y) !! i = Some c -> is_serving (sv_pc c) = false -> sv_tunnel c = None.
Proof.
  intros Hinv Hi Hc. destruct (yi_rev _ _ Hinv) as (rls & Hrls).
  pose proof (ci_carries _ _ _ _ (xi_calls _ _ _ _ (rs_run_inv _ _ _ _ Hrls) i c Hi)) as Hca. unfold carries in Hca.
  destruct (sv_tunnel c); [|done]. destruct Hca as [Ht _]. congruence.
Qed.

Lemma rev_goes t ls sl rl y s' :
  system_inv ls y -> rs_step reverse_services reverse_opts rl (sy_rev y) = Some s' -> rev_agreed rl = true ->
  on_channel t sl = None ->
  on_server t sl = match t with
                   | Rev i => match rev_action i rl with Some (SdServer l) => Some l | _ => None end
                   | Fwd _ => None
                   end ->
  match t with Rev i => forall k, rev_action i rl = Some k -> served_receives k = false | Fwd _ => True end ->
  goes_on t ls sl (yset_rev s' y).
Proof.
  intros Hinv Hs Hag Ec Es Hr. destruct t as [f|i]; [by eapply system_goes_same|].
  eapply (goes_server (Rev i) ls sl (rev_action i rl) y (served_by i s')); try done.
  destruct (rs_step_ends _ _ _ _ _ Hs Hag (yi_md _ _ Hinv)) as [_ Hd]; [|apply Hd].
  intros i' c Hi. by eapply no_tunnel_yet.
Qed.

Lemma forward_channel_set f f' s (m : gmap Z start_conf) :
  forward_channel f (<[f' := s]> m) = if decide (f' = f) then st_channel s else forward_channel f m.
Proof.
  unfold forward_channel. destruct (decide (f' = f)) as [->|Hne]; [by rewrite lookup_insert_eq|].
  by rewrite lookup_insert_ne.
Qed.

Lemma start_goes t ls sl f l s s' y :
  system_inv ls y -> sy_starts y !! f = Some s -> start_step (client_opts f) l s = Some s' -> start_agreed l = true ->
  on_channel t sl = (if decide (t = Fwd f) then start_action l else None) -> on_server t sl = None ->
  (t = Fwd f -> forall k, start_action l = Some k -> channel_receives k = false) ->
  goes_on t ls sl (yset_start f s' y).
Proof.
  intros Hinv Hf Hs Hag Ec Es Hr. destruct (decide (t = Fwd f)) as [->|Hne].
  - destruct (start_step_ends _ _ _ _ Hs Hag (yi_starts _ _ Hinv f s Hf)) as [_ Hc].
    eapply (goes_channel (Fwd f) ls sl y (st_channel s')); try done; rewrite ?Ec; [|by apply Hr|].
    + simpl. unfold forward_channel. by rewrite Hf.
    + unfold link_of. simpl. rewrite forward_channel_set. by rewrite decide_True.
  - eapply system_goes_same; try done. unfold link_of. destruct t as [f'|i]; [|done]. simpl. rewrite forward_channel_set.
    by rewrite decide_False by congruence.
Qed.

(** ** Deliveries *)
Lemma receipt_new m : served_receives (receipt m) = true /\ exists l, receipt m = l /\ match l with SdServer l => recv_fails l = false | _ => True end.
Proof. unfold receipt. destruct (is_new m); (split; [done|by eexists]). Qed.

Lemma delivered_up t ls l y c m d' :
  system_inv ls y -> channel_end t y = Some c -> ch_wire c !! (sy_counts y t).1 = Some m ->
  server_change true (is_reverse t) (opts_of_server options reverse_opts t)
    (services forward_services reverse_services t) (Some (receipt m)) (server_end t y) d' ->
  on_channel t l = None -> on_server t l = None ->
  forall y', link_of t y' = Link (channel_end t y) d' (S (sy_counts y t).1) (sy_counts y t).2 -> goes_on t ls l y'.
Proof.
  intros Hinv Hc Hm Hd Ec Es y' E. unfold goes_on. rewrite E.
  destruct Hd as [_ ?|ctxErr _ ? _|closing sl d0 d1 E0 -> Hs [[= <-]|[? _]]]; try done.
  apply (joined_more _ _ _ _ (len ls + 1) (up_works t ls) (requests t ls) (responses t ls)); [|lia| |..].
  - eapply (joined_up _ _ _ _ _ _ _ _ (link_of t y)); [apply (yi_links _ _ Hinv)|exact Hc|exact E0|exact Hm|exact Hs].
  - by intros [? _]%works_snoc.
  - intros id. rewrite requests_snoc. unfold label_requests. by rewrite Ec, app_nil_r.
  - intros id. rewrite responses_snoc. unfold label_responses. by rewrite Es, app_nil_r.
Qed.

Lemma delivered_down t ls l y d m c' :
  system_inv ls y -> server_end t y = Some d -> ts_wire (sd_server d) !! (sy_counts y t).2 = Some m ->
  channel_change true (is_reverse t) (opts_of_channel options client_opts t) (Some (KRecv (inr m))) (channel_end t y) c' ->
  on_channel t l = None -> on_server t l = None ->
  forall y', link_of t y' = Link c' (server_end t y) (sy_counts y t).1 (S (sy_counts y t).2) -> goes_on t ls l y'.
Proof.
  intros Hinv Hd Hm Hc Ec Es y' E. unfold goes_on. rewrite E.
  destruct Hc as [_ ?|secure ctxErr _ ? _|k c0 c1 E0 -> Hs [[= <-]|[? _]]]; try done.
  apply (joined_more _ _ _ _ (len ls + 1) (up_works t ls) (requests t ls) (responses t ls)); [|lia| |..].
  - eapply (joined_down _ _ _ _ _ _ _ _ (link_of t y)); [apply (yi_links _ _ Hinv)|exact E0|exact Hd|exact Hm|exact Hs].
  - by intros [? _]%works_snoc.
  - intros id. rewrite requests_snoc. unfold label_requests. by rewrite Ec, app_nil_r.
  - intros id. rewrite responses_snoc. unfold label_responses. by rewrite Es, app_nil_r.
Qed.

(** What the network has of a tunnel is what its server has sent. *)
Lemma sent_down_wire ls t y n m :
  system_inv ls y -> sent_down t y !! n = Some m -> exists d, server_end t y = Some d /\ ts_wire (sd_server d) !! n = Some m.
Proof.
  intros Hinv Hm. destruct t as [f|i]; simpl in *.
  - destruct (forward_server f (sy_handler y)) as [d|]; [|done]. by exists d.
  - unfold sent_by in Hm. unfold served_by. destruct (rs_serves (sy_rev y) !! i) as [c|] eqn:Hi; [|done].
    destruct (yi_rev _ _ Hinv) as (rls & Hrls).
    pose proof (ci_carries _ _ _ _ (xi_calls _ _ _ _ (rs_run_inv _ _ _ _ Hrls) i c Hi)) as Hca. unfold carries in Hca.
    destruct (sv_tunnel c) as [d|]; [|destruct Hca as [_ E]; by rewrite E in Hm].
    destruct Hca as (_ & _ & Hp & _). exists d. split; [done|]. by eapply prefix_lookup_Some.
Qed.

Lemma sent_up_wire t (y : system K) n m :
  sent_up t y !! n = Some m -> exists c, channel_end t y = Some c /\ ch_wire c !! n = Some m.
Proof. unfold sent_up. destruct (channel_end t y) as [c|]; [|done]. by exists c. Qed.

(** ** All steps *)
Lemma on_handler_inv hl (y y' : system K) :
  on_handler forward_services handlers hl y = Some y' ->
  exists h', handler_step forward_services handlers hl (sy_handler y) = Some h' /\ y' = yset_handler h' y.
Proof. unfold on_handler. destruct (handler_step _ _ _ _) as [h|]; [|done]. intros [= <-]. by exists h. Qed.

Lemma on_rev_inv rl (y y' : system K) :
  on_rev reverse_services reverse_opts rl y = Some y' ->
  exists s', rs_step reverse_services reverse_opts rl (sy_rev y) = Some s' /\ y' = yset_rev s' y.
Proof. unfold on_rev. destruct (rs_step _ _ _ _) as [s|]; [|done]. intros [= <-]. by exists s. Qed.

Lemma on_start_inv f l (y y' : system K) :
  on_start client_opts f l y = Some y' ->
  exists s s', sy_starts y !! f = Some s /\ start_step (client_opts f) l s = Some s' /\ y' = yset_start f s' y.
Proof.
  unfold on_start. destruct (sy_starts y !! f) as [s|]; [|done]. destruct (start_step _ _ _) as [s'|] eqn:Hs; [|done].
  intros [= <-]. by exists s, s'.
Qed.

(** The actions of a component of its own. *)
Lemma handler_label_goes ls hl (y : system K) (h' : handler K) t :
  system_inv ls y -> handler_allowed hl y = true ->
  handler_step forward_services handlers hl (sy_handler y) = Some h' -> goes_on t ls (YHandler hl) (yset_handler h' y).
Proof.
  intros Hinv Hal Hs. eapply handler_goes; [done|exact Hs|..].
  - destruct hl; try done; simpl in *; by apply andb_true_iff in Hal as [? _].
  - destruct t, hl; try done.
  - destruct t, hl as [| f' [] | | | | | | | | ]; try done; simpl; by destruct (decide _).
  - destruct t as [f|i], hl as [|f' l| | |i' l| | | | | ]; try done; simpl in *; destruct (decide _); try done;
      intros k [= <-]; by apply negb_true_iff in Hal.
Qed.

Lemma rev_label_goes ls rl (y : system K) s' t :
  system_inv ls y -> rev_allowed rl y = true ->
  rs_step reverse_services reverse_opts rl (sy_rev y) = Some s' -> goes_on t ls (YRev rl) (yset_rev s' y).
Proof.
  intros Hinv Hal Hs. eapply rev_goes; [done|exact Hs|..].
  - destruct rl as [|i' l| | | | | | | | | ]; try done. destruct l as [|[]| | | | | ]; try done.
    simpl in *. by apply andb_true_iff in Hal as [? _].
  - by destruct t.
  - destruct t; [done|]. destruct rl as [|i' l| | | | | | | | | ]; try done. destruct l as [| | | | |l| ]; try done.
    simpl. destruct l; by destruct (decide _).
  - destruct t as [f|i]; [done|]. destruct rl as [|i' l| | | | | | | | | ]; try done. destruct l as [| | | | |l| ]; try done.
    simpl in *. destruct (decide _); [|done]. intros k [= <-]. by apply negb_true_iff in Hal.
Qed.

Lemma start_label_goes ls f l s s' (y : system K) t :
  system_inv ls y -> start_allowed f l y = true -> sy_starts y !! f = Some s ->
  start_step (client_opts f) l s = Some s' -> goes_on t ls (YStart f l) (yset_start f s' y).
Proof.
  intros Hinv Hal Hf Hs. eapply start_goes; [done|done|exact Hs|..].
  - destruct l as [|[]| | | | | | | ]; try done. simpl in *. by apply andb_true_iff in Hal as [? _].
  - destruct t as [f'|i].
    + destruct (decide (Fwd f' = Fwd f)) as [[= ->]|Hne].
      * destruct l; try done. simpl. by rewrite decide_True.
      * destruct l; try done. simpl. rewrite decide_False; [done|]. intros ->. by apply Hne.
    + rewrite decide_False by done. by destruct l.
  - by destruct t.
  - intros _ k Hk. destruct l; try done. injection Hk as ->. simpl in Hal. by apply negb_true_iff in Hal.
Qed.

(** The arrival of a message: at its tunnel, and what other tunnels see of it. *)
Lemma up_goes ls t0 y y' t :
  system_inv ls y -> step (YUp t0) y = Some y' -> goes_on t ls (YUp t0) y'.
Proof.
  intros Hinv Hs. cbn [system_step] in Hs. destruct (sent_up t0 y !! _) as [m|] eqn:Hm; [|done].
  destruct (sent_up_wire _ _ _ _ Hm) as (c & Hc & Hw). destruct (receipt_new m) as [_ (l & El & _)].
  destruct t0 as [f|i].
  - apply on_handler_inv in Hs as (h' & Hs & ->). cbn [sy_handler count_up] in Hs.
    destruct (decide (t = Fwd f)) as [->|Hne].
    + eapply (delivered_up (Fwd f) ls _ y c m (forward_server f h')); try done.
      * pose proof (handler_step_server _ _ _ _ _ f Hs eq_refl) as Hd. rewrite (yi_opts _ _ Hinv) in Hd.
        simpl in Hd. by rewrite decide_True in Hd.
      * unfold link_of. simpl. by rewrite decide_True.
    + pose proof (counts_other (Fwd f) t y Hne) as [E _].
      assert (Eq : link_of t (yset_handler h' (count_up (Fwd f) y)) = link_of t (yset_handler h' y))
        by (unfold link_of in *; simpl; by rewrite decide_False).
      unfold goes_on. rewrite Eq.
      apply (handler_goes t ls (YUp (Fwd f)) _ y h' Hinv Hs eq_refl).
      * by destruct t.
      * destruct t as [f'|]; [|done]. simpl. rewrite decide_False; [done|]. intros ->. by apply Hne.
      * destruct t as [f'|]; [|done]. simpl. rewrite decide_False; [done|]. intros ->. by apply Hne.
  - apply on_rev_inv in Hs as (s' & Hs & ->). cbn [sy_rev count_up] in Hs.
    destruct (decide (t = Rev i)) as [->|Hne].
    + eapply (delivered_up (Rev i) ls _ y c m (served_by i s')); try done.
      * destruct (rs_step_ends _ _ _ _ _ Hs eq_refl (yi_md _ _ Hinv)) as [_ Hd].
        { intros i' c' Hi. by eapply no_tunnel_yet. }
        specialize (Hd i). simpl in Hd. by rewrite decide_True in Hd.
      * unfold link_of. simpl. by rewrite decide_True.
    + assert (Eq : link_of t (yset_rev s' (count_up (Rev i) y)) = link_of t (yset_rev s' y))
        by (unfold link_of in *; simpl; by rewrite decide_False).
      unfold goes_on. rewrite Eq.
      apply (rev_goes t ls (YUp (Rev i)) _ y s' Hinv Hs eq_refl).
      * by destruct t.
      * destruct t as [|i']; [done|]. simpl. rewrite decide_False; [done|]. intros ->. by apply Hne.
      * destruct t as [|i']; [done|]. simpl. rewrite decide_False; [done|]. intros ->. by apply Hne.
Qed.

Lemma down_goes ls t0 y y' t :
  system_inv ls y -> step (YDown t0) y = Some y' -> goes_on t ls (YDown t0) y'.
Proof.
  intros Hinv Hs. cbn [system_step] in Hs. destruct (sent_down t0 y !! _) as [m|] eqn:Hm; [|done].
  destruct (sent_down_wire _ _ _ _ _ Hinv Hm) as (d & Hd & Hw).
  destruct t0 as [f|i].
  - apply on_start_inv in Hs as (s & s' & Hf & Hs & ->). cbn [sy_starts count_down] in Hf.
    destruct (decide (t = Fwd f)) as [->|Hne].
    + eapply (delivered_down (Fwd f) ls _ y d m (st_channel s')); try done.
      * destruct (start_step_ends _ _ _ _ Hs eq_refl (yi_starts _ _ Hinv f s Hf)) as [_ Hc].
        simpl in *. unfold forward_channel. by rewrite Hf.
      * unfold link_of. simpl. rewrite forward_channel_set. by rewrite !decide_True.
    + assert (Eq : link_of t (yset_start f s' (count_down (Fwd f) y)) = link_of t (yset_start f s' y))
        by (unfold link_of in *; simpl; by rewrite decide_False).
      unfold goes_on. rewrite Eq.
      apply (start_goes t ls (YDown (Fwd f)) f _ s s' y Hinv Hf Hs eq_refl); [|by destruct t|done].
      rewrite decide_False by done. by destruct t.
  - apply on_handler_inv in Hs as (h' & Hs & ->). cbn [sy_handler count_down] in Hs.
    destruct (decide (t = Rev i)) as [->|Hne].
    + eapply (delivered_down (Rev i) ls _ y d m (reverse_channel i h')); try done.
      * pose proof (handler_step_channel _ _ _ _ _ i Hs eq_refl) as Hc. rewrite (yi_opts _ _ Hinv) in Hc.
        simpl in Hc. by rewrite decide_True in Hc.
      * unfold link_of. simpl. by rewrite decide_True.
    + assert (Eq : link_of t (yset_handler h' (count_down (Rev i) y)) = link_of t (yset_handler h' y))
        by (unfold link_of in *; simpl; by rewrite decide_False).
      unfold goes_on. rewrite Eq.
      apply (handler_goes t ls (YDown (Rev i)) _ y h' Hinv Hs eq_refl).
      * destruct t as [|i']; [done|]. simpl. rewrite decide_False; [done|]. intros ->. by apply Hne.
      * by destruct t.
      * destruct t as [|i']; [done|]. simpl. rewrite decide_False; [done|]. intros ->. by apply Hne.
Qed.

Lemma system_step_goes ls l y y' t : system_inv ls y -> step l y = Some y' -> goes_on t ls l y'.
Proof.
  intros Hinv Hs. destruct l as [f|f l|l|l|t0|t0]; [..|by apply (up_goes ls t0 y)|by apply (down_goes ls t0 y)];
    cbn [system_step] in Hs.
  - destruct (sy_starts y !! f) eqn:Hf; [done|]. injection Hs as <-. eapply system_goes_same; try done; [by destruct t..|].
    unfold link_of. destruct t as [f'|i]; [|done]. simpl. rewrite forward_channel_set.
    destruct (decide (f = f')) as [<-|]; [|done]. unfold forward_channel. by rewrite Hf.
  - destruct (start_allowed f l y) eqn:Hal; [|done]. apply on_start_inv in Hs as (s & s' & Hf & Hs & ->).
    by eapply start_label_goes.
  - destruct (rev_allowed l y) eqn:Hal; [|done]. apply on_rev_inv in Hs as (s' & Hs & ->). by eapply rev_label_goes.
  - destruct (handler_allowed l y) eqn:Hal; [|done]. apply on_handler_inv in Hs as (h' & Hs & ->).
    by eapply handler_label_goes.
Qed.
End SystemInvariant.

(** ** What holds of the whole program *)
Section SystemProperties.
Context {K : Type} `{Countable K} `{StatusLib} `{MetadataAppend}.
Context (forward_services : string -> option ServiceDesc) (handlers : Z).
Context (reverse_services : string -> option ServiceDesc).
Context (options : TunnelServiceHandlerOptions K) (client_opts : Z -> tunnelOpts) (reverse_opts : tunnelOpts).

Abbreviation step := (system_step forward_services handlers reverse_services client_opts reverse_opts).
Abbreviation inv := (system_inv forward_services reverse_services options client_opts reverse_opts).

Lemma rest_handler hl ls l (y y' : system K) h' :
  handler_step forward_services handlers hl (sy_handler y) = Some h' -> inv ls y ->
  sy_handler y' = h' -> sy_starts y' = sy_starts y -> sy_rev y' = sy_rev y ->
  (forall t, goes_on forward_services reverse_services options client_opts reverse_opts t ls l y') -> inv (ls ++ [l]) y'.
Proof.
  intros Hs [_ I2 I3 I4 I5] E1 E2 E3 Hl. split; rewrite ?E1, ?E2, ?E3; try done.
  - intros t. rewrite len_app. apply Hl.
  - by rewrite (handler_step_opts _ _ _ _ _ Hs).
Qed.

Lemma rest_rev rl ls l (y y' : system K) s' :
  rs_step reverse_services reverse_opts rl (sy_rev y) = Some s' -> rev_agreed rl = true -> inv ls y ->
  sy_rev y' = s' -> sy_starts y' = sy_starts y -> sy_handler y' = sy_handler y ->
  (forall t, goes_on forward_services reverse_services options client_opts reverse_opts t ls l y') -> inv (ls ++ [l]) y'.
Proof.
  intros Hs Hag Hinv E1 E2 E3 Hl. pose proof Hinv as [_ I2 (rls & Hrls) I4 I5]. split; rewrite ?E1, ?E2, ?E3; try done.
  - intros t. rewrite len_app. apply Hl.
  - exists (rls ++ [rl]). rewrite run_app, Hrls. simpl. by rewrite Hs.
  - apply (rs_step_ends _ _ _ _ _ Hs Hag I4). intros i c Hi. by eapply no_tunnel_yet.
Qed.

Lemma rest_start ls l f s (y y' : system K) :
  inv ls y -> unopened s -> sy_starts y' = <[f := s]> (sy_starts y) -> sy_handler y' = sy_handler y ->
  sy_rev y' = sy_rev y ->
  (forall t, goes_on forward_services reverse_services options client_opts reverse_opts t ls l y') -> inv (ls ++ [l]) y'.
Proof.
  intros [_ I2 I3 I4 I5] Hu E1 E2 E3 Hl. split; rewrite ?E1, ?E2, ?E3; try done.
  - intros t. rewrite len_app. apply Hl.
  - intros f' s'. intros [[<- <-]|[_ ?]]%lookup_insert_Some; [done|by eapply I5].
Qed.

Lemma system_step_inv ls l y y' : inv ls y -> step l y = Some y' -> inv (ls ++ [l]) y'.
Proof.
  intros Hinv Hs. assert (Hl : forall t, goes_on forward_services reverse_services options client_opts reverse_opts t ls l y')
    by (intros t; by eapply system_step_goes).
  destruct l as [f|f l|l|l|[f|i]|[f|i]]; cbn [system_step] in Hs.
  - destruct (sy_starts y !! f); [done|]. injection Hs as <-. by apply (rest_start _ _ f (start_begin (client_opts f)) y).
  - destruct (start_allowed f l y) eqn:Hal; [|done]. apply on_start_inv in Hs as (s & s' & Hf & Hs & ->).
    apply (rest_start _ _ f s' y); try done. eapply (start_step_ends _ _ _ _ Hs); [|by apply (yi_starts _ _ _ _ _ _ _ Hinv f)].
    destruct l as [|[]| | | | | | | ]; try done. simpl in *. by apply andb_true_iff in Hal as [? _].
  - destruct (rev_allowed l y) eqn:Hal; [|done]. apply on_rev_inv in Hs as (s' & Hs & ->).
    apply (rest_rev l _ _ y _ s'); try done. destruct l as [|i' l| | | | | | | | | ]; try done. destruct l as [|[]| | | | | ]; try done.
    simpl in *. by apply andb_true_iff in Hal as [? _].
  - destruct (handler_allowed l y); [|done]. apply on_handler_inv in Hs as (h' & Hs & ->). by apply (rest_handler l _ _ y _ h').
  - destruct (_ !! _) as [m|]; [|done]. apply on_handler_inv in Hs as (h' & Hs & ->). by eapply (rest_handler _ _ _ y).
  - destruct (_ !! _) as [m|]; [|done]. apply on_rev_inv in Hs as (s' & Hs & ->). by eapply (rest_rev _ _ _ y).
  - destruct (_ !! _) as [m|]; [|done]. apply on_start_inv in Hs as (s & s' & Hf & Hs & ->).
    eapply (rest_start _ _ f s' y); try done. eapply (start_step_ends _ _ _ _ Hs); [done|].
    by apply (yi_starts _ _ _ _ _ _ _ Hinv f).
  - destruct (_ !! _) as [m|]; [|done]. apply on_handler_inv in Hs as (h' & Hs & ->). by eapply (rest_handler _ _ _ y).
Qed.

Lemma system_run_inv ls y : run step ls (system_start options) = Some y -> inv ls y.
Proof.
  apply (run_history step inv); [|intros; by eapply system_step_inv].
  split; try done; [|by exists []]. intros t. unfold link_of. simpl.
  assert (E : Link (channel_end t (system_start options)) (server_end t (system_start options)) 0 0 = Link None None 0 0)
    by (by destruct t).
  rewrite E. apply joined_start.
Qed.

(** The ends of a tunnel, once both are there, as a state of Tunnel.v. *)
Lemma both_ends ls y t c d :
  inv ls y -> channel_end t y = Some c -> server_end t y = Some d ->
  exists secure client_ctx server_ctx tls,
    traced (services forward_services reverse_services t) (is_reverse t) (opts_of_channel options client_opts t)
      (opts_of_server options reverse_opts t) (len ls) (up_works t ls) (requests t ls) (responses t ls)
      secure client_ctx server_ctx tls
      (Tunnel c (sd_server d) (dealt d (sy_counts y t).1) (sy_counts y t).2).
Proof.
  intros Hinv Hc Hd. destruct (jo_run _ _ _ _ _ _ _ _ _ (yi_links _ _ _ _ _ _ _ Hinv t)) as (sec & cc & sc & Hrun).
  destruct (Hrun sec cc sc) as (tls & Ht); [done|done|]. exists sec, cc, sc, tls.
  unfold tunnel_of in Ht. simpl in Ht. by rewrite Hc, Hd in Ht.
Qed.

(** C1: The whole program is made of tunnels as Tunnel.v has them.  In any run of a
    network server and a network client, with any number of forward and reverse
    tunnels being opened, used, shut down and closed at the same time, the two ends of
    each tunnel are in a state that a run of that tunnel alone reaches, between the
    same options and services: the two ends agree on the settings without exception, no
    tunnel sees anything of another, and what [Serve], [Stop], the handler and the
    timers do to it is nothing that the theorems on one tunnel do not cover.  The
    run is no longer, the messages given to its streams are the same, and its
    transport works if that of the program's tunnel does. *)
Theorem system_refines_tunnels ls y t c d :
  run step ls (system_start options) = Some y -> channel_end t y = Some c -> server_end t y = Some d ->
  exists secure client_ctx server_ctx tls,
    run (tunnel_step (services forward_services reverse_services t)) tls
      (tunnel_start (is_reverse t) secure (opts_of_channel options client_opts t)
         (opts_of_server options reverse_opts t) client_ctx server_ctx)
      = Some (Tunnel c (sd_server d) (dealt d (sy_counts y t).1) (sy_counts y t).2) /\
    len tls <= len ls /\
    (up_works t ls -> Forall (fun l => delivers l = true) tls) /\
    forall id, requests_given tls id = requests t ls id /\ responses_given tls id = responses t ls id.
Proof.
  intros Hrun Hc Hd.
  destruct (both_ends ls y t c d (system_run_inv ls y Hrun) Hc Hd) as (sec & cc & sc & tls & [T1 T2 T3 T4 T5]).
  exists sec, cc, sc, tls. by split_and!.
Qed.


(** The two ends of a tunnel, as the state of a tunnel. *)
Definition tunnel_at (t : tunnel_id) (y : system K) (c : tunnelChannel) (d : served) : tunnel :=
  Tunnel c (sd_server d) (dealt d (sy_counts y t).1) (sy_counts y t).2.

(** C3: No call of an RPC waits for what was sent, whatever goes on beside it.  For valid
    options and any run of a network server and client in which the stream of a tunnel,
    forward or reverse, has not failed towards its server: when what was sent on the
    tunnel has arrived and both ends still have the RPC, a call of [RecvMsg] that waits,
    of the handler or of the caller, has been given all the data in the frames that the
    other end has sent for the RPC: the messages read, the one in hand and the bytes
    that the read holds are all of it, and what it holds of a message is less than the
    message, so that no message that was sent to its end is missing; and no [SendMsg] of
    the other end waits for its window, so the two never wait for each other.  Nothing is lost for
    data or windows by frames of other streams, refused RPCs, small updates that are
    held back, or updates that come while a chunk is being cut. *)
Theorem system_progress ls y t c d id vc vs :
  opts_ok (handler_opts options) -> (forall f, opts_ok (client_opts f)) -> opts_ok reverse_opts ->
  up_works t ls -> len ls <= MaxInt64 ->
  run step ls (system_start options) = Some y -> channel_end t y = Some c -> server_end t y = Some d ->
  at_rest (tunnel_at t y c d) id vc vs ->
  (forall ph, handler_waits vs ph -> ~ waits (cs_send (cc_str vc)) /\
     has_read_all (requests t ls id) (requests_of id (ch_wire c)) (sc_reads vs) ph) /\
  (forall ph, caller_waits vc ph -> ~ waits (ss_send (sc_str vs)) /\
     has_read_all (responses t ls id) (frames_of id (ts_wire (sd_server d))) (cc_reads vc) ph).
Proof.
  intros Hho Hco Hro Hw Hlen Hrun Hc Hd Hrest.
  assert (Hoc : opts_ok (opts_of_channel options client_opts t)) by (destruct t; [apply Hco|done]).
  assert (Hos : opts_ok (opts_of_server options reverse_opts t)) by (by destruct t).
  destruct (both_ends ls y t c d (system_run_inv ls y Hrun) Hc Hd) as (sec & cc & sc & tls & [T1 T2 T3 T4 T5]).
  rewrite <- T4, <- T5. by eapply (tunnel_progress _ _ _ _ _ _ _ Hoc Hos tls _ id vc vs (T3 Hw) ltac:(lia) T1).
Qed.
End SystemProperties.

(** ** Examples: an RPC on a forward tunnel and one on a reverse tunnel, at the same
    time. *)
Module SystemExample.
#[local] Existing Instance ExampleStatus.lib.
#[local] Existing Instance ExampleMetadata.lib.
#[local] Existing Instance ExampleAppend.lib.

Definition opts : tunnelOpts := TunnelChannelExample.opts.
Definition label : Type := system_label string.
Definition step : label -> system string -> option (system string) :=
  system_step TunnelServerExample.services 1 TunnelServerExample.services (fun _ => opts) opts.
Definition start : system string := system_start HandlerExample.options.
Definition at_end (ls : list label) : system string := default start (run step ls start).
Definition headers : MD := HandlerExample.headers.
Definition A : bytes := TunnelExample.A.

(** Actions at the ends of a tunnel. *)
Definition chan (t : tunnel_id) (l : channel_label) : label :=
  match t with Fwd f => YStart f (SChannel l) | Rev i => YHandler (DChannel i l) end.
Definition serv (t : tunnel_id) (l : served_label) : label :=
  match t with Fwd f => YHandler (DServed f l) | Rev i => YRev (SCall i (SvTunnel l)) end.
Definition asks (t : tunnel_id) : label :=
  match t with Fwd f => YHandler (DServed f SdIsClosing) | Rev i => YRev (SIsClosing i) end.

Definition open_forward : list label :=
  [YNew 1; YStart 1 (SOpenTunnel None); YHandler (DOpenTunnel 1 headers None); serv (Fwd 1) (SdServer (TPosted 0));
   YStart 1 (SHeader (inr headers) false None); chan (Fwd 1) KStart; YDown (Fwd 1); YStart 1 SSettings; YStart 1 SDone].
Definition open_reverse : list label :=
  [YRev (SServe 1); YRev (SCall 1 (SvOpened None)); YHandler (DOpenReverse 1 headers false None); chan (Rev 1) KStart;
   YRev (SCall 1 (SvHeaders (inr headers))); YRev (SCall 1 SvEstDone); YRev (SAdd 1 None);
   serv (Rev 1) (SdServer (TPosted 0)); YDown (Rev 1)] ++ replicate 7 (YHandler (DReverse 1)).

(** A unary RPC: the request, its handler, the response. *)
Definition request (t : tunnel_id) : list label :=
  [chan t (KNewStream (TunnelExample.args "/svc/Get")); chan t (KSendNew None);
   chan t (KStream 1 (CSendMsg (inr A))); chan t (KStream 1 (CSend LLoad)); chan t (KStream 1 (CSend LCas));
   chan t (KStream 1 (CSend (LCall None))); chan t (KStream 1 (CSend LReturn)); chan t (KStream 1 (CCloseSend None));
   YUp t; asks t; serv t SdCreate; YUp t; YUp t].
Definition respond (t : tunnel_id) : list label :=
  [serv t (SdServer (TStream 1 FRecv)); serv t (SdServer (TStream 1 (FSendMsg None (inr A))));
   serv t (SdServer (TStream 1 (FSend LLoad))); serv t (SdServer (TStream 1 (FSend LCas)));
   serv t (SdServer (TStream 1 (FSend (LCall None)))); serv t (SdServer (TStream 1 (FSend LReturn)));
   serv t (SdServer (TStream 1 (FReturn (HReturned None)))); serv t (SdServer (TStream 1 (FFinish 0)));
   serv t (SdServer (TStream 1 FPosted));
   YDown t; YDown t; YDown t; chan t (KStream 1 CMeta); chan t (KStream 1 CDeferred); chan t (KStream 1 CRecv)].

Definition trace : list label :=
  open_forward ++ open_reverse ++ request (Rev 1) ++ request (Fwd 1) ++ respond (Rev 1) ++ respond (Fwd 1).

Definition channel_at (t : tunnel_id) (ls : list label) : tunnelChannel :=
  default (newTunnelChannel true false false opts None) (channel_end t (at_end ls)).
Definition server_at (t : tunnel_id) (ls : list label) : served :=
  default (served_start true false opts None) (server_end t (at_end ls)).

(** An RPC whose handler calls [RecvMsg] before the caller has sent anything. *)
Definition listening : list label :=
  open_reverse ++ [chan (Rev 1) (KNewStream (TunnelExample.args "/svc/Get")); chan (Rev 1) (KSendNew None);
    YUp (Rev 1); asks (Rev 1); serv (Rev 1) SdCreate; serv (Rev 1) (SdServer (TStream 1 FRecv))].
Definition silent : client_conf :=
  default ProgressExample.no_caller (ch_objects (channel_at (Rev 1) listening) !! 1).
Definition listener : stream_conf :=
  default ProgressExample.no_handler (ts_objects (sd_server (server_at (Rev 1) listening)) !! 1).

Lemma example_opts : opts_ok (handler_opts HandlerExample.options) /\ opts_ok opts.
Proof. split; [|apply TunnelChannelExample.example_opts_ok]. apply initOptions_ok. vm_compute. repeat split; congruence. Qed.

(** Both callers get their response. *)
Example rpcs_answered :
  (fun t => (fun v => (cc_reads v, cs_done (cc_str v))) <$> ch_objects (channel_at t trace) !! 1) <$> [Fwd 1; Rev 1]
  = replicate 2 (Some ([ReadReturn (Some A) true None], Some EOF)).
Proof. vm_compute. reflexivity. Qed.
End SystemExample.

#[local] Existing Instance ExampleStatus.lib.
#[local] Existing Instance ExampleMetadata.lib.
#[local] Existing Instance ExampleAppend.lib.

Lemma system_refines_tunnels_witness :
  exists secure client_ctx server_ctx tls,
    run (tunnel_step TunnelServerExample.services) tls
      (tunnel_start true secure (handler_opts HandlerExample.options) SystemExample.opts client_ctx server_ctx)
      = Some (Tunnel (SystemExample.channel_at (Rev 1) SystemExample.trace)
                (sd_server (SystemExample.server_at (Rev 1) SystemExample.trace)) 3 4) /\
    len tls <= 81.
Proof.
  destruct (system_refines_tunnels (H0 := ExampleStatus.lib) (H1 := ExampleMetadata.lib) (H2 := ExampleAppend.lib)
    TunnelServerExample.services 1 TunnelServerExample.services HandlerExample.options (fun _ => SystemExample.opts)
    SystemExample.opts SystemExample.trace (SystemExample.at_end SystemExample.trace) (Rev 1)
    (SystemExample.channel_at (Rev 1) SystemExample.trace) (SystemExample.server_at (Rev 1) SystemExample.trace)
    ltac:(vm_compute; reflexivity) ltac:(vm_compute; reflexivity) ltac:(vm_compute; reflexivity))
    as (sec & cc & sc & tls & Hrun & Hlen & _).
  exists sec, cc, sc, tls. split; [exact Hrun|exact Hlen].
Defined.


(** The handler of an RPC on the reverse tunnel waits for a message that the caller has
    not given to [SendMsg] yet. *)
Lemma system_progress_witness :
  exists vc vs ph, handler_waits vs ph /\ ~ waits (cs_send (cc_str vc)) /\ sc_reads vs = [] /\
    ch_objects (SystemExample.channel_at (Rev 1) SystemExample.listening) !! 1 = Some vc.
Proof.
  do 3 eexists.
  assert (Hw : handler_waits SystemExample.listener _)
    by (split; [vm_compute; reflexivity|split; vm_compute; reflexivity]).
  split; [exact Hw|]. split; [|split; [vm_compute; reflexivity|]].
  - refine (proj1 (proj1 (system_progress (H0 := ExampleStatus.lib) (H1 := ExampleMetadata.lib) (H2 := ExampleAppend.lib)
      TunnelServerExample.services 1 TunnelServerExample.services HandlerExample.options (fun _ => SystemExample.opts)
      SystemExample.opts SystemExample.listening (SystemExample.at_end SystemExample.listening) (Rev 1)
      (SystemExample.channel_at (Rev 1) SystemExample.listening) (SystemExample.server_at (Rev 1) SystemExample.listening) 1
      SystemExample.silent SystemExample.listener
      (proj1 SystemExample.example_opts) (fun _ => proj2 SystemExample.example_opts) (proj2 SystemExample.example_opts)
      ltac:(repeat constructor) ltac:(vm_compute; discriminate)
      ltac:(vm_compute; reflexivity) ltac:(vm_compute; reflexivity) ltac:(vm_compute; reflexivity) _) _ Hw)).
    split; [vm_compute; reflexivity|vm_compute; reflexivity|vm_compute; reflexivity| |vm_compute; reflexivity|vm_compute; reflexivity].
    split; [vm_compute; reflexivity|]. apply (bool_decide_unpack _). vm_compute. exact I.
  - vm_compute. reflexivity.
Defined.
